(* ===== verification/_CoqProject ===== *)
-Q . S2P
Prelude.v
Text.v
Runtime.v
ShutdownSignal.v
Nom.v
CrontabTypes.v
CrontabParser.v
Job.v
Database.v
Tls.v
Extensions.v
HookRegistry.v
Context.v
MigrationScripts.v
Migrations.v
FlagFilter.v
JobStore.v
JobRelease.v
Hooks.v
TaskHandler.v
AddJob.v
Tracing.v
Recovery.v
JobInvariant.v
Notify.v
QueueWakeup.v
BatcherTask.v
Batcher.v
LocalQueue.v
FetchLoop.v
Background.v
WorkerUtils.v
AdminApi.v
Executor.v
Drivers.v
Listener.v
AdminServer.v
AdminClient.v
Cli.v
CrontabRunner.v
CronRun.v
Runner.v
RunOnce.v
Dispatch.v
Slots.v
WorkerRun.v
Builder.v
Cron.v
