(* ===== verification/Prelude.v ===== *)
(** * Verification of graphile_worker_rs

    graphile_worker_rs is a PostgreSQL job queue.  Clients add jobs to a table;
    workers claim them with a locking query, run a handler and then complete,
    fail or return them; jobs of a named queue run one at a time; a cron runner
    adds jobs on schedule; a sweep gives back the jobs of workers that stopped
    checking in.  A schema migrator prepares the tables; a command line and a
    web server administer them.  This library models those parts and proves
    what makes each of them correct.

    ** The parts and where they are modelled

    Shared ground:
    - [Prelude] (this file): results and [let?], machine integers, text as
      Unicode scalar values with UTF-8, list functions and automation.
    - [Text]: the string operations of the standard library the parsers use.
    - [Runtime] (crates/graphile-worker-runtime): the choice of a runtime,
      sleeping, deadlines, intervals and spawned tasks.
    - [ShutdownSignal] (crates/graphile-worker-shutdown-signal): the handler of
      the operating system's requests against the futures that wait for one.

    - [Extensions] and [Context] (crates/graphile-worker-extensions, -ctx): the
      map indexed by type that reaches a task through its context.

    Tables and statements:
    - [Job] (crates/graphile-worker-job, -job-spec, -task-details): job rows,
      JSON values, job specifications, the task-identifier table.
    - [Database] (crates/graphile-worker-database, queries/src/rows.rs):
      identifier quoting, values and row decoding, errors and the retry policy.
      [Drivers] (its sqlx and tokio_postgres directories): how each driver binds
      parameters, runs statements and transactions and converts rows and
      errors.  [Listener] (listener.rs): the tasks that keep listening.
      [Tls] (crates/graphile-worker-postgres-tls, tokio_postgres/mod.rs): the
      connector of a build and what it trusts.
    - [MigrationScripts] (crates/graphile-worker-migrations-macros, -core) and
      [Migrations] (crates/graphile-worker-migrations): the registry of
      migrations read from a directory, and runners that apply it concurrently.
    - [FlagFilter] (queries/src/flag_filter.rs, job_query_helpers.rs,
      fetch_query_cache.rs): the claim filter, the claim query texts, their
      parameters and cache.
    - [JobStore] (queries/src/get_job.rs, batch_get_jobs.rs): the tables [Db]
      and the two claim statements.
    - [JobRelease] (queries/src/complete_job.rs, fail_job, return_jobs,
      recover_workers.rs, worker_heartbeat and the SQL functions they call in
      migrations/src/sql): every statement that gives up a claim, and the
      worker registry.
    - [AddJob] (queries/src/add_job, crates/graphile-worker-utils, m000022.sql):
      adding, replacing, deduplicating, removing and rescheduling jobs.
    - [Tracing] (queries/src/telemetry.rs, src/tracing.rs): the span that added
      a job, in its payload and back.
    - [JobInvariant]: all statements of [JobStore], [JobRelease], [AddJob] and
      the one of [Recovery] behind a hook's reschedule as one labelled
      transition system on [Db], with its invariants by rule induction.  The
      labels say what conditional invariants depend on: who completes which
      jobs, and which job a recovery hook gives attempts to.

    The worker:
    - [Hooks] and [HookRegistry] (crates/graphile-worker-lifecycle-hooks):
      interception by hooks, the registry of handlers by event type, and
      observers.  The trait [HookOutput] is a type class with its
      implementations as instances.
    - [TaskHandler] (crates/graphile-worker-task-handler): running single and
      batch tasks.
    - [Notify] (crates/graphile-worker-runtime/src/notify): the notification
      primitive packed into one machine word.
    - [QueueWakeup] (src/queue_wakeup.rs): queue-release hints over [Notify].
    - [BatcherTask] and [Batcher] (src/batcher): the task that collects requests
      into batches, and what flushing a batch does to tables, wakeups and hooks.
    - [LocalQueue] (src/local_queue): the prefetch caches of a worker and the
      coordinator that keeps returns and claims apart.  [FetchLoop]: when a
      queue fetches, the delay between fetches and the pulses that cut it.
    - [Recovery] (crates/graphile-worker-recovery): the sweep over dead workers.
      [Background] (src/recovery_tasks.rs, background_tasks.rs): the heartbeat
      and the sweeper of a worker, and the owners of such tasks.
    - [Runner] (src/runner): one job of one slot, from hooks to release.
      [RunOnce] (run_once.rs, streams/job_fetch.rs): running everything once.
      [Dispatch] (streams/job_signal, sources/dispatch.rs): signals and their
      dispatch.  [Slots] (job_loop, sources): what a slot does with a signal,
      over direct claims or over local queues.
      [WorkerRun] (lifecycle, job_loop): a whole run and its shutdown.
      [Builder] (src/builder, shutdown.rs, context_ext.rs): how a worker and
      its utilities come about.  [Cron] (src/cron): typed cron entries.

    Schedules:
    - [CrontabTypes] (crates/graphile-worker-crontab-types): schedule fields,
      timers, fill periods, crontab entries.
    - [Nom] and [CrontabParser] (crates/graphile-worker-crontab-parser): the
      grammar, against an interface of the parser combinators it calls.
    - [CrontabRunner] (crates/graphile-worker-crontab-runner): registration,
      backfill, ticks and the statement that schedules them.  [CronRun]: the
      whole runner, with failures and its waits between attempts.

    Administration:
    - [WorkerUtils] (crates/graphile-worker-utils): raw and batched additions
      and the maintenance statements beside concurrent sessions.
    - [Executor] (database/src/database.rs, executor.rs, the transactions of the
      drivers; utils/src/client.rs, executor.rs, schedule.rs, management.rs): the
      calls of the client as programs of statements, and the pool and the
      caller's transaction as executors, a type class, that run them.
    - [AdminApi] (crates/graphile-worker-admin-api): listings, their query
      texts, parameters and decoding, statistics, requests and responses.
    - [AdminServer] (crates/graphile-worker-admin-ui/src/native): authentication,
      cross-site protection, routing and the handlers.
    - [AdminClient] (crates/graphile-worker-admin-ui-client): the logic of the
      page in the browser, against the server that renders it.
    - [Cli] (crates/graphile-worker-cli): arguments, commands and output.

    ** State and statements

    [JobStore.Db] holds the tables the code touches (jobs, job_queues, tasks,
    workers, retirement markers and the sequences).  A SQL statement is a
    function on [Db], atomic as it is in the database; where the planner may
    choose (ties in an [order by], row order without one) it is a relation, and
    an executable instance is proved to satisfy it.  [Concurrent] lists the rows
    other transactions hold at the time of a [skip locked].  Timestamps are
    microseconds and durations nanoseconds.  [exp_secs] stands for PostgreSQL's
    [exp]; chrono's calendar, serde's deserialization, nom's combinators,
    base64, clap's tokenizing and the user's task are parameters, with what the
    code relies on as laws of a class or named hypotheses, and an instance for
    the witnesses.  Query texts are compared up to indentation.

    Failures of a statement are explicit where the code reacts to them:
    [Batcher.Outcome] distinguishes an acknowledged statement, one that was
    rolled back, and one that committed while its reply was lost.  Elsewhere an
    error leaves the tables as they were.

    Concurrent code ([ShutdownSignal], [Listener], [QueueWakeup], [BatcherTask], [LocalQueue], [FetchLoop],
    [RunOnce], [Dispatch], [Slots], [Migrations], [JobInvariant], [AdminClient], the
    cron table) is a step relation or a function on event sequences; its theorems quantify over
    all reachable states or all interleavings.

    ** What the theorems show

    - The tables stay well formed after any sequence of statements; named
      queues are serial and claims are exclusive as long as workers complete
      only jobs nobody else holds, and retired jobs stay so as long as recovery
      hooks leave them alone ([JobInvariant]); whatever administrators ask for
      meanwhile changes none of it ([AdminServer]).
    - A claim is safe, makes progress and respects the order ([JobStore]);
      giving a claim back, or completing it, is exact ([JobRelease]).
    - The batched statements do what the single ones do ([JobRelease]), a
      failure is applied at most once across batch, fallback and lost replies,
      and hooks and wakeups tell the truth ([Batcher], [Runner]).
    - A job runs at most once per claim and leads to exactly one release, whose
      effect on the row is exact whatever other sessions did meanwhile;
      the grace period bounds handlers ([Runner]); a signal is answered until
      nothing is ready ([Slots]); a run accounts for every
      claim ([RunOnce]), waits for its slots and drains them ([Dispatch]),
      outlives its jobs, except for claims a local queue failed to return, and
      winds down in order ([WorkerRun]).
    - Batching loses, duplicates and reorders nothing and terminates on
      shutdown ([BatcherTask]); wakeups are delivered ([QueueWakeup]) over a
      packed word that refines its abstract state ([Notify]); a sleeping fetch
      loop can be woken ([FetchLoop]).
    - Returning prefetched claims never takes a job from a handler, also when
      replies are lost and returns are retried or cancelled, and a release
      returns every claim ([LocalQueue]).
    - A sweep touches exactly the dead, and hooks that do not object do not
      change its effect ([Recovery]); a worker that keeps its heartbeat, with
      failures the threshold allows for, is never among them ([Background]).
    - Migrations apply once and in order over any interleaving of runners, and
      a schema that is too new is refused ([Migrations]).
    - A crontab fires at most once per minute over all runners, backfill adds
      exactly the missed minutes, and ticks are consecutive, unless an
      ambiguous local time makes the runner panic ([CrontabRunner]);
      through any failures a crontab with a fill period misses no tick
      ([CronRun]); typed schedules run when they say ([CrontabTypes]); crontab files
      round-trip, are in bounds and their errors located ([CrontabParser]).
    - Adding with a key replaces or retires its holder ([AddJob]); a batch task
      retries exactly its failed items ([TaskHandler]); hooks answer in order
      ([Hooks]); cleaning up keeps what is in use ([WorkerUtils]).
    - The client's calls do what their components say; in a transaction they
      take effect together or not at all, and retries apply a statement at
      most once ([Executor]).  Both drivers read an answer and classify an error
      alike, read back the job that was stored, close their transactions and retry only
      what was not applied ([Drivers]); the stream of notifications survives its
      connections ([Listener]); every connection trusts what was configured
      ([Tls]).  A job is linked to the span that added it ([Tracing]).  No
      request to shut down is lost ([ShutdownSignal]).  Deadlines are kept and intervals do not burst
      ([Runtime]).
    - Filters, query texts and their cache, quoting, decoding and retries are
      exact ([FlagFilter], [Database]); listings are parameterized and bounded
      ([AdminApi]).
    - A built worker claims only jobs it has a handler for ([Builder]), its
      typed cron entries add such jobs at the minutes they promise ([Cron]), and
      its tasks see the extensions that were added ([Extensions], [Context]).
      Writes
      need the configured credentials, a same-site origin and a server that is
      not read-only; refused requests learn nothing ([AdminServer]); a command
      makes the call it names ([Cli]).  The page of a server makes requests that
      server serves, loses no refresh, and shows, filters and exports jobs
      faithfully ([AdminClient]).

    Some theorems record behaviour that differs from what the code means to
    do: a late completion by a swept worker
    ([JobInvariant.unowned_completion_breaks_exclusion]), a retired job that a
    recovery hook revives ([JobInvariant.rescheduled_retired_job_is_claimed]), a
    local queue whose release fails ([WorkerRun.failed_release_is_left_behind]),
    the repeated hour of daylight saving time
    ([CronRun.ambiguous_reading_panics]), a claim dropped by a
    shutdown ([RunOnce.cancelled_fetch_leaks_claim]), a cancelled waiter
    ([Notify.cancelled_waiter_loses_notification]), the permits and lost
    notifications of the fetch loop ([FetchLoop.poll_interval_is_skipped],
    [mode_change_can_be_missed], [stale_abort_cuts_next_delay]), an installation
    that skips the revision check ([Migrations.fresh_install_skips_revision_check]),
    a unit step of days or months ([CrontabTypes.unit_step_never_runs]), the
    minute of an exact start ([CrontabRunner.start_minute_skipped]), durations
    that wrap ([Cli.long_duration_wraps]), jobs added from a task
    ([Builder.context_bypasses_schedule_hooks],
    [Builder.create_utils_ignores_local_time]), overspent jobs
    ([AdminServer.overspent_jobs_survive_cleanup]) and an [analyze] that fails in
    a transaction ([Executor.swallowed_analyze_loses_batch]).

    ** Fuel and bounds

    [dec] covers the 20 digits of a 64-bit integer.  Splitting a text and the
    repetitions of [Nom.exec_nom] have as many steps as the text has
    characters, of which each step consumes one.  The binary search of
    [Database] and the retry loops have as many steps as the table or the
    attempt limit allows; a migrator has one step per migration.
    [CrontabRunner.backfill_fuel] is one step per minute of the fill period,
    proved sufficient, also for [CronRun.backfill_loop].  The CSV reader of
    [AdminClient] has a step per record and per field.  No theorem is conditional on fuel being left.

    ** Not modelled

    Sockets, connection pools, the TLS protocol, signal delivery, and the
    channels, locks and executors of tokio and async-std are library code; what
    the program does with them is modelled as steps of its components.  The
    markup and styling of the page, the tracing setup and log output are
    presentation, and the build scripts produce assets.  In the modelled parts:
    the delays between statement retries, the deadlines of HTTP connections, and
    clap's reading of the command line. *)

From Stdlib Require Export Ascii String.
From stdpp Require Export base numbers list list_numbers strings gmap sets sorting.

#[export] Set Default Goal Selector "!".

(** ** Tactics *)

(** Splits every [if] and [match] in the goal and closes the cases that the
    hypotheses decide. *)
Ltac split_ifs :=
  repeat first [case_match | case_decide | case_bool_decide]; simplify_eq/=.

(** Case analysis on a boolean connective in the context. *)
Ltac bool_hyps :=
  repeat match goal with
  | H : andb _ _ = true |- _ => apply andb_true_iff in H; destruct H
  | H : orb _ _ = false |- _ => apply orb_false_iff in H; destruct H
  | H : negb _ = true |- _ => apply negb_true_iff in H
  | H : negb _ = false |- _ => apply negb_false_iff in H
  | H : bool_decide _ = true |- _ => apply bool_decide_eq_true in H
  | H : bool_decide _ = false |- _ => apply bool_decide_eq_false in H
  | H : Z.eqb _ _ = true |- _ => apply Z.eqb_eq in H
  | H : Z.eqb _ _ = false |- _ => apply Z.eqb_neq in H
  | H : Z.leb _ _ = true |- _ => apply Z.leb_le in H
  | H : Z.leb _ _ = false |- _ => apply Z.leb_gt in H
  | H : Z.ltb _ _ = true |- _ => apply Z.ltb_lt in H
  | H : Z.ltb _ _ = false |- _ => apply Z.ltb_ge in H
  end.

(** ** Results

    Rust's [Result<T, E>] and the [?] operator. *)

Inductive result (T E : Type) : Type :=
| Ok (v : T)
| Err (e : E).
Arguments Ok {T E} v.
Arguments Err {T E} e.

Declare Scope rust_scope.
Delimit Scope rust_scope with rust.
Open Scope rust_scope.

Notation "'let?' x := c 'in' k" :=
  (match c with Ok x => k | Err e => Err e end)
  (at level 10, x pattern, c at level 100, k at level 200,
   format "'[v' 'let?'  x  :=  c  'in' '/' k ']'") : rust_scope.

Definition is_ok {T E} (r : result T E) : bool :=
  match r with Ok _ => true | Err _ => false end.

Definition ok {T E} (r : result T E) : option T :=
  match r with Ok v => Some v | Err _ => None end.

Definition map_err {T E F} (f : E → F) (r : result T E) : result T F :=
  match r with Ok v => Ok v | Err e => Err (f e) end.

Definition result_map {T U E} (f : T → U) (r : result T E) : result U E :=
  match r with Ok v => Ok (f v) | Err e => Err e end.

#[export] Instance result_eq_dec {T E} `{EqDecision T, EqDecision E} :
  EqDecision (result T E).
Proof. solve_decision. Defined.

(** [iter().collect::<Result<Vec<_>, _>>()]: stops at the first error. *)
Fixpoint collect_result {T E} (l : list (result T E)) : result (list T) E :=
  match l with
  | [] => Ok []
  | r :: l' => let? v := r in let? vs := collect_result l' in Ok (v :: vs)
  end.

Lemma collect_result_Ok {T E} (l : list T) :
  collect_result (E := E) (Ok <$> l) = Ok l.
Proof. induction l as [|x l IH]; csimpl; [done|]. by rewrite IH. Qed.

(** ** Machine integers

    An [N]-bit integer is the [Z] it denotes; the operations below write out
    what the Rust operators do at that width. *)

Definition U32_MAX : Z := 2 ^ 32 - 1.
Definition U64_MAX : Z := 2 ^ 64 - 1.
Definition I16_MAX : Z := 2 ^ 15 - 1.
Definition I32_MAX : Z := 2 ^ 31 - 1.
Definition I64_MAX : Z := 2 ^ 63 - 1.
Definition USIZE_MAX : Z := 2 ^ 64 - 1.

(** Release-mode wrap-around of [u32] arithmetic (a debug build panics where
    this differs from the exact value). *)
Definition wrap_u32 (z : Z) : Z := z `mod` 2 ^ 32.

Definition wrap_u64 (z : Z) : Z := z `mod` 2 ^ 64.

Definition is_u32 (z : Z) : Prop := (0 ≤ z ≤ U32_MAX)%Z.

Definition is_usize (z : Z) : Prop := (0 ≤ z ≤ USIZE_MAX)%Z.

(** [usize::saturating_add]. *)
Definition saturating_add (a b : Z) : Z := Z.min (a + b) USIZE_MAX.

Lemma wrap_u32_id z : is_u32 z → wrap_u32 z = z.
Proof.
  unfold is_u32, wrap_u32, U32_MAX. intros. apply Z.mod_small. lia.
Qed.

Lemma wrap_u32_range z : is_u32 (wrap_u32 z).
Proof.
  unfold is_u32, wrap_u32, U32_MAX.
  pose proof (Z.mod_pos_bound z (2 ^ 32)). lia.
Qed.

Lemma wrap_u32_add a b : wrap_u32 (wrap_u32 a + wrap_u32 b) = wrap_u32 (a + b).
Proof. unfold wrap_u32. by rewrite <- Z.add_mod. Qed.

(** ** Text

    A Rust [str] is the list of its Unicode scalar values ([char]s).  [lit]
    reads an ASCII literal. *)

Abbreviation char := Z.
Abbreviation str := (list Z).

Definition chr (a : ascii) : char := Z.of_N (N_of_ascii a).

Fixpoint lit (s : string) : str :=
  match s with
  | EmptyString => []
  | String a s' => chr a :: lit s'
  end.

Lemma lit_app s t : lit (s ++ t) = lit s ++ lit t.
Proof. induction s as [|a s IH]; simpl; [done|]. by rewrite IH. Qed.

Definition is_ascii_digit (c : char) : bool := bool_decide (48 ≤ c ≤ 57)%Z.
Definition is_ascii_lowercase (c : char) : bool := bool_decide (97 ≤ c ≤ 122)%Z.
Definition is_ascii_uppercase (c : char) : bool := bool_decide (65 ≤ c ≤ 90)%Z.
Definition is_ascii_alphabetic (c : char) : bool :=
  is_ascii_lowercase c || is_ascii_uppercase c.
Definition is_ascii_alphanumeric (c : char) : bool :=
  is_ascii_alphabetic c || is_ascii_digit c.

(** UTF-8, the bytes of a [str]. *)
Definition utf8_char (c : char) : list Z :=
  if (c <? 128)%Z then [c]
  else if (c <? 2048)%Z then [192 + c / 64; 128 + c `mod` 64]%Z
  else if (c <? 65536)%Z then
    [224 + c / 4096; 128 + (c / 64) `mod` 64; 128 + c `mod` 64]%Z
  else
    [240 + c / 262144; 128 + (c / 4096) `mod` 64; 128 + (c / 64) `mod` 64;
     128 + c `mod` 64]%Z.

Definition bytes (s : str) : list Z := s ≫= utf8_char.

(** [Ord for str]: lexicographic on the bytes. *)
Fixpoint bytes_cmp (a b : list Z) : comparison :=
  match a, b with
  | [], [] => Eq
  | [], _ :: _ => Lt
  | _ :: _, [] => Gt
  | x :: a', y :: b' =>
      match (x ?= y)%Z with Eq => bytes_cmp a' b' | c => c end
  end.

Definition str_cmp (a b : str) : comparison := bytes_cmp (bytes a) (bytes b).

Lemma bytes_cmp_eq a b : bytes_cmp a b = Eq ↔ a = b.
Proof.
  revert b. induction a as [|x a IH]; intros [|y b]; simpl; try done.
  destruct (Z.compare_spec x y) as [->|H|H]; [rewrite IH; naive_solver| |];
    split; try done; intros [= -> _]; lia.
Qed.

Lemma bytes_cmp_antisym a b : bytes_cmp b a = CompOpp (bytes_cmp a b).
Proof.
  revert b. induction a as [|x a IH]; intros [|y b]; simpl; try done.
  rewrite (Z.compare_antisym x y). destruct (x ?= y)%Z; simpl; auto.
Qed.

Lemma bytes_cmp_lt_trans a b c :
  bytes_cmp a b = Lt → bytes_cmp b c = Lt → bytes_cmp a c = Lt.
Proof.
  revert b c. induction a as [|x a IH]; intros [|y b] [|z c]; simpl; try done.
  destruct (Z.compare_spec x y), (Z.compare_spec y z), (Z.compare_spec x z);
    subst; try done; try lia. apply IH.
Qed.

(** A scalar value below 128 is its own encoding; no other encoding starts
    with such a byte. *)
Lemma utf8_char_ascii c : (c < 128)%Z → utf8_char c = [c].
Proof. intros. unfold utf8_char. by destruct (Z.ltb_spec c 128); [|lia]. Qed.

Lemma utf8_char_high c b :
  (128 ≤ c)%Z → b ∈ utf8_char c → (128 ≤ b)%Z.
Proof.
  intros Hc. unfold utf8_char.
  repeat (case_match; bool_hyps); try lia; rewrite ?list_elem_of_cons; intros Hb;
    pose proof (Z.mod_pos_bound c 64); pose proof (Z.mod_pos_bound (c / 64) 64);
    pose proof (Z.mod_pos_bound (c / 4096) 64);
    pose proof (Z.div_pos c 64); pose proof (Z.div_pos c 4096);
    pose proof (Z.div_pos c 262144); set_solver by lia.
Qed.

(** Decimal [Display] of an unsigned integer of at most 64 bits, whose 20
    digits the fuel covers. *)
Fixpoint dec_fuel (fuel : nat) (n : Z) : str :=
  match fuel with
  | O => []
  | S fuel =>
      if (n <? 10)%Z then [48 + n]%Z
      else dec_fuel fuel (n / 10)%Z ++ [48 + n `mod` 10]%Z
  end.
Definition dec (n : Z) : str := dec_fuel 20 n.

(** [char::is_whitespace]: the Unicode [White_Space] property. *)
Definition is_whitespace (c : char) : bool :=
  bool_decide ((9 ≤ c ≤ 13)%Z ∨ c = 32%Z ∨ c = 133%Z ∨ c = 160%Z ∨ c = 5760%Z
               ∨ (8192 ≤ c ≤ 8202)%Z ∨ c = 8232%Z ∨ c = 8233%Z ∨ c = 8239%Z
               ∨ c = 8287%Z ∨ c = 12288%Z).

(** ** Lists *)

(** [Vec::is_empty]. *)
Definition is_empty {A} (l : list A) : bool :=
  match l with [] => true | _ => false end.

(** [iter().filter_map(f).collect()]. *)
Fixpoint filter_map {A B} (f : A → option B) (l : list A) : list B :=
  match l with
  | [] => []
  | x :: l' =>
      match f x with
      | Some y => y :: filter_map f l'
      | None => filter_map f l'
      end
  end.

Lemma elem_of_filter_map {A B} (f : A → option B) l y :
  y ∈ filter_map f l ↔ ∃ x, x ∈ l ∧ f x = Some y.
Proof.
  induction l as [|x l IH]; simpl; [set_solver|].
  destruct (f x) eqn:E; set_solver.
Qed.

Lemma filter_map_app {A B} (f : A → option B) l1 l2 :
  filter_map f (l1 ++ l2) = filter_map f l1 ++ filter_map f l2.
Proof.
  induction l1 as [|x l1 IH]; simpl; [done|].
  destruct (f x); rewrite IH; done.
Qed.

(** [iter().filter(p).count()]. *)
Definition count_if {A} (p : A → bool) (l : list A) : nat :=
  length (filter (λ x, p x = true) l).

Lemma count_if_cons {A} (p : A → bool) x l :
  count_if p (x :: l) = ((if p x then 1 else 0) + count_if p l)%nat.
Proof.
  unfold count_if. rewrite filter_cons.
  destruct (p x) eqn:E; case_decide; simpl; congruence.
Qed.

Lemma count_if_le {A} (p : A → bool) l : (count_if p l ≤ length l)%nat.
Proof. apply length_filter. Qed.

Lemma count_if_app {A} (p : A → bool) l1 l2 :
  count_if p (l1 ++ l2) = (count_if p l1 + count_if p l2)%nat.
Proof. unfold count_if. by rewrite filter_app, length_app. Qed.

(** The longest prefix whose elements satisfy [p], and what follows. *)
Fixpoint span {A} (p : A → bool) (l : list A) : list A * list A :=
  match l with
  | [] => ([], [])
  | x :: l' =>
      if p x then let '(a, b) := span p l' in (x :: a, b) else ([], l)
  end.

Lemma span_app {A} (p : A → bool) l : (span p l).1 ++ (span p l).2 = l.
Proof.
  induction l as [|x l IH]; simpl; [done|].
  destruct (p x); [|done]. destruct (span p l); simpl in *. congruence.
Qed.

Lemma span_prefix {A} (p : A → bool) l1 l2 :
  Forall (λ x, p x = true) l1 →
  (∀ x l, l2 = x :: l → p x = false) →
  span p (l1 ++ l2) = (l1, l2).
Proof.
  intros H1 H2. induction H1 as [|x l1 Hx _ IH]; simpl.
  - destruct l2 as [|y l2]; simpl; [done|]. by rewrite (H2 y l2).
  - by rewrite Hx, IH.
Qed.

Lemma span_Forall {A} (p : A → bool) l : Forall (λ x, p x = true) (span p l).1.
Proof.
  induction l as [|x l IH]; simpl; [constructor|].
  destruct (p x) eqn:E; [|constructor].
  destruct (span p l); simpl in *. by constructor.
Qed.

Lemma filter_ext_elem {A} (P Q : A → Prop) `{∀ x, Decision (P x), ∀ x, Decision (Q x)} (l : list A) :
  (∀ x, x ∈ l → P x ↔ Q x) → filter P l = filter Q l.
Proof.
  induction l as [|x l IH]; intros HPQ; [done|]. rewrite !filter_cons, IH by (intros; apply HPQ; by right).
  destruct (HPQ x) as [H1 H2]; [left|]. repeat case_decide; tauto.
Qed.

Lemma filter_all {A} (P : A → Prop) `{∀ x, Decision (P x)} l : Forall P l → filter P l = l.
Proof. induction 1 as [|x l Hx _ IH]; [done|]. by rewrite filter_cons_True, IH. Qed.

Lemma existsb_snoc {A} (f : A → bool) l x : existsb f (l ++ [x]) = existsb f l || f x.
Proof. rewrite existsb_app. cbn. by rewrite orb_false_r. Qed.

Lemma delete_insert_eq {A} (l : list A) k x : delete k (<[k := x]> l) = delete k l.
Proof. revert k. induction l as [|y l IH]; intros [|k]; cbn; [done..|]. f_equal. apply IH. Qed.

(** Replacing one element changes a sum by the difference of its weights. *)
Lemma sum_list_insert {A} (weight : A → nat) (l : list A) k old new :
  l !! k = Some old →
  (sum_list (weight <$> <[k := new]> l) + weight old = sum_list (weight <$> l) + weight new)%nat.
Proof.
  revert k. induction l as [|x l IH]; intros [|k] Hk; [done..| |]; cbn in Hk.
  - injection Hk as ->. cbn. lia.
  - change (<[S k := new]> (x :: l)) with (x :: <[k := new]> l). cbn. specialize (IH k Hk). lia.
Qed.

(** ** Automation *)

Create HintDb worker.
#[export] Hint Resolve wrap_u32_range wrap_u32_id : worker.
#[export] Hint Rewrite @filter_map_app @count_if_cons @count_if_app : worker.
