(* ===== verification/Text.v ===== *)
(** * Strings

    The operations of [str] the components share: prefixes and slices in bytes,
    splitting and joining, lines, trimming, and decimal numbers. *)

From S2P Require Import Prelude.
Open Scope Z_scope.

Module Text.

(** ** Bytes *)

(** [str::len]. *)
Definition byte_len (s : str) : Z := Z.of_nat (length (bytes s)).

(** [&s[..n]] in bytes; [None] is a panic off a character boundary. *)
Fixpoint str_prefix (s : str) (n : Z) : option str :=
  if n =? 0 then Some []
  else match s with
       | [] => None
       | c :: s => let l := Z.of_nat (length (utf8_char c)) in
                   if n <? l then None else (c ::.) <$> str_prefix s (n - l)
       end.

(** [&s[a..b]]. *)
Definition str_slice (s : str) (a b : Z) : option str :=
  p ← str_prefix s b; q ← str_prefix p a; Some (drop (length q) p).

Lemma byte_len_app a b : byte_len (a ++ b) = byte_len a + byte_len b.
Proof. unfold byte_len, bytes. rewrite bind_app, length_app. lia. Qed.

Lemma utf8_char_nonempty c : (1 ≤ length (utf8_char c))%nat.
Proof. unfold utf8_char. repeat case_match; cbn; lia. Qed.

Lemma byte_len_cons c s : byte_len (c :: s) = Z.of_nat (length (utf8_char c)) + byte_len s.
Proof. change (c :: s) with ([c] ++ s). rewrite byte_len_app. f_equal. unfold byte_len, bytes. cbn. by rewrite app_nil_r. Qed.

Lemma str_prefix_app a b : str_prefix (a ++ b) (byte_len a) = Some a.
Proof.
  induction a as [|c a IH]; [by destruct b|]. rewrite byte_len_cons. pose proof (utf8_char_nonempty c).
  assert (0 ≤ byte_len a) by (unfold byte_len; lia). cbn [app str_prefix].
  destruct (Z.eqb_spec (Z.of_nat (length (utf8_char c)) + byte_len a) 0); [lia|].
  destruct (Z.ltb_spec (Z.of_nat (length (utf8_char c)) + byte_len a) (Z.of_nat (length (utf8_char c)))); [lia|].
  replace (Z.of_nat (length (utf8_char c)) + byte_len a - Z.of_nat (length (utf8_char c))) with (byte_len a) by lia.
  by rewrite IH.
Qed.

Lemma str_slice_app a b c : str_slice (a ++ b ++ c) (byte_len a) (byte_len (a ++ b)) = Some b.
Proof.
  unfold str_slice. rewrite app_assoc, str_prefix_app. cbn. rewrite str_prefix_app. cbn. by rewrite drop_app_length.
Qed.

Lemma byte_len_ascii s : Forall (λ c, 0 ≤ c < 128) s → byte_len s = Z.of_nat (length s).
Proof.
  induction 1 as [|c s Hc _ IH]; [done|]. rewrite byte_len_cons, IH, utf8_char_ascii by lia. cbn. lia.
Qed.

(** ** Patterns *)

(** [str::starts_with] and [str::ends_with] of a string pattern. *)
Fixpoint starts_with (s p : str) {struct p} : bool :=
  match p, s with
  | [], _ => true
  | c :: p, d :: s => (c =? d) && starts_with s p
  | _ :: _, [] => false
  end.
Definition ends_with (s p : str) : bool := starts_with (rev s) (rev p).

Lemma starts_with_spec s p : starts_with s p = true ↔ ∃ r, s = p ++ r.
Proof.
  revert s. induction p as [|c p IH]; intros s; [by split; [exists s|]|]. destruct s as [|d s]; cbn.
  - split; [done|]. by intros [r [=]].
  - rewrite andb_true_iff, IH, Z.eqb_eq. split.
    + intros [-> [r ->]]. by exists r.
    + intros [r [= -> ->]]. eauto.
Qed.

Lemma ends_with_spec s p : ends_with s p = true ↔ ∃ r, s = r ++ p.
Proof.
  unfold ends_with. rewrite starts_with_spec. split.
  - intros [r E]. exists (rev r). by rewrite <- (rev_involutive s), E, rev_app_distr, rev_involutive.
  - intros [r ->]. exists (rev r). by rewrite rev_app_distr.
Qed.

(** The text around the first match of a pattern. *)
Fixpoint split_once (p s : str) : option (str * str) :=
  if starts_with s p then Some ([], drop (length p) s)
  else match s with
       | [] => None
       | c :: s => (λ ab, (c :: ab.1, ab.2)) <$> split_once p s
       end.

(** [str::split] at a non-empty pattern, each match of which shortens the
    text; [str::replace]; [\[_\]::join]. *)
Fixpoint split_fuel (n : nat) (p s : str) : list str :=
  match n with
  | O => [s]
  | S n => match split_once p s with None => [s] | Some (a, b) => a :: split_fuel n p b end
  end.
Definition split (p s : str) : list str := split_fuel (length s) p s.

Fixpoint join (sep : str) (l : list str) : str :=
  match l with
  | [] => []
  | [x] => x
  | x :: l => x ++ sep ++ join sep l
  end.

Definition replace (p by_ s : str) : str := join by_ (split p s).

Definition occurs (p s : str) : Prop := ∃ a b, s = a ++ p ++ b.

Lemma split_once_Some p s a b : split_once p s = Some (a, b) → s = a ++ p ++ b.
Proof.
  assert (∀ s a b, starts_with s p = true → Some ([], drop (length p) s) = Some (a, b) → s = a ++ p ++ b) as Hhit.
  { intros s' a' b' E. apply starts_with_spec in E as [r ->]. rewrite drop_app_length. by intros [= <- <-]. }
  revert a b. induction s as [|c s IH]; intros a b; cbn [split_once]; destruct (starts_with _ p) eqn:E; try done; try by apply Hhit.
  destruct (split_once p s) as [[a' b']|]; [|done]. intros [= <- <-]. cbn. f_equal. by apply IH.
Qed.

Lemma split_once_None p s : split_once p s = None → ¬ occurs p s.
Proof.
  induction s as [|c s IH]; cbn [split_once]; destruct (starts_with _ p) eqn:E; try done.
  - intros _ (a & b & Es). destruct a; [|done]. apply not_true_iff_false in E. apply E, starts_with_spec. by exists b.
  - destruct (split_once p s) as [[? ?]|]; [done|]. intros _ (a & b & Es). destruct a as [|d a].
    + apply not_true_iff_false in E. apply E, starts_with_spec. by exists b.
    + injection Es as -> ->. apply IH; [done|]. by exists a, b.
Qed.

(** ** Lines and white space *)

(** The segments between newlines, and [str::lines]: a carriage return before
    a newline belongs to the line ending, and no line follows the last one. *)
Fixpoint segments (s : str) : str * list str :=
  match s with
  | [] => ([], [])
  | c :: s => let '(l, ls) := segments s in
              if c =? 10 then ([], l :: ls) else (c :: l, ls)
  end.

Definition strip_cr (l : str) : str :=
  match rev l with 13 :: r => rev r | _ => l end.

Fixpoint lines_of (l : str) (ls : list str) : list str :=
  match ls with
  | [] => if is_empty l then [] else [l]
  | l' :: ls => strip_cr l :: lines_of l' ls
  end.
Definition lines (s : str) : list str := let '(l, ls) := segments s in lines_of l ls.

(** [str::trim]. *)
Definition trim_start (s : str) : str := (span is_whitespace s).2.
Definition trim (s : str) : str := rev (trim_start (rev (trim_start s))).

(** All segments between newlines. *)
Definition segs (s : str) : list str := let '(l, ls) := segments s in l :: ls.

Lemma segs_cons c s : c ≠ 10 → segs (c :: s) = match segs s with l :: ls => (c :: l) :: ls | [] => [] end.
Proof. intros Hc. unfold segs. cbn. destruct (segments s). by destruct (Z.eqb_spec c 10). Qed.

Lemma segs_newline s : segs (10 :: s) = [] :: segs s.
Proof. unfold segs. cbn. by destruct (segments s). Qed.

Lemma segs_app a b : segs (a ++ 10 :: b) = segs a ++ segs b.
Proof.
  induction a as [|c a IH]; cbn [app]; [by rewrite segs_newline|].
  destruct (decide (c = 10)) as [->|Hc]; [by rewrite !segs_newline, IH|]. rewrite !segs_cons, IH by done.
  unfold segs. by destruct (segments a).
Qed.

Lemma segs_line a : Forall (λ c, c ≠ 10) a → segs a = [a].
Proof. induction 1 as [|c a Hc _ IH]; [done|]. by rewrite segs_cons, IH. Qed.

Lemma join_segs s : join [10] (segs s) = s.
Proof.
  induction s as [|c s IH]; [done|]. destruct (decide (c = 10)) as [->|Hc].
  - rewrite segs_newline. destruct (segs s) eqn:E; [unfold segs in E; by destruct (segments s)|]. cbn in *. by rewrite IH.
  - rewrite segs_cons by done. destruct (segs s) as [|l [|l' ls]] eqn:E; cbn in *; [unfold segs in E; by destruct (segments s)|by rewrite IH..].
Qed.

Definition no_cr (s : str) : Prop := Forall (λ c, c ≠ 13) s.

Lemma strip_cr_id l : no_cr l → strip_cr l = l.
Proof.
  intros Hl. unfold strip_cr. destruct (rev l) as [|c r] eqn:E; [done|].
  assert (c ≠ 13). { rewrite <- (rev_involutive l), E in Hl. cbn in Hl. apply Forall_app in Hl as [_ Hl]. by apply Forall_cons in Hl as [? _]. }
  repeat case_match; congruence.
Qed.

Lemma lines_of_app l ls l' ls' : lines_of l (ls ++ l' :: ls') = (strip_cr <$> l :: ls) ++ lines_of l' ls'.
Proof. revert l. induction ls as [|x ls IH]; intros l; cbn; [done|]. by rewrite IH. Qed.

Lemma segs_no_cr s : no_cr s → Forall no_cr (segs s).
Proof.
  induction 1 as [|c s Hc _ IH]; [by repeat constructor|]. destruct (decide (c = 10)) as [->|Hn].
  - rewrite segs_newline. constructor; [constructor|done].
  - rewrite segs_cons by done. destruct IH as [|l ls Hl Hls]; constructor; [by constructor|done].
Qed.

(** Each newline ends a line. *)
Lemma lines_newline a b : no_cr a → lines (a ++ 10 :: b) = segs a ++ lines b.
Proof.
  intros Ha. pose proof (segs_app a b) as E. unfold segs, lines in *. pose proof (segs_no_cr a Ha) as Hs. unfold segs in Hs.
  destruct (segments (a ++ 10 :: b)) as [l ls], (segments a) as [la lsa], (segments b) as [lb lsb].
  cbn in E. injection E as -> ->. rewrite lines_of_app. f_equal.
  clear -Hs. induction Hs as [|x l Hx _ IH]; [done|]. cbn. by rewrite strip_cr_id, IH.
Qed.

(** A last line without newline counts, unless it is empty. *)
Lemma lines_of_id l ls : Forall no_cr (l :: ls) → last (l :: ls) ≠ Some [] → lines_of l ls = l :: ls.
Proof.
  revert l. induction ls as [|l' ls IH]; intros l Hf Hl; cbn [lines_of].
  - by destruct l.
  - apply Forall_cons in Hf as [Hl1 Hf]. rewrite strip_cr_id by done. f_equal. by apply IH.
Qed.

Lemma last_segs a c : c ≠ 10 → last (segs (a ++ [c])) ≠ Some [].
Proof.
  intros Hc. induction a as [|x a IH]; cbn [app].
  - by rewrite segs_cons.
  - destruct (decide (x = 10)) as [->|Hx].
    + rewrite segs_newline. destruct (segs (a ++ [c])) eqn:E; [unfold segs in E; by destruct (segments _)|done].
    + rewrite segs_cons by done. destruct (segs (a ++ [c])) as [|l [|l' ls]]; done.
Qed.

Lemma lines_last a c : no_cr (a ++ [c]) → c ≠ 10 → lines (a ++ [c]) = segs (a ++ [c]).
Proof.
  intros Ha Hc. pose proof (segs_no_cr _ Ha) as Hs. pose proof (last_segs a c Hc) as Hl. unfold lines, segs in *.
  destruct (segments (a ++ [c])). by apply lines_of_id.
Qed.

Lemma trim_start_ws c s : is_whitespace c = true → trim_start (c :: s) = trim_start s.
Proof. intros Hc. unfold trim_start. cbn. rewrite Hc. by destruct (span is_whitespace s). Qed.

Lemma trim_ws c s : is_whitespace c = true → trim (c :: s) = trim s.
Proof. intros Hc. unfold trim. by rewrite trim_start_ws. Qed.

Lemma trim_start_solid c s : is_whitespace c = false → trim_start (c :: s) = c :: s.
Proof. intros Hc. unfold trim_start. cbn. by rewrite Hc. Qed.

Lemma trim_solid s :
  (∀ c r, s = c :: r → is_whitespace c = false) → (∀ r d, s = r ++ [d] → is_whitespace d = false) → trim s = s.
Proof.
  intros Hc Hd. unfold trim. assert (trim_start s = s) as ->.
  { destruct s as [|c s]; [done|]. eapply trim_start_solid, Hc. done. }
  destruct s as [|d s _] using rev_ind; [done|]. rewrite rev_app_distr. cbn [rev app].
  rewrite trim_start_solid by (by eapply Hd). cbn [rev]. by rewrite rev_involutive.
Qed.

Lemma trim_pad pad s : Forall (λ c, is_whitespace c = true) pad → trim (pad ++ s) = trim s.
Proof. induction 1 as [|c pad Hc _ IH]; [done|]. cbn. by rewrite trim_ws. Qed.

(** A pattern without newlines lies within a line. *)
Lemma occurs_newline p a b : 10 ∉ p → occurs p (a ++ 10 :: b) → occurs p a ∨ occurs p b.
Proof.
  intros Hp (x & y & E). revert x E. induction a as [|c a IH]; intros x E; cbn in E.
  - destruct x as [|d x]; [destruct p as [|d p]; [by left; exists [], []|injection E as <- _; set_solver]|].
    injection E as <- ->. right. by exists x, y.
  - destruct x as [|d x].
    + left. destruct (app_eq_inv p y (c :: a) (10 :: b)) as [(k & -> & E')|(k & E' & _)]; [by symmetry| |].
      * destruct k as [|d k]; [rewrite app_nil_r; by exists [], []; rewrite app_nil_r|]. cbn in E'. injection E' as <- _. set_solver.
      * exists [], k. by rewrite E'.
    + injection E as <- E. destruct (IH x E) as [(x' & y' & ->)|]; [left; by exists (c :: x'), y'|by right].
Qed.

Lemma starts_with_app_false p a b : p ≠ [] → 10 ∉ p → ¬ occurs p a → starts_with (a ++ 10 :: b) p = false.
Proof.
  intros Hne Hp Ha. apply not_true_iff_false. intros [r E]%starts_with_spec.
  destruct (app_eq_inv p r a (10 :: b)) as [(k & -> & E')|(k & -> & _)]; [by symmetry| |].
  - destruct k as [|d k]; [apply Ha; rewrite app_nil_r; by exists [], []; rewrite app_nil_r|]. injection E' as <- _. set_solver.
  - apply Ha. by exists [], k.
Qed.

(** A pattern at the start of a line, with none before, is the first match. *)
Lemma split_once_line p a b :
  p ≠ [] → 10 ∉ p → ¬ occurs p a → split_once p (a ++ 10 :: p ++ b) = Some (a ++ [10], b).
Proof.
  intros Hne Hp Ha. induction a as [|c a IH]; cbn [app split_once].
  - rewrite (starts_with_app_false p [] (p ++ b) Hne Hp Ha : starts_with (10 :: p ++ b) p = false).
    assert (split_once p (p ++ b) = Some ([], b)) as ->; [|done].
    assert (starts_with (p ++ b) p = true) as E by (apply starts_with_spec; by exists b).
    destruct (p ++ b) eqn:Epb; cbn [split_once]; rewrite E, <- Epb, drop_app_length; done.
  - rewrite (starts_with_app_false p (c :: a) (p ++ b) Hne Hp Ha : starts_with (c :: a ++ 10 :: p ++ b) p = false).
    rewrite IH; [done|]. intros (x & y & ->). apply Ha. by exists (c :: x), y.
Qed.

Lemma split_fuel_irrel p n m s : p ≠ [] → (length s ≤ n)%nat → (length s ≤ m)%nat → split_fuel n p s = split_fuel m p s.
Proof.
  intros Hne. assert (split_once p [] = None) as Hnil by (by destruct p).
  revert m s. induction n as [|n IH]; intros m s Hn Hm.
  - destruct s; [|cbn in Hn; lia]. destruct m; [done|]. cbn [split_fuel]. by rewrite Hnil.
  - destruct m; cbn [split_fuel]; [destruct s; [by rewrite Hnil|cbn in Hm; lia]|].
    destruct (split_once p s) as [[a b]|] eqn:E; [|done]. f_equal. apply split_once_Some in E as ->.
    rewrite !length_app in *. assert (length p ≠ 0%nat) by (by destruct p). apply IH; lia.
Qed.

Lemma split_eq p s : p ≠ [] →
  split p s = match split_once p s with None => [s] | Some (a, b) => a :: split p b end.
Proof.
  intros Hne. unfold split. destruct s as [|c s].
  - cbn. by destruct p.
  - cbn [length split_fuel]. destruct (split_once p (c :: s)) as [[a b]|] eqn:E; [|done]. f_equal.
    apply split_once_Some, (f_equal length) in E. rewrite !length_app in E. cbn in E.
    assert (length p ≠ 0%nat) by (by destruct p). apply split_fuel_irrel; [done|lia..].
Qed.

(** ** Numbers *)

(** The value of a digit string. *)
Definition digits_value (ds : str) : Z := foldl (λ n c, n * 10 + (c - 48)) 0 ds.

(** [str::parse] of an unsigned integer up to [max]: a plus sign is allowed, and the first character that
    is no digit or overflows decides the error. *)
Inductive IntErrorKind := EmptyInt | InvalidDigit | PosOverflow.

#[export] Instance IntErrorKind_eq_dec : EqDecision IntErrorKind.
Proof. solve_decision. Defined.

Fixpoint parse_digits (max n : Z) (s : str) : result Z IntErrorKind :=
  match s with
  | [] => Ok n
  | c :: s =>
      if negb (is_ascii_digit c) then Err InvalidDigit
      else if max <? n * 10 + (c - 48) then Err PosOverflow
      else parse_digits max (n * 10 + (c - 48)) s
  end.

Definition parse_uint (max : Z) (s : str) : result Z IntErrorKind :=
  match s with
  | [] => Err EmptyInt
  | [43] | [45] => Err InvalidDigit
  | 43 :: s => parse_digits max 0 s
  | s => parse_digits max 0 s
  end.
Definition parse_u32 : str → result Z IntErrorKind := parse_uint U32_MAX.
Definition parse_u64 : str → result Z IntErrorKind := parse_uint U64_MAX.

(** [Display] of a signed integer. *)
Definition int_text (n : Z) : str := if n <? 0 then lit "-" ++ dec (- n) else dec n.

(** [{n:06}]. *)
Definition pad6 (n : Z) : str := let s := dec n in repeat 48 (6 - length s) ++ s.

Lemma digits_value_snoc ds c : digits_value (ds ++ [c]) = digits_value ds * 10 + (c - 48).
Proof. unfold digits_value. by rewrite foldl_snoc. Qed.

Lemma dec_fuel_spec fuel n :
  0 ≤ n < 10 ^ Z.of_nat fuel →
  Forall (λ c, is_ascii_digit c = true) (dec_fuel fuel n) ∧ digits_value (dec_fuel fuel n) = n ∧
  (fuel ≠ 0%nat → dec_fuel fuel n ≠ []).
Proof.
  revert n. induction fuel as [|fuel IH]; intros n Hn; [cbn in *; split_and!; [done|lia|done]|].
  cbn [dec_fuel]. destruct (Z.ltb_spec n 10).
  - split_and!; [|unfold digits_value; cbn; lia|done]. constructor; [|done]. apply bool_decide_eq_true. lia.
  - rewrite Nat2Z.inj_succ, Z.pow_succ_r in Hn by lia.
    destruct (IH (n / 10)) as (Hd & Hv & _).
    { split; [apply Z.div_pos; lia|]. apply Z.div_lt_upper_bound; lia. }
    pose proof (Z.mod_pos_bound n 10). pose proof (Z.div_mod n 10). split_and!.
    + apply Forall_app. split; [done|]. constructor; [|done]. apply bool_decide_eq_true. lia.
    + rewrite digits_value_snoc, Hv. lia.
    + intros _ E. by destruct (dec_fuel fuel (n / 10)).
Qed.

Lemma dec_spec n :
  is_u32 n → Forall (λ c, is_ascii_digit c = true) (dec n) ∧ digits_value (dec n) = n ∧ dec n ≠ [].
Proof.
  unfold is_u32, U32_MAX. intros Hn. destruct (dec_fuel_spec 20 n) as (H1 & H2 & H3); [cbn; lia|]. auto.
Qed.

(** At most [k] digits for numbers below [10 ^ k]. *)
Lemma dec_fuel_length fuel n k :
  0 ≤ n < 10 ^ Z.of_nat k → (1 ≤ k)%nat → (length (dec_fuel fuel n) ≤ k)%nat.
Proof.
  revert n k. induction fuel as [|fuel IH]; intros n k Hn Hk; [cbn; lia|]. cbn [dec_fuel].
  destruct (Z.ltb_spec n 10); [cbn; lia|]. rewrite length_app. cbn.
  destruct k as [|[|k]]; [lia|change (10 ^ Z.of_nat 1) with 10 in Hn; lia|].
  assert (length (dec_fuel fuel (n / 10)) ≤ S k)%nat; [|lia]. apply IH; [|lia].
  rewrite (Nat2Z.inj_succ (S k)), Z.pow_succ_r in Hn by lia. split; [apply Z.div_pos; lia|]. apply Z.div_lt_upper_bound; lia.
Qed.

(** Digit strings whose value fits parse to it. *)
Lemma digits_fold_le ds n : Forall (λ c, is_ascii_digit c = true) ds → 0 ≤ n →
  n ≤ foldl (λ n c, n * 10 + (c - 48)) n ds.
Proof.
  intros Hd. revert n. induction Hd as [|c ds Hc _ IH]; intros n Hn; cbn; [lia|].
  apply bool_decide_eq_true in Hc. etrans; [|apply IH; lia]. lia.
Qed.

Lemma parse_digits_value max ds n :
  Forall (λ c, is_ascii_digit c = true) ds → 0 ≤ n → foldl (λ n c, n * 10 + (c - 48)) n ds ≤ max →
  parse_digits max n ds = Ok (foldl (λ n c, n * 10 + (c - 48)) n ds).
Proof.
  intros Hd. revert n. induction Hd as [|c ds Hc Hds IH]; intros n Hn Hle; [done|]. cbn in *. rewrite Hc. cbn.
  apply bool_decide_eq_true in Hc. pose proof (digits_fold_le ds (n * 10 + (c - 48)) Hds ltac:(lia)).
  destruct (Z.ltb_spec max (n * 10 + (c - 48))); [lia|]. by apply IH; lia.
Qed.

Lemma parse_uint_digits max ds :
  ds ≠ [] → Forall (λ c, is_ascii_digit c = true) ds → digits_value ds ≤ max →
  parse_uint max ds = Ok (digits_value ds).
Proof.
  intros Hne Hd Hle. destruct ds as [|c ds]; [done|].
  assert (c ≠ 43 ∧ c ≠ 45) as [H1 H2].
  { apply Forall_cons in Hd as [Hc%bool_decide_eq_true _]. lia. }
  transitivity (parse_digits max 0 (c :: ds)); [|by apply parse_digits_value].
  unfold parse_uint. repeat case_match; try done; congruence.
Qed.

Lemma parse_u32_digits ds :
  ds ≠ [] → Forall (λ c, is_ascii_digit c = true) ds → digits_value ds ≤ U32_MAX →
  parse_u32 ds = Ok (digits_value ds).
Proof. apply parse_uint_digits. Qed.

(** A parsed number is within the bounds. *)
Lemma parse_digits_le max s n r : parse_digits max n s = Ok r → 0 ≤ n ≤ max → 0 ≤ r ≤ max.
Proof.
  revert n. induction s as [|c s IH]; intros n; cbn; [intros [= <-]; lia|].
  destruct (is_ascii_digit c) eqn:Hc; cbn; [|done]. apply bool_decide_eq_true in Hc.
  destruct (Z.ltb_spec max (n * 10 + (c - 48))); [done|]. intros H1 H2. eapply IH; [done|lia].
Qed.

Lemma parse_uint_le max s r : parse_uint max s = Ok r → 0 ≤ max → 0 ≤ r ≤ max.
Proof. unfold parse_uint. repeat case_match; try done; intros; subst; (eapply parse_digits_le; [done|lia]). Qed.

Lemma repeat_zero_value k ds : digits_value (repeat 48 k ++ ds) = digits_value ds.
Proof. induction k as [|k IH]; [done|]. exact IH. Qed.

Lemma pad6_spec n :
  0 ≤ n < 10 ^ 6 →
  length (pad6 n) = 6%nat ∧ Forall (λ c, is_ascii_digit c = true) (pad6 n) ∧ parse_u32 (pad6 n) = Ok n.
Proof.
  intros Hn. destruct (dec_spec n) as (Hd & Hv & Hne); [unfold is_u32, U32_MAX; lia|].
  pose proof (dec_fuel_length 20 n 6 Hn ltac:(lia)) as Hl. fold (dec n) in Hl.
  assert (length (pad6 n) = 6%nat) as H6 by (unfold pad6; rewrite length_app, repeat_length; lia).
  assert (Forall (λ c, is_ascii_digit c = true) (pad6 n)) as Hp.
  { unfold pad6. apply Forall_app. split; [|done]. by apply Forall_forall; intros c Hc%list_elem_of_In%repeat_spec; subst. }
  split_and!; [done..|]. assert (digits_value (pad6 n) = n) as Hval by (unfold pad6; by rewrite repeat_zero_value).
  rewrite parse_u32_digits; [by rewrite Hval|by destruct (pad6 n)|done|rewrite Hval; unfold U32_MAX; lia].
Qed.

End Text.
