(* ===== verification/Runtime.v ===== *)
(** * Runtime facade (crates/graphile-worker-runtime/src/time.rs, task.rs, lib.rs)

    The choice of the runtime, timers, deadlines and intervals, and the
    outcome of a spawned task.  Times are nanoseconds of one monotonic clock,
    whose readings are the environment's; a timer of either runtime does not
    fire before its time. *)

From S2P Require Import Prelude.
Open Scope Z_scope.

Module Runtime.

(** ** The choice of a runtime *)

(** The cargo features of the build, and whether the caller runs on tokio. *)
Record Features := mkFeatures { runtime_tokio : bool; runtime_async_std : bool }.
Inductive Backend := Tokio | AsyncStd.

(** [None]: [missing_runtime] panics. *)
Definition sleep_backend (f : Features) (on_tokio : bool) : option Backend :=
  if runtime_tokio f && negb (runtime_async_std f) then
    if on_tokio then Some Tokio else None
  else if runtime_tokio f && runtime_async_std f && on_tokio then Some Tokio
  else if runtime_async_std f then Some AsyncStd
  else None.

Definition spawn_backend (f : Features) (on_tokio : bool) : option Backend :=
  if runtime_tokio f && negb (runtime_async_std f) then
    if on_tokio then Some Tokio else None
  else if runtime_tokio f && runtime_async_std f && on_tokio then Some Tokio
  else if runtime_async_std f then Some AsyncStd
  else None.

(** ** time.rs: deadlines *)

(** [sleep_until], called at [now]: what it hands to [sleep], if anything. *)
Definition sleep_until (deadline now : Z) : option Z :=
  if now <? deadline then Some (deadline - now) else None.

(** What a future polled at a time answers, and whether a timer has fired. *)
Inductive TimeoutResult (T : Type) := Finished (v : T) | TimedOut | StillPending.
Arguments Finished {T} v.
Arguments TimedOut {T}.
Arguments StillPending {T}.

(** The polls of [timeout_at]: at each the timer is asked first. *)
Fixpoint poll_biased {T} (fired : Z → bool) (ready : Z → option T) (polls : list Z) : TimeoutResult T * list Z :=
  match polls with
  | [] => (StillPending, [])
  | t :: polls =>
      if fired t then (TimedOut, [])
      else match ready t with
           | Some v => (Finished v, [t])
           | None => let '(r, seen) := poll_biased fired ready polls in (r, t :: seen)
           end
  end.

(** [timeout_at] called at [now] and polled at [polls]; the second component
    lists the times the future was polled at. *)
Definition timeout_at {T} (deadline now : Z) (fired : Z → bool) (ready : Z → option T) (polls : list Z) :
    TimeoutResult T * list Z :=
  if deadline <=? now then (TimedOut, []) else poll_biased fired ready polls.

(** ** time.rs: intervals *)

Record Interval := mkInterval { duration : Z; next : Z }.

(** A zero period panics. *)
Definition interval (period now : Z) : option Interval :=
  if 0 <? period then Some (mkInterval period now) else None.

(** One [tick]: the clock is read at [first]; the sleep, if any, ends at
    [woken]; the clock is read again at [last]. *)
Record Tick := mkTick { first : Z; woken : Z; last : Z }.

Definition tick (self : Interval) (t : Tick) : Interval :=
  let next' := next self + duration self in
  mkInterval (duration self) (if next' <? last t then last t + duration self else next').

(** The readings of a tick: the clock is monotonic and a sleep is not short. *)
Definition valid_tick (self : Interval) (t : Tick) : Prop :=
  if first t <? next self then next self ≤ woken t ∧ woken t ≤ last t else first t ≤ last t.

Fixpoint ticks (self : Interval) (ts : list Tick) : Interval :=
  match ts with [] => self | t :: ts => ticks (tick self t) ts end.

Fixpoint valid_ticks (self : Interval) (ts : list Tick) : Prop :=
  match ts with [] => True | t :: ts => valid_tick self t ∧ valid_ticks (tick self t) ts end.

(** ** task.rs *)

Inductive JoinError := Aborted | JoinFailed (message : str).
#[export] Instance JoinError_eq_dec : EqDecision JoinError.
Proof. solve_decision. Defined.

(** What a panic carries. *)
Inductive PanicPayload := PayloadStr (s : str) | PayloadString (s : str) | PayloadOther.

(** How an abortable future ends. *)
Inductive TaskEnd (T : Type) := Returned (v : T) | WasAborted | Panicked (p : PanicPayload).
Arguments Returned {T} v.
Arguments WasAborted {T}.
Arguments Panicked {T} p.

Definition panic_payload_to_string (p : PanicPayload) : str :=
  match p with
  | PayloadStr message => message
  | PayloadString message => message
  | PayloadOther => lit "task panicked"
  end.

(** The wrapper of [async_std_spawn]. *)
Definition async_std_spawn {T} (e : TaskEnd T) : result T JoinError :=
  match e with
  | Returned v => Ok v
  | WasAborted => Err Aborted
  | Panicked payload => Err (JoinFailed (panic_payload_to_string payload))
  end.

(** [JoinHandle::poll] of a finished task.  tokio reports a panic as an error of
    its own, whose text is [tokio_error]. *)
Definition poll_join {T} (tokio_error : PanicPayload → str) (b : Backend) (e : TaskEnd T) : result T JoinError :=
  match b with
  | Tokio =>
      let inner := match e with
                   | Returned v => Ok (Ok v)
                   | WasAborted => Ok (Err tt)
                   | Panicked p => Err (tokio_error p)
                   end in
      match inner with
      | Ok (Ok value) => Ok value
      | Ok (Err _) => Err Aborted
      | Err error => Err (JoinFailed error)
      end
  | AsyncStd => async_std_spawn e
  end.

(** ** Choice and joining *)

(** A build uses one runtime for everything a caller does, there is one unless
    no runtime feature is enabled or tokio alone is enabled off tokio, and
    joining tells the three ends of a task apart alike on both. *)
Theorem runtime_consistent {T} (f : Features) (on_tokio : bool) (tokio_error : PanicPayload → str) (e : TaskEnd T) :
  sleep_backend f on_tokio = spawn_backend f on_tokio ∧
  (spawn_backend f on_tokio = None ↔
     runtime_async_std f = false ∧ (runtime_tokio f = false ∨ on_tokio = false)) ∧
  (∀ b v, poll_join tokio_error b e = Ok v ↔ e = Returned v) ∧
  (∀ b, poll_join tokio_error b e = Err Aborted ↔ e = WasAborted).
Proof.
  destruct f as [[] []], on_tokio; cbn; split_and!; try naive_solver;
    intros []; destruct e; naive_solver.
Qed.

(** ** Deadlines *)

(** A deadline is kept.  The result of an operation is returned only if it
    was ready at a poll before the timer fired; a deadline that has passed
    times out at once and the operation is never polled; once the timer has
    fired, the next poll times out even if the operation is ready by then; and
    the operation is polled at no time at which the timer has fired. *)
Theorem timeout_keeps_deadline {T} (deadline now : Z) (fired : Z → bool) (ready : Z → option T) (polls : list Z) :
  let '(r, seen) := timeout_at deadline now fired ready polls in
  (deadline ≤ now → r = TimedOut ∧ seen = []) ∧
  (∀ t, t ∈ seen → fired t = false) ∧
  (∀ v, r = Finished v → ∃ t, t ∈ polls ∧ ready t = Some v ∧ fired t = false ∧ now < deadline) ∧
  (r = StillPending → now < deadline ∧ seen = polls ∧ ∀ t, t ∈ polls → fired t = false ∧ ready t = None).
Proof.
  unfold timeout_at. destruct (Z.leb_spec deadline now) as [H|H].
  { split_and!; [done|set_solver|done|done]. }
  assert (let '(r, seen) := poll_biased fired ready polls in
    (∀ t, t ∈ seen → fired t = false) ∧
    (∀ v, r = Finished v → ∃ t, t ∈ polls ∧ ready t = Some v ∧ fired t = false) ∧
    (r = StillPending → seen = polls ∧ ∀ t, t ∈ polls → fired t = false ∧ ready t = None)) as Hp.
  { induction polls as [|t polls IH]; cbn; [split_and!; set_solver|].
    destruct (fired t) eqn:Ef; [split_and!; set_solver|].
    destruct (ready t) as [v|] eqn:Er.
    - split_and!; [set_solver| |done]. intros v' [= <-]. exists t. set_solver.
    - destruct (poll_biased fired ready polls) as [r seen]. destruct IH as (H1 & H2 & H3). split_and!.
      + set_solver.
      + intros v Hv. destruct (H2 v Hv) as (t' & ? & ? & ?). exists t'. set_solver.
      + intros Hr. destruct (H3 Hr) as [-> H4]. split; [done|]. set_solver. }
  destruct (poll_biased fired ready polls) as [r seen]. destruct Hp as (H1 & H2 & H3). split_and!; [lia|done| |].
  - intros v Hv. destruct (H2 v Hv) as (t & ? & ? & ?). eauto.
  - intros Hr. destruct (H3 Hr). eauto.
Qed.

(** ** Intervals *)

Lemma tick_facts self t : 0 < duration self → valid_tick self t →
  duration (tick self t) = duration self ∧ next self ≤ last t ∧
  next self + duration self ≤ next (tick self t) ∧ last t ≤ next (tick self t) ∧
  (last t ≤ next self + duration self → next (tick self t) = next self + duration self).
Proof.
  unfold valid_tick, tick. intros Hd. destruct (Z.ltb_spec (first t) (next self)); cbn;
    destruct (Z.ltb_spec (next self + duration self) (last t)); lia.
Qed.

Lemma ticks_spaced self ts : 0 < duration self → valid_ticks self ts →
  ∀ k t, ts !! k = Some t → next self + Z.of_nat k * duration self ≤ last t.
Proof.
  revert self. induction ts as [|t ts IH]; intros self Hd; [done|]. intros [Ht Hts] [|k] t' Hk; cbn in Hk.
  - injection Hk as <-. destruct (tick_facts self t Hd Ht). lia.
  - destruct (tick_facts self t Hd Ht) as (Hdd & _ & Hn & _). rewrite <- Hdd in Hd.
    specialize (IH _ Hd Hts k t' Hk). lia.
Qed.

Lemma ticks_after self t ts : 0 < duration self → valid_ticks self (t :: ts) →
  ∀ k t', ts !! k = Some t' → last t + Z.of_nat k * duration self ≤ last t'.
Proof.
  intros Hd [Ht Hts] k t' Hk. destruct (tick_facts self t Hd Ht) as (Hdd & _ & _ & Hl & _).
  rewrite <- Hdd in Hd. pose proof (ticks_spaced _ ts Hd Hts k t' Hk). lia.
Qed.

Lemma valid_ticks_drop self pre ts : valid_ticks self (pre ++ ts) → valid_ticks (ticks self pre) ts.
Proof. revert self. induction pre as [|t pre IH]; intros self; cbn; [done|]. intros [_ H]. by apply IH. Qed.

Lemma ticks_duration self pre : duration (ticks self pre) = duration self.
Proof. revert self. induction pre as [|t pre IH]; intros self; cbn; [done|]. by rewrite IH. Qed.

(** An interval keeps its pace without bursts.  No tick completes before its
    scheduled time, the [k]-th not before [k] periods after the start; a tick
    that is late by less than a period leaves the schedule unchanged; and after
    a delay of any length the ticks do not pile up: between any two ticks there
    are as many periods as ticks in between, so that any stretch of time [w]
    sees at most [w / period + 2] of them. *)
Theorem interval_without_bursts (self : Interval) (ts pre mid post : list Tick) (a b : Tick) :
  0 < duration self → valid_ticks self ts →
  (∀ k t, ts !! k = Some t → next self + Z.of_nat k * duration self ≤ last t) ∧
  (∀ t rest, ts = t :: rest → last t ≤ next self + duration self → next (tick self t) = next self + duration self) ∧
  (ts = pre ++ a :: mid ++ b :: post → last a + Z.of_nat (length mid) * duration self ≤ last b).
Proof.
  intros Hd Hv. split_and!.
  - by apply ticks_spaced.
  - intros t rest ->. destruct Hv as [Ht _]. by apply tick_facts.
  - intros ->. apply valid_ticks_drop in Hv. rewrite <- (ticks_duration self pre) in *.
    apply (ticks_after _ _ _ Hd Hv). by apply list_lookup_middle.
Qed.

(** ** Witnesses *)

(** A period of 10: on time, then a stall of 95, after which the schedule
    starts over. *)
Definition demo_ticks : list Tick := [mkTick 0 0 0; mkTick 1 10 105; mkTick 106 115 115; mkTick 116 125 125].

Lemma interval_without_bursts_witness :
  interval 10 0 = Some (mkInterval 10 0) ∧ 105 + Z.of_nat 1 * 10 ≤ 125 ∧
  next (ticks (mkInterval 10 0) demo_ticks) = 135.
Proof.
  split; [done|]. split; [|by vm_compute].
  apply (interval_without_bursts (mkInterval 10 0) demo_ticks [mkTick 0 0 0] [mkTick 106 115 115] [] (mkTick 1 10 105)
    (mkTick 116 125 125)); [done|by vm_compute|done].
Defined.

End Runtime.
