(* ===== verification/ShutdownSignal.v ===== *)
(** * Signals of the operating system (crates/graphile-worker-shutdown-signal)

    The future that completes when the process is asked to shut down.  On Windows
    the console calls a handler on a thread of its own, which raises a flag and
    then wakes the listeners; a future looks at the flag, starts to listen and
    looks again before it waits.  Handlers and futures interleave freely: their
    atomic operations are the steps of a state machine.  On Unix the future takes
    the first signal it subscribed to. *)

From S2P Require Import Prelude.
Open Scope Z_scope.

Module ShutdownSignal.

(** ** Windows *)

Inductive CtrlType := CTRL_C_EVENT | CTRL_BREAK_EVENT | CTRL_CLOSE_EVENT | CTRL_LOGOFF_EVENT | CTRL_SHUTDOWN_EVENT.
Definition asks_shutdown (t : CtrlType) : bool := match t with CTRL_BREAK_EVENT => false | _ => true end.

(** A call of [console_ctrl_handler]: about to raise the flag, about to wake the
    listeners, returned [WINDOWS_SIGNAL_HANDLED] or [WINDOWS_SIGNAL_UNHANDLED]. *)
Inductive Handler := HStore | HNotify | HHandled | HUnhandled.
Definition console_ctrl_handler (t : CtrlType) : Handler := if asks_shutdown t then HStore else HUnhandled.

(** A future of [raw_shutdown_signal]: before the registration, before the first
    look at the flag, before [listen], before the second look and waiting, the
    last two with whether the listener has been woken; returned; or panicked
    because the handler could not be installed. *)
Inductive Waiter := WRegister | WFirst | WListen | WSecond (woken : bool) | WAwait (woken : bool) | WReturned | WPanicked.

#[export] Instance Waiter_eq_dec : EqDecision Waiter.
Proof. solve_decision. Defined.
#[export] Instance Handler_eq_dec : EqDecision Handler.
Proof. solve_decision. Defined.

(** The statics of the crate, the calls of the handler and the futures. *)
Record State := mkState {
  registered : bool;
  received : bool;
  handlers : list Handler;
  waiters : list Waiter
}.

(** [Event::notify(usize::MAX)] wakes every listener there is. *)
Definition wake (w : Waiter) : Waiter :=
  match w with WSecond _ => WSecond true | WAwait _ => WAwait true | w => w end.

(** [register_windows_shutdown_handler]: [installs] is the answer of
    [SetConsoleCtrlHandler]; a [OnceLock] whose initialization panics stays
    empty. *)
Definition register (installs : bool) (registered : bool) : bool * Waiter :=
  if registered then (true, WFirst) else if installs then (true, WFirst) else (false, WPanicked).

(** One step of a future. *)
Definition poll (installs : bool) (registered received : bool) (w : Waiter) : option (bool * Waiter) :=
  match w with
  | WRegister => Some (register installs registered)
  | WFirst => Some (registered, if received then WReturned else WListen)
  | WListen => Some (registered, WSecond false)
  | WSecond woken => Some (registered, if received then WReturned else WAwait woken)
  | WAwait woken => if woken then Some (registered, WReturned) else None
  | WReturned | WPanicked => None
  end.

Inductive Event :=
| New                              (* [shutdown_signal] is called *)
| Ctrl (t : CtrlType)              (* the console calls the installed handler *)
| HandlerStep (i : nat)
| WaiterStep (i : nat) (installs : bool).

Definition step (s : State) (e : Event) : option State :=
  match e with
  | New => Some (mkState (registered s) (received s) (handlers s) (waiters s ++ [WRegister]))
  | Ctrl t =>
      if registered s
      then Some (mkState true (received s) (handlers s ++ [console_ctrl_handler t]) (waiters s)) else None
  | HandlerStep i =>
      h ← handlers s !! i;
      match h with
      | HStore => Some (mkState (registered s) true (<[i := HNotify]> (handlers s)) (waiters s))
      | HNotify => Some (mkState (registered s) (received s) (<[i := HHandled]> (handlers s)) (wake <$> waiters s))
      | HHandled | HUnhandled => None
      end
  | WaiterStep i installs =>
      w ← waiters s !! i;
      '(r, w') ← poll installs (registered s) (received s) w;
      Some (mkState r (received s) (handlers s) (<[i := w']> (waiters s)))
  end.

Fixpoint run (s : State) (es : list Event) : option State :=
  match es with [] => Some s | e :: es => s' ← step s e; run s' es end.

Definition init : State := mkState false false [] [].

(** ** Unix *)

Inductive Signal := Usr1 | Usr2 | Int | Pipe | Term | Hup | Quit | Child.
#[export] Instance Signal_eq_dec : EqDecision Signal.
Proof. solve_decision. Defined.

Definition unix_signals : list Signal := [Usr2; Int; Pipe; Term; Hup].
(** The signals the process gets, in order; those not subscribed to are left to
    their default action and do not reach the stream. *)
Definition raw_shutdown_signal (incoming : list Signal) : option Signal := head (filter (λ g, g ∈ unix_signals) incoming).

(** ** Facts *)

(** The flag is up before anyone returns or is woken; and a future that waits
    without having been woken, although the flag is up, still has a handler
    ahead of its [notify]. *)
Definition waiter_ok (s : State) (w : Waiter) : Prop :=
  match w with
  | WReturned | WSecond true | WAwait true => received s = true
  | WAwait false => received s = true → HNotify ∈ handlers s
  | WRegister | WPanicked => True
  | WFirst | WListen | WSecond false => registered s = true
  end.
Definition handler_ok (s : State) (h : Handler) : Prop :=
  match h with HNotify | HHandled => received s = true | _ => True end.
Record inv (s : State) : Prop := {
  inv_waiters : Forall (waiter_ok s) (waiters s);
  inv_handlers : Forall (handler_ok s) (handlers s)
}.

Lemma lookup_ok {A} (P : A → Prop) l i x : Forall P l → l !! i = Some x → P x.
Proof. intros H E. by eapply Forall_lookup_1. Qed.

(** Facts about one future that a change of the others or of the flags keeps. *)
Lemma waiter_ok_mono s s' w :
  waiter_ok s w → (registered s = true → registered s' = true) → received s' = received s →
  (HNotify ∈ handlers s → HNotify ∈ handlers s') → waiter_ok s' w.
Proof. destruct w as [| | |[]|[]| |]; cbn; intros H Hr Hv Hh; rewrite ?Hv; auto. Qed.

Lemma handler_step_inv s i s' : inv s → step s (HandlerStep i) = Some s' → inv s'.
Proof.
  intros [Hw Hh]. cbn. destruct (handlers s !! i) as [h|] eqn:E; [cbn|done].
  assert (i < length (handlers s))%nat as Hi by (by eapply lookup_lt_Some). destruct h; try done; intros [= <-]; split; cbn.
  - eapply Forall_impl; [exact Hw|]. intros w. destruct w as [| | |[]|[]| |]; cbn; try done.
    intros _ _. apply list_elem_of_lookup. exists i. by rewrite list_lookup_insert_eq.
  - apply Forall_insert; [|done]. eapply Forall_impl; [exact Hh|]. by intros [].
  - apply Forall_fmap. eapply Forall_impl; [exact Hw|].
    assert (received s = true) as Hr by exact (lookup_ok _ _ _ _ Hh E).
    intros w. destruct w as [| | |[]|[]| |]; by cbn.
  - apply Forall_insert; [|exact (lookup_ok _ _ _ _ Hh E)]. eapply Forall_impl; [exact Hh|]. by intros [].
Qed.

Lemma waiter_step_inv s i installs s' : inv s → step s (WaiterStep i installs) = Some s' → inv s'.
Proof.
  intros [Hw Hh]. cbn. destruct (waiters s !! i) as [w|] eqn:E; [cbn|done].
  destruct (poll installs (registered s) (received s) w) as [[r w']|] eqn:Ep; [cbn|done]. intros [= <-].
  pose proof (lookup_ok _ _ _ _ Hw E) as Hok.
  assert (registered s = true → r = true) as Hr.
  { destruct w as [| | |?|[]| |]; cbn in Ep; try congruence. unfold register in Ep. by destruct (registered s); simplify_eq. }
  split; cbn; [|exact Hh].
  apply Forall_insert; [eapply Forall_impl; [exact Hw|]; intros x Hx; by eapply waiter_ok_mono|].
  destruct w as [| | |woken|[]| |]; cbn in Ep, Hok; unfold register in Ep.
  - destruct (registered s), installs; simplify_eq; done.
  - destruct (received s) eqn:Ev; simplify_eq; cbn; rewrite ?Ev; done.
  - by simplify_eq.
  - destruct (received s) eqn:Ev; simplify_eq; cbn; rewrite ?Ev; [done|]. destruct woken; cbn; [congruence|done].
  - by simplify_eq.
  - done.
  - done.
  - done.
Qed.

Lemma signal_step_inv s e s' : inv s → step s e = Some s' → inv s'.
Proof.
  intros Hi. destruct e as [|t|i|i ins]; [| |by apply handler_step_inv|by apply waiter_step_inv]; destruct Hi as [Hw Hh]; cbn.
  - intros [= <-]. split; cbn; [|exact Hh]. apply Forall_app. split; [|by repeat constructor].
    eapply Forall_impl; [exact Hw|]. intros w Hx. by eapply waiter_ok_mono.
  - destruct (registered s) eqn:Er; [|done]. intros [= <-]. split; cbn.
    + eapply Forall_impl; [exact Hw|]. intros w Hx. eapply waiter_ok_mono; [done..|cbn]. intros H. apply elem_of_app. by left.
    + apply Forall_app. split; [done|]. repeat constructor. unfold console_ctrl_handler. by destruct (asks_shutdown t).
Qed.
Lemma signal_run_inv s es s' : inv s → run s es = Some s' → inv s'.
Proof.
  revert s. induction es as [|e es IH]; intros s Hi; cbn; [by intros [= <-]|].
  destruct (step s e) as [s1|] eqn:E; [cbn|done]. apply IH. by eapply signal_step_inv.
Qed.

(** How far a future has to go; those that are done count nothing. *)
Definition remaining (w : Waiter) : nat :=
  match w with WRegister => 4 | WFirst => 3 | WListen => 2 | WSecond _ => 1 | WAwait _ => 1 | WReturned | WPanicked => 0 end.

(** With the flag up and no handler under way, the next step of a future that is
    not done brings it closer. *)
Lemma flag_step s i w :
  inv s → received s = true → HNotify ∉ handlers s → waiters s !! i = Some w → w ≠ WReturned → w ≠ WPanicked →
  ∃ s' w', step s (WaiterStep i true) = Some s' ∧ waiters s' !! i = Some w' ∧ w' ≠ WPanicked ∧
    received s' = true ∧ handlers s' = handlers s ∧ (w' = WReturned ∨ remaining w' < remaining w)%nat.
Proof.
  intros Hi Hr Hn E H1 H2. pose proof (lookup_ok _ _ _ _ (inv_waiters s Hi) E) as Hok.
  assert (i < length (waiters s))%nat as Hl by (by eapply lookup_lt_Some).
  assert (∃ r w', poll true (registered s) (received s) w = Some (r, w') ∧ w' ≠ WPanicked ∧
    (w' = WReturned ∨ remaining w' < remaining w)%nat) as (r & w' & Ep & Hp & Hlt).
  { rewrite Hr. destruct w as [| | |woken|[]| |]; cbn; try done.
    - unfold register. destruct (registered s); eexists _, _; (split; [done|]; split; [done|]; right; cbn; lia).
    - eexists _, _. split; [done|]. split; [done|]. by left.
    - eexists _, _. split; [done|]. split; [done|]. right. cbn. lia.
    - eexists _, _. split; [done|]. split; [done|]. by left.
    - eexists _, _. split; [done|]. split; [done|]. by left.
    - exfalso. by apply Hn, Hok. }
  exists (mkState r (received s) (handlers s) (<[i := w']> (waiters s))), w'. cbn [step]. rewrite E. cbn. rewrite Ep.
  split_and!; try done. cbn. by apply list_lookup_insert_eq.
Qed.

Lemma flag_finishes n s i w :
  inv s → received s = true → HNotify ∉ handlers s → waiters s !! i = Some w → w ≠ WPanicked → (remaining w ≤ n)%nat →
  ∃ k s', (k ≤ n)%nat ∧ run s (repeat (WaiterStep i true) k) = Some s' ∧ waiters s' !! i = Some WReturned.
Proof.
  revert s w. induction n as [|n IH]; intros s w Hi Hr Hn E Hp Hle.
  { exists O, s. destruct w; cbn in Hle; try lia; done. }
  destruct (decide (w = WReturned)) as [->|Hw]; [exists O, s; split_and!; [lia|done|done]|].
  { destruct (flag_step s i w) as (s' & w' & Es & E' & Hp' & Hr' & Hh' & Hlt); [done..|].
    destruct (IH s' w') as (k & s'' & Hk & Hrun & E''); [by eapply signal_step_inv|done|by rewrite Hh'|done|done| |].
    { destruct Hlt as [->|]; cbn; lia. }
    exists (S k), s''. split_and!; [lia| |done]. cbn [repeat run]. rewrite Es. exact Hrun. }
Qed.

Lemma elem_of_insert_or {A} (l : list A) i x y : x ∈ <[i:=y]> l → x = y ∨ x ∈ l.
Proof.
  intros [j Hj]%list_elem_of_lookup. apply list_lookup_insert_Some in Hj as [(_ & -> & _)|[_ Hj]]; [by left|].
  right. by eapply list_elem_of_lookup_2.
Qed.

(** What the trace has to do with the flag. *)
Lemma received_asked s es s' : run s es = Some s' → received s' = true →
  received s = true ∨ HStore ∈ handlers s ∨ ∃ t, Ctrl t ∈ es ∧ asks_shutdown t = true.
Proof.
  revert s. induction es as [|e es IH]; intros s; cbn; [intros [= <-]; by left|].
  destruct (step s e) as [s1|] eqn:E; [cbn|done]. intros Hr Hv.
  destruct (IH s1 Hr Hv) as [H|[H|(t & Ht & Ha)]]; [| |right; right; exists t; set_solver];
    destruct e as [|t|i|i ins]; cbn in E.
  - simplify_eq. by left.
  - destruct (registered s); simplify_eq. by left.
  - destruct (handlers s !! i) as [[]|] eqn:Eh; simplify_eq/=; [right; left; by eapply list_elem_of_lookup_2|by left].
  - destruct (waiters s !! i) as [w|]; [cbn in E|done]. destruct (poll _ _ _ w) as [[r w']|]; simplify_eq/=. by left.
  - simplify_eq. right. by left.
  - destruct (registered s); simplify_eq/=. apply elem_of_app in H as [H|H]; [right; by left|].
    right. right. exists t. split; [left|]. unfold console_ctrl_handler in H. destruct (asks_shutdown t); [done|set_solver].
  - right. left. destruct (handlers s !! i) as [[]|]; simplify_eq/=; by apply elem_of_insert_or in H as [|].
  - destruct (waiters s !! i) as [w|]; [cbn in E|done]. destruct (poll _ _ _ w) as [[r w']|]; simplify_eq/=. right. by left.
Qed.

(** C24: No request to shut down is lost, and none is made up.  However the
    handler's calls and any number of futures interleave, wherever each of them
    is: a future that has returned was asked to by a control event of the
    console; and once a call of the handler has raised the flag and none is on
    the way to wake the listeners, every future that has not failed to install
    the handler returns within four steps of its own, also one created later. *)
Theorem shutdown_is_not_lost (es : list Event) (s : State) (i : nat) (w : Waiter) :
  run init es = Some s → waiters s !! i = Some w →
  (w = WReturned → ∃ t, Ctrl t ∈ es ∧ asks_shutdown t = true) ∧
  (received s = true → HNotify ∉ handlers s → w ≠ WPanicked →
   ∃ k s', (k ≤ 4)%nat ∧ run s (repeat (WaiterStep i true) k) = Some s' ∧ waiters s' !! i = Some WReturned).
Proof.
  intros Hrun E. assert (inv s) as Hi by (eapply signal_run_inv; [|exact Hrun]; split; constructor). split.
  - intros ->. pose proof (lookup_ok _ _ _ _ (inv_waiters s Hi) E) as Hr.
    destruct (received_asked init es s Hrun Hr) as [|[H|H]]; [done| |done]. by apply elem_of_nil in H.
  - intros Hr Hn Hp. apply (flag_finishes 4 s i w); try done. destruct w; cbn; lia.
Qed.

(** A future waits for the first signal it subscribed to. *)
Lemma unix_signal_first incoming g :
  raw_shutdown_signal incoming = Some g ↔
  ∃ a b, incoming = a ++ g :: b ∧ g ∈ unix_signals ∧ Forall (λ x, x ∉ unix_signals) a.
Proof.
  unfold raw_shutdown_signal. induction incoming as [|x l IH]; [split; [done|by intros ([] & b & ? & _)]|].
  rewrite filter_cons. destruct (decide (x ∈ unix_signals)) as [Hx|Hx]; cbn [head].
  - split.
    + intros [= ->]. by exists [], l.
    + intros (a & b & E & Hg & Ha). destruct Ha as [|y a Hy Ha]; [by injection E as -> _|]. injection E as -> _. done.
  - rewrite IH. split.
    + intros (a & b & -> & Hg & Ha). exists (x :: a), b. split_and!; [done|done|by constructor].
    + intros (a & b & E & Hg & Ha). destruct Ha as [|y a Hy Ha]; [injection E as -> _; done|].
      injection E as _ ->. by exists a, b.
Qed.

(** The event comes between the second look at the flag and the wait. *)
Definition demo_race : list Event :=
  [New; WaiterStep 0 true; WaiterStep 0 true; WaiterStep 0 true; WaiterStep 0 true; Ctrl CTRL_C_EVENT;
   HandlerStep 0; New; HandlerStep 0].

Lemma shutdown_is_not_lost_witness :
  ∃ s, run init demo_race = Some s ∧ waiters s = [WAwait true; WRegister] ∧
    ∃ k s', (k ≤ 4)%nat ∧ run s (repeat (WaiterStep 1 true) k) = Some s' ∧ waiters s' !! 1%nat = Some WReturned.
Proof.
  eexists. split; [vm_compute; reflexivity|]. split; [reflexivity|].
  apply (shutdown_is_not_lost demo_race _ 1 WRegister); [vm_compute; reflexivity|reflexivity|reflexivity| |done].
  apply (bool_decide_unpack _). vm_compute. exact I.
Defined.
End ShutdownSignal.
