(* ===== verification/Nom.v ===== *)
(** * The parser combinators the crontab parser is built on

    nom is a library the sources only call: its combinators are the operations
    of the class [Nom] and their documented behaviour is the class [NomLaws].
    The crontab parser and its theorems are stated against these classes;
    [exec_nom] is an executable instance that satisfies the laws. *)

From S2P Require Import Prelude Text.
Open Scope Z_scope.

Module Nom.
Import Text.

(** [nom::Err<nom::error::Error<&str>>]: recoverable, unrecoverable, or out of
    input in a streaming parser. *)
Inductive Err_ (K : Type) := Error (input : str) (code : K) | Failure (input : str) (code : K) | Incomplete.
Arguments Error {K} input code.
Arguments Failure {K} input code.
Arguments Incomplete {K}.

Abbreviation IResult K T := (result (str * T) (Err_ K)).
Abbreviation parser K T := (str → IResult K T).

(** [char::is_ascii] space and tab, as [space0] and [space1] take them. *)
Definition is_space (c : char) : bool := (c =? 32) || (c =? 9).

Class Nom (K : Type) := {
  k_fail : K; k_char : K; k_satisfy : K; k_digit : K; k_verify : K; k_take_while1 : K;
  k_space : K; k_crlf : K; k_eof : K; k_not : K; k_many0 : K; k_separated : K;
  nom_char : char → parser K char;
  satisfy : (char → bool) → parser K char;
  u32 : parser K Z;
  take_while : (char → bool) → parser K str;
  take_while1 : (char → bool) → parser K str;
  space0 : parser K str;
  space1 : parser K str;
  line_ending : parser K str;
  eof : parser K str;
  verify : ∀ {T}, parser K T → (T → bool) → parser K T;
  pmap : ∀ {A B}, parser K A → (A → B) → parser K B;
  opt : ∀ {T}, parser K T → parser K (option T);
  pnot : ∀ {T}, parser K T → parser K unit;
  cut : ∀ {T}, parser K T → parser K T;
  value : ∀ {A B}, A → parser K B → parser K A;
  pair_ : ∀ {A B}, parser K A → parser K B → parser K (A * B);
  preceded : ∀ {A B}, parser K A → parser K B → parser K B;
  terminated : ∀ {A B}, parser K A → parser K B → parser K A;
  separated_pair : ∀ {A B C}, parser K A → parser K B → parser K C → parser K (A * C);
  alt : ∀ {T}, list (parser K T) → parser K T;
  many0 : ∀ {T}, parser K T → parser K (list T);
  separated_list1 : ∀ {S T}, parser K S → parser K T → parser K (list T)
}.

(** A parser that leaves no more input than it was given, as all do; and one
    that takes some. *)
Definition shrinking {K T} (p : parser K T) : Prop :=
  ∀ i r x, p i = Ok (r, x) → (length r ≤ length i)%nat.
Definition consuming {K T} (p : parser K T) : Prop :=
  ∀ i r x, p i = Ok (r, x) → (length r < length i)%nat.

(** The documented behaviour. *)
Class NomLaws (K : Type) `{Nom K} := {
  nom_char_eq c i : nom_char c i =
    match i with x :: r => if x =? c then Ok (r, x) else Err (Error i k_char) | [] => Err (Error i k_char) end;
  satisfy_eq p i : satisfy p i =
    match i with x :: r => if p x then Ok (r, x) else Err (Error i k_satisfy) | [] => Err (Error i k_satisfy) end;
  u32_eq i : u32 i =
    let '(ds, r) := span is_ascii_digit i in
    if is_empty ds || (U32_MAX <? digits_value ds) then Err (Error i k_digit) else Ok (r, digits_value ds);
  take_while_eq p i : take_while p i = let '(s, r) := span p i in Ok (r, s);
  take_while1_eq p i : take_while1 p i =
    let '(s, r) := span p i in if is_empty s then Err (Error i k_take_while1) else Ok (r, s);
  space0_eq i : space0 i = let '(s, r) := span is_space i in Ok (r, s);
  space1_eq i : space1 i =
    let '(s, r) := span is_space i in if is_empty s then Err (Error i k_space) else Ok (r, s);
  line_ending_eq i : line_ending i =
    match i with
    | 10 :: r => Ok (r, [10])
    | 13 :: 10 :: r => Ok (r, [13; 10])
    | _ => Err (Error i k_crlf)
    end;
  eof_eq i : eof i = match i with [] => Ok ([], []) | _ => Err (Error i k_eof) end;
  verify_eq {T} (p : parser K T) f i : verify p f i =
    match p i with Ok (r, x) => if f x then Ok (r, x) else Err (Error i k_verify) | Err e => Err e end;
  pmap_eq {A B} (p : parser K A) (f : A → B) i : pmap p f i =
    match p i with Ok (r, x) => Ok (r, f x) | Err e => Err e end;
  opt_eq {T} (p : parser K T) i : opt p i =
    match p i with
    | Ok (r, x) => Ok (r, Some x)
    | Err (Error _ _) => Ok (i, None)
    | Err e => Err e
    end;
  pnot_eq {T} (p : parser K T) i : pnot p i =
    match p i with
    | Ok _ => Err (Error i k_not)
    | Err (Error _ _) => Ok (i, tt)
    | Err e => Err e
    end;
  cut_eq {T} (p : parser K T) i : cut p i =
    match p i with Err (Error j k) => Err (Failure j k) | r => r end;
  value_eq {A B} (v : A) (p : parser K B) i : value v p i =
    match p i with Ok (r, _) => Ok (r, v) | Err e => Err e end;
  pair_eq {A B} (p : parser K A) (q : parser K B) i : pair_ p q i =
    match p i with
    | Ok (r, x) => match q r with Ok (r', y) => Ok (r', (x, y)) | Err e => Err e end
    | Err e => Err e
    end;
  preceded_eq {A B} (p : parser K A) (q : parser K B) i : preceded p q i =
    match p i with Ok (r, _) => q r | Err e => Err e end;
  terminated_eq {A B} (p : parser K A) (q : parser K B) i : terminated p q i =
    match p i with
    | Ok (r, x) => match q r with Ok (r', _) => Ok (r', x) | Err e => Err e end
    | Err e => Err e
    end;
  separated_pair_eq {A B C} (p : parser K A) (s : parser K B) (q : parser K C) i :
    separated_pair p s q i =
    match p i with
    | Ok (r, x) =>
        match s r with
        | Ok (r', _) => match q r' with Ok (r'', y) => Ok (r'', (x, y)) | Err e => Err e end
        | Err e => Err e
        end
    | Err e => Err e
    end;
  alt_one {T} (p : parser K T) i : alt [p] i = p i;
  alt_cons {T} (p q : parser K T) ps i : alt (p :: q :: ps) i =
    match p i with Err (Error _ _) => alt (q :: ps) i | r => r end;
  (** [many0] stops at the first error and refuses a parser that consumes
      nothing. *)
  many0_eq {T} (p : parser K T) i : shrinking p → many0 p i =
    match p i with
    | Ok (r, x) =>
        if (length r =? length i)%nat then Err (Error i k_many0)
        else match many0 p r with Ok (r', xs) => Ok (r', x :: xs) | Err e => Err e end
    | Err (Error _ _) => Ok (i, [])
    | Err e => Err e
    end;
  (** [separated_list1] leaves a separator that no element follows; applied to
      a separator that consumes input. *)
  separated_list1_eq {S T} (s : parser K S) (p : parser K T) i :
    consuming s → shrinking p →
    separated_list1 s p i =
    match p i with
    | Ok (r, x) =>
        match s r with
        | Ok (r', _) =>
            match p r' with
            | Ok _ =>
                match separated_list1 s p r' with Ok (r'', xs) => Ok (r'', x :: xs) | Err e => Err e end
            | Err (Error _ _) => Ok (r, [x])
            | Err e => Err e
            end
        | Err (Error _ _) => Ok (r, [x])
        | Err e => Err e
        end
    | Err e => Err e
    end
}.

(** ** Where parsers leave off and where they fail *)

Section soundness.
Context {K : Type} `{NomLaws K}.

(** What is left, and what an error points at, is a suffix of the input. *)
Definition sound {T} (p : parser K T) : Prop := ∀ i,
  match p i with
  | Ok (r, _) => r `suffix_of` i
  | Err (Error j _) | Err (Failure j _) => j `suffix_of` i
  | Err Incomplete => False
  end.

(** Only recoverable errors. *)
Definition recoverable {T} (p : parser K T) : Prop := ∀ i e, p i = Err e → ∃ j k, e = Error j k.

Definition leaves_suffix {T} (p : parser K T) : Prop := ∀ i r x, p i = Ok (r, x) → r `suffix_of` i.

Lemma sound_leaves {T} (p : parser K T) : sound p → leaves_suffix p.
Proof. intros Hp i r x E. specialize (Hp i). by rewrite E in Hp. Qed.

Lemma leaves_shrinking {T} (p : parser K T) : leaves_suffix p → shrinking p.
Proof. intros Hp i r x E. by apply suffix_length, (Hp i r x). Qed.

Lemma sound_shrinking {T} (p : parser K T) : sound p → shrinking p.
Proof. intros Hp. by apply leaves_shrinking, sound_leaves. Qed.

Lemma span_suffix (f : char → bool) (i : str) : (span f i).2 `suffix_of` i.
Proof. exists (span f i).1. by rewrite span_app. Qed.

Lemma sound_char c : sound (nom_char c).
Proof. intros i. rewrite nom_char_eq. destruct i as [|x i]; [done|]. destruct (x =? c); [by exists [x]|done]. Qed.

Lemma consuming_char c : consuming (nom_char c).
Proof.
  intros i r x. rewrite nom_char_eq. destruct i as [|y i]; [done|]. destruct (y =? c); [|done].
  intros [= <- _]. cbn. lia.
Qed.

Lemma sound_satisfy f : sound (satisfy f).
Proof. intros i. rewrite satisfy_eq. destruct i as [|x i]; [done|]. destruct (f x); [by exists [x]|done]. Qed.

Lemma sound_u32 : sound u32.
Proof.
  intros i. rewrite u32_eq. pose proof (span_suffix is_ascii_digit i). destruct (span _ i) as [ds r].
  by destruct (_ || _).
Qed.

Lemma sound_take_while f : sound (take_while f).
Proof. intros i. rewrite take_while_eq. pose proof (span_suffix f i). by destruct (span f i). Qed.

Lemma sound_take_while1 f : sound (take_while1 f).
Proof.
  intros i. rewrite take_while1_eq. pose proof (span_suffix f i). destruct (span f i) as [s r].
  by destruct (is_empty s).
Qed.

Lemma sound_space0 : sound space0.
Proof. intros i. rewrite space0_eq. pose proof (span_suffix is_space i). by destruct (span is_space i). Qed.

Lemma sound_space1 : sound space1.
Proof.
  intros i. rewrite space1_eq. pose proof (span_suffix is_space i). destruct (span is_space i) as [s r].
  by destruct (is_empty s).
Qed.

Lemma line_ending_cases i :
  (∃ r s, line_ending i = Ok (r, s) ∧ i = s ++ r ∧ s ≠ []) ∨ line_ending i = Err (Error i k_crlf).
Proof.
  rewrite line_ending_eq. destruct i as [|x [|y i]]; [by right| |].
  - repeat case_match; try (by right); left; by eexists _, _.
  - repeat case_match; try (by right); left; by eexists _, _.
Qed.

Lemma sound_line_ending : sound line_ending.
Proof.
  intros i. destruct (line_ending_cases i) as [(r & s & -> & -> & _)| ->]; [by exists s|done].
Qed.

Lemma sound_eof : sound eof.
Proof. intros i. rewrite eof_eq. by destruct i. Qed.

Lemma sound_verify {T} (p : parser K T) f : sound p → sound (verify p f).
Proof.
  intros Hp i. rewrite verify_eq. specialize (Hp i). destruct (p i) as [[r x]|e]; [|done].
  by destruct (f x).
Qed.

Lemma sound_pmap {A B} (p : parser K A) (f : A → B) : sound p → sound (pmap p f).
Proof. intros Hp i. rewrite pmap_eq. specialize (Hp i). by destruct (p i) as [[r x]|e]. Qed.

Lemma sound_value {A B} (v : A) (p : parser K B) : sound p → sound (value v p).
Proof. intros Hp i. rewrite value_eq. specialize (Hp i). by destruct (p i) as [[r x]|e]. Qed.

Lemma sound_opt {T} (p : parser K T) : sound p → sound (opt p).
Proof. intros Hp i. rewrite opt_eq. specialize (Hp i). by destruct (p i) as [[r x]|[]]. Qed.

Lemma sound_opt_recoverable {T} (p : parser K T) : leaves_suffix p → recoverable p → sound (opt p).
Proof.
  intros Hp He i. rewrite opt_eq. destruct (p i) as [[r x]|e] eqn:E; [by eapply Hp|].
  by destruct (He i e E) as (j & k & ->).
Qed.

Lemma sound_pnot {T} (p : parser K T) : sound p → sound (pnot p).
Proof. intros Hp i. rewrite pnot_eq. specialize (Hp i). by destruct (p i) as [[r x]|[]]. Qed.

Lemma sound_cut {T} (p : parser K T) : sound p → sound (cut p).
Proof. intros Hp i. rewrite cut_eq. specialize (Hp i). by destruct (p i) as [[r x]|[]]. Qed.

Lemma sound_bind {A B} (p : parser K A) (f : A → parser K B) :
  sound p → (∀ x, sound (f x)) → sound (λ i, match p i with Ok (r, x) => f x r | Err e => Err e end).
Proof.
  intros Hp Hf i. specialize (Hp i). destruct (p i) as [[r x]|e]; [|done]. specialize (Hf x r).
  destruct (f x r) as [[r' y]|[]]; try done; by etrans.
Qed.

Lemma sound_ret {T} (x : T) : sound (λ i, Ok (i, x)).
Proof. by intros i. Qed.

Lemma sound_ext {T} (p q : parser K T) : (∀ i, p i = q i) → sound q → sound p.
Proof. intros E Hq i. rewrite E. apply Hq. Qed.

Lemma sound_preceded {A B} (p : parser K A) (q : parser K B) : sound p → sound q → sound (preceded p q).
Proof. intros Hp Hq. eapply sound_ext; [apply preceded_eq|]. by apply (sound_bind p (λ _, q)). Qed.

Lemma sound_terminated {A B} (p : parser K A) (q : parser K B) : sound p → sound q → sound (terminated p q).
Proof.
  intros Hp Hq. eapply sound_ext; [apply terminated_eq|].
  apply (sound_bind p (λ x r, match q r with Ok (r', _) => Ok (r', x) | Err e => Err e end)); [done|].
  intros x. apply (sound_bind q (λ _ r, Ok (r, x))); [done|]. intros _. apply sound_ret.
Qed.

Lemma sound_pair {A B} (p : parser K A) (q : parser K B) : sound p → sound q → sound (pair_ p q).
Proof.
  intros Hp Hq. eapply sound_ext; [apply pair_eq|].
  apply (sound_bind p (λ x r, match q r with Ok (r', y) => Ok (r', (x, y)) | Err e => Err e end)); [done|].
  intros x. apply (sound_bind q (λ y r, Ok (r, (x, y)))); [done|]. intros y. apply sound_ret.
Qed.

Lemma sound_separated_pair {A B C} (p : parser K A) (s : parser K B) (q : parser K C) :
  sound p → sound s → sound q → sound (separated_pair p s q).
Proof.
  intros Hp Hs Hq. eapply (sound_ext _ (λ i, match p i with
    | Ok (r, x) => match preceded s q r with Ok (r', y) => Ok (r', (x, y)) | Err e => Err e end
    | Err e => Err e end)).
  { intros i. rewrite separated_pair_eq. destruct (p i) as [[r x]|]; [|done]. rewrite preceded_eq.
    by destruct (s r) as [[]|]. }
  apply (sound_bind p (λ x r, match preceded s q r with Ok (r', y) => Ok (r', (x, y)) | Err e => Err e end)); [done|].
  intros x. apply (sound_bind (preceded s q) (λ y r, Ok (r, (x, y)))); [by apply sound_preceded|].
  intros y. apply sound_ret.
Qed.

Lemma sound_alt {T} (p : parser K T) ps : sound p → Forall sound ps → sound (alt (p :: ps)).
Proof.
  intros Hp Hps. revert p Hp. induction Hps as [|q ps Hq _ IH]; intros p Hp i.
  - rewrite alt_one. apply Hp.
  - rewrite alt_cons. specialize (Hp i). destruct (p i) as [[r x]|[]]; try done. by apply IH.
Qed.

Lemma sound_many0 {T} (p : parser K T) : sound p → sound (many0 p).
Proof.
  intros Hp i. remember (length i) as n eqn:Hn. revert i Hn.
  induction n as [n IH] using (well_founded_induction lt_wf). intros i ->.
  rewrite many0_eq by (by apply sound_shrinking). pose proof (Hp i) as Hi.
  destruct (p i) as [[r x]|[]]; try done.
  destruct (Nat.eqb_spec (length r) (length i)) as [_|Hne]; [done|].
  pose proof (suffix_length _ _ Hi) as Hle. specialize (IH (length r) ltac:(lia) r eq_refl).
  destruct (many0 p r) as [[r' xs]|[]]; try done; by etrans.
Qed.

Lemma sound_separated_list1 {S T} (s : parser K S) (p : parser K T) :
  sound s → consuming s → sound p → sound (separated_list1 s p).
Proof.
  intros Hs Hc Hp i. remember (length i) as n eqn:Hn. revert i Hn.
  induction n as [n IH] using (well_founded_induction lt_wf). intros i ->.
  rewrite separated_list1_eq by auto using sound_shrinking. pose proof (Hp i) as Hi.
  destruct (p i) as [[r x]|[]]; try done. pose proof (Hs r) as Hr.
  destruct (s r) as [[r' y]|[]] eqn:E; try done; [|by etrans].
  pose proof (Hp r') as Hr'. pose proof (Hc _ _ _ E) as Hlt.
  pose proof (suffix_length _ _ Hi) as Hle. specialize (IH (length r') ltac:(lia) r' eq_refl).
  destruct (p r') as [[r'' z]|[]]; try done; [|by do 2 etrans].
  destruct (separated_list1 s p r') as [[r3 xs]|[]]; try done; by do 2 etrans.
Qed.
End soundness.

Create HintDb nom.
#[export] Hint Resolve sound_char consuming_char sound_satisfy sound_u32 sound_take_while sound_take_while1
  sound_space0 sound_space1 sound_line_ending sound_eof sound_verify sound_pmap sound_value sound_opt
  sound_pnot sound_cut sound_preceded sound_terminated sound_pair sound_separated_pair sound_alt
  sound_many0 sound_separated_list1 sound_ret sound_shrinking : nom.
#[export] Hint Constructors Forall : nom.

(** ** An executable instance *)

Inductive ErrorKind :=
| Fail_ | Char_ | Satisfy_ | Digit_ | Verify_ | TakeWhile1_ | Space_ | CrLf_ | Eof_ | Not_ | Many0_ | SeparatedList_.

Section exec.
Abbreviation P T := (parser ErrorKind T).

Fixpoint many0_fuel {T} (n : nat) (p : P T) (i : str) : IResult ErrorKind (list T) :=
  match n with
  | O => Err Incomplete
  | S n =>
      match p i with
      | Ok (r, x) =>
          if (length r =? length i)%nat then Err (Error i Many0_)
          else match many0_fuel n p r with Ok (r', xs) => Ok (r', x :: xs) | Err e => Err e end
      | Err (Error _ _) => Ok (i, [])
      | Err e => Err e
      end
  end.

Fixpoint separated_fuel {S T} (n : nat) (s : P S) (p : P T) (i : str) : IResult ErrorKind (list T) :=
  match n with
  | O => Err Incomplete
  | S n =>
      match p i with
      | Ok (r, x) =>
          match s r with
          | Ok (r', _) =>
              match p r' with
              | Ok _ =>
                  match separated_fuel n s p r' with Ok (r'', xs) => Ok (r'', x :: xs) | Err e => Err e end
              | Err (Error _ _) => Ok (r, [x])
              | Err e => Err e
              end
          | Err (Error _ _) => Ok (r, [x])
          | Err e => Err e
          end
      | Err e => Err e
      end
  end.

Fixpoint alt_exec {T} (ps : list (P T)) (i : str) : IResult ErrorKind T :=
  match ps with
  | [] => Err Incomplete
  | [p] => p i
  | p :: ps => match p i with Err (Error _ _) => alt_exec ps i | r => r end
  end.

(** A loop over a shorter input has fuel to spare. *)
Lemma many0_fuel_irrel {T} (p : P T) i n m :
  shrinking p → (length i < n)%nat → (length i < m)%nat → many0_fuel n p i = many0_fuel m p i.
Proof.
  intros Hp. revert i m. induction n as [|n IH]; intros i [|m] Hn Hm; [lia..|]. cbn.
  destruct (p i) as [[r x]|] eqn:E; [|done]. destruct (Nat.eqb_spec (length r) (length i)); [done|].
  specialize (Hp _ _ _ E). by rewrite (IH r m) by lia.
Qed.

Lemma separated_fuel_irrel {S T} (s : P S) (p : P T) i n m :
  consuming s → shrinking p → (length i < n)%nat → (length i < m)%nat →
  separated_fuel n s p i = separated_fuel m s p i.
Proof.
  intros Hs Hp. revert i m. induction n as [|n IH]; intros i [|m] Hn Hm; [lia..|]. cbn.
  destruct (p i) as [[r x]|] eqn:E; [|done]. specialize (Hp _ _ _ E) as Hr.
  destruct (s r) as [[r' y]|] eqn:E'; [|done]. specialize (Hs _ _ _ E') as Hr'.
  destruct (p r') as [?|]; [|done]. by rewrite (IH r' m) by lia.
Qed.

#[export] Instance exec_nom : Nom ErrorKind := {
  k_fail := Fail_; k_char := Char_; k_satisfy := Satisfy_; k_digit := Digit_; k_verify := Verify_;
  k_take_while1 := TakeWhile1_; k_space := Space_; k_crlf := CrLf_; k_eof := Eof_; k_not := Not_;
  k_many0 := Many0_; k_separated := SeparatedList_;
  nom_char c i :=
    match i with x :: r => if x =? c then Ok (r, x) else Err (Error i Char_) | [] => Err (Error i Char_) end;
  satisfy p i :=
    match i with x :: r => if p x then Ok (r, x) else Err (Error i Satisfy_) | [] => Err (Error i Satisfy_) end;
  u32 i :=
    let '(ds, r) := span is_ascii_digit i in
    if is_empty ds || (U32_MAX <? digits_value ds) then Err (Error i Digit_) else Ok (r, digits_value ds);
  take_while p i := let '(s, r) := span p i in Ok (r, s);
  take_while1 p i := let '(s, r) := span p i in if is_empty s then Err (Error i TakeWhile1_) else Ok (r, s);
  space0 i := let '(s, r) := span is_space i in Ok (r, s);
  space1 i := let '(s, r) := span is_space i in if is_empty s then Err (Error i Space_) else Ok (r, s);
  line_ending i :=
    match i with
    | 10 :: r => Ok (r, [10]) | 13 :: 10 :: r => Ok (r, [13; 10]) | _ => Err (Error i CrLf_)
    end;
  eof i := match i with [] => Ok ([], []) | _ => Err (Error i Eof_) end;
  verify T p f i :=
    match p i with Ok (r, x) => if f x then Ok (r, x) else Err (Error i Verify_) | Err e => Err e end;
  pmap A B p f i := match p i with Ok (r, x) => Ok (r, f x) | Err e => Err e end;
  opt T p i :=
    match p i with Ok (r, x) => Ok (r, Some x) | Err (Error _ _) => Ok (i, None) | Err e => Err e end;
  pnot T p i :=
    match p i with Ok _ => Err (Error i Not_) | Err (Error _ _) => Ok (i, tt) | Err e => Err e end;
  cut T p i := match p i with Err (Error j k) => Err (Failure j k) | r => r end;
  value A B v p i := match p i with Ok (r, _) => Ok (r, v) | Err e => Err e end;
  pair_ A B p q i :=
    match p i with
    | Ok (r, x) => match q r with Ok (r', y) => Ok (r', (x, y)) | Err e => Err e end
    | Err e => Err e
    end;
  preceded A B p q i := match p i with Ok (r, _) => q r | Err e => Err e end;
  terminated A B p q i :=
    match p i with
    | Ok (r, x) => match q r with Ok (r', _) => Ok (r', x) | Err e => Err e end
    | Err e => Err e
    end;
  separated_pair A B C p s q i :=
    match p i with
    | Ok (r, x) =>
        match s r with
        | Ok (r', _) => match q r' with Ok (r'', y) => Ok (r'', (x, y)) | Err e => Err e end
        | Err e => Err e
        end
    | Err e => Err e
    end;
  alt T := alt_exec;
  many0 T p i := many0_fuel (S (length i)) p i;
  separated_list1 S' T s p i := separated_fuel (S (length i)) s p i
}.

#[export] Instance exec_nom_laws : NomLaws ErrorKind.
Proof.
  split; try done.
  - intros T p i Hp. cbn. destruct (p i) as [[r x]|] eqn:E; [|done].
    destruct (Nat.eqb_spec (length r) (length i)); [done|]. specialize (Hp _ _ _ E) as Hr.
    by rewrite (many0_fuel_irrel p r (length i) (S (length r)) Hp) by lia.
  - intros S' T s p i Hs Hp. cbn. destruct (p i) as [[r x]|] eqn:E; [|done]. specialize (Hp _ _ _ E) as Hr.
    destruct (s r) as [[r' y]|] eqn:E'; [|done]. specialize (Hs _ _ _ E') as Hr'.
    destruct (p r') as [q|] eqn:E2; [|done].
    rewrite (separated_fuel_irrel s p r' (length i) (S (length r')) Hs Hp) by lia. cbn. by rewrite E2.
Qed.
End exec.

End Nom.
