(* ===== verification/CrontabTypes.v ===== *)
(** * Crontab types (crates/graphile-worker-crontab-types)

    The schedule language: validated field values, timers, the backfill
    window and the crontab entry itself.  A [NaiveDateTime] of chrono is seen
    through the five accessors the crate calls on it; its weekday is the
    number [weekday().number_from_monday()]. *)

From S2P Require Import Prelude.
Open Scope Z_scope.

Module CrontabTypes.

(** ** field.rs *)

Inductive CrontabField := Minute | Hour | Day | Month.

#[export] Instance CrontabField_eq_dec : EqDecision CrontabField.
Proof. solve_decision. Defined.

Definition bounds (f : CrontabField) : Z * Z :=
  match f with
  | Minute => (0, 59)
  | Hour => (0, 23)
  | Day => (1, 31)
  | Month => (1, 12)
  end.

Inductive CrontabTimerError :=
| ValueOutOfRange (field : CrontabField) (value min max : Z)
| RangeOutOfOrder (field : CrontabField) (start end_ : Z)
| ZeroStep (field : CrontabField).

(** ** value.rs *)

Inductive CrontabValue :=
| Number (n : Z)
| Range (low high : Z)
| Step (n : Z)
| Any.

#[export] Instance CrontabValue_eq_dec : EqDecision CrontabValue.
Proof. solve_decision. Defined.

Definition validate (field : CrontabField) (value : Z) : result Z CrontabTimerError :=
  let '(min, max) := bounds field in
  if (value <? min) || (value >? max)
  then Err (ValueOutOfRange field value min max)
  else Ok value.

Definition number (field : CrontabField) (value : Z) : result CrontabValue CrontabTimerError :=
  let? v := validate field value in Ok (Number v).

Definition range (field : CrontabField) (start end_ : Z) :
    result CrontabValue CrontabTimerError :=
  let? start := validate field start in
  let? end_ := validate field end_ in
  if start >? end_ then Err (RangeOutOfOrder field start end_)
  else Ok (Range start end_).

Definition step (field : CrontabField) (step : Z) : result CrontabValue CrontabTimerError :=
  if step =? 0 then Err (ZeroStep field)
  else
    let '(_, max) := bounds field in
    if step >? max then Err (ValueOutOfRange field step 1 max)
    else Ok (Step step).

Definition match_value (self : CrontabValue) (value step_offset : Z) : bool :=
  match self with
  | Number n => value =? n
  | Range low high => (value >=? low) && (value <=? high)
  | Step n => if n =? 0 then false else value `mod` n =? step_offset
  | Any => true
  end.

(** ** timer.rs *)

Record CrontabTimer := mkTimer {
  minutes : list CrontabValue;
  hours : list CrontabValue;
  days : list CrontabValue;
  months : list CrontabValue;
  dows : list CrontabValue
}.

(** The accessors of [chrono::NaiveDateTime] that [should_run_at] reads. *)
Record NaiveDateTime := mkNaive {
  minute : Z;
  hour : Z;
  day : Z;
  month : Z;
  number_from_monday : Z
}.

(** Documented ranges of those accessors. *)
Definition valid_naive (at_ : NaiveDateTime) : Prop :=
  0 ≤ minute at_ ≤ 59 ∧ 0 ≤ hour at_ ≤ 23 ∧ 1 ≤ day at_ ≤ 31 ∧
  1 ≤ month at_ ≤ 12 ∧ 1 ≤ number_from_monday at_ ≤ 7.

Definition default_timer : CrontabTimer :=
  mkTimer [Any] [Any] [Any] [Any] [Any].

Definition every_minute : CrontabTimer := default_timer.

Definition every_n_minutes (n : Z) : result CrontabTimer CrontabTimerError :=
  let? v := step Minute n in
  Ok (mkTimer [v] [Any] [Any] [Any] [Any]).

Definition hourly_at (min : Z) : result CrontabTimer CrontabTimerError :=
  let? v := number Minute min in
  Ok (mkTimer [v] [Any] [Any] [Any] [Any]).

Definition daily_at (h min : Z) : result CrontabTimer CrontabTimerError :=
  let? vm := number Minute min in
  let? vh := number Hour h in
  Ok (mkTimer [vm] [vh] [Any] [Any] [Any]).

Definition weekly_on (weekday h min : Z) : result CrontabTimer CrontabTimerError :=
  let? vm := number Minute min in
  let? vh := number Hour h in
  Ok (mkTimer [vm] [vh] [Any] [Any] [Number weekday]).

Definition monthly_on (d h min : Z) : result CrontabTimer CrontabTimerError :=
  let? vm := number Minute min in
  let? vh := number Hour h in
  let? vd := number Day d in
  Ok (mkTimer [vm] [vh] [vd] [Any] [Any]).

Definition yearly_on (mo d h min : Z) : result CrontabTimer CrontabTimerError :=
  let? vm := number Minute min in
  let? vh := number Hour h in
  let? vd := number Day d in
  let? vmo := number Month mo in
  Ok (mkTimer [vm] [vh] [vd] [vmo] [Any]).

Definition any_match (vs : list CrontabValue) (value step_offset : Z) : bool :=
  existsb (λ v, match_value v value step_offset) vs.

Definition should_run_at (self : CrontabTimer) (at_ : NaiveDateTime) : bool :=
  any_match (minutes self) (minute at_) 0
  && any_match (hours self) (hour at_) 0
  && any_match (days self) (day at_) 1
  && any_match (months self) (month at_) 1
  && any_match (dows self) (number_from_monday at_) 1.

(** ** fill.rs *)

Definition SECOND : Z := 1.
Definition MINUTE : Z := 60 * SECOND.
Definition HOUR : Z := 60 * MINUTE.
Definition DAY : Z := 24 * HOUR.
Definition WEEK : Z := 7 * DAY.

Record CrontabFill := mkFill { fw : Z; fd : Z; fh : Z; fm : Z; fs : Z }.

#[export] Instance CrontabFill_eq_dec : EqDecision CrontabFill.
Proof. solve_decision. Defined.

Definition fill_seconds (s : Z) : CrontabFill := mkFill 0 0 0 0 s.
Definition fill_minutes (m : Z) : CrontabFill := mkFill 0 0 0 m 0.
Definition fill_hours (h : Z) : CrontabFill := mkFill 0 0 h 0 0.
Definition fill_days (d : Z) : CrontabFill := mkFill 0 d 0 0 0.
Definition fill_weeks (w : Z) : CrontabFill := mkFill w 0 0 0 0.

(** [u32] products and sums, wrapping at each operator. *)
Definition to_secs (self : CrontabFill) : Z :=
  wrap_u32 (wrap_u32 (wrap_u32 (wrap_u32
    (wrap_u32 (fw self * WEEK) + wrap_u32 (fd self * DAY))
    + wrap_u32 (fh self * HOUR)) + wrap_u32 (fm self * MINUTE))
    + wrap_u32 (fs self * SECOND)).

(** [Ord for CrontabFill]. *)
Definition fill_cmp (a b : CrontabFill) : comparison :=
  (to_secs a ?= to_secs b).

(** ** options.rs and crontab.rs *)

Inductive JobKeyMode := Replace | PreserveRunAt.

Record CrontabOptions := mkOptions {
  opt_id : option str;
  opt_fill : option CrontabFill;
  opt_max : option Z;
  opt_queue : option str;
  opt_priority : option Z;
  opt_job_key : option str;
  opt_job_key_mode : option JobKeyMode
}.

Definition default_options : CrontabOptions :=
  mkOptions None None None None None None None.

Section crontab.
(** [serde_json::Value], the payload. *)
Context {Value : Type}.

Record Crontab := mkCrontab {
  timer : CrontabTimer;
  task_identifier : str;
  options : CrontabOptions;
  payload : option Value
}.

Definition new (t : CrontabTimer) (identifier : str) : Crontab :=
  mkCrontab t identifier default_options None.

Definition crontab_should_run_at (self : Crontab) (at_ : NaiveDateTime) : bool :=
  should_run_at (timer self) at_.

Definition identifier (self : Crontab) : str :=
  default (task_identifier self) (opt_id (options self)).
End crontab.
Arguments Crontab Value : clear implicits.

(** ** Validation *)

(** The values a constructor can return. *)
Definition well_formed (f : CrontabField) (v : CrontabValue) : Prop :=
  match v with
  | Number n => (bounds f).1 ≤ n ≤ (bounds f).2
  | Range a b => (bounds f).1 ≤ a ∧ a ≤ b ∧ b ≤ (bounds f).2
  | Step n => n ≠ 0 ∧ n ≤ (bounds f).2
  | Any => True
  end.

Lemma validate_ok_iff f v r :
  validate f v = Ok r ↔ r = v ∧ (bounds f).1 ≤ v ≤ (bounds f).2.
Proof.
  unfold validate. destruct (bounds f) as [lo hi]; simpl.
  destruct (Z.ltb_spec v lo), (Z.gtb_spec v hi); simpl; naive_solver lia.
Qed.

Lemma validate_ok f v :
  (bounds f).1 ≤ v ≤ (bounds f).2 → validate f v = Ok v.
Proof. intros. by apply validate_ok_iff. Qed.

Lemma number_ok_iff f v r :
  number f v = Ok r ↔ r = Number v ∧ well_formed f (Number v).
Proof.
  unfold number. destruct (validate f v) as [x|] eqn:E; simpl.
  - apply validate_ok_iff in E as [-> ?]. naive_solver.
  - split; [done|]. intros [_ Hw]. by rewrite validate_ok in E.
Qed.

Lemma range_ok_iff f a b r :
  range f a b = Ok r ↔ r = Range a b ∧ well_formed f (Range a b).
Proof.
  unfold range. destruct (validate f a) as [x|] eqn:Ea; simpl.
  - apply validate_ok_iff in Ea as [-> ?].
    destruct (validate f b) as [y|] eqn:Eb; simpl.
    + apply validate_ok_iff in Eb as [-> ?].
      destruct (Z.gtb_spec a b); naive_solver lia.
    + split; [done|]. intros [_ Hw]. rewrite validate_ok in Eb; [done|simpl in Hw; lia].
  - split; [done|]. intros [_ Hw]. rewrite validate_ok in Ea; [done|simpl in Hw; lia].
Qed.

Lemma step_ok_iff f n r :
  step f n = Ok r ↔ r = Step n ∧ well_formed f (Step n).
Proof.
  unfold step, well_formed. destruct (bounds f) as [lo hi]; simpl.
  destruct (Z.eqb_spec n 0), (Z.gtb_spec n hi); naive_solver lia.
Qed.

(** The three validating constructors accept exactly the values that are
    well formed for their field (a number within the field's bounds, an
    ordered range within them, a nonzero step up to the upper bound) and
    return that value unchanged; anything else is an error. *)
Theorem constructors_validate (f : CrontabField) (a b : Z) (r : CrontabValue) :
  (number f a = Ok r ↔ r = Number a ∧ well_formed f (Number a)) ∧
  (range f a b = Ok r ↔ r = Range a b ∧ well_formed f (Range a b)) ∧
  (step f a = Ok r ↔ r = Step a ∧ well_formed f (Step a)).
Proof. eauto using number_ok_iff, range_ok_iff, step_ok_iff. Qed.

(** ** Schedules *)

Ltac invert_values :=
  repeat match goal with
  | H : context [match ?c with Ok _ => _ | Err _ => _ end] |- _ =>
      destruct c eqn:?; [|discriminate H]
  | H : number _ _ = Ok _ |- _ => apply number_ok_iff in H as [-> ?]
  | H : step _ _ = Ok _ |- _ => apply step_ok_iff in H as [-> ?]
  end; simplify_eq/=.

Lemma any_match_one v x off : any_match [v] x off = match_value v x off.
Proof. unfold any_match; simpl. by rewrite orb_false_r. Qed.

Lemma any_match_Any x off : any_match [Any] x off = true.
Proof. done. Qed.

Lemma match_step n x off :
  n ≠ 0 → match_value (Step n) x off = (x `mod` n =? off).
Proof. intros. simpl. by destruct (Z.eqb_spec n 0). Qed.

Ltac solve_schedule :=
  intros; invert_values; unfold should_run_at;
  cbn [minutes hours days months dows];
  rewrite ?any_match_Any, ?any_match_one, ?match_step by (simpl in *; tauto);
  rewrite ?andb_true_r; cbn [match_value andb];
  rewrite ?andb_true_iff, ?Z.eqb_eq; tauto.

(** Every typed schedule builder, when it accepts its arguments, runs at
    exactly the calendar minutes its name promises. *)
Theorem typed_schedules_run_exactly (t : CrontabTimer) (at_ : NaiveDateTime) (n wd mo d h m : Z) :
  should_run_at every_minute at_ = true ∧
  (every_n_minutes n = Ok t → should_run_at t at_ = true ↔ minute at_ `mod` n = 0) ∧
  (hourly_at m = Ok t → should_run_at t at_ = true ↔ minute at_ = m) ∧
  (daily_at h m = Ok t → should_run_at t at_ = true ↔ minute at_ = m ∧ hour at_ = h) ∧
  (weekly_on wd h m = Ok t → should_run_at t at_ = true ↔
     minute at_ = m ∧ hour at_ = h ∧ number_from_monday at_ = wd) ∧
  (monthly_on d h m = Ok t → should_run_at t at_ = true ↔
     minute at_ = m ∧ hour at_ = h ∧ day at_ = d) ∧
  (yearly_on mo d h m = Ok t → should_run_at t at_ = true ↔
     minute at_ = m ∧ hour at_ = h ∧ day at_ = d ∧ month at_ = mo).
Proof.
  split; [done|]. repeat split_and!;
    unfold every_n_minutes, hourly_at, daily_at, weekly_on, monthly_on, yearly_on;
    solve_schedule.
Qed.

(** A timer with no day-of-week restriction cannot depend on the weekday. *)
Lemma should_run_at_iff t at_ :
  should_run_at t at_ = true ↔
    any_match (minutes t) (minute at_) 0 = true ∧
    any_match (hours t) (hour at_) 0 = true ∧
    any_match (days t) (day at_) 1 = true ∧
    any_match (months t) (month at_) 1 = true ∧
    any_match (dows t) (number_from_monday at_) 1 = true.
Proof. unfold should_run_at. rewrite !andb_true_iff. tauto. Qed.

(** A day-of-month or month step of one, which the validating constructor
    accepts, matches no value at all: the offset of these fields is 1 and no
    remainder modulo 1 is 1, so a timer using it alone never runs. *)
Theorem unit_step_never_runs (t : CrontabTimer) (at_ : NaiveDateTime) :
  step Day 1 = Ok (Step 1) ∧ step Month 1 = Ok (Step 1) ∧
  (days t = [Step 1] ∨ months t = [Step 1] ∨ dows t = [Step 1] →
   should_run_at t at_ = false).
Proof.
  split_and!; [done..|]. intros Hs.
  apply not_true_iff_false. rewrite should_run_at_iff. intros (_ & _ & Hd & Hm & Hw).
  destruct Hs as [E|[E|E]]; rewrite E, any_match_one, match_step, Z.mod_1_r in *; done.
Qed.

(** ** Backfill window *)

Definition fill_ok (f : CrontabFill) : Prop :=
  0 ≤ fw f ∧ 0 ≤ fd f ∧ 0 ≤ fh f ∧ 0 ≤ fm f ∧ 0 ≤ fs f ∧
  fw f * WEEK + fd f * DAY + fh f * HOUR + fm f * MINUTE + fs f * SECOND ≤ U32_MAX.

(** Wrapping at each operator is wrapping once at the end. *)
Lemma to_secs_wrap f :
  to_secs f =
    wrap_u32 (fw f * WEEK + fd f * DAY + fh f * HOUR + fm f * MINUTE + fs f * SECOND).
Proof. unfold to_secs. by rewrite_strat (bottomup wrap_u32_add). Qed.

(** Whenever the exact length of the window fits in [u32], [to_secs]
    computes it; the comparison of two such windows compares their lengths. *)
Theorem to_secs_exact (f g : CrontabFill) :
  fill_ok f → fill_ok g →
  to_secs f =
    fw f * 604800 + fd f * 86400 + fh f * 3600 + fm f * 60 + fs f ∧
  (fill_cmp f g = Lt ↔ to_secs f < to_secs g).
Proof.
  intros Hf Hg. split; [|apply Z.compare_lt_iff]. rewrite to_secs_wrap.
  unfold fill_ok, WEEK, DAY, HOUR, MINUTE, SECOND in *.
  rewrite wrap_u32_id; unfold is_u32, U32_MAX in *; lia.
Qed.

Lemma to_secs_range f : is_u32 (to_secs f).
Proof. apply wrap_u32_range. Qed.
#[export] Hint Resolve to_secs_range : worker.

(** ** Witnesses *)

(** 07:30 on a Sunday, 28 February. *)
Definition sunday_0730 : NaiveDateTime := mkNaive 30 7 28 2 7.

Lemma typed_schedules_run_exactly_witness :
  should_run_at (mkTimer [Number 30] [Number 7] [Any] [Any] [Number 7]) sunday_0730 = true.
Proof.
  destruct (typed_schedules_run_exactly
    (mkTimer [Number 30] [Number 7] [Any] [Any] [Number 7]) sunday_0730 1 7 1 1 7 30)
    as (_ & _ & _ & _ & H & _).
  apply H; [reflexivity|]. split_and!; reflexivity.
Defined.

Lemma unit_step_never_runs_witness :
  should_run_at (mkTimer [Any] [Any] [Step 1] [Any] [Any]) sunday_0730 = false.
Proof. apply unit_step_never_runs. left. reflexivity. Defined.

Lemma to_secs_exact_witness : to_secs (mkFill 4 3 2 1 0) = 2685660.
Proof.
  rewrite (proj1 (to_secs_exact (mkFill 4 3 2 1 0) (fill_days 2)
    ltac:(vm_compute; repeat split; discriminate) ltac:(vm_compute; repeat split; discriminate))).
  reflexivity.
Defined.

End CrontabTypes.
