(* ===== verification/CrontabParser.v ===== *)
(** * The crontab parser (crates/graphile-worker-crontab-parser)

    The grammar of crontab files over the combinators of [Nom].  [from_qs] and
    [from_json5] stand for the query-string and JSON5 deserializers.  The
    theorems: printed files read back, whatever is parsed is within the bounds
    of its fields, and errors are located without panicking. *)

From S2P Require Import Prelude Text CrontabTypes Nom.
Open Scope Z_scope.

Module CrontabParser.
Import Text CrontabTypes Nom.

(** ** nom_crontab_timer.rs *)

Inductive CrontabPart := PMinute | PHours | PDays | PMonths | PDaysOfWeek.

Definition boundaries (p : CrontabPart) : Z * Z :=
  match p with
  | PMinute => (0, 59)
  | PHours => (0, 23)
  | PDays => (1, 31)
  | PMonths => (1, 12)
  | PDaysOfWeek => (0, 6)
  end.

(** nom_crontab_opts/query.rs *)
Record QueryOption := mkQuery {
  q_id : option str;
  q_fill : option str;
  q_max : option Z;
  q_queue : option str;
  q_priority : option Z;
  q_job_key : option str;
  q_job_key_mode : option JobKeyMode
}.

Section parser.
Context {K : Type} `{NomLaws K}.
Context {Value : Type} (from_qs : str → option QueryOption) (from_json5 : str → option Value).

Definition crontab_number (part : CrontabPart) : parser K Z :=
  let '(min, max) := boundaries part in verify u32 (λ v, (v >=? min) && (v <=? max)).

Definition crontab_range (part : CrontabPart) : parser K (Z * Z) :=
  verify (separated_pair (crontab_number part) (nom_char 45) (crontab_number part))
    (λ lr, lr.1 <? lr.2).

Definition crontab_wildcard (part : CrontabPart) : parser K (option Z) :=
  preceded (nom_char 42) (opt (preceded (nom_char 47) (crontab_number part))).

Definition crontab_value (part : CrontabPart) : parser K CrontabValue :=
  alt [pmap (crontab_range part) (λ lr, Range lr.1 lr.2);
       pmap (crontab_wildcard part) (λ d, match d with Some d => Step d | None => Any end);
       pmap (crontab_number part) Number].

Definition crontab_values (part : CrontabPart) : parser K (list CrontabValue) :=
  separated_list1 (nom_char 44) (crontab_value part).

Definition nom_crontab_timer : parser K CrontabTimer := λ input,
  let? (input, minutes) := terminated (crontab_values PMinute) (nom_char 32) input in
  let? (input, hours) := terminated (crontab_values PHours) (nom_char 32) input in
  let? (input, days) := terminated (crontab_values PDays) (nom_char 32) input in
  let? (input, months) := terminated (crontab_values PMonths) (nom_char 32) input in
  let? (input, dows) := crontab_values PDaysOfWeek input in
  Ok (input, mkTimer minutes hours days months dows).

(** ** nom_task_identifier.rs *)

Definition identifier_start (c : char) : bool := is_ascii_alphabetic c || (c =? 95).
Definition identifier_char (c : char) : bool :=
  is_ascii_alphanumeric c || (c =? 58) || (c =? 95) || (c =? 45) || (c =? 47).

Definition nom_task_identifier : parser K str := λ input,
  let? (input, first_char) := satisfy identifier_start input in
  let? (input, rest) := many0 (satisfy identifier_char) input in
  Ok (input, first_char :: rest).

(** ** nom_crontab_payload.rs *)

Definition not_newline (c : char) : bool := negb (c =? 10) && negb (c =? 13).

Definition nom_crontab_payload : parser K Value := λ input,
  let? (input, json) := take_while1 not_newline input in
  match from_json5 json with
  | Some v => Ok (input, v)
  | None => Err (Error input k_fail)
  end.

(** ** nom_crontab_opts *)

Definition crontab_query : parser K QueryOption := λ input,
  let? (input, qs) := preceded (nom_char 63) (take_while1 (λ c, negb (is_whitespace c))) input in
  match from_qs qs with
  | Some q => Ok (input, q)
  | None => Err (Error input k_fail)
  end.

(** [opt(terminated(u32, char(c)))]. *)
Definition fill_part (c : char) : parser K (option Z) := opt (terminated u32 (nom_char c)).

Definition crontab_fill : parser K CrontabFill := λ input,
  let? (input, (w, (d, (h, (m, s))))) :=
    pair_ (fill_part 119) (pair_ (fill_part 100) (pair_ (fill_part 104)
      (pair_ (fill_part 109) (fill_part 115)))) input in
  let? (_, _) := eof input in
  Ok (input, mkFill (default 0 w) (default 0 d) (default 0 h) (default 0 m) (default 0 s)).

Definition nom_crontab_opts : parser K CrontabOptions := λ input,
  let? (input, q) := crontab_query input in
  let? fill := match q_fill q with
               | Some v => let? (_, f) := crontab_fill v in Ok (Some f)
               | None => Ok None
               end in
  Ok (input, mkOptions (q_id q) fill (q_max q) (q_queue q) (q_priority q) (q_job_key q) (q_job_key_mode q)).

(** ** nom_crontab.rs *)

Definition crontab_line : parser K (option (Crontab Value)) := λ input,
  let? (input, timer) := preceded space0 nom_crontab_timer input in
  let? (input, identifier) := preceded space1 nom_task_identifier input in
  let? (input, options) := opt (preceded space1 nom_crontab_opts) input in
  let? (input, payload) := opt (preceded space1 nom_crontab_payload) input in
  Ok (input, Some (mkCrontab timer identifier (default default_options options) payload)).

Definition crontab_comment : parser K (option (Crontab Value)) := λ input,
  let? (input, _) := preceded (preceded space0 (nom_char 35)) (take_while not_newline) input in
  Ok (input, None).

(** One line with its ending; nothing of it is left to a later alternative. *)
Definition crontab_entry : parser K (option (Crontab Value)) :=
  preceded (pnot eof)
    (cut (terminated (alt [crontab_comment; crontab_line; value None space0])
            (preceded space0 (alt [line_ending; eof])))).

Definition nom_crontab : parser K (list (Crontab Value)) := λ input,
  let? (input, crontabs) := many0 crontab_entry input in
  Ok (input, filter_map (λ c, c) crontabs).

(** ** lib.rs *)

(** The [Debug] text of a [nom::Err] and the [Display] text of its error. *)
Context (debug : Err_ K → str) (display : str → K → str).

Record CrontabParseError := mkParseError { msg : str; err_input : str; error_kind : K }.

(** The text after the last newline. *)
Definition last_line (s : str) : str := rev (span (λ c, negb (c =? 10)) (rev s)).1.

(** [Finish::finish]: both kinds of error, a panic on [Incomplete]. *)
Definition parse_crontab (crontab : str) : option (result (list (Crontab Value)) CrontabParseError) :=
  match nom_crontab crontab with
  | Ok (_, r) => Some (Ok r)
  | Err Incomplete => None
  | Err (Error input code | Failure input code) =>
      prefix ← str_prefix crontab (byte_len crontab - byte_len input);
      let line := Z.of_nat (count_if (λ b, b =? 10) (bytes prefix)) + 1 in
      let column := Z.of_nat (length (last_line prefix)) + 1 in
      Some (Err (mkParseError
        (lit "line " ++ dec line ++ lit ", column " ++ dec column ++ lit ": " ++ debug (Error input code))
        (display input code) code))
  end.
End parser.


(** ** Where parsing stops and fails *)

Section soundness.
Context {K : Type} `{NomLaws K}.
Context {Value : Type} (from_qs : str → option QueryOption) (from_json5 : str → option Value).

Lemma sound_number part : sound (crontab_number part).
Proof. unfold crontab_number. destruct (boundaries part). auto with nom. Qed.

Lemma sound_crontab_value part : sound (crontab_value part).
Proof.
  unfold crontab_value, crontab_range, crontab_wildcard. pose proof (sound_number part). auto 12 with nom.
Qed.

Lemma sound_values part : sound (crontab_values part).
Proof. unfold crontab_values. pose proof (sound_crontab_value part). auto with nom. Qed.

Lemma sound_timer : sound nom_crontab_timer.
Proof.
  unfold nom_crontab_timer.
  repeat (eapply sound_bind; [auto using sound_terminated, sound_values with nom|intros ?]). apply sound_ret.
Qed.

Lemma sound_identifier : sound nom_task_identifier.
Proof.
  unfold nom_task_identifier. repeat (eapply sound_bind; [auto with nom|intros ?]). apply sound_ret.
Qed.

Lemma leaves_payload : leaves_suffix (nom_crontab_payload from_json5).
Proof.
  intros i r v. unfold nom_crontab_payload. pose proof (sound_take_while1 not_newline i) as Hs.
  destruct (take_while1 not_newline i) as [[r' s]|]; [|done]. destruct (from_json5 s); [|done]. by intros [= <- _].
Qed.

Lemma recoverable_payload : recoverable (nom_crontab_payload from_json5).
Proof.
  intros i e. unfold nom_crontab_payload. rewrite take_while1_eq. destruct (span _ i) as [s r].
  destruct (is_empty s); [intros [= <-]; by eexists _, _|]. destruct (from_json5 s); [done|].
  intros [= <-]. by eexists _, _.
Qed.

Lemma recoverable_fill_part c i : ∃ r v, fill_part c i = Ok (r, v).
Proof.
  unfold fill_part. rewrite opt_eq, terminated_eq, u32_eq. destruct (span _ i) as [ds r].
  destruct (_ || _); [by eexists _, _|]. rewrite nom_char_eq.
  destruct r as [|x r]; [by eexists _, _|]. destruct (x =? c); by eexists _, _.
Qed.

Lemma recoverable_fill : recoverable crontab_fill.
Proof.
  intros i e. unfold crontab_fill. rewrite !pair_eq.
  destruct (recoverable_fill_part 119 i) as (i1 & w & ->). rewrite pair_eq.
  destruct (recoverable_fill_part 100 i1) as (i2 & d & ->). rewrite pair_eq.
  destruct (recoverable_fill_part 104 i2) as (i3 & h & ->). rewrite pair_eq.
  destruct (recoverable_fill_part 109 i3) as (i4 & m & ->).
  destruct (recoverable_fill_part 115 i4) as (i5 & s & ->). rewrite eof_eq.
  destruct i5; [done|]. intros [= <-]. by eexists _, _.
Qed.

Lemma query_cases i :
  (∃ r q, crontab_query from_qs i = Ok (r, q) ∧ r `suffix_of` i) ∨
  (∃ j k, crontab_query from_qs i = Err (Error j k)).
Proof.
  unfold crontab_query. rewrite preceded_eq, nom_char_eq.
  destruct i as [|x i]; [right; by eexists _, _|]. destruct (x =? 63); [|right; by eexists _, _].
  rewrite take_while1_eq. pose proof (span_suffix (λ c, negb (is_whitespace c)) i) as Hs.
  destruct (span _ i) as [s r]. destruct (is_empty s); [right; by eexists _, _|].
  destruct (from_qs s) as [q|]; [left|right]; eexists _, _; [|done]. split; [done|]. by apply suffix_cons_r.
Qed.

Lemma leaves_opts : leaves_suffix (nom_crontab_opts from_qs).
Proof.
  intros i r o. unfold nom_crontab_opts. destruct (query_cases i) as [(r' & q & -> & Hs)|(j & k & ->)]; [|done].
  repeat case_match; try done; by intros [= <- _].
Qed.

Lemma recoverable_opts : recoverable (nom_crontab_opts from_qs).
Proof.
  intros i e. unfold nom_crontab_opts. destruct (query_cases i) as [(r' & q & -> & Hs)|(j & k & ->)].
  - destruct (q_fill q) as [v|]; [|done]. destruct (crontab_fill v) as [[? ?]|e'] eqn:E; [done|].
    intros [= <-]. by eapply recoverable_fill.
  - intros [= <-]. by eexists _, _.
Qed.

Lemma recoverable_after_space {T} (p : parser K T) : recoverable p → recoverable (preceded space1 p).
Proof.
  intros Hp i e. rewrite preceded_eq, space1_eq. destruct (span is_space i) as [s r].
  destruct (is_empty s); [intros [= <-]; by eexists _, _|]. apply Hp.
Qed.

Lemma leaves_after_space {T} (p : parser K T) : leaves_suffix p → leaves_suffix (preceded space1 p).
Proof.
  intros Hp i r x. rewrite preceded_eq. pose proof (sound_space1 i) as Hs.
  destruct (space1 i) as [[r' s]|]; [|done]. intros E. etrans; [by eapply Hp|done].
Qed.

Lemma sound_line : sound (crontab_line from_qs from_json5).
Proof.
  unfold crontab_line.
  repeat (eapply sound_bind;
    [first [by auto using sound_timer, sound_identifier with nom
           |apply sound_opt_recoverable; auto using leaves_after_space, recoverable_after_space, leaves_opts,
              recoverable_opts, leaves_payload, recoverable_payload]|intros ?]).
  apply sound_ret.
Qed.

Lemma sound_comment : sound (crontab_comment (Value := Value)).
Proof. unfold crontab_comment. eapply sound_bind; [auto with nom|intros ?]. apply sound_ret. Qed.

Lemma sound_entry : sound (crontab_entry from_qs from_json5).
Proof.
  unfold crontab_entry. pose proof sound_line. pose proof sound_comment. auto 12 with nom.
Qed.

Lemma sound_crontab : sound (nom_crontab from_qs from_json5).
Proof.
  unfold nom_crontab. eapply sound_bind; [apply sound_many0, sound_entry|intros ?]. apply sound_ret.
Qed.
End soundness.

(** ** Locating an error *)

(** Newline bytes are newline characters. *)
Lemma count_newlines s : count_if (λ b, b =? 10) (bytes s) = count_if (λ c, c =? 10) s.
Proof.
  induction s as [|c s IH]; [done|]. unfold bytes. cbn [mbind list_bind]. fold (bytes s).
  rewrite count_if_app, count_if_cons. f_equal; [|done]. destruct (Z.ltb_spec c 128).
  - rewrite utf8_char_ascii by done. rewrite count_if_cons. unfold count_if. cbn. lia.
  - destruct (Z.eqb_spec c 10); [lia|]. assert (∀ b, b ∈ utf8_char c → 128 ≤ b) as Hb by (intros; by eapply utf8_char_high).
    revert Hb. generalize (utf8_char c) as l. induction l as [|b l IHl]; intros Hb; [done|].
    rewrite count_if_cons, IHl by set_solver. specialize (Hb b ltac:(set_solver)). by destruct (Z.eqb_spec b 10); [lia|].
Qed.

(** C37: Parsing any text ends without panicking, with the entries or with an
    error that is located: the text splits at the error, the reported line is
    one more than the newlines before it and the reported column one more than
    the characters between it and the last of them. *)
Theorem parse_errors_are_located {K} `{NomLaws K} {Value} from_qs (from_json5 : str → option Value)
    debug display crontab :
  ∃ r, parse_crontab from_qs from_json5 debug display crontab = Some r ∧
    ∀ e, r = Err e → ∃ before at_ line column,
      crontab = before ++ at_ ∧
      line = Z.of_nat (count_if (λ c, c =? 10) before) + 1 ∧
      column = Z.of_nat (length (last_line before)) + 1 ∧
      err_input e = display at_ (error_kind e) ∧
      msg e = lit "line " ++ dec line ++ lit ", column " ++ dec column ++ lit ": " ++ debug (Error at_ (error_kind e)).
Proof.
  unfold parse_crontab. pose proof (sound_crontab from_qs from_json5 crontab) as Hs.
  destruct (nom_crontab from_qs from_json5 crontab) as [[r l]|[j k|j k|]]; [by eexists|..|done].
  all: destruct Hs as [before ->];
    replace (byte_len (before ++ j) - byte_len j) with (byte_len before) by (rewrite byte_len_app; lia);
    rewrite str_prefix_app; cbn [mbind option_bind]; rewrite count_newlines; eexists; (split; [done|]); intros e [= <-];
    by eexists before, j, _, _.
Qed.

(** ** What is parsed is valid *)

Definition valid_value (part : CrontabPart) (v : CrontabValue) : Prop :=
  let '(lo, hi) := boundaries part in
  match v with
  | Number n => lo ≤ n ≤ hi
  | Range a b => lo ≤ a ∧ a < b ∧ b ≤ hi
  | Step n => lo ≤ n ≤ hi
  | Any => True
  end.

Definition valid_values (part : CrontabPart) (vs : list CrontabValue) : Prop :=
  vs ≠ [] ∧ Forall (valid_value part) vs.

Definition valid_timer (t : CrontabTimer) : Prop :=
  valid_values PMinute (minutes t) ∧ valid_values PHours (hours t) ∧ valid_values PDays (days t) ∧
  valid_values PMonths (months t) ∧ valid_values PDaysOfWeek (dows t).

Definition valid_identifier (s : str) : Prop :=
  match s with
  | [] => False
  | c :: s => identifier_start c = true ∧ Forall (λ c, identifier_char c = true) s
  end.

Section validity.
Context {K : Type} `{NomLaws K}.
Context {Value : Type} (from_qs : str → option QueryOption) (from_json5 : str → option Value).

(** What every result of a parser satisfies. *)
Definition yields {T} (p : parser K T) (P : T → Prop) : Prop := ∀ i r x, p i = Ok (r, x) → P x.

Lemma yields_many0 {T} (p : parser K T) P : sound p → yields p P → yields (many0 p) (Forall P).
Proof.
  intros Hs Hp i. remember (length i) as n eqn:Hn. revert i Hn.
  induction n as [n IH] using (well_founded_induction lt_wf). intros i -> r xs.
  rewrite many0_eq by auto with nom. destruct (p i) as [[r1 x]|[]] eqn:E; try done; [|by intros [= _ <-]].
  destruct (Nat.eqb_spec (length r1) (length i)); [done|]. pose proof (sound_shrinking p Hs _ _ _ E).
  destruct (many0 p r1) as [[r2 ys]|] eqn:E2; [|done]. intros [= _ <-].
  constructor; [by eapply Hp|]. by eapply (IH (length r1)); [lia| |].
Qed.

Lemma yields_separated {S T} (s : parser K S) (p : parser K T) P :
  consuming s → sound p → yields p P → yields (separated_list1 s p) (λ xs, xs ≠ [] ∧ Forall P xs).
Proof.
  intros Hc Hs Hp i. remember (length i) as n eqn:Hn. revert i Hn.
  induction n as [n IH] using (well_founded_induction lt_wf). intros i -> r xs.
  rewrite separated_list1_eq by auto with nom. destruct (p i) as [[r1 x]|] eqn:E; [|done].
  pose proof (Hp _ _ _ E) as Hx. pose proof (sound_shrinking p Hs _ _ _ E).
  assert (Forall P [x]) as Hone by auto.
  destruct (s r1) as [[r2 y]|[]] eqn:E2; try done; [|by intros [= _ <-]].
  pose proof (Hc _ _ _ E2). destruct (p r2) as [[r3 z]|[]]; try done; [|by intros [= _ <-]].
  destruct (separated_list1 s p r2) as [[r4 ys]|] eqn:E4; [|done]. intros [= _ <-].
  split; [done|]. constructor; [done|]. by eapply (IH (length r2)); [lia| |].
Qed.

Lemma yields_number part :
  yields (crontab_number part) (λ n, (boundaries part).1 ≤ n ≤ (boundaries part).2).
Proof.
  intros i r n. unfold crontab_number. destruct (boundaries part) as [lo hi]. rewrite verify_eq.
  destruct (u32 i) as [[r' x]|]; [|done]. destruct (_ && _) eqn:E; [|done]. intros [= _ <-].
  apply andb_true_iff in E as [E1 E2]. cbn. lia.
Qed.

Lemma yields_value part : yields (crontab_value part) (valid_value part).
Proof.
  intros i r v. unfold crontab_value, valid_value. destruct (boundaries part) as [lo hi] eqn:Eb.
  pose proof (yields_number part) as Hn. rewrite Eb in Hn. cbn in Hn.
  rewrite alt_cons, pmap_eq. unfold crontab_range. rewrite verify_eq, separated_pair_eq.
  assert (∀ i r v, alt [pmap (crontab_wildcard part) (λ d, match d with Some d => Step d | None => Any end);
                  pmap (crontab_number part) Number] i = Ok (r, v) →
    match v with Number n => lo ≤ n ≤ hi | Range a b => lo ≤ a ∧ a < b ∧ b ≤ hi | Step n => lo ≤ n ≤ hi | Any => True end)
    as Hrest.
  { clear i r v. intros i r v. rewrite alt_cons, alt_one, !pmap_eq. unfold crontab_wildcard.
    rewrite preceded_eq. destruct (nom_char 42 i) as [[r1 c]|[]]; try done.
    - rewrite opt_eq, preceded_eq. destruct (nom_char 47 r1) as [[r2 d]|[]]; try done; [|by intros [= _ <-]].
      destruct (crontab_number part r2) as [[r3 n]|[]] eqn:E; try done; [|by intros [= _ <-]].
      intros [= _ <-]. by eapply Hn.
    - destruct (crontab_number part i) as [[r3 n]|] eqn:E; [|done]. intros [= _ <-]. by eapply Hn. }
  destruct (crontab_number part i) as [[r1 a]|[]] eqn:Ea; try done; [|by apply Hrest].
  destruct (nom_char 45 r1) as [[r2 c]|[]]; try done; [|by apply Hrest].
  destruct (crontab_number part r2) as [[r3 b]|[]] eqn:Ebb; try done; [|by apply Hrest].
  cbn. destruct (Z.ltb_spec a b); [|by apply Hrest]. intros [= _ <-].
  apply Hn in Ea, Ebb. lia.
Qed.

Lemma yields_values part : yields (crontab_values part) (valid_values part).
Proof.
  apply yields_separated; auto using sound_crontab_value, yields_value with nom.
Qed.

Lemma yields_terminated {A B} (p : parser K A) (q : parser K B) P : yields p P → yields (terminated p q) P.
Proof.
  intros Hp i r x. rewrite terminated_eq. destruct (p i) as [[r1 y]|] eqn:E; [|done].
  destruct (q r1) as [[]|]; [|done]. intros [= _ <-]. by eapply Hp.
Qed.

Lemma yields_preceded {A B} (p : parser K A) (q : parser K B) P : yields q P → yields (preceded p q) P.
Proof. intros Hq i r x. rewrite preceded_eq. destruct (p i) as [[r1 y]|]; [|done]. apply Hq. Qed.

Lemma yields_bind {A B} (p : parser K A) (f : A → parser K B) P Q :
  yields p P → (∀ x, P x → yields (f x) Q) →
  yields (λ i, match p i with Ok (r, x) => f x r | Err e => Err e end) Q.
Proof.
  intros Hp Hf i r y. destruct (p i) as [[r1 x]|] eqn:E; [|done]. apply Hf. by eapply Hp.
Qed.

Lemma yields_timer : yields nom_crontab_timer valid_timer.
Proof.
  unfold nom_crontab_timer.
  do 5 (eapply yields_bind; [first [apply yields_terminated|idtac]; apply yields_values|intros ? ?]).
  intros i r t [= _ <-]. by split_and!.
Qed.

Lemma yields_identifier : yields nom_task_identifier valid_identifier.
Proof.
  unfold nom_task_identifier.
  assert (∀ f, yields (satisfy f) (λ c, f c = true)) as Hsat.
  { intros f i r c. rewrite satisfy_eq. destruct i as [|x i]; [done|]. destruct (f x) eqn:E; [|done]. by intros [= _ <-]. }
  eapply yields_bind; [apply Hsat|intros c Hc]. eapply yields_bind; [apply yields_many0; auto with nom; apply Hsat|].
  intros s Hs i r x [= _ <-]. by split.
Qed.

Definition valid_line (c : option (Crontab Value)) : Prop :=
  ∀ x, c = Some x → valid_timer (timer x) ∧ valid_identifier (task_identifier x).

Lemma yields_line : yields (crontab_line from_qs from_json5) valid_line.
Proof.
  unfold crontab_line. eapply yields_bind; [apply yields_preceded, yields_timer|intros t Ht].
  eapply yields_bind; [apply yields_preceded, yields_identifier|intros s Hs].
  do 2 (eapply (yields_bind _ _ (λ _, True)); [done|intros ? _]).
  intros i r z [= _ <-] y [= <-]. done.
Qed.

(** C38: Whatever the parser accepts is valid: all five fields are non-empty,
    every value lies within the bounds of its field and every range is
    increasing, and the identifier has the documented form. *)
Theorem parsed_entries_are_valid debug display crontab entries :
  parse_crontab from_qs from_json5 debug display crontab = Some (Ok entries) →
  Forall (λ c, valid_timer (timer c) ∧ valid_identifier (task_identifier c)) entries.
Proof.
  unfold parse_crontab. destruct (nom_crontab from_qs from_json5 crontab) as [[r l]|[]] eqn:E; try done.
  2,3: by destruct (str_prefix _ _). intros [= <-]. revert E. unfold nom_crontab.
  destruct (many0 _ crontab) as [[r' cs]|] eqn:E; [|done]. intros [= _ <-].
  assert (Forall valid_line cs) as Hcs.
  { refine (yields_many0 _ valid_line _ _ _ _ _ E); [apply sound_entry|]. unfold crontab_entry. apply yields_preceded.
    intros i r2 c. rewrite cut_eq. destruct (terminated _ _ i) as [[r3 c3]|[]] eqn:E3; try done.
    intros [= _ <-]. refine (yields_terminated _ _ valid_line _ _ _ _ E3). clear -H0. intros i r c. rewrite !alt_cons, alt_one.
    assert (∀ i r c, crontab_comment (Value := Value) i = Ok (r, c) → c = None) as Hcom.
    { clear -H0. intros i r c. unfold crontab_comment. destruct (preceded _ _ i) as [[]|]; [|done]. by intros [= _ <-]. }
    destruct (crontab_comment i) as [[r1 c1]|[]] eqn:E1; try done.
    - intros [= _ <-] y. by rewrite (Hcom _ _ _ E1).
    - destruct (crontab_line from_qs from_json5 i) as [[r2 c2]|[]] eqn:E2; try done.
      + intros [= _ <-]. by eapply yields_line.
      + rewrite value_eq. destruct (space0 i) as [[]|]; [|done]. by intros [= _ <-]. }
  apply Forall_forall. intros x (c & Hc & ->)%elem_of_filter_map. rewrite Forall_forall in Hcs. by apply (Hcs (Some x)).
Qed.
End validity.

(** ** Printing *)

#[local] Arguments dec n : simpl never.

Definition print_value (v : CrontabValue) : str :=
  match v with
  | Number n => dec n
  | Range a b => dec a ++ [45] ++ dec b
  | Step n => [42; 47] ++ dec n
  | Any => [42]
  end.

Fixpoint print_values (vs : list CrontabValue) : str :=
  match vs with
  | [] => []
  | [v] => print_value v
  | v :: vs => print_value v ++ [44] ++ print_values vs
  end.

Definition print_timer (t : CrontabTimer) : str :=
  print_values (minutes t) ++ [32] ++ print_values (hours t) ++ [32] ++ print_values (days t) ++ [32]
  ++ print_values (months t) ++ [32] ++ print_values (dows t).

Definition print_fill (f : CrontabFill) : str :=
  dec (fw f) ++ [119] ++ dec (fd f) ++ [100] ++ dec (fh f) ++ [104] ++ dec (fm f) ++ [109] ++ dec (fs f) ++ [115].

(** The text goes on with nothing [f] holds of. *)
Definition stops (f : char → bool) (rest : str) : Prop := ∀ c r, rest = c :: r → f c = false.

Lemma stops_nil f : stops f [].
Proof. done. Qed.
Lemma stops_cons f c r : f c = false → stops f (c :: r).
Proof. by intros ? c' r' [= <- <-]. Qed.
Lemma stops_weaken (f g : char → bool) rest : (∀ c, g c = true → f c = true) → stops f rest → stops g rest.
Proof.
  intros Hfg Hf c r ->. specialize (Hf c r eq_refl). apply not_true_iff_false. intros Hg%Hfg. congruence.
Qed.

Section roundtrip.
Context {K : Type} `{NomLaws K}.
Context {Value : Type} (from_qs : str → option QueryOption) (from_json5 : str → option Value).

Lemma u32_dec n rest : is_u32 n → stops is_ascii_digit rest → u32 (dec n ++ rest) = Ok (rest, n).
Proof.
  intros Hn Hr. destruct (dec_spec n Hn) as (Hd & Hv & Hne). rewrite u32_eq.
  rewrite (span_prefix is_ascii_digit (dec n) rest Hd Hr), Hv.
  destruct (dec n) eqn:E; [done|]. cbn [is_empty orb]. unfold is_u32 in Hn. by destruct (Z.ltb_spec U32_MAX n); [lia|].
Qed.

Lemma u32_stops rest : stops is_ascii_digit rest → u32 rest = Err (Error rest k_digit).
Proof. intros Hr. rewrite u32_eq. pose proof (span_prefix is_ascii_digit [] rest) as E. cbn [app] in E. by rewrite E. Qed.

Lemma nom_char_hit c rest : nom_char c (c :: rest) = Ok (rest, c).
Proof. rewrite nom_char_eq. by rewrite Z.eqb_refl. Qed.

Lemma nom_char_miss c rest : stops (λ x, x =? c) rest → nom_char c rest = Err (Error rest k_char).
Proof. intros Hs. rewrite nom_char_eq. destruct rest as [|x r]; [done|]. by rewrite (Hs x r). Qed.

Lemma boundaries_u32 part n : (boundaries part).1 ≤ n ≤ (boundaries part).2 → is_u32 n.
Proof. unfold is_u32, U32_MAX. destruct part; cbn; lia. Qed.

Lemma number_print part n rest :
  (boundaries part).1 ≤ n ≤ (boundaries part).2 → stops is_ascii_digit rest →
  crontab_number part (dec n ++ rest) = Ok (rest, n).
Proof.
  intros Hn Hr. pose proof (boundaries_u32 part n Hn). unfold crontab_number. destruct (boundaries part) as [lo hi].
  rewrite verify_eq, u32_dec by done. cbn in Hn. by rewrite (proj2 (Z.geb_le _ _)), (proj2 (Z.leb_le _ _)) by lia.
Qed.

Lemma number_stops part rest :
  stops is_ascii_digit rest → crontab_number part rest = Err (Error rest k_digit).
Proof.
  intros Hr. unfold crontab_number. destruct (boundaries part). by rewrite verify_eq, u32_stops.
Qed.

(** What may follow a value. *)
Definition after_value (c : char) : bool := is_ascii_digit c || (c =? 45) || (c =? 47).

Lemma after_value_digit rest : stops after_value rest → stops is_ascii_digit rest.
Proof. apply stops_weaken. unfold after_value. intros c ->. done. Qed.

Lemma value_print part v rest :
  valid_value part v → stops after_value rest → crontab_value part (print_value v ++ rest) = Ok (rest, v).
Proof.
  intros Hv Hr. pose proof (after_value_digit rest Hr) as Hd.
  assert (stops (λ x, x =? 45) rest) as H45.
  { revert Hr. apply stops_weaken. unfold after_value. intros c ->. by rewrite orb_true_r. }
  assert (stops (λ x, x =? 47) rest) as H47.
  { revert Hr. apply stops_weaken. unfold after_value. intros c ->. by rewrite orb_true_r. }
  assert (∀ r, crontab_number part (42 :: r) = Err (Error (42 :: r) k_digit)) as Hstar
    by (intros r; apply number_stops, stops_cons; done).
  unfold valid_value in Hv. destruct (boundaries part) as [lo hi] eqn:Eb.
  assert (∀ n rest, lo ≤ n ≤ hi → stops is_ascii_digit rest → crontab_number part (dec n ++ rest) = Ok (rest, n)) as Hnum
    by (intros; apply number_print; [by rewrite Eb|done]).
  unfold crontab_value, crontab_range. rewrite alt_cons, pmap_eq, verify_eq, separated_pair_eq.
  destruct v as [n|a b|n|]; cbn [print_value].
  - rewrite (Hnum n rest) by done. rewrite (nom_char_miss 45 rest) by done.
    rewrite alt_cons, alt_one, !pmap_eq. unfold crontab_wildcard. rewrite preceded_eq, nom_char_miss.
    + by rewrite (Hnum n rest).
    + destruct (dec_spec n) as (Hdig & _ & Hne); [apply (boundaries_u32 part); by rewrite Eb|].
      intros c r E. destruct (dec n) as [|x l]; [done|]. injection E as <- _.
      apply Forall_cons in Hdig as [Hx _]. apply bool_decide_eq_true in Hx. by apply Z.eqb_neq; lia.
  - destruct Hv as (Hlo & Hlt & Hhi). rewrite <- !app_assoc. rewrite (Hnum a) by (try lia; by apply stops_cons).
    cbn [app]. rewrite nom_char_hit. rewrite (Hnum b rest) by (try lia; done). cbn. by rewrite (proj2 (Z.ltb_lt _ _)).
  - cbn [app]. rewrite Hstar. rewrite alt_cons, pmap_eq. unfold crontab_wildcard.
    rewrite preceded_eq, nom_char_hit, opt_eq, preceded_eq, nom_char_hit. by rewrite (Hnum n rest).
  - cbn [app]. rewrite Hstar. rewrite alt_cons, pmap_eq. unfold crontab_wildcard.
    by rewrite preceded_eq, nom_char_hit, opt_eq, preceded_eq, nom_char_miss.
Qed.

Definition after_values (c : char) : bool := after_value c || (c =? 44).

Lemma values_print part vs rest :
  valid_values part vs → stops after_values rest → crontab_values part (print_values vs ++ rest) = Ok (rest, vs).
Proof.
  intros [Hne Hv] Hr. assert (stops after_value rest) as Ha.
  { revert Hr. apply stops_weaken. unfold after_values. by intros c ->. }
  assert (stops (λ x, x =? 44) rest) as H44.
  { revert Hr. apply stops_weaken. unfold after_values. intros c ->. by rewrite orb_true_r. }
  unfold crontab_values. induction Hv as [|v vs Hv Hvs IH]; [done|].
  rewrite separated_list1_eq by auto using sound_crontab_value with nom.
  destruct vs as [|v' vs]; [change (print_values [v]) with (print_value v)
                           |change (print_values (v :: v' :: vs)) with (print_value v ++ [44] ++ print_values (v' :: vs))].
  - rewrite value_print by done. by rewrite nom_char_miss.
  - rewrite <- !app_assoc. rewrite value_print by (try done; by apply stops_cons). cbn [app]. rewrite nom_char_hit.
    specialize (IH ltac:(done)). rewrite IH.
    destruct (crontab_value part (print_values (v' :: vs) ++ rest)) as [?|e] eqn:E; [done|].
    rewrite separated_list1_eq, E in IH by auto using sound_crontab_value with nom. done.
Qed.

Lemma timer_print t rest :
  valid_timer t → stops after_values rest → nom_crontab_timer (print_timer t ++ rest) = Ok (rest, t).
Proof.
  intros (H1 & H2 & H3 & H4 & H5) Hr. unfold nom_crontab_timer, print_timer. rewrite <- !app_assoc.
  rewrite terminated_eq, values_print by (try done; by apply stops_cons). cbn [app]. rewrite nom_char_hit.
  rewrite terminated_eq, values_print by (try done; by apply stops_cons). cbn [app]. rewrite nom_char_hit.
  rewrite terminated_eq, values_print by (try done; by apply stops_cons). cbn [app]. rewrite nom_char_hit.
  rewrite terminated_eq, values_print by (try done; by apply stops_cons). cbn [app]. rewrite nom_char_hit.
  rewrite values_print by done. by destruct t.
Qed.

Lemma take_while1_print f s rest :
  s ≠ [] → Forall (λ c, f c = true) s → stops f rest → take_while1 f (s ++ rest) = Ok (rest, s).
Proof. intros Hne Hs Hr. rewrite take_while1_eq, (span_prefix f s rest Hs Hr). by destruct s. Qed.

Lemma space0_print s rest :
  Forall (λ c, is_space c = true) s → stops is_space rest → space0 (s ++ rest) = Ok (rest, s).
Proof. intros Hs Hr. by rewrite space0_eq, (span_prefix is_space s rest Hs Hr). Qed.

Lemma space1_print rest : stops is_space rest → space1 (32 :: rest) = Ok (rest, [32]).
Proof. intros Hr. rewrite space1_eq. pose proof (span_prefix is_space [32] rest) as E. cbn [app] in E. rewrite E; auto. Qed.

Lemma space1_stops rest : stops is_space rest → space1 rest = Err (Error rest k_space).
Proof. intros Hr. rewrite space1_eq. pose proof (span_prefix is_space [] rest) as E. cbn [app] in E. by rewrite E. Qed.

Lemma many0_satisfy_print f s rest :
  Forall (λ c, f c = true) s → stops f rest → many0 (satisfy f) (s ++ rest) = Ok (rest, s).
Proof.
  intros Hs Hr. induction Hs as [|c s Hc Hs IH]; cbn [app];
    rewrite many0_eq, satisfy_eq by auto with nom.
  - destruct rest as [|x r]; [done|]. by rewrite (Hr x r).
  - rewrite Hc, IH. destruct (Nat.eqb_spec (length (s ++ rest)) (length (c :: s ++ rest))); [cbn in *; lia|done].
Qed.

Lemma identifier_print s rest :
  valid_identifier s → stops identifier_char rest → nom_task_identifier (s ++ rest) = Ok (rest, s).
Proof.
  destruct s as [|c s]; [done|]. intros [Hc Hs] Hr. unfold nom_task_identifier. cbn [app].
  rewrite satisfy_eq, Hc. by rewrite many0_satisfy_print.
Qed.

Definition valid_fill (f : CrontabFill) : Prop :=
  is_u32 (fw f) ∧ is_u32 (fd f) ∧ is_u32 (fh f) ∧ is_u32 (fm f) ∧ is_u32 (fs f).

Lemma fill_part_print c n rest :
  is_u32 n → is_ascii_digit c = false → fill_part c (dec n ++ c :: rest) = Ok (rest, Some n).
Proof.
  intros Hn Hc. unfold fill_part. rewrite opt_eq, terminated_eq, u32_dec by (try done; by apply stops_cons).
  by rewrite nom_char_hit.
Qed.

Lemma fill_print f : valid_fill f → crontab_fill (print_fill f) = Ok ([], f).
Proof.
  intros (H1 & H2 & H3 & H4 & H5). unfold crontab_fill, print_fill. cbn [app].
  do 4 (rewrite pair_eq, fill_part_print by done). rewrite fill_part_print by done.
  rewrite eof_eq. by destruct f.
Qed.

(** The query parameters that stand for given options. *)
Definition query_of (o : CrontabOptions) : QueryOption :=
  mkQuery (opt_id o) (print_fill <$> opt_fill o) (opt_max o) (opt_queue o) (opt_priority o)
    (opt_job_key o) (opt_job_key_mode o).

(** [qs] is a query string for the options [o]. *)
Definition writes_options (qs : str) (o : CrontabOptions) : Prop :=
  qs ≠ [] ∧ Forall (λ c, negb (is_whitespace c) = true) qs ∧ from_qs qs = Some (query_of o) ∧
  (∀ f, opt_fill o = Some f → valid_fill f).

Lemma opts_print qs o rest :
  writes_options qs o → stops (λ c, negb (is_whitespace c)) rest →
  nom_crontab_opts from_qs (63 :: qs ++ rest) = Ok (rest, o).
Proof.
  intros (Hne & Hw & Hq & Hf) Hr. unfold nom_crontab_opts, crontab_query.
  rewrite preceded_eq, nom_char_hit, take_while1_print, Hq by done. destruct o as [i [f|] m q p k md]; [|done].
  unfold query_of. cbn [q_fill opt_fill fmap option_fmap option_map]. by rewrite fill_print by auto.
Qed.

(** [js] is JSON5 for the payload [v], on one line and not mistaken for
    options. *)
Definition writes_payload (js : str) (v : Value) : Prop :=
  match js with
  | c :: _ => is_space c = false ∧ c ≠ 63
  | [] => False
  end ∧ Forall (λ c, not_newline c = true) js ∧ from_json5 js = Some v.

(** ** Printing a file *)

(** A line of a crontab file: spaces; a comment after spaces; an entry after
    spaces, with the text of its options and of its payload. *)
Inductive Line :=
| Blank (indent : str)
| Comment_ (indent text : str)
| Entry (indent : str) (t : CrontabTimer) (id : str) (o : option (str * CrontabOptions)) (p : option (str * Value)).

Definition print_line (l : Line) : str :=
  match l with
  | Blank indent => indent
  | Comment_ indent text => indent ++ 35 :: text
  | Entry indent t id o p =>
      indent ++ print_timer t ++ 32 :: id
      ++ match o with Some (qs, _) => 32 :: 63 :: qs | None => [] end
      ++ match p with Some (js, _) => 32 :: js | None => [] end
  end.

Definition entry_of (l : Line) : option (Crontab Value) :=
  match l with
  | Entry _ t id o p => Some (mkCrontab t id (default default_options (snd <$> o)) (snd <$> p))
  | _ => None
  end.

Definition well_formed (l : Line) : Prop :=
  match l with
  | Blank indent => Forall (λ c, is_space c = true) indent
  | Comment_ indent text =>
      Forall (λ c, is_space c = true) indent ∧ Forall (λ c, not_newline c = true) text
  | Entry indent t id o p =>
      Forall (λ c, is_space c = true) indent ∧ valid_timer t ∧ valid_identifier id ∧
      match o with Some (qs, o) => writes_options qs o | None => True end ∧
      match p with Some (js, v) => writes_payload js v | None => True end
  end.

(** What follows a line's text, and what is left after its ending. *)
Definition ends (r rest : str) : Prop := (r = [] ∧ rest = []) ∨ r = 10 :: rest ∨ r = 13 :: 10 :: rest.

Lemma ends_stops f r rest : ends r rest → f 10 = false → f 13 = false → stops f r.
Proof. intros [[-> ->]|[-> | ->]] H10 H13; by (apply stops_nil || apply stops_cons). Qed.

Lemma ending_print r rest : ends r rest → ∃ s, preceded space0 (alt [line_ending; eof]) r = Ok (rest, s).
Proof.
  intros Hr. rewrite preceded_eq. pose proof (space0_print [] r) as E. cbn [app] in E.
  rewrite E by (try done; by eapply ends_stops). rewrite alt_cons, alt_one, line_ending_eq, eof_eq.
  destruct Hr as [[-> ->]|[-> | ->]]; by eexists.
Qed.

Lemma stops_app f s r : s ≠ [] → Forall (λ c, f c = false) s → stops f (s ++ r).
Proof. intros Hne Hs. destruct Hs as [|c s Hc Hs]; [done|]. by apply stops_cons. Qed.

(** A timer starts with a digit or a star. *)
Lemma timer_head t : valid_timer t → ∃ c s, print_timer t = c :: s ∧ (c = 42 ∨ is_ascii_digit c = true).
Proof.
  intros ([Hne Hv] & _). unfold print_timer. destruct (minutes t) as [|v vs]; [done|].
  apply Forall_cons in Hv as [Hv _].
  assert (∃ c s, print_value v = c :: s ∧ (c = 42 ∨ is_ascii_digit c = true)) as (c & s & E & Hc).
  { assert (∀ n, 0 ≤ n ≤ 59 → ∃ c s, dec n = c :: s ∧ (c = 42 ∨ is_ascii_digit c = true)) as Hdec.
    { intros n Hn. destruct (dec_spec n) as (Hd & _ & Hn'); [unfold is_u32, U32_MAX; lia|].
      destruct (dec n) as [|c s]; [done|]. apply Forall_cons in Hd as [Hc _]. eauto. }
    unfold valid_value in Hv. cbn in Hv. destruct v as [n|a b|n|]; cbn; eauto.
    destruct (Hdec a) as (c & s & -> & Hc); [lia|]. cbn; eauto. }
  exists c. destruct vs as [|v' vs].
  - change (print_values [v]) with (print_value v). rewrite E. cbn; eauto.
  - change (print_values (v :: v' :: vs)) with (print_value v ++ [44] ++ print_values (v' :: vs)). rewrite E. cbn; eauto.
Qed.

Lemma comment_stops indent r :
  Forall (λ c, is_space c = true) indent → stops is_space r → stops (λ c, c =? 35) r →
  crontab_comment (Value := Value) (indent ++ r) = Err (Error r k_char).
Proof.
  intros Hi Hs Hh. unfold crontab_comment. by rewrite !preceded_eq, space0_print, nom_char_miss.
Qed.

Lemma comment_print indent text r :
  Forall (λ c, is_space c = true) indent → Forall (λ c, not_newline c = true) text → stops not_newline r →
  crontab_comment (Value := Value) (indent ++ 35 :: text ++ r) = Ok (r, None).
Proof.
  intros Hi Ht Hr. unfold crontab_comment. rewrite !preceded_eq, space0_print by (try done; by apply stops_cons).
  by rewrite nom_char_hit, take_while_eq, (span_prefix not_newline text r).
Qed.

(** No values where neither a digit nor a star comes next. *)
Lemma values_stop part r :
  stops is_ascii_digit r → stops (λ c, c =? 42) r → crontab_values part r = Err (Error r k_digit).
Proof.
  intros Hd Hs. unfold crontab_values. rewrite separated_list1_eq by auto using sound_crontab_value with nom.
  unfold crontab_value, crontab_range, crontab_wildcard.
  by rewrite !alt_cons, alt_one, !pmap_eq, verify_eq, separated_pair_eq, preceded_eq, !number_stops, nom_char_miss.
Qed.

Lemma line_stops indent r :
  Forall (λ c, is_space c = true) indent → stops is_space r → stops is_ascii_digit r → stops (λ c, c =? 42) r →
  crontab_line from_qs from_json5 (indent ++ r) = Err (Error r k_digit).
Proof.
  intros Hi Hs Hd Hst. unfold crontab_line, nom_crontab_timer.
  by rewrite preceded_eq, space0_print, terminated_eq, values_stop.
Qed.

(** The optional parts of an entry, each of which ends where the next starts. *)
Lemma options_part_print o p r rest :
  match o with Some (qs, o) => writes_options qs o | None => True end →
  match p with Some (js, v) => writes_payload js v | None => True end → ends r rest →
  let text := match p with Some (js, _) => 32 :: js | None => [] end ++ r in
  opt (preceded space1 (nom_crontab_opts from_qs)) (match o with Some (qs, _) => 32 :: 63 :: qs | None => [] end ++ text)
  = Ok (text, snd <$> o).
Proof.
  intros Ho Hp Hr text. rewrite opt_eq, preceded_eq.
  assert (stops (λ c, negb (is_whitespace c)) text) as Hstop.
  { unfold text. destruct p as [[js v]|]; [by apply stops_cons|by eapply ends_stops]. }
  destruct o as [[qs o]|].
  - cbn [app]. rewrite space1_print by (by apply stops_cons). by rewrite (opts_print qs o text).
  - cbn [app]. unfold text. destruct p as [[js v]|]; cbn [app].
    + destruct Hp as (Hhd & _). destruct js as [|c js]; [done|]. destruct Hhd as [Hsp Hq].
      cbn [app]. rewrite space1_print by (by apply stops_cons). unfold nom_crontab_opts, crontab_query.
      rewrite preceded_eq, nom_char_miss; [done|]. by apply stops_cons, Z.eqb_neq.
    + by rewrite space1_stops by (by eapply ends_stops).
Qed.

Lemma payload_part_print p r rest :
  match p with Some (js, v) => writes_payload js v | None => True end → ends r rest →
  opt (preceded space1 (nom_crontab_payload from_json5)) (match p with Some (js, _) => 32 :: js | None => [] end ++ r)
  = Ok (r, snd <$> p).
Proof.
  intros Hp Hr. rewrite opt_eq, preceded_eq. destruct p as [[js v]|]; cbn [app].
  - destruct Hp as (Hhd & Hn & Hj). destruct js as [|c js]; [done|]. destruct Hhd as [Hsp _].
    rewrite space1_print by (by apply stops_cons). unfold nom_crontab_payload.
    rewrite (take_while1_print not_newline (c :: js) r), Hj; [done..|]. by eapply ends_stops.
  - by rewrite space1_stops by (by eapply ends_stops).
Qed.

Lemma entry_line_print indent t id o p r rest :
  well_formed (Entry indent t id o p) → ends r rest →
  crontab_line from_qs from_json5 (print_line (Entry indent t id o p) ++ r) = Ok (r, entry_of (Entry indent t id o p)).
Proof.
  intros (Hi & Ht & Hid & Ho & Hp) Hr. destruct (timer_head t Ht) as (c & s & Ec & Hc).
  assert (is_space c = false) as Hsp.
  { unfold is_space. destruct Hc as [->|Hc%bool_decide_eq_true]; [done|]. destruct (Z.eqb_spec c 32), (Z.eqb_spec c 9); done || lia. }
  unfold crontab_line, print_line. rewrite <- !app_assoc. rewrite preceded_eq, space0_print; [|done|by rewrite Ec; apply stops_cons].
  cbn [app]. rewrite timer_print by (try done; by apply stops_cons). rewrite preceded_eq, space1_print.
  2: { destruct id as [|x id]; [done|]. destruct Hid as [Hx _]. apply stops_cons. unfold is_space.
       destruct (Z.eqb_spec x 32) as [E|], (Z.eqb_spec x 9) as [E'|]; by subst. }
  rewrite <- !app_assoc. rewrite identifier_print; [|done|].
  2: { destruct o as [[qs o]|]; [by apply stops_cons|]. destruct p as [[js v]|]; [by apply stops_cons|]. by eapply ends_stops. }
  by rewrite (options_part_print o p r rest), (payload_part_print p r rest).
Qed.

Lemma entry_print l r rest :
  well_formed l → ends r rest → print_line l ++ r ≠ [] →
  crontab_entry from_qs from_json5 (print_line l ++ r) = Ok (rest, entry_of l).
Proof.
  intros Hl Hr Hne. unfold crontab_entry. rewrite preceded_eq, pnot_eq, eof_eq.
  destruct (print_line l ++ r) as [|c s] eqn:E; [done|]. rewrite <- E. clear c s E Hne.
  rewrite cut_eq, terminated_eq, !alt_cons, alt_one.
  assert (stops is_space r ∧ stops (λ c, c =? 35) r ∧ stops is_ascii_digit r ∧ stops (λ c, c =? 42) r ∧ stops not_newline r)
    as (H1 & H2 & H3 & H4 & H5) by (split_and!; by eapply ends_stops).
  destruct (ending_print r rest Hr) as [e He]. destruct l as [indent|indent text|indent t id o p].
  - cbn [print_line]. rewrite comment_stops, line_stops, value_eq, space0_print by done. by rewrite He.
  - destruct Hl as [Hi Ht]. cbn [print_line]. rewrite <- app_assoc. cbn [app]. rewrite comment_print by done. by rewrite He.
  - rewrite (entry_line_print _ _ _ _ _ r rest Hl Hr).
    destruct Hl as (Hi & Ht & _). cbn [print_line]. rewrite <- app_assoc.
    destruct (timer_head t Ht) as (c & s & -> & Hc). cbn [app].
    assert (is_space c = false ∧ (c =? 35) = false) as [Hsp H35].
    { unfold is_space. destruct Hc as [->|Hc%bool_decide_eq_true]; [done|].
      destruct (Z.eqb_spec c 32), (Z.eqb_spec c 9), (Z.eqb_spec c 35); done || lia. }
    rewrite comment_stops; [|done|by apply stops_cons|by apply stops_cons]. by rewrite He.
Qed.

(** Lines with their endings, [true] for CRLF, and a last line without one. *)
Fixpoint print_file (lines : list (Line * bool)) (last : Line) : str :=
  match lines with
  | [] => print_line last
  | (l, crlf) :: lines => print_line l ++ (if crlf : bool then [13; 10] else [10]) ++ print_file lines last
  end.

Lemma file_print lines last :
  Forall (λ l, well_formed l.1) lines → well_formed last →
  many0 (crontab_entry from_qs from_json5) (print_file lines last)
  = Ok ([], (entry_of ∘ fst <$> lines) ++ match print_line last with [] => [] | _ => [entry_of last] end).
Proof.
  assert (many0 (crontab_entry from_qs from_json5) [] = Ok ([], [])) as Hnil.
  { rewrite many0_eq by auto using sound_entry with nom. unfold crontab_entry.
    by rewrite preceded_eq, pnot_eq, eof_eq. }
  intros Hl Hlast. induction Hl as [|[l crlf] lines Hl Hls IH].
  - cbn [print_file fmap list_fmap app]. destruct (print_line last) as [|c s] eqn:E; [done|]. rewrite <- E.
    pose proof (entry_print last [] [] Hlast ltac:(by left)) as Hp. rewrite app_nil_r in Hp.
    rewrite many0_eq, Hp by (congruence || auto using sound_entry with nom).
    rewrite E. cbn [length Nat.eqb]. by rewrite Hnil.
  - cbn [print_file]. set (eol := if crlf then [13; 10] else [10]). set (rest := print_file lines last) in *.
    assert (ends (eol ++ rest) rest) as He by (unfold eol; destruct crlf; [right; by right|right; by left]).
    assert (1 ≤ length eol)%nat as Hlen by (unfold eol; destruct crlf; cbn; lia).
    rewrite many0_eq, (entry_print l _ rest) by
      (done || auto using sound_entry with nom || (intros E%(f_equal length); rewrite !length_app in E; cbn in E; lia)).
    destruct (Nat.eqb_spec (length rest) (length (print_line l ++ eol ++ rest))) as [E|_];
      [rewrite !length_app in E; lia|]. by rewrite IH.
Qed.

(** C14: Files read back: any sequence of blank lines, comments and entries with
    valid fields, whatever their indentation and line endings and with or
    without a final newline, parses to exactly its entries, in order. *)
Theorem crontab_roundtrip debug display lines last :
  Forall (λ l, well_formed l.1) lines → well_formed last →
  parse_crontab from_qs from_json5 debug display (print_file lines last)
  = Some (Ok (filter_map (λ c, c) (entry_of <$> (lines.*1 ++ [last])))).
Proof.
  intros Hl Hlast. unfold parse_crontab, nom_crontab. rewrite file_print by done. do 2 f_equal.
  rewrite fmap_app, !filter_map_app, list_fmap_compose. f_equal. cbn.
  destruct last as [indent|indent text|indent t id o p]; cbn.
  - by destruct indent.
  - by destruct (indent ++ 35 :: text).
  - destruct (indent ++ _) eqn:E; [|done]. apply (f_equal length) in E. rewrite !length_app in E. cbn in E.
    rewrite !length_app in E. lia.
Qed.

(** ** Schedules that are accepted and never run *)

(** Values that match in no field with offset 1 at a weekday. *)
Definition dead_weekday (v : CrontabValue) : bool :=
  match v with Number n => n =? 0 | Step n => (n =? 0) || (n =? 1) | _ => false end.

Lemma dead_weekday_never vs x : 1 ≤ x ≤ 7 → forallb dead_weekday vs = true → any_match vs x 1 = false.
Proof.
  intros Hx Hd. unfold any_match. induction vs as [|v vs IH]; [done|]. cbn in Hd. apply andb_true_iff in Hd as [Hv Hd].
  cbn. rewrite IH by done. rewrite orb_false_r. destruct v as [n|a b|n|]; cbn in *; try done.
  - apply Z.eqb_eq in Hv as ->. apply Z.eqb_neq. lia.
  - apply orb_true_iff in Hv as [E|E]; apply Z.eqb_eq in E as ->; [done|]. cbn. by rewrite Z.mod_1_r.
Qed.

(** Weekday fields made of 0 (Sunday, as the documentation has it), [*/0]
    and [*/1] are accepted by the parser, and the entry parsed from them runs
    at no date at all. *)
Theorem dead_weekdays_are_accepted debug display indent t id o p :
  well_formed (Entry indent t id o p) → forallb dead_weekday (dows t) = true →
  ∃ c, parse_crontab from_qs from_json5 debug display (print_line (Entry indent t id o p)) = Some (Ok [c]) ∧
    ∀ at_, valid_naive at_ → crontab_should_run_at c at_ = false.
Proof.
  intros Hw Hd. eexists. split.
  - pose proof (file_print [] (Entry indent t id o p) ltac:(done) Hw) as Hp. cbn [print_file] in Hp.
    unfold parse_crontab, nom_crontab. rewrite Hp. destruct (print_line _) eqn:E; [|done].
    exfalso. apply (f_equal length) in E. cbn [print_line] in E. rewrite !length_app in E. cbn in E.
    rewrite !length_app in E. lia.
  - intros at_ (_ & _ & _ & _ & Hw7). apply not_true_iff_false. unfold crontab_should_run_at.
    rewrite should_run_at_iff. cbn. intros (_ & _ & _ & _ & E). by rewrite dead_weekday_never in E.
Qed.
End roundtrip.

(** ** Witnesses *)

(** A deserializer that knows one query string and one that reads [{}]. *)
Definition sample_options : CrontabOptions :=
  mkOptions (Some (lit "nightly")) (Some (mkFill 0 1 2 0 0)) (Some 3) None None None None.
Definition sample_from_qs (qs : str) : option QueryOption :=
  if decide (qs = lit "id=nightly&fill=0w1d2h0m0s&max=3") then Some (query_of sample_options) else None.
Definition sample_from_json5 (js : str) : option bool :=
  if decide (js = lit "{}") then Some true else None.
Definition no_text {A} (_ : A) : str := [].
Definition no_text2 {A B} (_ : A) (_ : B) : str := [].

Definition sample_timer : CrontabTimer :=
  mkTimer [Number 0; Range 15 30] [Number 4] [Step 2] [Any] [Number 0].
Definition sample_entry : @Line bool :=
  Entry (lit "  ") sample_timer (lit "db:clean-up")
    (Some (lit "id=nightly&fill=0w1d2h0m0s&max=3", sample_options)) (Some (lit "{}", true)).

Lemma sample_entry_well_formed : well_formed sample_from_qs sample_from_json5 sample_entry.
Proof.
  unfold sample_entry. split_and!.
  - by repeat constructor.
  - unfold valid_timer, valid_values. cbn. split_and!; try done; repeat constructor; cbn; lia.
  - by split; [|repeat constructor].
  - split_and!; [done|by repeat constructor|by vm_compute|]. intros f [= <-]. unfold valid_fill, is_u32, U32_MAX. cbn. lia.
  - split_and!; [done..|by repeat constructor|by vm_compute].
Qed.

Lemma parsed_entries_are_valid_witness :
  ∃ c : Crontab bool, Forall (λ c, valid_timer (timer c) ∧ valid_identifier (task_identifier c)) [c] ∧
    task_identifier c = lit "db:clean-up".
Proof.
  eexists (mkCrontab sample_timer (lit "db:clean-up") sample_options (Some true)). split; [|done].
  apply (parsed_entries_are_valid (K := ErrorKind) sample_from_qs sample_from_json5 no_text no_text2
    (print_line sample_entry)). by vm_compute.
Defined.

Lemma crontab_roundtrip_witness :
  parse_crontab (K := ErrorKind) sample_from_qs sample_from_json5 no_text no_text2
    (print_file [(Comment_ [] (lit " nightly"), false); (sample_entry, true); (Blank (lit " "), false)] sample_entry)
  = Some (Ok [mkCrontab sample_timer (lit "db:clean-up") sample_options (Some true);
              mkCrontab sample_timer (lit "db:clean-up") sample_options (Some true)]).
Proof.
  apply (crontab_roundtrip (K := ErrorKind) sample_from_qs sample_from_json5 no_text no_text2
    [(Comment_ [] (lit " nightly"), false); (sample_entry, true); (Blank (lit " "), false)] sample_entry).
  - repeat first [apply sample_entry_well_formed | constructor | done].
  - apply sample_entry_well_formed.
Defined.

Lemma dead_weekdays_are_accepted_witness :
  ∃ c, parse_crontab (K := ErrorKind) sample_from_qs sample_from_json5 no_text no_text2 (print_line sample_entry)
       = Some (Ok [c]) ∧ ∀ at_, valid_naive at_ → crontab_should_run_at c at_ = false.
Proof.
  apply (dead_weekdays_are_accepted (K := ErrorKind) sample_from_qs sample_from_json5 no_text no_text2 (lit "  ") sample_timer
    (lit "db:clean-up") (Some (lit "id=nightly&fill=0w1d2h0m0s&max=3", sample_options)) (Some (lit "{}", true))).
  - apply sample_entry_well_formed.
  - done.
Defined.

Lemma parse_errors_are_located_witness :
  ∃ e before at_,
    parse_crontab (K := ErrorKind) sample_from_qs sample_from_json5 no_text no_text2
      (lit "* * * * * a" ++ [10] ++ lit "* * 32 * * b") = Some (Err e) ∧
    lit "* * * * * a" ++ [10] ++ lit "* * 32 * * b" = before ++ at_ ∧
    msg e = lit "line " ++ dec (Z.of_nat (count_if (λ c, c =? 10) before) + 1) ++ lit ", column "
            ++ dec (Z.of_nat (length (last_line before)) + 1) ++ lit ": ".
Proof.
  destruct (parse_errors_are_located (K := ErrorKind) sample_from_qs sample_from_json5 no_text no_text2
    (lit "* * * * * a" ++ [10] ++ lit "* * 32 * * b")) as (r & Hr & He).
  destruct r as [l|e]; [exfalso; revert Hr; by vm_compute|].
  destruct (He e eq_refl) as (before & at_ & line & column & Hs & -> & -> & _ & Hm).
  exists e, before, at_. split_and!; [done|done|]. by rewrite Hm, app_nil_r.
Defined.

(** The text of a printed entry; and the position of an error in an entry,
    where the alternatives for the line left off. *)
Example sample_prints : print_line sample_entry =
  lit "  0,15-30 4 */2 * 0 db:clean-up ?id=nightly&fill=0w1d2h0m0s&max=3 {}".
Proof. by vm_compute. Qed.

Example sample_error :
  ∃ e, parse_crontab (K := ErrorKind) sample_from_qs sample_from_json5 no_text no_text2
         (lit "* * * * * a" ++ [10] ++ lit "* * 32 * * b") = Some (Err e) ∧
       msg e = lit "line 2, column 1: ".
Proof. eexists. split; by vm_compute. Qed.

End CrontabParser.
