(* ===== verification/Job.v ===== *)
(** * Jobs (crates/graphile-worker-job, -job-spec, -task-details)

    JSON values, the job row and the runtime job, job specifications and the
    task-identifier table every worker keeps.  Timestamps are microseconds. *)

From S2P Require Import Prelude.
Open Scope Z_scope.

Module Job.

(** [serde_json::Value]; a number is kept as its text, an object as its
    key/value pairs in key order. *)
Inductive Value :=
| Null
| VBool (b : bool)
| VNumber (repr : str)
| VString (s : str)
| Array (items : list Value)
| Object (fields : list (str * Value)).

(** [Value::as_array]. *)
Definition as_array (v : Value) : option (list Value) :=
  match v with Array l => Some l | _ => None end.

(** [Value::as_bool]. *)
Definition as_bool (v : Value) : option bool :=
  match v with VBool b => Some b | _ => None end.

(** [Value::get] with a string key. *)
Definition get_field (v : Value) (k : str) : option Value :=
  match v with
  | Object fs => (λ p, p.2.2) <$> list_find (λ kv, kv.1 = k) fs
  | _ => None
  end.

(** ** db_job.rs *)

Record DbJob := mkDbJob {
  id : Z;
  job_queue_id : option Z;
  payload : Value;
  priority : Z;
  run_at : Z;
  attempts : Z;
  max_attempts : Z;
  last_error : option str;
  created_at : Z;
  updated_at : Z;
  key : option str;
  revision : Z;
  locked_at : option Z;
  locked_by : option str;
  flags : option Value;
  task_id : Z
}.

(** ** job.rs: the row and the identifier of its task. *)

Record Job := mkJob { job_row :> DbJob; task_identifier : str }.

Definition from_db_job (db_job : DbJob) (identifier : str) : Job :=
  mkJob db_job identifier.

Definition into_db_job (job : Job) : DbJob := job_row job.

(** [job.job_queue_id().is_some()]. *)
Definition has_queue (j : DbJob) : bool := bool_decide (is_Some (job_queue_id j)).

(** ** job-spec/src/lib.rs *)

Inductive JobKeyMode := Replace | PreserveRunAt | UnsafeDedupe.

#[export] Instance JobKeyMode_eq_dec : EqDecision JobKeyMode.
Proof. solve_decision. Defined.

(** [Display for JobKeyMode]. *)
Definition job_key_mode_to_string (m : JobKeyMode) : str :=
  match m with
  | Replace => lit "replace"
  | PreserveRunAt => lit "preserve_run_at"
  | UnsafeDedupe => lit "unsafe_dedupe"
  end.

Record JobSpec := mkSpec {
  spec_queue_name : option str;
  spec_run_at : option Z;
  spec_max_attempts : option Z;
  spec_job_key : option str;
  spec_job_key_mode : option JobKeyMode;
  spec_priority : option Z;
  spec_flags : option (list str)
}.

Definition default_spec : JobSpec := mkSpec None None None None None None None.

(** ** task-details/src/details.rs *)

Abbreviation TaskDetails := (gmap Z str).

Definition task_ids (self : TaskDetails) : list Z := (map_to_list self).*1.
Definition task_names (self : TaskDetails) : list str := (map_to_list self).*2.
Definition get (self : TaskDetails) (i : Z) : option str := self !! i.

Definition get_id (self : TaskDetails) (identifier : str) : option Z :=
  (λ p, p.2.1) <$> list_find (λ kv, kv.2 = identifier) (map_to_list self).

Definition get_or_empty (self : TaskDetails) (job_id tid : Z) : str :=
  default [] (self !! tid).

Definition insert_task (self : TaskDetails) (i : Z) (identifier : str) : TaskDetails :=
  <[i := identifier]> self.

Lemma elem_of_task_ids self i : i ∈ task_ids self ↔ is_Some (get self i).
Proof.
  unfold task_ids, get. rewrite list_elem_of_fmap. split.
  - intros ([k v] & -> & H). apply elem_of_map_to_list in H. eauto.
  - intros [v H]. exists (i, v). by rewrite elem_of_map_to_list.
Qed.

End Job.
