(* ===== verification/Database.v ===== *)
(** * Database layer (crates/graphile-worker-database)

    SQL identifier quoting, schema-qualified names, the values bound to a
    statement, the rows it returns and their decoding, and the statement
    retry policy.  Here a statement is an operation that answers with
    rows or a [DbError]; how the drivers do so is in [Drivers]. *)

From S2P Require Import Prelude Job.
Open Scope Z_scope.

Module Database.

(** ** identifier/keywords.rs *)

Definition KEYWORDS_REQUIRING_QUOTES : list str := lit <$> [
  "all"; "analyse"; "analyze"; "and"; "any"; "array"; "as"; "asc"; "asymmetric";
  "authorization"; "between"; "bigint"; "binary"; "bit"; "boolean"; "both"; "case";
  "cast"; "char"; "character"; "check"; "coalesce"; "collate"; "collation"; "column";
  "concurrently"; "constraint"; "create"; "cross"; "current_catalog"; "current_date";
  "current_role"; "current_schema"; "current_time"; "current_timestamp";
  "current_user"; "dec"; "decimal"; "default"; "deferrable"; "desc"; "distinct";
  "do"; "else"; "end"; "except"; "exists"; "extract"; "false"; "fetch"; "float";
  "for"; "foreign"; "freeze"; "from"; "full"; "grant"; "graph_table"; "greatest";
  "group"; "grouping"; "having"; "ilike"; "in"; "initially"; "inner"; "inout"; "int";
  "integer"; "intersect"; "interval"; "into"; "is"; "isnull"; "join"; "json";
  "json_array"; "json_arrayagg"; "json_exists"; "json_object"; "json_objectagg";
  "json_query"; "json_scalar"; "json_serialize"; "json_table"; "json_value";
  "lateral"; "leading"; "least"; "left"; "like"; "limit"; "localtime";
  "localtimestamp"; "merge_action"; "national"; "natural"; "nchar"; "none";
  "normalize"; "not"; "notnull"; "null"; "nullif"; "numeric"; "offset"; "on"; "only";
  "or"; "order"; "out"; "outer"; "overlaps"; "overlay"; "placing"; "position";
  "precision"; "primary"; "real"; "references"; "returning"; "right"; "row";
  "select"; "session_user"; "setof"; "similar"; "smallint"; "some"; "substring";
  "symmetric"; "system_user"; "table"; "tablesample"; "then"; "time"; "timestamp";
  "to"; "trailing"; "treat"; "trim"; "true"; "union"; "unique"; "user"; "using";
  "values"; "varchar"; "variadic"; "verbose"; "when"; "where"; "window"; "with";
  "xmlattributes"; "xmlconcat"; "xmlelement"; "xmlexists"; "xmlforest";
  "xmlnamespaces"; "xmlparse"; "xmlpi"; "xmlroot"; "xmlserialize"; "xmltable"]%string.

(** [slice::binary_search_by]: halves the window while it has more than one
    element, then compares the element it ends on. *)
Fixpoint search_base {A} (cmp : A → comparison) (l : list A) (fuel base size : nat) : nat :=
  match fuel with
  | O => base
  | S fuel =>
      if (1 <? size)%nat then
        let half := (size / 2)%nat in
        let mid := (base + half)%nat in
        let base' :=
          match cmp <$> l !! mid with Some Gt | None => base | _ => mid end in
        search_base cmp l fuel base' (size - half)
      else base
  end.

Definition binary_search_by {A} (cmp : A → comparison) (l : list A) : option nat :=
  let base := search_base cmp l (length l) 0 (length l) in
  match cmp <$> l !! base with Some Eq => Some base | _ => None end.

Definition requires_quotes (identifier : str) : bool :=
  bool_decide (is_Some
    (binary_search_by (λ k, str_cmp k identifier) KEYWORDS_REQUIRING_QUOTES)).

#[global] Arguments KEYWORDS_REQUIRING_QUOTES : simpl never.
#[global] Arguments requires_quotes : simpl never.

(** ** identifier/mod.rs *)

Definition is_first_byte (b : Z) : bool := is_ascii_lowercase b || (b =? 95).
Definition is_rest_byte (b : Z) : bool :=
  is_ascii_lowercase b || is_ascii_digit b || (b =? 95).

Definition is_safe_identifier (identifier : str) : bool :=
  match bytes identifier with
  | [] => false
  | first :: _ =>
      if negb (is_first_byte first) then false
      else if negb (forallb is_rest_byte (bytes identifier)) then false
      else negb (requires_quotes identifier)
  end.

Definition quote : char := 34.

(** The body of the quoting loop. *)
Definition escape_char (ch : char) : str :=
  if ch =? quote then [quote; ch] else [ch].

Definition escape_identifier (identifier : str) : str :=
  if is_safe_identifier identifier then identifier
  else [quote] ++ (identifier ≫= escape_char) ++ [quote].

(** ** schema/mod.rs *)

Record Schema := mkSchema { escaped : str }.

#[export] Instance Schema_eq_dec : EqDecision Schema.
Proof. solve_decision. Defined.
#[export] Program Instance Schema_countable : Countable Schema :=
  inj_countable' escaped mkSchema _.
Next Obligation. by intros []. Qed.

Definition new_schema (schema : str) : Schema := mkSchema (escape_identifier schema).
Definition default_schema : Schema := new_schema (lit "graphile_worker").

Definition schema_identifier (self : Schema) (identifier : str) : str :=
  escaped self ++ lit "." ++ escape_identifier identifier.
Definition private_table (self : Schema) (table : str) : str :=
  schema_identifier self (lit "_private_" ++ table).
Definition schema_function (self : Schema) (function : str) : str :=
  schema_identifier self function.

(** ** queries/src/schema_names.rs *)

Inductive PrivateTable := Jobs | JobQueues | Tasks | Workers.

Definition table_as_str (t : PrivateTable) : str :=
  match t with
  | Jobs => lit "jobs"
  | JobQueues => lit "job_queues"
  | Tasks => lit "tasks"
  | Workers => lit "workers"
  end.

Definition table_qualified (t : PrivateTable) (schema : Schema) : str :=
  private_table schema (table_as_str t).

Inductive WorkerFunction :=
| AddJob | AddJobs | CompleteJobs | DeleteStaleWorkers | ForceUnlockWorkers
| ListOrphanLockedWorkers | ListStaleWorkers | PermanentlyFailJobs
| RecoverDeadWorkerJobs | RemoveJob | RescheduleJobs | WorkerDeregister
| WorkerHeartbeat.

Definition function_as_str (f : WorkerFunction) : str :=
  match f with
  | AddJob => lit "add_job"
  | AddJobs => lit "add_jobs"
  | CompleteJobs => lit "complete_jobs"
  | DeleteStaleWorkers => lit "delete_stale_workers"
  | ForceUnlockWorkers => lit "force_unlock_workers"
  | ListOrphanLockedWorkers => lit "list_orphan_locked_workers"
  | ListStaleWorkers => lit "list_stale_workers"
  | PermanentlyFailJobs => lit "permanently_fail_jobs"
  | RecoverDeadWorkerJobs => lit "recover_dead_worker_jobs"
  | RemoveJob => lit "remove_job"
  | RescheduleJobs => lit "reschedule_jobs"
  | WorkerDeregister => lit "worker_deregister"
  | WorkerHeartbeat => lit "worker_heartbeat"
  end.

Definition function_qualified (f : WorkerFunction) (schema : Schema) : str :=
  schema_function schema (function_as_str f).

(** ** types/value.rs, types/cell.rs *)

Inductive DbValue :=
| Bool (b : bool)
| BoolOpt (b : option bool)
| I16 (n : Z)
| I16Opt (n : option Z)
| I32 (n : Z)
| I32Opt (n : option Z)
| I64 (n : Z)
| I64Opt (n : option Z)
| Json (v : Job.Value)
| JsonOpt (v : option Job.Value)
| Text (s : str)
| TextOpt (s : option str)
| TextArray (l : list str)
| TextArrayOpt (l : option (list str))
| I32Array (l : list Z)
| I64Array (l : list Z)
| TimestampTz (t : Z)
| TimestampTzOpt (t : option Z).

Inductive DbCell :=
| CNull
| CBool (b : bool)
| CI16 (n : Z)
| CI32 (n : Z)
| CI64 (n : Z)
| CJson (v : Job.Value)
| CText (s : str)
| CTimestampTz (t : Z).

(** ** error.rs *)

Record DbError := mkDbError {
  message : str;
  code : option str;
  connection_failure : bool
}.

Definition new_error (m : str) : DbError := mkDbError m None false.
Definition with_code (m c : str) : DbError := mkDbError m (Some c) false.
Definition connection_failure_error (m c : str) : DbError := mkDbError m (Some c) true.

(** ** types/row.rs, types/decode.rs *)

Definition DbRow := list (str * DbCell).

(** [HashMap::get]. *)
Definition row_get (row : DbRow) (name : str) : option DbCell :=
  (λ p, p.2.2) <$> list_find (λ kv, kv.1 = name) row.

Class FromDbCell (T : Type) := from_cell : str → DbCell → result T DbError.

Section decode.
(** [Debug for DbCell], which only appears in the error text. *)
Context (debug_cell : DbCell → str).

Definition type_error (name expected : str) (cell : DbCell) : DbError :=
  new_error (lit "column `" ++ name ++ lit "` could not be decoded as " ++ expected
             ++ lit "; actual value was " ++ debug_cell cell).

Definition from_cell_bool : FromDbCell bool := λ name cell,
  match cell with CBool v => Ok v | _ => Err (type_error name (lit "bool") cell) end.
Definition from_cell_i16 : FromDbCell Z := λ name cell,
  match cell with CI16 v => Ok v | _ => Err (type_error name (lit "i16") cell) end.
Definition from_cell_i32 : FromDbCell Z := λ name cell,
  match cell with CI32 v => Ok v | _ => Err (type_error name (lit "i32") cell) end.
Definition from_cell_i64 : FromDbCell Z := λ name cell,
  match cell with CI64 v => Ok v | _ => Err (type_error name (lit "i64") cell) end.
Definition from_cell_string : FromDbCell str := λ name cell,
  match cell with CText v => Ok v | _ => Err (type_error name (lit "String") cell) end.
Definition from_cell_json : FromDbCell Job.Value := λ name cell,
  match cell with
  | CJson v => Ok v
  | _ => Err (type_error name (lit "serde_json::Value") cell)
  end.
Definition from_cell_timestamp : FromDbCell Z := λ name cell,
  match cell with
  | CTimestampTz v => Ok v
  | _ => Err (type_error name (lit "DateTime<Utc>") cell)
  end.
Definition from_cell_option {T} (D : FromDbCell T) : FromDbCell (option T) := λ name cell,
  match cell with
  | CNull => Ok None
  | _ => result_map Some (D name cell)
  end.

Definition try_get {T} (D : FromDbCell T) (row : DbRow) (name : str) : result T DbError :=
  match row_get row name with
  | None => Err (new_error (lit "column `" ++ name ++ lit "` was not present in query result"))
  | Some cell => D name cell
  end.

(** queries/src/rows.rs *)
Definition db_job_from_row (row : DbRow) : result Job.DbJob DbError :=
  let? id := try_get from_cell_i64 row (lit "id") in
  let? job_queue_id := try_get (from_cell_option from_cell_i32) row (lit "job_queue_id") in
  let? payload := try_get from_cell_json row (lit "payload") in
  let? priority := try_get from_cell_i16 row (lit "priority") in
  let? run_at := try_get from_cell_timestamp row (lit "run_at") in
  let? attempts := try_get from_cell_i16 row (lit "attempts") in
  let? max_attempts := try_get from_cell_i16 row (lit "max_attempts") in
  let? last_error := try_get (from_cell_option from_cell_string) row (lit "last_error") in
  let? created_at := try_get from_cell_timestamp row (lit "created_at") in
  let? updated_at := try_get from_cell_timestamp row (lit "updated_at") in
  let? key := try_get (from_cell_option from_cell_string) row (lit "key") in
  let? revision := try_get from_cell_i32 row (lit "revision") in
  let? locked_at := try_get (from_cell_option from_cell_timestamp) row (lit "locked_at") in
  let? locked_by := try_get (from_cell_option from_cell_string) row (lit "locked_by") in
  let? flags := try_get (from_cell_option from_cell_json) row (lit "flags") in
  let? task_id := try_get from_cell_i32 row (lit "task_id") in
  Ok (Job.mkDbJob id job_queue_id payload priority run_at attempts max_attempts last_error
        created_at updated_at key revision locked_at locked_by flags task_id).

Definition collect_column {T} (D : FromDbCell T) (rows : list DbRow) (column : str) :
    result (list T) DbError :=
  collect_result ((λ row, try_get D row column) <$> rows).
End decode.

(** ** executor.rs: the default methods over [fetch_all]'s answer. *)

Definition fetch_optional (rows : result (list DbRow) DbError) : result (option DbRow) DbError :=
  let? rows := rows in Ok (head rows).

Definition fetch_one (rows : result (list DbRow) DbError) : result DbRow DbError :=
  let? row := fetch_optional rows in
  match row with
  | Some row => Ok row
  | None => Err (new_error
      (lit "query returned no rows when exactly one row was expected"))
  end.

(** ** retry.rs

    The delay is the pair (base, cap) in milliseconds that [backoff] computes
    it from; the jittered floating-point product is left out. *)

Definition backoff (error : DbError) : option (Z * Z) :=
  match code error with
  | None => None
  | Some c =>
      if bool_decide (c = lit "40001" ∨ c = lit "40P01") then Some (50, 5000)
      else if bool_decide (c = lit "57P03") then Some (3000, 120000)
      else if bool_decide (c = lit "EHOSTUNREACH" ∨ c = lit "ETIMEDOUT")
              && connection_failure error then Some (3000, 120000)
      else None
  end.

(** The answer of call [i] of the operation is [operation i]; the loop returns
    the result and the number of calls made.  [n] loop iterations are left. *)
Fixpoint retry_loop {T} (operation : nat → result T DbError) (n calls : nat) :
    result T DbError * nat :=
  match n with
  | O => (operation calls, S calls)
  | S n =>
      match operation calls with
      | Ok value => (Ok value, S calls)
      | Err error =>
          match backoff error with
          | Some _ => retry_loop operation n (S calls)
          | None => (Err error, S calls)
          end
      end
  end.

Definition retry_run {T} (max_attempts : nat) (operation : nat → result T DbError) :
    result T DbError * nat :=
  retry_loop operation (max_attempts - 1) 0.

(** ** Keyword search *)

Section search.
Context {A : Type} (cmp : A → comparison) (l : list A).

(** [cmp] compares elements with a target that sits at [k], the elements
    being in increasing order. *)
Definition monotone_at (k : nat) : Prop :=
  ∀ i x, l !! i = Some x →
    ((i < k)%nat → cmp x = Lt) ∧ (i = k → cmp x = Eq) ∧ ((k < i)%nat → cmp x = Gt).

Lemma search_base_spec k fuel base size :
  monotone_at k → (base ≤ k < base + size)%nat → (base + size ≤ length l)%nat →
  (size ≤ S fuel)%nat → search_base cmp l fuel base size = k.
Proof.
  intros Hm. revert base size.
  induction fuel as [|fuel IH]; intros base size Hk Hl Hf; cbn [search_base]; cbv zeta; [lia|].
  destruct (Nat.ltb_spec 1 size) as [H1|H1]; [|lia].
  assert (0 < size / 2 < size)%nat as Hh.
  { split; [apply Nat.div_str_pos; lia|apply Nat.div_lt; lia]. }
  assert (2 * (size / 2) ≤ size)%nat as Hd.
  { pose proof (Nat.div_mod_eq size 2). lia. }
  destruct (lookup_lt_is_Some_2 l (base + size / 2)) as [x Hx]; [lia|].
  rewrite Hx; cbn [fmap option_fmap option_map].
  destruct (Hm _ _ Hx) as (Hlt & Heq & Hgt).
  destruct (lt_eq_lt_dec (base + size / 2) k) as [[H|H]|H].
  - rewrite (Hlt H). apply IH; lia.
  - rewrite (Heq H). apply IH; lia.
  - rewrite (Hgt H). apply IH; lia.
Qed.

Lemma binary_search_found k x :
  monotone_at k → l !! k = Some x → binary_search_by cmp l = Some k.
Proof.
  intros Hm Hk. pose proof (lookup_lt_Some _ _ _ Hk).
  unfold binary_search_by. rewrite (search_base_spec k); [|done|lia..].
  rewrite Hk; simpl. destruct (Hm _ _ Hk) as (_ & Heq & _). by rewrite Heq.
Qed.

Lemma binary_search_sound k :
  binary_search_by cmp l = Some k → ∃ x, l !! k = Some x ∧ cmp x = Eq.
Proof.
  unfold binary_search_by. set (b := search_base _ _ _ _ _).
  destruct (l !! b) as [x|] eqn:E; simpl; [|done].
  destruct (cmp x) eqn:Ex; [|done..]. intros [= <-]. eauto.
Qed.
End search.

(** Strictly increasing in byte order. *)
Fixpoint strictly_sorted (l : list str) : bool :=
  match l with
  | [] => true
  | x :: l' =>
      match l' with
      | [] => true
      | y :: _ => match str_cmp x y with Lt => true | _ => false end
      end && strictly_sorted l'
  end.

Lemma strictly_sorted_lookup l i j x y :
  strictly_sorted l = true → (i < j)%nat →
  l !! i = Some x → l !! j = Some y → str_cmp x y = Lt.
Proof.
  revert i j x. induction l as [|z l IH]; intros i j x Hs Hij Hi Hj; [done|].
  simpl in Hs. apply andb_true_iff in Hs as [H1 H2].
  destruct j as [|j]; [lia|]. destruct i as [|i]; [|apply (IH i j); auto with lia].
  simpl in Hi, Hj. simplify_eq. destruct l as [|w l]; [done|].
  destruct (str_cmp x w) eqn:E; try done.
  destruct j as [|j]; [by simplify_eq/=|].
  apply (bytes_cmp_lt_trans _ (bytes w)); [done|].
  apply (IH 0%nat (S j)); auto with lia.
Qed.

Lemma str_cmp_refl s : str_cmp s s = Eq.
Proof. by apply bytes_cmp_eq. Qed.

Lemma str_cmp_gt a b : str_cmp a b = Lt → str_cmp b a = Gt.
Proof. unfold str_cmp. intros H. by rewrite bytes_cmp_antisym, H. Qed.

Lemma sorted_search l s :
  strictly_sorted l = true →
  (is_Some (binary_search_by (λ k, str_cmp k s) l) ↔ ∃ k, k ∈ l ∧ str_cmp k s = Eq).
Proof.
  intros Hs. split.
  - intros [i (x & Hi & Hx)%binary_search_sound]. exists x.
    split; [by eapply list_elem_of_lookup_2|done].
  - intros (k & [i Hi]%list_elem_of_lookup_1 & Hk). exists i.
    eapply binary_search_found; [|done]. intros j x Hj.
    apply bytes_cmp_eq in Hk. split_and!.
    + intros. unfold str_cmp. rewrite <- Hk. by eapply (strictly_sorted_lookup l j i).
    + intros ->. simplify_eq. by apply bytes_cmp_eq.
    + intros. unfold str_cmp. rewrite <- Hk. apply str_cmp_gt.
      by eapply (strictly_sorted_lookup l i j).
Qed.

(** The binary search over the keyword table decides membership in it, for
    every identifier: the table is strictly sorted in byte order, which is
    what the search relies on. *)
Theorem requires_quotes_iff (identifier : str) :
  requires_quotes identifier = true ↔
    ∃ k, k ∈ KEYWORDS_REQUIRING_QUOTES ∧ bytes k = bytes identifier.
Proof.
  unfold requires_quotes. rewrite bool_decide_eq_true, sorted_search.
  - by setoid_rewrite bytes_cmp_eq.
  - by vm_compute.
Qed.

Lemma requires_quotes_elem s : s ∈ KEYWORDS_REQUIRING_QUOTES → requires_quotes s = true.
Proof.
  intros. apply bool_decide_eq_true, sorted_search; [by vm_compute|].
  exists s. split; [done|apply str_cmp_refl].
Qed.

(** ** Quoting

    How SQL reads an identifier back: between double quotes, where two of
    them stand for one, or as a run of identifier characters folded to lower
    case that is not a reserved word. *)

Fixpoint read_quoted (s : str) : option (str * str) :=
  match s with
  | [] => None
  | c :: s' =>
      if c =? quote then
        match s' with
        | d :: s'' =>
            if d =? quote
            then (λ p, (quote :: p.1, p.2)) <$> read_quoted s''
            else Some ([], s')
        | [] => Some ([], [])
        end
      else (λ p, (c :: p.1, p.2)) <$> read_quoted s'
  end.

Definition is_ident_start (c : char) : bool :=
  is_ascii_alphabetic c || (c =? 95) || (128 <=? c).
Definition is_ident_cont (c : char) : bool :=
  is_ident_start c || is_ascii_digit c || (c =? 36).
Definition fold_char (c : char) : char := if is_ascii_uppercase c then c + 32 else c.

Definition read_identifier (reserved : str → bool) (s : str) : option (str * str) :=
  match s with
  | [] => None
  | c :: s' =>
      if c =? quote then
        match read_quoted s' with Some ([], _) => None | r => r end
      else if is_ident_start c then
        let '(w, r) := span is_ident_cont s in
        let x := fold_char <$> w in
        if reserved x then None else Some (x, r)
      else None
  end.

(** [schema.name]. *)
Definition read_qualified (reserved : str → bool) (s : str) : option (str * str * str) :=
  match read_identifier reserved s with
  | Some (a, 46 :: r) =>
      match read_identifier reserved r with
      | Some (b, r') => Some (a, b, r')
      | None => None
      end
  | _ => None
  end.

(** Text after an identifier that cannot be taken for a part of it. *)
Definition delimited (rest : str) : Prop :=
  ∀ c r, rest = c :: r → is_ident_cont c = false ∧ c ≠ quote.

Lemma bytes_of_rest s : forallb is_rest_byte (bytes s) = true → bytes s = s.
Proof.
  induction s as [|c s IH]; [done|]. change (bytes (c :: s)) with (utf8_char c ++ bytes s).
  rewrite forallb_app. intros [Hc Hs]%andb_true_iff. rewrite (IH Hs).
  destruct (Z.ltb_spec c 128) as [H|H]; [by rewrite utf8_char_ascii|].
  exfalso. destruct (utf8_char c) as [|b bs] eqn:E.
  - revert E. unfold utf8_char. repeat case_match; done.
  - assert (128 ≤ b) by (apply (utf8_char_high c); [done|rewrite E; set_solver]).
    simpl in Hc. unfold is_rest_byte, is_ascii_lowercase, is_ascii_digit in Hc.
    apply andb_true_iff in Hc as [Hc _]. revert Hc.
    repeat case_bool_decide; destruct (Z.eqb_spec b 95); simpl; lia || done.
Qed.

Lemma is_safe_inv s :
  is_safe_identifier s = true →
  requires_quotes s = false ∧ forallb is_rest_byte s = true ∧
  ∃ c s', s = c :: s' ∧ is_first_byte c = true.
Proof.
  unfold is_safe_identifier. destruct (bytes s) as [|b bs] eqn:E; [done|].
  destruct (is_first_byte b) eqn:Hb; cbn [negb]; [|done].
  destruct (forallb is_rest_byte (b :: bs)) eqn:Hr; cbn [negb]; [|done].
  intros ?%negb_true_iff.
  assert (bytes s = s) as Hs by (apply bytes_of_rest; by rewrite E).
  rewrite E in Hs. rewrite <- Hs. split_and!; [by rewrite Hs|done|eauto].
Qed.

Lemma rest_byte_ident c :
  is_rest_byte c = true → is_ident_cont c = true ∧ fold_char c = c ∧ c ≠ quote.
Proof.
  unfold is_rest_byte, is_ident_cont, is_ident_start, fold_char, is_ascii_alphabetic,
    is_ascii_uppercase, is_ascii_lowercase, is_ascii_digit, quote.
  repeat case_bool_decide; destruct (Z.eqb_spec c 95); simpl; try done; try lia.
Qed.

Lemma first_byte_ident c :
  is_first_byte c = true → is_ident_start c = true ∧ (c =? quote) = false.
Proof.
  unfold is_first_byte, is_ident_start, is_ascii_alphabetic,
    is_ascii_uppercase, is_ascii_lowercase, quote.
  repeat case_bool_decide; destruct (Z.eqb_spec c 95), (Z.eqb_spec c 34); simpl;
    try done; try lia.
Qed.

Lemma read_quoted_escape s rest :
  (∀ r, rest ≠ quote :: r) →
  read_quoted ((s ≫= escape_char) ++ quote :: rest) = Some (s, rest).
Proof.
  intros Hr. induction s as [|c s IH].
  - destruct rest as [|d rest]; [done|]. cbn.
    destruct (Z.eqb_spec d quote) as [->|]; [by destruct (Hr rest)|done].
  - rewrite bind_cons, <- app_assoc. unfold escape_char at 1.
    destruct (Z.eqb_spec c quote) as [->|H]; cbn [app read_quoted].
    + by rewrite Z.eqb_refl, IH.
    + destruct (Z.eqb_spec c quote); [done|]. by rewrite IH.
Qed.

Section reading.
(** The reserved words of the server, each of which the table lists. *)
Context (reserved : str → bool).
Hypothesis reserved_listed :
  ∀ k, reserved k = true → k ∈ KEYWORDS_REQUIRING_QUOTES.

Lemma read_safe s rest :
  is_safe_identifier s = true → delimited rest →
  read_identifier reserved (s ++ rest) = Some (s, rest).
Proof.
  intros (Hk & Hr & c & s' & Hs & Hc)%is_safe_inv Hd.
  destruct (first_byte_ident c Hc) as [H1 H2].
  assert (Forall (λ x, is_ident_cont x = true ∧ fold_char x = x) s) as Hall.
  { apply Forall_forall. intros x Hx. rewrite forallb_forall in Hr.
    destruct (rest_byte_ident x) as (?&?&?); [apply Hr, list_elem_of_In, Hx|split; assumption]. }
  assert (span is_ident_cont (s ++ rest) = (s, rest)) as Hspan.
  { apply span_prefix; [by eapply Forall_impl; [exact Hall|intros ? []]|].
    intros x l E. by destruct (Hd x l E). }
  rewrite Hs. cbn [read_identifier app]. rewrite H2, H1.
  change (c :: s' ++ rest) with ((c :: s') ++ rest). rewrite <- Hs, Hspan.
  assert (fold_char <$> s = s) as ->.
  { rewrite <- (list_fmap_id s) at 2. apply list_fmap_ext. intros i x Hx.
    by eapply Forall_lookup_1 in Hall as [_ ?]. }
  destruct (reserved s) eqn:E; [|done].
  by rewrite (requires_quotes_elem s (reserved_listed s E)) in Hk.
Qed.

Lemma read_escaped s rest :
  s ≠ [] → delimited rest →
  read_identifier reserved (escape_identifier s ++ rest) = Some (s, rest).
Proof.
  intros Hs Hd. unfold escape_identifier. destruct (is_safe_identifier s) eqn:E.
  - by apply read_safe.
  - rewrite <- !app_assoc. simpl.
    rewrite read_quoted_escape; [by destruct s|].
    intros r ->. by destruct (Hd quote r eq_refl).
Qed.

(** A name qualified by a schema reads back as exactly that schema and that
    identifier, whatever characters they contain (quotes, dots, upper case,
    reserved words), and nothing after it is swallowed: no input can end the
    identifier early. *)
Theorem qualified_name_reads_back (schema name rest : str) :
  schema ≠ [] → name ≠ [] → delimited rest →
  read_qualified reserved (schema_identifier (new_schema schema) name ++ rest)
    = Some (schema, name, rest).
Proof.
  intros Hs Hn Hd. unfold read_qualified, schema_identifier. simpl escaped.
  rewrite <- app_assoc, read_escaped; [|done|by intros ? ? [= <- <-]].
  simpl. by rewrite read_escaped.
Qed.
End reading.

(** ** Row decoding *)

Definition opt_cell {T} (f : T → DbCell) (v : option T) : DbCell :=
  match v with Some x => f x | None => CNull end.

(** The columns of a jobs row with the cells of their SQL types. *)
Definition job_cells (j : Job.DbJob) : DbRow :=
  [(lit "id", CI64 (Job.id j));
   (lit "job_queue_id", opt_cell CI32 (Job.job_queue_id j));
   (lit "payload", CJson (Job.payload j));
   (lit "priority", CI16 (Job.priority j));
   (lit "run_at", CTimestampTz (Job.run_at j));
   (lit "attempts", CI16 (Job.attempts j));
   (lit "max_attempts", CI16 (Job.max_attempts j));
   (lit "last_error", opt_cell CText (Job.last_error j));
   (lit "created_at", CTimestampTz (Job.created_at j));
   (lit "updated_at", CTimestampTz (Job.updated_at j));
   (lit "key", opt_cell CText (Job.key j));
   (lit "revision", CI32 (Job.revision j));
   (lit "locked_at", opt_cell CTimestampTz (Job.locked_at j));
   (lit "locked_by", opt_cell CText (Job.locked_by j));
   (lit "flags", opt_cell CJson (Job.flags j));
   (lit "task_id", CI32 (Job.task_id j))].

Lemma try_get_at {T} (D : FromDbCell T) row name cell :
  row_get row name = Some cell → try_get D row name = D name cell.
Proof. intros H. unfold try_get. by rewrite H. Qed.

Lemma row_get_perm row row' name :
  row ≡ₚ row' → NoDup row.*1 → row_get row name = row_get row' name.
Proof.
  intros Hp Hn. unfold row_get.
  assert (∀ r : DbRow, NoDup r.*1 → ∀ c, (λ p, p.2.2) <$> list_find (λ kv, kv.1 = name) r = Some c
    ↔ (name, c) ∈ r) as Hiff.
  { clear. intros r Hn c. split.
    - intros ([i [k x]] & Hf & [= ->])%fmap_Some.
      apply list_find_Some in Hf as (Hi & Hk & _). simpl in *. subst k.
      by eapply list_elem_of_lookup_2.
    - intros Hc. destruct (list_find_elem_of (λ kv : str * DbCell, kv.1 = name) r (name, c) Hc eq_refl)
        as [[i [k x]] Hf]. rewrite Hf; simpl.
      apply list_find_Some in Hf as (Hi & Hk & _). simpl in *. subst k.
      apply list_elem_of_lookup_2 in Hi. f_equal.
      clear -Hn Hi Hc. induction r as [|[k y] r IH]; [by apply not_elem_of_nil in Hc|].
      apply NoDup_cons in Hn as [Hk Hn].
      apply elem_of_cons in Hi as [Ei|Hi]; apply elem_of_cons in Hc as [Ec|Hc];
        [congruence| | |by apply IH];
        destruct Hk; simplify_eq; apply list_elem_of_fmap;
        (eexists; split; [|eassumption]; done). }
  apply option_eq. intros c. rewrite !Hiff; [|by rewrite <- Hp|done]. by rewrite Hp.
Qed.

(** A row holding the columns of a job, in any order and with any further
    columns, decodes to exactly that job: no field is dropped, swapped or
    decoded at the wrong width. *)
Theorem db_job_row_roundtrip (debug_cell : DbCell → str) (j : Job.DbJob) (extra row : DbRow) :
  row ≡ₚ job_cells j ++ extra → NoDup row.*1 →
  db_job_from_row debug_cell row = Ok j.
Proof.
  intros Hp Hn.
  assert (∀ name, row_get row name = row_get (job_cells j ++ extra) name) as Hrow
    by (intros; by apply row_get_perm).
  unfold db_job_from_row.
  repeat (erewrite try_get_at by (rewrite Hrow; vm_compute; reflexivity)).
  destruct j as [? [] ? ? ? ? ? [] ? ? [] ? [] [] [] ?]; vm_compute; reflexivity.
Qed.

(** ** Statement retries *)

Lemma retry_loop_spec {T} (op : nat → result T DbError) n calls r k :
  retry_loop op n calls = (r, k) →
  (calls < k ≤ calls + S n)%nat ∧ r = op (k - 1)%nat ∧
  (∀ i, (calls ≤ i < k - 1)%nat → ∃ e, op i = Err e ∧ is_Some (backoff e)) ∧
  ((k < calls + S n)%nat → ∀ e, r = Err e → backoff e = None).
Proof.
  revert calls. induction n as [|n IH]; intros calls; simpl.
  - intros [= <- <-]. replace (S calls - 1)%nat with calls by lia. split_and!; [lia|lia|done|intros; lia|intros; lia].
  - destruct (op calls) as [v|e] eqn:E.
    + intros [= <- <-]. replace (S calls - 1)%nat with calls by lia.
      split_and!; [lia|lia|done|intros; lia|done].
    + destruct (backoff e) as [d|] eqn:Eb.
      * intros (Hk & -> & Hall & Hlt)%IH. split_and!; [lia|lia|done| |].
        -- intros i Hi. destruct (decide (i = calls)) as [->|]; [eauto|apply Hall; lia].
        -- intros. apply Hlt; [lia|done].
      * intros [= <- <-]. replace (S calls - 1)%nat with calls by lia.
        split_and!; [lia|lia|done|intros; lia|by intros _ ? [= ->]].
Qed.

(** A retried statement is executed at least once and at most
    [max_attempts] times; the answer is the one of the last execution; every
    earlier execution failed with an error that is safe to replay
    (serialization failure, deadlock, server starting up, or a connection
    that failed before the statement was sent); and it stops before the limit
    only on success or on an error that is not safe to replay. *)
Theorem retry_replays_only_safe_errors {T} (max_attempts : nat)
    (op : nat → result T DbError) (r : result T DbError) (k : nat) :
  (1 ≤ max_attempts)%nat → retry_run max_attempts op = (r, k) →
  (1 ≤ k ≤ max_attempts)%nat ∧ r = op (k - 1)%nat ∧
  (∀ i, (i < k - 1)%nat → ∃ e, op i = Err e ∧
     (code e = Some (lit "40001") ∨ code e = Some (lit "40P01") ∨
      code e = Some (lit "57P03") ∨ connection_failure e = true)) ∧
  ((k < max_attempts)%nat → ∀ e, r = Err e → backoff e = None).
Proof.
  intros Hm (Hk & Hr & Hall & Hlt)%retry_loop_spec.
  split_and!; [lia|lia|done| |intros; apply Hlt; [lia|done]].
  intros i Hi. destruct (Hall i) as (e & He & d & Hd); [lia|]. exists e. split; [done|].
  unfold backoff in Hd. destruct (code e) as [c|]; [|done].
  case_bool_decide as H1; [naive_solver|]. case_bool_decide as H2; [naive_solver|].
  destruct (connection_failure e); [tauto|]. by rewrite andb_false_r in Hd.
Qed.

(** ** Witnesses *)

Lemma qualified_name_reads_back_witness :
  read_qualified (λ k, bool_decide (k = lit "select"))
    (schema_identifier (new_schema (lit "we.ird") ) (lit "select") ++ lit " as jobs")
  = Some (lit "we.ird", lit "select", lit " as jobs").
Proof.
  apply (qualified_name_reads_back (λ k, bool_decide (k = lit "select"))).
  - intros k Hk%bool_decide_eq_true. subst k. apply (bool_decide_unpack _). by vm_compute.
  - discriminate.
  - discriminate.
  - intros c r [= <- <-]. split; [reflexivity|discriminate].
Defined.

Definition sample_job : Job.DbJob :=
  Job.mkDbJob 7 (Some 3) (Job.Object []) (-1) 1000 1 25 None 900 950 (Some (lit "k")) 0
    (Some 1000) (Some (lit "worker")) None 4.

Lemma db_job_row_roundtrip_witness :
  db_job_from_row (λ _, []) (reverse (job_cells sample_job ++ [(lit "is_available", CBool false)]))
  = Ok sample_job.
Proof.
  apply (db_job_row_roundtrip (λ _, []) sample_job [(lit "is_available", CBool false)]).
  - apply reverse_Permutation.
  - apply (bool_decide_unpack _). by vm_compute.
Defined.

Definition serialization_failure : DbError := with_code (lit "could not serialize") (lit "40001").

Lemma retry_replays_only_safe_errors_witness :
  (λ i, if (i <? 2)%nat then Err serialization_failure else @Ok Z DbError 5) 0%nat
    = Err serialization_failure ∧ (1 ≤ 3 ≤ 4)%nat.
Proof.
  destruct (retry_replays_only_safe_errors 4
    (λ i, if (i <? 2)%nat then Err serialization_failure else @Ok Z DbError 5) (Ok 5) 3)
    as (H & _); [lia|reflexivity|]. split; [reflexivity|exact H].
Defined.

End Database.
