(* ===== verification/Tls.v ===== *)
(** * Transport security and connecting (crates/graphile-worker-postgres-tls,
    crates/graphile-worker-database/src/tokio_postgres/mod.rs)

    Which connector a build uses, which certificates it trusts, and how the
    connector reaches both the pool and the listener of a database.  The file
    system, the PEM reader and the TLS libraries are parameters: the answers
    they give. *)

From S2P Require Import Prelude Job Database.
Open Scope Z_scope.

Module Tls.
Import Database.

(** The cargo features of the build. *)
Record Features := mkFeatures { tls_native_tls : bool; tls_rustls : bool }.

Abbreviation Certificate := (list Z).

(** A connector: the certificates it trusts, or none needed. *)
Inductive Connector :=
| NativeTls (roots : list Certificate)
| Rustls (roots : list Certificate)
| NoTls.

(** The errors; those of the libraries are their text. *)
Inductive Error := ReadRoots (e : str) | EmptyRoots | LibraryError (e : str).

Definition display (e : Error) : str :=
  match e with
  | ReadRoots e => lit "could not read PGSSLROOTCERT: " ++ e
  | EmptyRoots => lit "PGSSLROOTCERT contains no PEM certificates"
  | LibraryError e => e
  end.

(** What the code calls. *)
Record Libraries := mkLibraries {
  read_file : str → result (list Z) str;                    (* std::fs::read *)
  pem_certs : list Z → list (result Certificate str);       (* rustls_pemfile::certs *)
  platform_roots : list Certificate;                        (* of native TLS *)
  webpki_roots : list Certificate;                          (* TLS_SERVER_ROOTS *)
  accepts : Certificate → result unit str;                  (* from_der, RootCertStore::add *)
  builds : result unit str                                  (* building the connector *)
}.

Section tls.
Context (L : Libraries).

(** [collect] of results: the first error, or all. *)
Fixpoint collect {A E} (l : list (result A E)) : result (list A) E :=
  match l with [] => Ok [] | x :: l => let? a := x in let? r := collect l in Ok (a :: r) end.

Definition extra_root_certs (root_cert : option str) : result (list Certificate) Error :=
  match root_cert with
  | None => Ok []
  | Some path =>
      if is_empty path || bool_decide (path = lit "system") then Ok []
      else
        let? pem := map_err ReadRoots (read_file L path) in
        let? certs := map_err ReadRoots (collect (pem_certs L pem)) in
        if is_empty certs then Err EmptyRoots else Ok certs
  end.

(** The loop that adds the certificates to the trusted ones. *)
Fixpoint add_roots (roots certs : list Certificate) : result (list Certificate) Error :=
  match certs with
  | [] => Ok roots
  | c :: certs => let? _ := map_err LibraryError (accepts L c) in add_roots (roots ++ [c]) certs
  end.

Definition native_connector (root_cert : option str) : result Connector Error :=
  let? certs := extra_root_certs root_cert in
  let? roots := add_roots (platform_roots L) certs in
  let? _ := map_err LibraryError (builds L) in Ok (NativeTls roots).

Definition rustls_connector (root_cert : option str) : result Connector Error :=
  let? certs := extra_root_certs root_cert in
  let? roots := add_roots (webpki_roots L) certs in
  let? _ := map_err LibraryError (builds L) in Ok (Rustls roots).

(** [connector]: native TLS takes precedence. *)
Definition connector (f : Features) (root_cert : option str) : result Connector Error :=
  if tls_native_tls f then native_connector root_cert
  else if tls_rustls f then rustls_connector root_cert
  else Ok NoTls.

(** ** tokio_postgres/mod.rs *)

(** The configuration is tokio-postgres's; a pool connects with one
    configuration and one connector, up to a number of connections. *)
Context {Config : Type}.
Record ListenerConfig := mkListenerConfig { lc_config : Config; lc_tls : Connector }.
Record PoolConfig := mkPoolConfig { pc_config : Config; pc_tls : Connector; pc_max_size : Z }.
Record Tokio := mkTokio { t_pool : PoolConfig; listener_config : option ListenerConfig }.

(** [pool_builds] is the answer of deadpool's [build], [env] the value of
    [PGSSLROOTCERT]. *)
Definition from_config (f : Features) (env : option str) (pool_builds : result unit str) (config : Config) (max_size : Z) :
    result Tokio DbError :=
  let? tls := map_err (λ e, new_error (display e)) (connector f env) in
  let? _ := map_err new_error pool_builds in
  Ok (mkTokio (mkPoolConfig config tls max_size) (Some (mkListenerConfig config tls))).

Definition from_url (parse : str → result Config str) (f : Features) (env : option str) (pool_builds : result unit str)
    (url : str) (max_size : Z) : result Tokio DbError :=
  let? config := map_err new_error (parse url) in
  from_config f env pool_builds config max_size.

(** ** Facts *)

Lemma add_roots_spec roots certs r :
  add_roots roots certs = Ok r ↔ r = roots ++ certs ∧ Forall (λ c, accepts L c = Ok ()) certs.
Proof.
  revert roots. induction certs as [|c certs IH]; intros roots; cbn.
  { rewrite app_nil_r. split; [intros [= <-]; by split|by intros [-> _]]. }
  destruct (accepts L c) as [[]|e] eqn:E; cbn.
  - rewrite IH, <- app_assoc. cbn. split; intros [-> H]; (split; [done|]); [by constructor|by inversion H].
  - split; [done|]. intros [_ H]. inversion H. congruence.
Qed.

Lemma collect_spec {A E} (l : list (result A E)) r : collect l = Ok r ↔ l = Ok <$> r.
Proof.
  revert r. induction l as [|x l IH]; intros r; cbn.
  { split; [by intros [= <-]|]. by destruct r. }
  destruct x as [a|e]; cbn.
  - destruct (collect l) as [r'|e] eqn:E'; cbn.
    + split; [intros [= <-]; cbn; f_equal; by apply IH|]. intros H. destruct r as [|b r]; [done|].
      injection H as -> Hr. apply IH in Hr. congruence.
    + split; [done|]. intros H. destruct r as [|b r]; [done|]. injection H as _ Hr. by apply IH in Hr.
  - split; [done|]. by destruct r.
Qed.

(** The certificates of a setting, when it can be read. *)
Definition named_certs (env : option str) (certs : list Certificate) : Prop :=
  match env with
  | None => certs = []
  | Some path =>
      if is_empty path || bool_decide (path = lit "system") then certs = []
      else certs ≠ [] ∧ ∃ pem, read_file L path = Ok pem ∧ pem_certs L pem = Ok <$> certs
  end.

Lemma extra_root_certs_spec env certs : extra_root_certs env = Ok certs ↔ named_certs env certs.
Proof.
  unfold extra_root_certs, named_certs. destruct env as [path|]; [|split; [by intros [= <-]|by intros ->]].
  destruct (is_empty path || _); [split; [by intros [= <-]|by intros ->]|].
  destruct (read_file L path) as [pem|e]; cbn; [|split; [done|by intros (_ & ? & ? & _)]].
  destruct (collect (pem_certs L pem)) as [cs|e] eqn:E; cbn.
  - assert (pem_certs L pem = Ok <$> cs) as Hp by (by apply collect_spec). destruct cs as [|c cs]; cbn.
    + split; [done|]. intros (Hne & pem' & [= <-] & H). rewrite Hp in H. by destruct certs.
    + split; [intros [= <-]; split; [done|]; by exists pem|]. intros (Hne & pem' & [= <-] & H).
      apply collect_spec in H. congruence.
  - split; [done|]. intros (_ & pem' & [= <-] & H). apply collect_spec in H. congruence.
Qed.

(** A database that was configured trusts exactly what was asked for, on every
    connection.  The pool and the listener use the configuration of the caller
    with one and the same connector; it encrypts if and only if a TLS feature is
    on; it trusts the default roots of the selected library and exactly the
    certificates of the named file, every one of them, and a named file that
    cannot be read, parsed or holds no certificate is an error, never a
    connection without it. *)
Theorem connections_trust_as_configured (f : Features) (env : option str) (pool_builds : result unit str) (config : Config)
    (max_size : Z) (db : Tokio) : from_config f env pool_builds config max_size = Ok db →
  ∃ tls, t_pool db = mkPoolConfig config tls max_size ∧ listener_config db = Some (mkListenerConfig config tls) ∧
    match tls with
    | NativeTls roots => tls_native_tls f = true ∧ ∃ certs, named_certs env certs ∧ roots = platform_roots L ++ certs
    | Rustls roots => tls_native_tls f = false ∧ tls_rustls f = true ∧
                      ∃ certs, named_certs env certs ∧ roots = webpki_roots L ++ certs
    | NoTls => tls_native_tls f = false ∧ tls_rustls f = false
    end.
Proof.
  unfold from_config, connector, native_connector, rustls_connector.
  destruct (tls_native_tls f), (tls_rustls f); cbn.
  4: { destruct pool_builds; cbn; [|done]. intros [= <-]. by exists NoTls. }
  all: destruct (extra_root_certs env) as [certs|] eqn:Ec; cbn; [|done]; apply extra_root_certs_spec in Ec;
    destruct (add_roots _ certs) as [roots|] eqn:Er; cbn; [|done]; apply add_roots_spec in Er as [-> _];
    destruct (builds L), pool_builds; cbn; try done; intros [= <-]; eexists; (split; [done|]; split; [done|]); naive_solver.
Qed.
End tls.

(** A file with one certificate. *)
Definition demo_libraries : Libraries :=
  mkLibraries (λ p, if bool_decide (p = lit "/ca.pem") then Ok [1] else Err (lit "no such file")) (λ _, [Ok [7]]) [[1]] [[2]]
    (λ _, Ok ()) (Ok ()).

Lemma connections_trust_as_configured_witness :
  ∃ db, from_config demo_libraries (mkFeatures false true) (Some (lit "/ca.pem")) (Ok ()) (lit "host=db") 5 = Ok db ∧
    pc_tls (t_pool db) = Rustls [[2]; [7]] ∧
    ∃ tls, t_pool db = mkPoolConfig (lit "host=db") tls 5 ∧ listener_config db = Some (mkListenerConfig (lit "host=db") tls).
Proof.
  eexists. split; [vm_compute; reflexivity|]. split; [reflexivity|].
  destruct (connections_trust_as_configured demo_libraries (mkFeatures false true) (Some (lit "/ca.pem")) (Ok ())
    (lit "host=db") 5 _ eq_refl) as (tls & H1 & H2 & _). by exists tls.
Defined.
End Tls.
