(* ===== verification/Extensions.v ===== *)
(** * Extensions (crates/graphile-worker-extensions)

    The map, indexed by type, of the values an application gives its worker.  A
    type is a code of a universe: [interp] is the type a code stands for, and two codes are equal
    exactly when [TypeId::of] is.  A boxed [dyn AnyClone] is a value with its
    code, so that [downcast] is the checked cast of the code, and a place where
    the source unwraps a cast is a place where the model may panic. *)

From S2P Require Import Prelude.
From Stdlib Require Import Eqdep_dec.
Open Scope Z_scope.

Module Extensions.

Section extensions.
Context {TypeId : Type} `{Countable TypeId} (interp : TypeId → Type).

(** ** any_clone.rs, map.rs *)

Definition Boxed : Type := { T : TypeId & interp T }.
Definition boxed {T} (v : interp T) : Boxed := existT T v.

Definition downcast (T : TypeId) (b : Boxed) : option (interp T) :=
  match decide (projT1 b = T) with
  | left e => Some (eq_rect _ interp (projT2 b) _ e)
  | right _ => None
  end.

(** [Clone] of a box, by the clone of its type. *)
Definition clone_box (clone : ∀ T, interp T → interp T) (b : Boxed) : Boxed :=
  boxed (clone (projT1 b) (projT2 b)).

Abbreviation AnyMap := (gmap TypeId Boxed).

(** ** extensions/mod.rs *)

(** No map until something is inserted. *)
Record Extensions := mkExtensions { ext_map : option AnyMap }.

Definition new : Extensions := mkExtensions None.

(** [derive(Clone)]. *)
Definition clone (c : ∀ T, interp T → interp T) (self : Extensions) : Extensions :=
  mkExtensions (fmap (M := gmap TypeId) (clone_box c) <$> ext_map self).

(** ** extensions/access.rs *)

Definition get (T : TypeId) (self : Extensions) : option (interp T) :=
  m ← ext_map self; b ← m !! T; downcast T b.

Definition is_empty (self : Extensions) : bool :=
  match ext_map self with None => true | Some m => bool_decide (m = ∅) end.

Definition len (self : Extensions) : nat :=
  match ext_map self with None => O | Some m => size m end.

(** ** extensions/mutation.rs *)

Definition the_map (self : Extensions) : AnyMap := default ∅ (ext_map self).

Definition insert (T : TypeId) (v : interp T) (self : Extensions) : Extensions * option (interp T) :=
  let m := the_map self in
  (mkExtensions (Some (<[T := boxed v]> m)), b ← m !! T; downcast T b).

(** A mutable borrow is the value and what becomes of the extensions when
    another one is written through it. *)
Definition get_mut (T : TypeId) (self : Extensions) : option (interp T * (interp T → Extensions)) :=
  m ← ext_map self; b ← m !! T; v ← downcast T b;
  Some (v, λ v', mkExtensions (Some (<[T := boxed v']> m))).

(** [None]: the cast is unwrapped and panics. *)
Definition get_or_insert_with (T : TypeId) (f : unit → interp T) (self : Extensions) :
    option (interp T * (interp T → Extensions)) :=
  let m := the_map self in
  v ← downcast T (default (boxed (f ())) (m !! T));
  Some (v, λ v', mkExtensions (Some (<[T := boxed v']> m))).

Definition get_or_insert (T : TypeId) (value : interp T) : Extensions → option (interp T * (interp T → Extensions)) :=
  get_or_insert_with T (λ _, value).

Definition get_or_insert_default (default_of : ∀ T, interp T) (T : TypeId) :
    Extensions → option (interp T * (interp T → Extensions)) :=
  get_or_insert_with T (λ _, default_of T).

Definition remove (T : TypeId) (self : Extensions) : Extensions * option (interp T) :=
  match ext_map self with
  | None => (self, None)
  | Some m => (mkExtensions (Some (delete T m)), b ← m !! T; downcast T b)
  end.

Definition clear (self : Extensions) : Extensions :=
  match ext_map self with None => self | Some _ => mkExtensions (Some ∅) end.

(** [HashMap::extend]: the entries of [other] replace those of [self]. *)
Definition extend (other self : Extensions) : Extensions :=
  match ext_map other with
  | None => self
  | Some o =>
      match ext_map self with
      | Some m => mkExtensions (Some (o ∪ m))
      | None => mkExtensions (Some o)
      end
  end.

(** ** read_only.rs *)

Record ReadOnlyExtensions := mkReadOnly { shared : Extensions }.
Definition read_only_new (ext : Extensions) : ReadOnlyExtensions := mkReadOnly ext.
Definition read_only_get (T : TypeId) (self : ReadOnlyExtensions) : option (interp T) := get T (shared self).
Definition read_only_len (self : ReadOnlyExtensions) : nat := len (shared self).
Definition read_only_is_empty (self : ReadOnlyExtensions) : bool := is_empty (shared self).

(** ** Calls

    What a program can do with extensions it holds, with the value a call
    gives back: a borrow is used to write once. *)

Inductive Call :=
| Insert (T : TypeId) (v : interp T)
| GetMut (T : TypeId) (f : interp T → interp T)
| GetOrInsert (T : TypeId) (v : interp T) (f : interp T → interp T)
| Remove (T : TypeId)
| Clear.

Definition write {T} (f : interp T → interp T) (b : interp T * (interp T → Extensions)) : Extensions := b.2 (f b.1).

(** [None] when the call panics. *)
Definition exec (c : Call) (e : Extensions) : option (Extensions * option Boxed) :=
  match c with
  | Insert T v => let '(e', old) := insert T v e in Some (e', boxed <$> old)
  | GetMut T f =>
      match get_mut T e with
      | Some b => Some (write f b, Some (boxed b.1))
      | None => Some (e, None)
      end
  | GetOrInsert T v f => b ← get_or_insert T v e; Some (write f b, Some (boxed b.1))
  | Remove T => let '(e', old) := remove T e in Some (e', boxed <$> old)
  | Clear => Some (clear e, None)
  end.

(** Extensions a program can come by. *)
Inductive reachable : Extensions → Prop :=
| reach_new : reachable new
| reach_call c e e' a : reachable e → exec c e = Some (e', a) → reachable e'
| reach_extend e o : reachable e → reachable o → reachable (extend o e)
| reach_clone f e : reachable e → reachable (clone f e).

(** ** The specification: one optional value per type *)

Definition View : Type := ∀ T, option (interp T).

(** The view with [T]'s value replaced. *)
Definition update (T : TypeId) (v : option (interp T)) (s : View) : View := λ T',
  match decide (T = T') with left e => eq_rect _ (λ T, option (interp T)) v _ e | right _ => s T' end.

Definition spec (c : Call) (s : View) : View * option Boxed :=
  match c with
  | Insert T v => (update T (Some v) s, boxed <$> s T)
  | GetMut T f => (update T (f <$> s T) s, boxed <$> s T)
  | GetOrInsert T v f => let old := default v (s T) in (update T (Some (f old)) s, Some (boxed old))
  | Remove T => (update T None s, boxed <$> s T)
  | Clear => (λ _, None, None)
  end.

Definition view (e : Extensions) : View := λ T, get T e.

(** ** Boxes are stored under their own type *)

Definition tagged (m : AnyMap) : Prop := ∀ T b, m !! T = Some b → projT1 b = T.
Definition wf (e : Extensions) : Prop := tagged (the_map e).

Lemma downcast_boxed T (v : interp T) : downcast T (boxed v) = Some v.
Proof.
  unfold downcast. cbn. destruct (decide (T = T)) as [e|]; [|done].
  by rewrite (UIP_dec (λ x y, decide (x = y)) e eq_refl).
Qed.

Lemma tagged_boxed m T b : tagged m → m !! T = Some b → ∃ v : interp T, b = boxed v.
Proof. intros Hm Hb. specialize (Hm T b Hb). destruct b as [T' v]. cbn in Hm. subst. by exists v. Qed.

Lemma tagged_insert m T (v : interp T) : tagged m → tagged (<[T := boxed v]> m).
Proof. intros Hm T' b. rewrite lookup_insert_Some. intros [[<- <-]|[_ Hb]]; [done|by apply Hm]. Qed.

Lemma tagged_union m o : tagged m → tagged o → tagged (o ∪ m).
Proof. intros Hm Ho T b [Hb|[_ Hb]]%lookup_union_Some_raw; [by apply Ho|by apply Hm]. Qed.

Lemma tagged_delete m T : tagged m → tagged (delete T m).
Proof. intros Hm T' b [_ Hb]%lookup_delete_Some. by apply Hm. Qed.

Lemma get_the_map T e : get T e = b ← the_map e !! T; downcast T b.
Proof. destruct e as [[m|]]; cbn; [done|]. by rewrite lookup_empty. Qed.

(** What a map of boxes holds under a type. *)
Definition entry (m : AnyMap) (T : TypeId) : option (interp T) := b ← m !! T; downcast T b.

Lemma entry_insert m T (v : interp T) T' : entry (<[T := boxed v]> m) T' = update T (Some v) (entry m) T'.
Proof.
  unfold entry, update. destruct (decide (T = T')) as [<-|].
  - rewrite lookup_insert_eq. cbn. apply downcast_boxed.
  - by rewrite lookup_insert_ne by done.
Qed.

Lemma entry_delete m T T' : entry (delete T m) T' = update T None (entry m) T'.
Proof.
  unfold entry, update. destruct (decide (T = T')) as [<-|].
  - by rewrite lookup_delete_eq.
  - by rewrite lookup_delete_ne by done.
Qed.

Lemma update_same T (s : View) T' : update T (s T) s T' = s T'.
Proof. unfold update. by destruct (decide (T = T')) as [<-|]. Qed.

Lemma view_entry e T : view e T = entry (the_map e) T.
Proof. apply get_the_map. Qed.

Lemma update_ext T v (s s' : View) : (∀ U, s U = s' U) → ∀ U, update T v s U = update T v s' U.
Proof. intros Hs U. unfold update. by destruct (decide (T = U)). Qed.

(** One call against the specification. *)
Lemma exec_spec c e : wf e → ∃ e', exec c e = Some (e', (spec c (view e)).2) ∧ wf e' ∧
  ∀ T, view e' T = (spec c (view e)).1 T.
Proof.
  intros He. pose proof (view_entry e) as Hv.
  assert (∀ T v, (∀ U, entry (<[T := boxed v]> (the_map e)) U = update T (Some v) (view e) U)) as Hins.
  { intros T v U. rewrite entry_insert. apply update_ext. done. }
  destruct c as [T v|T f|T v f|T|]; cbn [exec spec fst snd].
  - eexists. split; [unfold insert; by rewrite (Hv T)|]. split; [by apply tagged_insert|]. apply Hins.
  - rewrite (Hv T). unfold entry. destruct e as [[m|]]; cbn.
    + destruct (m !! T) as [b|] eqn:E; cbn; [destruct (tagged_boxed m T b He E) as [v ->]|].
      * rewrite downcast_boxed. cbn. eexists. split; [done|]. split; [by apply tagged_insert|]. apply (Hins T).
      * eexists. split; [done|]. split; [done|]. intros U.
        rewrite <- (update_same T (view _)). f_equal. rewrite Hv. unfold entry. cbn. by rewrite E.
    + rewrite lookup_empty. cbn. eexists. split; [done|]. split; [done|]. intros U.
      by rewrite <- (update_same T (view _)).
  - unfold get_or_insert, get_or_insert_with. rewrite (Hv T). unfold entry.
    destruct (the_map e !! T) as [b|] eqn:E; cbn; [destruct (tagged_boxed _ T b He E) as [x ->]|];
      rewrite downcast_boxed; cbn; eexists; (split; [done|]); (split; [by apply tagged_insert|]); apply (Hins T).
  - unfold remove. rewrite (Hv T). unfold entry. destruct e as [[m|]]; cbn.
    + eexists. split; [done|]. split; [by apply tagged_delete|]. intros U.
      rewrite view_entry. cbn. rewrite entry_delete. apply update_ext. intros. by rewrite Hv.
    + eexists. rewrite lookup_empty. split; [done|]. split; [done|]. intros U.
      by rewrite <- (update_same T (view _)).
  - eexists. split; [done|]. unfold wf, clear. destruct e as [[m|]]; [|done]. cbn.
    split; [by intros T b; rewrite lookup_empty|done].
Qed.

Lemma wf_extend e o : wf e → wf o → wf (extend o e).
Proof.
  unfold wf, extend. destruct e as [[m|]], o as [[o|]]; cbn; try done. intros. by apply tagged_union.
Qed.

Lemma wf_clone f e : wf e → wf (clone f e).
Proof.
  unfold wf, clone. destruct e as [[m|]]; cbn; [|done]. intros Hm T b.
  rewrite lookup_fmap_Some. intros (b' & <- & Hb). cbn. by apply Hm.
Qed.

Lemma reachable_wf e : reachable e → wf e.
Proof.
  induction 1 as [|c e e' a _ IH Hc|e o _ IHe _ IHo|f e _ IH].
  - intros T b. cbn. by rewrite lookup_empty.
  - destruct (exec_spec c e IH) as (e1 & Hc1 & Hw & _). rewrite Hc1 in Hc. by simplify_eq.
  - by apply wf_extend.
  - by apply wf_clone.
Qed.

Lemma view_extend e o T : wf o →
  view (extend o e) T = match view o T with Some v => Some v | None => view e T end.
Proof.
  intros Ho. rewrite !view_entry. unfold extend. destruct o as [[o|]]; cbn.
  - assert (∀ m : AnyMap, entry (o ∪ m) T = match entry o T with Some v => Some v | None => entry m T end) as Hu.
    { intros m. unfold entry. destruct (o !! T) as [b|] eqn:E; cbn.
      - destruct (tagged_boxed o T b Ho E) as [v ->].
        rewrite (lookup_union_Some_l _ _ _ _ E). cbn. by rewrite downcast_boxed.
      - by rewrite lookup_union_r. }
    destruct e as [[m|]]; cbn; [apply Hu|]. unfold entry at 3. rewrite lookup_empty. cbn. by destruct (entry o T).
  - unfold entry at 2. by rewrite lookup_empty.
Qed.

Lemma view_clone f e T : wf e → view (clone f e) T = f T <$> view e T.
Proof.
  intros He. rewrite !view_entry. unfold entry, clone. destruct e as [[m|]]; cbn; [|by rewrite lookup_empty].
  rewrite lookup_fmap. destruct (m !! T) as [b|] eqn:E; cbn; [|done].
  destruct (tagged_boxed m T b He E) as [v ->]. unfold clone_box. cbn. by rewrite !downcast_boxed.
Qed.

(** Whatever a program has done with its extensions, no call panics: the
    casts the code unwraps succeed, because every box lies under its own type.
    Each call answers, and leaves for every type, what a map with one optional
    value per type would; extending prefers the new values, a clone holds the
    clones, and the length counts the types that have a value. *)
Theorem extensions_refine e o c f : reachable e → reachable o →
  (∃ e', exec c e = Some (e', (spec c (view e)).2) ∧ ∀ T, view e' T = (spec c (view e)).1 T) ∧
  (∀ T, view (extend o e) T = match view o T with Some v => Some v | None => view e T end) ∧
  (∀ T, view (clone f e) T = f T <$> view e T) ∧
  (is_empty e = true ↔ ∀ T, view e T = None) ∧
  (∀ Ts, NoDup Ts → (∀ T, T ∈ Ts ↔ is_Some (view e T)) → len e = length Ts).
Proof.
  intros He%reachable_wf Ho%reachable_wf.
  assert (∀ T, is_Some (view e T) ↔ is_Some (the_map e !! T)) as Hdom.
  { intros T. rewrite view_entry. unfold entry. destruct (the_map e !! T) as [b|] eqn:E; cbn; [|done].
    destruct (tagged_boxed _ T b He E) as [v ->]. rewrite downcast_boxed. naive_solver. }
  split_and!.
  - destruct (exec_spec c e He) as (e' & ? & _ & ?). eauto.
  - intros. by apply view_extend.
  - intros. by apply view_clone.
  - trans (the_map e = ∅).
    + unfold is_empty. destruct e as [[m|]]; cbn; [apply bool_decide_eq_true|done].
    + rewrite map_empty. apply forall_proper. intros T. rewrite !eq_None_not_Some. by rewrite Hdom.
  - intros Ts Hnd HTs. trans (size (dom (the_map e))).
    + rewrite size_dom. unfold len. by destruct e as [[m|]].
    + rewrite <- (size_list_to_set (C := gset TypeId) Ts Hnd). f_equal. apply set_eq. intros T.
      by rewrite elem_of_dom, elem_of_list_to_set, HTs, Hdom.
Qed.

End extensions.

(** ** Examples *)

(** Two types: a flag and a name. *)
Definition demo_interp (T : bool) : Type := if T then bool else str.
(** A flag is inserted; asking for a name with a default stores and returns it. *)
Definition demo_extensions : Extensions demo_interp :=
  (insert demo_interp true true (new demo_interp)).1.

Lemma extensions_refine_witness :
  ∃ e', exec demo_interp (GetOrInsert demo_interp false (lit "a") (app (lit "b"))) demo_extensions =
          Some (e', Some (existT false (lit "a"))) ∧
        get demo_interp false e' = Some (lit "ba") ∧ get demo_interp true e' = Some true ∧
        len demo_interp demo_extensions = 1%nat.
Proof.
  assert (reachable demo_interp demo_extensions) as Hr.
  { by eapply (reach_call demo_interp (Insert demo_interp true true)),
      eq_refl; apply reach_new. }
  destruct (extensions_refine demo_interp demo_extensions demo_extensions
    (GetOrInsert demo_interp false (lit "a") (app (lit "b"))) (λ _ v, v) Hr Hr)
    as ((e' & He & Hv) & _ & _ & _ & Hl).
  exists e'. split_and!; [done|exact (Hv false)|exact (Hv true)|].
  apply (Hl [true]); [apply NoDup_singleton|]. intros [|]; vm_compute; split; intros Hx;
    [by eexists|constructor|by inversion Hx as [|? ? ? Hy]; inversion Hy|by inversion Hx].
Defined.

End Extensions.
