(* ===== verification/HookRegistry.v ===== *)
(** * The registry of hooks (crates/graphile-worker-lifecycle-hooks/src/erased.rs,
    registry.rs, plugin.rs, events/observer.rs)

    Handlers are kept in one map from event types to vectors whose type is
    erased.  An event is a code of a universe with the types of its context and
    its answer; the vectors are boxes of [Extensions], so that a wrong cast is
    the panic of [expect].  Hooks.v says what interceptors do with the handlers
    they are given; here are the handlers they are given, and the observers. *)

From S2P Require Import Prelude Extensions.

Module HookRegistry.

(** What a handler does with its context: it answers, or panics. *)
Inductive Outcome (A : Type) := Answered (a : A) | Panicked (message : option str).
Arguments Answered {A} a.
Arguments Panicked {A} message.

Section registry.
Context {Event : Type} `{Countable Event} (Context_of Output_of : Event → Type).

Definition Handler (E : Event) : Type := Context_of E → Outcome (Output_of E).
Definition HandlerVec (E : Event) : Type := list (Handler E).

(** ** erased.rs *)

Record TypeErasedHooks := mkHooks { handlers : gmap Event (Extensions.Boxed HandlerVec) }.
Definition default_hooks : TypeErasedHooks := mkHooks ∅.

Definition hooks_empty (self : TypeErasedHooks) : bool := bool_decide (handlers self = ∅).

Definition get_handlers (E : Event) (self : TypeErasedHooks) : option (HandlerVec E) :=
  b ← handlers self !! E; Extensions.downcast HandlerVec E b.

(** The vector and what the registry becomes when it is changed; [None]:
    "Handler type mismatch". *)
Definition get_handlers_mut (E : Event) (self : TypeErasedHooks) :
    option (HandlerVec E * (HandlerVec E → TypeErasedHooks)) :=
  hs ← Extensions.downcast HandlerVec E (default (Extensions.boxed HandlerVec (T := E) []) (handlers self !! E));
  Some (hs, λ hs', mkHooks (<[E := Extensions.boxed HandlerVec hs']> (handlers self))).

(** ** registry.rs, plugin.rs *)

(** [register_boxed] of an event. *)
Definition on (E : Event) (h : Handler E) (self : TypeErasedHooks) : option TypeErasedHooks :=
  '(hs, put) ← get_handlers_mut E self; Some (put (hs ++ [h])).

(** A plugin registers handlers of its own. *)
Definition Registration : Type := { E : Event & Handler E }.
Fixpoint register_all (rs : list Registration) (self : TypeErasedHooks) : option TypeErasedHooks :=
  match rs with
  | [] => Some self
  | existT E h :: rs => self ← on E h self; register_all rs self
  end.
Definition with_plugin (plugin : list Registration) (self : TypeErasedHooks) : option TypeErasedHooks :=
  register_all plugin self.

(** ** events/observer.rs *)

(** The handlers run side by side; a panic of one is caught and logged. *)
Definition observe {E} (ctx : Context_of E) (h : Handler E) : option (option str) :=
  match h ctx with Answered _ => None | Panicked m => Some m end.

Definition emit_to {E} (ctx : Context_of E) (self : TypeErasedHooks) : list (option (option str)) :=
  match get_handlers E self with Some hs => observe ctx <$> hs | None => [] end.

(** What each handler of the event did: nothing to report, or a logged panic. *)
Definition emit {E} (ctx : Context_of E) (self : TypeErasedHooks) : list (option (option str)) :=
  if hooks_empty self then [] else emit_to ctx self.

(** ** The handlers of an event *)

(** Those registered for it, in order. *)
Fixpoint registered (E : Event) (rs : list Registration) : HandlerVec E :=
  match rs with
  | [] => []
  | existT E' h :: rs =>
      match decide (E' = E) with
      | left e => eq_rect _ Handler h _ e :: registered E rs
      | right _ => registered E rs
      end
  end.

(** Registering adds to what is there. *)
Definition extended {E} (old : option (HandlerVec E)) (more : HandlerVec E) : option (HandlerVec E) :=
  match more with [] => old | _ => Some (default [] old ++ more) end.

Definition erased_ok (self : TypeErasedHooks) : Prop := Extensions.tagged HandlerVec (handlers self).

Lemma get_handlers_entry E self : get_handlers E self = Extensions.entry HandlerVec (handlers self) E.
Proof. done. Qed.

Lemma on_spec E h self : erased_ok self → ∃ self', on E h self = Some self' ∧ erased_ok self' ∧
  ∀ E', get_handlers E' self' = extended (get_handlers E' self) (registered E' [existT E h]).
Proof.
  intros Hok. unfold on, get_handlers_mut.
  assert (∃ hs, Extensions.downcast HandlerVec E (default (Extensions.boxed HandlerVec (T := E) []) (handlers self !! E)) = Some hs ∧
    default [] (get_handlers E self) = hs) as (hs & Hd & Hhs).
  { unfold get_handlers. destruct (handlers self !! E) as [b|] eqn:Eb; cbn.
    - destruct (Extensions.tagged_boxed _ _ _ _ Hok Eb) as [v ->]. rewrite Extensions.downcast_boxed. by exists v.
    - rewrite Extensions.downcast_boxed. by exists []. }
  rewrite Hd. cbn. eexists. split; [done|]. split; [by apply Extensions.tagged_insert|].
  intros E'. rewrite !get_handlers_entry. cbn. rewrite Extensions.entry_insert. unfold Extensions.update.
  destruct (decide (E = E')) as [<-|]; cbn; [|done]. by rewrite <- Hhs.
Qed.

Lemma extended_extended {E} (old : option (HandlerVec E)) m1 m2 :
  extended (extended old m1) m2 = extended old (m1 ++ m2).
Proof.
  destruct m1 as [|h1 m1], m2 as [|h2 m2]; cbn; rewrite ?app_nil_r; try done. by rewrite <- (assoc_L (++)).
Qed.

Lemma registered_app E rs1 rs2 : registered E (rs1 ++ rs2) = registered E rs1 ++ registered E rs2.
Proof. induction rs1 as [|[E' h] rs1 IH]; cbn; [done|]. destruct (decide (E' = E)); cbn; by rewrite IH. Qed.

Lemma register_all_spec rs self : erased_ok self → ∃ self', register_all rs self = Some self' ∧ erased_ok self' ∧
  ∀ E, get_handlers E self' = extended (get_handlers E self) (registered E rs).
Proof.
  revert self. induction rs as [|[E h] rs IH]; intros self Hok; [by exists self|].
  destruct (on_spec E h self Hok) as (s1 & H1 & Hok1 & Hg1).
  destruct (IH s1 Hok1) as (s2 & H2 & Hok2 & Hg2). exists s2. cbn [register_all]. rewrite H1. split_and!; [done..|].
  intros E'. rewrite Hg2, Hg1, extended_extended, <- registered_app. done.
Qed.

(** Registering handlers, one by one or by plugins, never panics; an event
    that nothing was registered for has no handlers, any other has exactly its
    own, in the order of registration; and emitting an event runs each of them
    once, reporting the panics of some without keeping the others from
    running. *)
Theorem registry_exact rs : ∃ self, register_all rs default_hooks = Some self ∧
  (∀ E, get_handlers E self = match registered E rs with [] => None | hs => Some hs end) ∧
  (∀ E (ctx : Context_of E), emit ctx self = observe ctx <$> registered E rs) ∧
  (hooks_empty self = true ↔ rs = []).
Proof.
  destruct (register_all_spec rs default_hooks) as (self & Hr & Hok & Hg).
  { intros E b. cbn. by rewrite lookup_empty. }
  exists self. split; [done|].
  assert (∀ E, get_handlers E self = match registered E rs with [] => None | hs => Some hs end) as Hget.
  { intros E. rewrite Hg. unfold get_handlers. cbn. rewrite lookup_empty. cbn. by destruct (registered E rs). }
  assert (hooks_empty self = true ↔ rs = []) as Hempty.
  { split; [|intros ->; injection Hr as <-; by apply bool_decide_eq_true].
    intros He%bool_decide_eq_true. destruct rs as [|[E h] rs]; [done|]. specialize (Hget E). exfalso.
    unfold get_handlers in Hget. rewrite He, lookup_empty in Hget. cbn in Hget. by destruct (decide (E = E)). }
  split_and!; [done| |done]. intros E ctx. unfold emit. destruct (hooks_empty self) eqn:Ee.
  - destruct Hempty as [Hrs _]. by rewrite (Hrs eq_refl).
  - unfold emit_to. rewrite Hget. by destruct (registered E rs).
Qed.
End registry.

(** ** Example *)

(** Two events: one observed by a handler that panics and one that does not. *)
Definition demo_context (E : bool) : Type := if E then nat else str.
Definition demo_output (E : bool) : Type := unit.
Definition demo_registrations : list (Registration demo_context demo_output) :=
  [existT true (λ _, Panicked (Some (lit "broken"))); existT false (λ _, Answered ()); existT true (λ _, Answered ())].

Example panics_are_contained : ∃ self,
  register_all demo_context demo_output demo_registrations (default_hooks demo_context demo_output) = Some self ∧
  emit demo_context demo_output (E := true) 3%nat self = [Some (Some (lit "broken")); None] ∧
  emit demo_context demo_output (E := false) (lit "x") self = [None].
Proof.
  destruct (registry_exact demo_context demo_output demo_registrations) as (self & Hr & _ & He & _).
  exists self. split; [done|]. split; by rewrite He.
Qed.
End HookRegistry.
