(* ===== verification/Context.v ===== *)
(** * Contexts of tasks (crates/graphile-worker-ctx)

    The context through which a task sees its job, its worker and the
    extensions of the application, the builder of contexts, and the way a
    value goes from the options of a worker to its tasks. *)

From S2P Require Import Prelude Job Database Extensions.
Open Scope Z_scope.

Module Context.
Import Job Database.

Section context.
Context {TypeId : Type} `{Countable TypeId} {interp : TypeId → Type}.
(** The handle of the database: a pool of connections and its retry policy. *)
Context {DatabaseHandle : Type}.

Abbreviation Boxed := (Extensions.Boxed interp).
Abbreviation Exts := (Extensions.Extensions interp).
Abbreviation ReadOnly := (Extensions.ReadOnlyExtensions interp).

(** ** context.rs *)

Record WorkerContext := mkContext {
  c_payload : option Value;
  c_database : DatabaseHandle;
  c_schema : Schema;
  c_job : Job;
  c_worker_id : str;
  c_extensions : ReadOnly;
  c_task_details : TaskDetails;
  c_use_local_time : bool
}.

Definition from_shared_job (job : Job) (database : DatabaseHandle) (schema : Schema) (worker_id : str)
    (extensions : ReadOnly) (task_details : TaskDetails) (use_local_time : bool) : WorkerContext :=
  mkContext None database schema job worker_id extensions task_details use_local_time.

Definition context_payload (self : WorkerContext) : Value := default (payload (c_job self)) (c_payload self).

Definition get_ext (T : TypeId) (self : WorkerContext) : option (interp T) :=
  Extensions.read_only_get interp T (c_extensions self).

(** ** builder.rs *)

Record WorkerContextBuilder := mkBuilder {
  b_payload : option Value;
  b_database : option DatabaseHandle;
  b_schema : option Schema;
  b_job : option Job;
  b_worker_id : option str;
  b_extensions : option ReadOnly;
  b_task_details : option TaskDetails;
  b_use_local_time : option bool
}.
Definition builder : WorkerContextBuilder := mkBuilder None None None None None None None None.

(** The setters. *)
Inductive Field :=
| FPayload (v : Value) | FDatabase (v : DatabaseHandle) | FSchema (v : Schema) | FJob (v : Job)
| FWorkerId (v : str) | FExtensions (v : ReadOnly) | FTaskDetails (v : TaskDetails) | FUseLocalTime (v : bool).

Definition set_field (x : Field) (b : WorkerContextBuilder) : WorkerContextBuilder :=
  let 'mkBuilder p d s j w e t l := b in
  match x with
  | FPayload v => mkBuilder (Some v) d s j w e t l
  | FDatabase v => mkBuilder p (Some v) s j w e t l
  | FSchema v => mkBuilder p d (Some v) j w e t l
  | FJob v => mkBuilder p d s (Some v) w e t l
  | FWorkerId v => mkBuilder p d s j (Some v) e t l
  | FExtensions v => mkBuilder p d s j w (Some v) t l
  | FTaskDetails v => mkBuilder p d s j w e (Some v) l
  | FUseLocalTime v => mkBuilder p d s j w e t (Some v)
  end.

(** The panic of [missing_field]. *)
Definition missing_field (field : str) : str := lit "UninitializedField(" ++ [quote] ++ field ++ [quote] ++ lit ")".

Definition required {A} (x : option A) (field : str) : result A str :=
  match x with Some v => Ok v | None => Err (missing_field field) end.

(** The fields are evaluated in the order of the literal; an error is the
    message of the panic. *)
Definition build (self : WorkerContextBuilder) : result WorkerContext str :=
  let? database := required (b_database self) (lit "database") in
  let? schema := required (b_schema self) (lit "schema") in
  let? job := required (b_job self) (lit "job") in
  let? worker_id := required (b_worker_id self) (lit "worker_id") in
  let? extensions := required (b_extensions self) (lit "extensions") in
  let? task_details := required (b_task_details self) (lit "task_details") in
  Ok (mkContext (b_payload self) database schema job worker_id extensions task_details
        (default false (b_use_local_time self))).

(** ** From the options of a worker to its tasks *)

(** [WorkerOptions::add_extension]. *)
Definition add_extension (v : Boxed) (e : Exts) : Exts := (Extensions.insert interp (projT1 v) (projT2 v) e).1.

(** The options' extensions become the worker's ([builder/init.rs]), are shared
    with its runner and handed to the context of every job it runs. *)
Record RunnerParts := mkRunner {
  r_database : DatabaseHandle;
  r_schema : Schema;
  r_worker_id : str;
  r_extensions : ReadOnly;
  r_task_details : TaskDetails;
  r_use_local_time : bool
}.
Definition run_job_context (w : RunnerParts) (job : Job) : WorkerContext :=
  from_shared_job job (r_database w) (r_schema w) (r_worker_id w) (r_extensions w) (r_task_details w) (r_use_local_time w).

Definition built_extensions (vs : list Boxed) : ReadOnly :=
  Extensions.read_only_new interp (foldl (λ e v, add_extension v e) (Extensions.new interp) vs).

(** The last value of a type in a list. *)
Definition last_of (T : TypeId) (vs : list Boxed) : option (interp T) :=
  foldl (λ acc v, match Extensions.downcast interp T v with Some x => Some x | None => acc end) None vs.

Lemma added_view vs e T : Extensions.reachable interp e →
  Extensions.view interp (foldl (λ e v, add_extension v e) e vs) T =
  foldl (λ acc v, match Extensions.downcast interp T v with Some x => Some x | None => acc end)
    (Extensions.view interp e T) vs.
Proof.
  revert e. induction vs as [|[U v] vs IH]; intros e He; [done|]. cbn [foldl].
  destruct (Extensions.exec_spec interp (Extensions.Insert interp U v) e) as (e' & Hc & _ & Hv).
  { by apply Extensions.reachable_wf. }
  assert (add_extension (existT U v) e = e') as ->. { cbn in Hc. unfold add_extension. by simplify_eq/=. }
  rewrite IH; [|by eapply Extensions.reach_call]. f_equal. rewrite Hv. cbn. unfold Extensions.update, Extensions.downcast.
  cbn. by destruct (decide (U = T)) as [<-|].
Qed.

(** A task sees, for each type, the value the application added last for it
    and nothing else, whatever job it runs; its payload is the job's; and the
    values it sees are the same for all jobs of the worker. *)
Theorem tasks_see_extensions vs w job T : r_extensions w = built_extensions vs →
  get_ext T (run_job_context w job) = last_of T vs ∧ context_payload (run_job_context w job) = payload job.
Proof.
  intros Hw. split; [|done]. unfold get_ext, run_job_context, from_shared_job. cbn. rewrite Hw.
  apply (added_view vs (Extensions.new interp) T (Extensions.reach_new interp)).
Qed.

Definition set_fields (xs : list Field) : WorkerContextBuilder := foldl (λ b x, set_field x b) builder xs.

(** The required fields in the order they are read. *)
Definition field_name (x : Field) : option str :=
  match x with
  | FDatabase _ => Some (lit "database") | FSchema _ => Some (lit "schema") | FJob _ => Some (lit "job")
  | FWorkerId _ => Some (lit "worker_id") | FExtensions _ => Some (lit "extensions")
  | FTaskDetails _ => Some (lit "task_details") | FPayload _ | FUseLocalTime _ => None
  end.
Definition required_fields : list str :=
  [lit "database"; lit "schema"; lit "job"; lit "worker_id"; lit "extensions"; lit "task_details"].

(** The required fields a builder lacks. *)
Definition lacks {A} (x : option A) (n : str) : list str := match x with None => [n] | Some _ => [] end.
Definition missing (b : WorkerContextBuilder) : list str :=
  lacks (b_database b) (lit "database") ++ lacks (b_schema b) (lit "schema") ++ lacks (b_job b) (lit "job") ++
  lacks (b_worker_id b) (lit "worker_id") ++ lacks (b_extensions b) (lit "extensions") ++
  lacks (b_task_details b) (lit "task_details").

Lemma filter_lacks {A} (P : str → Prop) `{!∀ n, Decision (P n)} (x : option A) n :
  filter P (lacks x n) = if decide (P n) then lacks x n else [].
Proof. destruct x; unfold lacks; rewrite ?filter_cons; by case_decide. Qed.

Lemma missing_set_field x b : missing (set_field x b) = filter (λ n, field_name x ≠ Some n) (missing b).
Proof.
  destruct b. unfold missing. rewrite !filter_app, !filter_lacks.
  destruct x; cbn [set_field field_name b_database b_schema b_job b_worker_id b_extensions b_task_details];
    repeat (case_decide as Hn; [|try (exfalso; apply Hn; done)]); by try (exfalso; apply Hn; congruence).
Qed.

Lemma missing_set_fields xs : missing (set_fields xs) = filter (λ n, n ∉ omap field_name xs) required_fields.
Proof.
  unfold set_fields. induction xs as [|x xs IH] using rev_ind; [done|].
  rewrite foldl_app. cbn [foldl]. rewrite missing_set_field, IH, list_filter_filter.
  apply list_filter_iff. intros n. rewrite omap_app, elem_of_app. csimpl. destruct (field_name x); set_solver.
Qed.

(** Building a context panics exactly when a required field was not set, and
    names the first one in the order of the struct, whatever was set before,
    repeatedly or in another order; otherwise the context's payload is the one
    that was set or the job's, and local time is off unless it was set. *)
Theorem context_build_exact xs :
  match filter (λ n, n ∉ omap field_name xs) required_fields with
  | n :: _ => build (set_fields xs) = Err (missing_field n)
  | [] => ∃ c, build (set_fields xs) = Ok c ∧ b_job (set_fields xs) = Some (c_job c) ∧
      context_payload c = default (payload (c_job c)) (b_payload (set_fields xs)) ∧
      c_use_local_time c = default false (b_use_local_time (set_fields xs))
  end.
Proof.
  rewrite <- missing_set_fields. generalize (set_fields xs) as b. intros [p d s j w e t l].
  destruct d, s, j, w, e, t; try done. cbn. by eexists.
Qed.
End context.

(** ** Examples *)

Definition demo_values : list (Extensions.Boxed Extensions.demo_interp) :=
  [existT true false; existT false (lit "app"); existT true true].
Definition demo_job : Job := mkJob
  (mkDbJob 1 None Null 0 0 0 25 None 0 0 None 1 None None None 1) (lit "task").

Definition demo_runner : RunnerParts (interp := Extensions.demo_interp) (DatabaseHandle := unit) :=
  mkRunner () default_schema (lit "worker") (built_extensions demo_values) ∅ false.

Lemma tasks_see_extensions_witness :
  get_ext true (run_job_context demo_runner demo_job) = Some true ∧
  get_ext false (run_job_context demo_runner demo_job) = Some (lit "app").
Proof.
  split.
  - by destruct (tasks_see_extensions demo_values demo_runner demo_job true eq_refl) as [-> _].
  - by destruct (tasks_see_extensions demo_values demo_runner demo_job false eq_refl) as [-> _].
Defined.

End Context.
