(* ===== verification/MigrationScripts.v ===== *)
(** * Migration scripts (crates/graphile-worker-migrations-macros and -core)

    How [include_migrations!] reads a directory of SQL scripts into the registry
    of migrations: file names, script sections, ordering and numbering.  The
    generated tokens are the list of [GraphileWorkerMigration]s; reading the
    file system is an input. *)

From S2P Require Import Prelude Text.
Open Scope Z_scope.

Module MigrationScripts.
Import Text.

(** ** crates/graphile-worker-migrations-core *)

Record GraphileWorkerMigration := mkGWM { gw_name : str; gw_is_breaking : bool; gw_stmts : list str }.

(** [None] is the panic on a name of another form. *)
Definition migration_number (self : GraphileWorkerMigration) : option Z :=
  digits ← str_slice (gw_name self) 1 7;
  match parse_u32 digits with Ok n => Some n | Err _ => None end.

(** ** crates/graphile-worker-migrations-macros *)

Definition STATEMENT_DELIMITER : str := lit "-- graphile-worker-rs:statement".
Definition BREAKING_MARKER : str := lit "-- graphile-worker-rs:breaking".
Definition METADATA_PREFIX : str := lit "-- graphile-worker-rs:".

Record Migration := mkMigration { number : Z; name : str; is_breaking : bool; statements : list str }.
Record ParsedMigrationScript := mkParsed { script_breaking : bool; script_statements : list str }.

(** The [Display] of a [ParseIntError]. *)
Definition int_error_text (e : IntErrorKind) : str :=
  match e with
  | EmptyInt => lit "cannot parse integer from empty string"
  | InvalidDigit => lit "invalid digit found in string"
  | PosOverflow => lit "number too large to fit in target type"
  end.

(** Errors are their messages; the outer [None] is a panic of the slice. *)
Definition parse_migration_number (file_name : str) : option (result Z str) :=
  if negb (byte_len file_name =? byte_len (lit "m000001.sql"))
     || negb (starts_with file_name (lit "m")) || negb (ends_with file_name (lit ".sql"))
  then Some (Err (lit "migration filename `" ++ file_name ++ lit "` must match `mNNNNNN.sql`"))
  else
    number ← str_slice file_name 1 7;
    if negb (forallb (λ b, is_ascii_digit b) (bytes number))
    then Some (Err (lit "migration filename `" ++ file_name ++ lit "` must contain six digits"))
    else Some (map_err (λ e, lit "failed to parse migration number from `" ++ file_name ++ lit "`: " ++ int_error_text e)
                (parse_u32 number)).

Definition strip_metadata_lines (section : str) : str :=
  join [10] (filter (λ l, starts_with (trim l) METADATA_PREFIX = false) (lines section)).

Definition parse_migration_script (script : str) : ParsedMigrationScript :=
  mkParsed
    (existsb (λ line, bool_decide (trim line = BREAKING_MARKER)) (lines script))
    (filter_map (λ section,
       let statement := trim (strip_metadata_lines section) in
       if is_empty statement then None else Some statement)
     (split STATEMENT_DELIMITER script)).

(** [Path::extension] of a file name. *)
Definition extension (file_name : str) : option str :=
  match span (λ c, negb (c =? 46)) (rev file_name) with
  | (_, []) | (_, [_]) => None
  | (e, _) => Some (rev e)
  end.

(** A directory entry: its name, whether it is a file, and its text or the
    error of reading it. *)
Record DirEntry := mkEntry { file_name : str; is_file : bool; contents : result str str }.

Section load.
(** [Path::display] of a file of the directory. *)
Context (display : str → str).

Definition load_migration_file (entry : DirEntry) : option (result Migration str) :=
  number ← parse_migration_number (file_name entry);
  Some (let? number := number in
        let? script := map_err (λ source, lit "failed to read migration `" ++ display (file_name entry) ++ lit "`: " ++ source)
                         (contents entry) in
        let parsed := parse_migration_script script in
        if is_empty (script_statements parsed)
        then Err (lit "migration `" ++ display (file_name entry) ++ lit "` does not contain any SQL statements")
        else Ok (mkMigration number (lit "m" ++ pad6 number) (script_breaking parsed) (script_statements parsed))).

(** [sort_by_key]: a stable sort. *)
Fixpoint insert_by_number (m : Migration) (l : list Migration) : list Migration :=
  match l with
  | [] => [m]
  | x :: l => if number m <=? number x then m :: x :: l else x :: insert_by_number m l
  end.
Definition sort_by_number (l : list Migration) : list Migration := foldr insert_by_number [] l.

(** The loop of [sort_and_validate_migrations] from an index on. *)
Fixpoint validate_from (prev : option Z) (index : nat) (l : list Migration) : result unit str :=
  match l with
  | [] => Ok tt
  | m :: l =>
      if bool_decide (prev = Some (number m))
      then Err (lit "duplicate migration number m" ++ pad6 (number m))
      else
        let expected := Z.of_nat index + 1 in
        if negb (number m =? expected)
        then Err (lit "migration numbers must be contiguous from m000001; expected m" ++ pad6 expected
                  ++ lit ", found m" ++ pad6 (number m))
        else validate_from (Some (number m)) (S index) l
  end.

Definition sort_and_validate_migrations (migrations : list Migration) : result (list Migration) str :=
  if is_empty migrations then Err (lit "no migration SQL files found")
  else
    let migrations := sort_by_number migrations in
    let? _ := validate_from None 0 migrations in Ok migrations.

(** The entries that are no SQL files are passed over. *)
Fixpoint load_entries (entries : list DirEntry) : option (result (list Migration) str) :=
  match entries with
  | [] => Some (Ok [])
  | e :: entries =>
      if negb (is_file e) || negb (bool_decide (extension (file_name e) = Some (lit "sql")))
      then load_entries entries
      else m ← load_migration_file e;
           match m with
           | Err e => Some (Err e)
           | Ok m => ms ← load_entries entries; Some (let? ms := ms in Ok (m :: ms))
           end
  end.

Definition load_migrations (entries : list DirEntry) : option (result (list Migration) str) :=
  ms ← load_entries entries; Some (let? ms := ms in sort_and_validate_migrations ms).

(** The list the macro expands to. *)
Definition registry_entry (m : Migration) : GraphileWorkerMigration := mkGWM (name m) (is_breaking m) (statements m).
Definition expand_include_migrations (entries : list DirEntry) :
    option (result (list GraphileWorkerMigration) str) :=
  ms ← load_migrations entries; Some (result_map (λ ms : list Migration, registry_entry <$> ms) ms).
End load.

(** ** Numbering *)

Lemma insert_by_number_perm m l : insert_by_number m l ≡ₚ m :: l.
Proof.
  induction l as [|x l IH]; cbn; [done|]. destruct (_ <=? _); [done|]. rewrite IH. constructor.
Qed.

Lemma sort_by_number_perm l : sort_by_number l ≡ₚ l.
Proof. induction l as [|m l IH]; cbn; [done|]. by rewrite insert_by_number_perm, IH. Qed.

Lemma insert_by_number_sorted m l :
  StronglySorted Z.le (number <$> l) → StronglySorted Z.le (number <$> insert_by_number m l).
Proof.
  induction l as [|x l IH]; cbn; [repeat constructor|]. intros Hs. apply StronglySorted_inv in Hs as [Hs Hx].
  destruct (Z.leb_spec (number m) (number x)); cbn; constructor; auto.
  - by constructor.
  - constructor; [done|]. eapply Forall_impl; [done|]. cbn. lia.
  - rewrite insert_by_number_perm. constructor; [lia|done].
Qed.

Lemma sort_by_number_sorted l : StronglySorted Z.le (number <$> sort_by_number l).
Proof. induction l as [|m l IH]; cbn; [constructor|]. by apply insert_by_number_sorted. Qed.

Lemma seqZ_sorted n k : StronglySorted Z.le (seqZ n k).
Proof.
  destruct (decide (0 ≤ k)) as [Hk|]; [|rewrite seqZ_nil by lia; constructor].
  revert n. pattern k. apply natlike_ind; [..|done].
  - intros n. rewrite seqZ_nil by done. constructor.
  - intros x Hx IH n. rewrite seqZ_cons by lia. constructor; [replace (Z.pred (Z.succ x)) with x by lia; apply IH|].
    apply Forall_forall. intros y Hy%elem_of_seqZ. lia.
Qed.

(** Lists that pass are exactly the consecutive numbers. *)
Lemma validate_from_spec prev index l :
  (∀ p, prev = Some p → p ≤ Z.of_nat index) →
  validate_from prev index l = Ok tt ↔ number <$> l = seqZ (Z.of_nat index + 1) (Z.of_nat (length l)).
Proof.
  revert prev index. induction l as [|m l IH]; intros prev index Hp; [done|]. cbn [validate_from].
  cbn [fmap list_fmap length]. rewrite seqZ_cons by lia.
  replace (Z.succ (Z.of_nat index + 1)) with (Z.of_nat (S index) + 1) by lia.
  replace (Z.pred (Z.of_nat (S (length l)))) with (Z.of_nat (length l)) by lia.
  destruct (bool_decide_reflect (prev = Some (number m))) as [E|E].
  { specialize (Hp _ E). split; [done|]. intros [= ? _]. lia. }
  destruct (Z.eqb_spec (number m) (Z.of_nat index + 1)) as [En|En]; cbn [negb].
  - rewrite IH by (intros p [= <-]; lia). split; [intros ->; congruence|by intros [= _ ?]].
  - split; [done|]. by intros [= ? _].
Qed.

Lemma sorted_unique (l1 l2 : list Z) :
  StronglySorted Z.le l1 → StronglySorted Z.le l2 → l1 ≡ₚ l2 → l1 = l2.
Proof. intros H1 H2 Hp. by apply (StronglySorted_unique Z.le). Qed.

(** The macro accepts a set of migrations exactly when there is one and
    their numbers are 1, 2, ... without gap or repetition, in whatever order
    the directory lists them; the registry then holds all of them in order. *)
Lemma sort_and_validate_spec migrations :
  match sort_and_validate_migrations migrations with
  | Ok l => l ≡ₚ migrations ∧ number <$> l = seqZ 1 (Z.of_nat (length migrations))
  | Err _ => migrations = [] ∨ ¬ (number <$> migrations ≡ₚ seqZ 1 (Z.of_nat (length migrations)))
  end.
Proof.
  unfold sort_and_validate_migrations. destruct migrations as [|m l] eqn:E; [by left|]. cbn [is_empty]. rewrite <- E. clear m l E.
  pose proof (sort_by_number_perm migrations) as Hp.
  assert (length (sort_by_number migrations) = length migrations) as Hlen by (by rewrite Hp).
  destruct (validate_from None 0 (sort_by_number migrations)) as [[]|e] eqn:Ev; cbn.
  - apply validate_from_spec in Ev; [|done]. split; [done|]. rewrite Ev, Hlen. done.
  - right. intros Hn. assert (validate_from None 0 (sort_by_number migrations) = Ok tt) as Hok; [|congruence].
    apply validate_from_spec; [done|]. apply sorted_unique; [apply sort_by_number_sorted|apply seqZ_sorted|].
    rewrite Hlen, <- Hn. by apply (fmap_Permutation number).
Qed.

(** ** File names *)

Lemma digit_bytes s :
  forallb (λ b, is_ascii_digit b) (bytes s) = true →
  Forall (λ c, is_ascii_digit c = true) s ∧ byte_len s = Z.of_nat (length s).
Proof.
  induction s as [|c s IH]; [done|]. unfold bytes. cbn [mbind list_bind]. fold (bytes s).
  rewrite forallb_app. intros [Hc Hs]%andb_true_iff. destruct (IH Hs) as [Hf Hl].
  destruct (Z.ltb_spec c 128) as [Hlt|Hge].
  - rewrite utf8_char_ascii in Hc by done. cbn in Hc. rewrite andb_true_r in Hc. split; [by constructor|].
    rewrite byte_len_cons, Hl, utf8_char_ascii by done. cbn. lia.
  - pose proof (utf8_char_nonempty c). destruct (utf8_char c) as [|b bs] eqn:E; [cbn in *; lia|]. cbn in Hc.
    apply andb_true_iff in Hc as [Hb%bool_decide_eq_true _]. pose proof (utf8_char_high c b Hge ltac:(rewrite E; set_solver)). lia.
Qed.

Lemma digits_bytes s : Forall (λ c, is_ascii_digit c = true) s → bytes s = s ∧ byte_len s = Z.of_nat (length s).
Proof.
  induction 1 as [|c s Hc _ [IH IHl]]; [done|]. apply bool_decide_eq_true in Hc. split.
  - unfold bytes. cbn [mbind list_bind]. fold (bytes s). by rewrite IH, utf8_char_ascii by lia.
  - rewrite byte_len_cons, IHl, utf8_char_ascii by lia. cbn. lia.
Qed.

Lemma six_digits_bound ds : Forall (λ c, is_ascii_digit c = true) ds → 0 ≤ digits_value ds < 10 ^ Z.of_nat (length ds).
Proof.
  induction ds as [|c ds IH] using rev_ind; [done|]. intros [Hd Hc]%Forall_app. specialize (IH Hd).
  apply Forall_singleton, bool_decide_eq_true in Hc. rewrite digits_value_snoc, length_app. cbn [length].
  rewrite Nat2Z.inj_add, Z.pow_add_r by lia. change (10 ^ Z.of_nat 1) with 10. lia.
Qed.

(** Exactly [mNNNNNN.sql] is accepted, and slicing the name never panics. *)
Lemma parse_migration_number_spec f :
  ∃ r, parse_migration_number f = Some r ∧
  ∀ n, r = Ok n ↔ ∃ ds, length ds = 6%nat ∧ Forall (λ c, is_ascii_digit c = true) ds ∧
                        f = lit "m" ++ ds ++ lit ".sql" ∧ n = digits_value ds.
Proof.
  unfold parse_migration_number.
  assert (∀ ds, Forall (λ c, is_ascii_digit c = true) ds → length ds = 6%nat →
            byte_len (lit "m" ++ ds ++ lit ".sql") = byte_len (lit "m000001.sql")) as Hlen.
  { intros ds Hd H6. rewrite !byte_len_app, (proj2 (digits_bytes ds Hd)), H6. done. }
  destruct (_ || _) eqn:Eguard.
  - eexists. split; [done|]. intros n. split; [done|]. intros (ds & H6 & Hd & -> & _).
    rewrite Hlen, Z.eqb_refl in Eguard by done. exfalso.
    assert (starts_with (lit "m" ++ ds ++ lit ".sql") (lit "m") = true) as E1 by (apply starts_with_spec; by eexists).
    assert (ends_with (lit "m" ++ ds ++ lit ".sql") (lit ".sql") = true) as E2
      by (apply ends_with_spec; exists (lit "m" ++ ds); by rewrite app_assoc).
    by rewrite E1, E2 in Eguard.
  - apply orb_false_iff in Eguard as [[E1 E2]%orb_false_iff E3]. apply negb_false_iff in E1, E2, E3.
    apply starts_with_spec in E2 as [r Hr]. apply ends_with_spec in E3 as [q Hq].
    assert (∃ mid, f = lit "m" ++ mid ++ lit ".sql" ∧ byte_len mid = 6) as (mid & -> & Hmid).
    { destruct q as [|c q]; [rewrite Hq in Hr; by vm_compute in Hr|]. exists q. rewrite Hq in Hr.
      assert (c = 109) as -> by (by injection Hr).
      split; [done|]. rewrite Hq in E1. apply Z.eqb_eq in E1.
      rewrite byte_len_app, byte_len_cons in E1.
      change (Z.of_nat (length (utf8_char 109))) with 1 in E1. change (byte_len (lit ".sql")) with 4 in E1.
      change (byte_len (lit "m000001.sql")) with 11 in E1. lia. }
    assert (str_slice (lit "m" ++ mid ++ lit ".sql") 1 7 = Some mid) as ->.
    { pose proof (str_slice_app (lit "m") mid (lit ".sql")) as E. rewrite byte_len_app, Hmid in E. done. }
    cbn [mbind option_bind]. destruct (forallb _ (bytes mid)) eqn:Ed; cbn [negb].
    + destruct (digit_bytes mid Ed) as [Hd Hl]. assert (length mid = 6%nat) as H6 by lia.
      pose proof (six_digits_bound mid Hd) as Hb. rewrite H6 in Hb. change (10 ^ Z.of_nat 6) with 1000000 in Hb.
      rewrite parse_u32_digits; [|by destruct mid|done|unfold U32_MAX; lia]. eexists. split; [done|]. intros n. split.
      * intros [= <-]. by exists mid.
      * intros (ds & H6' & Hd' & E & ->). apply app_inv_head, app_inv_tail in E as ->. done.
    + eexists. split; [done|]. intros n. split; [done|]. intros (ds & H6 & Hd & E & _).
      apply app_inv_head, app_inv_tail in E as ->. rewrite (proj1 (digits_bytes ds Hd)) in Ed.
      apply not_true_iff_false in Ed. exfalso. apply Ed, forallb_forall. intros c Hc%list_elem_of_In.
      by rewrite Forall_forall in Hd; apply Hd.
Qed.

(** The name given to a migration reads back as its number. *)
Lemma registry_number m n : 0 ≤ n < 10 ^ 6 → gw_name m = lit "m" ++ pad6 n → migration_number m = Some n.
Proof.
  intros Hn Hm. destruct (pad6_spec n Hn) as (H6 & Hd & Hp). unfold migration_number. rewrite Hm.
  pose proof (str_slice_app (lit "m") (pad6 n) []) as E. rewrite byte_len_app, (proj2 (digits_bytes _ Hd)), H6, app_nil_r in E.
  change (byte_len (lit "m") + Z.of_nat 6) with 7 in E. change (byte_len (lit "m")) with 1 in E. rewrite E. cbn [mbind option_bind]. by rewrite Hp.
Qed.

(** What loading a script file guarantees. *)
Definition loaded (m : Migration) : Prop :=
  0 ≤ number m < 10 ^ 6 ∧ name m = lit "m" ++ pad6 (number m) ∧ statements m ≠ [] ∧ Forall (λ s, s ≠ []) (statements m).

Lemma load_migration_file_loaded display e m : load_migration_file display e = Some (Ok m) → loaded m.
Proof.
  unfold load_migration_file. destruct (parse_migration_number_spec (file_name e)) as (r & -> & Hr). cbn [mbind option_bind].
  destruct r as [n|]; [|done]. destruct (proj1 (Hr n) eq_refl) as (ds & H6 & Hd & _ & ->).
  destruct (map_err _ (contents e)) as [script|]; [|done].
  destruct (parse_migration_script script) as [b stmts] eqn:Es. cbn [script_statements script_breaking].
  destruct stmts as [|s stmts]; [done|]. intros [= <-]. pose proof (six_digits_bound ds Hd) as Hb. rewrite H6 in Hb.
  split_and!; [apply Hb|apply Hb|done|done|]. unfold parse_migration_script in Es. injection Es as _ Es. cbn [statements].
  rewrite <- Es.
  apply Forall_forall. intros x (sec & _ & Hx)%elem_of_filter_map.
  destruct (trim _) eqn:Et; [done|]. by injection Hx as <-.
Qed.

Lemma load_entries_loaded display es ms : load_entries display es = Some (Ok ms) → Forall loaded ms.
Proof.
  revert ms. induction es as [|e es IH]; intros ms; cbn [load_entries]; [by intros [= <-]|].
  destruct (_ || _); [apply IH|]. destruct (load_migration_file display e) as [[m|]|] eqn:E; try done. cbn.
  destruct (load_entries display es) as [[ms'|]|]; try done. intros [= <-].
  constructor; [by eapply load_migration_file_loaded|by apply IH].
Qed.

Lemma load_migration_file_total display e : ∃ r, load_migration_file display e = Some r.
Proof. unfold load_migration_file. destruct (parse_migration_number_spec (file_name e)) as (r & -> & _). by eexists. Qed.

Lemma load_entries_total display es : ∃ r, load_entries display es = Some r.
Proof.
  induction es as [|e es [r IH]]; cbn; [by eexists|]. destruct (_ || _); [eauto|].
  destruct (load_migration_file_total display e) as [[m|x] ->]; cbn; [rewrite IH; by eexists|by eexists].
Qed.

Lemma expanded_numbered display entries ms :
  expand_include_migrations display entries = Some (Ok ms) →
  ms ≠ [] ∧ (∀ i m, ms !! i = Some m → migration_number m = Some (Z.of_nat i + 1)) ∧
  Forall (λ m, gw_stmts m ≠ [] ∧ Forall (λ s, s ≠ []) (gw_stmts m)) ms.
Proof.
  unfold expand_include_migrations, load_migrations. destruct (load_entries_total display entries) as [r E]. rewrite E. cbn.
  intros [= Hms]. destruct r as [l|]; [|done]. apply load_entries_loaded in E.
  pose proof (sort_and_validate_spec l) as Hc. cbn in Hms.
  destruct (sort_and_validate_migrations l) as [l'|] eqn:Es; [|done]. injection Hms as <-. destruct Hc as [Hp Hn].
  assert (Forall loaded l') as Hl' by (by rewrite Hp). assert (l' ≠ []) as Hne.
  { intros ->. apply Permutation_nil in Hp as ->. done. }
  split_and!.
  - by destruct l'.
  - intros i m Hm. apply list_lookup_fmap_Some in Hm as (x & -> & Hx). eapply Forall_lookup_1 in Hl' as (Hb & Hname & _); [|done].
    apply (f_equal (.!! i)) in Hn. rewrite list_lookup_fmap, Hx in Hn. cbn in Hn. symmetry in Hn. apply lookup_seqZ in Hn as [En _].
    rewrite (registry_number _ (number x)) by done. f_equal. lia.
  - apply Forall_fmap. eapply Forall_impl; [done|]. by intros x (_ & _ & ? & ?).
Qed.

(** Whatever the directory holds, expanding the macro ends in a registry or
    an error and never panics; a registry's migrations are numbered by their
    names 1, 2, ... in order, and each has statements, none of them empty. *)
Theorem registry_is_numbered display entries :
  ∃ r, expand_include_migrations display entries = Some r ∧
  ∀ ms, r = Ok ms →
    ms ≠ [] ∧ (∀ i m, ms !! i = Some m → migration_number m = Some (Z.of_nat i + 1)) ∧
    Forall (λ m, gw_stmts m ≠ [] ∧ Forall (λ s, s ≠ []) (gw_stmts m)) ms.
Proof.
  destruct (expand_include_migrations display entries) as [r|] eqn:E.
  - exists r. split; [done|]. intros ms ->. by eapply expanded_numbered.
  - exfalso. revert E. unfold expand_include_migrations, load_migrations.
    by destruct (load_entries_total display entries) as [r ->].
Qed.

(** ** Script texts *)

(** A statement as scripts hold it: it starts and ends with text, on lines
    that are no metadata, with plain newlines. *)
Definition plain_statement (s : str) : Prop :=
  s ≠ [] ∧ trim s = s ∧ no_cr s ∧ ¬ occurs STATEMENT_DELIMITER s ∧
  Forall (λ l, starts_with (trim l) METADATA_PREFIX = false) (segs s).

(** What stands between two statements. *)
Definition separator : str := [10] ++ STATEMENT_DELIMITER ++ [10].

Definition print_script (breaking : bool) (stmts : list str) : str :=
  (if breaking then BREAKING_MARKER ++ [10] else []) ++ join separator stmts.

Lemma join_separator s s' stmts :
  join separator (s :: s' :: stmts) = s ++ 10 :: STATEMENT_DELIMITER ++ 10 :: join separator (s' :: stmts).
Proof. cbn [join]. unfold separator. by rewrite <- !app_assoc. Qed.

(** What precedes a statement in its section and leaves nothing in it. *)
Definition heading (pre : str) : Prop := pre = [] ∨ pre = [10] ∨ pre = BREAKING_MARKER ++ [10].

Lemma trim_last s : s ≠ [] → trim s = s → ∃ a c, s = a ++ [c] ∧ is_whitespace c = false.
Proof.
  intros Hne Ht. destruct s as [|c a _] using rev_ind; [done|]. exists a, c. split; [done|].
  apply not_true_iff_false. intros Hc. revert Ht. unfold trim.
  destruct (trim_start (a ++ [c])) as [|y r _] eqn:E using rev_ind; [by destruct a|]. rewrite rev_app_distr. cbn [rev app].
  assert (y = c) as ->.
  { unfold trim_start in E. pose proof (span_app is_whitespace (a ++ [c])) as Es. rewrite E, app_assoc in Es.
    by apply app_inj_tail in Es as [_ ?]. }
  rewrite trim_start_ws by done. intros Ht.
  assert (length (rev (trim_start (rev r))) ≤ length r)%nat as Hl.
  { unfold trim_start. pose proof (span_app is_whitespace (rev r)) as Es. apply (f_equal length) in Es.
    rewrite length_app, length_rev in Es. rewrite length_rev. lia. }
  rewrite Ht in Hl. unfold trim_start in E. pose proof (span_app is_whitespace (a ++ [c])) as Es. rewrite E in Es.
  apply (f_equal length) in Es. rewrite !length_app in *. cbn in *. lia.
Qed.

Lemma statement_lines s post :
  plain_statement s → post = [] ∨ post = [10] → lines (s ++ post) = segs s.
Proof.
  intros (Hne & Ht & Hcr & _) [-> | ->].
  - rewrite app_nil_r. destruct (trim_last s Hne Ht) as (a & c & -> & Hc). apply lines_last; [done|]. by intros ->.
  - rewrite lines_newline by done. by rewrite app_nil_r.
Qed.

(** A section yields its statement, whatever surrounds it. *)
Lemma section_statement pre s post :
  heading pre → plain_statement s → post = [] ∨ post = [10] →
  trim (strip_metadata_lines (pre ++ s ++ post)) = s.
Proof.
  intros Hpre Hs Hpost. pose proof (statement_lines s post Hs Hpost) as Hl. destruct Hs as (Hne & Ht & Hcr & _ & Hmeta).
  unfold strip_metadata_lines. pose proof (filter_all (λ l, starts_with (trim l) METADATA_PREFIX = false) (segs s) Hmeta) as Hf.
  destruct Hpre as [-> | [-> | ->]].
  - cbn [app]. by rewrite Hl, Hf, join_segs.
  - rewrite (lines_newline [] (s ++ post) ltac:(constructor) : lines ([10] ++ s ++ post) = _), Hl.
    change (segs [] ++ segs s) with ([] :: segs s). rewrite filter_cons_True by done. rewrite Hf.
    assert (join [10] ([] :: segs s) = 10 :: s) as ->; [|by rewrite trim_ws].
    pose proof (join_segs s) as Hj. unfold segs in *. destruct (segments s). cbn in *. by rewrite Hj.
  - rewrite <- app_assoc. cbn [app]. rewrite lines_newline, Hl by (by repeat constructor).
    change (segs BREAKING_MARKER ++ segs s) with (BREAKING_MARKER :: segs s).
    rewrite filter_cons_False by (by vm_compute). by rewrite Hf, join_segs.
Qed.

Lemma delimiter_ok : STATEMENT_DELIMITER ≠ [] ∧ 10 ∉ STATEMENT_DELIMITER.
Proof. split; [done|]. by apply (bool_decide_unpack _). Qed.

Lemma no_delimiter pre s : heading pre → plain_statement s → ¬ occurs STATEMENT_DELIMITER (pre ++ s).
Proof.
  intros Hpre (_ & _ & _ & Ho & _) Hocc. destruct delimiter_ok as [Hne Hnl].
  assert (∀ t, (length t < length STATEMENT_DELIMITER)%nat → ¬ occurs STATEMENT_DELIMITER t) as Hshort.
  { intros t Hlen (a & b & ->). rewrite !length_app in Hlen. lia. }
  destruct Hpre as [-> | [-> | ->]]; [done|..].
  - apply (occurs_newline _ [] s) in Hocc as [H|]; [|done..]. revert H. apply Hshort. cbn. lia.
  - rewrite <- app_assoc in Hocc. cbn [app] in Hocc. apply occurs_newline in Hocc as [H|]; [|done..].
    revert H. apply Hshort. cbn. lia.
Qed.

(** The sections of a printed script. *)
Lemma sections_print pre stmts :
  heading pre → stmts ≠ [] → Forall plain_statement stmts →
  filter_map (λ section,
    let statement := trim (strip_metadata_lines section) in
    if is_empty statement then None else Some statement)
    (split STATEMENT_DELIMITER (pre ++ join separator stmts)) = stmts.
Proof.
  intros Hpre Hne Hs. destruct delimiter_ok as [Hd Hnl]. revert pre Hpre. induction Hs as [|s stmts Hs Hss IH]; [done|].
  intros pre Hpre. pose proof (no_delimiter pre s Hpre Hs) as Ho.
  assert (∀ post, post = [] ∨ post = [10] → trim (strip_metadata_lines (pre ++ s ++ post)) = s) as Hsec
    by (intros; by apply section_statement).
  assert (s ≠ []) as Hsne by apply Hs. rewrite split_eq by done. destruct stmts as [|s' stmts].
  - cbn [join]. destruct (split_once STATEMENT_DELIMITER (pre ++ s)) as [[a b]|] eqn:E.
    { exfalso. apply Ho. apply split_once_Some in E as ->. by exists a, b. }
    cbn [filter_map]. pose proof (Hsec [] ltac:(by left)) as E1. rewrite app_nil_r in E1. rewrite E1. by destruct s.
  - rewrite join_separator, (app_assoc pre s), split_once_line by done.
    cbn [filter_map]. rewrite <- app_assoc, Hsec by (by right). destruct s as [|c s]; [done|]. cbn [is_empty]. f_equal.
    apply (IH ltac:(done) [10]). right; by left.
Qed.

(** No line of the statements is the breaking marker. *)
Lemma body_not_breaking stmts :
  Forall plain_statement stmts → stmts ≠ [] →
  existsb (λ line, bool_decide (trim line = BREAKING_MARKER)) (lines (join separator stmts)) = false.
Proof.
  assert (∀ s, plain_statement s → existsb (λ line, bool_decide (trim line = BREAKING_MARKER)) (segs s) = false) as Hseg.
  { intros s (_ & _ & _ & _ & Hm). induction Hm as [|l ls Hl _ IH]; [done|]. cbn [existsb]. rewrite IH, orb_false_r.
    apply bool_decide_eq_false. intros E. rewrite E in Hl. by vm_compute in Hl. }
  intros Hs. induction Hs as [|s stmts Hs Hss IH]; [done|]. intros _. destruct stmts as [|s' stmts].
  - cbn [join]. pose proof (statement_lines s [] Hs ltac:(by left)) as E. rewrite app_nil_r in E. rewrite E. by apply Hseg.
  - rewrite join_separator, lines_newline by apply Hs. rewrite lines_newline by (by repeat constructor).
    rewrite !existsb_app, Hseg, IH by done. by vm_compute.
Qed.

(** Scripts read back: a script of plain statements, one per section and
    with the marker if it is breaking, parses to exactly those statements and
    that flag. *)
Theorem script_roundtrip breaking stmts :
  stmts ≠ [] → Forall plain_statement stmts →
  parse_migration_script (print_script breaking stmts) = mkParsed breaking stmts.
Proof.
  intros Hne Hs. unfold parse_migration_script, print_script. f_equal.
  - destruct breaking; [|by apply body_not_breaking]. rewrite <- app_assoc. cbn [app].
    rewrite lines_newline by (by repeat constructor). by vm_compute.
  - apply sections_print; [|done..]. destruct breaking; [right; by right|by left].
Qed.

(** ** Witnesses *)

Lemma plain_check s :
  s ≠ [] → trim s = s → forallb (λ c, negb (c =? 13)) s = true → split_once STATEMENT_DELIMITER s = None →
  forallb (λ l, negb (starts_with (trim l) METADATA_PREFIX)) (segs s) = true → plain_statement s.
Proof.
  intros H1 H2 H3 H4 H5. split_and!; [done|done|..|by apply split_once_None|].
  - apply Forall_forall. intros c Hc ->. rewrite forallb_forall in H3. by specialize (H3 13 (proj1 (list_elem_of_In _ _) Hc)).
  - apply Forall_forall. intros l Hl%list_elem_of_In. rewrite forallb_forall in H5. by apply negb_true_iff, H5.
Qed.

Lemma script_roundtrip_witness :
  parse_migration_script (print_script true [lit "create table t ();" ++ [10] ++ lit "-- note"; lit "select 1;"])
  = mkParsed true [lit "create table t ();" ++ [10] ++ lit "-- note"; lit "select 1;"].
Proof.
  apply script_roundtrip; [done|]. rewrite !Forall_cons. split_and!; [..|constructor]; apply plain_check; by vm_compute.
Defined.

End MigrationScripts.
