(* ===== verification/Migrations.v ===== *)
(** * Running migrations (crates/graphile-worker-migrations)

    Each runner reads the state of the schema, installs it if it is missing,
    runs its pending migrations one transaction at a time and checks that it
    supports the revision it found.  Any number of runners, of versions that
    support more or fewer migrations, run against one database; their steps
    interleave between statements, and any statement may fail. *)

From S2P Require Import Prelude Text Job Database MigrationScripts.
Open Scope Z_scope.

Module Migrations.
Import Text Database MigrationScripts.

(** ** clash.rs and error.rs *)

Definition CLASH_CODES : list str := [lit "23505"; lit "42P06"; lit "42P07"; lit "42710"].

Definition is_clash_error (error : DbError) : bool :=
  match code error with Some c => bool_decide (c ∈ CLASH_CODES) | None => false end.

Inductive MigrateError :=
| ParseVersionError (e : IntErrorKind)
| IncompatibleVersion (version : Z)
| IncompatbleRevision (latest_migration latest_breaking_migration highest_migration : Z)
| SqlError (e : DbError)
| LockedJobInMigration11.

(** ** pg_version.rs *)

Section migrations.
(** [Debug for DbCell], in the text of decoding errors. *)
Context (debug_cell : DbCell → str).

Definition check_postgres_version (version_string : str) : result Z MigrateError :=
  let? version := map_err ParseVersionError (parse_u32 version_string) in
  if version <? 120000 then Err (IncompatibleVersion version) else Ok version.

(** [fetch_one] with the column decoded, of a query's answer. *)
Definition fetch_and_check_postgres_version (rows : result (list DbRow) DbError) : result Z MigrateError :=
  let? row := map_err SqlError (fetch_one rows) in
  let? version_string := map_err SqlError (try_get (from_cell_string debug_cell) row (lit "server_version_num")) in
  check_postgres_version version_string.

(** ** install.rs *)

(** Of the answers to its statements, in order. *)
Definition install_schema (version : result (list DbRow) DbError)
    (begin create_schema create_table commit : result unit DbError) : result unit MigrateError :=
  let? _ := fetch_and_check_postgres_version version in
  let? _ := map_err SqlError begin in
  let? _ := map_err SqlError create_schema in
  let? _ := map_err SqlError create_table in
  let? _ := map_err SqlError commit in
  Ok tt.

(** ** state.rs *)

Record LastMigration := mkLast {
  server_version_num : str;
  last_id : option Z;
  biggest_breaking_id : option Z
}.

Definition default_last : LastMigration := mkLast (lit "120000") None None.

(** [i32 as u32] wraps; [u32::try_from] of a negative [i32] fails. *)
Definition is_before_number (self : LastMigration) (migration_number : Z) : bool :=
  match last_id self with
  | None => true
  | Some id => (if 0 <=? id then id else 0) <? migration_number
  end.

Definition fetch_last_migration (rows : result (list DbRow) DbError) : result LastMigration DbError :=
  let? row := fetch_one rows in
  let? version := try_get (from_cell_string debug_cell) row (lit "server_version_num") in
  let? id := try_get (from_cell_option (from_cell_i32 debug_cell)) row (lit "id") in
  let? breaking := try_get (from_cell_option (from_cell_i32 debug_cell)) row (lit "biggest_breaking_id") in
  Ok (mkLast version id breaking).

(** Milliseconds. *)
Definition INSTALL_RETRY_DELAYS : list Z := [50; 100; 200].

(** ** runner.rs *)

Definition check_compatible_revision (latest_migration latest_breaking_migration : option Z)
    (highest_migration : Z) : result unit MigrateError :=
  match latest_breaking_migration with
  | Some b => if highest_migration <? wrap_u32 b
              then Err (IncompatbleRevision (default 0 latest_migration) b highest_migration)
              else Ok tt
  | None => Ok tt
  end.

Definition check_migration_error (migration_number : Z) (r : result unit DbError) : result unit MigrateError :=
  match r with
  | Ok _ => Ok tt
  | Err e =>
      if (migration_number =? 11) && bool_decide (code e = Some (lit "22012"))
      then Err LockedJobInMigration11 else Err (SqlError e)
  end.

(** sql/execute.rs: the statements with the schema's name, until one fails. *)
Definition statement_texts (escaped_schema : str) (m : GraphileWorkerMigration) : list str :=
  replace (lit ":GRAPHILE_WORKER_SCHEMA") escaped_schema <$> gw_stmts m.

Fixpoint execute (answers : nat → result unit DbError) (i : nat) (stmts : list str) : result unit DbError :=
  match stmts with
  | [] => Ok tt
  | _ :: stmts => let? _ := answers i in execute answers (S i) stmts
  end.

(** Where a runner's [migrate] is: reading the state with the delays left;
    installing; before a migration; in its transaction after the insert; after
    its statements; or ended, by returning or by being dropped. *)
Inductive Phase :=
| Reading (delays : list Z)
| Installing (delays : list Z)
| Looping (last_migration : LastMigration) (pending : list GraphileWorkerMigration) (highest : Z)
| Inserted (last_migration : LastMigration) (m : GraphileWorkerMigration) (pending : list GraphileWorkerMigration) (highest : Z)
| Executed (last_migration : LastMigration) (m : GraphileWorkerMigration) (pending : list GraphileWorkerMigration) (highest : Z)
| Returned (r : result unit MigrateError)
| Dropped.

(** [migrate] after [get_last_migration]. *)
Definition start_migrations (migrations : list GraphileWorkerMigration) (r : result LastMigration MigrateError) : Phase :=
  match (let? last := r in let? _ := check_postgres_version (server_version_num last) in Ok last) with
  | Ok last => Looping last migrations 0
  | Err e => Returned (Err e)
  end.

(** The two halves of the loop of [get_last_migration]. *)
Definition after_read migrations (delays : list Z) (r : result LastMigration DbError) : Phase :=
  match r with
  | Ok last => start_migrations migrations (Ok last)
  | Err e => if bool_decide (code e = Some (lit "42P01")) then Installing delays else Returned (Err (SqlError e))
  end.

Definition after_install migrations (delays : list Z) (r : result unit MigrateError) : Phase :=
  match r with
  | Ok _ => start_migrations migrations (Ok default_last)
  | Err (SqlError e) =>
      if is_clash_error e
      then match delays with
           | [] => Returned (Err (SqlError e))
           | _ :: delays => Reading delays
           end
      else Returned (Err (SqlError e))
  | Err e => Returned (Err e)
  end.

(** [highest_migration] after a migration is visited. *)
Definition visit (highest n : Z) : Z := if highest <? n then n else highest.

(** After the insert of a migration's row. *)
Definition after_insert last m pending highest (r : result unit DbError) : Phase :=
  match r with
  | Ok _ => Inserted last m pending highest
  | Err e => if is_clash_error e then Looping last pending highest else Returned (Err (SqlError e))
  end.

Definition after_execute last m pending highest n (r : result unit DbError) : Phase :=
  match check_migration_error n r with
  | Ok _ => Executed last m pending highest
  | Err e => Returned (Err e)
  end.

Definition after_commit last pending highest (r : result unit DbError) : Phase :=
  match r with
  | Ok _ => Looping last pending highest
  | Err e => Returned (Err (SqlError e))
  end.

Definition finish (last : LastMigration) (highest : Z) : Phase :=
  Returned (check_compatible_revision (last_id last) (biggest_breaking_id last) highest).

(** ** The database and its runners *)

(** The schema: whether its table of migrations exists, its rows with their
    [breaking] flag, and the statements committed with them. *)
Record Db := mkDb { installed : bool; rows : gmap Z bool; log : list str }.

(** [Schema::escaped], and the server's version setting. *)
Context (escaped_schema server_version : str).

(** The status query on the committed rows: the largest id, and the largest
    breaking one. *)
Definition largest (l : list Z) : option Z :=
  foldr (λ n acc, match acc with None => Some n | Some m => Some (Z.max n m) end) None l.

Definition latest_migration (db : Db) : option Z := largest (map_to_list (rows db)).*1.
Definition latest_breaking (db : Db) : option Z :=
  largest (filter (λ r, r.2 = true) (map_to_list (rows db))).*1.

Definition int_cell (v : option Z) : DbCell := match v with Some n => CI32 n | None => CNull end.
Definition status_row (db : Db) : DbRow :=
  [(lit "server_version_num", CText server_version); (lit "id", int_cell (latest_migration db));
   (lit "biggest_breaking_id", int_cell (latest_breaking db))].

Definition commit_migration (n : Z) (m : GraphileWorkerMigration) (db : Db) : Db :=
  mkDb (installed db) (<[n := gw_is_breaking m]> (rows db)) (log db ++ statement_texts escaped_schema m).

(** A runner with the migrations its version knows. *)
Record Runner := mkRunner { supported : list GraphileWorkerMigration; phase : Phase }.
Record World := mkWorld { db : Db; runners : list Runner }.

Definition goto (w : World) (k : nat) (r : Runner) (p : Phase) : World :=
  mkWorld (db w) (<[k := mkRunner (supported r) p]> (runners w)).
Definition with_db (w : World) (d : Db) : World := mkWorld d (runners w).

(** Another transaction has inserted the row of [n] and not ended yet; an
    insert of the same row waits for it. *)
Definition open_insert (n : Z) (r : Runner) : Prop :=
  match phase r with
  | Inserted _ m _ _ | Executed _ m _ _ => migration_number m = Some n
  | _ => False
  end.

Definition running (p : Phase) : bool := match p with Returned _ | Dropped => false | _ => true end.

(** One step of runner [k].  The status query sees the committed rows; it
    answers [42P01] only while the table is missing.  An insert clashes only
    with a committed row.  A failing or abandoned commit may have taken effect.  Any other
    statement fails or not. *)
Inductive step (w : World) : World → Prop :=
| read k r delays res :
    runners w !! k = Some r → phase r = Reading delays →
    match res with
    | Ok rows => installed (db w) = true ∧ rows = [status_row (db w)]
    | Err e => code e = Some (lit "42P01") → installed (db w) = false
    end →
    step w (goto w k r (after_read (supported r) delays (fetch_last_migration res)))
| install k r delays version b c1 c2 c3 (lost : bool) :
    runners w !! k = Some r → phase r = Installing delays →
    (∀ rows, version = Ok rows → rows = [[(lit "server_version_num", CText server_version)]]) →
    (lost = true → install_schema version b c1 c2 (Ok tt) = Ok tt) →
    let res := install_schema version b c1 c2 c3 in
    step w (goto (with_db w (mkDb (installed (db w) || is_ok res || lost) (rows (db w)) (log (db w))))
              k r (after_install (supported r) delays res))
| skip k r last m pending highest n :
    runners w !! k = Some r → phase r = Looping last (m :: pending) highest → migration_number m = Some n →
    is_before_number last n = false →
    step w (goto w k r (Looping last pending (visit highest n)))
| begin_error k r last m pending highest n e :
    runners w !! k = Some r → phase r = Looping last (m :: pending) highest → migration_number m = Some n →
    is_before_number last n = true →
    step w (goto w k r (Returned (Err (SqlError e))))
| insert_ k r last m pending highest n res :
    runners w !! k = Some r → phase r = Looping last (m :: pending) highest → migration_number m = Some n →
    is_before_number last n = true →
    match res with
    | Ok _ => installed (db w) = true ∧ rows (db w) !! n = None ∧ Forall (λ r, ¬ open_insert n r) (runners w)
    | Err e => is_clash_error e = true → is_Some (rows (db w) !! n)
    end →
    step w (goto w k r (after_insert last m pending (visit highest n) res))
| run k r last m pending highest n answers :
    runners w !! k = Some r → phase r = Inserted last m pending highest → migration_number m = Some n →
    step w (goto w k r (after_execute last m pending highest n
              (execute answers 0 (statement_texts escaped_schema m))))
| commit k r last m pending highest n res (lost : bool) :
    runners w !! k = Some r → phase r = Executed last m pending highest → migration_number m = Some n →
    step w (goto (if is_ok res || lost then with_db w (commit_migration n m (db w)) else w)
              k r (after_commit last pending highest res))
| finish_ k r last highest :
    runners w !! k = Some r → phase r = Looping last [] highest →
    step w (goto w k r (finish last highest))
| drop_ k r :
    runners w !! k = Some r → running (phase r) = true →
    step w (goto w k r Dropped)
| drop_installing k r delays :
    runners w !! k = Some r → phase r = Installing delays →
    step w (goto (with_db w (mkDb true (rows (db w)) (log (db w)))) k r Dropped)
| drop_committing k r last m pending highest n :
    runners w !! k = Some r → phase r = Executed last m pending highest → migration_number m = Some n →
    step w (goto (with_db w (commit_migration n m (db w))) k r Dropped).

Definition reachable (w w' : World) : Prop := rtc step w w'.

(** ** What the rows and the log say *)

Section invariant.
(** All migrations ever written, of which each version knows the first ones. *)
Context (all : list GraphileWorkerMigration).
Hypothesis numbered : ∀ i m, all !! i = Some m → migration_number m = Some (Z.of_nat i + 1).

(** Exactly the first [k] migrations are recorded, and their statements were
    committed once each, in order. *)
Definition applied (k : nat) (d : Db) : Prop :=
  (k ≤ length all)%nat ∧ ((0 < k)%nat → installed d = true) ∧
  log d = concat (statement_texts escaped_schema <$> take k all) ∧
  ∀ n, rows d !! n = if bool_decide (1 ≤ n ≤ Z.of_nat k) then gw_is_breaking <$> all !! Z.to_nat (n - 1) else None.

Lemma applied_lookup k d n : applied k d → is_Some (rows d !! n) ↔ 1 ≤ n ≤ Z.of_nat k.
Proof.
  intros (Hk & _ & _ & Hr). rewrite Hr. case_bool_decide as Hn; [|split; [by intros []|done]].
  split; [done|]. intros _. apply fmap_is_Some, lookup_lt_is_Some. lia.
Qed.

Lemma applied_absent k d n : applied k d → rows d !! n = None ↔ ¬ (1 ≤ n ≤ Z.of_nat k).
Proof. intros Ha. rewrite eq_None_not_Some. by rewrite applied_lookup. Qed.

Lemma largest_elem l n : largest l = Some n → n ∈ l ∧ ∀ m, m ∈ l → m ≤ n.
Proof.
  revert n. induction l as [|x l IH]; intros n; [done|]. unfold largest in *. cbn. destruct (foldr _ None l) as [m|] eqn:E.
  - intros [= <-]. destruct (IH m eq_refl) as [Hm Hle]. split.
    + destruct (Z.max_spec x m) as [[_ ->]|[_ ->]]; set_solver.
    + intros y [->|Hy]%elem_of_cons; [lia|]. specialize (Hle y Hy). lia.
  - intros [= <-]. destruct l as [|y l]; [set_solver|]. cbn in E. by destruct (foldr _ None l).
Qed.

Lemma largest_None l : largest l = None → l = [].
Proof. destruct l as [|x l]; [done|]. unfold largest. cbn. by destruct (foldr _ None l). Qed.

Lemma largest_ge l n : n ∈ l → ∃ m, largest l = Some m ∧ n ≤ m.
Proof.
  intros Hn. destruct (largest l) as [m|] eqn:E.
  - exists m. split; [done|]. by apply (largest_elem l m E).
  - apply largest_None in E as ->. set_solver.
Qed.

Lemma latest_migration_elem d n : latest_migration d = Some n → is_Some (rows d !! n).
Proof.
  intros [Hn _]%largest_elem. apply list_elem_of_fmap in Hn as ([n' b] & -> & Hb%elem_of_map_to_list). by exists b.
Qed.

Lemma latest_migration_ge d n : is_Some (rows d !! n) → ∃ m, latest_migration d = Some m ∧ n ≤ m.
Proof. intros [b Hb]. apply largest_ge, list_elem_of_fmap. exists (n, b). split; [done|]. by apply elem_of_map_to_list. Qed.

Lemma latest_breaking_ge d n : rows d !! n = Some true → ∃ m, latest_breaking d = Some m ∧ n ≤ m ∧ is_Some (rows d !! m).
Proof.
  intros Hb. destruct (largest_ge (filter (λ r, r.2 = true) (map_to_list (rows d))).*1 n) as (m & Hm & Hle).
  { apply list_elem_of_fmap. exists (n, true). split; [done|]. apply list_elem_of_filter. split; [done|]. by apply elem_of_map_to_list. }
  exists m. split_and!; [done..|]. apply largest_elem in Hm as [Hm _].
  apply list_elem_of_fmap in Hm as ([m' b] & -> & [_ Hb']%list_elem_of_filter). apply elem_of_map_to_list in Hb'. by exists b.
Qed.

Lemma fetch_status d : fetch_last_migration (Ok [status_row d])
  = Ok (mkLast server_version (latest_migration d) (latest_breaking d)).
Proof. unfold fetch_last_migration, status_row. cbn. by destruct (latest_migration d), (latest_breaking d). Qed.

Lemma applied_commit k d m :
  applied k d → installed d = true → all !! k = Some m → applied (S k) (commit_migration (Z.of_nat k + 1) m d).
Proof.
  intros (Hk & Hi & Hl & Hr) Ei Hm. pose proof (lookup_lt_Some _ _ _ Hm). split_and!; [lia|done|..].
  - cbn. rewrite Hl, (take_S_r _ _ m) by done. rewrite fmap_app, concat_app. cbn. by rewrite app_nil_r.
  - intros n. cbn. destruct (decide (n = Z.of_nat k + 1)) as [->|Hn].
    + rewrite lookup_insert_eq, bool_decide_true by lia. replace (Z.to_nat _) with k by lia. by rewrite Hm.
    + rewrite lookup_insert_ne, Hr by done. by rewrite (bool_decide_ext _ (1 ≤ n ≤ Z.of_nat (S k))) by lia.
Qed.

(** ** Where the runners are *)

Definition last_ok (k : nat) (last : LastMigration) : Prop := ∀ id, last_id last = Some id → 0 ≤ id ≤ Z.of_nat k.

(** Everything a runner has passed is applied, and an open transaction is for
    the next migration. *)
Definition runner_ok (k : nat) (r : Runner) : Prop :=
  supported r `prefix_of` all ∧
  match phase r with
  | Looping last pending highest =>
      ∃ passed, supported r = passed ++ pending ∧ highest = Z.of_nat (length passed) ∧
        (length passed ≤ k)%nat ∧ last_ok k last
  | Inserted last m pending highest | Executed last m pending highest =>
      ∃ passed, supported r = passed ++ m :: pending ∧ highest = Z.of_nat (length passed) + 1 ∧
        length passed = k ∧ last_ok k last
  | Returned (Ok _) => (length (supported r) ≤ k)%nat
  | _ => True
  end.

Definition is_open (r : Runner) : bool := match phase r with Inserted _ _ _ _ | Executed _ _ _ _ => true | _ => false end.

Definition past_install (r : Runner) : bool := match phase r with Looping _ _ _ => true | _ => is_open r end.

Definition inv (k : nat) (w : World) : Prop :=
  applied k (db w) ∧ Forall (runner_ok k) (runners w) ∧
  (∀ i r, runners w !! i = Some r → past_install r = true → installed (db w) = true) ∧
  (∀ i j r r', runners w !! i = Some r → runners w !! j = Some r' → is_open r = true → is_open r' = true → i = j).

Lemma prefix_number sup passed m pending n :
  sup `prefix_of` all → sup = passed ++ m :: pending → migration_number m = Some n →
  n = Z.of_nat (length passed) + 1 ∧ all !! length passed = Some m.
Proof.
  intros [rest ->] -> Hn. rewrite <- app_assoc in *. cbn [app] in *.
  assert ((passed ++ m :: pending ++ rest) !! length passed = Some m) as Hl by (by apply list_lookup_middle).
  split; [|done]. apply numbered in Hl. congruence.
Qed.

(** Runners other than one that commits stay where they are. *)
Lemma runner_ok_mono k k' r : (k ≤ k')%nat → (is_open r = true → k = k') → runner_ok k r → runner_ok k' r.
Proof.
  intros Hle Ho [Hp Hr]. split; [done|]. unfold is_open in Ho. destruct (phase r) as [| |last ? ?|last ? ? ?|last ? ? ?|[]|]; try done.
  - destruct Hr as (passed & ? & ? & ? & Hl). exists passed. split_and!; [done|done|lia|]. intros id Hid. specialize (Hl id Hid). lia.
  - specialize (Ho eq_refl). by subst k'.
  - specialize (Ho eq_refl). by subst k'.
  - lia.
Qed.

(** Moving one runner, to where it may be and where no other is. *)
Lemma inv_goto k w i r p :
  inv k w → runners w !! i = Some r → runner_ok k (mkRunner (supported r) p) →
  (past_install (mkRunner (supported r) p) = true → past_install r = true ∨ installed (db w) = true) →
  (is_open (mkRunner (supported r) p) = true → is_open r = true ∨ Forall (λ r, is_open r = false) (runners w)) →
  inv k (goto w i r p).
Proof.
  intros (Ha & Hr & Hi & Hu) Hw Hp Hins Ho. pose proof (lookup_lt_Some _ _ _ Hw) as Hlt.
  assert (∀ j r', runners w !! j = Some r' → is_open r' = true → is_open (mkRunner (supported r) p) = true → j = i) as Hone.
  { intros j r' Hj Hop Hop'. destruct (Ho Hop') as [Hor|Hall]; [by eapply Hu|].
    eapply Forall_lookup_1 in Hall; [|done]. cbn in Hall. congruence. }
  split_and!; cbn.
  - done.
  - by apply Forall_insert.
  - intros j r' Hj Hop. destruct (decide (i = j)) as [<-|Hne].
    + rewrite list_lookup_insert_eq in Hj by done. injection Hj as <-. destruct (Hins Hop); [by eapply Hi|done].
    + rewrite list_lookup_insert_ne in Hj by done. by eapply Hi.
  - intros j j' rj rj' Hj Hj' Hop Hop'.
    destruct (decide (i = j)) as [<-|Hne], (decide (i = j')) as [<-|Hne']; [done|..].
    + rewrite list_lookup_insert_eq in Hj by done. rewrite list_lookup_insert_ne in Hj' by done. injection Hj as <-.
      symmetry. by eapply Hone.
    + rewrite list_lookup_insert_eq in Hj' by done. rewrite list_lookup_insert_ne in Hj by done. injection Hj' as <-. by eapply Hone.
    + rewrite list_lookup_insert_ne in Hj, Hj' by done. by eapply Hu.
Qed.

(** The same for one that ends or stays in the loop. *)
Lemma inv_goto_loop k w i r p :
  inv k w → runners w !! i = Some r → runner_ok k (mkRunner (supported r) p) →
  is_open (mkRunner (supported r) p) = false → past_install r = true ∨ past_install (mkRunner (supported r) p) = false →
  inv k (goto w i r p).
Proof. intros Hi Hw Hp Ho Hpast. apply inv_goto; [done..| |by rewrite Ho]. destruct Hpast as [?| ->]; [by left|done]. Qed.

Lemma start_ok k r last : supported r `prefix_of` all → last_ok k last →
  runner_ok k (mkRunner (supported r) (start_migrations (supported r) (Ok last))).
Proof.
  intros Hp Hl. split; [done|]. unfold start_migrations. cbn. destruct (check_postgres_version _); [|done].
  exists []. split_and!; [done..|cbn; lia|done].
Qed.

Lemma after_read_not_open sup delays r : is_open (mkRunner sup (after_read sup delays r)) = false.
Proof. unfold after_read, start_migrations. by repeat case_match. Qed.

Lemma after_install_not_open sup delays r : is_open (mkRunner sup (after_install sup delays r)) = false.
Proof. unfold after_install, start_migrations. by repeat case_match. Qed.

Lemma visit_next d : visit (Z.of_nat d) (Z.of_nat d + 1) = Z.of_nat d + 1.
Proof. unfold visit. by destruct (Z.ltb_spec (Z.of_nat d) (Z.of_nat d + 1)); [|lia]. Qed.

Lemma status_ok k d : applied k d → last_ok k (mkLast server_version (latest_migration d) (latest_breaking d)).
Proof. intros Ha id Hid%latest_migration_elem. apply (applied_lookup k d id Ha) in Hid. lia. Qed.

(** Passing a migration that is applied. *)
Lemma pass_ok k r last m pending highest n :
  runner_ok k r → phase r = Looping last (m :: pending) highest → migration_number m = Some n → n ≤ Z.of_nat k →
  runner_ok k (mkRunner (supported r) (Looping last pending (visit highest n))).
Proof.
  intros [Hp Hr] E Hn Hle. rewrite E in Hr. destruct Hr as (passed & Hs & -> & Hlen & Hl).
  destruct (prefix_number _ passed m pending n Hp Hs Hn) as [-> _]. split; [done|]. exists (passed ++ [m]). cbn.
  rewrite length_app, visit_next. cbn. split_and!; [by rewrite <- app_assoc|lia|lia|done].
Qed.

Lemma skip_applied k last n : last_ok k last → is_before_number last n = false → n ≤ Z.of_nat k.
Proof.
  intros Hl. unfold is_before_number. destruct (last_id last) as [id|] eqn:E; [|done]. specialize (Hl id E).
  destruct (Z.leb_spec 0 id); [|lia]. intros Hb%Z.ltb_ge. lia.
Qed.

(** An insert that succeeds is for the next migration, and no other is open. *)
Lemma insert_ok k w i r last m pending highest n :
  inv k w → runners w !! i = Some r → phase r = Looping last (m :: pending) highest → migration_number m = Some n →
  rows (db w) !! n = None → Forall (λ r, ¬ open_insert n r) (runners w) →
  runner_ok k (mkRunner (supported r) (Inserted last m pending (visit highest n))) ∧
  Forall (λ r, is_open r = false) (runners w).
Proof.
  intros (Ha & Hr & _) Hw E Hn Hnone Hopen. pose proof (Forall_lookup_1 _ _ _ _ Hr Hw) as [Hp Hl]. rewrite E in Hl.
  destruct Hl as (passed & Hs & -> & Hlen & Hlast). destruct (prefix_number _ passed m pending n Hp Hs Hn) as [-> _].
  apply (applied_absent k) in Hnone; [|done]. assert (length passed = k) as Hk by lia. split.
  - split; [done|]. exists passed. by rewrite visit_next.
  - apply Forall_forall. intros r' Hr'. rewrite Forall_forall in Hr, Hopen. specialize (Hr r' Hr') as [Hp' Hl'].
    specialize (Hopen r' Hr'). unfold open_insert, is_open in *.
    destruct (phase r') as [| | |last' m' pending' h'|last' m' pending' h'| |]; try done;
      destruct Hl' as (passed' & Hs' & _ & Hk' & _); destruct Hopen;
      (destruct (migration_number m') as [n'|] eqn:Em;
         [destruct (prefix_number _ passed' m' pending' n' Hp' Hs' Em) as [-> _]; f_equal; lia|]);
      exfalso; destruct Hp' as [rest Hrest]; rewrite Hs', <- app_assoc in Hrest; cbn in Hrest;
      rewrite (numbered (length passed') m') in Em; done || (rewrite Hrest; by apply list_lookup_middle).
Qed.

Lemma inv_with_db k w d : inv k w → applied k d → (installed (db w) = true → installed d = true) → inv k (with_db w d).
Proof. intros (Ha & Hr & Hi & Hu) Hd Hm. split_and!; cbn; [done|done| |done]. intros i r Hr' Ho. apply Hm. by eapply Hi. Qed.

Lemma applied_installed k d b : applied k d → (installed d = true → b = true) → applied k (mkDb b (rows d) (log d)).
Proof. intros (Hk & Hi & Hl & Hr) Hb. split_and!; cbn; auto. Qed.

(** A commit of the open transaction. *)
Lemma inv_commit k w i r last m pending highest n p :
  inv k w → runners w !! i = Some r → phase r = Executed last m pending highest → migration_number m = Some n →
  runner_ok (S k) (mkRunner (supported r) p) → is_open (mkRunner (supported r) p) = false →
  inv (S k) (goto (with_db w (commit_migration n m (db w))) i r p).
Proof.
  intros (Ha & Hr & Hi & Hu) Hw E Hn Hp Hop. pose proof (lookup_lt_Some _ _ _ Hw) as Hlt.
  pose proof (Forall_lookup_1 _ _ _ _ Hr Hw) as [Hpre Hl]. rewrite E in Hl. destruct Hl as (passed & Hs & _ & Hk & _).
  destruct (prefix_number _ passed m pending n Hpre Hs Hn) as [-> Hm]. rewrite Hk in *.
  assert (is_open r = true) as Hor by (unfold is_open; by rewrite E).
  assert (∀ j r', j ≠ i → runners w !! j = Some r' → is_open r' = false) as Hcl.
  { intros j r' Hne Hj. apply not_true_iff_false. intros Ho. by destruct Hne; eapply Hu. }
  split_and!; cbn.
  - apply applied_commit; [done| |done]. eapply Hi; [done|]. unfold past_install. by rewrite E.
  - apply Forall_lookup. intros j r' Hj. destruct (decide (i = j)) as [<-|Hne].
    + rewrite list_lookup_insert_eq in Hj by done. by injection Hj as <-.
    + rewrite list_lookup_insert_ne in Hj by done. eapply (runner_ok_mono k); [lia| |by eapply Forall_lookup_1].
      intros Ho. by rewrite (Hcl j r') in Ho.
  - intros j r' _ _. apply (Hi i r Hw). unfold past_install. by rewrite E.
  - intros j j' rj rj' Hj Hj' Ho Ho'.
    assert (∀ j r', <[i:=mkRunner (supported r) p]> (runners w) !! j = Some r' → is_open r' = false) as Hnone.
    { intros j0 r0 Hj0. destruct (decide (i = j0)) as [<-|Hne].
      + rewrite list_lookup_insert_eq in Hj0 by done. by injection Hj0 as <-.
      + rewrite list_lookup_insert_ne in Hj0 by done. by eapply Hcl. }
    by rewrite (Hnone _ _ Hj) in Ho.
Qed.

Lemma executed_next k r last m pending highest n :
  runner_ok k r → phase r = Executed last m pending highest → migration_number m = Some n →
  runner_ok (S k) (mkRunner (supported r) (Looping last pending highest)).
Proof.
  intros [Hp Hl] E Hn. rewrite E in Hl. destruct Hl as (passed & Hs & -> & Hk & Hl). split; [done|]. exists (passed ++ [m]).
  rewrite length_app. cbn. split_and!; [by rewrite <- app_assoc|lia|lia|]. intros id Hid. specialize (Hl id Hid). lia.
Qed.

Lemma migration_inv_step k w w' : inv k w → step w w' → ∃ k', (k ≤ k')%nat ∧ inv k' w'.
Proof.
  intros Hi Hs. pose proof Hi as (Ha & Hr & Ho & Hu).
  assert (∀ i r, runners w !! i = Some r → runner_ok k r) as Hok by (intros; by eapply Forall_lookup_1).
  inversion Hs as [i r delays res Hw E Hres|i r delays version b c1 c2 c3 lost Hw E Hv Hlost|i r last m pending highest n Hw E Hn Hb
    |i r last m pending highest n e Hw E Hn Hb|i r last m pending highest n res Hw E Hn Hb Hres|i r last m pending highest n answers Hw E Hn
    |i r last m pending highest n res lost Hw E Hn|i r last highest Hw E|i r Hw Hrun|i r delays Hw E|i r last m pending highest n Hw E Hn];
    subst; pose proof (Hok i r Hw) as Hri; pose proof Hri as [Hp Hl].
  - exists k. split; [done|]. apply inv_goto; [done..| | |by rewrite after_read_not_open]; destruct res as [rs|e].
    + destruct Hres as [_ ->]. rewrite fetch_status. by apply start_ok, status_ok.
    + split; [done|]. change (fetch_last_migration (Err e)) with (Err e : result LastMigration DbError).
      unfold after_read. by destruct (bool_decide _).
    + right. apply Hres.
    + change (fetch_last_migration (Err e)) with (Err e : result LastMigration DbError).
      unfold after_read. by destruct (bool_decide _).
  - exists k. split; [done|].
    assert (applied k (mkDb (installed (db w) || is_ok (install_schema version b c1 c2 c3) || lost) (rows (db w)) (log (db w)))) as Ha'
      by (apply applied_installed; [done|by intros ->]).
    apply inv_goto; [by apply inv_with_db; [..|cbn; intros ->]|done| | |by rewrite after_install_not_open].
    + unfold after_install. repeat case_match; try (by split). by apply start_ok.
    + destruct (install_schema version b c1 c2 c3) as [[]|e]; [intros _; right; cbn; by rewrite orb_true_r|].
      unfold after_install. repeat case_match; done.
  - exists k. split; [done|]. rewrite E in Hl. destruct Hl as (passed & ? & ? & ? & Hl).
    apply inv_goto_loop; [done..| |done|by left; unfold past_install; rewrite E]. eapply pass_ok; [done..|]. by eapply skip_applied.
  - exists k. split; [done|]. apply inv_goto_loop; [done..|by split|done|by right].
  - exists k. split; [done|]. assert (past_install r = true) as Hpast by (unfold past_install; by rewrite E).
    destruct res as [[]|e]; cbn.
    + destruct Hres as (Hin & Hnone & Hopen). destruct (insert_ok k w i r last m pending highest n) as [H1 H2]; [done..|].
      apply inv_goto; [done..|by left|by right].
    + destruct (is_clash_error e); [|apply inv_goto_loop; [done..|by split|done|by right]].
      apply inv_goto_loop; [done..| |done|by left].
      eapply pass_ok; [done..|]. destruct (proj1 (applied_lookup k (db w) n Ha) (Hres eq_refl)). done.
  - exists k. split; [done|]. unfold after_execute. assert (is_open r = true) as Hop by (unfold is_open; by rewrite E).
    destruct (check_migration_error _ _); [|apply inv_goto_loop; [done..|by split|done|by right]].
    apply inv_goto; [done..| | |by left].
    + split; [done|]. rewrite E in Hl. done.
    + intros _. left. unfold past_install. by rewrite E.
  - destruct (is_ok res || lost) eqn:El.
    + exists (S k). split; [lia|]. eapply inv_commit; [done..| |by destruct res]. destruct res; [|by split]. by eapply executed_next.
    + exists k. split; [done|]. destruct res; [done|]. apply inv_goto_loop; [done..|by split|done|by right].
  - exists k. split; [done|]. apply inv_goto_loop; [done..| |done|by right]. split; [done|]. cbn. rewrite E in Hl.
    destruct Hl as (passed & Hs' & _ & Hk & _). rewrite app_nil_r in Hs'. rewrite Hs'. by case_match.
  - exists k. split; [done|]. apply inv_goto_loop; [done..|by split|done|by right].
  - exists k. split; [done|].
    apply inv_goto_loop; [apply inv_with_db; [done|by apply applied_installed|done]|done|by split|done|by right].
  - exists (S k). split; [lia|]. eapply inv_commit; [done..|by split|done].
Qed.

(** The database holds the first migrations and every runner is about to
    start. *)
Definition starting (k : nat) (w : World) : Prop :=
  applied k (db w) ∧ Forall (λ r, supported r `prefix_of` all ∧ phase r = Reading INSTALL_RETRY_DELAYS) (runners w).

Lemma starting_inv k w : starting k w → inv k w.
Proof.
  intros [Ha Hr]. assert (∀ i r, runners w !! i = Some r → is_open r = false) as Hc.
  { intros i r Hw. eapply Forall_lookup_1 in Hr as [_ E]; [|done]. unfold is_open. by rewrite E. }
  split_and!; [done|..].
  - eapply Forall_impl; [done|]. intros r [Hp E]. split; [done|]. by rewrite E.
  - intros i r Hw. eapply Forall_lookup_1 in Hr as [_ E]; [|done]. unfold past_install, is_open. by rewrite E.
  - intros i j r r' Hi _ Ho. by rewrite (Hc i r Hi) in Ho.
Qed.

Lemma reachable_applied k w w' : inv k w → reachable w w' → ∃ k', (k ≤ k')%nat ∧ inv k' w'.
Proof.
  intros Hi Hr. unfold reachable in Hr. revert k Hi. induction Hr as [w|w w1 w2 Hs _ IH]; intros k Hi; [by exists k|].
  destruct (migration_inv_step k w w1 Hi Hs) as (k1 & Hle & Hi1). destruct (IH k1 Hi1) as (k2 & ? & ?). exists k2. split; [lia|done].
Qed.


(** ** Refusing a revision that is not supported *)

Lemma migration_number_u32 m n : migration_number m = Some n → n ≤ U32_MAX.
Proof.
  unfold migration_number. destruct (str_slice _ 1 7) as [d|]; [|done]. cbn.
  destruct (parse_u32 d) as [v|] eqn:E; [|done]. intros [= <-].
  apply parse_uint_le in E; unfold U32_MAX in *; lia.
Qed.

Lemma applied_u32 k d n : applied k d → is_Some (rows d !! n) → 0 ≤ n ≤ U32_MAX.
Proof.
  intros Ha Hn. apply (applied_lookup k d n Ha) in Hn. destruct Ha as [Hk _].
  destruct (lookup_lt_is_Some_2 all (Z.to_nat (n - 1))) as [m Hm]; [lia|]. apply numbered, migration_number_u32 in Hm. lia.
Qed.

(** A runner that found breaking migration [b], or has not looked yet. *)
Definition refusing (b : Z) (r : Runner) : Prop :=
  Z.of_nat (length (supported r)) < b ∧
  match phase r with
  | Reading _ | Returned (Err _) | Dropped => True
  | Looping last _ _ =>
      ∃ id b', last_id last = Some id ∧ b ≤ id ∧ biggest_breaking_id last = Some b' ∧ b ≤ b' ≤ U32_MAX
  | _ => False
  end.

Lemma refusing_before b k r last m pending highest n :
  runner_ok k r → refusing b r → phase r = Looping last (m :: pending) highest → migration_number m = Some n →
  is_before_number last n = false.
Proof.
  intros [Hp Hl] [Hb Hr] E Hn. rewrite E in *. destruct Hl as (passed & Hs & _ & _ & _), Hr as (id & b' & Hid & Hle & _).
  destruct (prefix_number _ passed m pending n Hp Hs Hn) as [-> _]. unfold is_before_number. rewrite Hid.
  rewrite Hs, length_app in Hb. cbn in Hb. destruct (Z.leb_spec 0 id); [|lia]. apply Z.ltb_ge. lia.
Qed.

(** The runner's own step keeps refusing; the rows stay. *)
Lemma refusing_step k w w' i r b :
  inv k w → step w w' → runners w !! i = Some r → refusing b r → rows (db w) !! b = Some true →
  ∃ r', runners w' !! i = Some r' ∧ refusing b r'.
Proof.
  intros Hi Hs Hw Hr Hb. pose proof Hi as (Ha & Hok & _). pose proof (Forall_lookup_1 _ _ _ _ Hok Hw) as Hri.
  assert (installed (db w) = true) as Hins.
  { destruct Ha as (_ & Hin & _). pose proof (proj1 (applied_lookup k (db w) b ltac:(apply Hi)) ltac:(by exists true)). apply Hin. lia. }
  assert (∀ d j r0 p, runners w !! j = Some r0 → (j = i → r0 = r → refusing b (mkRunner (supported r) p)) →
            ∃ r', runners (goto (with_db w d) j r0 p) !! i = Some r' ∧ refusing b r') as Hgo.
  { intros d j r0 p Hj Hp. cbn. destruct (decide (j = i)) as [->|Hne].
    - rewrite list_lookup_insert_eq by (by eapply lookup_lt_Some). assert (r0 = r) as -> by congruence. eauto.
    - rewrite list_lookup_insert_ne by done. eauto. }
  assert (∀ j r0 p, runners w !! j = Some r0 → (j = i → r0 = r → refusing b (mkRunner (supported r) p)) →
            ∃ r', runners (goto w j r0 p) !! i = Some r' ∧ refusing b r') as Hgo'.
  { intros j r0 p. destruct w as [d rs]. exact (Hgo d j r0 p). }
  pose proof Hr as [Hlt Hph].
  inversion Hs as [j r0 delays res Hw0 E Hres|j r0 delays version b0 c1 c2 c3 lost Hw0 E Hv Hlost|j r0 last m pending highest n Hw0 E Hn Hbf
    |j r0 last m pending highest n e Hw0 E Hn Hbf|j r0 last m pending highest n res Hw0 E Hn Hbf Hres|j r0 last m pending highest n answers Hw0 E Hn
    |j r0 last m pending highest n res lost Hw0 E Hn|j r0 last highest Hw0 E|j r0 Hw0 Hrun|j r0 delays Hw0 E|j r0 last m pending highest n Hw0 E Hn];
    subst.
  all: try (apply Hgo; [done|]; intros -> ->; rewrite E in Hph; done).
  - apply Hgo'; [done|]. intros -> ->. split; [done|]. cbn. destruct res as [rs|e].
    + destruct Hres as [_ ->]. rewrite fetch_status. cbn [after_read]. unfold start_migrations. cbn [server_version_num].
      destruct (check_postgres_version _); [|done]. cbn.
      destruct (latest_migration_ge (db w) b) as (id & Hid & Hle); [by exists true|].
      destruct (latest_breaking_ge (db w) b) as (b' & Hb' & Hle' & Hin); [done|]. exists id, b'. split_and!; try done.
      by apply (applied_u32 k (db w)).
    + change (fetch_last_migration (Err e)) with (Err e : result LastMigration DbError). unfold after_read.
      case_bool_decide as Hc; [|done]. specialize (Hres Hc). congruence.
  - apply Hgo'; [done|]. intros -> ->. by rewrite (refusing_before b k r last m pending highest n) in Hbf.
  - destruct (is_ok res || lost); [apply Hgo; [done|]|apply Hgo'; [done|]]; intros -> ->; by rewrite E in Hph.
  - apply Hgo'; [done|]. intros -> ->. split; [done|]. rewrite E in Hph. destruct Hph as (id & b' & _ & _ & Hb' & Hle & Hmax).
    destruct Hri as [_ Hl]. rewrite E in Hl. destruct Hl as (passed & Hsup & -> & _ & _). rewrite app_nil_r in Hsup. cbn.
    unfold check_compatible_revision. rewrite Hb', wrap_u32_id by (unfold is_u32; lia). rewrite Hsup in Hlt.
    by destruct (Z.ltb_spec (Z.of_nat (length passed)) b'); [|lia].
  - apply Hgo'; [done|]. intros -> ->. by split.
Qed.

Lemma rows_kept k w w' b : inv k w → step w w' → rows (db w) !! b = Some true → rows (db w') !! b = Some true.
Proof.
  intros Hi Hs Hb. destruct (migration_inv_step k w w' Hi Hs) as (k' & Hle & Ha' & _). destruct Hi as (Ha & _).
  pose proof (proj1 (applied_lookup k (db w) b Ha) ltac:(by exists true)) as Hrange.
  destruct Ha as (_ & _ & _ & Hr), Ha' as (_ & _ & _ & Hr'). rewrite Hr in Hb. rewrite Hr'.
  rewrite bool_decide_true in Hb by lia. by rewrite bool_decide_true by lia.
Qed.

Lemma refusing_reachable k w w' i r b :
  inv k w → reachable w w' → runners w !! i = Some r → refusing b r → rows (db w) !! b = Some true →
  ∃ r', runners w' !! i = Some r' ∧ refusing b r'.
Proof.
  intros Hi Hr. unfold reachable in Hr. revert k r Hi. induction Hr as [w|w w1 w2 Hs _ IH]; intros k r Hi Hw Hrf Hb; [by eauto|].
  destruct (refusing_step k w w1 i r b) as (r1 & Hw1 & Hr1); [done..|]. destruct (migration_inv_step k w w1 Hi Hs) as (k1 & _ & Hi1).
  eapply (IH k1 r1); [done..|]. by eapply (rows_kept k w).
Qed.
End invariant.

(** C11: Migrations run once and in order.  However any number of runners, of
    whatever versions, interleave, fail, lose replies and are dropped, the
    recorded migrations are always the first ones, each recorded with its flag,
    and the committed statements are exactly theirs, once each and in order;
    nothing recorded is lost; and a runner that has returned success has had
    every migration it knows applied. *)
Theorem migrations_apply_once_in_order display entries all k w w' :
  expand_include_migrations display entries = Some (Ok all) → starting all k w → reachable w w' →
  ∃ k', (k ≤ k')%nat ∧ applied all k' (db w') ∧
    ∀ i r, runners w' !! i = Some r → phase r = Returned (Ok tt) → (length (supported r) ≤ k')%nat.
Proof.
  intros (_ & Hnum & _)%expanded_numbered Hs Hr. destruct (reachable_applied all Hnum k w w' (starting_inv all k w Hs) Hr) as (k' & Hle & Ha & Hok & _).
  exists k'. split_and!; [done..|]. intros i r Hi E. eapply Forall_lookup_1 in Hok as [_ Hl]; [|done]. by rewrite E in Hl.
Qed.


(** A schema with a breaking migration beyond what a runner knows is
    refused.  If one is recorded when the runner starts, then whatever else
    happens the runner never opens a transaction and never returns success. *)
Theorem unsupported_revision_refused display entries all k w w' i r b :
  expand_include_migrations display entries = Some (Ok all) → starting all k w → reachable w w' →
  runners w !! i = Some r → rows (db w) !! b = Some true → Z.of_nat (length (supported r)) < b →
  ∃ r', runners w' !! i = Some r' ∧ is_open r' = false ∧ phase r' ≠ Returned (Ok tt).
Proof.
  intros (_ & Hnum & _)%expanded_numbered Hs Hr Hi Hb Hlt.
  destruct (refusing_reachable all Hnum k w w' i r b) as (r' & Hr' & _ & Hp); [by apply starting_inv|done|done| |done|].
  - split; [done|]. destruct Hs as [_ Hs]. eapply Forall_lookup_1 in Hs as [_ ->]; done.
  - exists r'. split_and!; [done|..]; [unfold is_open|intros E; rewrite E in Hp]; by repeat case_match.
Qed.

(** ** Ending *)

(** Steps a runner may still take. *)
Definition remaining (r : Runner) : nat :=
  match phase r with
  | Reading delays => 2 * length delays + 3 * length (supported r) + 3
  | Installing delays => 2 * length delays + 3 * length (supported r) + 2
  | Looping _ pending _ => 3 * length pending + 1
  | Inserted _ _ pending _ => 3 * length pending + 3
  | Executed _ _ pending _ => 3 * length pending + 2
  | Returned _ | Dropped => 0
  end.
Definition total (w : World) : nat := sum_list (remaining <$> runners w).

Lemma start_remaining sup last : (remaining (mkRunner sup (start_migrations sup (Ok last))) ≤ 3 * length sup + 1)%nat.
Proof. unfold start_migrations. cbn [mbind]. destruct (check_postgres_version _); cbn; lia. Qed.

Lemma after_read_remaining sup delays r :
  (remaining (mkRunner sup (after_read sup delays r)) < remaining (mkRunner sup (Reading delays)))%nat.
Proof.
  unfold after_read. destruct r as [last|e].
  - pose proof (start_remaining sup last). cbn in *. lia.
  - case_bool_decide; cbn; lia.
Qed.

Lemma after_install_remaining sup delays r :
  (remaining (mkRunner sup (after_install sup delays r)) < remaining (mkRunner sup (Installing delays)))%nat.
Proof.
  unfold after_install. destruct r as [|e].
  - pose proof (start_remaining sup default_last). cbn in *. lia.
  - destruct e as [| | |e|]; cbn; try lia. destruct (is_clash_error e); cbn; [|lia]. destruct delays; cbn; lia.
Qed.

Lemma step_decreases w w' : step w w' → (total w' < total w)%nat.
Proof.
  assert (∀ d i r p, runners w !! i = Some r → (remaining (mkRunner (supported r) p) < remaining r)%nat →
            (total (goto (with_db w d) i r p) < total w)%nat) as Hgo.
  { intros d i r p Hw Hlt. pose proof (sum_list_insert remaining _ _ _ (mkRunner (supported r) p) Hw). unfold total. cbn. lia. }
  assert (∀ i r p, runners w !! i = Some r → (remaining (mkRunner (supported r) p) < remaining r)%nat →
            (total (goto w i r p) < total w)%nat) as Hgo'.
  { intros i r p Hw Hlt. pose proof (sum_list_insert remaining _ _ _ (mkRunner (supported r) p) Hw). unfold total. cbn. lia. }
  intros Hs.
  inversion Hs as [i r delays res Hw E Hres|i r delays version b c1 c2 c3 lost Hw E Hv Hlost|i r last m pending highest n Hw E Hn Hb
    |i r last m pending highest n e Hw E Hn Hb|i r last m pending highest n res Hw E Hn Hb Hres|i r last m pending highest n answers Hw E Hn
    |i r last m pending highest n res lost Hw E Hn|i r last highest Hw E|i r Hw Hrun|i r delays Hw E|i r last m pending highest n Hw E Hn];
    subst; try (destruct (is_ok res || lost)); first [apply Hgo'|apply Hgo]; try done; unfold remaining; cbn [phase supported]; rewrite ?E.
  1: pose proof (after_read_remaining (supported r) delays (fetch_last_migration res)) as Hrem; unfold remaining in Hrem;
    cbn [phase supported] in Hrem; lia.
  1,2: pose proof (after_install_remaining (supported r) delays res) as Hrem; unfold remaining in Hrem;
    cbn [phase supported] in Hrem; lia.
  - cbn. lia.
  - cbn. lia.
  - unfold after_insert. destruct res; cbn; [lia|]. destruct (is_clash_error _); cbn; lia.
  - unfold after_execute. destruct (check_migration_error _ _); cbn; lia.
  - destruct res; cbn; lia.
  - destruct res; cbn; lia.
  - cbn. lia.
  - destruct (phase r); cbn in *; done || lia.
  - cbn. lia.
  - cbn. lia.
Qed.

(** A phase that a runner reaches with neither a failing statement nor being
    dropped. *)
Definition undisturbed (p : Phase) : Prop := p ≠ Dropped ∧ ∀ e, p ≠ Returned (Err (SqlError e)).

Lemma start_undisturbed sup last : undisturbed (start_migrations sup (Ok last)).
Proof.
  unfold start_migrations, check_postgres_version. destruct (parse_u32 (server_version_num last)) as [v|]; cbn; [|done].
  by destruct (v <? 120000).
Qed.

Lemma execute_ok i stmts : execute (λ _, Ok tt) i stmts = Ok tt.
Proof. revert i. induction stmts as [|s stmts IH]; intros i; cbn; auto. Qed.

Lemma install_answers v :
  install_schema (Ok [[(lit "server_version_num", CText v)]]) (Ok tt) (Ok tt) (Ok tt) (Ok tt)
  = result_map (λ _, tt) (check_postgres_version v).
Proof.
  unfold install_schema.
  assert (fetch_and_check_postgres_version (Ok [[(lit "server_version_num", CText v)]]) = check_postgres_version v) as ->; [done|].
  by destruct (check_postgres_version v).
Qed.

Lemma install_undisturbed sup delays v :
  undisturbed (after_install sup delays (result_map (λ _, tt) (check_postgres_version v))).
Proof.
  unfold check_postgres_version. destruct (parse_u32 v) as [n|]; cbn; [|done].
  destruct (n <? 120000); cbn; [done|apply start_undisturbed].
Qed.

(** Some runner can go on undisturbed while one is running. *)
Lemma progress all k w i r :
  (∀ i m, all !! i = Some m → migration_number m = Some (Z.of_nat i + 1)) →
  inv all k w → runners w !! i = Some r → running (phase r) = true →
  ∃ j r' d p, runners w !! j = Some r' ∧ undisturbed p ∧ step w (goto (with_db w d) j r' p).
Proof.
  intros Hnum (Ha & Hr & Hi & _) Hw Hrun.
  assert (∀ j r' passed m pending, runners w !! j = Some r' → supported r' = passed ++ m :: pending →
            migration_number m = Some (Z.of_nat (length passed) + 1)) as Hn.
  { intros j r' passed m pending Hj Hs. eapply Forall_lookup_1 in Hr as [Hp _]; [|done]. destruct Hp as [rest E].
    apply Hnum. rewrite E, Hs, <- app_assoc. by apply list_lookup_middle. }
  assert (∀ j r', runners w !! j = Some r' → is_open r' = true →
            ∃ j r' d p, runners w !! j = Some r' ∧ undisturbed p ∧ step w (goto (with_db w d) j r' p)) as Hopen.
  { intros j r' Hj Ho. pose proof (Forall_lookup_1 _ _ _ _ Hr Hj) as [_ Hl]. unfold is_open in Ho.
    destruct (phase r') as [| |?|last m pending h|last m pending h|?|] eqn:E; try done; destruct Hl as (passed & Hs & _).
    - exists j, r', (db w), (Executed last m pending h). split; [done|]. split; [done|].
      assert (with_db w (db w) = w) as -> by (by destruct w).
      pose proof (run w j r' last m pending h _ (λ _, Ok tt) Hj E (Hn j r' passed m pending Hj Hs)) as Hrun'.
      unfold after_execute in Hrun'. by rewrite execute_ok in Hrun'.
    - eexists j, r', _, _. split; [done|]. split; [|eapply (commit w j r' last m pending h _ (Ok tt) false); [done..|by eapply Hn]]. done. }
  destruct (decide (Exists (λ r, is_open r = true) (runners w))) as [He|Hne].
  { apply Exists_exists in He as (r' & Hr' & Ho). apply list_elem_of_lookup in Hr' as [j Hj]. eauto. }
  pose proof (Forall_lookup_1 _ _ _ _ Hr Hw) as [_ Hl].
  assert (∀ d' p, undisturbed p → step w (goto (with_db w d') i r p) →
            ∃ j r' d p, runners w !! j = Some r' ∧ undisturbed p ∧ step w (goto (with_db w d) j r' p)) as Hdo
    by (intros d' p Hp Hs; by exists i, r, d', p).
  assert (with_db w (db w) = w) as Hsame by (by destruct w).
  assert (∀ p, undisturbed p → step w (goto w i r p) →
            ∃ j r' d p, runners w !! j = Some r' ∧ undisturbed p ∧ step w (goto (with_db w d) j r' p)) as Hdo'
    by (intros p Hp Hs; apply (Hdo (db w) p Hp); by rewrite Hsame).
  destruct (phase r) as [delays|delays|last [|m pending] h|last m pending h|last m pending h|?|] eqn:E; try done.
  - destruct (installed (db w)) eqn:Ein.
    + eapply Hdo'; [|eapply (read _ i r delays (Ok _)); done]. rewrite fetch_status. apply start_undisturbed.
    + eapply Hdo'; [|eapply (read _ i r delays (Err (with_code [] (lit "42P01")))); done]. done.
  - eapply Hdo; [|eapply (install w i r delays (Ok [[(lit "server_version_num", CText server_version)]]) (Ok tt) (Ok tt) (Ok tt) (Ok tt) false);
      [done|done|by intros ? [= <-]|done]].
    rewrite install_answers. apply install_undisturbed.
  - eapply Hdo'; [|eapply finish_; done]. unfold finish, check_compatible_revision. repeat case_match; done.
  - destruct Hl as (passed & Hs & _). pose proof (Hn i r passed m pending Hw Hs) as Hm. set (n := Z.of_nat (length passed) + 1) in *.
    destruct (is_before_number last n) eqn:Eb; [|eapply Hdo'; [|eapply skip; done]; done].
    destruct (rows (db w) !! n) as [b|] eqn:Er.
    + eapply Hdo'; [|eapply (insert_ _ i r last m pending h n (Err (with_code [] (lit "23505")))); [done..|by intros _; exists b]]. done.
    + eapply Hdo'; [|eapply (insert_ _ i r last m pending h n (Ok tt)); [done..|]]; [done|].
      split_and!; [apply (Hi i r Hw); unfold past_install; by rewrite E|done|]. apply Forall_forall. intros r' Hr' Ho.
      apply Hne, Exists_exists. exists r'. split; [done|]. unfold open_insert, is_open in *. by destruct (phase r').
  - apply (Hopen i r Hw). unfold is_open. by rewrite E.
  - apply (Hopen i r Hw). unfold is_open. by rewrite E.
Qed.

(** Migrating ends.  Every step of any runner decreases a bounded count, so
    no interleaving is infinite; and no runners wait for one another for ever:
    while one is running, some step is possible in which no statement fails and
    no runner is dropped. *)
Theorem migrate_terminates display entries all k w w' :
  expand_include_migrations display entries = Some (Ok all) → starting all k w → reachable w w' →
  (∀ w'', step w' w'' → (total w'' < total w')%nat) ∧
  (∀ i r, runners w' !! i = Some r → running (phase r) = true →
   ∃ j r' d p, runners w' !! j = Some r' ∧ undisturbed p ∧ step w' (goto (with_db w' d) j r' p)).
Proof.
  intros (_ & Hnum & _)%expanded_numbered Hs Hr. split; [intros w''; apply step_decreases|]. intros i r Hi Hrun.
  destruct (reachable_applied all Hnum k w w' (starting_inv all k w Hs) Hr) as (k' & _ & Hinv). by eapply progress.
Qed.
End migrations.

(** ** Witnesses *)

Definition demo_display (f : str) : str := lit "src/sql/" ++ f.
Definition demo_entries : list DirEntry :=
  [mkEntry (lit "m000002.sql") true (Ok (lit "-- graphile-worker-rs:breaking" ++ [10] ++ lit "alter table :GRAPHILE_WORKER_SCHEMA.jobs;"));
   mkEntry (lit "mod.rs") true (Ok []);
   mkEntry (lit "m000001.sql") true (Ok (lit "create table :GRAPHILE_WORKER_SCHEMA.jobs;" ++ [10]))].
Definition demo_all : list GraphileWorkerMigration :=
  [mkGWM (lit "m000001") false [lit "create table :GRAPHILE_WORKER_SCHEMA.jobs;"];
   mkGWM (lit "m000002") true [lit "alter table :GRAPHILE_WORKER_SCHEMA.jobs;"]].

Lemma demo_expand : expand_include_migrations demo_display demo_entries = Some (Ok demo_all).
Proof. by vm_compute. Qed.

Definition no_debug (_ : DbCell) : str := [].
Definition demo_world (d : Db) : World :=
  mkWorld d [mkRunner (take 1 demo_all) (Reading INSTALL_RETRY_DELAYS); mkRunner demo_all (Reading INSTALL_RETRY_DELAYS)].
Definition empty_db : Db := mkDb false ∅ [].
Definition migrated_db : Db :=
  mkDb true {[1 := false; 2 := true]} [lit "create table app.jobs;"; lit "alter table app.jobs;"].

Lemma demo_starting k d : applied (lit "app") demo_all k d → starting (lit "app") demo_all k (demo_world d).
Proof. intros Ha. split; [done|]. repeat constructor; [by exists (drop 1 demo_all)|by exists []]. Qed.

Lemma empty_applied : applied (lit "app") demo_all 0 empty_db.
Proof. split_and!; [cbn; lia|lia|done|]. intros n. cbn. rewrite lookup_empty. by rewrite bool_decide_false by lia. Qed.

Lemma migrated_applied : applied (lit "app") demo_all 2 migrated_db.
Proof.
  split_and!; [done|done|by vm_compute|]. intros n. unfold migrated_db. cbn [rows].
  destruct (decide (n = 1)) as [->|H1]; [done|]. destruct (decide (n = 2)) as [->|H2]; [done|].
  rewrite lookup_insert_ne, lookup_singleton_ne by done. by rewrite bool_decide_false by lia.
Qed.

(** The two runners of the demonstration, and steps between such worlds. *)
Definition pair_world (d : Db) (p q : Phase) : World := mkWorld d [mkRunner (take 1 demo_all) p; mkRunner demo_all q].
Abbreviation demo_step := (step no_debug (lit "app") (lit "150000")).

Lemma step_to w w' w'' : demo_step w w' → w' = w'' → demo_step w w''.
Proof. by intros ? ->. Qed.

Tactic Notation "to" constr(w) "by" uconstr(c) :=
  apply (rtc_l _ _ w); [eapply step_to; [eapply c; first [done|by intros ? [= <-]|by eexists
    |by split_and!; [done|done|repeat constructor; cbn; by intros ?]]|by vm_compute]|].

(** The revision check can be passed by a schema that a newer runner
    installs.  Two runners find no schema; the newer one installs it and
    commits a breaking migration the older one does not know; the older one's
    installation then succeeds too, takes the schema for empty, clashes on the
    migrations it knows, and returns success. *)
Theorem fresh_install_skips_revision_check :
  ∃ w1 w2,
    reachable no_debug (lit "app") (lit "150000") (demo_world empty_db) w1 ∧
    runners w1 !! 0%nat = Some (mkRunner (take 1 demo_all) (Installing INSTALL_RETRY_DELAYS)) ∧
    rows (db w1) !! 2 = Some true ∧
    reachable no_debug (lit "app") (lit "150000") w1 w2 ∧
    runners w2 !! 0%nat = Some (mkRunner (take 1 demo_all) (Returned (Ok tt))).
Proof.
  pose (missing := with_code [] (lit "42P01")). pose (clash := with_code [] (lit "23505")).
  pose (installed_db := mkDb true ∅ []). pose (version := Ok [[(lit "server_version_num", CText (lit "150000"))]] : result (list DbRow) DbError).
  pose (m1 := mkGWM (lit "m000001") false [lit "create table :GRAPHILE_WORKER_SCHEMA.jobs;"]).
  pose (m2 := mkGWM (lit "m000002") true [lit "alter table :GRAPHILE_WORKER_SCHEMA.jobs;"]).
  pose (one_db := mkDb true {[1 := false]} [lit "create table app.jobs;"]).
  pose (reading := Reading INSTALL_RETRY_DELAYS). pose (installing := Installing INSTALL_RETRY_DELAYS).
  exists (pair_world migrated_db installing (Returned (Ok tt))), (pair_world migrated_db (Returned (Ok tt)) (Returned (Ok tt))).
  split_and!; [|done|done| |done].
  - to (pair_world empty_db installing reading) by (read _ _ _ _ 0 _ INSTALL_RETRY_DELAYS (Err missing)).
    to (pair_world empty_db installing installing) by (read _ _ _ _ 1 _ INSTALL_RETRY_DELAYS (Err missing)).
    to (pair_world installed_db installing (Looping default_last demo_all 0))
      by (install _ _ _ _ 1 _ INSTALL_RETRY_DELAYS version (Ok tt) (Ok tt) (Ok tt) (Ok tt) false).
    to (pair_world installed_db installing (Inserted default_last m1 [m2] 1))
      by (insert_ _ _ _ _ 1 _ default_last m1 [m2] 0 1 (Ok tt)).
    to (pair_world installed_db installing (Executed default_last m1 [m2] 1))
      by (run _ _ _ _ 1 _ default_last m1 [m2] 1 1 (λ _, Ok tt)).
    to (pair_world one_db installing (Looping default_last [m2] 1))
      by (commit _ _ _ _ 1 _ default_last m1 [m2] 1 1 (Ok tt) false).
    to (pair_world one_db installing (Inserted default_last m2 [] 2))
      by (insert_ _ _ _ _ 1 _ default_last m2 [] 1 2 (Ok tt)).
    to (pair_world one_db installing (Executed default_last m2 [] 2))
      by (run _ _ _ _ 1 _ default_last m2 [] 2 2 (λ _, Ok tt)).
    to (pair_world migrated_db installing (Looping default_last [] 2))
      by (commit _ _ _ _ 1 _ default_last m2 [] 2 2 (Ok tt) false).
    to (pair_world migrated_db installing (Returned (Ok tt))) by (finish_ _ _ _ _ 1 _ default_last 2).
    apply rtc_refl.
  - to (pair_world migrated_db (Looping default_last [m1] 0) (Returned (Ok tt)))
      by (install _ _ _ _ 0 _ INSTALL_RETRY_DELAYS version (Ok tt) (Ok tt) (Ok tt) (Ok tt) false).
    to (pair_world migrated_db (Looping default_last [] 1) (Returned (Ok tt)))
      by (insert_ _ _ _ _ 0 _ default_last m1 [] 0 1 (Err clash)).
    to (pair_world migrated_db (Returned (Ok tt)) (Returned (Ok tt))) by (finish_ _ _ _ _ 0 _ default_last 1).
    apply rtc_refl.
Qed.

(** The older runner against a schema that is ahead of it. *)
Definition refused_world : World :=
  pair_world migrated_db (Returned (Err (IncompatbleRevision 2 2 1))) (Reading INSTALL_RETRY_DELAYS).

Lemma demo_refused : reachable no_debug (lit "app") (lit "150000") (demo_world migrated_db) refused_world.
Proof.
  pose (last := mkLast (lit "150000") (Some 2) (Some 2)).
  pose (m1 := mkGWM (lit "m000001") false [lit "create table :GRAPHILE_WORKER_SCHEMA.jobs;"]).
  to (pair_world migrated_db (Looping last [m1] 0) (Reading INSTALL_RETRY_DELAYS))
    by (read _ _ _ _ 0 _ INSTALL_RETRY_DELAYS (Ok [status_row (lit "150000") migrated_db])).
  to (pair_world migrated_db (Looping last [] 1) (Reading INSTALL_RETRY_DELAYS)) by (skip _ _ _ _ 0 _ last m1 [] 0 1).
  to refused_world by (finish_ _ _ _ _ 0 _ last 1). apply rtc_refl.
Qed.

Lemma migrations_apply_once_in_order_witness :
  ∃ k', (2 ≤ k')%nat ∧ applied (lit "app") demo_all k' migrated_db.
Proof.
  destruct (migrations_apply_once_in_order no_debug (lit "app") (lit "150000") demo_display demo_entries demo_all 2
    (demo_world migrated_db) refused_world) as (k' & Hle & Ha & _);
    [apply demo_expand|apply demo_starting, migrated_applied|apply demo_refused|]. by exists k'.
Defined.

Lemma unsupported_revision_refused_witness :
  ∃ r', runners refused_world !! 0%nat = Some r' ∧ is_open r' = false ∧ phase r' ≠ Returned (Ok tt).
Proof.
  apply (unsupported_revision_refused no_debug (lit "app") (lit "150000") demo_display demo_entries demo_all 2
    (demo_world migrated_db) refused_world 0 (mkRunner (take 1 demo_all) (Reading INSTALL_RETRY_DELAYS)) 2);
    [apply demo_expand|apply demo_starting, migrated_applied|apply demo_refused|done..].
Defined.

Lemma migrate_terminates_witness :
  ∃ j r' d p, runners refused_world !! j = Some r' ∧ undisturbed p ∧ demo_step refused_world (goto (with_db refused_world d) j r' p).
Proof.
  destruct (migrate_terminates no_debug (lit "app") (lit "150000") demo_display demo_entries demo_all 2
    (demo_world migrated_db) refused_world) as [_ Hp];
    [apply demo_expand|apply demo_starting, migrated_applied|apply demo_refused|].
  by apply (Hp 1%nat (mkRunner demo_all (Reading INSTALL_RETRY_DELAYS))).
Defined.

End Migrations.
