(* ===== verification/FlagFilter.v ===== *)
(** * Flag filters and claim queries (queries/src/flag_filter.rs,
    fetch_query_cache.rs, job_query_helpers.rs, the SQL text of get_job.rs and
    batch_get_jobs.rs)

    The predicates a worker adds to its claim queries, their parameters, the
    query text and its per-thread cache.  Text is modelled up to the
    indentation of the SQL templates. *)

From S2P Require Import Prelude Job Database.
Open Scope Z_scope.

Module FlagFilter.
Import Job Database.

(** ** flag_filter.rs *)

Record JobFlagFilter := mkFilter {
  forbidden : list str;
  accepted : list str;
  allowed : option (list str)
}.

Definition new_filter (f a : list str) : JobFlagFilter := mkFilter f a None.

Definition with_allowlist (self : JobFlagFilter) (flags : list str) : JobFlagFilter :=
  mkFilter (forbidden self) (accepted self) (Some flags).

Record FlagFilterShape := mkShape {
  has_forbidden : bool;
  has_accepted : bool;
  has_allowlist : bool
}.

#[export] Instance FlagFilterShape_eq_dec : EqDecision FlagFilterShape.
Proof. solve_decision. Defined.
#[export] Program Instance FlagFilterShape_countable : Countable FlagFilterShape :=
  inj_countable' (λ s, (has_forbidden s, has_accepted s, has_allowlist s))
    (λ t, mkShape t.1.1 t.1.2 t.2) _.
Next Obligation. by intros []. Qed.

Definition is_some {A} (o : option A) : bool :=
  match o with Some _ => true | None => false end.

Definition shape (self : JobFlagFilter) : FlagFilterShape :=
  mkShape (negb (is_empty (forbidden self))) (negb (is_empty (accepted self)))
    (is_some (allowed self)).

Definition u8_from (b : bool) : Z := if b then 1 else 0.

Definition parameter_count (self : JobFlagFilter) : Z :=
  let s := shape self in
  u8_from (has_forbidden s) + u8_from (has_accepted s) + u8_from (has_allowlist s).

(** One predicate of the clause, on the parameter of the given ordinal. *)
Inductive Predicate :=
| NotAnyOf (parameter : Z)
| AnyOf (parameter : Z)
| OnlyKeysOf (parameter : Z).

Definition render (p : Predicate) : str :=
  match p with
  | NotAnyOf n => lit "and ((jobs.flags ?| $" ++ dec n ++ lit "::text[]) is not true)"
  | AnyOf n => lit " and (jobs.flags ?| $" ++ dec n ++ lit "::text[])"
  | OnlyKeysOf n =>
      lit " and (case when jobs.flags is null then true when jsonb_typeof(jobs.flags) = 'object' then (jobs.flags - $"
      ++ dec n ++ lit "::text[]) = '{}'::jsonb else false end)"
  end.

(** The three [if]s of [clause], threading the ordinal. *)
Definition predicates (self : JobFlagFilter) (parameter : Z) : list Predicate :=
  let '(p1, parameter) :=
    if is_empty (forbidden self) then ([], parameter)
    else ([NotAnyOf parameter], parameter + 1) in
  let '(p2, parameter) :=
    if is_empty (accepted self) then ([], parameter)
    else ([AnyOf parameter], parameter + 1) in
  let p3 := if is_some (allowed self) then [OnlyKeysOf parameter] else [] in
  p1 ++ p2 ++ p3.

Definition clause (self : JobFlagFilter) (parameter : Z) : str :=
  predicates self parameter ≫= render.

Definition bind (self : JobFlagFilter) (params : list DbValue) : list DbValue :=
  let params :=
    if is_empty (forbidden self) then params
    else params ++ [TextArray (forbidden self)] in
  let params :=
    if is_empty (accepted self) then params
    else params ++ [TextArray (accepted self)] in
  match allowed self with
  | Some l => params ++ [TextArray l]
  | None => params
  end.

(** ** job_query_helpers.rs *)

Definition get_now_clause (now_param : option Z) : str :=
  match now_param with
  | Some p => lit "$" ++ dec p ++ lit "::timestamptz"
  | None => lit "now()"
  end.

Definition get_queue_clause (schema : Schema) : str :=
  lit " and (jobs.job_queue_id is null or jobs.job_queue_id in (select id from "
  ++ private_table schema (lit "job_queues")
  ++ lit " as job_queues where job_queues.is_available = true for update skip locked)) ".

Definition get_update_queue_clause (schema : Schema) (worker_id_param : Z)
    (now_param : option Z) : str :=
  lit ", q as (update " ++ private_table schema (lit "job_queues")
  ++ lit " as job_queues set locked_by = $" ++ dec worker_id_param
  ++ lit ", locked_at = " ++ get_now_clause now_param
  ++ lit " from j where job_queues.id = j.job_queue_id) ".

(** ** get_job.rs, batch_get_jobs.rs: the text and the parameters *)

Definition now_param (first : Z) (has_now : bool) (filter : JobFlagFilter) : option Z :=
  if has_now then Some (first + parameter_count filter) else None.

Definition select_candidates_text (schema : Schema) (filter : JobFlagFilter)
    (first : Z) (has_now : bool) : str :=
  lit "select jobs.job_queue_id, jobs.priority, jobs.run_at, jobs.id from "
  ++ private_table schema (lit "jobs")
  ++ lit " as jobs where jobs.is_available = true and run_at <= "
  ++ get_now_clause (now_param first has_now filter)
  ++ lit " and task_id = any($2::int[]) "
  ++ get_queue_clause schema ++ clause filter first
  ++ lit " order by priority asc, run_at asc limit ".

Definition update_jobs_text (schema : Schema) (filter : JobFlagFilter)
    (first : Z) (has_now : bool) : str :=
  lit ") " ++ get_update_queue_clause schema 1 (now_param first has_now filter)
  ++ lit " update " ++ private_table schema (lit "jobs")
  ++ lit " as jobs set attempts = jobs.attempts + 1, locked_by = $1::text, locked_at = "
  ++ get_now_clause (now_param first has_now filter)
  ++ lit " from j where jobs.id = j.id returning *".

Definition get_job_sql (schema : Schema) (filter : JobFlagFilter) (has_now : bool) : str :=
  lit "with j as (" ++ select_candidates_text schema filter 3 has_now
  ++ lit "1 for update skip locked" ++ update_jobs_text schema filter 3 has_now.

Definition batch_get_jobs_sql (schema : Schema) (filter : JobFlagFilter) (has_now : bool) : str :=
  lit "with j_raw as (" ++ select_candidates_text schema filter 4 has_now
  ++ lit "$3::int for update skip locked), j as (select distinct on (job_queue_id, case when job_queue_id is null then id end) job_queue_id, priority, run_at, id from j_raw order by job_queue_id, case when job_queue_id is null then id end, priority asc, run_at asc, id asc"
  ++ update_jobs_text schema filter 4 has_now.

Definition push_now (now : option Z) (params : list DbValue) : list DbValue :=
  match now with Some ts => params ++ [TimestampTz ts] | None => params end.

Definition get_job_params (task_details : TaskDetails) (worker_id : str)
    (filter : JobFlagFilter) (now : option Z) : list DbValue :=
  push_now now (bind filter [Text worker_id; I32Array (task_ids task_details)]).

Definition batch_get_jobs_params (task_details : TaskDetails) (worker_id : str)
    (filter : JobFlagFilter) (batch_size : Z) (now : option Z) : list DbValue :=
  push_now now (bind filter
    [Text worker_id; I32Array (task_ids task_details); I32 batch_size]).

(** ** fetch_query_cache.rs *)

Definition CAPACITY : nat := 128.
Abbreviation Key := (Schema * FlagFilterShape * bool * bool)%type.

Definition fetch_query (queries : gmap Key str) (schema : Schema) (flags : FlagFilterShape)
    (local_time batch : bool) (construct : str) : gmap Key str * str :=
  let key := (schema, flags, local_time, batch) in
  match queries !! key with
  | Some sql => (queries, sql)
  | None =>
      let queries := if decide (size queries = CAPACITY) then ∅ else queries in
      (<[key := construct]> queries, construct)
  end.

(** A claim's query lookup, as both claim functions perform it. *)
Definition claim_query (queries : gmap Key str) (schema : Schema) (filter : JobFlagFilter)
    (has_now batch : bool) : gmap Key str * str :=
  fetch_query queries schema (shape filter) has_now batch
    (if batch then batch_get_jobs_sql schema filter has_now
     else get_job_sql schema filter has_now).

(** ** What the predicates mean

    [jsonb] operators on the [flags] column; [None] is SQL's NULL. *)

(** [flags ? label]: a top-level key, an array element or the string itself. *)
Definition has_label (v : Value) (label : str) : bool :=
  match v with
  | Object fs => bool_decide (label ∈ fs.*1)
  | Array l => existsb (λ x, match x with VString s => bool_decide (s = label) | _ => false end) l
  | VString s => bool_decide (s = label)
  | _ => false
  end.

(** [flags ?| labels]. *)
Definition any_label (flags : option Value) (labels : list str) : option bool :=
  (λ v, existsb (has_label v) labels) <$> flags.

(** The text array bound to an ordinal (ordinals start at 1). *)
Definition text_array (params : list DbValue) (n : Z) : option (list str) :=
  match params !! Z.to_nat (n - 1) with
  | Some (TextArray l) => Some l
  | _ => None
  end.

Definition eval_predicate (params : list DbValue) (flags : option Value) (p : Predicate) : option bool :=
  match p with
  | NotAnyOf n =>
      l ← text_array params n;
      Some (negb (bool_decide (any_label flags l = Some true)))
  | AnyOf n => l ← text_array params n; any_label flags l
  | OnlyKeysOf n =>
      l ← text_array params n;
      match flags with
      | None => Some true
      | Some (Object fs) => Some (is_empty (filter (λ kv, kv.1 ∉ l) fs))
      | Some _ => Some false
      end
  end.

(** A WHERE clause keeps a row when every conjunct is true. *)
Definition where_true (params : list DbValue) (flags : option Value) (ps : list Predicate) : bool :=
  forallb (λ p, bool_decide (eval_predicate params flags p = Some true)) ps.

(** The documented meaning of a filter. *)
Definition admits (self : JobFlagFilter) (flags : option Value) : bool :=
  negb (bool_decide (any_label flags (forbidden self) = Some true))
  && (is_empty (accepted self) || bool_decide (any_label flags (accepted self) = Some true))
  && match allowed self, flags with
     | None, _ | _, None => true
     | Some l, Some (Object fs) => forallb (λ kv, bool_decide (kv.1 ∈ l)) fs
     | Some _, Some _ => false
     end.

(** ** Predicates and bindings agree *)

(** The values [bind] appends, in its order. *)
Definition bound (self : JobFlagFilter) : list DbValue :=
  (if is_empty (forbidden self) then [] else [TextArray (forbidden self)])
  ++ (if is_empty (accepted self) then [] else [TextArray (accepted self)])
  ++ match allowed self with Some l => [TextArray l] | None => [] end.

Lemma bind_bound self params : bind self params = params ++ bound self.
Proof.
  unfold bind, bound. destruct (is_empty (forbidden self)), (is_empty (accepted self)),
    (allowed self); simpl; rewrite <- ?app_assoc, ?app_nil_r; done.
Qed.

Lemma length_bound self : Z.of_nat (length (bound self)) = parameter_count self.
Proof.
  unfold bound, parameter_count, shape; simpl.
  by destruct (is_empty (forbidden self)), (is_empty (accepted self)), (allowed self).
Qed.

(** Ordinal [n + 1 + i] is element [i] of what follows [n] parameters. *)
Lemma lookup_ordinal (base l : list DbValue) (n : Z) :
  0 ≤ n → (base ++ l) !! Z.to_nat (Z.of_nat (length base) + 1 + n - 1) = l !! Z.to_nat n.
Proof.
  intros. replace (Z.to_nat (Z.of_nat (length base) + 1 + n - 1))
    with (length base + Z.to_nat n)%nat by lia.
  by rewrite lookup_app_r, Nat.add_comm, Nat.add_sub by lia.
Qed.

Lemma eval_shift base l n flags (mk : Z → Predicate) :
  0 ≤ n → (mk = NotAnyOf ∨ mk = AnyOf ∨ mk = OnlyKeysOf) →
  eval_predicate (base ++ l) flags (mk (Z.of_nat (length base) + 1 + n))
  = eval_predicate l flags (mk (n + 1)).
Proof.
  intros Hn [->|[->| ->]]; simpl; unfold text_array;
    rewrite lookup_ordinal by done; by replace (n + 1 - 1) with n by lia.
Qed.

Lemma only_keys_forallb (l : list str) (fs : list (str * Value)) :
  is_empty (filter (λ kv, kv.1 ∉ l) fs) = forallb (λ kv, bool_decide (kv.1 ∈ l)) fs.
Proof.
  induction fs as [|kv fs IH]; [done|]. rewrite filter_cons; simpl.
  case_decide; case_bool_decide; simpl; done.
Qed.

Lemma allow_true (l : list str) (flags : option Value) :
  bool_decide (match flags with
    | None => Some true
    | Some (Object fs) => Some (is_empty (filter (λ kv, kv.1 ∉ l) fs))
    | Some _ => Some false end = Some true)
  = match flags with
    | None => true
    | Some (Object fs) => forallb (λ kv, bool_decide (kv.1 ∈ l)) fs
    | Some _ => false end.
Proof.
  destruct flags as [[]|]; try done. rewrite only_keys_forallb. by destruct (forallb _ _).
Qed.

Lemma any_label_nil flags : any_label flags [] ≠ Some true.
Proof. by destruct flags. Qed.

Lemma negb_decide_Some (b : bool) : bool_decide (Some b = Some true) = b.
Proof. by destruct b. Qed.

(** The rows the clause keeps are the ones the filter admits, when the
    parameters bound before the filter's are [base]. *)
Lemma where_true_admits self base tail flags :
  where_true (base ++ bound self ++ tail) flags
    (predicates self (Z.of_nat (length base) + 1)) = admits self flags.
Proof.
  set (k := Z.of_nat (length base) + 1).
  assert (∀ n mk, 0 ≤ n → (mk = NotAnyOf ∨ mk = AnyOf ∨ mk = OnlyKeysOf) →
    eval_predicate (base ++ bound self ++ tail) flags (mk (k + n))
    = eval_predicate (bound self ++ tail) flags (mk (n + 1))) as Hs
    by (intros; by apply eval_shift).
  pose proof (Hs 0 NotAnyOf) as H1. pose proof (Hs 0 AnyOf) as H2.
  pose proof (Hs 1 AnyOf) as H3. pose proof (Hs 0 OnlyKeysOf) as H4.
  pose proof (Hs 1 OnlyKeysOf) as H5. pose proof (Hs 2 OnlyKeysOf) as H6. clear Hs.
  replace (k + 0) with k in * by lia. replace (k + 2) with (k + 1 + 1) in * by lia.
  unfold where_true, predicates, admits, bound in *.
  destruct (forbidden self) as [|f fs], (accepted self) as [|a as_], (allowed self) as [l|];
    cbn [is_empty is_some app forallb] in *;
    rewrite ?H1, ?H2, ?H3, ?H4, ?H5, ?H6 by (lia || auto);
    cbn [eval_predicate mbind option_bind text_array lookup list_lookup];
    unfold text_array; simpl lookup; cbn [mbind option_bind];
    rewrite ?negb_decide_Some, ?allow_true, ?andb_true_r,
      ?(bool_decide_eq_false_2 _ (any_label_nil flags)); cbn [negb andb orb];
    rewrite ?andb_assoc; done.
Qed.

(** In both claim queries, the flag clause evaluated against the parameters
    the function binds keeps exactly the jobs whose flags the filter admits,
    and the clock's ordinal is that of the bound timestamp. *)
Theorem claim_filter_correct (filter : JobFlagFilter) (task_details : TaskDetails)
    (worker_id : str) (batch_size : Z) (now : option Z) (flags : option Value) :
  let p := get_job_params task_details worker_id filter now in
  let pb := batch_get_jobs_params task_details worker_id filter batch_size now in
  where_true p flags (predicates filter 3) = admits filter flags ∧
  where_true pb flags (predicates filter 4) = admits filter flags ∧
  (∀ t, now = Some t →
     ∃ n nb, now_param 3 true filter = Some n ∧ p !! Z.to_nat (n - 1) = Some (TimestampTz t) ∧
             now_param 4 true filter = Some nb ∧ pb !! Z.to_nat (nb - 1) = Some (TimestampTz t)).
Proof.
  assert (∀ ps, push_now now ps = ps ++ match now with Some t => [TimestampTz t] | None => [] end)
    as Hnow by (destruct now; simpl; intros; by rewrite ?app_nil_r).
  unfold get_job_params, batch_get_jobs_params. cbv zeta.
  rewrite !Hnow, !bind_bound, <- !app_assoc. split_and!.
  - apply (where_true_admits filter [_; _]).
  - apply (where_true_admits filter [_; _; _]).
  - intros t ->. do 2 eexists. unfold now_param. rewrite <- length_bound.
    split_and!; [done| |done|].
    + replace (Z.to_nat (3 + Z.of_nat (length (bound filter)) - 1))
        with (length ([Text worker_id; I32Array (task_ids task_details)] ++ bound filter) + 0)%nat
        by (rewrite length_app; simpl length; lia).
      rewrite app_assoc, lookup_app_r by lia. by rewrite Nat.add_0_r, Nat.sub_diag.
    + replace (Z.to_nat (4 + Z.of_nat (length (bound filter)) - 1))
        with (length ([Text worker_id; I32Array (task_ids task_details); I32 batch_size]
                      ++ bound filter) + 0)%nat
        by (rewrite length_app; simpl length; lia).
      rewrite app_assoc, lookup_app_r by lia. by rewrite Nat.add_0_r, Nat.sub_diag.
Qed.

(** ** The cache *)

Lemma predicates_shape f g n :
  shape f = shape g → predicates f n = predicates g n.
Proof.
  unfold shape, predicates. intros [= H1%(f_equal negb) H2%(f_equal negb) H3].
  rewrite !negb_involutive in *. by rewrite H1, H2, H3.
Qed.

Lemma now_param_shape f g n b : shape f = shape g → now_param n b f = now_param n b g.
Proof. intros E. unfold now_param, parameter_count. by rewrite E. Qed.

Lemma claim_text_shape f g schema has_now :
  shape f = shape g →
  get_job_sql schema f has_now = get_job_sql schema g has_now ∧
  batch_get_jobs_sql schema f has_now = batch_get_jobs_sql schema g has_now.
Proof.
  intros E. unfold get_job_sql, batch_get_jobs_sql, select_candidates_text,
    update_jobs_text, clause.
  by rewrite !(now_param_shape f g), !(predicates_shape f g) by done.
Qed.

Definition fresh_sql (schema : Schema) (filter : JobFlagFilter) (has_now batch : bool) : str :=
  if batch then batch_get_jobs_sql schema filter has_now else get_job_sql schema filter has_now.

(** Every cached text is the one any filter of that shape would build, and
    the cache is bounded. *)
Definition cache_ok (queries : gmap Key str) : Prop :=
  (size queries ≤ CAPACITY)%nat ∧
  ∀ schema fl has_now batch sql,
    queries !! (schema, fl, has_now, batch) = Some sql →
    ∀ filter, shape filter = fl → sql = fresh_sql schema filter has_now batch.

Lemma cache_ok_empty : cache_ok ∅.
Proof. split; [rewrite map_size_empty; unfold CAPACITY; lia|]. by intros. Qed.

Lemma cache_ok_insert queries schema filter has_now batch :
  cache_ok queries → size queries ≠ CAPACITY →
  cache_ok (<[(schema, shape filter, has_now, batch) := fresh_sql schema filter has_now batch]> queries).
Proof.
  intros [Hsz Hc] Hne. split.
  - rewrite map_size_insert. destruct (queries !! _); simpl; lia.
  - intros schema' fl has_now' batch' sql [[[= <- <- <- <-] <-]|[_ H]]%lookup_insert_Some g Hg.
    + destruct (claim_text_shape filter g schema has_now) as [E1 E2]; [done|].
      unfold fresh_sql. by destruct batch.
    + by eapply Hc.
Qed.

Lemma claim_query_ok queries schema filter has_now batch :
  cache_ok queries →
  cache_ok (claim_query queries schema filter has_now batch).1 ∧
  (claim_query queries schema filter has_now batch).2 = fresh_sql schema filter has_now batch.
Proof.
  intros Hok. unfold claim_query, fetch_query.
  destruct (queries !! _) as [sql|] eqn:E; simpl.
  - split; [done|]. by eapply (proj2 Hok).
  - split; [|done]. case_decide as Hs; apply cache_ok_insert; auto using cache_ok_empty.
Qed.

(** The lookups a thread performs, one after the other. *)
Definition run_claims (reqs : list (Schema * JobFlagFilter * bool * bool)) :
    gmap Key str * list str :=
  foldl (λ acc req,
    let '(schema, filter, has_now, batch) := req in
    let '(q, sql) := claim_query acc.1 schema filter has_now batch in
    (q, acc.2 ++ [sql])) (∅, []) reqs.

(** Whatever claims a thread performs in whatever order, each one runs
    exactly the text it would have built itself (no text built for another
    tenant, another shape of filter or the other claim function is ever
    reused), and the cache never holds more than 128 texts. *)
Theorem query_cache_transparent (reqs : list (Schema * JobFlagFilter * bool * bool)) :
  (size (run_claims reqs).1 ≤ CAPACITY)%nat ∧
  (run_claims reqs).2
    = (λ '(schema, filter, has_now, batch), fresh_sql schema filter has_now batch) <$> reqs.
Proof.
  cut (cache_ok (run_claims reqs).1 ∧ (run_claims reqs).2
    = (λ '(schema, filter, has_now, batch), fresh_sql schema filter has_now batch) <$> reqs).
  { intros [[? _] ?]. done. }
  unfold run_claims. induction reqs as [|[[[schema f] has_now] batch] reqs [IH1 IH2]]
    using rev_ind; [split; [apply cache_ok_empty|done]|].
  rewrite foldl_snoc, fmap_app. set (acc := foldl _ _ _) in *.
  pose proof (claim_query_ok acc.1 schema f has_now batch IH1) as [H1 H2].
  destruct (claim_query acc.1 schema f has_now batch) as [q sql]. simpl in *.
  split; [done|]. by rewrite IH2, H2.
Qed.

End FlagFilter.
