(* ===== verification/JobStore.v ===== *)
(** * The job tables and claiming (queries/src/get_job.rs, batch_get_jobs.rs)

    The tables of the worker's schema as a record of finite maps, and the two
    claim statements.  A statement is one atomic change of the tables; what
    concurrent transactions do shows up as the rows they hold locked
    ([for update skip locked] passes over them) and as the order in which
    statements are applied.  Where SQL leaves a choice (which of several rows
    that compare equal a [limit] keeps) the statement is a relation, and an
    executable instance of it is given.  Timestamps are microseconds. *)

From S2P Require Import Prelude Job Database FlagFilter.
Open Scope Z_scope.

Module JobStore.
Import Job FlagFilter.

(** ** Tables (migrations/src/sql/m000011.sql, m000021.sql, m000022.sql) *)

Record JobQueue := mkQueue {
  queue_name : str;
  queue_locked_at : option Z;
  queue_locked_by : option str
}.

Record Worker := mkWorker {
  last_heartbeat_at : Z;
  started_at : Z;
  metadata : option Value
}.

Record Db := mkDb {
  jobs : gmap Z DbJob;
  job_queues : gmap Z JobQueue;
  tasks : gmap Z str;
  workers : gmap str Worker;
  retirements : gset Z;
  jobs_seq : Z;
  queues_seq : Z;
  tasks_seq : Z
}.

Definition empty_db : Db := mkDb ∅ ∅ ∅ ∅ ∅ 1 1 1.

Definition with_jobs (db : Db) (js : gmap Z DbJob) : Db :=
  mkDb js (job_queues db) (tasks db) (workers db) (retirements db)
    (jobs_seq db) (queues_seq db) (tasks_seq db).
Definition with_queues (db : Db) (qs : gmap Z JobQueue) : Db :=
  mkDb (jobs db) qs (tasks db) (workers db) (retirements db)
    (jobs_seq db) (queues_seq db) (tasks_seq db).
Definition with_workers (db : Db) (ws : gmap str Worker) : Db :=
  mkDb (jobs db) (job_queues db) (tasks db) ws (retirements db)
    (jobs_seq db) (queues_seq db) (tasks_seq db).
Definition with_retirements (db : Db) (rs : gset Z) : Db :=
  mkDb (jobs db) (job_queues db) (tasks db) (workers db) rs
    (jobs_seq db) (queues_seq db) (tasks_seq db).

(** The generated [is_available] columns. *)
Definition job_available (j : DbJob) : bool :=
  bool_decide (locked_at j = None) && (attempts j <? max_attempts j).
Definition queue_available (q : JobQueue) : bool :=
  bool_decide (queue_locked_at q = None).

(** [update t set f where p], row by row. *)
Definition update_where {A} (p : Z → A → bool) (f : A → A) (t : gmap Z A) : gmap Z A :=
  map_imap (λ i r, Some (if p i r then f r else r)) t.

(** [delete from t where p]. *)
Definition delete_where {A} (p : Z → A → bool) (t : gmap Z A) : gmap Z A :=
  filter (λ ir, p ir.1 ir.2 = false) t.

Definition lock_queue (worker_id : str) (t : Z) (q : JobQueue) : JobQueue :=
  mkQueue (queue_name q) (Some t) (Some worker_id).
Definition unlock_queue (q : JobQueue) : JobQueue :=
  mkQueue (queue_name q) None None.

(** ** The claim statement *)

Record Concurrent := mkConcurrent { held_jobs : gset Z; held_queues : gset Z }.

Section claim.
Context (con : Concurrent) (tids : list Z) (filt : JobFlagFilter) (now : Z).

(** The queue clause: no queue, or an available one that is not skipped. *)
Definition queue_clause (db : Db) (j : DbJob) : bool :=
  match job_queue_id j with
  | None => true
  | Some q =>
      match job_queues db !! q with
      | Some r => queue_available r && bool_decide (q ∉ held_queues con)
      | None => false
      end
  end.

(** The WHERE clause of the candidate selection. *)
Definition candidate (db : Db) (i : Z) (j : DbJob) : bool :=
  job_available j && (run_at j <=? now) && bool_decide (task_id j ∈ tids)
  && queue_clause db j && admits filt (flags j) && bool_decide (i ∉ held_jobs con).

Definition candidates (db : Db) : list (Z * DbJob) :=
  filter (λ ij, candidate db ij.1 ij.2 = true) (map_to_list (jobs db)).
End claim.

(** [order by priority asc, run_at asc]. *)
Definition order_le (a b : Z * DbJob) : Prop :=
  priority a.2 < priority b.2 ∨ priority a.2 = priority b.2 ∧ run_at a.2 ≤ run_at b.2.

(** [order by ... limit n]: the first [n] rows of some ordering. *)
Definition selection (limit : nat) (cands raw : list (Z * DbJob)) : Prop :=
  ∃ rest, cands ≡ₚ raw ++ rest ∧ StronglySorted order_le raw ∧
    length raw = Nat.min limit (length cands) ∧
    ∀ a b, a ∈ raw → b ∈ rest → order_le a b.

(** The order with the id as the last key, as [distinct on] uses it. *)
Definition order_leb (a b : Z * DbJob) : bool :=
  (priority a.2 <? priority b.2)
  || ((priority a.2 =? priority b.2)
      && ((run_at a.2 <? run_at b.2)
          || ((run_at a.2 =? run_at b.2) && (a.1 <=? b.1)))).

(** [select distinct on (job_queue_id, case when job_queue_id is null then id
    end)]: one row per named queue, every row without a queue. *)
Definition distinct_on_queue (raw : list (Z * DbJob)) : list (Z * DbJob) :=
  filter (λ ij,
    match job_queue_id ij.2 with
    | None => true
    | Some q =>
        forallb (λ kl, bool_decide (job_queue_id kl.2 ≠ Some q) || order_leb ij kl) raw
    end = true) raw.

Definition lock_job (worker_id : str) (t : Z) (j : DbJob) : DbJob :=
  mkDbJob (id j) (job_queue_id j) (payload j) (priority j) (run_at j) (attempts j + 1)
    (max_attempts j) (last_error j) (created_at j) (updated_at j) (key j) (revision j)
    (Some t) (Some worker_id) (flags j) (task_id j).

(** The two updates, of the selected jobs and of their queues. *)
Definition apply_claim (worker_id : str) (t : Z) (sel : list (Z * DbJob)) (db : Db) : Db :=
  with_queues
    (with_jobs db (update_where (λ i _, bool_decide (i ∈ sel.*1)) (lock_job worker_id t) (jobs db)))
    (update_where (λ q _, bool_decide (Some q ∈ (λ ij, job_queue_id ij.2) <$> sel))
       (lock_queue worker_id t) (job_queues db)).

(** The rows [returning *] yields, with the task identifier of each. *)
Definition returned_jobs (td : TaskDetails) (worker_id : str) (t : Z)
    (sel : list (Z * DbJob)) : list Job :=
  (λ ij, let j := lock_job worker_id t ij.2 in
         from_db_job j (get_or_empty td (id j) (task_id j))) <$> sel.

(** [get_job_with_filter]: some first candidate, if there is one. *)
Inductive get_job_with_filter (con : Concurrent) (clock : Z) (td : TaskDetails)
    (worker_id : str) (filt : JobFlagFilter) (now : option Z) (db : Db) :
    Db → option Job → Prop :=
| get_job_claims raw :
    selection 1 (candidates con (task_ids td) filt (default clock now) db) raw →
    get_job_with_filter con clock td worker_id filt now db
      (apply_claim worker_id (default clock now) raw db)
      (head (returned_jobs td worker_id (default clock now) raw)).

Inductive SqlError := NegativeLimit | CheckViolation | AffectsRowTwice | UniqueViolation
| UnableToSchedule | InvalidJobKeyMode.

(** [batch_get_jobs_with_filter]; the rows come back in no particular order. *)
Inductive batch_get_jobs_with_filter (con : Concurrent) (clock : Z) (td : TaskDetails)
    (worker_id : str) (filt : JobFlagFilter) (batch_size : Z) (now : option Z) (db : Db) :
    Db → result (list Job) SqlError → Prop :=
| batch_get_jobs_negative :
    batch_size < 0 →
    batch_get_jobs_with_filter con clock td worker_id filt batch_size now db
      db (Err NegativeLimit)
| batch_get_jobs_claims raw rows :
    0 ≤ batch_size →
    selection (Z.to_nat batch_size)
      (candidates con (task_ids td) filt (default clock now) db) raw →
    rows ≡ₚ returned_jobs td worker_id (default clock now) (distinct_on_queue raw) →
    batch_get_jobs_with_filter con clock td worker_id filt batch_size now db
      (apply_claim worker_id (default clock now) (distinct_on_queue raw) db) (Ok rows).

(** An executable choice: ties broken by id. *)
Definition order_le_id (a b : Z * DbJob) : Prop := order_leb a b = true.

#[export] Instance order_le_id_dec : RelDecision order_le_id.
Proof. intros a b. unfold order_le_id. apply _. Defined.

Definition pick (limit : nat) (cands : list (Z * DbJob)) : list (Z * DbJob) :=
  take limit (merge_sort order_le_id cands).

Definition get_job_exec con clock td worker_id filt now db : Db * option Job :=
  let t := default clock now in
  let raw := pick 1 (candidates con (task_ids td) filt t db) in
  (apply_claim worker_id t raw db, head (returned_jobs td worker_id t raw)).

Definition batch_get_jobs_exec con clock td worker_id filt batch_size now db :
    Db * result (list Job) SqlError :=
  if batch_size <? 0 then (db, Err NegativeLimit)
  else
    let t := default clock now in
    let raw := distinct_on_queue
      (pick (Z.to_nat batch_size) (candidates con (task_ids td) filt t db)) in
    (apply_claim worker_id t raw db, Ok (returned_jobs td worker_id t raw)).

(** ** Lemmas on tables *)

Lemma lookup_update_where {A} p (f : A → A) t i :
  update_where p f t !! i = (λ r, if p i r then f r else r) <$> t !! i.
Proof. unfold update_where. rewrite map_lookup_imap. by destruct (t !! i). Qed.

Lemma update_where_None {A} p (f : A → A) t i :
  update_where p f t !! i = None ↔ t !! i = None.
Proof. rewrite lookup_update_where. by destruct (t !! i). Qed.

Lemma update_where_Some {A} p (f : A → A) t i r :
  update_where p f t !! i = Some r ↔
    ∃ r0, t !! i = Some r0 ∧ r = (if p i r0 then f r0 else r0).
Proof. rewrite lookup_update_where, fmap_Some. done. Qed.

Lemma delete_where_Some {A} p (t : gmap Z A) i r :
  delete_where p t !! i = Some r ↔ t !! i = Some r ∧ p i r = false.
Proof. unfold delete_where. by rewrite map_lookup_filter_Some. Qed.

Lemma delete_where_None {A} p (t : gmap Z A) i :
  delete_where p t !! i = None ↔ ∀ r, t !! i = Some r → p i r = true.
Proof.
  unfold delete_where. rewrite map_lookup_filter_None. split.
  - intros [H|H] r Hr; [congruence|]. apply not_false_is_true. intros E. by apply (H r).
  - intros H. destruct (t !! i) as [r|]; [right|by left].
    intros x [= <-]. simpl. by rewrite (H r).
Qed.

Lemma update_where_compose {A} p1 p2 (f1 f2 : A → A) t :
  (∀ i r, p1 i r = true → p2 i (f1 r) = p2 i r) →
  update_where p2 f2 (update_where p1 f1 t)
  = map_imap (λ i r, Some (let r' := if p1 i r then f1 r else r in if p2 i r then f2 r' else r')) t.
Proof.
  intros H. apply map_eq. intros i. rewrite !lookup_update_where, map_lookup_imap.
  destruct (t !! i) as [r|]; simpl; [|done].
  destruct (p1 i r) eqn:E; [by rewrite H|done].
Qed.

Lemma update_where_id {A} p (f : A → A) t :
  (∀ i r, t !! i = Some r → p i r = true → f r = r) → update_where p f t = t.
Proof.
  intros H. apply map_eq. intros i. rewrite lookup_update_where.
  destruct (t !! i) as [r|] eqn:E; simpl; [|done].
  destruct (p i r) eqn:Ep; [by rewrite (H i)|done].
Qed.

(** ** Candidates and selections *)

Section candidates.
Context (con : Concurrent) (tids : list Z) (filt : JobFlagFilter) (now : Z) (db : Db).

Lemma elem_of_candidates i j :
  (i, j) ∈ candidates con tids filt now db ↔
    jobs db !! i = Some j ∧ candidate con tids filt now db i j = true.
Proof.
  unfold candidates. rewrite list_elem_of_filter, elem_of_map_to_list. simpl. tauto.
Qed.

Lemma candidates_NoDup : NoDup (candidates con tids filt now db).*1.
Proof.
  unfold candidates. apply (sublist_NoDup _ (map_to_list (jobs db)).*1).
  - apply NoDup_fst_map_to_list.
  - apply fmap_sublist, sublist_filter.
Qed.

Lemma candidate_spec i j :
  candidate con tids filt now db i j = true →
  locked_at j = None ∧ attempts j < max_attempts j ∧ run_at j ≤ now ∧ task_id j ∈ tids ∧
  admits filt (flags j) = true ∧ i ∉ held_jobs con ∧
  ∀ q, job_queue_id j = Some q →
    ∃ r, job_queues db !! q = Some r ∧ queue_locked_at r = None ∧ q ∉ held_queues con.
Proof.
  unfold candidate, job_available, queue_clause, queue_available. intros H. bool_hyps.
  split_and!; try done. intros q Hq. rewrite Hq in *.
  destruct (job_queues db !! q) as [r|]; [|done]. bool_hyps. eauto.
Qed.
End candidates.

Lemma selection_elem limit cands raw a :
  selection limit cands raw → a ∈ raw → a ∈ cands.
Proof. intros (rest & -> & _) ?. set_solver. Qed.

Lemma selection_NoDup limit cands raw :
  selection limit cands raw → NoDup cands.*1 → NoDup raw.*1.
Proof.
  intros (rest & Hp & _). rewrite Hp, fmap_app, NoDup_app. tauto.
Qed.

Lemma selection_nil limit cands :
  selection (S limit) cands [] ↔ cands = [].
Proof.
  split.
  - intros (rest & _ & _ & Hl & _). destruct cands; [done|]. simpl in Hl. lia.
  - intros ->. exists []. split_and!; [done|constructor|done|]. intros ? ? []%not_elem_of_nil.
Qed.

Lemma selection_one cands a :
  selection 1 cands [a] → a ∈ cands ∧ ∀ b, b ∈ cands → order_le a b.
Proof.
  intros (rest & Hp & _ & _ & Hle). split; [rewrite Hp; set_solver|].
  intros b. rewrite Hp. intros [->|Hb]%elem_of_cons; [right; lia|].
  apply Hle; set_solver.
Qed.

(** ** The order with ids *)

Lemma order_leb_spec a b :
  order_leb a b = true ↔
    priority a.2 < priority b.2 ∨
    priority a.2 = priority b.2 ∧
      (run_at a.2 < run_at b.2 ∨ run_at a.2 = run_at b.2 ∧ a.1 ≤ b.1).
Proof.
  unfold order_leb.
  rewrite !orb_true_iff, !andb_true_iff, orb_true_iff, andb_true_iff,
    !Z.ltb_lt, !Z.eqb_eq, Z.leb_le. done.
Qed.

#[export] Instance order_le_id_trans : Transitive order_le_id.
Proof. intros a b c. unfold order_le_id. rewrite !order_leb_spec. lia. Qed.

#[export] Instance order_le_id_total : Total order_le_id.
Proof. intros a b. unfold order_le_id. rewrite !order_leb_spec. lia. Qed.

Lemma order_le_id_le a b : order_le_id a b → order_le a b.
Proof. unfold order_le_id, order_le. rewrite order_leb_spec. lia. Qed.

Lemma order_leb_antisym a b : order_leb a b = true → order_leb b a = true → a.1 = b.1.
Proof. rewrite !order_leb_spec. lia. Qed.

(** ** One row per queue *)

Lemma elem_of_distinct raw i j :
  (i, j) ∈ distinct_on_queue raw ↔
    (i, j) ∈ raw ∧ ∀ q, job_queue_id j = Some q →
      ∀ kl, kl ∈ raw → job_queue_id kl.2 = Some q → order_leb (i, j) kl = true.
Proof.
  unfold distinct_on_queue. rewrite list_elem_of_filter; simpl.
  destruct (job_queue_id j) as [q|] eqn:E; [|naive_solver].
  rewrite forallb_forall. setoid_rewrite <- list_elem_of_In.
  assert (∀ kl, bool_decide (job_queue_id kl.2 ≠ Some q) || order_leb (i, j) kl = true ↔
    (job_queue_id kl.2 = Some q → order_leb (i, j) kl = true)) as Hiff.
  { intros kl. destruct (decide (job_queue_id kl.2 = Some q)) as [Hq|Hq].
    - rewrite bool_decide_eq_false_2 by (by intros ?). cbn [orb]. naive_solver.
    - rewrite bool_decide_eq_true_2 by done. cbn [orb]. naive_solver. }
  setoid_rewrite Hiff. naive_solver.
Qed.

Lemma distinct_NoDup raw : NoDup raw.*1 → NoDup (distinct_on_queue raw).*1.
Proof. intros H. eapply sublist_NoDup; [exact H|]. apply fmap_sublist, sublist_filter. Qed.

Lemma NoDup_fst_inj {A B} (l : list (A * B)) i x y :
  NoDup l.*1 → (i, x) ∈ l → (i, y) ∈ l → x = y.
Proof.
  induction l as [|[k z] l IH]; simpl; [by intros _ ?%not_elem_of_nil|].
  intros [Hk Hn]%NoDup_cons Hx Hy. rewrite elem_of_cons in Hx, Hy.
  destruct Hx as [Hx|Hx], Hy as [Hy|Hy]; simplify_eq; [done| | |by apply IH];
    destruct Hk; apply list_elem_of_fmap; (eexists; split; [|eassumption]; done).
Qed.

Lemma distinct_one_per_queue raw a b q :
  NoDup raw.*1 → a ∈ distinct_on_queue raw → b ∈ distinct_on_queue raw →
  job_queue_id a.2 = Some q → job_queue_id b.2 = Some q → a = b.
Proof.
  destruct a as [i x], b as [k y]. simpl. intros Hn Ha Hb Hq Hr.
  apply elem_of_distinct in Ha as [Ha Ha']. apply elem_of_distinct in Hb as [Hb Hb'].
  assert (i = k) as -> by (apply (order_leb_antisym (i, x) (k, y)); eauto).
  by rewrite (NoDup_fst_inj raw k x y).
Qed.

Lemma exists_least (P : Z * DbJob → Prop) `{∀ x, Decision (P x)} (l : list (Z * DbJob)) a :
  a ∈ l → P a → ∃ m, m ∈ l ∧ P m ∧ ∀ b, b ∈ l → P b → order_leb m b = true.
Proof.
  intros Ha HPa.
  destruct (merge_sort order_le_id (filter P l)) as [|m ms] eqn:E.
  - exfalso. eapply (not_elem_of_nil a). rewrite <- E, merge_sort_Permutation.
    by apply list_elem_of_filter.
  - assert (m ∈ filter P l) as [HPm Hm]%list_elem_of_filter.
    { rewrite <- (merge_sort_Permutation order_le_id), E. set_solver. }
    exists m. split_and!; [done..|]. intros b Hb HPb.
    pose proof (StronglySorted_merge_sort order_le_id (filter P l)) as Hs. rewrite E in Hs.
    apply StronglySorted_inv in Hs as [_ Hs]. rewrite Forall_forall in Hs.
    assert (b ∈ m :: ms) as [->|]%elem_of_cons; [|rewrite order_leb_spec; lia|by apply Hs].
    rewrite <- E, merge_sort_Permutation. by apply list_elem_of_filter.
Qed.

(** No queue with a selected row is left without one. *)
Lemma distinct_covers raw a q :
  a ∈ raw → job_queue_id a.2 = Some q →
  ∃ b, b ∈ distinct_on_queue raw ∧ job_queue_id b.2 = Some q.
Proof.
  intros Ha Hq.
  destruct (exists_least (λ x, job_queue_id x.2 = Some q) raw a Ha Hq) as ([i m] & Hm & Hmq & Hle).
  exists (i, m). split; [|done]. apply elem_of_distinct. split; [done|].
  simpl in Hmq. intros q' Hq'. simplify_eq. eauto.
Qed.

Lemma distinct_nil raw : distinct_on_queue raw = [] → raw = [].
Proof.
  intros H. destruct raw as [|[i j] raw]; [done|]. exfalso.
  destruct (job_queue_id j) as [q|] eqn:E.
  - destruct (distinct_covers ((i, j) :: raw) (i, j) q) as (b & Hb & _); [set_solver|done|].
    rewrite H in Hb. by apply not_elem_of_nil in Hb.
  - assert ((i, j) ∈ distinct_on_queue ((i, j) :: raw)) as Hi
      by (apply elem_of_distinct; split; [set_solver|congruence]).
    rewrite H in Hi. by apply not_elem_of_nil in Hi.
Qed.

Lemma distinct_length raw : (length (distinct_on_queue raw) ≤ length raw)%nat.
Proof. apply length_filter. Qed.

(** ** The executable choice is one of the choices *)

Lemma pick_selection limit cands : selection limit cands (pick limit cands).
Proof.
  unfold pick. exists (drop limit (merge_sort order_le_id cands)).
  pose proof (StronglySorted_merge_sort order_le_id cands) as Hs.
  split_and!.
  - by rewrite take_drop, merge_sort_Permutation.
  - rewrite <- (take_drop limit (merge_sort _ _)) in Hs.
    apply StronglySorted_app_1_l in Hs. induction Hs as [|x l Hs IH Hf]; [constructor|].
    constructor; [done|]. eapply Forall_impl; [exact Hf|]. apply order_le_id_le.
  - by rewrite length_take, merge_sort_Permutation.
  - intros a b Ha Hb. apply order_le_id_le. rewrite <- (take_drop limit (merge_sort _ _)) in Hs.
    eapply StronglySorted_app_1_elem_of; eauto.
Qed.

(** ** What a claim does *)

(** Every row is stored under its own id (the primary key). *)
Definition keyed (db : Db) : Prop := ∀ i j, jobs db !! i = Some j → id j = i.

Lemma apply_claim_job w t sel db i j :
  jobs db !! i = Some j → i ∈ sel.*1 →
  jobs (apply_claim w t sel db) !! i = Some (lock_job w t j).
Proof.
  intros Hj Hi. simpl. rewrite lookup_update_where, Hj. simpl. by rewrite bool_decide_eq_true_2.
Qed.

Lemma apply_claim_other w t sel db i :
  i ∉ sel.*1 → jobs (apply_claim w t sel db) !! i = jobs db !! i.
Proof.
  intros Hi. simpl. rewrite lookup_update_where, bool_decide_eq_false_2 by done.
  by destruct (jobs db !! i).
Qed.

Lemma apply_claim_queue w t sel db q r :
  job_queues db !! q = Some r → Some q ∈ (λ ij, job_queue_id ij.2) <$> sel →
  job_queues (apply_claim w t sel db) !! q = Some (lock_queue w t r).
Proof.
  intros Hr Hq. simpl. rewrite lookup_update_where, Hr. simpl. by rewrite bool_decide_eq_true_2.
Qed.

Lemma apply_claim_other_queue w t sel db q :
  Some q ∉ (λ ij, job_queue_id ij.2) <$> sel →
  job_queues (apply_claim w t sel db) !! q = job_queues db !! q.
Proof.
  intros Hq. simpl. rewrite lookup_update_where, bool_decide_eq_false_2 by done.
  by destruct (job_queues db !! q).
Qed.

(** A list of distinct rows, each a candidate, at most one of each queue. *)
Definition claimed (con : Concurrent) (tids : list Z) (filt : JobFlagFilter) (t : Z)
    (db : Db) (sel : list (Z * DbJob)) : Prop :=
  NoDup sel.*1 ∧
  (∀ i j, (i, j) ∈ sel → jobs db !! i = Some j ∧ candidate con tids filt t db i j = true) ∧
  (∀ a b q, a ∈ sel → b ∈ sel → job_queue_id a.2 = Some q → job_queue_id b.2 = Some q → a = b).

Lemma selection_claimed con tids filt t db limit raw :
  selection limit (candidates con tids filt t db) raw →
  claimed con tids filt t db (distinct_on_queue raw).
Proof.
  intros Hs. pose proof (selection_NoDup _ _ _ Hs (candidates_NoDup _ _ _ _ _)) as Hn.
  split_and!.
  - by apply distinct_NoDup.
  - intros i j [Hij _]%elem_of_distinct. apply elem_of_candidates. by eapply selection_elem.
  - intros a b q. by apply distinct_one_per_queue.
Qed.

Lemma distinct_singleton raw : (length raw ≤ 1)%nat → distinct_on_queue raw = raw.
Proof.
  intros H. destruct raw as [|[i j] [|? ?]]; [done| |simpl in H; lia].
  unfold distinct_on_queue. rewrite filter_cons_True; [by rewrite filter_nil|]. simpl.
  destruct (job_queue_id j); [|done].
  assert (order_leb (i, j) (i, j) = true) as -> by (rewrite order_leb_spec; lia).
  by rewrite orb_true_r.
Qed.

Lemma selection_length limit cands raw :
  selection limit cands raw → (length raw ≤ limit)%nat.
Proof. intros (rest & _ & _ & H & _). lia. Qed.

(** What the worker is told about a claimed row is what the tables now hold. *)
Lemma claimed_effect con tids filt w t db sel i j :
  claimed con tids filt t db sel → (i, j) ∈ sel →
  jobs (apply_claim w t sel db) !! i = Some (lock_job w t j) ∧
  ∀ q, job_queue_id j = Some q → ∃ r, job_queues db !! q = Some r ∧
    queue_locked_at r = None ∧ job_queues (apply_claim w t sel db) !! q = Some (lock_queue w t r).
Proof.
  intros (Hn & Hc & _) Hij. destruct (Hc i j Hij) as [Hj Hcand]. split.
  - apply apply_claim_job; [done|]. apply list_elem_of_fmap. by exists (i, j).
  - intros q Hq. apply candidate_spec in Hcand as (_ & _ & _ & _ & _ & _ & Hqueue).
    destruct (Hqueue q Hq) as (r & Hr & Hl & _). exists r. split_and!; [done..|].
    apply apply_claim_queue; [done|]. apply list_elem_of_fmap. exists (i, j). done.
Qed.

(** C2: a batch claim is safe.  Every job it returns was unlocked with attempts
    left, due, of a task the worker registered and admitted by its flag
    filter, not held by a concurrent transaction, and its named queue was
    free; it is returned as the row now stored, locked by this worker with
    one attempt more, its queue locked by this worker too.  Jobs are distinct,
    at most one comes from each named queue, there are at most [batch_size] of
    them, and no other job or queue changes. *)
Theorem batch_claim_safe con clock td w filt n now db db' rows :
  keyed db →
  batch_get_jobs_with_filter con clock td w filt n now db db' (Ok rows) →
  let t := default clock now in
  (Z.of_nat (length rows) ≤ n) ∧ NoDup ((λ j : Job, id j) <$> rows) ∧
  (∀ j : Job, j ∈ rows → ∃ old,
     jobs db !! id j = Some old ∧ locked_at old = None ∧ attempts old < max_attempts old ∧
     run_at old ≤ t ∧ is_Some (get td (task_id old)) ∧ admits filt (flags old) = true ∧
     id j ∉ held_jobs con ∧ job_row j = lock_job w t old ∧ jobs db' !! id j = Some (job_row j) ∧
     ∀ q, job_queue_id j = Some q → ∃ r, job_queues db !! q = Some r ∧ queue_locked_at r = None ∧
       job_queues db' !! q = Some (lock_queue w t r)) ∧
  (∀ (j k : Job) q, j ∈ rows → k ∈ rows →
     job_queue_id j = Some q → job_queue_id k = Some q → j = k) ∧
  (∀ i, i ∉ (λ j : Job, id j) <$> rows → jobs db' !! i = jobs db !! i) ∧
  (∀ q, Some q ∉ (λ j : Job, job_queue_id j) <$> rows → job_queues db' !! q = job_queues db !! q).
Proof.
  intros Hkey Hstep t. inversion Hstep as [|raw rows' Hn Hs Hp]; subst. fold t in Hs, Hp |- *.
  pose proof (selection_claimed _ _ _ _ _ _ _ Hs) as Hcl.
  pose proof (selection_length _ _ _ Hs) as Hlen. pose proof (distinct_length raw) as Hd.
  set (sel := distinct_on_queue raw) in *. pose proof Hcl as (Hnd & Hc & Hq1).
  assert (∀ i j, (i, j) ∈ sel → id j = i) as Hid by (intros i j Hij; by apply Hkey, Hc).
  assert ((λ j : Job, id j) <$> rows ≡ₚ sel.*1) as Hids.
  { rewrite Hp. unfold returned_jobs. rewrite <- list_fmap_compose.
    erewrite list_fmap_ext; [reflexivity|]. intros k [i j] Hk. simpl.
    by apply Hid, (list_elem_of_lookup_2 _ k). }
  assert ((λ j : Job, job_queue_id j) <$> rows ≡ₚ (λ ij, job_queue_id ij.2) <$> sel) as Hqs.
  { rewrite Hp. unfold returned_jobs. by rewrite <- list_fmap_compose. }
  assert (∀ j, j ∈ rows → ∃ old, (id old, old) ∈ sel ∧
    j = from_db_job (lock_job w t old) (get_or_empty td (id old) (task_id old))) as Hrow.
  { intros j. rewrite Hp. unfold returned_jobs. rewrite list_elem_of_fmap.
    intros ([i old] & -> & Hi). exists old. rewrite (Hid i old Hi). done. }
  split_and!.
  - rewrite Hp. unfold returned_jobs. rewrite length_fmap. lia.
  - by rewrite Hids.
  - intros j (old & Hold & ->)%Hrow. exists old. simpl.
    destruct (Hc _ _ Hold) as [Hj Hcand].
    destruct (claimed_effect con (task_ids td) filt w t db sel _ _ Hcl Hold) as [He Heq].
    apply candidate_spec in Hcand as (? & ? & ? & Htask & ? & ? & _).
    apply elem_of_task_ids in Htask. split_and!; done.
  - intros j k q (oj & Hoj & ->)%Hrow (ok & Hok & ->)%Hrow. simpl. intros Hqj Hqk.
    assert ((id oj, oj) = (id ok, ok)) as [= _ ->] by (by apply (Hq1 _ _ q)). done.
  - intros i. rewrite Hids. apply apply_claim_other.
  - intros q. rewrite Hqs. apply apply_claim_other_queue.
Qed.

(** Claiming makes progress and respects the order.  A single claim
    returns nothing exactly when no job is claimable, and otherwise a
    claimable job that no claimable job precedes in (priority, run_at); a
    batch claim of positive size returns nothing exactly when no job is
    claimable. *)
Theorem claim_progress con clock td w filt now db db' r n rows db'' :
  keyed db → 0 < n →
  get_job_with_filter con clock td w filt now db db' r →
  batch_get_jobs_with_filter con clock td w filt n now db db'' (Ok rows) →
  let cands := candidates con (task_ids td) filt (default clock now) db in
  (r = None ↔ cands = []) ∧ (rows = [] ↔ cands = []) ∧
  ∀ j, r = Some j → ∃ old, (id j, old) ∈ cands ∧
    job_row j = lock_job w (default clock now) old ∧
    ∀ b, b ∈ cands → order_le (id j, old) b.
Proof.
  intros Hkey Hn Hg Hb cands.
  inversion Hg as [raw Hs]; subst. inversion Hb as [|raw' rows' _ Hs' Hp]; subst.
  fold cands in Hs, Hs'. split_and!.
  - destruct raw as [|[i j] raw]; simpl.
    + by apply selection_nil in Hs.
    + split; [done|]. intros Hc. pose proof (selection_elem _ _ _ (i, j) Hs) as Hin.
      rewrite Hc in Hin. by destruct (not_elem_of_nil (i, j)); apply Hin; left.
  - replace (Z.to_nat n) with (S (Z.to_nat n - 1)) in Hs' by lia. split.
    + intros ->. symmetry in Hp. apply Permutation_nil_r, fmap_nil_inv, distinct_nil in Hp.
      subst raw'. by apply selection_nil in Hs'.
    + intros Hc. rewrite Hc in Hs'. destruct raw' as [|a raw'].
      * by apply Permutation_nil_r in Hp.
      * pose proof (selection_elem _ _ _ a Hs') as Hin.
        by destruct (not_elem_of_nil a); apply Hin; left.
  - intros j Hj. pose proof (selection_length _ _ _ Hs).
    destruct raw as [|[i old] [|? ?]]; simplify_eq/=; [|lia].
    apply selection_one in Hs as [Hin Hle]. exists old.
    apply elem_of_candidates in Hin as Hin'. destruct Hin' as [Hold _].
    rewrite (Hkey i old Hold). done.
Qed.

Lemma get_exec_step con clock td w filt now db :
  get_job_with_filter con clock td w filt now db
    (get_job_exec con clock td w filt now db).1 (get_job_exec con clock td w filt now db).2.
Proof. constructor. apply pick_selection. Qed.

Lemma batch_exec_step con clock td w filt n now db :
  batch_get_jobs_with_filter con clock td w filt n now db
    (batch_get_jobs_exec con clock td w filt n now db).1
    (batch_get_jobs_exec con clock td w filt n now db).2.
Proof.
  unfold batch_get_jobs_exec. destruct (Z.ltb_spec n 0); simpl.
  - by constructor.
  - econstructor; [done|apply pick_selection|done].
Qed.

(** The executable claims are instances of the claim statements, so every
    property of the statements holds of them: an implementation that breaks
    ties by id is a correct planner choice. *)
Theorem exec_refines_claim con clock td w filt n now db :
  get_job_with_filter con clock td w filt now db
    (get_job_exec con clock td w filt now db).1 (get_job_exec con clock td w filt now db).2 ∧
  batch_get_jobs_with_filter con clock td w filt n now db
    (batch_get_jobs_exec con clock td w filt n now db).1
    (batch_get_jobs_exec con clock td w filt n now db).2.
Proof. split; [apply get_exec_step|apply batch_exec_step]. Qed.

(** ** Witnesses *)

Lemma keyed_check db :
  bool_decide (map_Forall (λ i j, id j = i) (jobs db)) = true → keyed db.
Proof. intros H%bool_decide_eq_true i j. apply H. Qed.

Definition demo_job (i : Z) (q : option Z) (p : Z) : DbJob :=
  mkDbJob i q Null p 100 0 25 None 100 100 None 0 None None None 1.

(** Two jobs of queue 1 and one without a queue. *)
Definition demo_db : Db :=
  mkDb {[1 := demo_job 1 (Some 1) 0; 2 := demo_job 2 (Some 1) 5; 3 := demo_job 3 None 7]}
    {[1 := mkQueue (lit "q") None None]} {[1 := lit "task"]} ∅ ∅ 4 2 2.

Definition demo_con : Concurrent := mkConcurrent ∅ ∅.
Definition demo_tasks : TaskDetails := {[1 := lit "task"]}.
Definition no_filter : JobFlagFilter := new_filter [] [].

Definition demo_claim : Db * result (list Job) SqlError :=
  batch_get_jobs_exec demo_con 200 demo_tasks (lit "w") no_filter 5 None demo_db.
Definition demo_rows : list Job := match demo_claim.2 with Ok r => r | Err _ => [] end.

Lemma batch_claim_safe_witness :
  length demo_rows = 2%nat ∧ NoDup ((λ j : Job, id j) <$> demo_rows).
Proof.
  destruct (batch_claim_safe demo_con 200 demo_tasks (lit "w") no_filter 5 None demo_db
    demo_claim.1 demo_rows) as (_ & H & _).
  - apply keyed_check. vm_compute. reflexivity.
  - exact (batch_exec_step demo_con 200 demo_tasks (lit "w") no_filter 5 None demo_db).
  - split; [vm_compute; reflexivity|exact H].
Defined.

Lemma claim_progress_witness :
  ∃ j : Job, (get_job_exec demo_con 200 demo_tasks (lit "w") no_filter None demo_db).2 = Some j
    ∧ id j = 1 ∧ ∃ old, (id j, old) ∈ candidates demo_con (task_ids demo_tasks) no_filter 200 demo_db.
Proof.
  destruct (claim_progress demo_con 200 demo_tasks (lit "w") no_filter None demo_db
    (get_job_exec demo_con 200 demo_tasks (lit "w") no_filter None demo_db).1
    (get_job_exec demo_con 200 demo_tasks (lit "w") no_filter None demo_db).2 5 demo_rows
    demo_claim.1) as (_ & _ & H).
  - apply keyed_check. vm_compute. reflexivity.
  - lia.
  - exact (get_exec_step demo_con 200 demo_tasks (lit "w") no_filter None demo_db).
  - exact (batch_exec_step demo_con 200 demo_tasks (lit "w") no_filter 5 None demo_db).
  - eexists. split; [vm_compute; reflexivity|]. split; [vm_compute; reflexivity|].
    edestruct H as (old & Hin & _); [vm_compute; reflexivity|]. exists old. exact Hin.
Defined.

End JobStore.
