(* ===== verification/JobRelease.v ===== *)
(** * Releasing jobs (queries/src/complete_job.rs, fail_job, return_jobs,
    recover_workers.rs, worker_heartbeat; the persistence statements of
    src/batcher; the SQL functions of m000021.sql and m000022.sql they call)

    Every statement that gives up a claimed job, and the worker registry.
    Durations are nanoseconds, timestamps microseconds. *)

From S2P Require Import Prelude Job Database FlagFilter JobStore.
Open Scope Z_scope.

Module JobRelease.
Import Job FlagFilter JobStore.

(** The rows a statement's [returning] yields. *)
Definition rows_where (p : Z → DbJob → bool) (t : gmap Z DbJob) : list DbJob :=
  (filter (λ ij, p ij.1 ij.2 = true) (map_to_list t)).*2.

(** [update job_queues ... from j where id = j.job_queue_id and locked_by = w]. *)
Definition release_queues (w : str) (j : list DbJob) (qs : gmap Z JobQueue) : gmap Z JobQueue :=
  update_where (λ q r, bool_decide (Some q ∈ job_queue_id <$> j)
                       && bool_decide (queue_locked_by r = Some w)) unlock_queue qs.

(** [delete from jobs where p]; the retirement markers of deleted jobs go
    with them (on delete cascade). *)
Definition delete_jobs (p : Z → DbJob → bool) (db : Db) : Db :=
  let js := delete_where p (jobs db) in
  with_retirements (with_jobs db js) (filter (λ i, is_Some (js !! i)) (retirements db)).

(** ** complete_job.rs *)

Definition complete_one (w : str) (job_id : Z) (queued : bool) (db : Db) : Db :=
  let p := λ i (_ : DbJob), bool_decide (i = job_id) in
  if queued then
    with_queues (delete_jobs p db)
      (release_queues w (rows_where p (jobs db)) (job_queues db))
  else delete_jobs p db.

Definition complete_job (job : Job) (worker_id : str) (db : Db) : Db :=
  complete_one worker_id (id job) (has_queue job) db.

(** ** batcher/completion/persistence: the batched statements *)

Record CompletionRequest := mkCompletion {
  job_id : Z; req_has_queue : bool; req_job : Job; duration : Z
}.

Definition complete_jobs_with_queues (w : str) (ids : list Z) (db : Db) : Db :=
  if is_empty ids then db
  else
    let p := λ i (_ : DbJob), bool_decide (i ∈ ids) in
    with_queues (delete_jobs p db)
      (release_queues w (rows_where p (jobs db)) (job_queues db)).

Definition complete_jobs_without_queues (ids : list Z) (db : Db) : Db :=
  if is_empty ids then db
  else delete_jobs (λ i _, bool_decide (i ∈ ids)) db.

(** The loop that splits the batch, then both statements. *)
Definition split_batch (batch : list CompletionRequest) : list Z * list Z :=
  foldl (λ acc req,
    if req_has_queue req then (acc.1 ++ [job_id req], acc.2)
    else (acc.1, acc.2 ++ [job_id req])) ([], []) batch.

Definition complete_batch (w : str) (batch : list CompletionRequest) (db : Db) : Db :=
  let '(with_queue_ids, without_queue_ids) := split_batch batch in
  complete_jobs_without_queues without_queue_ids
    (complete_jobs_with_queues w with_queue_ids db).

(** ** fail_job *)

Section fail.
(** [exp(n) * interval '1 second'], in microseconds. *)
Context (exp_secs : Z → Z) (now : Z).

Definition mark_failed (message : str) (replacement : option Value) (j : DbJob) : DbJob :=
  mkDbJob (id j) (job_queue_id j) (default (payload j) replacement) (priority j)
    (Z.max now (run_at j) + exp_secs (Z.min (attempts j) 10))
    (attempts j) (max_attempts j) (Some message) (created_at j) (updated_at j) (key j)
    (revision j) None None (flags j) (task_id j).

(** [locked_by = $3]. *)
Definition owned_by (w : str) (j : DbJob) : bool := bool_decide (locked_by j = Some w).

Definition fail_one (w : str) (fail_id : Z) (queued : bool) (message : str)
    (replacement : option Value) (db : Db) : Db :=
  let p := λ i j, bool_decide (i = fail_id) && owned_by w j in
  let db' := with_jobs db (update_where p (mark_failed message replacement) (jobs db)) in
  if queued
  then with_queues db' (release_queues w (rows_where p (jobs db)) (job_queues db))
  else db'.

Definition fail_job (job : Job) (worker_id message : str) (replacement_payload : option Value)
    (db : Db) : Db :=
  fail_one worker_id (id job) (has_queue job) message replacement_payload db.

(** fail_job/batch.rs: [input] pairs each id with its error; of several rows
    of [input] with one id, which one an UPDATE uses is unspecified, here the
    first. *)
Definition input_error (failed : list (Job * str)) (i : Z) : str :=
  default [] ((λ p, p.2.2) <$> list_find (λ je : Job * str, id je.1 = i) failed).

Definition fail_jobs (failed : list (Job * str)) (w : str) (db : Db) : Db :=
  if is_empty failed then db
  else
    let ids := (λ je : Job * str, id je.1) <$> failed in
    let p := λ i j, bool_decide (i ∈ ids) && owned_by w j in
    let has_queues := existsb (λ je : Job * str, has_queue je.1) failed in
    let db' := with_jobs db
      (update_where p (λ j, mark_failed (input_error failed (id j)) None j) (jobs db)) in
    if has_queues
    then with_queues db' (release_queues w (rows_where p (jobs db)) (job_queues db))
    else db'.
End fail.

(** ** duration.rs *)

Definition duration_as_millis_i64 (d : Z) : Z :=
  let ms := d / 1000000 in if ms <=? I64_MAX then ms else I64_MAX.

Definition millis (ms : Z) : Z := ms * 1000.

(** ** _private_return_jobs (m000022.sql) *)

(** An ordinary claim regains its attempt, a retired job stays exhausted. *)
Definition regained_attempts (retired : bool) (j : DbJob) : Z :=
  if retired then attempts j else Z.max 0 (attempts j - 1).

Definition mark_returned (retired : gset Z) (now : Z) (delay_ms : option Z)
    (error : option str) (recovery : bool) (j : DbJob) : DbJob :=
  mkDbJob (id j) (job_queue_id j) (payload j) (priority j)
    (match recovery, delay_ms with
     | true, Some ms => Z.max (run_at j) (now + millis ms)
     | _, _ => run_at j
     end)
    (regained_attempts (bool_decide (id j ∈ retired)) j) (max_attempts j)
    (if recovery then match error with Some e => Some e | None => last_error j end
     else last_error j)
    (created_at j) (if recovery then now else updated_at j) (key j) (revision j)
    None None (flags j) (task_id j).

Definition private_return_jobs (w : str) (ids : list Z) (delay_ms : option Z)
    (error : option str) (recovery : bool) (now : Z) (db : Db) : Db :=
  let p := λ i j, bool_decide (i ∈ ids) && owned_by w j in
  with_queues
    (with_jobs db (update_where p
       (mark_returned (retirements db) now delay_ms error recovery) (jobs db)))
    (release_queues w (rows_where p (jobs db)) (job_queues db)).

(** return_jobs/batch.rs, return_jobs/recovery.rs *)
Definition return_jobs (js : list Job) (worker_id : str) (now : Z) (db : Db) : Db :=
  if is_empty js then db
  else private_return_jobs worker_id ((λ j : Job, id j) <$> js) None None false now db.

Definition return_job_for_recovery (job : Job) (worker_id : str) (recovery_delay : option Z)
    (error : option str) (now : Z) (db : Db) : Db :=
  private_return_jobs worker_id [id job] (duration_as_millis_i64 <$> recovery_delay)
    error true now db.

(** ** recover_dead_worker_jobs (m000022.sql, recover_workers.rs) *)

Definition locked_by_any (ws : list str) (by_ : option str) : bool :=
  match by_ with Some w => bool_decide (w ∈ ws) | None => false end.

Definition recovery_message : str := lit "Job recovered after worker interruption".

Definition mark_recovered (retired : gset Z) (now delay : Z) (j : DbJob) : DbJob :=
  mkDbJob (id j) (job_queue_id j) (payload j) (priority j)
    (Z.max (run_at j) (now + delay))
    (regained_attempts (bool_decide (id j ∈ retired)) j) (max_attempts j)
    (Some recovery_message) (created_at j) now (key j) (revision j)
    None None (flags j) (task_id j).

Definition recover_dead_worker_jobs (ws : list str) (recovery_delay now : Z) (db : Db) : Db * Z :=
  if is_empty ws then (db, 0)
  else
    let p := λ (_ : Z) j, locked_by_any ws (locked_by j) in
    (with_queues
       (with_jobs db (update_where p
          (mark_recovered (retirements db) now (millis (duration_as_millis_i64 recovery_delay)))
          (jobs db)))
       (update_where (λ _ q, locked_by_any ws (queue_locked_by q)) unlock_queue (job_queues db)),
     Z.of_nat (length (rows_where p (jobs db)))).

(** [order by jobs.id asc]. *)
Definition id_le (a b : DbJob) : Prop := id a ≤ id b.

#[export] Instance id_le_dec : RelDecision id_le.
Proof. intros a b. unfold id_le. apply _. Defined.

(** The join with the tasks table, in id order. *)
Definition get_locked_jobs_for_recovery (ws : list str) (db : Db) : list Job :=
  if is_empty ws then []
  else
    filter_map (λ j, from_db_job j <$> tasks db !! task_id j)
      (merge_sort id_le
         (rows_where (λ _ j, locked_by_any ws (locked_by j)) (jobs db))).

(** ** worker_heartbeat (m000021.sql, registration.rs, stale.rs, active.rs) *)

Definition worker_heartbeat (w : str) (meta : option Value) (now : Z) (db : Db) : Db :=
  let row :=
    match workers db !! w with
    | None => mkWorker now now meta
    | Some r => mkWorker now (started_at r)
                  (match meta with Some m => Some m | None => metadata r end)
    end in
  with_workers db (<[w := row]> (workers db)).

Definition worker_deregister (w : str) (db : Db) : Db :=
  with_workers db (delete w (workers db)).

Definition list_stale_workers (threshold now : Z) (db : Db) : list str :=
  (filter (λ wr, last_heartbeat_at wr.2 < now - millis (duration_as_millis_i64 threshold))
     (map_to_list (workers db))).*1.

(** The owners of job and queue locks older than the threshold that are not
    registered. *)
Definition lock_owners (db : Db) : list (str * Z) :=
  filter_map (λ j, match locked_by j, locked_at j with Some w, Some t => Some (w, t) | _, _ => None end)
    (map_to_list (jobs db)).*2
  ++ filter_map (λ q, match queue_locked_by q, queue_locked_at q with
                      | Some w, Some t => Some (w, t) | _, _ => None end)
       (map_to_list (job_queues db)).*2.

Definition list_orphan_locked_workers (threshold now : Z) (db : Db) : list str :=
  remove_dups (filter (λ w, workers db !! w = None)
    (filter (λ wt, wt.2 < now - millis (duration_as_millis_i64 threshold)) (lock_owners db)).*1).

Definition worker_holds_resilient_locks (w : str) (resilient_flags : list str) (db : Db) : bool :=
  if is_empty resilient_flags then false
  else bool_decide (Exists (λ j, any_label (flags j) resilient_flags = Some true)
         (rows_where (λ _ j, owned_by w j) (jobs db))).

Definition get_worker_last_heartbeat (w : str) (db : Db) : option Z :=
  last_heartbeat_at <$> workers db !! w.

Definition delete_stale_workers (ws : list str) (db : Db) : Db :=
  if is_empty ws then db
  else with_workers db (filter (λ wr, wr.1 ∉ ws) (workers db)).

(** ** Lemmas *)

Lemma elem_of_rows_where p t j :
  j ∈ rows_where p t ↔ ∃ i, t !! i = Some j ∧ p i j = true.
Proof.
  unfold rows_where. rewrite list_elem_of_fmap. split.
  - intros ([i x] & -> & [H1 H2]%list_elem_of_filter). rewrite elem_of_map_to_list in H2. eauto.
  - intros (i & H1 & H2). exists (i, j). by rewrite list_elem_of_filter, elem_of_map_to_list.
Qed.

(** Which queues a statement's rows name. *)
Definition names_queue (p : Z → DbJob → bool) (t : gmap Z DbJob) (q : Z) : Prop :=
  ∃ i j, t !! i = Some j ∧ p i j = true ∧ job_queue_id j = Some q.

Lemma elem_of_row_queues p t q :
  Some q ∈ job_queue_id <$> rows_where p t ↔ names_queue p t q.
Proof.
  rewrite list_elem_of_fmap. unfold names_queue. setoid_rewrite elem_of_rows_where. naive_solver.
Qed.

Lemma release_queues_lookup w js qs q :
  release_queues w js qs !! q
  = (λ r, if bool_decide (Some q ∈ job_queue_id <$> js) && bool_decide (queue_locked_by r = Some w)
          then unlock_queue r else r) <$> qs !! q.
Proof. apply lookup_update_where. Qed.

Lemma release_queues_app w js1 js2 qs :
  release_queues w js2 (release_queues w js1 qs) = release_queues w (js1 ++ js2) qs.
Proof.
  apply map_eq. intros q. rewrite !release_queues_lookup.
  destruct (qs !! q) as [r|]; simpl; [|done]. f_equal.
  rewrite fmap_app. unfold unlock_queue.
  repeat (case_bool_decide; simpl in *); try done; set_solver.
Qed.

Lemma release_queues_ext w js1 js2 qs :
  (∀ q, Some q ∈ job_queue_id <$> js1 ↔ Some q ∈ job_queue_id <$> js2) →
  release_queues w js1 qs = release_queues w js2 qs.
Proof.
  intros H. apply map_eq. intros q. rewrite !release_queues_lookup.
  by rewrite (bool_decide_ext _ _ (H q)).
Qed.

Lemma release_queues_nil w js qs :
  (∀ q, Some q ∉ job_queue_id <$> js) → release_queues w js qs = qs.
Proof.
  intros H. apply map_eq. intros q. rewrite release_queues_lookup.
  rewrite bool_decide_eq_false_2 by done. by destruct (qs !! q).
Qed.

Lemma delete_where_twice {A} p1 p2 (t : gmap Z A) :
  delete_where p2 (delete_where p1 t) = delete_where (λ i r, p1 i r || p2 i r) t.
Proof.
  apply map_eq. intros i. apply option_eq. intros r.
  rewrite !delete_where_Some, orb_false_iff. tauto.
Qed.

Lemma delete_where_ext {A} p1 p2 (t : gmap Z A) :
  (∀ i r, t !! i = Some r → p1 i r = p2 i r) → delete_where p1 t = delete_where p2 t.
Proof.
  intros H. apply map_eq. intros i. apply option_eq. intros r.
  rewrite !delete_where_Some. split; intros [Hi <-]; (split; [done|]); [symmetry|]; by apply H.
Qed.

Lemma db_eq db1 db2 :
  jobs db1 = jobs db2 → job_queues db1 = job_queues db2 → tasks db1 = tasks db2 →
  workers db1 = workers db2 → retirements db1 = retirements db2 →
  jobs_seq db1 = jobs_seq db2 → queues_seq db1 = queues_seq db2 →
  tasks_seq db1 = tasks_seq db2 → db1 = db2.
Proof. destruct db1, db2; simpl; intros; by subst. Qed.

Lemma delete_jobs_twice p1 p2 db :
  delete_jobs p2 (delete_jobs p1 db) = delete_jobs (λ i r, p1 i r || p2 i r) db.
Proof.
  apply db_eq; simpl; try done; [apply delete_where_twice|].
  apply set_eq. intros i. rewrite !elem_of_filter, delete_where_twice.
  split; [tauto|]. intros [[r Hr] Hi]. split_and!; [by eexists| |done].
  apply delete_where_Some in Hr as [Hr Ho]. apply orb_false_iff in Ho as [Ho _].
  exists r. by apply delete_where_Some.
Qed.

Lemma delete_jobs_ext p1 p2 db :
  (∀ i r, jobs db !! i = Some r → p1 i r = p2 i r) → delete_jobs p1 db = delete_jobs p2 db.
Proof.
  intros H. unfold delete_jobs. by rewrite (delete_where_ext p1 p2 (jobs db) H).
Qed.

Lemma delete_jobs_none p db :
  (∀ i r, jobs db !! i = Some r → p i r = false) →
  (∀ i, i ∈ retirements db → is_Some (jobs db !! i)) → delete_jobs p db = db.
Proof.
  intros H Hr. assert (delete_where p (jobs db) = jobs db) as E.
  { apply map_eq. intros i. apply option_eq. intros r. rewrite delete_where_Some. naive_solver. }
  apply db_eq; simpl; try done. rewrite E.
  apply set_eq. intros i. rewrite elem_of_filter. naive_solver.
Qed.

(** ** Claim, then give back *)

(** An unlocked row names no owner, and attempts are counted from 0. *)
Definition clean (db : Db) : Prop :=
  (∀ i j, jobs db !! i = Some j → locked_at j = None → locked_by j = None) ∧
  (∀ q r, job_queues db !! q = Some r → queue_locked_at r = None → queue_locked_by r = None) ∧
  (∀ i j, jobs db !! i = Some j → 0 ≤ attempts j).

(** A retired job has no attempts left. *)
Definition retired_exhausted (db : Db) : Prop :=
  ∀ i j, jobs db !! i = Some j → i ∈ retirements db → max_attempts j ≤ attempts j.

Lemma mark_returned_lock retired now w t j :
  locked_at j = None → locked_by j = None → 0 ≤ attempts j → id j ∉ retired →
  mark_returned retired now None None false (lock_job w t j) = j.
Proof.
  intros H1 H2 H3 H4. destruct j; simpl in *. unfold mark_returned, regained_attempts; simpl.
  rewrite bool_decide_eq_false_2 by done. subst. f_equal. lia.
Qed.

Lemma unlock_lock_queue w t r :
  queue_locked_at r = None → queue_locked_by r = None → unlock_queue (lock_queue w t r) = r.
Proof. destruct r; simpl; intros; by subst. Qed.

(** The queues named by the claimed rows, read off the tables after the claim. *)
Lemma claim_names_queue con tids filt w t db sel (ids : list Z) q :
  claimed con tids filt t db sel → (∀ i, i ∈ ids ↔ i ∈ sel.*1) →
  names_queue (λ i j, bool_decide (i ∈ ids) && owned_by w j) (jobs (apply_claim w t sel db)) q ↔
  Some q ∈ (λ ij, job_queue_id ij.2) <$> sel.
Proof.
  intros Hcl Hids. pose proof Hcl as (_ & Hc & _). unfold names_queue. rewrite list_elem_of_fmap. split.
  - intros (i & j & Hj & [Hi%bool_decide_eq_true _]%andb_true_iff & Hq).
    apply Hids, list_elem_of_fmap in Hi as ([i' old] & -> & Hin). exists (i', old). split; [|done].
    destruct (claimed_effect _ _ _ w t _ _ _ _ Hcl Hin) as [He _]. simpl in *.
    rewrite He in Hj. by simplify_eq/=.
  - intros ([i old] & Hq & Hin). exists i, (lock_job w t old).
    destruct (claimed_effect _ _ _ w t _ _ _ _ Hcl Hin) as [He _].
    split_and!; [done| |done]. apply andb_true_iff. split; apply bool_decide_eq_true; [|done].
    apply Hids, list_elem_of_fmap. by exists (i, old).
Qed.

Lemma return_after_claim con tids filt w t db sel (ids : list Z) now :
  keyed db → clean db → retired_exhausted db → claimed con tids filt t db sel →
  (∀ i, i ∈ ids ↔ i ∈ sel.*1) →
  private_return_jobs w ids None None false now (apply_claim w t sel db) = db.
Proof.
  intros Hkey (Hcj & Hcq & Hat) Hre Hcl Hids. pose proof Hcl as (_ & Hc & _).
  apply db_eq; try done.
  - cbn [jobs private_return_jobs with_queues with_jobs]. apply map_eq. intros i.
    rewrite lookup_update_where. destruct (decide (i ∈ sel.*1)) as [Hi|Hi].
    + apply list_elem_of_fmap in Hi as Hin. destruct Hin as ([i' old] & -> & Hin). cbn [fst] in *.
      destruct (Hc _ _ Hin) as [Hold Hcand].
      rewrite (proj1 (claimed_effect _ _ _ w t _ _ _ _ Hcl Hin)), Hold. simpl. unfold owned_by; simpl.
      rewrite !bool_decide_eq_true_2 by (by rewrite ?Hids). simpl. f_equal.
      apply candidate_spec in Hcand as (Hl & Hlt & _).
      apply mark_returned_lock; eauto. rewrite (Hkey _ _ Hold). intros Hr.
      specialize (Hre _ _ Hold Hr). lia.
    + rewrite apply_claim_other by done. destruct (jobs db !! i) as [j|]; simpl; [|done].
      by rewrite bool_decide_eq_false_2 by (by rewrite Hids).
  - cbn [job_queues private_return_jobs with_queues with_jobs]. apply map_eq. intros q.
    rewrite release_queues_lookup.
    destruct (decide (Some q ∈ (λ ij, job_queue_id ij.2) <$> sel)) as [Hq|Hq].
    + rewrite bool_decide_eq_true_2
        by (by apply elem_of_row_queues, (claim_names_queue con tids filt w t db sel)).
      apply list_elem_of_fmap in Hq as ([i old] & Hq & Hin).
      destruct (claimed_effect _ _ _ w t _ _ _ _ Hcl Hin) as [_ He].
      destruct (He q) as (r & Hr & Hl & Hr'); [done|]. rewrite Hr', Hr. simpl.
      rewrite bool_decide_eq_true_2 by done. simpl. f_equal. eapply unlock_lock_queue; eauto.
    + rewrite bool_decide_eq_false_2
        by (by rewrite elem_of_row_queues, (claim_names_queue con tids filt w t db sel)).
      rewrite apply_claim_other_queue by done. by destruct (job_queues db !! q).
Qed.

(** What a claim returned, as rows of the tables before it. *)
Lemma batch_claim_inv con clock td w filt n now db db' rows :
  keyed db → batch_get_jobs_with_filter con clock td w filt n now db db' (Ok rows) →
  ∃ sel, claimed con (task_ids td) filt (default clock now) db sel ∧
    db' = apply_claim w (default clock now) sel db ∧
    rows ≡ₚ returned_jobs td w (default clock now) sel ∧
    ∀ i, i ∈ (λ j : Job, id j) <$> rows ↔ i ∈ sel.*1.
Proof.
  intros Hkey Hstep. inversion Hstep as [|raw rows' Hn Hs Hp]; subst.
  exists (distinct_on_queue raw). pose proof (selection_claimed _ _ _ _ _ _ _ Hs) as Hcl.
  split_and!; [done..|]. intros i. rewrite Hp. unfold returned_jobs.
  rewrite <- list_fmap_compose. pose proof Hcl as (_ & Hc & _).
  erewrite list_fmap_ext; [reflexivity|]. intros k [i' j] Hk. simpl.
  by apply Hkey, Hc, (list_elem_of_lookup_2 _ k).
Qed.


(** ** Completion *)

Lemma split_batch_filter batch :
  split_batch batch =
    (job_id <$> filter (λ r, req_has_queue r = true) batch,
     job_id <$> filter (λ r, req_has_queue r = false) batch).
Proof.
  unfold split_batch. induction batch as [|r batch IH] using rev_ind; [done|].
  rewrite foldl_snoc, IH, !filter_app, !fmap_app. simpl.
  rewrite !filter_cons, !filter_nil.
  destruct (req_has_queue r) eqn:E; repeat case_decide; simpl; congruence || by rewrite ?app_nil_r.
Qed.

(** The rows of a set of ids. *)
Definition with_id (ids : list Z) (i : Z) (_ : DbJob) : bool := bool_decide (i ∈ ids).

(** Deleting [gone] and releasing the queues of [queued], in one go. *)
Definition complete_ids (w : str) (gone queued : list Z) (db : Db) : Db :=
  with_queues (delete_jobs (with_id gone) db)
    (release_queues w (rows_where (with_id queued) (jobs db)) (job_queues db)).

Lemma with_id_nil_queues t q : ¬ names_queue (with_id []) t q.
Proof. intros (i & j & _ & H%bool_decide_eq_true & _). by apply not_elem_of_nil in H. Qed.

Lemma complete_ids_step w gone queued i b db :
  i ∉ gone → queued ⊆ gone →
  complete_one w i b (complete_ids w gone queued db)
  = complete_ids w (gone ++ [i]) (if b then queued ++ [i] else queued) db.
Proof.
  intros Hi Hsub.
  assert (∀ j, i ∉ gone → jobs (complete_ids w gone queued db) !! i = Some j ↔ jobs db !! i = Some j) as Hrow.
  { intros j _. simpl. rewrite delete_where_Some. split; [tauto|].
    intros Hj. split; [done|]. by apply bool_decide_eq_false_2. }
  assert (∀ qs, with_queues (delete_jobs (λ k _, bool_decide (k = i)) (complete_ids w gone queued db)) qs
    = with_queues (delete_jobs (with_id (gone ++ [i])) db) qs) as Hdel.
  { intros qs. change (delete_jobs (λ k _, bool_decide (k = i)) (complete_ids w gone queued db))
      with (with_queues (delete_jobs (λ k (_ : DbJob), bool_decide (k = i)) (delete_jobs (with_id gone) db))
              (job_queues (complete_ids w gone queued db))).
    rewrite delete_jobs_twice. erewrite delete_jobs_ext; [reflexivity|]. intros k r _. unfold with_id.
    rewrite <- bool_decide_or. apply bool_decide_ext. set_solver. }
  unfold complete_one. destruct b.
  - rewrite Hdel. unfold complete_ids at 3. f_equal. cbn [job_queues complete_ids with_queues].
    rewrite release_queues_app. apply release_queues_ext. intros q.
    rewrite fmap_app, elem_of_app, !elem_of_row_queues. unfold names_queue, with_id. split.
    + intros [(k & j & Hk & Hin%bool_decide_eq_true & Hq)|(k & j & Hk & ->%bool_decide_eq_true & Hq)].
      * exists k, j. split_and!; [done| |done]. apply bool_decide_eq_true. set_solver.
      * apply Hrow in Hk; [|done]. exists i, j. split_and!; [done| |done].
        apply bool_decide_eq_true. set_solver.
    + intros (k & j & Hk & [Hin|Hin]%bool_decide_eq_true%elem_of_app & Hq).
      * left. exists k, j. split_and!; [done| |done]. by apply bool_decide_eq_true.
      * apply list_elem_of_singleton in Hin as ->. right. exists i, j.
        split_and!; [by apply Hrow| |done]. by apply bool_decide_eq_true.
  - change (delete_jobs (λ k _, bool_decide (k = i)) (complete_ids w gone queued db))
      with (with_queues (delete_jobs (λ k (_ : DbJob), bool_decide (k = i)) (complete_ids w gone queued db))
              (job_queues (complete_ids w gone queued db))).
    by rewrite Hdel.
Qed.

(** Completing one by one is deleting and releasing in one go. *)
Lemma fold_complete w batch db :
  NoDup (job_id <$> batch) → (∀ i, i ∈ retirements db → is_Some (jobs db !! i)) →
  foldl (λ db r, complete_one w (job_id r) (req_has_queue r) db) db batch
  = complete_ids w (job_id <$> batch) (job_id <$> filter (λ r, req_has_queue r = true) batch) db.
Proof.
  intros Hn Hre. induction batch as [|r batch IH] using rev_ind.
  - unfold complete_ids. change (job_id <$> filter (λ r, req_has_queue r = true) []) with (@nil Z).
    cbn [foldl fmap list_fmap].
    rewrite release_queues_nil by (intros q; rewrite elem_of_row_queues; apply with_id_nil_queues).
    rewrite delete_jobs_none; [by destruct db| |done].
    intros. apply bool_decide_eq_false_2, not_elem_of_nil.
  - rewrite foldl_snoc. rewrite fmap_app in Hn |- *.
    apply NoDup_app in Hn as (Hn & Hnot & _). rewrite IH by done.
    rewrite complete_ids_step.
    + rewrite filter_app, fmap_app, filter_cons. f_equal.
      destruct (req_has_queue r) eqn:E; case_decide; simpl; congruence || by rewrite ?app_nil_r.
    + intros Hr. apply (Hnot _ Hr). set_solver.
    + intros i. rewrite !list_elem_of_fmap. intros (x & -> & [_ Hx]%list_elem_of_filter). eauto.
Qed.

Lemma complete_batch_ids w batch db :
  (∀ i, i ∈ retirements db → is_Some (jobs db !! i)) →
  complete_batch w batch db
  = complete_ids w (job_id <$> batch) (job_id <$> filter (λ r, req_has_queue r = true) batch) db.
Proof.
  intros Hre. unfold complete_batch. rewrite split_batch_filter.
  set (qs := job_id <$> filter (λ r, req_has_queue r = true) batch).
  set (us := job_id <$> filter (λ r, req_has_queue r = false) batch).
  assert (complete_jobs_with_queues w qs db = complete_ids w qs qs db) as ->.
  { unfold complete_jobs_with_queues. destruct qs as [|q qs']; [|done]. simpl.
    unfold complete_ids.
    rewrite release_queues_nil by (intros q; rewrite elem_of_row_queues; apply with_id_nil_queues).
    rewrite delete_jobs_none; [by destruct db| |done].
    intros. apply bool_decide_eq_false_2, not_elem_of_nil. }
  assert (complete_jobs_without_queues us (complete_ids w qs qs db)
    = delete_jobs (with_id us) (complete_ids w qs qs db)) as ->.
  { unfold complete_jobs_without_queues. destruct us as [|u us']; [|done]. simpl.
    rewrite delete_jobs_none; [done| |].
    - intros. apply bool_decide_eq_false_2, not_elem_of_nil.
    - intros i [Hi _]%elem_of_filter. done. }
  change (delete_jobs (with_id us) (complete_ids w qs qs db))
    with (with_queues (delete_jobs (with_id us) (delete_jobs (with_id qs) db))
            (job_queues (complete_ids w qs qs db))).
  rewrite delete_jobs_twice. unfold complete_ids. f_equal.
  apply delete_jobs_ext. intros i r _. unfold with_id. rewrite <- bool_decide_or.
  apply bool_decide_ext. unfold qs, us. rewrite !list_elem_of_fmap. setoid_rewrite list_elem_of_filter.
  split; [naive_solver|]. intros (x & -> & Hx). destruct (req_has_queue x) eqn:E; eauto.
Qed.

(** C8: Flushing a completion batch with its two statements (one for the jobs
    with a named queue, one for the others) leaves the tables exactly as
    completing the requests one by one in their order would. *)
Theorem batch_completion_equivalent w batch db :
  NoDup (job_id <$> batch) → (∀ i, i ∈ retirements db → is_Some (jobs db !! i)) →
  complete_batch w batch db
  = foldl (λ db r, complete_one w (job_id r) (req_has_queue r) db) db batch.
Proof. intros. by rewrite fold_complete, complete_batch_ids. Qed.

(** ** Failure *)

Lemma has_queue_false (j : DbJob) : has_queue j = false ↔ job_queue_id j = None.
Proof.
  unfold has_queue. rewrite bool_decide_eq_false. destruct (job_queue_id j); naive_solver.
Qed.

Section failure.
Context (exp_secs : Z → Z) (now : Z) (w : str).

(** [p.1] is the id of a failed job. *)
Definition failed_ids (failed : list (Job * str)) : list Z :=
  (λ je : Job * str, id je.1) <$> failed.

Lemma input_error_app_l failed l i :
  i ∈ failed_ids failed → input_error (failed ++ l) i = input_error failed i.
Proof.
  intros (je & -> & Hin)%list_elem_of_fmap. unfold input_error.
  destruct (list_find_elem_of (λ x : Job * str, id x.1 = id je.1) failed je Hin eq_refl) as [[k x] Hf].
  by rewrite (list_find_app_l _ _ _ _ _ Hf), Hf.
Qed.

Lemma input_error_app_r failed (job : Job) e :
  id job ∉ failed_ids failed → input_error (failed ++ [(job, e)]) (id job) = e.
Proof.
  intros Hnot. unfold input_error. rewrite list_find_app_r.
  - simpl. by rewrite decide_True.
  - apply list_find_None, Forall_forall. intros je Hin Heq.
    apply Hnot, list_elem_of_fmap. by exists je.
Qed.

Definition owned_in (ids : list Z) (i : Z) (j : DbJob) : bool :=
  bool_decide (i ∈ ids) && owned_by w j.

(** All the failures in one go, releasing the queues of their rows. *)
Definition fail_all (failed : list (Job * str)) (db : Db) : Db :=
  with_queues
    (with_jobs db (update_where (owned_in (failed_ids failed))
       (λ j, mark_failed exp_secs now (input_error failed (id j)) None j) (jobs db)))
    (release_queues w (rows_where (owned_in (failed_ids failed)) (jobs db)) (job_queues db)).

(** The in-memory job and its row agree on the queue, as they do as long as
    the worker holds the row. *)
Definition queues_agree (failed : list (Job * str)) (db : Db) : Prop :=
  ∀ (je : Job * str) r, je ∈ failed → jobs db !! id je.1 = Some r → locked_by r = Some w →
    job_queue_id r = job_queue_id je.1.

Lemma fail_jobs_all failed db :
  queues_agree failed db → fail_jobs exp_secs now failed w db = fail_all failed db.
Proof.
  intros Hag. unfold fail_jobs, fail_all. destruct failed as [|f fs]; cbn [is_empty].
  - apply db_eq; try done; cbn.
    + symmetry. apply update_where_id. intros i r _ [?%bool_decide_eq_true _]%andb_true_iff. set_solver.
    + symmetry. apply release_queues_nil. intros q. rewrite elem_of_row_queues.
      intros (i & j & _ & [?%bool_decide_eq_true _]%andb_true_iff & _). set_solver.
  - set (fl := f :: fs) in *. destruct (existsb _ fl) eqn:E; [done|].
    apply db_eq; try done. cbn [job_queues with_queues with_jobs]. symmetry. apply release_queues_nil. intros q.
    rewrite elem_of_row_queues. intros (i & j & Hj & [Hi%bool_decide_eq_true Ho%bool_decide_eq_true]%andb_true_iff & Hq).
    apply list_elem_of_fmap in Hi as (je & -> & Hin).
    rewrite (Hag je j Hin Hj Ho) in Hq.
    assert (has_queue je.1 = false) as Hf.
    { apply not_true_is_false. intros Ht. apply not_true_iff_false in E. apply E.
      apply existsb_exists. exists je. split; [by apply list_elem_of_In|done]. }
    apply has_queue_false in Hf. congruence.
Qed.

Lemma fail_all_step failed (job : Job) e db :
  keyed db → id job ∉ failed_ids failed →
  (∀ r, jobs db !! id job = Some r → locked_by r = Some w → job_queue_id r = job_queue_id job) →
  fail_job exp_secs now job w e None (fail_all failed db) = fail_all (failed ++ [(job, e)]) db.
Proof.
  intros Hkey Hnot Hag.
  assert (jobs (fail_all failed db) !! id job = jobs db !! id job) as Hrow.
  { cbn. rewrite lookup_update_where. unfold owned_in.
    rewrite bool_decide_eq_false_2 by done. by destruct (jobs db !! id job). }
  assert (failed_ids (failed ++ [(job, e)]) = failed_ids failed ++ [id job]) as Hids
    by (unfold failed_ids; by rewrite fmap_app).
  assert (update_where (λ i j, bool_decide (i = id job) && owned_by w j)
      (mark_failed exp_secs now e None) (jobs (fail_all failed db))
    = jobs (fail_all (failed ++ [(job, e)]) db)) as Hjobs.
  { apply map_eq. intros i. rewrite lookup_update_where. cbn [jobs fail_all with_queues with_jobs].
    rewrite !lookup_update_where, Hids. destruct (jobs db !! i) as [r|] eqn:Hr; simpl; [|done].
    f_equal. unfold owned_in. rewrite (Hkey i r Hr).
    destruct (decide (i = id job)) as [->|Hne].
    - rewrite (bool_decide_eq_false_2 _ Hnot). cbn [andb].
      rewrite !bool_decide_eq_true_2 by set_solver. cbn [andb]. by rewrite input_error_app_r.
    - rewrite (bool_decide_eq_false_2 (i = id job) Hne). cbn [andb].
      destruct (decide (i ∈ failed_ids failed)) as [Hi|Hi].
      + rewrite !bool_decide_eq_true_2 by set_solver. by rewrite input_error_app_l.
      + by rewrite !bool_decide_eq_false_2 by set_solver. }
  assert (release_queues w (rows_where (λ i j, bool_decide (i = id job) && owned_by w j)
      (jobs (fail_all failed db))) (job_queues (fail_all failed db))
    = job_queues (fail_all (failed ++ [(job, e)]) db)) as Hqueues.
  { cbn [job_queues fail_all with_queues]. rewrite release_queues_app, Hids.
    apply release_queues_ext. intros q. rewrite fmap_app, elem_of_app, !elem_of_row_queues.
    unfold names_queue, owned_in. split.
    - intros [(k & j & Hk & [Hin%bool_decide_eq_true Ho]%andb_true_iff & Hq)
             |(k & j & Hk & [->%bool_decide_eq_true Ho]%andb_true_iff & Hq)].
      + exists k, j. split_and!; [done| |done]. rewrite Ho, bool_decide_eq_true_2 by set_solver. done.
      + rewrite Hrow in Hk. exists (id job), j. split_and!; [done| |done].
        rewrite Ho, bool_decide_eq_true_2 by set_solver. done.
    - intros (k & j & Hk & [[Hin|Hin]%bool_decide_eq_true%elem_of_app Ho]%andb_true_iff & Hq).
      + left. exists k, j. split_and!; [done| |done]. by rewrite Ho, bool_decide_eq_true_2.
      + apply list_elem_of_singleton in Hin as ->. right. exists (id job), j.
        split_and!; [by rewrite Hrow| |done]. by rewrite Ho, bool_decide_eq_true_2. }
  unfold fail_job, fail_one. rewrite Hqueues, Hjobs. destruct (has_queue job) eqn:Hq; [done|].
  apply db_eq; try done. cbn [job_queues with_jobs]. rewrite <- Hqueues. symmetry.
  apply release_queues_nil. intros q. rewrite elem_of_row_queues.
  intros (i & j & Hj & [->%bool_decide_eq_true Ho%bool_decide_eq_true]%andb_true_iff & Hjq).
  rewrite Hrow in Hj. rewrite (Hag j Hj Ho) in Hjq. apply has_queue_false in Hq. congruence.
Qed.

Lemma fold_fail failed db :
  keyed db → NoDup (failed_ids failed) → queues_agree failed db →
  foldl (λ db je, fail_job exp_secs now je.1 w je.2 None db) db failed = fail_all failed db.
Proof.
  intros Hkey. induction failed as [|[job e] failed IH] using rev_ind; intros Hn Hag.
  - rewrite <- fail_jobs_all; done.
  - rewrite foldl_snoc. unfold failed_ids in Hn. rewrite fmap_app in Hn.
    apply NoDup_app in Hn as (Hn & Hnot & _). rewrite IH; [|done|].
    + apply fail_all_step; [done| |].
      * intros Hin. apply (Hnot _ Hin). set_solver.
      * intros r. apply (Hag (job, e)). set_solver.
    + intros je r Hin. apply Hag. set_solver.
Qed.

(** C9: Failing a batch of jobs with one statement leaves the tables exactly
    as failing them one by one with their own errors would. *)
Theorem batch_failure_equivalent failed db :
  keyed db → NoDup (failed_ids failed) → queues_agree failed db →
  fail_jobs exp_secs now failed w db
  = foldl (λ db je, fail_job exp_secs now je.1 w je.2 None db) db failed.
Proof. intros. by rewrite fold_fail, fail_jobs_all. Qed.

(** Failing a job the worker owns records the error, unlocks the job and
    its queue and nothing else, and postpones it: whatever the filter and
    worker, it can next be claimed only when attempts are left and the
    exponential delay, counted from now, has passed; with its last attempt
    spent it is never claimed again. *)
Theorem fail_job_backs_off (job : Job) (j : DbJob) message replacement db :
  keyed db → jobs db !! id job = Some j → locked_by j = Some w →
  job_queue_id j = job_queue_id job →
  (∀ q, job_queue_id j = Some q → ∃ r, job_queues db !! q = Some r ∧ queue_locked_by r = Some w) →
  let db' := fail_job exp_secs now job w message replacement db in
  let j' := mark_failed exp_secs now message replacement j in
  jobs db' !! id job = Some j' ∧ last_error j' = Some message ∧ attempts j' = attempts j ∧
  (∀ i, i ≠ id job → jobs db' !! i = jobs db !! i) ∧
  (∀ q, job_queue_id j = Some q → ∃ r, job_queues db' !! q = Some r ∧ queue_available r = true) ∧
  (∀ q, job_queue_id j ≠ Some q → job_queues db' !! q = job_queues db !! q) ∧
  (∀ con tids filt t, candidate con tids filt t db' (id job) j' = true →
     attempts j < max_attempts j ∧
     now + exp_secs (Z.min (attempts j) 10) ≤ t ∧ run_at j + exp_secs (Z.min (attempts j) 10) ≤ t).
Proof.
  intros Hkey Hj Hw Hq Hqueue db' j'.
  assert (jobs db' = update_where (λ i x, bool_decide (i = id job) && owned_by w x)
    (mark_failed exp_secs now message replacement) (jobs db)) as Hjobs
    by (unfold db', fail_job, fail_one; by destruct (has_queue job)).
  assert (∀ q, names_queue (λ i x, bool_decide (i = id job) && owned_by w x) (jobs db) q
    ↔ job_queue_id j = Some q) as Hn.
  { intros q. unfold names_queue, owned_by. split.
    - intros (i & x & Hx & [->%bool_decide_eq_true _]%andb_true_iff & ?). congruence.
    - intros. exists (id job), j. split_and!; [done| |done]. by rewrite !bool_decide_eq_true_2. }
  assert (∀ q, job_queues db' !! q = if bool_decide (job_queue_id j = Some q)
    then (λ r, if bool_decide (queue_locked_by r = Some w) then unlock_queue r else r) <$> job_queues db !! q
    else job_queues db !! q) as Hqs.
  { intros q. unfold db', fail_job, fail_one. destruct (has_queue job) eqn:E; cbn [job_queues with_queues with_jobs].
    - rewrite release_queues_lookup, (bool_decide_ext _ _ (elem_of_row_queues _ _ _)), (bool_decide_ext _ _ (Hn q)).
      case_bool_decide; simpl; [done|]. by destruct (job_queues db !! q).
    - apply has_queue_false in E. rewrite bool_decide_eq_false_2 by congruence. done. }
  split_and!.
  - rewrite Hjobs, lookup_update_where, Hj. simpl. unfold owned_by.
    by rewrite !bool_decide_eq_true_2.
  - done.
  - done.
  - intros i Hi. rewrite Hjobs, lookup_update_where, bool_decide_eq_false_2 by done.
    by destruct (jobs db !! i).
  - intros q Hjq. destruct (Hqueue q Hjq) as (r & Hr & Hrw).
    rewrite Hqs, bool_decide_eq_true_2, Hr by done. simpl. rewrite bool_decide_eq_true_2 by done. eauto.
  - intros q Hjq. by rewrite Hqs, bool_decide_eq_false_2.
  - intros con tids filt t (_ & Ha & Ht & _)%candidate_spec. cbn in Ha, Ht. lia.
Qed.
End failure.

(** ** Recovery *)

(** Recovering dead workers frees exactly their locks: every job and queue
    they held is unlocked, recovered jobs carry the recovery message, run no
    earlier than the recovery delay, regain the interrupted attempt unless
    they were retired, and are counted; every job and queue of a live worker
    is untouched. *)
Theorem recovery_frees_dead_workers ws delay now db :
  ws ≠ [] →
  let '(db', count) := recover_dead_worker_jobs ws delay now db in
  (∀ i j, jobs db !! i = Some j → locked_by_any ws (locked_by j) = true →
     ∃ j', jobs db' !! i = Some j' ∧ locked_by j' = None ∧ locked_at j' = None ∧
       last_error j' = Some recovery_message ∧ attempts j' = regained_attempts (bool_decide (id j ∈ retirements db)) j ∧
       run_at j ≤ run_at j' ∧ now + millis (duration_as_millis_i64 delay) ≤ run_at j') ∧
  (∀ i j, jobs db !! i = Some j → locked_by_any ws (locked_by j) = false → jobs db' !! i = Some j) ∧
  (∀ q r, job_queues db !! q = Some r → locked_by_any ws (queue_locked_by r) = false →
     job_queues db' !! q = Some r) ∧
  (∀ i j w, jobs db' !! i = Some j → locked_by j = Some w → w ∉ ws) ∧
  (∀ q r w, job_queues db' !! q = Some r → queue_locked_by r = Some w → w ∉ ws) ∧
  count = Z.of_nat (length (rows_where (λ _ j, locked_by_any ws (locked_by j)) (jobs db))).
Proof.
  intros Hws. unfold recover_dead_worker_jobs. destruct ws as [|w0 ws0]; [done|]. cbn [is_empty].
  set (ws := w0 :: ws0). cbn [jobs job_queues with_queues with_jobs]. split_and!.
  - intros i j Hj Hl. rewrite lookup_update_where, Hj. simpl. rewrite Hl.
    eexists. split_and!; try reflexivity; cbn; lia.
  - intros i j Hj Hl. rewrite lookup_update_where, Hj. simpl. by rewrite Hl.
  - intros q r Hr Hl. rewrite lookup_update_where, Hr. simpl. by rewrite Hl.
  - intros i j w (j0 & _ & ->)%update_where_Some. destruct (locked_by_any ws (locked_by j0)) eqn:E; [done|].
    intros Hw. rewrite Hw in E. by apply bool_decide_eq_false in E.
  - intros q r w (r0 & _ & ->)%update_where_Some. destruct (locked_by_any ws (queue_locked_by r0)) eqn:E; [done|].
    intros Hw. rewrite Hw in E. by apply bool_decide_eq_false in E.
  - done.
Qed.

(** ** Claim, then complete *)

Lemma get_claim_inv con clock td w filt now db db' r :
  get_job_with_filter con clock td w filt now db db' r →
  ∃ sel, claimed con (task_ids td) filt (default clock now) db sel ∧
    db' = apply_claim w (default clock now) sel db ∧
    r = head (returned_jobs td w (default clock now) sel) ∧ (length sel ≤ 1)%nat.
Proof.
  intros [raw Hs]. exists raw. pose proof (selection_length _ _ _ Hs).
  pose proof (selection_claimed _ _ _ _ _ _ _ Hs) as Hcl.
  rewrite distinct_singleton in Hcl by done. done.
Qed.

(** The claim of one row, and what the statements that give it up find. *)
Section single_claim.
Context {con : Concurrent} {tids : list Z} {filt : JobFlagFilter} {t : Z} {db : Db} {i : Z} {old : DbJob}.
Context (w : str).
Hypothesis Hkey : keyed db.
Hypothesis Hclean : clean db.
Hypothesis Hclaimed : claimed con tids filt t db [(i, old)].

Local Abbreviation after := (apply_claim w t [(i, old)] db).

Lemma single_claim_row :
  jobs db !! i = Some old ∧ id old = i ∧ locked_at old = None ∧ attempts old < max_attempts old ∧
  jobs after !! i = Some (lock_job w t old).
Proof.
  pose proof Hclaimed as (_ & Hc & _). destruct (Hc i old) as [Hold Hcand]; [set_solver|].
  apply candidate_spec in Hcand as (Hl & Ha & _).
  split_and!; [done|by apply Hkey|done..|]. apply apply_claim_job; [done|set_solver].
Qed.

(** An update of the claimed row alone. *)
Lemma single_claim_update p f :
  (∀ k x, p k x = true → k = i) → p i (lock_job w t old) = true →
  update_where p f (jobs after) = <[i := f (lock_job w t old)]> (jobs db).
Proof.
  intros Hp Hpi. destruct single_claim_row as (Hold & _ & _ & _ & Hrow).
  apply map_eq. intros k. rewrite lookup_update_where. destruct (decide (k = i)) as [->|Hne].
  - rewrite Hrow, lookup_insert_eq. cbn. by rewrite Hpi.
  - rewrite lookup_insert_ne, apply_claim_other by set_solver.
    destruct (jobs db !! k) as [x|]; [|done]. cbn. destruct (p k x) eqn:E; [|done]. by apply Hp in E.
Qed.

(** Releasing the queue of the claimed row restores every queue. *)
Lemma single_claim_queues p :
  (∀ k x, p k x = true → k = i) → p i (lock_job w t old) = true →
  release_queues w (rows_where p (jobs after)) (job_queues after) = job_queues db.
Proof.
  intros Hp Hpi. destruct Hclean as (_ & Hcq & _). destruct single_claim_row as (_ & _ & _ & _ & Hrow).
  pose proof Hclaimed as (_ & Hc & _). destruct (Hc i old) as [_ Hcand]; [set_solver|].
  apply candidate_spec in Hcand as (_ & _ & _ & _ & _ & _ & Hqueue).
  assert (∀ q, names_queue p (jobs after) q ↔ job_queue_id old = Some q) as Hn.
  { intros q. unfold names_queue. split.
    - intros (k & x & Hk & Hpk & Hx). apply Hp in Hpk as ->. rewrite Hrow in Hk. by simplify_eq/=.
    - intros Hq. by exists i, (lock_job w t old). }
  apply map_eq. intros q.
  rewrite release_queues_lookup, (bool_decide_ext _ _ (elem_of_row_queues _ _ _)), (bool_decide_ext _ _ (Hn q)).
  destruct (decide (job_queue_id old = Some q)) as [Hq|Hq].
  - destruct (Hqueue q Hq) as (r & Hr & Hra & _).
    rewrite (apply_claim_queue w t _ db q r Hr) by (simpl; rewrite Hq; set_solver).
    rewrite !bool_decide_eq_true_2, Hr by done. simpl. rewrite bool_decide_eq_true_2 by done.
    simpl. f_equal. eapply unlock_lock_queue; eauto.
  - rewrite bool_decide_eq_false_2 by done. cbn [andb].
    rewrite apply_claim_other_queue by set_solver. by destruct (job_queues db !! q).
Qed.

(** Without a queue the claim left the queues alone. *)
Lemma single_claim_no_queue : has_queue old = false → job_queues after = job_queues db.
Proof.
  intros E%has_queue_false. apply map_eq. intros q. apply apply_claim_other_queue. cbn. rewrite E. set_solver.
Qed.

Lemma complete_after_claim (j : Job) :
  job_row j = lock_job w t old →
  complete_job j w after = delete_jobs (λ k _, bool_decide (k = i)) db.
Proof.
  intros Hj. destruct single_claim_row as (_ & Hid & _). unfold complete_job, complete_one. rewrite Hj.
  change (id (lock_job w t old)) with (id old). change (has_queue (lock_job w t old)) with (has_queue old).
  rewrite Hid. set (p := λ (k : Z) (_ : DbJob), bool_decide (k = i)).
  assert (delete_where p (jobs after) = delete_where p (jobs db)) as Hdel.
  { apply map_eq. intros k. apply option_eq. intros r. rewrite !delete_where_Some.
    unfold p. rewrite bool_decide_eq_false.
    split; intros [Hk Hne]; (split; [|done]); [|by rewrite apply_claim_other by set_solver].
    by rewrite apply_claim_other in Hk by set_solver. }
  assert (delete_jobs p after = with_queues (delete_jobs p db) (job_queues after)) as Hd
    by (apply db_eq; try done; cbn [retirements with_queues delete_jobs with_retirements]; by rewrite Hdel).
  rewrite Hd. destruct (has_queue old) eqn:E.
  - rewrite single_claim_queues; [done|by intros k x ?%bool_decide_eq_true|by apply bool_decide_eq_true].
  - by rewrite single_claim_no_queue.
Qed.

Lemma fail_after_claim exp_secs now (j : Job) message replacement :
  job_row j = lock_job w t old →
  fail_job exp_secs now j w message replacement after
  = with_jobs db (<[i := mark_failed exp_secs now message replacement (lock_job w t old)]> (jobs db)).
Proof.
  intros Hj. destruct single_claim_row as (_ & Hid & _). unfold fail_job, fail_one. rewrite Hj.
  change (id (lock_job w t old)) with (id old). change (has_queue (lock_job w t old)) with (has_queue old).
  rewrite Hid. set (p := λ (k : Z) (x : DbJob), bool_decide (k = i) && owned_by w x).
  assert (∀ k x, p k x = true → k = i) as Hp by (by intros k x [?%bool_decide_eq_true _]%andb_true_iff).
  assert (p i (lock_job w t old) = true) as Hpi
    by (apply andb_true_iff; split; by apply bool_decide_eq_true).
  rewrite (single_claim_update p) by done. destruct (has_queue old) eqn:E.
  - by rewrite single_claim_queues.
  - apply db_eq; try done. cbn [job_queues with_jobs]. by apply single_claim_no_queue.
Qed.

Lemma private_return_after_claim delay_ms error recovery now :
  private_return_jobs w [i] delay_ms error recovery now after
  = with_jobs db (<[i := mark_returned (retirements db) now delay_ms error recovery (lock_job w t old)]> (jobs db)).
Proof.
  unfold private_return_jobs. set (p := λ (k : Z) (x : DbJob), bool_decide (k ∈ [i]) && owned_by w x).
  assert (∀ k x, p k x = true → k = i) as Hp.
  { intros k x [Hk%bool_decide_eq_true _]%andb_true_iff. by apply list_elem_of_singleton in Hk. }
  assert (p i (lock_job w t old) = true) as Hpi.
  { apply andb_true_iff; split; [apply bool_decide_eq_true; set_solver|by apply bool_decide_eq_true]. }
  by rewrite (single_claim_update p), single_claim_queues.
Qed.
End single_claim.

(** A single claim that returned a job. *)
Lemma get_claim_some con clock td w filt now db db' (j : Job) :
  keyed db → get_job_with_filter con clock td w filt now db db' (Some j) →
  ∃ old, claimed con (task_ids td) filt (default clock now) db [(id j, old)] ∧
    db' = apply_claim w (default clock now) [(id j, old)] db ∧
    job_row j = lock_job w (default clock now) old.
Proof.
  intros Hkey (sel & Hcl & -> & Hr & Hlen)%get_claim_inv.
  destruct sel as [|[i old] [|? ?]]; [done| |simpl in Hlen; lia]. simpl in Hr. simplify_eq. cbn.
  pose proof Hcl as (_ & Hc & _). destruct (Hc i old) as [Hold _]; [set_solver|].
  exists old. by rewrite (Hkey i old Hold).
Qed.

(** Completing the job a claim returned removes exactly that job: apart from
    it, every table is what it was before the claim, so its queue is free
    again and no other job was touched. *)
Theorem claim_complete_removes con clock td w filt now db db' (j : Job) :
  keyed db → clean db →
  get_job_with_filter con clock td w filt now db db' (Some j) →
  complete_job j w db' = delete_jobs (λ i _, bool_decide (i = id j)) db.
Proof.
  intros Hkey Hclean (old & Hcl & -> & Hj)%get_claim_some; [|done].
  by apply (complete_after_claim w Hkey Hclean Hcl).
Qed.

(** ** Witnesses *)

Lemma clean_check db :
  bool_decide (map_Forall (λ _ j, (locked_at j = None → locked_by j = None) ∧ 0 ≤ attempts j) (jobs db)) = true →
  bool_decide (map_Forall (λ _ r, queue_locked_at r = None → queue_locked_by r = None) (job_queues db)) = true →
  clean db.
Proof.
  intros H1%bool_decide_eq_true H2%bool_decide_eq_true. split_and!.
  - intros i j Hj. by apply (H1 i).
  - intros q r Hr. by apply (H2 q).
  - intros i j Hj. by apply (H1 i).
Qed.

Lemma retired_check db : bool_decide (retirements db = ∅) = true → retired_exhausted db.
Proof. intros H%bool_decide_eq_true i j _. rewrite H. set_solver. Qed.


Definition request_job (i : Z) : Job :=
  mkJob (mkDbJob i None Null 0 0 1 25 None 0 0 None 0 None None None 1) (lit "t").

Definition demo_request (i : Z) (queued : bool) : CompletionRequest :=
  mkCompletion i queued (request_job i) 0.

Definition demo_batch : list CompletionRequest :=
  [demo_request 3 false; demo_request 1 true; demo_request 9 true].

Lemma batch_completion_equivalent_witness :
  jobs (complete_batch (lit "w") demo_batch demo_claim.1) !! 1 = None ∧
  complete_batch (lit "w") demo_batch demo_claim.1
  = foldl (λ db r, complete_one (lit "w") (job_id r) (req_has_queue r) db) demo_claim.1 demo_batch.
Proof.
  split; [vm_compute; reflexivity|]. apply batch_completion_equivalent.
  - apply (bool_decide_unpack _). vm_compute. exact I.
  - intros i Hi. exfalso. revert Hi. apply not_elem_of_empty.
Defined.

Definition demo_exp (n : Z) : Z := 3 ^ n * 1000000.
Definition demo_failed : list (Job * str) := (λ j, (j, lit "boom")) <$> demo_rows.

Lemma demo_db_keyed : keyed demo_claim.1.
Proof. apply keyed_check. vm_compute. reflexivity. Qed.

Lemma queues_agree_check w failed db :
  forallb (λ je : Job * str, match jobs db !! id je.1 with
    | Some r => bool_decide (locked_by r = Some w → job_queue_id r = job_queue_id je.1)
    | None => true end) failed = true → queues_agree w failed db.
Proof.
  rewrite forallb_forall. intros H je r Hin Hr.
  specialize (H je (proj1 (list_elem_of_In _ _) Hin)). rewrite Hr in H.
  by apply bool_decide_eq_true in H.
Qed.

Lemma batch_failure_equivalent_witness :
  fail_jobs demo_exp 300 demo_failed (lit "w") demo_claim.1
  = foldl (λ db je, fail_job demo_exp 300 je.1 (lit "w") je.2 None db) demo_claim.1 demo_failed.
Proof.
  apply batch_failure_equivalent.
  - exact demo_db_keyed.
  - apply (bool_decide_unpack _). vm_compute. exact I.
  - apply queues_agree_check. vm_compute. reflexivity.
Defined.

Lemma fail_job_backs_off_witness :
  ∃ (job : Job) j, id job = 1 ∧ jobs demo_claim.1 !! id job = Some j ∧
    jobs (fail_job demo_exp 300 job (lit "w") (lit "boom") None demo_claim.1) !! id job
      = Some (mark_failed demo_exp 300 (lit "boom") None j).
Proof.
  destruct (demo_claim.1.(jobs) !! 1) as [j|] eqn:E; [|vm_compute in E; discriminate E].
  exists (mkJob j []), j.
  assert (id j = 1) as Hid by (apply (demo_db_keyed 1 j E)).
  destruct (fail_job_backs_off demo_exp 300 (lit "w") (mkJob j []) j (lit "boom") None demo_claim.1)
    as (H & _).
  - exact demo_db_keyed.
  - simpl. rewrite Hid. exact E.
  - vm_compute in E. injection E as <-. reflexivity.
  - reflexivity.
  - vm_compute in E. injection E as <-. intros q [= <-]. eexists. split; vm_compute; reflexivity.
  - split; [exact Hid|]. split; [|exact H].
    change (id (mkJob j [])) with (id j). rewrite Hid. exact E.
Defined.

Lemma recovery_frees_dead_workers_witness :
  (recover_dead_worker_jobs [lit "w"] 0 300 demo_claim.1).2 = 2 ∧
  ∀ i j w, jobs (recover_dead_worker_jobs [lit "w"] 0 300 demo_claim.1).1 !! i = Some j →
    locked_by j = Some w → w ∉ [lit "w"].
Proof.
  split; [vm_compute; reflexivity|].
  assert ([lit "w"] ≠ []) as Hne by discriminate.
  destruct (recovery_frees_dead_workers [lit "w"] 0 300 demo_claim.1 Hne) as (_ & _ & _ & H & _).
  exact H.
Defined.

Lemma claim_complete_removes_witness :
  ∃ j db', get_job_exec demo_con 200 demo_tasks (lit "w") no_filter None demo_db = (db', Some j) ∧
    complete_job j (lit "w") db' = delete_jobs (λ i _, bool_decide (i = id j)) demo_db.
Proof.
  destruct (get_job_exec demo_con 200 demo_tasks (lit "w") no_filter None demo_db) as [db' [j|]] eqn:E;
    [|apply (f_equal snd) in E; vm_compute in E; discriminate E].
  exists j, db'. split; [reflexivity|].
  apply (claim_complete_removes demo_con 200 demo_tasks (lit "w") no_filter None).
  - apply keyed_check. vm_compute. reflexivity.
  - apply clean_check; vm_compute; reflexivity.
  - pose proof (get_exec_step demo_con 200 demo_tasks (lit "w") no_filter None demo_db) as H.
    rewrite E in H. exact H.
Defined.

End JobRelease.
