(* ===== verification/Hooks.v ===== *)
(** * Lifecycle hooks (crates/graphile-worker-lifecycle-hooks)

    Interceptor events: the handlers registered for an event run in order and
    the first terminal answer wins; a chained event threads a value through
    them.  A handler is the function from its context to its answer.  Observer
    events only run application code for its effects and are not modelled. *)

From S2P Require Import Prelude Job.
Open Scope Z_scope.

Module Hooks.

(** ** result.rs *)

Inductive HookResult := Continue | Skip | Fail (reason : str).

Inductive JobScheduleResult :=
| ScheduleContinue (payload : Job.Value)
| ScheduleSkip
| ScheduleFail (reason : str).

Inductive JobRecoveryResult :=
| RecoveryDefault
| Reschedule (run_at : Z) (attempts : option Z)
| FailWithBackoff
| RecoverySkip.

(** ** event.rs: the trait [HookOutput] and its implementations *)

Class HookOutput (Out ChainValue : Type) := {
  out_default : Out;
  is_terminal : Out → bool;
  chain_value : Out → option ChainValue;
  default_with_value : ChainValue → Out
}.

#[export] Instance HookResult_output : HookOutput HookResult unit := {
  out_default := Continue;
  is_terminal r := match r with Continue => false | _ => true end;
  chain_value _ := None;
  default_with_value _ := Continue
}.

#[export] Instance JobRecoveryResult_output : HookOutput JobRecoveryResult unit := {
  out_default := RecoveryDefault;
  is_terminal r := match r with RecoveryDefault => false | _ => true end;
  chain_value _ := None;
  default_with_value _ := RecoveryDefault
}.

#[export] Instance JobScheduleResult_output : HookOutput JobScheduleResult Job.Value := {
  out_default := ScheduleContinue Job.Null;
  is_terminal r := match r with ScheduleContinue _ => false | _ => true end;
  chain_value r := match r with ScheduleContinue v => Some v | _ => None end;
  default_with_value v := ScheduleContinue v
}.

(** ** erased.rs, registry.rs: the handlers of one event, in order of
    registration; [None] when the event has no entry. *)

Definition register {H : Type} (handlers : option (list H)) (h : H) : option (list H) :=
  Some (default [] handlers ++ [h]).

(** ** events/interceptor.rs *)

Section intercept.
Context {Ctx Out ChainValue : Type} `{HookOutput Out ChainValue}.

(** The loop of an event without a chain: the answer and the number of
    handlers that ran. *)
Fixpoint intercept_loop (handlers : list (Ctx → Out)) (ctx : Ctx) (ran : nat) : Out * nat :=
  match handlers with
  | [] => (out_default, ran)
  | handler :: rest =>
      let result := handler ctx in
      if is_terminal result then (result, S ran) else intercept_loop rest ctx (S ran)
  end.

Definition intercept (handlers : option (list (Ctx → Out))) (ctx : Ctx) : Out * nat :=
  match handlers with
  | None => (out_default, 0%nat)
  | Some hs => intercept_loop hs ctx 0
  end.

(** The chained event, on a field of the context; [None] is a panic of
    [unwrap]. *)
Context (get : Ctx → ChainValue) (set : ChainValue → Ctx → Ctx).

Fixpoint chain_loop (handlers : list (Ctx → Out)) (self : Ctx) (current : ChainValue) : option Out :=
  match handlers with
  | [] => Some (default_with_value current)
  | handler :: rest =>
      let result := handler (set current self) in
      if is_terminal result then Some result
      else match chain_value result with
           | Some v => chain_loop rest self v
           | None => None
           end
  end.

Definition intercept_chained (handlers : option (list (Ctx → Out))) (self : Ctx) : option Out :=
  match handlers with
  | None => Some (default_with_value (get self))
  | Some hs => chain_loop hs self (get self)
  end.

(** ** First terminal answer *)

Lemma intercept_loop_spec hs ctx n :
  intercept_loop hs ctx n =
    match list_find (λ h, is_terminal (h ctx) = true) hs with
    | Some (i, h) => (h ctx, n + S i)%nat
    | None => (out_default, n + length hs)%nat
    end.
Proof.
  revert n. induction hs as [|h hs IH]; intros n; simpl; [by rewrite Nat.add_0_r|].
  destruct (is_terminal (h ctx)) eqn:E; case_decide; try congruence.
  - by rewrite Nat.add_1_r.
  - rewrite IH. destruct (list_find _ hs) as [[i x]|]; simpl; f_equal; lia.
Qed.

(** An interceptor answers with the first terminal answer in registration
    order, having run exactly the handlers up to it; when every handler lets
    the event pass (or none is registered), all of them ran and the answer is
    the default. *)
Theorem intercept_first_terminal hs ctx :
  intercept (Some hs) ctx =
    (match list_find (λ h, is_terminal (h ctx) = true) hs with
     | Some (i, h) => (h ctx, S i)
     | None => (out_default, length hs)
     end) ∧
  intercept None ctx = (out_default, 0%nat) ∧
  (∀ h, register (Some hs) h = Some (hs ++ [h])).
Proof.
  split_and!; [|done|done]. unfold intercept. rewrite intercept_loop_spec.
  by destruct (list_find _ hs) as [[]|].
Qed.
End intercept.

(** ** Chaining *)

(** The context of [BeforeJobSchedule]. *)
Record BeforeJobScheduleContext := mkSchedule {
  sched_identifier : str;
  sched_payload : Job.Value;
  sched_spec : Job.JobSpec
}.

Definition set_payload (v : Job.Value) (c : BeforeJobScheduleContext) : BeforeJobScheduleContext :=
  mkSchedule (sched_identifier c) v (sched_spec c).

Abbreviation ScheduleHook := (BeforeJobScheduleContext → JobScheduleResult).

Definition intercept_schedule (handlers : option (list ScheduleHook))
    (ctx : BeforeJobScheduleContext) : option JobScheduleResult :=
  intercept_chained sched_payload set_payload handlers ctx.

(** Composition of schedule hooks: each one sees the payload the previous one
    continued with. *)
Definition compose_schedule (ctx : BeforeJobScheduleContext) (r : JobScheduleResult)
    (h : ScheduleHook) : JobScheduleResult :=
  match r with ScheduleContinue v => h (set_payload v ctx) | t => t end.

Lemma compose_terminal ctx r hs :
  is_terminal r = true → foldl (compose_schedule ctx) r hs = r.
Proof. induction hs as [|h hs IH]; [done|]. by destruct r. Qed.

Lemma chain_loop_fold hs ctx v :
  chain_loop set_payload hs ctx v = Some (foldl (compose_schedule ctx) (ScheduleContinue v) hs).
Proof.
  revert v. induction hs as [|h hs IH]; intros v; simpl; [done|].
  destruct (h (set_payload v ctx)) as [v'| |reason] eqn:E; simpl.
  - apply IH.
  - by rewrite compose_terminal.
  - by rewrite compose_terminal.
Qed.

(** The schedule interceptor never panics and is the left-to-right
    composition of its handlers: each handler receives the payload the
    previous one continued with, a skip or failure ends the chain, and the
    payload is unchanged when no handler is registered. *)
Theorem schedule_chain_composes (handlers : option (list ScheduleHook)) ctx :
  intercept_schedule handlers ctx
  = Some (foldl (compose_schedule ctx) (ScheduleContinue (sched_payload ctx)) (default [] handlers)).
Proof. destruct handlers as [hs|]; [apply chain_loop_fold|done]. Qed.

End Hooks.
