(* ===== verification/TaskHandler.v ===== *)
(** * Task handlers (crates/graphile-worker-task-handler)

    How the result of a handler becomes the outcome the worker releases the
    job with, and in particular how a batch job keeps only its failed items.
    Deserialization, the handler itself and [Debug] formatting of errors are
    parameters. *)

From S2P Require Import Prelude Job.
Open Scope Z_scope.

Module TaskHandler.
Import Job.

(** ** outcome.rs *)

Inductive TaskHandlerOutcome :=
| Complete
| Failed (error : str) (replacement_payload : option Value).

Definition failed (error : str) : TaskHandlerOutcome := Failed error None.
Definition failed_with_replacement (error : str) (v : Value) : TaskHandlerOutcome :=
  Failed error (Some v).

(** ** batch.rs *)

Inductive BatchTaskResult (E : Type) :=
| BatchComplete
| FailAll (error : E)
| ItemResults (results : list (result unit E)).
Arguments BatchComplete {E}.
Arguments FailAll {E} error.
Arguments ItemResults {E} results.

Definition from_unit {E} : BatchTaskResult E := BatchComplete.
Definition from_result {E} (r : result unit E) : BatchTaskResult E :=
  match r with Ok _ => BatchComplete | Err e => FailAll e end.
Definition from_results {E} (rs : list (result unit E)) : BatchTaskResult E := ItemResults rs.

(** [slice::join]. *)
Fixpoint join (sep : str) (l : list str) : str :=
  match l with
  | [] => []
  | [s] => s
  | s :: l' => s ++ sep ++ join sep l'
  end.

Section runner.
Context {E : Type} (debug : E → str).

(** The loop over the results; [None] is an out-of-bounds panic. *)
Fixpoint collect_failed (results : list (result unit E)) (index : nat) (item_payloads : list Value) :
    option (list Value * list str) :=
  match results with
  | [] => Some ([], [])
  | Ok _ :: rest => collect_failed rest (S index) item_payloads
  | Err e :: rest =>
      item ← item_payloads !! index;
      '(items, errors) ← collect_failed rest (S index) item_payloads;
      Some (item :: items, (dec (Z.of_nat index) ++ lit ": " ++ debug e) :: errors)
  end.

Definition batch_result_to_task_outcome (r : BatchTaskResult E) (item_count : nat)
    (item_payloads : list Value) : option TaskHandlerOutcome :=
  match r with
  | BatchComplete => Some Complete
  | FailAll e => Some (failed (debug e))
  | ItemResults results =>
      if negb (length results =? item_count)%nat then
        Some (failed (lit "batch handler returned " ++ dec (Z.of_nat (length results))
                      ++ lit " results for " ++ dec (Z.of_nat item_count) ++ lit " payload items"))
      else
        '(failed_items, errors) ← collect_failed results 0 item_payloads;
        Some (match failed_items with
              | [] => Complete
              | _ => failed_with_replacement
                       (dec (Z.of_nat (length failed_items)) ++ lit " batch item(s) failed: "
                        ++ join (lit ", ") errors)
                       (Array failed_items)
              end)
  end.

(** ** runner.rs *)

(** [Vec::<T>::deserialize], item by item, and the handler. *)
Context {T DeError : Type} (deserialize : Value → result T DeError)
        (debug_de : DeError → str).

Definition run_batch_task_from_worker_ctx (run_batch : list T → BatchTaskResult E) (payload : Value) :
    option TaskHandlerOutcome :=
  match as_array payload with
  | None => Some (failed (lit "batch job payload must be a JSON array"))
  | Some item_payloads =>
      match collect_result (deserialize <$> item_payloads) with
      | Err error => Some (failed (debug_de error))
      | Ok items => batch_result_to_task_outcome (run_batch items) (length items) item_payloads
      end
  end.

Definition run_task_from_worker_ctx (run : T → result unit E) (payload : Value) : result unit str :=
  match deserialize payload with
  | Err e => Err (debug_de e)
  | Ok job => map_err debug (run job)
  end.

Definition run_task_from_worker_ctx_outcome (run : T → result unit E) (payload : Value) :
    TaskHandlerOutcome :=
  match run_task_from_worker_ctx run payload with
  | Ok _ => Complete
  | Err error => failed error
  end.

(** ** Only failed items are retried *)

(** The payloads at the positions of failed results, in order. *)
Definition failed_payloads (results : list (result unit E)) (payloads : list Value) : list Value :=
  filter_map (λ rp, match rp.1 with Ok _ => None | Err _ => Some rp.2 end) (zip results payloads).

Lemma collect_failed_spec results index payloads :
  length payloads = (index + length results)%nat →
  ∃ errors, collect_failed results index payloads
    = Some (failed_payloads results (drop index payloads), errors) ∧
    length errors = length (failed_payloads results (drop index payloads)).
Proof.
  revert index. induction results as [|r results IH]; intros index Hl; simpl in *; [by exists []|].
  destruct (lookup_lt_is_Some_2 payloads index) as [p Hp]; [lia|].
  rewrite (drop_S _ p index Hp). destruct (IH (S index)) as (errors & He & Hlen); [lia|].
  unfold failed_payloads in *. destruct r as [u|e]; simpl.
  - by exists errors.
  - rewrite Hp; simpl. rewrite He; simpl. eexists. split; [done|]. simpl. by rewrite Hlen.
Qed.

Lemma collect_result_length {A Er} (l : list (result A Er)) vs :
  collect_result l = Ok vs → length vs = length l.
Proof.
  revert vs. induction l as [|[v|e] l IH]; intros vs; simpl; [by intros [= <-]| |done].
  destruct (collect_result l); [|done]. intros [= <-]. simpl. f_equal. by apply IH.
Qed.

Lemma failed_payloads_nil results payloads :
  length results = length payloads →
  failed_payloads results payloads = [] ↔ Forall (λ r, is_ok r = true) results.
Proof.
  unfold failed_payloads. revert payloads.
  induction results as [|r results IH]; intros [|p payloads] Hl; simpl in *; try done.
  injection Hl as Hl. rewrite Forall_cons, <- IH by done. destruct r; simpl; naive_solver.
Qed.

(** One result per item: the job completes, or keeps the failed items. *)
Lemma item_results_outcome results payloads :
  length results = length payloads →
  ∃ m, batch_result_to_task_outcome (ItemResults results) (length payloads) payloads
    = Some (if decide (Forall (λ r, is_ok r = true) results) then Complete
            else Failed m (Some (Array (failed_payloads results payloads)))).
Proof.
  intros Hl. unfold batch_result_to_task_outcome. rewrite Hl, Nat.eqb_refl. cbn [negb].
  destruct (collect_failed_spec results 0 payloads) as (errors & He & _); [done|].
  rewrite He, drop_0; cbn. pose proof (failed_payloads_nil results payloads Hl) as Hn.
  destruct (failed_payloads results payloads) as [|v vs]; case_decide as Hf.
  - by exists [].
  - destruct Hf. by apply Hn.
  - by apply Hn in Hf.
  - unfold failed_with_replacement. by eexists.
Qed.

(** A batch job runs without panicking on every payload; when its handler
    reports one result per item, the job completes exactly when every item
    succeeded, and otherwise fails with a replacement payload holding exactly
    the payloads of the failed items, in their order; a wrong number of
    results, a payload that is not an array or an item that does not
    deserialize fails the job with its payload untouched. *)
Theorem batch_retries_exactly_failed_items (run_batch : list T → BatchTaskResult E) (payload : Value) :
  ∃ outcome, run_batch_task_from_worker_ctx run_batch payload = Some outcome ∧
  match as_array payload with
  | None => ∃ m, outcome = Failed m None
  | Some payloads =>
      match collect_result (deserialize <$> payloads) with
      | Err _ => ∃ m, outcome = Failed m None
      | Ok items =>
          match run_batch items with
          | BatchComplete => outcome = Complete
          | FailAll _ => ∃ m, outcome = Failed m None
          | ItemResults results =>
              if decide (length results = length payloads) then
                (Forall (λ r, is_ok r = true) results → outcome = Complete) ∧
                (¬ Forall (λ r, is_ok r = true) results →
                   ∃ m, outcome = Failed m (Some (Array (failed_payloads results payloads))))
              else ∃ m, outcome = Failed m None
          end
      end
  end.
Proof.
  unfold run_batch_task_from_worker_ctx. destruct (as_array payload) as [payloads|]; [|eauto].
  destruct (collect_result _) as [items|e] eqn:Hi; [|unfold failed; eauto].
  apply collect_result_length in Hi. rewrite length_fmap in Hi.
  destruct (run_batch items) as [|e|results]; [cbn; eauto|cbn; unfold failed; eauto|]. rewrite Hi.
  destruct (decide (length results = length payloads)) as [Hl|Hl].
  2:{ cbn. destruct (Nat.eqb_spec (length results) (length payloads)); [done|]. cbn. unfold failed. eauto. }
  destruct (item_results_outcome results payloads Hl) as (m & Hm).
  rewrite Hm. eexists. split; [done|]. case_decide; naive_solver.
Qed.
End runner.

End TaskHandler.
