(* ===== verification/AddJob.v ===== *)
(** * Adding and managing jobs (queries/src/add_job, task_identifiers.rs,
    get_queue_names.rs, telemetry.rs; crates/graphile-worker-utils; the SQL
    functions add_jobs, add_job, remove_job, reschedule_jobs,
    permanently_fail_jobs, complete_jobs, force_unlock_workers)

    A statement either changes the tables or fails and leaves them alone.
    Inserted rows take the next value of their identity sequence. *)

From S2P Require Import Prelude Job Database FlagFilter JobStore JobRelease Hooks.
Open Scope Z_scope.

Module AddJob.
Import Job FlagFilter JobStore JobRelease Hooks.

(** ** add_jobs (m000022.sql) *)

(** The composite type [job_spec]. *)
Record SqlSpec := mkSqlSpec {
  s_identifier : str;
  s_payload : option Value;
  s_queue_name : option str;
  s_run_at : option Z;
  s_max_attempts : option Z;
  s_job_key : option str;
  s_priority : option Z;
  s_flags : option (list str)
}.

(** The id of the row with a given unique name. *)
Definition name_id (t : gmap Z str) (name : str) : option Z :=
  (λ p, p.2.1) <$> list_find (λ kv, kv.2 = name) (map_to_list t).

Definition queue_names (db : Db) : gmap Z str := queue_name <$> job_queues db.

Definition with_tasks (db : Db) (ts : gmap Z str) (seq : Z) : Db :=
  mkDb (jobs db) (job_queues db) ts (workers db) (retirements db)
    (jobs_seq db) (queues_seq db) seq.

(** [insert into tasks ... where not exists ... on conflict do nothing]. *)
Definition insert_task_name (db : Db) (name : str) : result Db SqlError :=
  match name_id (tasks db) name with
  | Some _ => Ok db
  | None =>
      if (128 <? Z.of_nat (length name)) then Err CheckViolation
      else Ok (with_tasks db (<[tasks_seq db := name]> (tasks db)) (tasks_seq db + 1))
  end.

Definition insert_queue_name (db : Db) (name : str) : result Db SqlError :=
  match name_id (queue_names db) name with
  | Some _ => Ok db
  | None =>
      if (128 <? Z.of_nat (length name)) then Err CheckViolation
      else Ok (mkDb (jobs db)
             (<[queues_seq db := mkQueue name None None]> (job_queues db)) (tasks db)
             (workers db) (retirements db) (jobs_seq db) (queues_seq db + 1) (tasks_seq db))
  end.

Fixpoint insert_names (f : Db → str → result Db SqlError) (names : list str) (db : Db) :
    result Db SqlError :=
  match names with
  | [] => Ok db
  | n :: ns => let? db := f db n in insert_names f ns db
  end.

(** [key = null, attempts = max_attempts, updated_at = now()]. *)
Definition retire (now : Z) (j : DbJob) : DbJob :=
  mkDbJob (id j) (job_queue_id j) (payload j) (priority j) (run_at j) (max_attempts j)
    (max_attempts j) (last_error j) (created_at j) now None (revision j)
    (locked_at j) (locked_by j) (flags j) (task_id j).

Definition has_key_in (keys : list str) (j : DbJob) : bool :=
  match key j with Some k => bool_decide (k ∈ keys) | None => false end.

(** The ids of the rows a condition selects. *)
Definition ids_where (p : Z → DbJob → bool) (t : gmap Z DbJob) : gset Z :=
  dom (filter (λ ij, p ij.1 ij.2 = true) t).

(** Keyed jobs that cannot be replaced in place lose their key and stay
    exhausted. *)
Definition retire_unavailable (keys : list str) (now : Z) (db : Db) : Db :=
  let p := λ (_ : Z) j, has_key_in keys j && negb (job_available j) in
  with_retirements (with_jobs db (update_where p (retire now) (jobs db)))
    (retirements db ∪ ids_where p (jobs db)).

(** [select jsonb_object_agg(flag, true) from unnest(flags)]. *)
Definition flags_object (fl : option (list str)) : option Value :=
  match fl with
  | Some ((_ :: _) as l) => Some (Object ((λ f, (f, VBool true)) <$> remove_dups l))
  | _ => None
  end.

Definition key_ok (k : option str) : bool :=
  match k with
  | None => true
  | Some k => (0 <? Z.of_nat (length k)) && (Z.of_nat (length k) <=? 512)
  end.

(** The row to insert; the ids of its task and queue are joined by name. *)
Definition new_row (db : Db) (now : Z) (spec : SqlSpec) (tid : Z) : DbJob :=
  mkDbJob (jobs_seq db) (name ← s_queue_name spec; name_id (queue_names db) name)
    (default (Object []) (s_payload spec)) (default 0 (s_priority spec))
    (default now (s_run_at spec)) 0 (default 25 (s_max_attempts spec)) None now now
    (s_job_key spec) 0 None None (flags_object (s_flags spec)) tid.

Definition array_concat (a b : Value) : Value :=
  match a, b with Array x, Array y => Array (x ++ y) | _, _ => b end.

(** [on conflict (key) do update]. *)
Definition replace_row (preserve : bool) (now : Z) (j excluded : DbJob) : DbJob :=
  mkDbJob (id j) (job_queue_id excluded) (array_concat (payload j) (payload excluded))
    (priority excluded)
    (if preserve && (attempts j =? 0) then run_at j else run_at excluded)
    0 (max_attempts excluded) None (created_at j) now (key j) (revision j + 1)
    (locked_at j) (locked_by j) (flags excluded) (task_id excluded).

Definition with_new_job (db : Db) (js : gmap Z DbJob) : Db :=
  mkDb js (job_queues db) (tasks db) (workers db) (retirements db)
    (jobs_seq db + 1) (queues_seq db) (tasks_seq db).

Definition find_key (db : Db) (k : str) : option (Z * DbJob) :=
  snd <$> list_find (λ ij : Z * DbJob, key ij.2 = Some k) (map_to_list (jobs db)).

(** One row of the INSERT: [touched] are the rows this command already wrote.
    The conflict path consumes an identity value too. *)
Definition insert_row (preserve : bool) (now : Z) (touched : gset Z) (spec : SqlSpec) (db : Db) :
    result (Db * gset Z * option DbJob) SqlError :=
  match name_id (tasks db) (s_identifier spec) with
  | None => Ok (db, touched, None)
  | Some tid =>
      let row := new_row db now spec tid in
      if negb ((1 <=? max_attempts row) && key_ok (key row)) then Err CheckViolation
      else
        match k ← s_job_key spec; find_key db k with
        | None =>
            Ok (with_new_job db (<[jobs_seq db := row]> (jobs db)),
                {[jobs_seq db]} ∪ touched, Some row)
        | Some (i, j) =>
            if bool_decide (i ∈ touched) then Err AffectsRowTwice
            else if bool_decide (locked_at j = None) then
              let j' := replace_row preserve now j row in
              Ok (with_new_job db (<[i := j']> (jobs db)), {[i]} ∪ touched, Some j')
            else Ok (with_new_job db (jobs db), touched, None)
        end
  end.

Fixpoint insert_rows (preserve : bool) (now : Z) (touched : gset Z) (specs : list SqlSpec) (db : Db) :
    result (Db * list DbJob) SqlError :=
  match specs with
  | [] => Ok (db, [])
  | s :: ss =>
      let? (db, touched, row) := insert_row preserve now touched s db in
      let? (db, rows) := insert_rows preserve now touched ss db in
      Ok (db, match row with Some r => r :: rows | None => rows end)
  end.

Definition sql_add_jobs (specs : list SqlSpec) (preserve : bool) (now : Z) (db : Db) :
    result (Db * list DbJob) SqlError :=
  let? db := insert_names insert_task_name (remove_dups (s_identifier <$> specs)) db in
  let? db := insert_names insert_queue_name (remove_dups (filter_map s_queue_name specs)) db in
  insert_rows preserve now ∅ specs (retire_unavailable (filter_map s_job_key specs) now db).

(** ** add_job (m000021.sql) *)

Definition touch_row (now : Z) (j : DbJob) : DbJob :=
  mkDbJob (id j) (job_queue_id j) (payload j) (priority j) (run_at j) (attempts j)
    (max_attempts j) (last_error j) (created_at j) now (key j) (revision j + 1)
    (locked_at j) (locked_by j) (flags j) (task_id j).

Definition sql_dedupe (spec : SqlSpec) (k : str) (now : Z) (db : Db) :
    result (Db * DbJob) SqlError :=
  let? db := insert_task_name db (s_identifier spec) in
  let? db := match s_queue_name spec with
             | Some q => insert_queue_name db q
             | None => Ok db
             end in
  match name_id (tasks db) (s_identifier spec) with
  | None => Err UnableToSchedule
  | Some tid =>
      let row := new_row db now spec tid in
      if negb ((1 <=? max_attempts row) && key_ok (key row)) then Err CheckViolation
      else
        match find_key db k with
        | None => Ok (with_new_job db (<[jobs_seq db := row]> (jobs db)), row)
        | Some (i, j) =>
            let j' := touch_row now j in
            Ok (with_new_job db (<[i := j']> (jobs db)), j')
        end
  end.

Definition sql_add_job (spec : SqlSpec) (mode : option str) (now : Z) (db : Db) :
    result (Db * DbJob) SqlError :=
  match s_job_key spec, mode with
  | Some k, Some m =>
      if bool_decide (m = lit "replace" ∨ m = lit "preserve_run_at") then
        let? (db, rows) := sql_add_jobs [spec] (bool_decide (m = lit "preserve_run_at")) now db in
        match rows with r :: _ => Ok (db, r) | [] => Err UnableToSchedule end
      else if bool_decide (m = lit "unsafe_dedupe") then sql_dedupe spec k now db
      else Err InvalidJobKeyMode
  | _, _ =>
      let? (db, rows) :=
        sql_add_jobs [spec] (bool_decide (mode = Some (lit "preserve_run_at"))) now db in
      match rows with r :: _ => Ok (db, r) | [] => Err UnableToSchedule end
  end.

(** ** telemetry.rs *)

(** [Map::insert]. *)
Fixpoint fields_insert (k : str) (v : Value) (fs : list (str * Value)) : list (str * Value) :=
  match fs with
  | [] => [(k, v)]
  | (k', v') :: fs' => if bool_decide (k = k') then (k, v) :: fs' else (k', v') :: fields_insert k v fs'
  end.

(** An element of an array is changed only when it is itself an object. *)
Definition add_tracing_info_with_trace (trace : Value) (payload : Value) : Value :=
  match payload with
  | Object fs => Object (fields_insert (lit "_trace") trace fs)
  | Array items =>
      Array ((λ item, match item with
                      | Object fs => Object (fields_insert (lit "_trace") trace fs)
                      | _ => item
                      end) <$> items)
  | _ => payload
  end.

Definition prepare_payload (trace : option Value) (payload : Value) : Value :=
  match trace with Some t => add_tracing_info_with_trace t payload | None => payload end.

(** ** add_job/single.rs, add_job/batch.rs *)

Inductive GraphileWorkerError :=
| SqlFailed (e : SqlError)
| JobScheduleFailed (msg : str)
| JobScheduleSkipped.

(** The local clock when the worker uses local time. *)
Definition spec_row (trace : option Value) (default_run_at : option Z)
    (identifier : str) (payload : Value) (spec : JobSpec) : SqlSpec :=
  mkSqlSpec identifier (Some (prepare_payload trace payload)) (spec_queue_name spec)
    (match spec_run_at spec with Some t => Some t | None => default_run_at end)
    (spec_max_attempts spec) (spec_job_key spec) (spec_priority spec) (spec_flags spec).

Definition add_job (trace : option Value) (local_now : Z) (identifier : str) (payload : Value)
    (spec : JobSpec) (use_local_time : bool) (now : Z) (db : Db) :
    result (Db * Job) GraphileWorkerError :=
  let row := spec_row trace (if use_local_time then Some local_now else None)
               identifier payload spec in
  let? (db, job) := map_err SqlFailed
    (sql_add_job row (job_key_mode_to_string <$> spec_job_key_mode spec) now db) in
  Ok (db, from_db_job job identifier).

Record JobToAdd := mkToAdd { a_identifier : str; a_payload : Value; a_spec : JobSpec }.

Definition validate_batch_job_key_modes (js : list JobToAdd) : result unit GraphileWorkerError :=
  if existsb (λ j, bool_decide (spec_job_key_mode (a_spec j) = Some UnsafeDedupe)) js
  then Err (JobScheduleFailed (lit "UnsafeDedupe job_key_mode is not supported in batch add_jobs"))
  else Ok ().

Definition single_batch_identifier (js : list JobToAdd) : option str :=
  match js with
  | [] => None
  | j :: _ =>
      if forallb (λ k, bool_decide (a_identifier k = a_identifier j)) js
      then Some (a_identifier j) else None
  end.

Definition BORROWED_BATCH_SERIALIZATION_THRESHOLD : nat := 512.

(** The two serializations of a batch. *)
Definition build_borrowed_batch_specs (js : list JobToAdd) (default_run_at : option Z) : list SqlSpec :=
  (λ j, mkSqlSpec (a_identifier j) (Some (a_payload j)) (spec_queue_name (a_spec j))
          (match spec_run_at (a_spec j) with Some t => Some t | None => default_run_at end)
          (spec_max_attempts (a_spec j)) (spec_job_key (a_spec j)) (spec_priority (a_spec j))
          (spec_flags (a_spec j))) <$> js.

Definition build_batch_specs (js : list JobToAdd) (default_run_at : option Z)
    (trace : option Value) : list SqlSpec :=
  if bool_decide (trace = None)
     && (BORROWED_BATCH_SERIALIZATION_THRESHOLD <=? length js)%nat
  then build_borrowed_batch_specs js default_run_at
  else (λ j, spec_row trace default_run_at (a_identifier j) (a_payload j) (a_spec j)) <$> js.

Definition add_jobs (trace : option Value) (local_now : Z) (js : list JobToAdd)
    (td : TaskDetails) (preserve use_local_time : bool) (now : Z) (db : Db) :
    result (Db * list Job) GraphileWorkerError :=
  if is_empty js then Ok (db, [])
  else
    let? _ := validate_batch_job_key_modes js in
    let specs := build_batch_specs js (if use_local_time then Some local_now else None) trace in
    let? (db, rows) := map_err SqlFailed (sql_add_jobs specs preserve now db) in
    Ok (db, (λ r, from_db_job r (get_or_empty td (id r) (task_id r))) <$> rows).

(** ** utils/src/add: scheduling through the hooks *)

Definition invoke_before_job_schedule (hooks : option (option (list ScheduleHook)))
    (identifier : str) (payload : Value) (spec : JobSpec) :
    option (result Value GraphileWorkerError) :=
  match hooks with
  | None => Some (Ok payload)
  | Some handlers =>
      r ← intercept_schedule handlers (mkSchedule identifier payload spec);
      Some (match r with
            | ScheduleContinue payload => Ok payload
            | ScheduleSkip => Err JobScheduleSkipped
            | ScheduleFail msg => Err (JobScheduleFailed msg)
            end)
  end.

(** [add_batch_job]: the payload to insert. *)
Definition batch_payload (hooks : option (option (list ScheduleHook))) (identifier : str)
    (payloads : list Value) (spec : JobSpec) : option (result Value GraphileWorkerError) :=
  let at_least_one := Err (JobScheduleFailed (lit "batch job payload must contain at least one item")) in
  if is_empty payloads then Some at_least_one
  else
    r ← invoke_before_job_schedule hooks identifier (Array payloads) spec;
    Some (match r with
          | Err e => Err e
          | Ok (Array []) => at_least_one
          | Ok (Array l) => Ok (Array l)
          | Ok _ => Err (JobScheduleFailed
              (lit "before_job_schedule must return a JSON array for batch jobs"))
          end).

(** [prepare_batch_jobs]: the jobs and whether run times are preserved. *)
Fixpoint prepare_batch_jobs (hooks : option (option (list ScheduleHook)))
    (js : list (str * Value * JobSpec)) : option (result (list JobToAdd * bool) GraphileWorkerError) :=
  match js with
  | [] => Some (Ok ([], false))
  | (identifier, payload, spec) :: rest =>
      r ← invoke_before_job_schedule hooks identifier payload spec;
      match r with
      | Err e => Some (Err e)
      | Ok payload =>
          r' ← prepare_batch_jobs hooks rest;
          Some (let? (more, preserve) := r' in
                Ok (mkToAdd identifier payload spec :: more,
                    bool_decide (spec_job_key_mode spec = Some PreserveRunAt) || preserve))
      end
  end.

Definition unique_identifiers (identifiers : list str) : list str :=
  foldl (λ acc i, if bool_decide (i ∈ acc) then acc else acc ++ [i]) [] identifiers.

(** ** utils/src/actions.rs and the SQL functions it calls *)

Definition FOUR_HOURS : Z := 4 * 3600 * 1000000.

(** [locked_at is null or locked_at < now() - interval '4 hours']. *)
Definition manageable (now : Z) (j : DbJob) : bool :=
  match locked_at j with None => true | Some t => t <? now - FOUR_HOURS end.

Definition remove_job (k : str) (now : Z) (db : Db) : Db :=
  let deletable := λ (_ : Z) j, bool_decide (key j = Some k) && manageable now j in
  if negb (is_empty (rows_where deletable (jobs db))) then delete_jobs deletable db
  else
    let p := λ (_ : Z) j, bool_decide (key j = Some k) in
    with_retirements (with_jobs db (update_where p (retire now) (jobs db)))
      (retirements db ∪ ids_where p (jobs db)).

Definition complete_jobs (ids : list Z) (now : Z) (db : Db) : Db :=
  delete_jobs (λ i j, bool_decide (i ∈ ids) && manageable now j) db.

Definition exhaust (now : Z) (reason : str) (j : DbJob) : DbJob :=
  mkDbJob (id j) (job_queue_id j) (payload j) (priority j) (run_at j) (max_attempts j)
    (max_attempts j) (Some reason) (created_at j) now (key j) (revision j)
    (locked_at j) (locked_by j) (flags j) (task_id j).

Definition permanently_fail_jobs (ids : list Z) (reason : str) (now : Z) (db : Db) : Db :=
  let p := λ i j, bool_decide (i ∈ ids) && manageable now j in
  with_retirements (with_jobs db (update_where p (exhaust now reason) (jobs db)))
    (retirements db ∪ ids_where p (jobs db)).

Record RescheduleJobOptions := mkReschedule {
  r_run_at : option Z;
  r_priority : option Z;
  r_attempts : option Z;
  r_max_attempts : option Z
}.

Definition reschedule (o : RescheduleJobOptions) (now : Z) (j : DbJob) : DbJob :=
  mkDbJob (id j) (job_queue_id j) (payload j) (default (priority j) (r_priority o))
    (default (run_at j) (r_run_at o)) (default (attempts j) (r_attempts o))
    (default (max_attempts j) (r_max_attempts o)) (last_error j) (created_at j) now (key j)
    (revision j) (locked_at j) (locked_by j) (flags j) (task_id j).

(** An explicit revival clears the retirement of the rows it updates. *)
Definition reschedule_jobs (ids : list Z) (o : RescheduleJobOptions) (now : Z) (db : Db) :
    result Db SqlError :=
  let p := λ i j, bool_decide (i ∈ ids) && manageable now j in
  if negb (is_empty (rows_where p (jobs db))) && (default 1 (r_max_attempts o) <? 1)
  then Err CheckViolation
  else Ok (with_retirements (with_jobs db (update_where p (reschedule o now) (jobs db)))
             (retirements db ∖ ids_where p (jobs db))).

Definition unlock_job (j : DbJob) : DbJob :=
  mkDbJob (id j) (job_queue_id j) (payload j) (priority j) (run_at j) (attempts j)
    (max_attempts j) (last_error j) (created_at j) (updated_at j) (key j) (revision j)
    None None (flags j) (task_id j).

Definition force_unlock_workers (ws : list str) (db : Db) : Db :=
  with_queues
    (with_jobs db (update_where (λ _ j, locked_by_any ws (locked_by j)) unlock_job (jobs db)))
    (update_where (λ _ q, locked_by_any ws (queue_locked_by q)) unlock_queue (job_queues db)).

(** ** utils/src/types.rs: the statements of a cleanup *)

Inductive CleanupTask := GcTaskIdentifiers | GcJobQueues | DeletePermanentlyFailedJobs.

Definition cleanup_execute (task : CleanupTask) (keep : list str) (db : Db) : Db :=
  match task with
  | DeletePermanentlyFailedJobs =>
      delete_jobs (λ _ j, (attempts j =? max_attempts j) && bool_decide (locked_at j = None)) db
  | GcTaskIdentifiers =>
      let used := task_id <$> rows_where (λ _ _, true) (jobs db) in
      with_tasks db (delete_where (λ i name, bool_decide (i ∉ used) && bool_decide (name ∉ keep)) (tasks db))
        (tasks_seq db)
  | GcJobQueues =>
      let used := job_queue_id <$> rows_where (λ _ _, true) (jobs db) in
      with_queues db
        (delete_where (λ i q, bool_decide (queue_locked_at q = None) && bool_decide (Some i ∉ used))
           (job_queues db))
  end.

(** ** queries/src/task_identifiers.rs *)

Definition task_rows_to_details (rows : list (Z * str)) : TaskDetails :=
  foldl (λ d r, insert_task d r.1 r.2) ∅ rows.

Definition get_tasks_details (names : list str) (db : Db) : result (Db * TaskDetails) SqlError :=
  if is_empty names then Ok (db, ∅)
  else
    let? db := insert_names insert_task_name (remove_dups names) db in
    Ok (db, task_rows_to_details
              (filter (λ r, r.2 ∈ names) (map_to_list (tasks db)))).

(** ** queries/src/get_queue_names.rs *)

Definition get_queue_names (ids : list Z) (db : Db) : list (option str) :=
  (λ i, queue_name <$> job_queues db !! i) <$> ids.

(** ** Lookup lemmas *)

Lemma name_id_Some t n i : name_id t n = Some i → t !! i = Some n.
Proof.
  unfold name_id. intros ([k [x y]] & H & [= ->])%fmap_Some.
  apply list_find_Some in H as (H & Hy & _). simpl in Hy. subst y.
  apply elem_of_map_to_list. by eapply list_elem_of_lookup_2.
Qed.

Lemma name_id_is_Some t n i : t !! i = Some n → is_Some (name_id t n).
Proof.
  intros H%elem_of_map_to_list. unfold name_id.
  destruct (list_find_elem_of (λ kv : Z * str, kv.2 = n) _ _ H eq_refl) as [x Hx].
  rewrite Hx. simpl. eauto.
Qed.

Lemma find_key_Some db k i j : find_key db k = Some (i, j) → jobs db !! i = Some j ∧ key j = Some k.
Proof.
  unfold find_key. intros ([n [x y]] & H & [= -> ->])%fmap_Some.
  apply list_find_Some in H as (H & Hy & _). split; [|done].
  apply elem_of_map_to_list. by eapply list_elem_of_lookup_2.
Qed.

Lemma find_key_None db k : find_key db k = None ↔ ∀ i j, jobs db !! i = Some j → key j ≠ Some k.
Proof.
  unfold find_key. rewrite fmap_None, list_find_None, Forall_forall. split.
  - intros H i j Hj%elem_of_map_to_list. by apply (H (i, j)).
  - intros H [i j] Hj%elem_of_map_to_list. by apply (H i j).
Qed.

Definition keys_unique (db : Db) : Prop :=
  ∀ i j i' j' k, jobs db !! i = Some j → jobs db !! i' = Some j' →
    key j = Some k → key j' = Some k → i = i'.

Lemma find_key_unique db k i j :
  keys_unique db → jobs db !! i = Some j → key j = Some k → find_key db k = Some (i, j).
Proof.
  intros Hu Hj Hk. destruct (find_key db k) as [[i' j']|] eqn:E.
  - apply find_key_Some in E as [Hj' Hk']. assert (i' = i) as -> by eauto. by simplify_eq.
  - rewrite find_key_None in E. by destruct (E i j).
Qed.

(** Inserting names leaves the jobs alone. *)
Definition same_jobs (db db' : Db) : Prop :=
  jobs db' = jobs db ∧ retirements db' = retirements db ∧ jobs_seq db' = jobs_seq db ∧
  workers db' = workers db.

Lemma insert_task_same db n db' : insert_task_name db n = Ok db' →
  same_jobs db db' ∧ job_queues db' = job_queues db ∧ is_Some (name_id (tasks db') n) ∧
  (∀ i x, tasks db !! i = Some x → (∀ i x, tasks db !! i = Some x → i < tasks_seq db) → tasks db' !! i = Some x).
Proof.
  unfold insert_task_name. destruct (name_id (tasks db) n) as [i|] eqn:E.
  - intros [= <-]. split_and!; [done|done|by rewrite E|done].
  - case_match; [done|]. intros [= <-]. split_and!; [done|done| |].
    + eapply (name_id_is_Some _ _ (tasks_seq db)). apply lookup_insert_eq.
    + intros i x Hi Hseq. simpl. rewrite lookup_insert_ne; [done|].
      specialize (Hseq _ _ Hi). lia.
Qed.

Lemma insert_queue_same db n db' : insert_queue_name db n = Ok db' →
  same_jobs db db' ∧ tasks db' = tasks db ∧ is_Some (name_id (queue_names db') n).
Proof.
  unfold insert_queue_name. destruct (name_id (queue_names db) n) as [i|] eqn:E.
  - intros [= <-]. by rewrite E.
  - case_match; [done|]. intros [= <-]. split_and!; [done|done|].
    eapply (name_id_is_Some _ _ (queues_seq db)). unfold queue_names. simpl.
    by rewrite lookup_fmap, lookup_insert_eq.
Qed.

Lemma insert_names_ind (R : Db → Db → Prop) f ns db db' :
  (∀ d, R d d) → (∀ a b c, R a b → R b c → R a c) → (∀ d n d', f d n = Ok d' → R d d') →
  insert_names f ns db = Ok db' → R db db'.
Proof.
  intros Hr Ht Hf. revert db. induction ns as [|n ns IH]; intros db; simpl.
  - intros [= <-]. apply Hr.
  - destruct (f db n) as [d|] eqn:E; [|done]. intros H. eapply Ht; [by eapply Hf|by apply IH].
Qed.

Lemma same_jobs_trans a b c : same_jobs a b → same_jobs b c → same_jobs a c.
Proof. unfold same_jobs. intuition congruence. Qed.

Lemma insert_tasks_same ns db db' : insert_names insert_task_name ns db = Ok db' →
  same_jobs db db' ∧ job_queues db' = job_queues db.
Proof.
  apply (insert_names_ind (λ a b, same_jobs a b ∧ job_queues b = job_queues a)).
  - by intros.
  - intros a b c [? ?] [? ?]. split; [by eapply same_jobs_trans|congruence].
  - intros d n d' H. apply insert_task_same in H. tauto.
Qed.

Lemma insert_queues_same ns db db' : insert_names insert_queue_name ns db = Ok db' →
  same_jobs db db' ∧ tasks db' = tasks db.
Proof.
  apply (insert_names_ind (λ a b, same_jobs a b ∧ tasks b = tasks a)).
  - by intros.
  - intros a b c [? ?] [? ?]. split; [by eapply same_jobs_trans|congruence].
  - intros d n d' H. apply insert_queue_same in H. tauto.
Qed.

Lemma elem_of_ids_where p t i : i ∈ ids_where p t ↔ ∃ j, t !! i = Some j ∧ p i j = true.
Proof. unfold ids_where. rewrite elem_of_dom. unfold is_Some. by setoid_rewrite map_lookup_filter_Some. Qed.

(** ** Job keys *)

Lemma retire_find_key keys now db k :
  keys_unique db → k ∈ keys →
  find_key (retire_unavailable keys now db) k =
    match find_key db k with
    | Some (i, j) => if job_available j then Some (i, j) else None
    | None => None
    end.
Proof.
  intros Hu Hk. set (db2 := retire_unavailable keys now db).
  assert (∀ i j, jobs db2 !! i = Some j → key j = Some k →
    jobs db !! i = Some j ∧ job_available j = true) as Hinv.
  { intros i j (j0 & Hj0 & ->)%update_where_Some.
    destruct (has_key_in keys j0 && negb (job_available j0)) eqn:E; [done|]. intros Hkey.
    split; [done|]. unfold has_key_in in E. rewrite Hkey, bool_decide_eq_true_2 in E by done.
    by apply negb_false_iff in E. }
  destruct (find_key db k) as [[i j]|] eqn:E.
  - apply find_key_Some in E as [Hj Hkey]. destruct (job_available j) eqn:Ha.
    + destruct (find_key db2 k) as [[i' j']|] eqn:E2.
      * apply find_key_Some in E2 as [Hj' Hk']. destruct (Hinv _ _ Hj' Hk') as [Hj0 _].
        assert (i' = i) as -> by eauto. by simplify_eq.
      * rewrite find_key_None in E2. destruct (E2 i j); [|done]. cbn.
        rewrite lookup_update_where, Hj. simpl. by rewrite Ha, andb_false_r.
    + apply find_key_None. intros i' j' Hj' Hk'. destruct (Hinv _ _ Hj' Hk') as [Hj0 Ha'].
      assert (i' = i) as -> by eauto. congruence.
  - apply find_key_None. intros i' j' Hj' Hk'. destruct (Hinv _ _ Hj' Hk') as [Hj0 _].
    rewrite find_key_None in E. by apply (E i' j').
Qed.

(** Rows that do not carry the key are not touched by retirement. *)
Lemma retire_other keys now db i j :
  jobs db !! i = Some j → has_key_in keys j = false →
  jobs (retire_unavailable keys now db) !! i = Some j.
Proof. intros Hj Hk. cbn. rewrite lookup_update_where, Hj. simpl. by rewrite Hk. Qed.

(** The tables once names are inserted and unavailable holders of [k] are
    retired, as the INSERT finds them. *)
Record retired_for (db : Db) (k : str) (now : Z) (db3 : Db) : Prop := {
  rf_seq : jobs_seq db3 = jobs_seq db;
  rf_find : find_key db3 k =
    match find_key db k with
    | Some (i, j) => if job_available j then Some (i, j) else None
    | None => None
    end;
  rf_holder : ∀ i j, jobs db3 !! i = Some j → key j = Some k → find_key db3 k = Some (i, j);
  rf_other : ∀ i j, jobs db !! i = Some j → key j ≠ Some k → jobs db3 !! i = Some j;
  rf_retired : ∀ i j, find_key db k = Some (i, j) → job_available j = false →
    jobs db3 !! i = Some (retire now j) ∧ i ∈ retirements db3
}.

Lemma retire_for db db2 k now :
  keys_unique db → jobs db2 = jobs db → jobs_seq db2 = jobs_seq db →
  retired_for db k now (retire_unavailable [k] now db2).
Proof.
  intros Hu HJ HS. set (db3 := retire_unavailable [k] now db2).
  assert (keys_unique db2) as Hu2 by (intros i j i' j' k'; rewrite HJ; apply Hu).
  assert (find_key db2 k = find_key db k) as HF by (unfold find_key; by rewrite HJ).
  assert (∀ x y, jobs db3 !! x = Some y → key y = Some k → jobs db !! x = Some y) as Hback.
  { intros x y (y0 & Hy0 & ->)%update_where_Some.
    destruct (has_key_in [k] y0 && negb (job_available y0)); [done|]. by rewrite <- HJ. }
  constructor.
  - done.
  - rewrite <- HF. apply retire_find_key; [done|set_solver].
  - intros i j Hj Hkj. destruct (find_key db3 k) as [[i' j']|] eqn:E3.
    + apply find_key_Some in E3 as [Hj' Hk'].
      assert (i' = i) as -> by (eapply Hu; eauto). by simplify_eq.
    + rewrite find_key_None in E3. by destruct (E3 i j).
  - intros i j Hj Hne. apply retire_other; [by rewrite HJ|]. unfold has_key_in.
    destruct (key j); [|done]. apply bool_decide_eq_false_2. set_solver.
  - intros i j [Hj Hkj]%find_key_Some Ha.
    assert (has_key_in [k] j && negb (job_available j) = true) as Hp.
    { unfold has_key_in. by rewrite Hkj, Ha, bool_decide_eq_true_2 by set_solver. }
    split; cbn.
    + rewrite HJ, lookup_update_where, Hj. simpl. by rewrite Hp.
    + apply elem_of_union. right. apply elem_of_ids_where. exists j. by rewrite HJ.
Qed.

(** Adding one job is preparing the tables and inserting one row. *)
Lemma sql_add_one spec k preserve now db db' rows :
  keys_unique db → s_job_key spec = Some k →
  sql_add_jobs [spec] preserve now db = Ok (db', rows) →
  ∃ db3 tid touched row, retired_for db k now db3 ∧
    insert_row preserve now ∅ spec db3 = Ok (db', touched, row) ∧
    rows = option_list row ∧ name_id (tasks db3) (s_identifier spec) = Some tid.
Proof.
  intros Hu Hk. unfold sql_add_jobs.
  assert (remove_dups (s_identifier <$> [spec]) = [s_identifier spec]) as -> by done.
  cbn [insert_names].
  destruct (insert_task_name db (s_identifier spec)) as [db1|] eqn:E1; [|done].
  apply insert_task_same in E1 as ((Hj1 & _ & Hs1 & _) & _ & [tid Ht1] & _).
  destruct (insert_names insert_queue_name _ db1) as [db2|] eqn:E2; [|done].
  apply insert_queues_same in E2 as ((Hj2 & _ & Hs2 & _) & Ht2).
  assert (filter_map s_job_key [spec] = [k]) as -> by (simpl; by rewrite Hk).
  set (db3 := retire_unavailable [k] now db2). cbn [insert_rows].
  destruct (insert_row preserve now ∅ spec db3) as [[[d touched] row]|] eqn:E3; [|done].
  intros [= <- <-]. exists db3, tid, touched, row. split_and!; [|done|by destruct row|].
  - apply retire_for; [done|congruence..].
  - cbn. by rewrite Ht2.
Qed.

(** The row is new when no available job holds the key. *)
Lemma insert_new_holder db k now db3 row :
  retired_for db k now db3 → (∀ i j, jobs db !! i = Some j → i < jobs_seq db) →
  find_key db3 k = None → id row = jobs_seq db3 →
  let db' := with_new_job db3 (<[jobs_seq db3 := row]> (jobs db3)) in
  jobs db' !! id row = Some row ∧
  (∀ i j, jobs db' !! i = Some j → key j = Some k → j = row) ∧
  (∀ i j, jobs db !! i = Some j → jobs db' !! i = jobs db3 !! i) ∧ id row = jobs_seq db.
Proof.
  intros Hr Hseq Hnone Hid db'. pose proof (rf_seq _ _ _ _ Hr) as HS. split_and!.
  - rewrite Hid. cbn. apply lookup_insert_eq.
  - intros x y. cbn [jobs with_new_job db']. destruct (decide (x = jobs_seq db3)) as [->|Hx].
    + rewrite lookup_insert_eq. congruence.
    + rewrite lookup_insert_ne by done. intros Hy Hky.
      rewrite (rf_holder _ _ _ _ Hr _ _ Hy Hky) in Hnone. done.
  - intros x y Hy. cbn [jobs with_new_job db']. rewrite lookup_insert_ne; [done|].
    specialize (Hseq x y Hy). lia.
  - congruence.
Qed.

(** C4: adding a job with a key, in replace or preserve-run-at mode.  It always
    yields exactly one job carrying the key, returned to the caller, unlocked
    with no attempts spent.  A job with that key that was still available is
    updated in place (next revision, run time kept only when preserving and
    never attempted); one that was locked or exhausted instead loses its key,
    is exhausted and recorded as retired, keeping its lock, and a new row is
    created.  No job without the key changes. *)
Theorem add_job_with_key spec k preserve now db db' rows :
  keys_unique db → keyed db → (∀ i j, jobs db !! i = Some j → i < jobs_seq db) →
  s_job_key spec = Some k →
  sql_add_jobs [spec] preserve now db = Ok (db', rows) →
  ∃ r, rows = [r] ∧ key r = Some k ∧ locked_at r = None ∧ attempts r = 0 ∧
    jobs db' !! id r = Some r ∧
    (∀ i j, jobs db' !! i = Some j → key j = Some k → j = r) ∧
    (∀ i j, jobs db !! i = Some j → key j ≠ Some k → jobs db' !! i = Some j) ∧
    match find_key db k with
    | Some (i, j) =>
        if job_available j then
          id r = i ∧ revision r = revision j + 1 ∧
          (preserve = true → attempts j = 0 → run_at r = run_at j) ∧
          (preserve = false ∨ attempts j ≠ 0 → run_at r = default now (s_run_at spec))
        else
          jobs db' !! i = Some (retire now j) ∧ i ∈ retirements db' ∧ id r = jobs_seq db
    | None => id r = jobs_seq db
    end.
Proof.
  intros Hu Hkeyed Hseq Hk (db3 & tid & touched & row & Hr & Hins & -> & Htid)%(sql_add_one _ k); [|done..].
  revert Hins. unfold insert_row. rewrite Htid, Hk. destruct (negb _); [done|].
  cbn [mbind option_bind]. pose proof (rf_find _ _ _ _ Hr) as Hfind.
  set (new := new_row db3 now spec tid).
  assert (key new = Some k) as Hnk by exact Hk.
  destruct (find_key db3 k) as [[i j]|] eqn:E3.
  - destruct (find_key db k) as [[i' j']|] eqn:Ef; [|done].
    destruct (job_available j') eqn:Ha; [|done]. simplify_eq.
    apply find_key_Some in Ef as [Hj Hkj].
    assert (locked_at j' = None) as Hl.
    { apply andb_true_iff in Ha as [Ha _]. by apply bool_decide_eq_true in Ha. }
    rewrite bool_decide_eq_false_2, bool_decide_eq_true_2 by set_solver.
    intros [= <- _ <-]. set (r := replace_row preserve now j' new). exists r.
    assert (id r = i') as Hid by exact (Hkeyed i' j' Hj). split_and!; try done.
    + rewrite Hid. apply lookup_insert_eq.
    + intros x y. cbn. destruct (decide (x = i')) as [->|Hne].
      * rewrite lookup_insert_eq. congruence.
      * rewrite lookup_insert_ne by done. intros Hy Hky.
        pose proof (rf_holder _ _ _ _ Hr _ _ Hy Hky). congruence.
    + intros x y Hy Hne. cbn. rewrite lookup_insert_ne by congruence. by apply (rf_other _ _ _ _ Hr).
    + intros Hp Hat. cbn. by rewrite Hp, Hat.
    + intros [Hp|Hat]; cbn; [by rewrite Hp|].
      destruct (Z.eqb_spec (attempts j') 0); [done|]. by rewrite andb_false_r.
  - intros [= <- _ <-]. exists new.
    destruct (insert_new_holder db k now db3 new Hr Hseq E3 eq_refl) as (H1 & H2 & H3 & H4).
    split_and!; try done.
    + intros x y Hy Hne. rewrite (H3 x y Hy). by apply (rf_other _ _ _ _ Hr).
    + destruct (find_key db k) as [[i j]|] eqn:Ef; [|done].
      destruct (job_available j) eqn:Ha; [done|].
      destruct (rf_retired _ _ _ _ Hr i j Ef Ha) as [Hret Hin].
      apply find_key_Some in Ef as [Hj _]. by rewrite (H3 i j Hj).
Qed.

(** ** Batches *)

(** The borrowed serialization that large untraced batches use builds the
    same specifications as the owned one: the threshold changes nothing about
    what is inserted. *)
Theorem batch_serializations_agree js default_run_at :
  build_batch_specs js default_run_at None = build_borrowed_batch_specs js default_run_at ∧
  build_borrowed_batch_specs js default_run_at =
    (λ j, spec_row None default_run_at (a_identifier j) (a_payload j) (a_spec j)) <$> js.
Proof. split; [|done]. unfold build_batch_specs. by case_match. Qed.

(** Without hooks, a batch is passed on as it is and its run times are
    preserved as soon as one job asks for it. *)
Lemma prepare_batch_jobs_none js :
  prepare_batch_jobs None js =
    Some (Ok ((λ j, mkToAdd j.1.1 j.1.2 j.2) <$> js,
              existsb (λ j, bool_decide (spec_job_key_mode j.2 = Some PreserveRunAt)) js)).
Proof.
  induction js as [|[[i p] sp] js IH]; [done|]. simpl. by rewrite IH.
Qed.

(** The batched job of a keyed spec. *)
Definition keyed_spec (k : str) (t : Z) (mode : JobKeyMode) : JobSpec :=
  mkSpec None (Some t) None (Some k) (Some mode) None None.

(** One job "a" due at 100, never attempted. *)
Definition one_keyed_db : Db :=
  mkDb {[1 := mkDbJob 1 None (Object []) 0 100 0 25 None 0 0 (Some (lit "a")) 0 None None None 1]}
    ∅ {[1 := lit "task"]} ∅ ∅ 2 1 2.

Definition run_at_of_key (k : str) (r : result (Db * list Job) GraphileWorkerError) : option Z :=
  match r with
  | Ok (db, _) => (λ ij, run_at ij.2) <$> find_key db k
  | Err _ => None
  end.

(** The mode of a batch is uniform, as [WorkerUtils::add_jobs] documents: a
    job added alone in replace mode moves to its new run time, but the same
    job batched with another one that preserves its run time keeps the old
    one. *)
Theorem mixed_batch_ignores_replace_mode :
  let a := (lit "task", Object [], keyed_spec (lit "a") 500 Replace) in
  let b := (lit "task", Object [], keyed_spec (lit "b") 500 PreserveRunAt) in
  let add js := match prepare_batch_jobs None js with
                | Some (Ok (js, preserve)) => add_jobs None 0 js ∅ preserve false 50 one_keyed_db
                | _ => Err JobScheduleSkipped
                end in
  run_at_of_key (lit "a") (add [a]) = Some 500 ∧
  run_at_of_key (lit "a") (add [a; b]) = Some 100.
Proof. vm_compute. done. Qed.

(** Batched insertion rejects every batch in which some job uses the unsafe
    dedupe mode, leaving the tables alone, and only rejects those. *)
Theorem batch_rejects_unsafe_dedupe trace local_now js td preserve local now db :
  let bad := existsb (λ j, bool_decide (spec_job_key_mode (a_spec j) = Some UnsafeDedupe)) js in
  (bad = true → ∃ m, add_jobs trace local_now js td preserve local now db = Err (JobScheduleFailed m)) ∧
  (bad = false → ∀ m, add_jobs trace local_now js td preserve local now db ≠ Err (JobScheduleFailed m)).
Proof.
  intros bad. unfold add_jobs. destruct js as [|j js]; [split; [done|by intros _ m]|].
  cbn [is_empty]. unfold validate_batch_job_key_modes. subst bad. split; intros E; rewrite E.
  - eauto.
  - intros m. destruct (sql_add_jobs _ _ _ _) as [[]|]; done.
Qed.

(** ** Witnesses *)

Definition keyed_sql_spec : SqlSpec :=
  mkSqlSpec (lit "task") None (Some (lit "q")) (Some 500) None (Some (lit "a")) None (Some [lit "x"]).

Lemma one_keyed_lookup i j : jobs one_keyed_db !! i = Some j → i = 1.
Proof. cbn. rewrite lookup_singleton_Some. naive_solver. Qed.

Lemma add_job_with_key_witness :
  ∃ db' r, sql_add_jobs [keyed_sql_spec] true 50 one_keyed_db = Ok (db', [r]) ∧
    id r = 1 ∧ run_at r = 100.
Proof.
  destruct (sql_add_jobs [keyed_sql_spec] true 50 one_keyed_db) as [[db' rows]|] eqn:E;
    [|vm_compute in E; discriminate E].
  destruct (add_job_with_key keyed_sql_spec (lit "a") true 50 one_keyed_db db' rows)
    as (r & Hrows & _ & _ & _ & _ & _ & _ & Hr).
  - intros i j i' j' k Hi Hi' _ _. apply one_keyed_lookup in Hi, Hi'. congruence.
  - apply keyed_check. vm_compute. reflexivity.
  - intros i j Hi. apply one_keyed_lookup in Hi. subst i. reflexivity.
  - reflexivity.
  - exact E.
  - exists db', r. split; [rewrite Hrows; reflexivity|].
    vm_compute in Hr. destruct Hr as (Hid & _ & Hrun & _).
    split; [exact Hid|]. apply Hrun; reflexivity.
Defined.

End AddJob.
