(* ===== verification/Tracing.v ===== *)
(** * Trace propagation (crates/graphile-worker-queries/src/telemetry.rs,
    src/tracing.rs)

    A job remembers the span that added it: its context is written into the
    payload under [_trace], and the runner links the span of the execution to it.
    The current span and the text of identifiers are OpenTelemetry's. *)

From S2P Require Import Prelude Text Job JobStore JobRelease Hooks AddJob.
Open Scope Z_scope.

Module Tracing.
Import Job AddJob.

Record SpanContext := mkSpanContext { trace_id : Z; span_id : Z; trace_flags : Z; is_remote : bool }.

(** [TraceInfo], the same in both crates. *)
Record TraceInfo := mkTraceInfo { ti_flags : Z; ti_trace_id : str; ti_span_id : str }.

(** serde's JSON of it, and back: an object may have further fields, an array
    has exactly the three. *)
Definition trace_json (t : TraceInfo) : Value :=
  Object [(lit "flags", VNumber (dec (ti_flags t))); (lit "trace_id", VString (ti_trace_id t));
          (lit "span_id", VString (ti_span_id t))].
(** [Map::get]. *)
Definition fields_get (k : str) (fs : list (str * Value)) : option Value :=
  (λ r, r.2.2) <$> list_find (λ f : str * Value, f.1 = k) fs.
Definition as_u8 (v : Value) : option Z := match v with VNumber repr => ok (Text.parse_uint 255 repr) | _ => None end.
Definition as_string (v : Value) : option str := match v with VString s => Some s | _ => None end.
Definition trace_info_of (flags trace span : Value) : option TraceInfo :=
  f ← as_u8 flags; t ← as_string trace; s ← as_string span; Some (mkTraceInfo f t s).
Definition trace_info_from_value (v : Value) : option TraceInfo :=
  match v with
  | Object fs =>
      flags ← fields_get (lit "flags") fs; trace ← fields_get (lit "trace_id") fs; span ← fields_get (lit "span_id") fs;
      trace_info_of flags trace span
  | Array [flags; trace; span] => trace_info_of flags trace span
  | _ => None
  end.

(** The identifiers of OpenTelemetry: their text in hexadecimal and its
    reading, which give the identifier back. *)
Class OpenTelemetry := {
  trace_id_to_string : Z → str;
  trace_id_from_hex : str → option Z;
  span_id_to_string : Z → str;
  span_id_from_hex : str → option Z;
  trace_id_law : ∀ i, 0 ≤ i < 2 ^ 128 → trace_id_from_hex (trace_id_to_string i) = Some i;
  span_id_law : ∀ i, 0 ≤ i < 2 ^ 64 → span_id_from_hex (span_id_to_string i) = Some i
}.

(** [SpanContext::is_valid]. *)
Definition is_valid (c : SpanContext) : bool := negb (trace_id c =? 0) && negb (span_id c =? 0).

Section tracing.
Context `{OpenTelemetry}.

(** [current_trace_info], of the context of the current span; [enabled] when one
    of the features is. *)
Definition current_trace_info (enabled : bool) (c : SpanContext) : option TraceInfo :=
  if enabled && is_valid c
  then Some (mkTraceInfo (trace_flags c) (trace_id_to_string (trace_id c)) (span_id_to_string (span_id c)))
  else None.

(** [link_to_job_create_span]: the context a link is added to. *)
Definition link_to_job_create_span (enabled : bool) (payload : Value) : option SpanContext :=
  if negb enabled then None
  else match payload with
       | Object obj =>
           trace_value ← fields_get (lit "_trace") obj;
           info ← trace_info_from_value trace_value;
           match trace_id_from_hex (ti_trace_id info), span_id_from_hex (ti_span_id info) with
           | Some t, Some s => Some (mkSpanContext t s (ti_flags info) true)
           | _, _ => None
           end
       | _ => None
       end.

(** ** Facts *)

Lemma fields_get_insert k v fs k' :
  fields_get k' (fields_insert k v fs) = if decide (k' = k) then Some v else fields_get k' fs.
Proof.
  assert (∀ f fs, fields_get k' (f :: fs) = if decide (f.1 = k') then Some f.2 else fields_get k' fs) as Hcons.
  { intros f l. unfold fields_get. cbn. destruct (decide (f.1 = k')); [done|]. by destruct (list_find _ l) as [[? ?]|]. }
  induction fs as [|[a b] fs IH]; cbn [fields_insert].
  - rewrite Hcons. cbn. destruct (decide (k = k')), (decide (k' = k)); congruence || done.
  - destruct (bool_decide_reflect (k = a)) as [->|Hk]; rewrite !Hcons; cbn.
    + destruct (decide (a = k')), (decide (k' = a)); congruence || done.
    + rewrite IH. destruct (decide (a = k')), (decide (k' = k)); congruence || done.
Qed.

Lemma trace_info_roundtrip t : 0 ≤ ti_flags t ≤ 255 → trace_info_from_value (trace_json t) = Some t.
Proof.
  intros Hf. destruct t as [f t s]. cbn [ti_flags] in Hf.
  assert (as_u8 (VNumber (dec f)) = Some f) as E.
  { unfold as_u8. destruct (Text.dec_spec f) as (Hd & Hv & Hne); [unfold is_u32, U32_MAX; lia|].
    rewrite Text.parse_uint_digits; [exact (f_equal Some Hv)|done|done|rewrite Hv; lia]. }
  change (trace_info_from_value _) with (trace_info_of (VNumber (dec f)) (VString t) (VString s)).
  unfold trace_info_of. by rewrite E.
Qed.

(** A job is linked to the span that added it.  With tracing enabled, what
    adding a job under a valid span stores as the payload of an object gives
    the runner the context of exactly that span, as a remote one; the other
    fields of the payload are as they were, also when it had a trace before;
    and without tracing, without a valid span, or for a payload that is no
    object or array the payload is stored unchanged. *)
Theorem jobs_link_to_their_creator (c : SpanContext) default_run_at identifier payload spec :
  0 ≤ trace_id c < 2 ^ 128 → 0 ≤ span_id c < 2 ^ 64 → 0 ≤ trace_flags c ≤ 255 →
  let stored enabled :=
    s_payload (spec_row (trace_json <$> current_trace_info enabled c) default_run_at identifier payload spec) in
  stored false = Some payload ∧
  (is_valid c = false → stored true = Some payload) ∧
  (∀ fs, payload = Object fs → is_valid c = true → ∃ fs', stored true = Some (Object fs') ∧
     link_to_job_create_span true (Object fs') = Some (mkSpanContext (trace_id c) (span_id c) (trace_flags c) true) ∧
     ∀ k, k ≠ lit "_trace" → fields_get k fs' = fields_get k fs) ∧
  (as_array payload = None → (∀ fs, payload ≠ Object fs) → stored true = Some payload).
Proof.
  intros Ht Hs Hf stored. subst stored. unfold current_trace_info. cbn [andb spec_row s_payload]. split_and!; [done| | |].
  - intros ->. done.
  - intros fs -> ->. cbn [fmap option_fmap option_map prepare_payload add_tracing_info_with_trace].
    eexists. split; [done|]. split.
    + unfold link_to_job_create_span. cbn [negb]. rewrite fields_get_insert, decide_True by done. cbn [mbind option_bind].
      rewrite trace_info_roundtrip by done. cbn. by rewrite trace_id_law, span_id_law.
    + intros k Hk. by rewrite fields_get_insert, decide_False.
  - intros Ha Ho. destruct (is_valid c); [|done]. destruct payload; try done. by destruct (Ho fields).
Qed.

(** The items of a batch carry the trace, and the runner links none: it looks
    for it in an object. *)
Lemma batch_payloads_are_not_linked enabled items : link_to_job_create_span enabled (Array items) = None.
Proof. by destruct enabled. Qed.
End tracing.

(** Identifiers in unary. *)
Lemma unary_law n i : 0 ≤ i < n → Some (Z.of_nat (length (repeat 49 (Z.to_nat i)))) = Some i.
Proof. intros Hi. rewrite repeat_length. f_equal. lia. Qed.
#[export] Instance unary_ids : OpenTelemetry := {|
  trace_id_to_string i := repeat 49 (Z.to_nat i);
  trace_id_from_hex s := Some (Z.of_nat (length s));
  span_id_to_string i := repeat 49 (Z.to_nat i);
  span_id_from_hex s := Some (Z.of_nat (length s));
  trace_id_law := unary_law (2 ^ 128);
  span_id_law := unary_law (2 ^ 64)
|}.

Lemma jobs_link_to_their_creator_witness :
  ∃ fs', link_to_job_create_span true (Object fs') = Some (mkSpanContext 7 3 1 true) ∧
    fields_get (lit "to") fs' = Some (VString (lit "x")).
Proof.
  destruct (jobs_link_to_their_creator (mkSpanContext 7 3 1 false) None (lit "task")
    (Object [(lit "to", VString (lit "x")); (lit "_trace", Null)]) (mkSpec None None None None None None None))
    as (_ & _ & Ho & _); [cbn; lia..|].
  destruct (Ho _ eq_refl eq_refl) as (fs' & _ & Hl & Hk). exists fs'. split; [exact Hl|]. rewrite Hk by done. reflexivity.
Defined.
End Tracing.
