(* ===== verification/Recovery.v ===== *)
(** * Dead worker recovery (crates/graphile-worker-recovery)

    The sweep that finds workers that stopped checking in and gives their jobs
    back, with or without lifecycle hooks deciding about each job.  The sweep
    is one transaction: [now] is its timestamp, [clock] the process clock in
    nanoseconds that the resilient threshold is compared with.  A failing
    statement rolls the transaction back and is not modelled. *)

From S2P Require Import Prelude Job Database FlagFilter JobStore JobRelease Hooks.
Open Scope Z_scope.

Module Recovery.
Import Job FlagFilter JobStore JobRelease Hooks.

(** ** config.rs, types.rs *)

Record WorkerRecoveryConfig := mkRecoveryConfig {
  heartbeat_interval : Z;
  sweep_interval : Z;
  default_sweep_threshold : Z;
  default_recovery_delay : Z;
  default_multiplier : Z;
  default_resilient_flags : list str;
  enabled : bool
}.

Definition seconds (n : Z) : Z := n * 10 ^ 9.

Definition INFRASTRUCTURE_RESILIENT_FLAG : str := lit "infrastructure_resilient".

Definition default_config : WorkerRecoveryConfig :=
  mkRecoveryConfig (seconds 30) (seconds 60) (seconds (5 * 60)) (seconds 30) 3
    [INFRASTRUCTURE_RESILIENT_FLAG] false.

Record SweepStaleWorkersOptions := mkSweepOptions {
  opt_sweep_threshold : option Z;
  opt_recovery_delay : option Z;
  opt_dry_run : bool
}.

Record ResolvedSweepConfig := mkResolved {
  sweep_threshold : Z;
  recovery_delay : Z;
  resilient_sweep_threshold_multiplier : Z;
  resilient_job_flags : list str;
  dry_run : bool
}.

Definition resolve (o : SweepStaleWorkersOptions) (defaults : WorkerRecoveryConfig) :
    ResolvedSweepConfig :=
  mkResolved (default (default_sweep_threshold defaults) (opt_sweep_threshold o))
    (default (default_recovery_delay defaults) (opt_recovery_delay o))
    (default_multiplier defaults) (default_resilient_flags defaults) (opt_dry_run o).

(** The product of a [Duration] and a [u32], which panics above the largest
    duration; [effective_threshold_fits] shows that it takes thresholds of more
    than a century to get there, and the panic is not modelled. *)
Definition effective_sweep_threshold (c : ResolvedSweepConfig) (has_resilient_lock : bool) : Z :=
  if has_resilient_lock then sweep_threshold c * resilient_sweep_threshold_multiplier c
  else sweep_threshold c.

(** The largest [Duration], in nanoseconds. *)
Definition DURATION_MAX : Z := 2 ^ 64 * 10 ^ 9 - 1.

Definition job_has_resilient_flag (job : Job) (c : WorkerRecoveryConfig) : bool :=
  match flags job with
  | None => false
  | Some fl =>
      existsb (λ flag, default false (get_field fl flag ≫= as_bool)) (default_resilient_flags c)
  end.

Inductive JobRecoveryOutcome := Recovered | FailedWithBackoff | Skipped.

Definition was_handled (o : JobRecoveryOutcome) : bool :=
  match o with Skipped => false | _ => true end.

(** context/job.rs and its [Debug] text. *)
Inductive FailureReason := TaskError | TaskPanic | ShutdownAborted | WorkerCrashed.

Definition reason_text (r : FailureReason) : str :=
  match r with
  | TaskError => lit "TaskError"
  | TaskPanic => lit "TaskPanic"
  | ShutdownAborted => lit "ShutdownAborted"
  | WorkerCrashed => lit "WorkerCrashed"
  end.

(** ** sweep/discovery.rs *)

Definition should_recover_worker (w : str) (c : ResolvedSweepConfig) (clock : Z) (db : Db) : bool :=
  if negb (worker_holds_resilient_locks w (resilient_job_flags c) db) then true
  else
    match get_worker_last_heartbeat w db with
    | None => true
    | Some last_heartbeat =>
        effective_sweep_threshold c true <=? Z.max 0 (clock - last_heartbeat * 1000)
    end.

(** The second loop: each orphan not found yet is appended. *)
Definition add_orphan (dead : list str) (w : str) : list str :=
  if existsb (λ i, bool_decide (i = w)) dead then dead else dead ++ [w].

Definition find_dead_worker_ids (c : ResolvedSweepConfig) (now clock : Z) (db : Db) : list str :=
  let stale := list_stale_workers (sweep_threshold c) now db in
  foldl add_orphan (filter (λ w, should_recover_worker w c clock db = true) stale)
    (list_orphan_locked_workers (sweep_threshold c) now db).

(** ** job_recovery.rs *)

Definition RECOVERY_LAST_ERROR : str := lit "Job recovered after worker interruption".

Definition set_schedule (run_at_ : Z) (attempts_ : option Z) (now : Z) (j : DbJob) : DbJob :=
  mkDbJob (id j) (job_queue_id j) (payload j) (priority j) run_at_
    (default (attempts j) attempts_) (max_attempts j) (last_error j) (created_at j) now (key j)
    (revision j) (locked_at j) (locked_by j) (flags j) (task_id j).

Definition set_recovered_job_schedule (job_id run_at_ : Z) (attempts_ : option Z) (now : Z) (db : Db) : Db :=
  with_jobs db (update_where (λ i _, bool_decide (i = job_id)) (set_schedule run_at_ attempts_ now) (jobs db)).

Section recovery.
Context (exp_secs : Z → Z).

(** [action] is the answer of the recovery interceptor, the default one when
    there are no hooks. *)
Definition apply_job_recovery (action : JobRecoveryResult) (job : Job) (previous_worker_id : str)
    (reason : FailureReason) (delay now : Z) (db : Db) : Db * JobRecoveryOutcome :=
  match action with
  | RecoveryDefault =>
      (return_job_for_recovery job previous_worker_id (Some delay) (Some RECOVERY_LAST_ERROR) now db,
       Recovered)
  | Reschedule run_at_ attempts_ =>
      (set_recovered_job_schedule (id job) run_at_ attempts_ now
         (return_job_for_recovery job previous_worker_id None (Some RECOVERY_LAST_ERROR) now db),
       Recovered)
  | FailWithBackoff =>
      (fail_job exp_secs now job previous_worker_id (reason_text reason) None db, FailedWithBackoff)
  | RecoverySkip => (db, Skipped)
  end.

(** ** sweep/jobs.rs *)

(** The loop over the locked jobs with hooks: the tables, the count and the
    jobs a [JobInterruptedContext] is emitted for. *)
Definition recover_one (hook : Job → JobRecoveryResult) (delay now : Z)
    (acc : Db * Z * list Job) (job : Job) : Db * Z * list Job :=
  let '(db, n, emitted) := acc in
  match locked_by job with
  | None => acc
  | Some previous =>
      let '(db', outcome) := apply_job_recovery (hook job) job previous WorkerCrashed delay now db in
      if was_handled outcome then (db', n + 1, emitted ++ [job]) else (db', n, emitted)
  end.

(** [hook] is [None] without registered hooks. *)
Definition recover_jobs_from_workers (hook : option (Job → JobRecoveryResult)) (ws : list str)
    (delay now : Z) (db : Db) : Db * Z * list Job :=
  if is_empty ws then (db, 0, [])
  else
    match hook with
    | None => let '(db', n) := recover_dead_worker_jobs ws delay now db in (db', n, [])
    | Some h => foldl (recover_one h delay now) (db, 0, []) (get_locked_jobs_for_recovery ws db)
    end.

(** ** sweep/mod.rs *)

Record SweepStaleWorkersResult := mkSweep { worker_ids : list str; recovered_count : Z }.

(** [acquired] is the answer of [try_acquire_sweep_lock]. *)
Definition sweep_stale_workers (acquired : bool) (hook : option (Job → JobRecoveryResult))
    (defaults : WorkerRecoveryConfig) (options : SweepStaleWorkersOptions) (now clock : Z) (db : Db) :
    Db * SweepStaleWorkersResult :=
  let c := resolve options defaults in
  if negb acquired then (db, mkSweep [] 0)
  else
    let dead := find_dead_worker_ids c now clock db in
    if dry_run c then (db, mkSweep dead 0)
    else
      let '(db1, n, _) := recover_jobs_from_workers hook dead (recovery_delay c) now db in
      (delete_stale_workers dead db1, mkSweep dead n).
End recovery.

(** ** Who is found dead *)

(** With a sweep threshold below 2^32 seconds, some 136 years, the product with
    any [u32] is a [Duration]. *)
Lemma effective_threshold_fits c b :
  0 ≤ sweep_threshold c < seconds (2 ^ 32) → 0 ≤ resilient_sweep_threshold_multiplier c < 2 ^ 32 →
  0 ≤ effective_sweep_threshold c b ≤ DURATION_MAX.
Proof.
  intros Ht Hm. unfold effective_sweep_threshold, DURATION_MAX, seconds in *.
  change (2 ^ 32) with 4294967296 in *. change (2 ^ 64) with (4294967296 * 4294967296).
  change (10 ^ 9) with 1000000000 in *. destruct b; nia.
Qed.

Lemma elem_of_add_orphans w orphans dead :
  w ∈ foldl add_orphan dead orphans ↔ w ∈ dead ∨ w ∈ orphans.
Proof.
  revert dead. induction orphans as [|o orphans IH]; intros dead; cbn [foldl]; [set_solver|].
  rewrite IH. unfold add_orphan. destruct (existsb _ dead) eqn:E; [|set_solver].
  apply existsb_exists in E as (x & Hx%list_elem_of_In & ->%bool_decide_eq_true). set_solver.
Qed.

Lemma add_orphans_NoDup orphans dead : NoDup dead → NoDup (foldl add_orphan dead orphans).
Proof.
  revert dead. induction orphans as [|o orphans IH]; intros dead Hn; cbn [foldl]; [done|].
  apply IH. unfold add_orphan. destruct (existsb _ dead) eqn:E; [done|].
  apply NoDup_app. split_and!; [done| |apply NoDup_singleton].
  intros x Hx ->%list_elem_of_singleton. apply not_true_iff_false in E. apply E, existsb_exists.
  exists o. split; [by apply list_elem_of_In|by apply bool_decide_eq_true_2].
Qed.

(** A worker is dead when its last check-in is older than the threshold, and
    than the extended one while it holds resilient jobs, or when it is not
    registered and holds a lock older than the threshold. *)
Definition dead_worker (c : ResolvedSweepConfig) (now clock : Z) (db : Db) (w : str) : Prop :=
  let limit := now - millis (duration_as_millis_i64 (sweep_threshold c)) in
  (∃ r, workers db !! w = Some r ∧ last_heartbeat_at r < limit ∧
     (worker_holds_resilient_locks w (resilient_job_flags c) db = true →
      effective_sweep_threshold c true ≤ Z.max 0 (clock - last_heartbeat_at r * 1000))) ∨
  (workers db !! w = None ∧ ∃ t, (w, t) ∈ lock_owners db ∧ t < limit).

Lemma find_dead_spec c now clock db w :
  w ∈ find_dead_worker_ids c now clock db ↔ dead_worker c now clock db w.
Proof.
  unfold find_dead_worker_ids. rewrite elem_of_add_orphans, list_elem_of_filter.
  unfold dead_worker, list_stale_workers, list_orphan_locked_workers, should_recover_worker, get_worker_last_heartbeat.
  rewrite elem_of_remove_dups, list_elem_of_filter, !list_elem_of_fmap. f_equiv.
  - split.
    + intros (Hs & [w' r] & -> & [Hl Hin]%list_elem_of_filter). cbn in *.
      rewrite elem_of_map_to_list in Hin. exists r. split_and!; [done..|]. intros Hres.
      rewrite Hres, Hin in Hs. cbn in Hs. by apply Z.leb_le in Hs.
    + intros (r & Hr & Hl & Hres). split.
      * rewrite Hr. destruct (worker_holds_resilient_locks _ _ _); cbn; [|done]. apply Z.leb_le. auto.
      * exists (w, r). split; [done|]. apply list_elem_of_filter. by rewrite elem_of_map_to_list.
  - split.
    + intros (Hn & [w' t] & -> & [Ht Hin]%list_elem_of_filter). eauto.
    + intros (Hn & t & Hin & Ht). split; [done|]. exists (w, t). split; [done|]. by apply list_elem_of_filter.
Qed.

Lemma find_dead_NoDup c now clock db : NoDup (find_dead_worker_ids c now clock db).
Proof.
  apply add_orphans_NoDup, NoDup_filter. unfold list_stale_workers.
  apply NoDup_fmap_fst; [|by apply NoDup_filter, NoDup_map_to_list].
  intros w a b [_ Ha]%list_elem_of_filter [_ Hb]%list_elem_of_filter.
  rewrite elem_of_map_to_list in Ha, Hb. congruence.
Qed.

(** ** What a sweep touches *)

Lemma elem_of_locked_jobs ws db (job : Job) :
  keyed db → job ∈ get_locked_jobs_for_recovery ws db →
  jobs db !! id job = Some (job_row job) ∧ locked_by_any ws (locked_by job) = true.
Proof.
  intros Hk. unfold get_locked_jobs_for_recovery. destruct (is_empty ws); [set_solver|].
  rewrite elem_of_filter_map. intros (j & Hj & E). rewrite merge_sort_Permutation in Hj.
  apply elem_of_rows_where in Hj as (i & Hi & Hl). destruct (tasks db !! task_id j); [|done].
  injection E as <-. cbn. by rewrite (Hk i j Hi).
Qed.

(** Everything not held by the given workers is as before. *)
Definition spared (ws : list str) (db db' : Db) : Prop :=
  (∀ i j, jobs db !! i = Some j → locked_by_any ws (locked_by j) = false → jobs db' !! i = Some j) ∧
  (∀ q r, job_queues db !! q = Some r → locked_by_any ws (queue_locked_by r) = false →
     job_queues db' !! q = Some r) ∧
  workers db' = workers db.

Lemma spared_jobs ws db db1 (i : Z) d p f :
  spared ws db db1 → jobs db !! i = Some d → locked_by_any ws (locked_by d) = true →
  (∀ k j, p k j = true → k = i) →
  spared ws db (with_jobs db1 (update_where p f (jobs db1))).
Proof.
  intros (Hj & Hq & Hw) Hd Hl Hp. split_and!; [|done..]. intros k j Hk Hno. cbn.
  rewrite lookup_update_where, (Hj k j Hk Hno). cbn. destruct (p k j) eqn:E; [|done].
  apply Hp in E as ->. congruence.
Qed.

Lemma spared_queues ws db db1 w js :
  spared ws db db1 → w ∈ ws → spared ws db (with_queues db1 (release_queues w js (job_queues db1))).
Proof.
  intros (Hj & Hq & Hw) Hin. split_and!; [done| |done]. intros q r Hr Hno. cbn.
  rewrite release_queues_lookup, (Hq q r Hr Hno). cbn.
  rewrite (bool_decide_eq_false_2 (queue_locked_by r = Some w)), andb_false_r; [done|].
  intros E. rewrite E in Hno. cbn in Hno. by apply bool_decide_eq_false in Hno.
Qed.

Lemma spared_private_return ws db db1 (job : Job) w ms e now :
  spared ws db db1 → jobs db !! id job = Some (job_row job) → locked_by job = Some w → w ∈ ws →
  spared ws db (private_return_jobs w [id job] ms e true now db1).
Proof.
  intros Hs Hj Hl Hw. unfold private_return_jobs. apply (spared_queues ws db (with_jobs db1 _)); [|done].
  eapply spared_jobs; [done..| |].
  - rewrite Hl. by apply bool_decide_eq_true_2.
  - intros k j [Hk%bool_decide_eq_true _]%andb_true_iff. by apply list_elem_of_singleton in Hk.
Qed.

Lemma spared_recovery exp_secs ws db db1 action (job : Job) w reason delay now :
  spared ws db db1 → jobs db !! id job = Some (job_row job) → locked_by job = Some w → w ∈ ws →
  spared ws db (apply_job_recovery exp_secs action job w reason delay now db1).1.
Proof.
  intros Hs Hj Hl Hw. assert (locked_by_any ws (locked_by job) = true) as Hd
    by (rewrite Hl; by apply bool_decide_eq_true_2).
  destruct action; cbn [apply_job_recovery fst]; [| | |done].
  - unfold return_job_for_recovery. by apply (spared_private_return ws db db1 job w).
  - unfold set_recovered_job_schedule, return_job_for_recovery.
    apply (spared_jobs ws db _ (id job) (job_row job)); [|exact Hj|exact Hd|].
    + by apply (spared_private_return ws db db1 job w).
    + intros k j. apply bool_decide_eq_true.
  - unfold fail_job, fail_one.
    assert (spared ws db (with_jobs db1 (update_where (λ i j, bool_decide (i = id job) && owned_by w j)
      (mark_failed exp_secs now (reason_text reason) None) (jobs db1)))) as H1.
    { eapply spared_jobs; [done..|]. intros k j [?%bool_decide_eq_true _]%andb_true_iff. done. }
    destruct (has_queue job); [|done]. by apply (spared_queues ws db (with_jobs db1 _)).
Qed.

Lemma spared_loop exp_secs h ws delay now l db acc :
  (∀ job : Job, job ∈ l → jobs db !! id job = Some (job_row job) ∧ locked_by_any ws (locked_by job) = true) →
  spared ws db acc.1.1 →
  spared ws db (foldl (recover_one exp_secs h delay now) acc l).1.1.
Proof.
  revert acc. induction l as [|job l IH]; intros [[db1 n] em] Hl Hs; cbn [foldl]; [done|].
  apply IH; [intros; apply Hl; by right|]. destruct (Hl job) as [Hj Hd]; [left|].
  unfold recover_one. destruct (locked_by job) as [w|] eqn:Hw; [|done].
  pose proof (spared_recovery exp_secs ws db db1 (h job) job w WorkerCrashed delay now Hs Hj Hw) as H.
  destruct (apply_job_recovery _ _ _ _ _ _ _ _) as [db2 o]. cbn [locked_by_any] in Hd.
  apply bool_decide_eq_true in Hd. by destruct (was_handled o); apply H.
Qed.

Lemma spared_recover exp_secs hook ws delay now db :
  keyed db → spared ws db (recover_jobs_from_workers exp_secs hook ws delay now db).1.1.
Proof.
  intros Hk. assert (spared ws db db) as Hrefl by done.
  unfold recover_jobs_from_workers. destruct (is_empty ws) eqn:Hemp; [done|]. destruct hook as [h|].
  - apply spared_loop; [|done]. intros job. by apply elem_of_locked_jobs.
  - unfold recover_dead_worker_jobs. rewrite Hemp. cbn [fst]. split_and!; [| |done].
    + intros i j Hj Hl. cbn. by rewrite lookup_update_where, Hj; cbn; rewrite Hl.
    + intros q r Hr Hl. cbn. by rewrite lookup_update_where, Hr; cbn; rewrite Hl.
Qed.

(** C32: A sweep touches exactly the dead.  The workers it reports are distinct
    and are precisely the registered ones whose check-in is overdue (by the
    extended threshold while they hold resilient jobs) and the unregistered
    ones holding locks older than the threshold; whatever the hooks answer,
    every job and queue not held by them and every other registration is left
    as it was; and the dead ones are deregistered unless it is a dry run or
    another sweep holds the lock, when nothing changes at all. *)
Theorem sweep_touches_only_the_dead exp_secs acquired hook defaults options now clock db :
  keyed db →
  let c := resolve options defaults in
  let '(db', r) := sweep_stale_workers exp_secs acquired hook defaults options now clock db in
  NoDup (worker_ids r) ∧
  (∀ w, w ∈ worker_ids r ↔ acquired = true ∧ dead_worker c now clock db w) ∧
  (∀ i j, jobs db !! i = Some j → (∀ w, locked_by j = Some w → ¬ dead_worker c now clock db w) →
     jobs db' !! i = Some j) ∧
  (∀ q x, job_queues db !! q = Some x → (∀ w, queue_locked_by x = Some w → ¬ dead_worker c now clock db w) →
     job_queues db' !! q = Some x) ∧
  (∀ w, workers db' !! w =
     if bool_decide (w ∈ worker_ids r ∧ dry_run c = false) then None else workers db !! w) ∧
  (acquired = false ∨ dry_run c = true → db' = db).
Proof.
  intros Hk c. unfold sweep_stale_workers. fold c. destruct acquired; cbn [negb].
  2:{ split_and!; [apply NoDup_nil_2| |done..| |done].
      - intros w. cbn. split; [by intros ?%not_elem_of_nil|by intros [? _]].
      - intros w. rewrite bool_decide_eq_false_2; [done|]. by intros [?%not_elem_of_nil _]. }
  set (dead := find_dead_worker_ids c now clock db).
  assert (∀ w, w ∈ dead ↔ dead_worker c now clock db w) as Hdead by (intros; apply find_dead_spec).
  pose proof (find_dead_NoDup c now clock db) as Hn. fold dead in Hn.
  assert (∀ by_ : option str, (∀ w, by_ = Some w → ¬ dead_worker c now clock db w) →
    locked_by_any dead by_ = false) as Hfree.
  { intros [w|] H; [|done]. apply bool_decide_eq_false_2. rewrite Hdead. by apply H. }
  destruct (dry_run c).
  { cbn [worker_ids]. split_and!; [done| |done..| |done].
    - intros w. rewrite Hdead. tauto.
    - intros w. rewrite bool_decide_eq_false_2; [done|]. by intros [_ ?]. }
  pose proof (spared_recover exp_secs hook dead (recovery_delay c) now db Hk) as (Hj & Hq & Hw).
  destruct (recover_jobs_from_workers _ _ _ _ _ _) as [[db1 n] em]. cbn [fst worker_ids] in *.
  assert (jobs (delete_stale_workers dead db1) = jobs db1 ∧
    job_queues (delete_stale_workers dead db1) = job_queues db1 ∧
    ∀ w, workers (delete_stale_workers dead db1) !! w = if bool_decide (w ∈ dead) then None else workers db1 !! w)
    as (-> & -> & Hws).
  { unfold delete_stale_workers. destruct dead as [|d ds]; cbn [is_empty].
    - split_and!; [done..|]. intros w. by rewrite bool_decide_eq_false_2 by set_solver.
    - split_and!; [done..|]. intros w. cbn [workers with_workers]. apply option_eq. intros x.
      rewrite map_lookup_filter_Some. case_bool_decide as Hin; cbn [fst]; naive_solver. }
  split_and!; [done| | | | |by intros [?|?]].
  - intros w. rewrite Hdead. tauto.
  - intros i j Hij H. apply (Hj i j Hij). by apply Hfree.
  - intros q x Hqx H. apply (Hq q x Hqx). by apply Hfree.
  - intros w. cbn [dry_run]. rewrite Hws, Hw. by rewrite (bool_decide_ext (w ∈ dead ∧ false = false) (w ∈ dead)) by tauto.
Qed.

(** ** Hooks that leave the decision to the sweep *)

(** The tables after the loop has recovered the given jobs. *)
Definition recovered_so_far (l : list Job) (delay now : Z) (db : Db) : Db :=
  with_queues
    (with_jobs db (update_where (λ i _, bool_decide (i ∈ (λ j : Job, id j) <$> l))
       (mark_recovered (retirements db) now (millis (duration_as_millis_i64 delay))) (jobs db)))
    (update_where (λ q r, existsb (λ job : Job, bool_decide (job_queue_id job = Some q)
                                  && bool_decide (queue_locked_by r = locked_by job)) l)
       unlock_queue (job_queues db)).

Lemma default_recovery_step exp_secs l (job : Job) w delay now db :
  keyed db → jobs db !! id job = Some (job_row job) → locked_by job = Some w →
  id job ∉ (λ j : Job, id j) <$> l →
  (apply_job_recovery exp_secs RecoveryDefault job w WorkerCrashed delay now
     (recovered_so_far l delay now db)).1
  = recovered_so_far (l ++ [job]) delay now db.
Proof.
  intros Hk Hj Hw Hnot. cbn [apply_job_recovery fst]. unfold return_job_for_recovery, private_return_jobs.
  assert (jobs (recovered_so_far l delay now db) !! id job = Some (job_row job)) as Hrow.
  { cbn. rewrite lookup_update_where, Hj. cbn. by rewrite bool_decide_eq_false_2. }
  apply db_eq; try done.
  - apply map_eq. intros i. cbn [jobs with_queues with_jobs recovered_so_far].
    rewrite !lookup_update_where. destruct (jobs db !! i) as [r|] eqn:Hr; [|done]. cbn [fmap option_fmap option_map].
    rewrite fmap_app. destruct (decide (i = id job)) as [-> |Hne].
    + rewrite (bool_decide_eq_false_2 _ Hnot). rewrite Hj in Hr. injection Hr as <-. unfold owned_by.
      rewrite !bool_decide_eq_true_2; [done|apply elem_of_app; right; left|done|left].
    + rewrite (bool_decide_eq_false_2 (i ∈ [id job])) by (by intros ?%list_elem_of_singleton). cbn [andb].
      rewrite (bool_decide_ext (i ∈ _ ++ _) (i ∈ (λ j : Job, id j) <$> l)); [done|].
      rewrite elem_of_app. cbn. rewrite list_elem_of_singleton. tauto.
  - apply map_eq. intros q. cbn [job_queues with_queues with_jobs recovered_so_far].
    rewrite release_queues_lookup, !lookup_update_where.
    destruct (job_queues db !! q) as [r|] eqn:Hr; [|done]. cbn [fmap option_fmap option_map]. f_equal.
    rewrite existsb_snoc, Hw.
    assert (bool_decide (Some q ∈ job_queue_id <$> rows_where
      (λ i j, bool_decide (i ∈ [id job]) && owned_by w j) (jobs (recovered_so_far l delay now db)))
      = bool_decide (job_queue_id job = Some q)) as ->.
    { apply bool_decide_ext. rewrite elem_of_row_queues. split.
      - intros (k & j & Hkj & [->%bool_decide_eq_true%list_elem_of_singleton _]%andb_true_iff & Hq). congruence.
      - intros Hq. exists (id job), (job_row job). split_and!; [done| |done]. unfold owned_by.
        rewrite !bool_decide_eq_true_2; [done..|left]. }
    destruct (existsb _ l) eqn:El; cbn [orb]; [|done].
    rewrite (bool_decide_eq_false_2 (queue_locked_by (unlock_queue r) = Some w)) by done.
    by rewrite andb_false_r.
Qed.

Lemma default_recovery_loop exp_secs l delay now db :
  keyed db → NoDup ((λ j : Job, id j) <$> l) →
  (∀ job : Job, job ∈ l → jobs db !! id job = Some (job_row job) ∧ is_Some (locked_by job)) →
  foldl (recover_one exp_secs (λ _, RecoveryDefault) delay now) (db, 0, []) l
  = (recovered_so_far l delay now db, Z.of_nat (length l), l).
Proof.
  intros Hk. induction l as [|job l IH] using rev_ind; intros Hn Hl.
  - cbn. repeat f_equal. apply db_eq; try done; cbn; symmetry; by apply update_where_id.
  - rewrite fmap_app in Hn. apply NoDup_app in Hn as (Hn & Hnot & _).
    rewrite foldl_snoc, IH; [|done|intros; apply Hl, elem_of_app; by left].
    destruct (Hl job) as [Hj [w Hw]]; [apply elem_of_app; right; left|].
    unfold recover_one at 1. rewrite Hw.
    pose proof (default_recovery_step exp_secs l job w delay now db Hk Hj Hw) as Hstep.
    cbn [apply_job_recovery was_handled fst] in Hstep |- *. rewrite Hstep.
    + rewrite length_app. cbn [length]. by replace (Z.of_nat (length l) + 1) with (Z.of_nat (length l + 1)) by lia.
    + intros Hin. apply (Hnot _ Hin). left.
Qed.

(** Every job has its task (the foreign key). *)
Definition tasks_known (db : Db) : Prop := map_Forall (λ _ j, is_Some (tasks db !! task_id j)) (jobs db).

(** A queue that one of the workers locked is locked for a job it holds. *)
Definition queue_locks_used (ws : list str) (db : Db) : Prop :=
  map_Forall (λ q r, locked_by_any ws (queue_locked_by r) = true →
    Exists (λ j, locked_by j = queue_locked_by r ∧ job_queue_id j = Some q) (map_to_list (jobs db)).*2)
    (job_queues db).

#[export] Instance tasks_known_dec db : Decision (tasks_known db).
Proof. unfold tasks_known. apply _. Defined.

#[export] Instance queue_locks_used_dec ws db : Decision (queue_locks_used ws db).
Proof. unfold queue_locks_used. apply _. Defined.

Lemma filter_map_rows (f : DbJob → option str) l :
  (∀ j, j ∈ l → is_Some (f j)) →
  job_row <$> filter_map (λ j, from_db_job j <$> f j) l = l.
Proof.
  induction l as [|j l IH]; intros H; [done|]. cbn.
  destruct (H j) as [n ->]; [left|]. cbn. rewrite IH; [done|]. intros k Hk. apply H. by right.
Qed.

Lemma rows_where_NoDup p db : keyed db → NoDup ((λ j : DbJob, id j) <$> rows_where p (jobs db)).
Proof.
  intros Hk. unfold rows_where. rewrite <- list_fmap_compose.
  erewrite list_fmap_ext; [apply (NoDup_fmap_fst (filter _ (map_to_list (jobs db))))|].
  - intros i a b [_ Ha]%list_elem_of_filter [_ Hb]%list_elem_of_filter.
    rewrite elem_of_map_to_list in Ha, Hb. congruence.
  - apply NoDup_filter, NoDup_map_to_list.
  - intros n [i j] Hn. cbn. apply list_elem_of_lookup_2, list_elem_of_filter in Hn as [_ Hn].
    rewrite elem_of_map_to_list in Hn. by apply Hk.
Qed.

Lemma locked_jobs_rows ws db :
  tasks_known db → ws ≠ [] →
  job_row <$> get_locked_jobs_for_recovery ws db
  ≡ₚ rows_where (λ _ j, locked_by_any ws (locked_by j)) (jobs db).
Proof.
  intros Ht Hws. unfold get_locked_jobs_for_recovery. destruct ws as [|w ws']; [done|]. cbn [is_empty].
  rewrite (filter_map_rows (λ j, tasks db !! task_id j)); [apply merge_sort_Permutation|].
  intros j. rewrite merge_sort_Permutation, elem_of_rows_where. intros (i & Hi & _). by apply (Ht i j).
Qed.

(** Registering lifecycle hooks does not change what a sweep does unless a
    hook asks for it.  Over tables where every job has its task and queue
    locks belong to locked jobs, recovering job by job with hooks that answer
    the default leaves the tables and the count exactly as the single
    statement used without hooks, and every recovered job is reported
    interrupted once. *)
Theorem default_hooks_recover_alike exp_secs ws delay now db :
  keyed db → tasks_known db → queue_locks_used ws db →
  let '(db1, n1, emitted) := recover_jobs_from_workers exp_secs (Some (λ _, RecoveryDefault)) ws delay now db in
  let '(db2, n2, _) := recover_jobs_from_workers exp_secs None ws delay now db in
  db1 = db2 ∧ n1 = n2 ∧
  (job_row <$> emitted ≡ₚ rows_where (λ _ j, locked_by_any ws (locked_by j)) (jobs db)).
Proof.
  intros Hk Ht Hq. unfold recover_jobs_from_workers. destruct (decide (ws = [])) as [-> |Hws].
  { cbn [is_empty]. split_and!; [done..|]. assert (rows_where (λ _ j, locked_by_any [] (locked_by j)) (jobs db) = []) as ->; [|done].
    destruct (rows_where _ _) as [|j l] eqn:E; [done|]. assert (j ∈ j :: l) as Hin by left. rewrite <- E in Hin.
    apply elem_of_rows_where in Hin as (i & _ & Hl). by destruct (locked_by j). }
  assert (is_empty ws = false) as -> by (by destruct ws).
  pose proof (locked_jobs_rows ws db Ht Hws) as Hrows. set (l := get_locked_jobs_for_recovery ws db) in *.
  assert (∀ job : Job, job ∈ l → jobs db !! id job = Some (job_row job) ∧ locked_by_any ws (locked_by job) = true)
    as Hl by (intros; by apply elem_of_locked_jobs).
  assert ((λ j : Job, id j) <$> l = (λ j : DbJob, id j) <$> (job_row <$> l)) as Eids
    by (by rewrite <- list_fmap_compose).
  rewrite default_recovery_loop; [|done| |].
  2:{ rewrite Eids, Hrows. by apply rows_where_NoDup. }
  2:{ intros job Hin. destruct (Hl job Hin) as [? Hlock]. split; [done|]. by destruct (locked_by job). }
  unfold recover_dead_worker_jobs. assert (is_empty ws = false) as -> by (by destruct ws).
  assert (∀ i j, jobs db !! i = Some j → (i ∈ (λ j : Job, id j) <$> l ↔ locked_by_any ws (locked_by j) = true)) as Hids.
  { intros i j Hj. rewrite Eids, Hrows, list_elem_of_fmap.
    setoid_rewrite elem_of_rows_where. split.
    - intros (j' & -> & k & Hk' & Hl'). rewrite (Hk k j' Hk') in Hj. congruence.
    - intros Hlk. exists j. split; [symmetry; by apply Hk|]. eauto. }
  split_and!; [|by rewrite <- (length_fmap job_row), Hrows|done].
  apply db_eq; try done.
  - apply map_eq. intros i. cbn [jobs with_queues with_jobs recovered_so_far]. rewrite !lookup_update_where.
    destruct (jobs db !! i) as [j|] eqn:Hj; [|done]. cbn [fmap option_fmap option_map].
    rewrite (bool_decide_ext _ _ (Hids i j Hj)). by destruct (locked_by_any ws (locked_by j)).
  - apply map_eq. intros q. cbn [job_queues with_queues with_jobs recovered_so_far]. rewrite !lookup_update_where.
    destruct (job_queues db !! q) as [r|] eqn:Hr; [|done]. cbn [fmap option_fmap option_map].
    assert (existsb (λ job : Job, bool_decide (job_queue_id job = Some q)
      && bool_decide (queue_locked_by r = locked_by job)) l = locked_by_any ws (queue_locked_by r)) as ->; [|done].
    apply eq_true_iff_eq. rewrite existsb_exists. split.
    + intros (job & Hin%list_elem_of_In & [_ ->%bool_decide_eq_true]%andb_true_iff). by apply Hl.
    + intros Hlock. pose proof (Hq q r Hr Hlock) as (j & Hin & Hjl & Hjq)%Exists_exists.
      apply list_elem_of_fmap in Hin as ([i j'] & -> & Hin). rewrite elem_of_map_to_list in Hin. cbn in *.
      assert (j' ∈ job_row <$> l) as (job & -> & Hjob)%list_elem_of_fmap.
      { rewrite Hrows. apply elem_of_rows_where. exists i. split; [done|]. by rewrite Hjl. }
      exists job. split; [by apply list_elem_of_In|]. by rewrite !bool_decide_eq_true_2.
Qed.

(** ** Witnesses *)

(** A worker that never registered holds two jobs and a queue. *)
Lemma default_hooks_recover_alike_witness :
  (recover_jobs_from_workers demo_exp (Some (λ _, RecoveryDefault)) [lit "w"] (seconds 30) 300 demo_claim.1).1.1
  = (recover_jobs_from_workers demo_exp None [lit "w"] (seconds 30) 300 demo_claim.1).1.1.
Proof.
  pose proof (default_hooks_recover_alike demo_exp [lit "w"] (seconds 30) 300 demo_claim.1 demo_db_keyed) as H.
  destruct (recover_jobs_from_workers demo_exp (Some _) _ _ _ _) as [[d1 n1] e1].
  destruct (recover_jobs_from_workers demo_exp None _ _ _ _) as [[d2 n2] e2].
  apply H.
  - apply (bool_decide_unpack _). vm_compute. exact I.
  - apply (bool_decide_unpack _). vm_compute. exact I.
Defined.

Definition demo_sweep : Db * SweepStaleWorkersResult :=
  sweep_stale_workers demo_exp true None default_config (mkSweepOptions (Some 0) None false)
    (10 ^ 9) (10 ^ 12) demo_claim.1.

Lemma sweep_touches_only_the_dead_witness :
  worker_ids demo_sweep.2 = [lit "w"] ∧
  dead_worker (resolve (mkSweepOptions (Some 0) None false) default_config) (10 ^ 9) (10 ^ 12)
    demo_claim.1 (lit "w").
Proof.
  assert (worker_ids demo_sweep.2 = [lit "w"]) as E by (vm_compute; reflexivity). split; [exact E|].
  pose proof (sweep_touches_only_the_dead demo_exp true None default_config (mkSweepOptions (Some 0) None false)
    (10 ^ 9) (10 ^ 12) demo_claim.1 demo_db_keyed) as H.
  fold demo_sweep in H. destruct demo_sweep as [d r]. destruct H as (_ & H & _).
  apply H. cbn [snd] in E. rewrite E. left.
Defined.

End Recovery.
