(* ===== verification/JobInvariant.v ===== *)
(** * Invariants of the job tables

    Every statement of the development as a step of the database, and what
    holds after any sequence of them from the empty schema: rows are keyed,
    locks are consistent, job keys are unique, whatever the statements are.
    Two more facts depend on how clients behave: a named queue runs at most
    one job at a time as long as workers complete only jobs nobody else holds,
    and a retired job has no attempts left as long as no recovery hook gives
    it new ones.  A statement carries a label with what these conditions look
    at; the last sections show what happens without them. *)

From S2P Require Import Prelude Job Database FlagFilter JobStore JobRelease Hooks AddJob Recovery.
Open Scope Z_scope.

Module JobInvariant.
Import Job FlagFilter JobStore JobRelease AddJob Hooks Recovery.

(** ** The invariant *)

Definition row_ok (seq i : Z) (j : DbJob) : Prop :=
  id j = i ∧ i < seq ∧ (locked_at j = None ↔ locked_by j = None) ∧ 1 ≤ max_attempts j.

Definition queue_ok (seq q : Z) (r : JobQueue) : Prop :=
  q < seq ∧ (queue_locked_at r = None ↔ queue_locked_by r = None).

Definition rows_ok (db : Db) : Prop := ∀ i j, jobs db !! i = Some j → row_ok (jobs_seq db) i j.

Definition queues_ok (db : Db) : Prop :=
  ∀ q r, job_queues db !! q = Some r → queue_ok (queues_seq db) q r.

(** Job [i] is running in queue [q]. *)
Definition running_in (db : Db) (q i : Z) (j : DbJob) : Prop :=
  jobs db !! i = Some j ∧ is_Some (locked_at j) ∧ job_queue_id j = Some q.

(** A running job's queue is locked by the worker that runs it, and no other
    job of the queue is running. *)
Definition exclusive (db : Db) : Prop :=
  ∀ q i j, running_in db q i j →
    (∃ r, job_queues db !! q = Some r ∧ queue_locked_by r = locked_by j) ∧
    ∀ i' j', running_in db q i' j' → i' = i.

(** A retired row still exists and, when [r] says so, has no attempts left. *)
Definition retired_ok (r : bool) (db : Db) : Prop :=
  ∀ i, i ∈ retirements db → ∃ j, jobs db !! i = Some j ∧ (r = true → max_attempts j ≤ attempts j).

(** Two parts of the invariant depend on how clients behave and are switched
    by [e] and [r]: exclusion on owned completions, the exhaustion of retired
    jobs on recovery hooks that leave retired jobs alone. *)
Record inv_if (e r : bool) (db : Db) : Prop := {
  inv_rows : rows_ok db;
  inv_queues : queues_ok db;
  inv_exclusive : e = true → exclusive db;
  inv_retired : retired_ok r db;
  inv_keys : keys_unique db
}.
Arguments inv_rows {e r db}.
Arguments inv_queues {e r db}.
Arguments inv_exclusive {e r db}.
Arguments inv_retired {e r db}.
Arguments inv_keys {e r db}.

Section preservation.
Context {ex ret : bool}.
Abbreviation inv := (inv_if ex ret).
Abbreviation retired_inv := (retired_ok ret).

Lemma inv_empty : inv empty_db.
Proof.
  constructor; cbn; [by intros ?..| |set_solver|by intros ?].
  intros _ q i j [H _]. done.
Qed.

(** ** Steps that only give locks up *)

(** What a statement may do to a row it keeps: keep its lock, or drop it;
    keep its key, or drop it. *)
Record row_step (j j' : DbJob) : Prop := {
  rs_id : id j' = id j;
  rs_lock : locked_at j' = locked_at j ∧ locked_by j' = locked_by j ∨
            locked_at j' = None ∧ locked_by j' = None;
  rs_queue : is_Some (locked_at j') → job_queue_id j' = job_queue_id j;
  rs_key : key j' = key j ∨ key j' = None;
  rs_max : 1 ≤ max_attempts j → 1 ≤ max_attempts j'
}.

Lemma row_step_refl j : row_step j j.
Proof. constructor; auto. Qed.

Definition rows_step (db db' : Db) : Prop :=
  ∀ i j', jobs db' !! i = Some j' → ∃ j, jobs db !! i = Some j ∧ row_step j j'.

(** The queue of a job that stays running is left to its worker. *)
Definition queues_kept (db db' : Db) : Prop :=
  ∀ q i j' r, running_in db' q i j' → job_queues db !! q = Some r → queue_locked_by r = locked_by j' →
    ∃ r', job_queues db' !! q = Some r' ∧ queue_locked_by r' = queue_locked_by r.

Lemma rows_step_ok db db' :
  rows_step db db' → jobs_seq db ≤ jobs_seq db' → rows_ok db → rows_ok db'.
Proof.
  intros Hs Hle Hok i j' Hj'. destruct (Hs i j' Hj') as (j & Hj & [Hid Hl _ _ Ha]).
  destruct (Hok i j Hj) as (Hi & Hlt & Hp & H1).
  split_and!; [congruence|lia| |by apply Ha].
  destruct Hl as [[-> ->]|[-> ->]]; [done|done].
Qed.

Lemma rows_step_running db db' q i j' :
  rows_step db db' → running_in db' q i j' →
  ∃ j, running_in db q i j ∧ locked_by j = locked_by j'.
Proof.
  intros Hs (Hj' & Hl & Hq). destruct (Hs i j' Hj') as (j & Hj & [_ Hlock Hqueue _ _]).
  exists j. specialize (Hqueue Hl). destruct Hlock as [[Ha Hb]|[Ha _]].
  - split; [|done]. split_and!; [done|by rewrite <- Ha|congruence].
  - rewrite Ha in Hl. by destruct Hl.
Qed.

Lemma rows_step_exclusive db db' :
  rows_step db db' → queues_kept db db' → exclusive db → exclusive db'.
Proof.
  intros Hs Hk Hex q i j' Hrun.
  destruct (rows_step_running _ _ _ _ _ Hs Hrun) as (j & Hrun0 & Hby).
  destruct (Hex q i j Hrun0) as [(r & Hr & Hrb) Huniq]. split.
  - rewrite Hby in Hrb. destruct (Hk q i j' r Hrun Hr Hrb) as (r' & Hr' & Hb'). exists r'.
    split; [done|congruence].
  - intros i2 j2 Hrun2. destruct (rows_step_running _ _ _ _ _ Hs Hrun2) as (j20 & Hrun20 & _). eauto.
Qed.

Lemma rows_step_keys db db' : rows_step db db' → keys_unique db → keys_unique db'.
Proof.
  intros Hs Hu i j i' j' k Hi Hi' Hk Hk'.
  destruct (Hs i j Hi) as (x & Hx & [_ _ _ Hxk _]). destruct (Hs i' j' Hi') as (y & Hy & [_ _ _ Hyk _]).
  destruct Hxk as [Hxk|Hxk]; [|congruence]. destruct Hyk as [Hyk|Hyk]; [|congruence].
  eapply (Hu i x i' y k); congruence.
Qed.

(** Rows kept by [update_where] are related by what it does to them. *)
Lemma update_rows_step db p f qs ts ws rs a b c :
  (∀ i j, jobs db !! i = Some j → p i j = true → row_step j (f j)) →
  rows_step db (mkDb (update_where p f (jobs db)) qs ts ws rs a b c).
Proof.
  intros H i j' (j & Hj & ->)%update_where_Some. exists j. split; [done|].
  destruct (p i j) eqn:E; [by eapply H|apply row_step_refl].
Qed.

Lemma delete_rows_step db p qs ts ws rs a b c :
  rows_step db (mkDb (delete_where p (jobs db)) qs ts ws rs a b c).
Proof. intros i j' [Hj' _]%delete_where_Some. exists j'. split; [done|apply row_step_refl]. Qed.

(** Releasing the queues of rows that stop running keeps the queues of the
    others. *)
Lemma release_queues_kept db db' w p :
  exclusive db → rows_step db db' →
  (∀ i j, jobs db !! i = Some j → p i j = true → is_Some (locked_at j)) →
  (∀ i j j', jobs db !! i = Some j → p i j = true → jobs db' !! i = Some j' → locked_at j' = None) →
  job_queues db' = release_queues w (rows_where p (jobs db)) (job_queues db) →
  queues_kept db db'.
Proof.
  intros Hex Hs Hp Hgone Eq q i j' r Hrun Hr Hby. rewrite Eq. exists r. split; [|done].
  rewrite release_queues_lookup, Hr. simpl.
  rewrite bool_decide_eq_false_2; [done|]. rewrite elem_of_row_queues.
  intros (i0 & j0 & Hj0 & Hp0 & Hq0).
  destruct (rows_step_running _ _ _ _ _ Hs Hrun) as (j & Hrun0 & _).
  destruct (Hex q i j Hrun0) as [_ Huniq].
  assert (i0 = i) as -> by (eapply Huniq; split_and!; eauto).
  destruct Hrun as (Hj' & [t Ht] & _). rewrite (Hgone i j0 j' Hj0 Hp0 Hj') in Ht. done.
Qed.

Lemma queues_same_kept db db' : job_queues db' = job_queues db → queues_kept db db'.
Proof. intros Eq q i j' r _ Hr Hb. rewrite Eq. eauto. Qed.

Lemma update_queues_ok p f qs seq :
  (∀ r, (queue_locked_at r = None ↔ queue_locked_by r = None) →
        (queue_locked_at (f r) = None ↔ queue_locked_by (f r) = None)) →
  (∀ q r, qs !! q = Some r → queue_ok seq q r) →
  ∀ q r, update_where p f qs !! q = Some r → queue_ok seq q r.
Proof.
  intros Hf Hok q r (r0 & Hr0 & ->)%update_where_Some. destruct (Hok q r0 Hr0) as [? ?].
  destruct (p q r0); [|done]. split; [done|by apply Hf].
Qed.

Lemma release_queues_ok w js qs seq :
  (∀ q r, qs !! q = Some r → queue_ok seq q r) →
  ∀ q r, release_queues w js qs !! q = Some r → queue_ok seq q r.
Proof. apply update_queues_ok. done. Qed.

(** A statement that gives locks up preserves the invariant, if it does not
    lower the attempts of a retired row below its limit. *)
Lemma inv_release db db' :
  rows_step db db' → (ex = true → queues_kept db db') → jobs_seq db ≤ jobs_seq db' →
  (∀ q r, job_queues db' !! q = Some r → queue_ok (queues_seq db') q r) →
  retired_inv db' → inv db → inv db'.
Proof.
  intros Hs Hk Hseq Hq Hr [H1 H2 H3 H4 H5]. constructor.
  - by eapply rows_step_ok.
  - done.
  - intros He. eapply rows_step_exclusive; [done|by apply Hk|by apply H3].
  - done.
  - by eapply rows_step_keys.
Qed.

(** ** Claims *)

Lemma inv_keyed db : inv db → keyed db.
Proof. intros [H1 _ _ _ _] i j Hj. by destruct (H1 i j Hj). Qed.

Lemma inv_unlocked db i j : inv db → jobs db !! i = Some j → locked_at j = None → locked_by j = None.
Proof. intros [H1 _ _ _ _] Hj. destruct (H1 i j Hj) as (_ & _ & ? & _). tauto. Qed.

Lemma inv_retired_exhausted db : ret = true → inv db → retired_exhausted db.
Proof.
  intros Hret [_ _ _ H4 _] i j Hj Hi. destruct (H4 i Hi) as (j' & Hj' & Hle). simplify_eq. by apply Hle.
Qed.

(** A free queue runs no job. *)
Lemma free_queue_idle db q r i j :
  ex = true → inv db → job_queues db !! q = Some r → queue_locked_at r = None → ¬ running_in db q i j.
Proof.
  intros He [H1 H2 H3 _ _] Hr Hfree Hrun. destruct (H3 He q i j Hrun) as [(r' & Hr' & Hby) _].
  simplify_eq. destruct (H2 q r Hr) as [_ Hiff]. destruct Hrun as (Hj & Hl & _).
  destruct (H1 i j Hj) as (_ & _ & Hp & _).
  destruct Hl as [t Ht]. assert (locked_at j = None); [|congruence].
  apply Hp. rewrite <- Hby. by apply Hiff.
Qed.

Lemma apply_claim_inv w t sel db i j' :
  jobs (apply_claim w t sel db) !! i = Some j' →
  ∃ j, jobs db !! i = Some j ∧
    (i ∈ sel.*1 ∧ j' = lock_job w t j ∨ i ∉ sel.*1 ∧ j' = j).
Proof.
  cbn. intros (j & Hj & ->)%update_where_Some. exists j. split; [done|].
  case_bool_decide; auto.
Qed.

Lemma inv_claim con tids filt w t db sel :
  inv db → claimed con tids filt t db sel → inv (apply_claim w t sel db).
Proof.
  intros Hinv Hcl. pose proof Hinv as [H1 H2 H3 H4 H5]. pose proof Hcl as (Hn & Hc & Hone).
  assert (∀ i j, i ∈ sel.*1 → jobs db !! i = Some j → (i, j) ∈ sel ∧ candidate con tids filt t db i j = true) as Hsel.
  { intros i j ([i' x] & -> & Hin)%list_elem_of_fmap Hj. destruct (Hc _ _ Hin) as [Hx ?]. by simplify_eq/=. }
  (* the running jobs of a queue that the claim takes *)
  assert (∀ q i j', running_in (apply_claim w t sel db) q i j' →
    (∃ j, (i, j) ∈ sel ∧ job_queue_id j = Some q ∧ j' = lock_job w t j ∧
       ∃ r, job_queues db !! q = Some r ∧ queue_locked_at r = None) ∨
    (i ∉ sel.*1 ∧ running_in db q i j')) as Hrun.
  { intros q i j' (Hj' & Hl & Hq). apply apply_claim_inv in Hj' as (j & Hj & [[Hi ->]|[Hi ->]]).
    - left. exists j. destruct (Hsel i j Hi Hj) as [Hin Hcand]. split_and!; [done..|].
      apply candidate_spec in Hcand as (_ & _ & _ & _ & _ & _ & Hqueue).
      destruct (Hqueue q Hq) as (r & ? & ? & _). eauto.
    - right. split; [done|]. by split_and!. }
  constructor.
  - intros i j' (j & Hj & [[Hi ->]|[Hi ->]])%apply_claim_inv; [|by apply H1].
    destruct (H1 i j Hj) as (? & ? & _ & ?). by split_and!; cbn.
  - intros q r. cbn. apply update_queues_ok; [done|]. apply H2.
  - intros Hx q i j' Hr. specialize (H3 Hx).
    destruct (Hrun q i j' Hr) as [(j & Hin & Hq & -> & r & Hqr & Hfree)|[Hi Hr0]].
    + split.
      * destruct (claimed_effect con tids filt w t db sel i j Hcl Hin) as [_ He].
        destruct (He q Hq) as (r' & _ & _ & Hr'). by eexists.
      * intros i2 j2 Hr2. destruct (Hrun q i2 j2 Hr2) as [(k & Hin2 & Hq2 & _ & _)|[_ Hr20]].
        -- pose proof (Hone (i, j) (i2, k) q Hin Hin2 Hq Hq2). congruence.
        -- by destruct (free_queue_idle db q r i2 j2).
    + split.
      * destruct (H3 q i j' Hr0) as [(r & Hqr & Hby) _].
        assert (Some q ∉ (λ ij, job_queue_id ij.2) <$> sel) as Hnot.
        { intros ([k x] & Hq & Hin)%list_elem_of_fmap.
          destruct (claimed_effect con tids filt w t db sel k x Hcl Hin) as [_ He].
          destruct (He q) as (r' & Hr' & Hfree & _); [done|]. by destruct (free_queue_idle db q r' i j'). }
        exists r. by rewrite apply_claim_other_queue.
      * intros i2 j2 Hr2. destruct (Hrun q i2 j2 Hr2) as [(k & _ & _ & _ & r & Hqr & Hfree)|[_ Hr20]].
        -- by destruct (free_queue_idle db q r i j').
        -- by apply (H3 q i j' Hr0) in Hr20.
  - intros i Hi. destruct (H4 i Hi) as (j & Hj & Hle). cbn. rewrite lookup_update_where, Hj. simpl.
    eexists. split; [done|]. intros Ht. specialize (Hle Ht). case_bool_decide as Hin; [|done].
    destruct (Hsel i j Hin Hj) as [_ Hcand]. apply candidate_spec in Hcand as (_ & Hlt & _). lia.
  - intros i j i' j' k. intros (x & Hx & Ex)%apply_claim_inv (y & Hy & Ey)%apply_claim_inv Hk Hk'.
    eapply (H5 i x i' y k); [done..| |]; destruct Ex as [[_ ->]|[_ ->]], Ey as [[_ ->]|[_ ->]]; done.
Qed.

(** ** Releases *)

(** The rows a condition selects are unlocked and their queues released, as
    failing and returning do. *)
Lemma inv_unlock w p f db :
  inv db →
  (∀ i j, jobs db !! i = Some j → p i j = true → locked_by j = Some w) →
  (∀ i j, jobs db !! i = Some j → p i j = true → row_step j (f j) ∧ locked_at (f j) = None ∧
     (i ∈ retirements db → max_attempts j ≤ attempts j → max_attempts (f j) ≤ attempts (f j))) →
  inv (with_queues (with_jobs db (update_where p f (jobs db)))
         (release_queues w (rows_where p (jobs db)) (job_queues db))) ∧
  inv (with_jobs db (update_where p f (jobs db))).
Proof.
  intros Hinv Hown Hf. pose proof Hinv as [H1 H2 H3 H4 H5].
  assert (retired_inv (with_jobs db (update_where p f (jobs db)))) as Hret.
  { intros i Hi. destruct (H4 i Hi) as (j & Hj & Hle). cbn. rewrite lookup_update_where, Hj. simpl.
    eexists. split; [done|]. intros Ht. specialize (Hle Ht). destruct (p i j) eqn:E; [|done].
    destruct (Hf i j Hj E) as (_ & _ & Hm). auto. }
  split; apply (inv_release db); try done.
  - apply update_rows_step. intros i j Hj Hp. by apply (Hf i j).
  - intros He. apply (release_queues_kept db _ w p); [by apply H3| | | |done].
    + apply update_rows_step. intros i j Hj Hp. by apply (Hf i j).
    + intros i j Hj Hp. destruct (H1 i j Hj) as (_ & _ & Hiff & _).
      destruct (locked_at j) eqn:E; [by eexists|]. rewrite (Hown i j Hj Hp) in Hiff. naive_solver.
    + intros i j j' Hj Hp. cbn. rewrite lookup_update_where, Hj. simpl. rewrite Hp.
      intros [= <-]. by apply (Hf i j).
  - cbn. by apply release_queues_ok.
  - apply update_rows_step. intros i j Hj Hp. by apply (Hf i j).
  - intros _. by apply queues_same_kept.
Qed.

Lemma mark_failed_step exp_secs now m rep j : row_step j (mark_failed exp_secs now m rep j).
Proof. constructor; cbn; auto; by intros []. Qed.

Lemma mark_returned_step retired now d e rec j : row_step j (mark_returned retired now d e rec j).
Proof.
  constructor; cbn; auto; by intros [].
Qed.

Lemma owned_by_Some w j : owned_by w j = true ↔ locked_by j = Some w.
Proof. apply bool_decide_eq_true. Qed.

Lemma inv_fail_one exp_secs now w i queued m rep db :
  inv db → inv (fail_one exp_secs now w i queued m rep db).
Proof.
  intros Hinv.
  destruct (inv_unlock w (λ k j, bool_decide (k = i) && owned_by w j) (mark_failed exp_secs now m rep) db Hinv)
    as [Ha Hb].
  - intros k j _ [_ ?%owned_by_Some]%andb_true_iff. done.
  - intros k j _ _. split; [apply mark_failed_step|done].
  - unfold fail_one. by destruct queued.
Qed.

Lemma inv_fail_jobs exp_secs now failed w db : inv db → inv (fail_jobs exp_secs now failed w db).
Proof.
  intros Hinv. unfold fail_jobs. destruct (is_empty failed); [done|]. cbv zeta.
  set (p := λ i j, bool_decide (i ∈ (λ je : Job * str, id je.1) <$> failed) && owned_by w j).
  set (f := λ j, mark_failed exp_secs now (input_error failed (id j)) None j).
  destruct (inv_unlock w p f db Hinv) as [Ha Hb].
  - intros k j _ [_ ?%owned_by_Some]%andb_true_iff. done.
  - intros k j _ _. split; [apply mark_failed_step|done].
  - by destruct (existsb _ failed).
Qed.

Lemma inv_private_return w ids d e rec now db : inv db → inv (private_return_jobs w ids d e rec now db).
Proof.
  intros Hinv. unfold private_return_jobs. apply inv_unlock; [done| |].
  - intros k j _ [_ ?%owned_by_Some]%andb_true_iff. done.
  - intros k j Hj _. split; [apply mark_returned_step|]. split; [done|]. cbn.
    destruct (inv_rows Hinv k j Hj) as (<- & _). unfold regained_attempts. intros Hin.
    by rewrite bool_decide_eq_true_2.
Qed.

(** Unlocking everything some workers hold, jobs and queues. *)
Lemma inv_unlock_workers ws f db :
  inv db →
  (∀ i j, jobs db !! i = Some j → row_step j (f j) ∧ locked_at (f j) = None ∧
     (i ∈ retirements db → max_attempts j ≤ attempts j → max_attempts (f j) ≤ attempts (f j))) →
  inv (with_queues (with_jobs db (update_where (λ _ j, locked_by_any ws (locked_by j)) f (jobs db)))
         (update_where (λ _ q, locked_by_any ws (queue_locked_by q)) unlock_queue (job_queues db))).
Proof.
  intros Hinv Hf. pose proof Hinv as [H1 H2 H3 H4 H5]. apply (inv_release db); try done.
  - apply update_rows_step. intros i j Hj _. by apply (Hf i j).
  - intros _ q i j' r (Hj' & Hl & Hq) Hr Hby. exists r. split; [|done]. cbn in Hj' |- *.
    apply update_where_Some in Hj' as (j & Hj & ->). rewrite lookup_update_where, Hr. simpl.
    destruct (locked_by_any ws (locked_by j)) eqn:E.
    + destruct (Hf i j Hj) as (_ & Hn & _). rewrite Hn in Hl. by destruct Hl.
    + by rewrite Hby, E.
  - cbn. by apply update_queues_ok.
  - intros i Hi. destruct (H4 i Hi) as (j & Hj & Hle). cbn. rewrite lookup_update_where, Hj. simpl.
    eexists. split; [done|]. intros Ht. specialize (Hle Ht). destruct (locked_by_any ws (locked_by j)); [|done].
    destruct (Hf i j Hj) as (_ & _ & Hm). auto.
Qed.

Lemma inv_recover ws delay now db : inv db → inv (recover_dead_worker_jobs ws delay now db).1.
Proof.
  intros Hinv. unfold recover_dead_worker_jobs. destruct (is_empty ws); [done|].
  apply inv_unlock_workers; [done|]. intros i j Hj. split_and!; [|done|].
  - constructor; cbn; auto; by intros [].
  - cbn. destruct (inv_rows Hinv i j Hj) as (<- & _). unfold regained_attempts. intros Hin.
    by rewrite bool_decide_eq_true_2.
Qed.

Lemma inv_force_unlock ws db : inv db → inv (force_unlock_workers ws db).
Proof.
  intros Hinv. apply inv_unlock_workers; [done|]. intros i j Hj. split_and!; [|done|done].
  constructor; cbn; auto; by intros [].
Qed.

(** ** Deletions *)

(** The worker owns the rows, if they are still there. *)
Definition owns (w : str) (ids : list Z) (db : Db) : Prop :=
  ∀ i j, i ∈ ids → jobs db !! i = Some j → locked_by j = Some w.

Lemma retired_delete p db : retired_inv db → retired_inv (delete_jobs p db).
Proof.
  intros H i Hi. cbn in Hi. apply elem_of_filter in Hi as [[j Hj] Hi].
  destruct (H i Hi) as (j' & Hj' & Hle). exists j. split; [done|].
  apply delete_where_Some in Hj as [Hj _]. by simplify_eq.
Qed.

Lemma inv_delete p db : inv db → inv (delete_jobs p db).
Proof.
  intros Hinv. pose proof Hinv as [H1 H2 H3 H4 H5]. apply (inv_release db); try done.
  - apply delete_rows_step.
  - intros _. by apply queues_same_kept.
  - by apply retired_delete.
Qed.

Lemma inv_complete_ids w gone queued db :
  inv db → queued ⊆ gone → (ex = true → owns w gone db) →
  inv (complete_ids w gone queued db).
Proof.
  intros Hinv Hsub Hown. pose proof Hinv as [H1 H2 H3 H4 H5]. apply (inv_release db); try done.
  - apply delete_rows_step.
  - intros He. apply (release_queues_kept db _ w (with_id queued)); [by apply H3|apply delete_rows_step| | |done].
    + intros i j Hj Hi%bool_decide_eq_true. destruct (H1 i j Hj) as (_ & _ & Hiff & _).
      destruct (locked_at j) eqn:E; [by eexists|]. rewrite (Hown He i j) in Hiff by set_solver. naive_solver.
    + intros i j j' Hj Hi%bool_decide_eq_true [_ Hn%bool_decide_eq_false]%delete_where_Some. set_solver.
  - cbn. by apply release_queues_ok.
  - by apply retired_delete.
Qed.

Lemma complete_one_ids w i b db :
  complete_one w i b db = complete_ids w [i] (if b then [i] else []) db.
Proof.
  assert (∀ k (r : DbJob), bool_decide (k = i) = with_id [i] k r) as Hp.
  { intros k r. apply bool_decide_ext. set_solver. }
  assert (delete_jobs (λ k _, bool_decide (k = i)) db = delete_jobs (with_id [i]) db) as Hd
    by (apply delete_jobs_ext; intros; apply Hp).
  unfold complete_one, complete_ids. rewrite Hd. destruct b.
  - f_equal. apply release_queues_ext. intros q. rewrite !elem_of_row_queues. unfold names_queue.
    by setoid_rewrite <- Hp.
  - rewrite release_queues_nil by (intros q; rewrite elem_of_row_queues; apply with_id_nil_queues).
    by destruct db.
Qed.

Lemma inv_complete_one w i b db : inv db → (ex = true → owns w [i] db) → inv (complete_one w i b db).
Proof.
  intros Hinv Hown. rewrite complete_one_ids. apply inv_complete_ids; [done| |done].
  destruct b; set_solver.
Qed.

Lemma inv_complete_with_queues w ids db :
  inv db → (ex = true → owns w ids db) → inv (complete_jobs_with_queues w ids db).
Proof.
  intros Hinv Hown. unfold complete_jobs_with_queues. destruct (is_empty ids); [done|].
  by apply (inv_complete_ids w ids ids).
Qed.

Lemma inv_complete_without_queues ids db : inv db → inv (complete_jobs_without_queues ids db).
Proof. intros Hinv. unfold complete_jobs_without_queues. destruct (is_empty ids); [done|by apply inv_delete]. Qed.

(** ** Management *)

(** Rows updated without unlocking any, and the retirements that go with it. *)
Lemma inv_update p f rs db :
  inv db → (∀ i j, jobs db !! i = Some j → p i j = true → row_step j (f j)) →
  (∀ i, i ∈ rs → ∃ j, jobs db !! i = Some j ∧
     (ret = true → if p i j then max_attempts (f j) ≤ attempts (f j) else max_attempts j ≤ attempts j)) →
  inv (with_retirements (with_jobs db (update_where p f (jobs db))) rs).
Proof.
  intros Hinv Hf Hr. pose proof Hinv as [H1 H2 H3 H4 H5]. apply (inv_release db); try done.
  - by apply update_rows_step.
  - intros _. by apply queues_same_kept.
  - intros i Hi. destruct (Hr i Hi) as (j & Hj & Hle). cbn. rewrite lookup_update_where, Hj. simpl.
    eexists. split; [done|]. intros Ht. specialize (Hle Ht). by destruct (p i j).
Qed.

Lemma inv_exhaust p f db :
  inv db → (∀ j, row_step j (f j)) → (∀ j, max_attempts (f j) ≤ attempts (f j)) →
  inv (with_retirements (with_jobs db (update_where p f (jobs db))) (retirements db ∪ ids_where p (jobs db))).
Proof.
  intros Hinv Hf Hm. apply inv_update; [done|by intros|].
  intros i [Hi|(j & Hj & Hp)%elem_of_ids_where]%elem_of_union.
  - destruct (inv_retired Hinv i Hi) as (j & Hj & Hle). exists j. split; [done|].
    intros Ht. specialize (Hle Ht). by destruct (p i j).
  - exists j. split; [done|]. by rewrite Hp.
Qed.

Lemma retire_step now j : row_step j (retire now j).
Proof. constructor; cbn; auto with lia. Qed.

Lemma exhaust_step now reason j : row_step j (exhaust now reason j).
Proof. constructor; cbn; auto with lia. Qed.

Lemma inv_remove_job k now db : inv db → inv (remove_job k now db).
Proof.
  intros Hinv. unfold remove_job. case_match; [by apply inv_delete|].
  apply inv_exhaust; [done|apply retire_step|done].
Qed.

Lemma inv_permanently_fail ids reason now db : inv db → inv (permanently_fail_jobs ids reason now db).
Proof. intros Hinv. apply inv_exhaust; [done|apply exhaust_step|done]. Qed.

Lemma inv_reschedule ids o now db db' :
  inv db → reschedule_jobs ids o now db = Ok db' → inv db'.
Proof.
  intros Hinv. unfold reschedule_jobs.
  set (p := λ i j, bool_decide (i ∈ ids) && manageable now j). destruct (_ && _) eqn:E; [done|].
  intros [= <-].
  assert (∀ i j, jobs db !! i = Some j → p i j = true → 1 ≤ default 1 (r_max_attempts o)) as Hm.
  { intros i j Hj Hp. apply andb_false_iff in E as [E|E]; [|by apply Z.ltb_ge in E].
    apply negb_false_iff in E. exfalso.
    assert (j ∈ rows_where p (jobs db)) as Hin by (apply elem_of_rows_where; eauto).
    destruct (rows_where p (jobs db)); [by apply not_elem_of_nil in Hin|done]. }
  apply inv_update; [done| |].
  - intros i j Hj Hp. specialize (Hm i j Hj Hp). constructor; cbn; auto. intros H1.
    destruct (r_max_attempts o); cbn in *; lia.
  - intros i [Hi Hn]%elem_of_difference. destruct (inv_retired Hinv i Hi) as (j & Hj & Hle).
    exists j. split; [done|]. intros Ht. destruct (p i j) eqn:Ep; [|by apply Hle].
    destruct Hn. apply elem_of_ids_where. eauto.
Qed.

(** The new schedule a recovery hook asked for.  The statement looks at nothing
    but the id, so attempts given to a retired job revive it. *)
Lemma inv_recovered_schedule i run_at_ attempts_ now db :
  inv db → (ret = true → attempts_ = None ∨ i ∉ retirements db) →
  inv (set_recovered_job_schedule i run_at_ attempts_ now db).
Proof.
  intros Hinv Ha.
  assert (set_recovered_job_schedule i run_at_ attempts_ now db = with_retirements
    (with_jobs db (update_where (λ k _, bool_decide (k = i)) (set_schedule run_at_ attempts_ now) (jobs db)))
    (retirements db)) as -> by (by destruct db).
  apply inv_update; [done| |].
  - intros k j _ _. constructor; cbn; auto.
  - intros k Hk. destruct (inv_retired Hinv k Hk) as (j & Hj & Hle). exists j. split; [done|].
    intros Ht. specialize (Hle Ht). case_bool_decide as E; [subst k|done].
    destruct (Ha Ht) as [-> |Hn]; [done|by destruct Hn].
Qed.

(** Statements that leave the jobs and queues alone. *)
Lemma inv_same db db' :
  inv db → jobs db' = jobs db → job_queues db' = job_queues db → retirements db' = retirements db →
  jobs_seq db' = jobs_seq db → queues_seq db ≤ queues_seq db' → inv db'.
Proof.
  intros Hinv Hj Hq Hr Hs Hqs. pose proof Hinv as [H1 H2 H3 H4 H5]. apply (inv_release db); try done.
  - intros i j. rewrite Hj. intros. exists j. split; [done|apply row_step_refl].
  - intros _. by apply queues_same_kept.
  - lia.
  - intros q r. rewrite Hq. intros Hqr. destruct (H2 q r Hqr). split; [lia|done].
  - intros i. rewrite Hr, Hj. apply H4.
Qed.

Lemma inv_cleanup_execute t keep db : inv db → inv (cleanup_execute t keep db).
Proof.
  intros Hinv. destruct t; simpl.
  - by apply (inv_same db).
  - pose proof Hinv as [H1 H2 H3 H4 H5]. apply (inv_release db); try done.
    + intros i j Hj. exists j. split; [done|apply row_step_refl].
    + intros _ q i j' r (Hj & _ & Hq) Hr _. exists r. split; [|done]. cbn.
      apply delete_where_Some. split; [done|]. apply andb_false_iff. right.
      apply bool_decide_eq_false. intros Hn. apply Hn, list_elem_of_fmap. exists j'.
      split; [done|]. apply elem_of_rows_where. eauto.
    + intros q r [Hr _]%delete_where_Some. by apply H2.
  - by apply inv_delete.
Qed.

(** ** Insertions *)

Lemma inv_insert_task db n db' : inv db → insert_task_name db n = Ok db' → inv db'.
Proof.
  intros Hinv. unfold insert_task_name. destruct (name_id _ _); [by intros [= <-]|].
  case_match; [done|]. intros [= <-]. by apply (inv_same db).
Qed.

Lemma inv_insert_queue db n db' : inv db → insert_queue_name db n = Ok db' → inv db'.
Proof.
  intros Hinv. unfold insert_queue_name. destruct (name_id _ _); [by intros [= <-]|].
  case_match; [done|]. intros [= <-]. pose proof Hinv as [H1 H2 H3 H4 H5]. apply (inv_release db); try done.
  - intros i j Hj. exists j. split; [done|apply row_step_refl].
  - intros _ q i j r _ Hr _. exists r. split; [|done]. cbn. rewrite lookup_insert_ne; [done|].
    destruct (H2 q r Hr). lia.
  - intros q r. cbn. intros [[<- <-]|[_ Hr]]%lookup_insert_Some.
    + split; [lia|done].
    + destruct (H2 q r Hr). split; [lia|done].
Qed.

Lemma inv_insert_names f ns db db' :
  (∀ d n d', inv d → f d n = Ok d' → inv d') → inv db → insert_names f ns db = Ok db' → inv db'.
Proof.
  intros Hf Hinv H. revert Hinv.
  apply (insert_names_ind (λ a b, inv a → inv b) f ns db db'); eauto.
Qed.

(** A row rewritten in place. *)
Lemma inv_rewrite db i j j' :
  inv db → jobs db !! i = Some j → row_step j j' →
  (ret = true → i ∈ retirements db → max_attempts j' ≤ attempts j') →
  inv (with_new_job db (<[i := j']> (jobs db))).
Proof.
  intros Hinv Hj Hs Hret. pose proof Hinv as [H1 H2 H3 H4 H5]. apply (inv_release db); try done.
  - intros k x. cbn. intros [[<- <-]|[_ Hx]]%lookup_insert_Some; eauto using row_step_refl.
  - intros _. by apply queues_same_kept.
  - cbn. lia.
  - intros k Hk. cbn. destruct (decide (k = i)) as [->|Hne].
    + rewrite lookup_insert_eq. eauto.
    + rewrite lookup_insert_ne by done. by apply H4.
Qed.

(** A new unlocked row whose key is free. *)
Lemma inv_new_row db row :
  inv db → id row = jobs_seq db → locked_at row = None → locked_by row = None →
  1 ≤ max_attempts row →
  (∀ k, key row = Some k → find_key db k = None) →
  inv (with_new_job db (<[jobs_seq db := row]> (jobs db))).
Proof.
  intros Hinv Hid Hla Hlb Hm Hk. pose proof Hinv as [H1 H2 H3 H4 H5].
  assert (jobs db !! jobs_seq db = None) as Hfresh.
  { destruct (jobs db !! jobs_seq db) eqn:E; [|done]. destruct (H1 _ _ E) as (_ & ? & _). lia. }
  assert (∀ q k x, running_in (with_new_job db (<[jobs_seq db := row]> (jobs db))) q k x → running_in db q k x) as Hrun.
  { intros q k x (Hx & [t Ht] & Hq). cbn in Hx.
    apply lookup_insert_Some in Hx as [[_ <-]|[_ Hx]]; [congruence|]. split_and!; eauto. }
  constructor.
  - intros k x. cbn. intros [[<- <-]|[_ Hx]]%lookup_insert_Some.
    + split_and!; [done|lia| |done]. by rewrite Hla, Hlb.
    + destruct (H1 k x Hx) as (? & ? & ?). split_and!; [done|lia|tauto..].
  - done.
  - intros He q k x Hr. destruct (H3 He q k x (Hrun _ _ _ Hr)) as [Hq Hu]. split; [done|].
    intros k' x' Hr'. apply (Hu k' x'), Hrun, Hr'.
  - intros k Hin. destruct (H4 k Hin) as (x & Hx & Hle). exists x. split; [|done]. cbn.
    rewrite lookup_insert_ne; [done|]. congruence.
  - intros a x b y k. cbn.
    intros [[<- <-]|[Hna Hx]]%lookup_insert_Some [[<- <-]|[Hnb Hy]]%lookup_insert_Some Hkx Hky; [done| | |by eapply H5].
    + pose proof (proj1 (find_key_None db k) (Hk k Hkx) b y Hy). done.
    + pose proof (proj1 (find_key_None db k) (Hk k Hky) a x Hx). done.
Qed.

(** No job holding one of the keys is retired. *)
Definition holders_live (ks : list str) (db : Db) : Prop :=
  ret = true → ∀ i j k, jobs db !! i = Some j → key j = Some k → k ∈ ks → i ∉ retirements db.

Lemma inv_retire_unavailable ks now db :
  inv db → inv (retire_unavailable ks now db) ∧ holders_live ks (retire_unavailable ks now db).
Proof.
  intros Hinv. split; [apply inv_exhaust; [done|apply retire_step|done]|].
  intros Ht i j k (j0 & Hj0 & ->)%update_where_Some.
  destruct (has_key_in ks j0 && negb (job_available j0)) eqn:E; [done|]. intros Hk Hin.
  assert (job_available j0 = true) as Ha.
  { unfold has_key_in in E. rewrite Hk, bool_decide_eq_true_2 in E by done. by apply negb_false_iff in E. }
  cbn. intros [Hi|(x & Hx & Hp)%elem_of_ids_where]%elem_of_union.
  - destruct (inv_retired Hinv i Hi) as (x & Hx & Hle). specialize (Hle Ht). simplify_eq.
    apply andb_true_iff in Ha as [_ Ha]. apply Z.ltb_lt in Ha. lia.
  - simplify_eq. by rewrite Hp in E.
Qed.

Lemma replace_row_step preserve now j row :
  locked_at j = None → 1 ≤ max_attempts row → row_step j (replace_row preserve now j row).
Proof.
  intros Hl Hm. constructor; cbn; auto. rewrite Hl. by intros [].
Qed.

Lemma inv_insert_row preserve now touched spec ks db db' touched' r :
  inv db → holders_live ks db → (∀ k, s_job_key spec = Some k → k ∈ ks) →
  insert_row preserve now touched spec db = Ok (db', touched', r) →
  inv db' ∧ holders_live ks db'.
Proof.
  intros Hinv Hlive Hks. unfold insert_row. destruct (name_id _ _) as [tid|]; [|by intros [= <- _ _]].
  set (row := new_row db now spec tid). destruct (negb _) eqn:Eck; [done|].
  apply negb_false_iff, andb_true_iff in Eck as [Hm%Z.leb_le _].
  assert (∀ i, i ∈ retirements db → i < jobs_seq db) as Hlt.
  { intros i Hi. destruct (inv_retired Hinv i Hi) as (x & Hx & _).
    by destruct (inv_rows Hinv i x Hx) as (_ & ? & _). }
  destruct (k ← s_job_key spec; find_key db k) as [[i j]|] eqn:Ef.
  - apply bind_Some in Ef as (k & Hk & [Hj Hkj]%find_key_Some).
    case_bool_decide; [done|]. case_bool_decide as Hl.
    + intros [= <- _ _]. split.
      * eapply inv_rewrite; [done..|by apply replace_row_step|]. intros Ht Hi.
        by destruct (Hlive Ht i j k Hj Hkj (Hks k Hk)).
      * intros Ht a x k'. cbn. intros [[<- <-]|[_ Hx]]%lookup_insert_Some; [|by apply Hlive].
        cbn. by apply Hlive.
    + intros [= <- _ _]. split; [|done]. apply (inv_release db); try done.
      * intros a x Hx. exists x. split; [done|apply row_step_refl].
      * intros _. by apply queues_same_kept.
      * cbn. lia.
      * apply Hinv.
      * apply Hinv.
  - intros [= <- _ _]. split.
    + apply inv_new_row; try done. intros k Hk. cbn in Hk. by rewrite Hk in Ef.
    + intros Ht a x k'. cbn. intros [[<- <-]|[_ Hx]]%lookup_insert_Some; [|by apply Hlive].
      intros _ _ Hi. apply Hlt in Hi. lia.
Qed.

Lemma inv_insert_rows preserve now touched specs ks db db' rows :
  inv db → holders_live ks db → (∀ s k, s ∈ specs → s_job_key s = Some k → k ∈ ks) →
  insert_rows preserve now touched specs db = Ok (db', rows) → inv db'.
Proof.
  revert touched db rows. induction specs as [|s specs IH]; intros touched db rows Hinv Hlive Hks; simpl.
  - by intros [= <- _].
  - destruct (insert_row _ _ _ _ _) as [[[d t] r]|] eqn:E; [|done].
    apply (inv_insert_row _ _ _ _ ks) in E as [Hd Hl]; [|done..|intros k; by apply Hks; left].
    destruct (insert_rows _ _ _ _ _) as [[d' rs]|] eqn:E'; [|done]. intros [= <- _].
    eapply (IH t d); [done..| |done]. intros s' k Hs'. apply Hks. by right.
Qed.

Lemma inv_sql_add_jobs specs preserve now db db' rows :
  inv db → sql_add_jobs specs preserve now db = Ok (db', rows) → inv db'.
Proof.
  intros Hinv. unfold sql_add_jobs.
  destruct (insert_names insert_task_name _ _) as [d1|] eqn:E1; [|done].
  destruct (insert_names insert_queue_name _ d1) as [d2|] eqn:E2; [|done].
  apply inv_insert_names in E1; [|apply inv_insert_task|done].
  apply inv_insert_names in E2; [|apply inv_insert_queue|done].
  destruct (inv_retire_unavailable (filter_map s_job_key specs) now d2 E2) as [H3 Hl].
  apply (inv_insert_rows _ _ _ _ (filter_map s_job_key specs)); [done..|].
  intros s k Hs Hk. apply elem_of_filter_map. eauto.
Qed.

Lemma inv_sql_dedupe spec k now db db' r :
  inv db → s_job_key spec = Some k → sql_dedupe spec k now db = Ok (db', r) → inv db'.
Proof.
  intros Hinv Hk. unfold sql_dedupe.
  destruct (insert_task_name _ _) as [d1|] eqn:E1; [|done].
  destruct (match s_queue_name spec with Some _ => _ | None => _ end) as [d2|] eqn:E2; [|done].
  apply inv_insert_task in E1; [|done].
  assert (inv d2) as H2 by (destruct (s_queue_name spec); [by eapply inv_insert_queue|by simplify_eq]).
  destruct (name_id _ _) as [tid|]; [|done]. destruct (negb _) eqn:Eck; [done|].
  apply negb_false_iff, andb_true_iff in Eck as [Hm%Z.leb_le _].
  destruct (find_key d2 k) as [[i j]|] eqn:Ef.
  - intros [= <- _]. apply find_key_Some in Ef as [Hj Hkj]. eapply inv_rewrite; [done..| |].
    + constructor; cbn; auto.
    + intros Ht Hi. destruct (inv_retired H2 i Hi) as (x & Hx & Hle). simplify_eq. by apply Hle.
  - intros [= <- _]. apply inv_new_row; try done. intros k' Hk'. cbn in Hk'. congruence.
Qed.

Lemma inv_sql_add_job spec mode now db db' r :
  inv db → sql_add_job spec mode now db = Ok (db', r) → inv db'.
Proof.
  intros Hinv. unfold sql_add_job.
  assert (∀ b, (let? (db, rows) := sql_add_jobs [spec] b now db in
    match rows with r :: _ => Ok (db, r) | [] => Err UnableToSchedule end) = Ok (db', r) → inv db') as H.
  { intros b. destruct (sql_add_jobs _ _ _ _) as [[d rows]|] eqn:E; [|done].
    destruct rows; [done|]. intros [= <- _]. by eapply inv_sql_add_jobs. }
  destruct (s_job_key spec) as [k|] eqn:Hk; [|apply H]. destruct mode as [m|]; [|apply H].
  case_bool_decide; [apply H|]. case_bool_decide; [by eapply inv_sql_dedupe|done].
Qed.

End preservation.

(** ** The database as a transition system *)

(** What a statement does that the invariants depend on: a worker completes
    jobs, a recovery hook's answer reschedules one. *)
Inductive Label :=
| LComplete (w : str) (ids : list Z)
| LSchedule (i : Z) (attempts_ : option Z)
| LOther.

(** The worker still holds the jobs it completes, those that are still there. *)
Definition owned_completions (db : Db) (l : Label) : Prop :=
  match l with LComplete w ids => owns w ids db | _ => True end.

(** Recovery hooks give no attempts to a retired job. *)
Definition spares_retired (db : Db) (l : Label) : Prop :=
  match l with LSchedule i (Some _) => i ∉ retirements db | _ => True end.

Definition no_completion (db : Db) (l : Label) : Prop :=
  match l with LComplete _ _ => False | _ => True end.

Definition any_statement (db : Db) (l : Label) : Prop := True.

Section steps.
Context (exp_secs : Z → Z).

(** One statement issued by some client of the schema, whatever its
    arguments. *)
Inductive db_step (db : Db) : Label → Db → Prop :=
| step_get_job con clock td w filt now db' r :
    get_job_with_filter con clock td w filt now db db' r → db_step db LOther db'
| step_batch_get_jobs con clock td w filt n now db' r :
    batch_get_jobs_with_filter con clock td w filt n now db db' r → db_step db LOther db'
| step_complete w (job : Job) : db_step db (LComplete w [id job]) (complete_job job w db)
| step_complete_with_queues w ids : db_step db (LComplete w ids) (complete_jobs_with_queues w ids db)
| step_complete_without_queues w ids : db_step db (LComplete w ids) (complete_jobs_without_queues ids db)
| step_fail now w (job : Job) m rep : db_step db LOther (fail_job exp_secs now job w m rep db)
| step_fail_batch now w failed : db_step db LOther (fail_jobs exp_secs now failed w db)
| step_return w js now : db_step db LOther (return_jobs js w now db)
| step_return_recovery w (job : Job) delay e now :
    db_step db LOther (return_job_for_recovery job w delay e now db)
| step_recovered_schedule i run_at_ attempts_ now :
    db_step db (LSchedule i attempts_) (set_recovered_job_schedule i run_at_ attempts_ now db)
| step_recover ws delay now : db_step db LOther (recover_dead_worker_jobs ws delay now db).1
| step_force_unlock ws : db_step db LOther (force_unlock_workers ws db)
| step_add_job trace local_now name v spec local now db' (j : Job) :
    add_job trace local_now name v spec local now db = Ok (db', j) → db_step db LOther db'
| step_add_jobs trace local_now js td preserve local now db' rows :
    add_jobs trace local_now js td preserve local now db = Ok (db', rows) → db_step db LOther db'
(** The calls in the statement of the cron runner. *)
| step_sql_add_job spec mode now db' r : sql_add_job spec mode now db = Ok (db', r) → db_step db LOther db'
| step_remove k now : db_step db LOther (remove_job k now db)
| step_complete_jobs ids now : db_step db LOther (complete_jobs ids now db)
| step_permanently_fail ids reason now : db_step db LOther (permanently_fail_jobs ids reason now db)
| step_reschedule ids o now db' :
    reschedule_jobs ids o now db = Ok db' → db_step db LOther db'
| step_cleanup t keep : db_step db LOther (cleanup_execute t keep db)
| step_tasks names db' td : get_tasks_details names db = Ok (db', td) → db_step db LOther db'
| step_heartbeat w meta now : db_step db LOther (worker_heartbeat w meta now db)
| step_deregister w : db_step db LOther (worker_deregister w db)
| step_delete_workers ws : db_step db LOther (delete_stale_workers ws db).

Lemma inv_step ex ret db l db' :
  inv_if ex ret db → (ex = true → owned_completions db l) → (ret = true → spares_retired db l) →
  db_step db l db' → inv_if ex ret db'.
Proof.
  intros Hinv Ho Hsp Hs. destruct Hs as [??????? ? Hg|???????? ? Hb|w job| | | | |w js now|w job delay e now
    | | | |????????? Ha|????????? Ha|????? Ha| | | |ids o now d Hr| |names d td Ht| | |ws].
  - apply get_claim_inv in Hg as (sel & Hcl & -> & _). by eapply inv_claim.
  - inversion Hb as [|raw rows _ Hs Hp]; subst; [done|].
    eapply inv_claim; [done|by eapply selection_claimed].
  - by apply inv_complete_one.
  - by apply inv_complete_with_queues.
  - by apply inv_complete_without_queues.
  - by apply inv_fail_one.
  - by apply inv_fail_jobs.
  - unfold return_jobs. destruct (is_empty js); [done|by apply inv_private_return].
  - unfold return_job_for_recovery. apply inv_private_return, Hinv.
  - apply inv_recovered_schedule; [done|]. intros Ht. specialize (Hsp Ht).
    destruct attempts_; [by right|by left].
  - by apply inv_recover.
  - by apply inv_force_unlock.
  - unfold add_job in Ha. destruct (sql_add_job _ _ _ _) as [[d r]|] eqn:E; [|discriminate Ha].
    cbn [map_err] in Ha. injection Ha as <- _. by eapply inv_sql_add_job.
  - unfold add_jobs in Ha. destruct (is_empty _); [by injection Ha as <- _|].
    destruct (validate_batch_job_key_modes _); [|discriminate Ha].
    destruct (sql_add_jobs _ _ _ _) as [[d rs]|] eqn:E; [|discriminate Ha].
    cbn [map_err] in Ha. injection Ha as <- _. by eapply inv_sql_add_jobs.
  - by eapply inv_sql_add_job.
  - by apply inv_remove_job.
  - by apply inv_delete.
  - by apply inv_permanently_fail.
  - by eapply inv_reschedule.
  - by apply inv_cleanup_execute.
  - unfold get_tasks_details in Ht. destruct (is_empty names); [by simplify_eq|].
    destruct (insert_names _ _ _) eqn:E; [|done]. simplify_eq.
    eapply inv_insert_names; [apply inv_insert_task|done..].
  - by apply (inv_same db).
  - by apply (inv_same db).
  - unfold delete_stale_workers. destruct (is_empty ws); [done|]. by apply (inv_same db).
Qed.

(** Statements that satisfy a condition on what they do, and the states any
    sequence of them leads to. *)
Definition step_with (ok : Db → Label → Prop) (db db' : Db) : Prop := ∃ l, ok db l ∧ db_step db l db'.

Definition run_with (ok : Db → Label → Prop) (db : Db) : Prop := rtc (step_with ok) empty_db db.

(** The states any sequence of statements can lead to. *)
Definition reachable (db : Db) : Prop := run_with any_statement db.

Lemma run_with_inv ok ex ret db :
  (ex = true → ∀ d l, ok d l → owned_completions d l) →
  (ret = true → ∀ d l, ok d l → spares_retired d l) → run_with ok db → inv_if ex ret db.
Proof.
  intros Ho Hs H. assert (∀ a b, rtc (step_with ok) a b → inv_if ex ret a → inv_if ex ret b) as Hind.
  { intros a b. induction 1 as [|a c b (l & Hok & Hst) _ IH]; [done|]. intros Ha. apply IH.
    eapply inv_step; [done| | |done]; auto. }
  eapply Hind; [done|apply inv_empty].
Qed.

Lemma reachable_inv db : reachable db → inv_if false false db.
Proof. by apply run_with_inv. Qed.

Lemma owned_inv db : run_with owned_completions db → inv_if true false db.
Proof. by apply run_with_inv. Qed.

Lemma spared_inv db : run_with spares_retired db → inv_if false true db.
Proof. by apply run_with_inv. Qed.

Lemma steps_weaken (ok ok' : Db → Label → Prop) db db' :
  (∀ d l, ok d l → ok' d l) → rtc (step_with ok) db db' → rtc (step_with ok') db db'.
Proof. intros H. apply rtc_subrel. intros a b (l & Hl & Hs). exists l. auto. Qed.



(** C30: The job tables stay well formed through every statement, whatever its
    arguments: each row is
    stored under its id and below the sequence, is locked exactly when it has
    an owner and is allowed at least one attempt; queues are consistent in the
    same way; a retired job exists; no two jobs share a key. *)
Theorem reachable_well_formed db :
  reachable db → rows_ok db ∧ queues_ok db ∧ retired_ok false db ∧ keys_unique db.
Proof. intros [? ? _ ? ?]%reachable_inv. done. Qed.
End steps.

(** ** A live worker taken for dead

    Completion deletes a job by id without checking who holds it. *)

Definition ok_db {E A} (r : result (Db * A) E) (db : Db) : Db :=
  match r with Ok (d, _) => d | Err _ => db end.

Lemma run_add exp_secs ok trace ln js td p local now db :
  (∀ d, ok d LOther) → run_with exp_secs ok db →
  run_with exp_secs ok (ok_db (add_jobs trace ln js td p local now db) db).
Proof.
  intros Hok H. destruct (add_jobs _ _ _ _ _ _ _ _) as [[d r]|] eqn:E; cbn; [|done].
  eapply rtc_r; [done|]. exists LOther. split; [done|]. by eapply step_add_jobs.
Qed.

Lemma run_get exp_secs ok con clock td w filt now db :
  (∀ d, ok d LOther) → run_with exp_secs ok db →
  run_with exp_secs ok (get_job_exec con clock td w filt now db).1.
Proof.
  intros Hok H. eapply rtc_r; [done|]. exists LOther. split; [done|]. eapply step_get_job, get_exec_step.
Qed.

Lemma run_recover exp_secs ok ws delay now db :
  (∀ d, ok d LOther) → run_with exp_secs ok db →
  run_with exp_secs ok (recover_dead_worker_jobs ws delay now db).1.
Proof. intros Hok H. eapply rtc_r; [done|]. exists LOther. split; [done|]. constructor. Qed.

Definition queued_job : JobToAdd :=
  mkToAdd (lit "task") (Object []) (mkSpec (Some (lit "q")) None None None None None None).

(** Three jobs of one queue; [alice] claims the first, is swept as dead, and
    claims the second. *)
Definition three_jobs : Db :=
  ok_db (add_jobs None 0 [queued_job; queued_job; queued_job] ∅ false false 0 empty_db) empty_db.
Definition claimed_one : Db :=
  (get_job_exec demo_con 10 demo_tasks (lit "alice") no_filter None three_jobs).1.
Definition swept : Db := (recover_dead_worker_jobs [lit "alice"] (60 * 10 ^ 9) 20 claimed_one).1.
Definition claimed_two : Db :=
  (get_job_exec demo_con 30 demo_tasks (lit "alice") no_filter None swept).1.

(** The job as [alice] first claimed it; she finishes it, then [bob] claims. *)
Definition alice_job : Job :=
  default (from_db_job (demo_job 1 None 0) [])
    (get_job_exec demo_con 10 demo_tasks (lit "alice") no_filter None three_jobs).2.
Definition zombie_completed : Db := complete_job alice_job (lit "alice") claimed_two.
Definition bob_claimed : Db :=
  (get_job_exec demo_con 40 demo_tasks (lit "bob") no_filter None zombie_completed).1.

Lemma claimed_two_run exp_secs ok : (∀ d, ok d LOther) → run_with exp_secs ok claimed_two.
Proof. intros H. apply run_get, run_recover, run_get, run_add; [done..|]. apply rtc_refl. Qed.

Lemma bob_claimed_reachable exp_secs : reachable exp_secs bob_claimed.
Proof.
  apply run_get; [done|]. eapply rtc_r; [by apply (claimed_two_run exp_secs any_statement)|].
  eexists. split; [done|]. apply step_complete.
Qed.

(** Who runs job [i] in which queue. *)
Definition runner (db : Db) (i : Z) : option (option str * option Z) :=
  (λ j, (locked_by j, job_queue_id j)) <$> jobs db !! i.

Lemma owns_locked_by w ids db i :
  owns w ids db → i ∈ ids → default (Some w) (locked_by <$> jobs db !! i) = Some w.
Proof. intros H Hi. destruct (jobs db !! i) as [j|] eqn:E; [|done]. exact (H i j Hi E). Qed.

(** The queue of job [i] when it is locked. *)
Definition running_queue (db : Db) (i : Z) : option Z :=
  j ← jobs db !! i; _ ← locked_at j; job_queue_id j.

Lemma exclusive_locked db q i i' :
  exclusive db → running_queue db i = Some q → running_queue db i' = Some q → i = i'.
Proof.
  intros Hex (j & Hj & (t & Ht & Hq)%bind_Some)%bind_Some (j' & Hj' & (t' & Ht' & Hq')%bind_Some)%bind_Some.
  destruct (Hex q i j) as [_ Hu]; [by split_and!; [|eexists|]|].
  symmetry. apply (Hu i' j'). by split_and!; [|eexists|].
Qed.

(** Completion does not check ownership, and this can break the queue
    discipline: when a live worker is swept as dead and goes on to claim the
    next job of the same queue, its late completion of the first job unlocks
    the queue although the second one is still running, and another worker
    can claim a third: two jobs of one queue run at once. *)
Theorem unowned_completion_breaks_exclusion :
  run_with (λ _, 0) owned_completions claimed_two ∧ id alice_job = 1 ∧
  ¬ owns (lit "alice") [id alice_job] claimed_two ∧
  runner claimed_two 2 = Some (Some (lit "alice"), Some 1) ∧
  reachable (λ _, 0) bob_claimed ∧
  runner bob_claimed 2 = Some (Some (lit "alice"), Some 1) ∧
  runner bob_claimed 3 = Some (Some (lit "bob"), Some 1) ∧ ¬ exclusive bob_claimed.
Proof.
  split_and!.
  - by apply claimed_two_run.
  - vm_compute. reflexivity.
  - intros H. apply (owns_locked_by _ _ _ 1) in H; [|vm_compute; left]. vm_compute in H. discriminate H.
  - vm_compute. reflexivity.
  - apply bob_claimed_reachable.
  - vm_compute. reflexivity.
  - vm_compute. reflexivity.
  - intros Hex. discriminate (exclusive_locked bob_claimed 1 2 3 Hex ltac:(vm_compute; reflexivity)
      ltac:(vm_compute; reflexivity)).
Qed.

(** ** A recovery hook that revives a replaced job *)

Definition keyed_job : JobToAdd :=
  mkToAdd (lit "task") (Object []) (mkSpec None None None (Some (lit "k")) None None None).

Definition add_keyed (now : Z) (db : Db) : Db :=
  ok_db (add_jobs None 0 [keyed_job] ∅ false false now db) db.

(** [alice] runs the keyed job when it is replaced; she is found dead and a
    hook answers with a new schedule and a fresh count of attempts. *)
Definition replaced : Db :=
  add_keyed 20 (get_job_exec demo_con 10 demo_tasks (lit "alice") no_filter None (add_keyed 0 empty_db)).1.
Definition replaced_job : Job :=
  default alice_job (get_job_exec demo_con 10 demo_tasks (lit "alice") no_filter None (add_keyed 0 empty_db)).2.
Definition revived : Db :=
  (apply_job_recovery (λ _, 0) (Reschedule 30 (Some 0)) replaced_job (lit "alice") WorkerCrashed 0 30 replaced).1.

Lemma revived_reachable : reachable (λ _, 0) revived.
Proof.
  cbn [revived apply_job_recovery fst]. eapply rtc_r; [eapply rtc_r|].
  - apply run_add, run_get, run_add; [done..|]. apply rtc_refl.
  - eexists. split; [done|]. apply step_return_recovery.
  - eexists. split; [done|]. apply step_recovered_schedule.
Qed.

(** The statement behind a recovery hook's reschedule looks only at the id.  A
    job that was replaced through its key while it ran is retired so that it
    never runs again; when its worker is found dead and a hook reschedules it
    with attempts, it keeps its retirement mark and is claimed all the same,
    beside the job that replaced it. *)
Theorem rescheduled_retired_job_is_claimed :
  reachable (λ _, 0) revived ∧ id replaced_job = 1 ∧ 1 ∈ retirements revived ∧
  (λ j : Job, id j) <$> (get_job_exec demo_con 40 demo_tasks (lit "bob") no_filter None revived).2 = Some 2 ∧
  runner (get_job_exec demo_con 50 demo_tasks (lit "bob") no_filter None
    (get_job_exec demo_con 40 demo_tasks (lit "bob") no_filter None revived).1).1 1
  = Some (Some (lit "bob"), None).
Proof.
  split_and!.
  - apply revived_reachable.
  - vm_compute. reflexivity.
  - apply (bool_decide_unpack _). vm_compute. exact I.
  - vm_compute. reflexivity.
  - vm_compute. reflexivity.
Qed.

(** ** Witnesses *)


Definition three_claim : Db * result (list Job) SqlError :=
  batch_get_jobs_exec demo_con 10 demo_tasks (lit "w") no_filter 5 None three_jobs.

Lemma three_jobs_run exp_secs ok : (∀ d, ok d LOther) → run_with exp_secs ok three_jobs.
Proof. intros H. apply run_add; [done|]. apply rtc_refl. Qed.


Lemma reachable_well_formed_witness : rows_ok claimed_two ∧ keys_unique claimed_two.
Proof.
  destruct (reachable_well_formed (λ _, 0) claimed_two) as (H1 & _ & _ & H2);
    [apply claimed_two_run; intros d; exact I|]. split; [exact H1|exact H2].
Defined.

End JobInvariant.
