(* ===== verification/Notify.v ===== *)
(** * Notify (crates/graphile-worker-runtime/src/notify)

    The notification primitive every waiting loop of the worker uses.  Its
    state is one 64-bit word holding a permit and three 21-bit counters.  The
    operations on the word are modelled bit by bit and shown to implement the
    same operations on a record; every operation is one successful
    compare-exchange (a failed one re-reads and tries again without effect).
    The event listeners of the [event_listener] crate only wake tasks up to
    poll again and are left out. *)

From S2P Require Import Prelude.
Open Scope Z_scope.

Module Notify.

(** ** state.rs *)

Definition NOTIFY_COUNTER_BITS : Z := (64 - 1) / 3.
Definition NOTIFY_COUNTER_MASK : Z := Z.shiftl 1 NOTIFY_COUNTER_BITS - 1.
Definition NOTIFY_PERMIT : Z := 1.
Definition NOTIFY_WAITERS_SHIFT : Z := 1.
Definition NOTIFY_PENDING_SHIFT : Z := NOTIFY_WAITERS_SHIFT + NOTIFY_COUNTER_BITS.
Definition NOTIFY_BROADCAST_SHIFT : Z := NOTIFY_PENDING_SHIFT + NOTIFY_COUNTER_BITS.
Definition NOTIFY_WAITER : Z := Z.shiftl 1 NOTIFY_WAITERS_SHIFT.
Definition NOTIFY_PENDING : Z := Z.shiftl 1 NOTIFY_PENDING_SHIFT.

(** [!x] on [usize]. *)
Definition not_usize (x : Z) : Z := Z.lxor x USIZE_MAX.

Definition notify_has_permit (state : Z) : bool := negb (Z.land state NOTIFY_PERMIT =? 0).
Definition notify_waiters (state : Z) : Z :=
  Z.land (Z.shiftr state NOTIFY_WAITERS_SHIFT) NOTIFY_COUNTER_MASK.
Definition notify_pending (state : Z) : Z :=
  Z.land (Z.shiftr state NOTIFY_PENDING_SHIFT) NOTIFY_COUNTER_MASK.
Definition notify_broadcast (state : Z) : Z :=
  Z.land (Z.shiftr state NOTIFY_BROADCAST_SHIFT) NOTIFY_COUNTER_MASK.

Definition notify_with_pending (state pending : Z) : Z :=
  let cleared := Z.land state (not_usize (Z.shiftl NOTIFY_COUNTER_MASK NOTIFY_PENDING_SHIFT)) in
  Z.lor cleared (Z.shiftl pending NOTIFY_PENDING_SHIFT).
Definition notify_with_waiters (state waiters : Z) : Z :=
  let cleared := Z.land state (not_usize (Z.shiftl NOTIFY_COUNTER_MASK NOTIFY_WAITERS_SHIFT)) in
  Z.lor cleared (Z.shiftl waiters NOTIFY_WAITERS_SHIFT).
Definition notify_with_broadcast (state broadcast : Z) : Z :=
  let cleared := Z.land state (not_usize (Z.shiftl NOTIFY_COUNTER_MASK NOTIFY_BROADCAST_SHIFT)) in
  Z.lor cleared (Z.shiftl broadcast NOTIFY_BROADCAST_SHIFT).

(** ** mod.rs, waiter.rs: the committed transition of each operation *)

Definition mark_one_notified (state : Z) : Z * bool :=
  let waiters := notify_waiters state in
  let pending := notify_pending state in
  ((if waiters >? pending then state + NOTIFY_PENDING else Z.lor state NOTIFY_PERMIT),
   waiters >? pending).

Definition mark_all_notified (state : Z) : Z :=
  let broadcast := notify_broadcast state in
  let new_broadcast := Z.land (broadcast + 1) NOTIFY_COUNTER_MASK in
  notify_with_waiters (notify_with_pending (notify_with_broadcast state new_broadcast) 0) 0.

(** The answers of [register_waiter]: ready at once, registered, or the
    panic of its assertion. *)
Inductive Registration := Ready | Registered | TooManyWaiters.

Definition register_waiter (state broadcast : Z) : Z * Registration :=
  if negb (notify_broadcast state =? broadcast) then (state, Ready)
  else if notify_has_permit state then (Z.land state (not_usize NOTIFY_PERMIT), Ready)
  else if notify_waiters state <? NOTIFY_COUNTER_MASK
  then (state + NOTIFY_WAITER, Registered)
  else (state, TooManyWaiters).

Definition try_complete (state broadcast : Z) : Z * bool :=
  let pending := notify_pending state in
  if negb (notify_broadcast state =? broadcast) then (state, true)
  else if pending =? 0 then (state, false)
  else
    let waiters := notify_waiters state in
    if waiters =? 0 then (state, true)
    else (notify_with_pending (state - NOTIFY_WAITER) (Z.min (pending - 1) (waiters - 1)), true).

(** [Drop] of an active waiter: the new state and whether another waiter is
    woken. *)
Definition drop_waiter (state broadcast : Z) : Z * bool :=
  if negb (notify_broadcast state =? broadcast) then (state, false)
  else
    let waiters := notify_waiters state in
    if waiters =? 0 then (state, false)
    else
      let pending := notify_pending state in
      let new_waiters := waiters - 1 in
      let new_pending := Z.min pending new_waiters in
      (notify_with_pending (state - NOTIFY_WAITER) new_pending,
       (pending >? 0) && (new_waiters >? 0)).

(** ** What the word stands for *)

Record NState := mkN { permit : bool; waiters : Z; pending : Z; broadcast : Z }.

Definition COUNT : Z := 2 ^ 21.

(** The invariant of the primitive: never more pending notifications than
    waiters. *)
Definition n_ok (n : NState) : Prop :=
  0 ≤ pending n ≤ waiters n ∧ waiters n < COUNT ∧ 0 ≤ broadcast n < COUNT.

Definition b2z (b : bool) : Z := if b then 1 else 0.

Definition encode (n : NState) : Z :=
  b2z (permit n) + waiters n * 2 + pending n * 2 ^ 22 + broadcast n * 2 ^ 43.

Definition a_mark_one (n : NState) : NState * bool :=
  if pending n <? waiters n
  then (mkN (permit n) (waiters n) (pending n + 1) (broadcast n), true)
  else (mkN true (waiters n) (pending n) (broadcast n), false).

Definition a_mark_all (n : NState) : NState :=
  mkN (permit n) 0 0 ((broadcast n + 1) `mod` COUNT).

Definition a_register (n : NState) (b : Z) : NState * Registration :=
  if negb (broadcast n =? b) then (n, Ready)
  else if permit n then (mkN false (waiters n) (pending n) (broadcast n), Ready)
  else if waiters n <? COUNT - 1
  then (mkN false (waiters n + 1) (pending n) (broadcast n), Registered)
  else (n, TooManyWaiters).

Definition a_complete (n : NState) (b : Z) : NState * bool :=
  if negb (broadcast n =? b) then (n, true)
  else if pending n =? 0 then (n, false)
  else (mkN (permit n) (waiters n - 1) (pending n - 1) (broadcast n), true).

Definition a_drop (n : NState) (b : Z) : NState * bool :=
  if negb (broadcast n =? b) || (waiters n =? 0) then (n, false)
  else (mkN (permit n) (waiters n - 1) (Z.min (pending n) (waiters n - 1)) (broadcast n),
        (0 <? pending n) && (1 <? waiters n)).

(** ** Bit fields *)

Lemma field_get s k n : 0 ≤ k → 0 ≤ n → Z.land (Z.shiftr s k) (Z.ones n) = (s / 2 ^ k) `mod` 2 ^ n.
Proof. intros. rewrite Z.land_ones, Z.shiftr_div_pow2 by lia. done. Qed.

Lemma land_not_usize s m :
  0 ≤ s ≤ USIZE_MAX → 0 ≤ m → Z.land s (not_usize m) = Z.ldiff s m.
Proof.
  intros Hs Hm. apply Z.bits_inj'. intros i Hi. unfold not_usize.
  rewrite Z.land_spec, Z.lxor_spec, Z.ldiff_spec.
  change USIZE_MAX with (Z.ones 64). rewrite Z.testbit_ones_nonneg by lia.
  destruct (Z.ltb_spec i 64); [by destruct (Z.testbit m i)|].
  assert (Z.testbit s i = false) as ->; [|done].
  destruct (decide (s = 0)) as [->|]; [apply Z.testbit_0_l|].
  apply Z.bits_above_log2; [lia|]. apply Z.lt_le_trans with 64; [|lia].
  apply Z.log2_lt_pow2; unfold USIZE_MAX in Hs; lia.
Qed.

(** Clearing a field and writing another value into it. *)
Lemma field_set s v k n :
  0 ≤ s → 0 ≤ k → 0 ≤ n → 0 ≤ v < 2 ^ n →
  Z.lor (Z.ldiff s (Z.shiftl (Z.ones n) k)) (Z.shiftl v k)
  = s - (s / 2 ^ k) `mod` 2 ^ n * 2 ^ k + v * 2 ^ k.
Proof.
  intros Hs Hk Hn Hv. set (m := Z.shiftl (Z.ones n) k).
  assert (Hin : ∀ i, 0 ≤ i → Z.testbit m i = (k <=? i) && (i - k <? n)).
  { intros i Hi. unfold m. destruct (Z.leb_spec k i).
    - rewrite Z.shiftl_spec, Z.testbit_ones_nonneg by lia. done.
    - by rewrite Z.shiftl_spec_low by lia. }
  assert (Hland : Z.land s m = (s / 2 ^ k) `mod` 2 ^ n * 2 ^ k).
  { rewrite <- field_get, <- Z.shiftl_mul_pow2 by lia. apply Z.bits_inj'. intros i Hi.
    rewrite Z.land_spec, Hin by done. destruct (Z.leb_spec k i).
    - rewrite Z.shiftl_spec, Z.land_spec, Z.shiftr_spec, Z.testbit_ones_nonneg by lia.
      by replace (i - k + k) with i by lia.
    - rewrite Z.shiftl_spec_low by lia. apply andb_false_r. }
  assert (Hdiff : Z.ldiff s m = s - Z.land s m).
  { rewrite Z.sub_nocarry_ldiff.
    - apply Z.bits_inj'. intros i Hi. rewrite !Z.ldiff_spec, Z.land_spec. by destruct (Z.testbit s i).
    - apply Z.bits_inj'. intros i Hi. rewrite Z.ldiff_spec, Z.land_spec, Z.bits_0.
      by destruct (Z.testbit s i), (Z.testbit m i). }
  assert (Hdis : Z.land (Z.ldiff s m) (Z.shiftl v k) = 0).
  { apply Z.bits_inj'. intros i Hi. rewrite Z.land_spec, Z.ldiff_spec, Z.bits_0, Hin by done.
    destruct (Z.leb_spec k i).
    - rewrite Z.shiftl_spec by lia. destruct (Z.ltb_spec (i - k) n); [by rewrite andb_false_r|].
      assert (Z.testbit v (i - k) = false) as ->; [|by rewrite andb_false_r].
      destruct (decide (v = 0)) as [->|]; [apply Z.testbit_0_l|].
      apply Z.bits_above_log2; [lia|]. apply Z.lt_le_trans with n; [|lia].
      apply Z.log2_lt_pow2; lia.
    - rewrite Z.shiftl_spec_low by lia. apply andb_false_r. }
  rewrite <- Z.lxor_lor, <- Z.add_nocarry_lxor by done.
  rewrite Hdiff, Hland, Z.shiftl_mul_pow2 by lia. lia.
Qed.

(** ** Reading the word *)

Lemma encode_range n : n_ok n → 0 ≤ encode n ≤ USIZE_MAX.
Proof.
  unfold n_ok, encode, b2z, COUNT, USIZE_MAX. intros. destruct (permit n); lia.
Qed.

Lemma mask_ones : NOTIFY_COUNTER_MASK = Z.ones 21.
Proof. done. Qed.

Ltac div_mod_field :=
  unfold encode, b2z, n_ok, COUNT in *;
  match goal with
  | |- (?a / ?b) `mod` ?c = ?f =>
      let q := fresh in
      pose proof (Z.div_mod a b ltac:(lia)); pose proof (Z.mod_pos_bound a b ltac:(lia));
      pose proof (Z.div_mod (a / b) c ltac:(lia)); pose proof (Z.mod_pos_bound (a / b) c ltac:(lia))
  end.

Lemma encode_waiters n : n_ok n → (encode n / 2 ^ 1) `mod` 2 ^ 21 = waiters n.
Proof. intros. div_mod_field. destruct (permit n); lia. Qed.

Lemma encode_pending n : n_ok n → (encode n / 2 ^ 22) `mod` 2 ^ 21 = pending n.
Proof. intros. div_mod_field. destruct (permit n); lia. Qed.

Lemma encode_broadcast n : n_ok n → (encode n / 2 ^ 43) `mod` 2 ^ 21 = broadcast n.
Proof. intros. div_mod_field. destruct (permit n); lia. Qed.

Lemma get_waiters n : n_ok n → notify_waiters (encode n) = waiters n.
Proof.
  intros. unfold notify_waiters. rewrite mask_ones, field_get by done. by apply encode_waiters.
Qed.

Lemma get_pending n : n_ok n → notify_pending (encode n) = pending n.
Proof.
  intros. unfold notify_pending. rewrite mask_ones.
  change NOTIFY_PENDING_SHIFT with 22. rewrite field_get by lia. by apply encode_pending.
Qed.

Lemma get_broadcast n : n_ok n → notify_broadcast (encode n) = broadcast n.
Proof.
  intros. unfold notify_broadcast. rewrite mask_ones.
  change NOTIFY_BROADCAST_SHIFT with 43. rewrite field_get by lia. by apply encode_broadcast.
Qed.

Lemma land_permit n : n_ok n → Z.land (encode n) 1 = b2z (permit n).
Proof.
  intros Hn. change 1 with (Z.ones 1). rewrite Z.land_ones by lia.
  unfold encode, n_ok, COUNT, b2z in *.
  pose proof (Z.div_mod (encode n) 2). destruct (permit n).
  - symmetry. apply Z.mod_unique with (waiters n + pending n * 2 ^ 21 + broadcast n * 2 ^ 42); lia.
  - symmetry. apply Z.mod_unique with (waiters n + pending n * 2 ^ 21 + broadcast n * 2 ^ 42); lia.
Qed.

Lemma get_permit n : n_ok n → notify_has_permit (encode n) = permit n.
Proof.
  intros. unfold notify_has_permit, NOTIFY_PERMIT. rewrite land_permit by done.
  by destruct (permit n).
Qed.

(** ** Writing the word *)

Lemma not_usize_field s k v :
  0 ≤ s ≤ USIZE_MAX → 0 ≤ k → 0 ≤ v < 2 ^ 21 →
  Z.lor (Z.land s (not_usize (Z.shiftl NOTIFY_COUNTER_MASK k))) (Z.shiftl v k)
  = s - (s / 2 ^ k) `mod` 2 ^ 21 * 2 ^ k + v * 2 ^ k.
Proof.
  intros Hs Hk Hv. rewrite land_not_usize; [|done|].
  - rewrite mask_ones. apply field_set; lia.
  - rewrite mask_ones. apply Z.shiftl_nonneg. done.
Qed.

Lemma set_pending n v :
  n_ok n → 0 ≤ v < COUNT →
  notify_with_pending (encode n) v = encode (mkN (permit n) (waiters n) v (broadcast n)).
Proof.
  intros Hn Hv. unfold notify_with_pending. change NOTIFY_PENDING_SHIFT with 22.
  rewrite not_usize_field by (auto using encode_range || done || lia).
  rewrite encode_pending by done. unfold encode. cbn [permit waiters pending broadcast]. lia.
Qed.

Lemma set_waiters n v :
  n_ok n → 0 ≤ v < COUNT →
  notify_with_waiters (encode n) v = encode (mkN (permit n) v (pending n) (broadcast n)).
Proof.
  intros Hn Hv. unfold notify_with_waiters. change NOTIFY_WAITERS_SHIFT with 1.
  rewrite not_usize_field by (auto using encode_range || done || lia).
  rewrite encode_waiters by done. unfold encode. cbn [permit waiters pending broadcast]. lia.
Qed.

Lemma set_broadcast n v :
  n_ok n → 0 ≤ v < COUNT →
  notify_with_broadcast (encode n) v = encode (mkN (permit n) (waiters n) (pending n) v).
Proof.
  intros Hn Hv. unfold notify_with_broadcast. change NOTIFY_BROADCAST_SHIFT with 43.
  rewrite not_usize_field by (auto using encode_range || done || lia).
  rewrite encode_broadcast by done. unfold encode. cbn [permit waiters pending broadcast]. lia.
Qed.

Lemma set_permit n : n_ok n →
  Z.lor (encode n) NOTIFY_PERMIT = encode (mkN true (waiters n) (pending n) (broadcast n)).
Proof.
  intros Hn. unfold NOTIFY_PERMIT. destruct (permit n) eqn:E.
  - transitivity (encode n); [|unfold encode; by rewrite E].
    apply Z.bits_inj'. intros i Hi. rewrite Z.lor_spec.
    destruct (Z.testbit 1 i) eqn:Ei; [|apply orb_false_r].
    assert (i = 0) as -> by (destruct (decide (i = 0)); [done|]; change 1 with (Z.ones 1) in Ei;
      rewrite Z.testbit_ones_nonneg in Ei by lia; apply Z.ltb_lt in Ei; lia).
    assert (Z.testbit (Z.land (encode n) 1) 0 = true) as H by (by rewrite land_permit, E).
    rewrite Z.land_spec in H. apply andb_true_iff in H as [-> _]. done.
  - rewrite <- Z.lxor_lor, <- Z.add_nocarry_lxor by (by rewrite land_permit, E).
    unfold encode. rewrite E. cbn [permit waiters pending broadcast b2z]. lia.
Qed.

Lemma clear_permit n : n_ok n → permit n = true →
  Z.land (encode n) (not_usize NOTIFY_PERMIT) = encode (mkN false (waiters n) (pending n) (broadcast n)).
Proof.
  intros Hn E. rewrite land_not_usize by (auto using encode_range || done).
  assert (Z.ldiff (encode n) NOTIFY_PERMIT = encode n - Z.land (encode n) NOTIFY_PERMIT) as ->.
  { rewrite Z.sub_nocarry_ldiff.
    - apply Z.bits_inj'. intros i Hi. rewrite !Z.ldiff_spec, Z.land_spec. by destruct (Z.testbit (encode n) i).
    - apply Z.bits_inj'. intros i Hi. rewrite Z.ldiff_spec, Z.land_spec, Z.bits_0.
      by destruct (Z.testbit (encode n) i), (Z.testbit NOTIFY_PERMIT i). }
  unfold NOTIFY_PERMIT. rewrite land_permit by done. unfold encode. rewrite E.
  cbn [permit waiters pending broadcast b2z]. lia.
Qed.

(** ** Refinement *)

Lemma encode_eq n m : permit n = permit m → waiters n = waiters m → pending n = pending m →
  broadcast n = broadcast m → encode n = encode m.
Proof. unfold encode. intros -> -> -> ->. done. Qed.

Lemma mark_one_refines n : n_ok n →
  mark_one_notified (encode n) = (encode (a_mark_one n).1, (a_mark_one n).2) ∧ n_ok (a_mark_one n).1.
Proof.
  intros Hn. unfold mark_one_notified, a_mark_one. rewrite get_waiters, get_pending by done.
  destruct (Z.gtb_spec (waiters n) (pending n)), (Z.ltb_spec (pending n) (waiters n)); try lia; cbn [fst snd].
  - split; [f_equal; unfold encode; cbn; change NOTIFY_PENDING with (2 ^ 22); lia|].
    unfold n_ok in *; cbn; lia.
  - rewrite set_permit by done. split; [done|]. done.
Qed.

Lemma mark_all_refines n : n_ok n →
  mark_all_notified (encode n) = encode (a_mark_all n) ∧ n_ok (a_mark_all n).
Proof.
  intros Hn. unfold mark_all_notified. rewrite get_broadcast by done.
  rewrite mask_ones, Z.land_ones by lia. change (2 ^ 21) with COUNT.
  pose proof (Z.mod_pos_bound (broadcast n + 1) COUNT ltac:(done)) as Hb.
  assert (n_ok (mkN (permit n) (waiters n) (pending n) ((broadcast n + 1) `mod` COUNT))) as H1
    by (unfold n_ok in *; cbn; lia).
  assert (n_ok (mkN (permit n) (waiters n) 0 ((broadcast n + 1) `mod` COUNT))) as H2
    by (unfold n_ok in *; cbn; lia).
  rewrite set_broadcast by done. rewrite set_pending by (done || unfold COUNT; lia).
  cbn [permit waiters pending broadcast]. rewrite set_waiters by (done || unfold COUNT; lia).
  split; [done|]. unfold n_ok in *; cbn; lia.
Qed.

Lemma register_refines n b : n_ok n →
  register_waiter (encode n) b = (encode (a_register n b).1, (a_register n b).2) ∧ n_ok (a_register n b).1.
Proof.
  intros Hn. unfold register_waiter, a_register. rewrite get_broadcast, get_permit, get_waiters by done.
  destruct (broadcast n =? b); cbn [negb]; [|done].
  destruct (permit n) eqn:E; [by rewrite clear_permit|].
  change NOTIFY_COUNTER_MASK with (COUNT - 1).
  destruct (Z.ltb_spec (waiters n) (COUNT - 1)); [|done]. cbn [fst snd]. split.
  - f_equal. unfold encode. rewrite E. cbn. change NOTIFY_WAITER with 2. lia.
  - unfold n_ok in *; cbn; lia.
Qed.

Lemma less_waiter n : n_ok n → pending n < waiters n →
  encode n - NOTIFY_WAITER = encode (mkN (permit n) (waiters n - 1) (pending n) (broadcast n)).
Proof. intros. change NOTIFY_WAITER with 2. unfold encode. cbn [permit waiters pending broadcast]. lia. Qed.

(** The waiter count is lowered before the pending field is rewritten, so the
    word may have one more pending than waiters in between. *)
Lemma set_pending_less_waiter n v :
  n_ok n → 0 < waiters n → 0 ≤ v < COUNT →
  notify_with_pending (encode n - NOTIFY_WAITER) v
  = encode (mkN (permit n) (waiters n - 1) v (broadcast n)).
Proof.
  intros Hn Hw Hv. unfold notify_with_pending. change NOTIFY_PENDING_SHIFT with 22.
  change NOTIFY_WAITER with 2. pose proof (encode_range n Hn).
  rewrite not_usize_field; [|unfold encode, n_ok, b2z, COUNT in *; destruct (permit n); lia|lia|done].
  assert (((encode n - 2) / 2 ^ 22) `mod` 2 ^ 21 = pending n) as ->.
  { div_mod_field. destruct (permit n); lia. }
  unfold encode. cbn [permit waiters pending broadcast]. lia.
Qed.

Lemma complete_refines n b : n_ok n →
  try_complete (encode n) b = (encode (a_complete n b).1, (a_complete n b).2) ∧ n_ok (a_complete n b).1.
Proof.
  intros Hn. unfold try_complete, a_complete. rewrite get_broadcast, get_pending, get_waiters by done.
  destruct (broadcast n =? b); cbn [negb]; [|done].
  destruct (Z.eqb_spec (pending n) 0); [done|].
  destruct (Z.eqb_spec (waiters n) 0); [unfold n_ok in Hn; lia|].
  rewrite set_pending_less_waiter by (unfold n_ok, COUNT in *; lia). cbn [fst snd]. split.
  - f_equal. apply encode_eq; try done. cbn. unfold n_ok in Hn. lia.
  - unfold n_ok in *; cbn; lia.
Qed.

Lemma drop_refines n b : n_ok n →
  drop_waiter (encode n) b = (encode (a_drop n b).1, (a_drop n b).2) ∧ n_ok (a_drop n b).1.
Proof.
  intros Hn. unfold drop_waiter, a_drop. rewrite get_broadcast, get_pending, get_waiters by done.
  destruct (broadcast n =? b); cbn [negb orb]; [|done].
  destruct (Z.eqb_spec (waiters n) 0); [done|].
  rewrite set_pending_less_waiter by (unfold n_ok, COUNT in *; lia). cbn [fst snd]. split.
  - f_equal. f_equal; unfold n_ok in Hn;
      [destruct (Z.gtb_spec (pending n) 0), (Z.ltb_spec 0 (pending n)); lia || done
      |destruct (Z.gtb_spec (waiters n - 1) 0), (Z.ltb_spec 1 (waiters n)); lia || done].
  - unfold n_ok in *; cbn; lia.
Qed.

(** C35: The packed word implements the record: from any state with no more
    pending notifications than waiters, each of the five atomic operations
    maps the encoding of the record to the encoding of the updated record,
    with the same answer, and keeps that invariant: no counter ever carries
    into its neighbour. *)
Theorem packed_state_refines n b :
  n_ok n →
  (mark_one_notified (encode n) = (encode (a_mark_one n).1, (a_mark_one n).2) ∧ n_ok (a_mark_one n).1) ∧
  (mark_all_notified (encode n) = encode (a_mark_all n) ∧ n_ok (a_mark_all n)) ∧
  (register_waiter (encode n) b = (encode (a_register n b).1, (a_register n b).2)
     ∧ n_ok (a_register n b).1) ∧
  (try_complete (encode n) b = (encode (a_complete n b).1, (a_complete n b).2)
     ∧ n_ok (a_complete n b).1) ∧
  (drop_waiter (encode n) b = (encode (a_drop n b).1, (a_drop n b).2) ∧ n_ok (a_drop n b).1).
Proof.
  intros Hn. eauto 10 using mark_one_refines, mark_all_refines, register_refines,
    complete_refines, drop_refines.
Qed.

(** ** Accounting of notifications *)

(** What [notify_one] calls have been stored and not yet consumed. *)
Definition tokens (n : NState) : Z := b2z (permit n) + pending n.

(** Notifications are neither invented nor, apart from cancellation, lost.
    [notify_one] stores one unless the permit is already set with every
    waiter notified; a waiter completes at once exactly by consuming the
    permit or because a broadcast happened since it was created; a
    registered waiter completes exactly when a notification is pending,
    which it consumes, or after a broadcast; a broadcast releases every
    waiter and keeps the permit. *)
Theorem notifications_accounted n b :
  n_ok n →
  (tokens (a_mark_one n).1 = tokens n + 1 ∨
     (a_mark_one n).1 = n ∧ permit n = true ∧ pending n = waiters n) ∧
  ((a_register n b).2 = Ready ↔ broadcast n ≠ b ∨ permit n = true) ∧
  (broadcast n = b → (a_register n b).2 = Ready → tokens (a_register n b).1 = tokens n - 1) ∧
  ((a_complete n b).2 = true ↔ broadcast n ≠ b ∨ 0 < pending n) ∧
  (broadcast n = b → (a_complete n b).2 = true → tokens (a_complete n b).1 = tokens n - 1) ∧
  (broadcast (a_mark_all n) ≠ broadcast n ∧ waiters (a_mark_all n) = 0 ∧ permit (a_mark_all n) = permit n).
Proof.
  intros Hn. unfold tokens, a_mark_one, a_register, a_complete, a_mark_all, n_ok, COUNT in *. split_and!.
  - destruct (Z.ltb_spec (pending n) (waiters n)); cbn; [left; lia|].
    destruct n as [[] w p bc]; cbn in *; [right|left; lia]. split_and!; [done..|lia].
  - destruct (Z.eqb_spec (broadcast n) b), (permit n); cbn; try tauto.
    destruct (waiters n <? 2 ^ 21 - 1); cbn; naive_solver.
  - intros <-. rewrite Z.eqb_refl. cbn. destruct (permit n); cbn; [lia|].
    by destruct (waiters n <? 2 ^ 21 - 1).
  - destruct (Z.eqb_spec (broadcast n) b), (Z.eqb_spec (pending n) 0); cbn; naive_solver lia.
  - intros <-. rewrite Z.eqb_refl. cbn. destruct (Z.eqb_spec (pending n) 0); cbn; [done|lia].
  - cbn. destruct (decide (broadcast n = 2 ^ 21 - 1)) as [E|E].
    + rewrite E. vm_compute. done.
    + rewrite Z.mod_small by lia. lia.
  - done.
  - done.
Qed.

(** A notification given to a waiter that is then cancelled is lost when it
    is the only waiter: the primitive neither keeps it as a permit nor wakes
    anyone, so a later wait blocks although [notify_one] was called. *)
Theorem cancelled_waiter_loses_notification n :
  n_ok n → permit n = false → waiters n = 1 → pending n = 0 →
  let n1 := (a_mark_one n).1 in
  let '(n2, wake) := a_drop n1 (broadcast n) in
  tokens n1 = 1 ∧ tokens n2 = 0 ∧ wake = false ∧ (a_register n2 (broadcast n)).2 = Registered.
Proof.
  intros Hn Hp Hw Hq. destruct n as [pm w p b]. cbn in *. subst. unfold a_mark_one; cbn.
  unfold a_drop; cbn. rewrite Z.eqb_refl; cbn. unfold a_register; cbn. rewrite Z.eqb_refl. done.
Qed.

(** ** Witnesses *)

Definition n_demo : NState := mkN false 1 0 5.

Lemma packed_state_refines_witness : mark_one_notified (encode n_demo) = (encode (mkN false 1 1 5), true).
Proof.
  assert (n_ok n_demo) as H by (unfold n_ok, COUNT; cbn; lia).
  destruct (packed_state_refines n_demo 5 H) as ((E & _) & _). exact E.
Defined.

Lemma notifications_accounted_witness : tokens (a_mark_one n_demo).1 = tokens n_demo + 1.
Proof.
  assert (n_ok n_demo) as H by (unfold n_ok, COUNT; cbn; lia).
  destruct (notifications_accounted n_demo 5 H) as ([E|(_ & E & _)] & _); [exact E|discriminate E].
Defined.

Lemma cancelled_waiter_loses_notification_witness : tokens (a_drop (a_mark_one n_demo).1 5).1 = 0.
Proof.
  assert (n_ok n_demo) as H by (unfold n_ok, COUNT; cbn; lia).
  destruct (cancelled_waiter_loses_notification n_demo H eq_refl eq_refl eq_refl) as (_ & E & _).
  exact E.
Defined.

End Notify.
