(* ===== verification/QueueWakeup.v ===== *)
(** * Queue release hints (src/queue_wakeup.rs)

    A counter of released queues with a [Notify] beside it: any number of
    wakers, one fetch loop that waits.  The counter update and the
    notification of [wake] are separate atomic steps, as are the wait and the
    swap of [next], so the model interleaves them freely.  The notify
    primitive is the abstract state of Notify.v, which its packed word
    refines. *)

From S2P Require Import Prelude Notify.
Open Scope Z_scope.

Module QueueWakeup.
Import Notify.

(** Where the waiting loop of [next] is: before the first poll of
    [notified()], registered as a waiter, or past the wait with the swap
    still to do. *)
Inductive Consumer := Polling | Waiting | Woken.

(** [mid_wake] counts the [wake] calls between their two steps; [hinted] and
    [delivered] record what was passed to [wake] and what [next] returned. *)
Record QueueWakeup := mkWakeup {
  notify : NState;
  count : Z;
  consumer : Consumer;
  mid_wake : nat;
  hinted : Z;
  delivered : Z
}.

Definition initial : QueueWakeup := mkWakeup (mkN false 0 0 0) 0 Polling 0 0 0.

(** [wake], up to and including the counter update; zero is a no-op. *)
Definition wake_count (n : Z) (s : QueueWakeup) : QueueWakeup :=
  if n =? 0 then s
  else mkWakeup (notify s) (saturating_add (count s) n) (consumer s) (S (mid_wake s))
         (hinted s + n) (delivered s).

(** The [notify_one] that ends a [wake] under way. *)
Definition wake_notify (s : QueueWakeup) : option QueueWakeup :=
  match mid_wake s with
  | O => None
  | S m => Some (mkWakeup (a_mark_one (notify s)).1 (count s) (consumer s) m (hinted s) (delivered s))
  end.

(** One step of the loop of [next]; [None] when it stays asleep.  A returned
    count is recorded and the caller asks for the next one. *)
Definition next_step (s : QueueWakeup) : option QueueWakeup :=
  match consumer s with
  | Polling =>
      match a_register (notify s) (broadcast (notify s)) with
      | (n, Ready) => Some (mkWakeup n (count s) Woken (mid_wake s) (hinted s) (delivered s))
      | (n, Registered) => Some (mkWakeup n (count s) Waiting (mid_wake s) (hinted s) (delivered s))
      | (_, TooManyWaiters) => None
      end
  | Waiting =>
      match a_complete (notify s) (broadcast (notify s)) with
      | (n, true) => Some (mkWakeup n (count s) Woken (mid_wake s) (hinted s) (delivered s))
      | (_, false) => None
      end
  | Woken =>
      Some (mkWakeup (notify s) 0 Polling (mid_wake s) (hinted s) (delivered s + count s))
  end.

Inductive step : QueueWakeup → QueueWakeup → Prop :=
| step_wake n s : 0 ≤ n ≤ USIZE_MAX → step s (wake_count n s)
| step_notify s s' : wake_notify s = Some s' → step s s'
| step_next s s' : next_step s = Some s' → step s s'.

Definition reachable : QueueWakeup → Prop := rtc step initial.

(** ** Invariant *)

(** Hints that wait for delivery keep a token, a notification under way or a
    woken consumer; the counter loses hints only by saturating. *)
Record inv (s : QueueWakeup) : Prop := {
  inv_ok : n_ok (notify s);
  inv_waiters : waiters (notify s) = (match consumer s with Waiting => 1 | _ => 0 end);
  inv_permit : consumer s = Waiting → permit (notify s) = true → 0 < pending (notify s);
  inv_hint : 0 < count s → 0 < tokens (notify s) ∨ (0 < mid_wake s)%nat ∨ consumer s = Woken;
  inv_count : 0 ≤ count s ∧ 0 ≤ delivered s;
  inv_total : delivered s + count s ≤ hinted s;
  inv_exact : hinted s ≤ USIZE_MAX → delivered s + count s = hinted s
}.

Lemma tokens_nonneg n : n_ok n → 0 ≤ tokens n.
Proof. unfold n_ok, tokens, b2z. destruct (permit n); lia. Qed.

Lemma mark_one_tokens n : n_ok n → 0 < tokens (a_mark_one n).1.
Proof.
  unfold n_ok, a_mark_one, tokens. intros H.
  destruct (Z.ltb_spec (pending n) (waiters n)); cbn; [|lia].
  unfold b2z. destruct (permit n); lia.
Qed.

Lemma mark_one_ok n : n_ok n → n_ok (a_mark_one n).1 ∧ waiters (a_mark_one n).1 = waiters n.
Proof.
  unfold n_ok, a_mark_one. intros H.
  destruct (Z.ltb_spec (pending n) (waiters n)); cbn; lia.
Qed.

Lemma wake_count_inv n s : 0 ≤ n ≤ USIZE_MAX → inv s → inv (wake_count n s).
Proof.
  unfold wake_count. intros Hn [Hok Hw Hp Hh Hc Ht He]. destruct (Z.eqb_spec n 0); [by constructor|].
  unfold saturating_add in *. constructor; cbn; try done; try lia.
Qed.

Lemma wake_notify_inv s s' : wake_notify s = Some s' → inv s → inv s'.
Proof.
  unfold wake_notify. destruct (mid_wake s) as [|m]; intros [= <-] [Hok Hw Hp Hh Hc Ht He].
  destruct (mark_one_ok _ Hok) as [Hok' Hw'].
  constructor; cbn; try done; [congruence| |intros _; left; by apply mark_one_tokens].
  intros Hk. rewrite Hk in Hw. unfold a_mark_one, n_ok in *.
  destruct (Z.ltb_spec (pending (notify s)) (waiters (notify s))); cbn; intros; lia.
Qed.

Lemma next_step_inv s s' : next_step s = Some s' → inv s → inv s'.
Proof.
  unfold next_step. intros E [Hok Hw Hp Hh Hc Ht He].
  destruct s as [[pm w p b] c k m h d]; cbn in *. unfold n_ok, a_register, a_complete, tokens in *.
  rewrite Z.eqb_refl in E. cbn in *. destruct k; cbn in *; subst w.
  - destruct pm; cbn in E; injection E as <-; constructor; cbn; unfold n_ok, tokens, COUNT in *; cbn in *; try lia; try done.
    + by auto.
    + intros. destruct (Hh ltac:(done)) as [?|[?|?]]; [lia|tauto|done].
  - destruct (Z.eqb_spec p 0); cbn in E; [done|]. injection E as <-.
    constructor; cbn; unfold n_ok, tokens, COUNT in *; cbn in *; try lia; try done. by auto.
  - injection E as <-. constructor; cbn; unfold n_ok, tokens, COUNT in *; cbn in *; try lia; done.
Qed.

Lemma wakeup_reachable_inv s : reachable s → inv s.
Proof.
  unfold reachable. apply (rtc_ind_r inv initial).
  - constructor; cbn; unfold n_ok, COUNT, tokens; cbn; lia.
  - intros s1 s2 _ [n s' Hn|s' s'' E|s' s'' E] IH.
    + by apply wake_count_inv.
    + by eapply wake_notify_inv.
    + by eapply next_step_inv.
Qed.

(** No release hint is lost or duplicated, whatever the interleaving of
    wakers and the fetch loop.  What [next] has returned plus the counter is
    what was passed to [wake], exactly as long as that total fits a [usize]
    and never more; and once the [wake] calls under way have ended, the fetch
    loop alone delivers every counted hint within two of its steps. *)
Theorem hints_are_delivered s :
  reachable s →
  delivered s + count s ≤ hinted s ∧
  (hinted s ≤ USIZE_MAX → delivered s + count s = hinted s) ∧
  (mid_wake s = 0%nat → 0 < count s →
    ∃ s1, next_step s = Some s1 ∧
      (delivered s1 = delivered s + count s ∧ count s1 = 0 ∨
       ∃ s2, next_step s1 = Some s2 ∧ delivered s2 = delivered s + count s ∧ count s2 = 0)).
Proof.
  intros [Hok Hw Hp Hh Hc Ht He]%wakeup_reachable_inv. split_and!; [done..|]. intros Hm Hpos.
  destruct (Hh Hpos) as [Htok|[?|Hk]]; [|lia|].
  - destruct s as [[pm w p b] c k m h d]; cbn in *. unfold next_step; cbn.
    unfold n_ok, tokens, a_register, a_complete in *. rewrite Z.eqb_refl. cbn in *.
    destruct k; cbn in *; subst w.
    + destruct pm; cbn in *; [|lia]. eexists. split; [done|]. right. eexists. split; [done|done].
    + destruct (Z.eqb_spec p 0); cbn.
      * subst p. destruct pm; cbn in *; [specialize (Hp eq_refl eq_refl)|]; lia.
      * eexists. split; [done|]. right. eexists. split; [done|done].
    + eexists. split; [done|]. by left.
  - unfold next_step. rewrite Hk. eexists. split; [done|]. by left.
Qed.

(** ** Witness *)

(** The loop went to sleep, then two wakers came before it ran again. *)
Definition demo : QueueWakeup := mkWakeup (mkN true 1 1 0) 5 Waiting 0 5 0.

Lemma demo_reachable : reachable demo.
Proof.
  unfold reachable.
  apply (rtc_l _ _ (mkWakeup (mkN false 1 0 0) 0 Waiting 0 0 0)); [by apply step_next|].
  apply (rtc_l _ _ (wake_count 2 (mkWakeup (mkN false 1 0 0) 0 Waiting 0 0 0)));
    [apply step_wake; unfold USIZE_MAX; lia|].
  apply (rtc_l _ _ (mkWakeup (mkN false 1 1 0) 2 Waiting 0 2 0)); [by apply step_notify|].
  apply (rtc_l _ _ (wake_count 3 (mkWakeup (mkN false 1 1 0) 2 Waiting 0 2 0)));
    [apply step_wake; unfold USIZE_MAX; lia|].
  apply (rtc_once). by apply step_notify.
Qed.

Lemma hints_are_delivered_witness : delivered demo + count demo ≤ hinted demo.
Proof. apply (hints_are_delivered demo demo_reachable). Defined.

End QueueWakeup.
