(* ===== verification/BatcherTask.v ===== *)
(** * The batcher task (src/batcher/shared.rs)

    The background task both batchers run: it collects the requests of a
    bounded channel until a delay has passed, the channel is disconnected or
    shutdown is signalled, and hands each collected batch to a processor.
    Senders run concurrently with every step of the task, also during the
    final drain. *)

From S2P Require Import Prelude.
Open Scope nat_scope.

Module BatcherTask.

Section task.
Context {T : Type}.

(** batcher/mod.rs *)
Definition BATCHER_CHANNEL_CAPACITY : nat := 4096.

(** Where [run_batcher_task] is: at the outer [recv_or_shutdown], in the inner
    collecting loop, in the loop of [drain_and_flush], or returned. *)
Inductive Phase := AwaitFirst | Collecting | Draining | Finished.

(** The channel ([buffer], [closed]), the signal, the task's [batch] and its
    phase, and the batches flushed so far.  [accepted] and [rejected] record
    the outcome of each [send]. *)
Record Task := mkTask {
  buffer : list T;
  closed : bool;
  shutdown : bool;
  batch : list T;
  phase : Phase;
  flushed : list (list T);
  accepted : list T;
  rejected : list T
}.

Definition initial : Task := mkTask [] false false [] AwaitFirst [] [] [].

(** [tx.send]: waits while the channel is full, fails once it is closed and
    gives the request back to the caller. *)
Definition send (x : T) (s : Task) : option Task :=
  if closed s then
    Some (mkTask (buffer s) true (shutdown s) (batch s) (phase s) (flushed s)
            (accepted s) (rejected s ++ [x]))
  else if bool_decide (length (buffer s) < BATCHER_CHANNEL_CAPACITY) then
    Some (mkTask (buffer s ++ [x]) false (shutdown s) (batch s) (phase s) (flushed s)
            (accepted s ++ [x]) (rejected s))
  else None.

(** The last sender is dropped. *)
Definition disconnect (s : Task) : Task :=
  mkTask (buffer s) true (shutdown s) (batch s) (phase s) (flushed s) (accepted s) (rejected s).

Definition signal (s : Task) : Task :=
  mkTask (buffer s) (closed s) true (batch s) (phase s) (flushed s) (accepted s) (rejected s).

(** [processor.flush(&batch).await] and the phase that follows; the batch is
    cleared or dropped. *)
Definition flush_to (p : Phase) (s : Task) : Task :=
  mkTask (buffer s) (closed s) (shutdown s) [] p (flushed s ++ [batch s]) (accepted s) (rejected s).

(** Takes the first buffered request into the batch. *)
Definition push (p : Phase) (x : T) (rest : list T) (s : Task) : Task :=
  mkTask rest (closed s) (shutdown s) (batch s ++ [x]) p (flushed s) (accepted s) (rejected s).

(** The [recv] branch of either [select_biased!], which the shutdown branch
    precedes: a request, or disconnection once the channel is closed and
    empty. *)
Definition recv_branch (s : Task) : option Task :=
  match buffer s with
  | x :: rest => Some (push Collecting x rest s)
  | [] => if closed s then Some (flush_to Finished s) else None
  end.

(** One step of the task; [timer] says that the delay has elapsed. *)
Definition task_step (timer : bool) (s : Task) : option Task :=
  match phase s with
  | AwaitFirst =>
      if shutdown s
      then Some (mkTask (buffer s) true true (batch s) Draining (flushed s) (accepted s) (rejected s))
      else recv_branch s
  | Collecting =>
      if shutdown s
      then Some (mkTask (buffer s) true true (batch s) Draining (flushed s) (accepted s) (rejected s))
      else if timer then Some (flush_to AwaitFirst s)
      else recv_branch s
  | Draining =>
      match buffer s with
      | x :: rest => Some (push Draining x rest s)
      | [] => Some (flush_to Finished s)
      end
  | Finished => None
  end.

Inductive Event := Send (x : T) | Disconnect | Signal | Run (timer : bool).

Definition handle (e : Event) (s : Task) : option Task :=
  match e with
  | Send x => send x s
  | Disconnect => Some (disconnect s)
  | Signal => Some (signal s)
  | Run timer => task_step timer s
  end.

(** An interleaving of senders, signal and task; [None] if some event could
    not happen. *)
Fixpoint run (es : list Event) (s : Task) : option Task :=
  match es with
  | [] => Some s
  | e :: es => s' ← handle e s; run es s'
  end.

Definition sends (es : list Event) : list T :=
  filter_map (λ e, match e with Send x => Some x | _ => None end) es.

Definition task_steps (es : list Event) : nat :=
  count_if (λ e, match e with Run _ => true | _ => false end) es.

(** ** Invariant *)

(** Every accepted request is flushed, in the batch or in the channel, in
    this order; the task ends with both empty and the channel closed. *)
Record inv (s : Task) : Prop := {
  inv_conserved : accepted s = concat (flushed s) ++ batch s ++ buffer s;
  inv_finished : phase s = Finished → batch s = [] ∧ buffer s = [] ∧ closed s = true;
  inv_draining : phase s = Draining → closed s = true;
  inv_first : phase s = AwaitFirst → batch s = [];
  inv_capacity : length (buffer s) ≤ BATCHER_CHANNEL_CAPACITY
}.

Lemma flush_conserves s :
  accepted s = concat (flushed s) ++ batch s ++ buffer s →
  accepted s = concat (flushed s ++ [batch s]) ++ [] ++ buffer s.
Proof. intros ->. rewrite concat_app. simpl. by rewrite app_nil_r, <- app_assoc. Qed.

Lemma push_conserves s x rest :
  accepted s = concat (flushed s) ++ batch s ++ buffer s → buffer s = x :: rest →
  accepted s = concat (flushed s) ++ (batch s ++ [x]) ++ rest.
Proof. intros -> ->. by rewrite <- (app_assoc (batch s)). Qed.

Lemma recv_branch_inv s s' : recv_branch s = Some s' → inv s → inv s'.
Proof.
  unfold recv_branch. intros E [Hc Hf Hd H1 Hcap].
  destruct (buffer s) as [|x rest] eqn:Hb.
  - destruct (closed s) eqn:Hcl; [|done]. injection E as <-.
    constructor; cbn; rewrite ?Hb; try done. rewrite <- Hb in *. by apply flush_conserves.
  - injection E as <-. rewrite <- Hb in Hc.
    constructor; cbn; try done; [by eapply push_conserves|]. cbn in Hcap. lia.
Qed.

Lemma task_step_inv t s s' : task_step t s = Some s' → inv s → inv s'.
Proof.
  unfold task_step. intros E Hi. pose proof Hi as [Hc Hf Hd H1 Hcap].
  destruct (phase s) eqn:Hp; [destruct (shutdown s)..| |done].
  - injection E as <-. by constructor.
  - by eapply recv_branch_inv.
  - injection E as <-. by constructor.
  - destruct t; [|by eapply recv_branch_inv]. injection E as <-.
    constructor; cbn; try done. by apply flush_conserves.
  - destruct (buffer s) as [|x rest] eqn:Hb; injection E as <-; rewrite <- ?Hb in Hc.
    + constructor; cbn; rewrite ?Hb; try done; [rewrite <- Hb; by apply flush_conserves|].
      intros _. auto.
    + constructor; cbn; try done; [by eapply push_conserves|cbn in Hcap; lia].
Qed.

Lemma handle_inv e s s' : handle e s = Some s' → inv s → inv s'.
Proof.
  destruct e as [x| | |t]; cbn [handle]; [|intros [= <-] [Hc Hf Hd H1 Hcap]..|apply task_step_inv].
  - unfold send. intros E [Hc Hf Hd H1 Hcap]. destruct (closed s) eqn:Hcl.
    + injection E as <-. by constructor.
    + case_bool_decide; [|done]. injection E as <-. constructor; cbn; try done.
      * by rewrite Hc, !app_assoc.
      * intros [? [? ?]]%Hf. congruence.
      * rewrite length_app. cbn. unfold BATCHER_CHANNEL_CAPACITY in *. lia.
  - constructor; cbn; try done. naive_solver.
  - by constructor.
Qed.

Lemma run_inv es s s' : run es s = Some s' → inv s → inv s'.
Proof.
  revert s. induction es as [|e es IH]; cbn [run]; [by intros s [= ->]|].
  intros s (s1 & E & ?)%bind_Some Hi. eapply IH; [done|]. by eapply handle_inv.
Qed.

Lemma initial_inv : inv initial.
Proof. constructor; cbn; try done. lia. Qed.

(** Every request sent is accepted or rejected, in the order of sending. *)
Inductive merge : list T → list T → list T → Prop :=
| merge_nil : merge [] [] []
| merge_left x l a b : merge l a b → merge (l ++ [x]) (a ++ [x]) b
| merge_right x l a b : merge l a b → merge (l ++ [x]) a (b ++ [x]).

Lemma run_snoc es e s : run (es ++ [e]) s = s' ← run es s; handle e s'.
Proof.
  revert s. induction es as [|e' es IH]; intros s; cbn [run app].
  - cbn. by destruct (handle e s).
  - destruct (handle e' s); cbn; [apply IH|done].
Qed.

Lemma handle_sends e s s' l :
  handle e s = Some s' → merge l (accepted s) (rejected s) →
  merge (l ++ sends [e]) (accepted s') (rejected s').
Proof.
  destruct e as [x| | |t]; cbn [handle sends filter_map]; rewrite ?app_nil_r.
  - unfold send. destruct (closed s); [intros [= <-]; by constructor|].
    case_bool_decide; [intros [= <-]; by constructor|done].
  - by intros [= <-].
  - by intros [= <-].
  - unfold task_step, recv_branch, flush_to, push. intros E.
    by repeat case_match; simplify_eq.
Qed.

Lemma run_sends es s' : run es initial = Some s' → merge (sends es) (accepted s') (rejected s').
Proof.
  revert s'. induction es as [|e es IH] using rev_ind.
  - intros s' [= <-]. constructor.
  - intros s'. rewrite run_snoc. intros (s & E & Hh)%bind_Some.
    unfold sends. rewrite filter_map_app. eapply handle_sends; eauto.
Qed.

(** C34: However senders, the timer, disconnection and shutdown interleave, the
    batcher neither loses, duplicates nor reorders a request: each one sent is
    accepted or handed back to its sender, the accepted ones are exactly the
    flushed batches followed by the current batch and the channel, and when
    the task has returned all of them are flushed and any later send is handed
    back. *)
Theorem batcher_conserves_requests es s :
  run es initial = Some s →
  merge (sends es) (accepted s) (rejected s) ∧
  accepted s = concat (flushed s) ++ batch s ++ buffer s ∧
  length (buffer s) ≤ BATCHER_CHANNEL_CAPACITY ∧
  (phase s = Finished → accepted s = concat (flushed s) ∧
     ∀ x, ∃ s', send x s = Some s' ∧ accepted s' = accepted s ∧ rejected s' = rejected s ++ [x]).
Proof.
  intros H. pose proof (run_inv _ _ _ H initial_inv) as [Hc Hf _ _ Hcap].
  split_and!; [by apply run_sends|done|done|]. intros (Hb & Hbuf & Hcl)%Hf. split.
  - by rewrite Hc, Hb, Hbuf, app_nil_r.
  - intros x. unfold send. rewrite Hcl. by eexists.
Qed.

(** ** Termination of the final drain *)

Lemma drain_measure e s s' :
  phase s = Draining → closed s = true → handle e s = Some s' →
  closed s' = true ∧
  (phase s' = Draining ∧ length (buffer s) = length (buffer s') + task_steps [e] ∨
   phase s' = Finished ∧ buffer s = [] ∧ task_steps [e] = 1).
Proof.
  intros Hp Hcl. destruct e as [x| | |t]; cbn [handle].
  - unfold send. rewrite Hcl. intros [= <-]. split; [done|]. left. rewrite Nat.add_0_r. done.
  - intros [= <-]. split; [done|]. left. rewrite Nat.add_0_r. done.
  - intros [= <-]. split; [done|]. left. rewrite Nat.add_0_r. done.
  - unfold task_step. rewrite Hp. destruct (buffer s) as [|x rest]; intros [= <-]; cbn.
    + split; [done|]. by right.
    + split; [done|]. left. by rewrite Nat.add_1_r.
Qed.

Lemma finished_stays es s s' :
  phase s = Finished → run es s = Some s' → phase s' = Finished ∧ task_steps es = 0.
Proof.
  revert s. induction es as [|e es IH]; intros s Hp; cbn [run]; [intros [= <-]; done|].
  intros (s1 & E & Hr)%bind_Some. unfold task_steps. rewrite count_if_cons.
  destruct e as [x| | |t]; cbn [handle] in E; cbn.
  - apply (IH s1); [|done]. unfold send in E. by repeat case_match; simplify_eq.
  - apply (IH s1); [|done]. by injection E as <-.
  - apply (IH s1); [|done]. by injection E as <-.
  - unfold task_step in E. by rewrite Hp in E.
Qed.

(** Shutdown terminates.  Once it is signalled, the next step of the task
    closes the channel, so that no further request is accepted, and from then
    on, whatever the senders do meanwhile, the task returns after exactly one
    step per buffered request and one for the final flush; until it has
    returned, its next step is never blocked. *)
Theorem batcher_shutdown_terminates es s :
  (∀ t, shutdown s = true → phase s = AwaitFirst ∨ phase s = Collecting →
     ∃ s1, task_step t s = Some s1 ∧ phase s1 = Draining ∧ closed s1 = true ∧ buffer s1 = buffer s) ∧
  (phase s = Draining → closed s = true →
     (∀ t, is_Some (task_step t s)) ∧
     ∀ s', run es s = Some s' →
       task_steps es ≤ length (buffer s) + 1 ∧
       (phase s' = Finished ↔ task_steps es = length (buffer s) + 1)).
Proof.
  split.
  - intros t Hs [Hp|Hp]; unfold task_step; rewrite Hp, Hs; by eexists.
  - intros Hp Hcl. split.
    { intros t. unfold task_step. rewrite Hp. by destruct (buffer s). }
    revert s Hp Hcl. induction es as [|e es IH]; intros s Hp Hcl s'; cbn [run].
    { intros [= <-]. cbn. rewrite Hp. split; [lia|]. split; [done|lia]. }
    intros (s1 & E & Hr)%bind_Some.
    assert (task_steps (e :: es) = task_steps [e] + task_steps es) as ->.
    { unfold task_steps. rewrite !count_if_cons. cbn. lia. }
    destruct (drain_measure e s s1 Hp Hcl E) as (Hcl1 & [(Hp1 & Hl)|(Hp1 & Hl & Ht)]).
    + destruct (IH s1 Hp1 Hcl1 s' Hr) as [H1 H2]. split; [lia|]. rewrite H2. lia.
    + destruct (finished_stays _ _ _ Hp1 Hr) as [Hf Hz]. rewrite Hl, Ht, Hz. cbn.
      split; [done|]. by split.
Qed.
End task.
Arguments Task : clear implicits.
Arguments Event : clear implicits.

(** ** Witness *)

(** Three sends, the last after shutdown has closed the channel. *)
Definition demo_events : list (Event Z) :=
  [Send 1%Z; Run false; Send 2%Z; Signal; Run false; Send 3%Z; Run false; Run false].

Lemma batcher_conserves_requests_witness :
  ∃ s, run demo_events initial = Some s ∧ phase s = Finished ∧
    flushed s = [[1; 2]]%Z ∧ rejected s = [3]%Z ∧ accepted s = concat (flushed s).
Proof.
  eexists. split; [reflexivity|]. split; [reflexivity|]. split; [reflexivity|].
  split; [reflexivity|]. apply (batcher_conserves_requests demo_events); reflexivity.
Defined.

End BatcherTask.
