(* ===== verification/Batcher.v ===== *)
(** * Completion and failure batchers (src/batcher/completion, src/batcher/failure)

    What a batch, or a request whose batcher is closed, does to the tables,
    to the queue wakeups and to the hooks, for every outcome of the
    statements it executes.  Delivery of requests into batches is in
    BatcherTask.v, the statements in JobRelease.v. *)

From S2P Require Import Prelude Job Database FlagFilter JobStore JobRelease.
Open Scope Z_scope.

Module Batcher.
Import Job FlagFilter JobStore JobRelease.

(** How a statement ends: acknowledged, rolled back with an error, or
    committed with the reply lost, which the worker also sees as an error. *)
Inductive Outcome := Acknowledged | RolledBack | ReplyLost.

#[export] Instance Outcome_eq_dec : EqDecision Outcome.
Proof. solve_decision. Defined.

Definition execute (o : Outcome) (stmt : Db → Db) (db : Db) : Db * bool :=
  match o with
  | Acknowledged => (stmt db, true)
  | RolledBack => (db, false)
  | ReplyLost => (stmt db, false)
  end.

(** What a flush or a direct call leaves: the tables, the count passed to
    [queue_wakeup.wake] and the contexts emitted to the hooks. *)
Record Effect (E : Type) := mkEffect { tables : Db; woken : nat; emitted : list E }.
Arguments mkEffect {E} tables woken emitted.
Arguments tables {E} e.
Arguments woken {E} e.
Arguments emitted {E} e.

(** ** Completion *)

Record CompletionBatchResult := mkResult {
  with_queue_succeeded : bool;
  without_queue_succeeded : bool
}.

Definition persisted (r : CompletionBatchResult) (req : CompletionRequest) : bool :=
  (req_has_queue req && with_queue_succeeded r)
  || (negb (req_has_queue req) && without_queue_succeeded r).

(** An empty group executes nothing and reports [false]. *)
Definition execute_group (o : Outcome) (ids : list Z) (stmt : Db → Db) (db : Db) : Db * bool :=
  if is_empty ids then (db, false) else execute o stmt db.

(** [complete_batch] with the outcomes of its two statements. *)
Definition complete_batch_result (oq ou : Outcome) (w : str) (batch : list CompletionRequest)
    (db : Db) : Db * CompletionBatchResult :=
  let '(with_queue_ids, without_queue_ids) := split_batch batch in
  let '(db1, q) := execute_group oq with_queue_ids (complete_jobs_with_queues w with_queue_ids) db in
  let '(db2, u) := execute_group ou without_queue_ids
                     (complete_jobs_without_queues without_queue_ids) db1 in
  (db2, mkResult q u).

(** [hooks] says whether any hook is registered; the emitted
    [JobCompleteContext]s are given by their requests. *)
Definition flush_batch (hooks : bool) (oq ou : Outcome) (w : str) (batch : list CompletionRequest)
    (db : Db) : Effect CompletionRequest :=
  if is_empty batch then mkEffect db 0 []
  else
    let '(db', r) := complete_batch_result oq ou w batch db in
    mkEffect db' (count_if (λ req, req_has_queue req && persisted r req) batch)
      (if hooks then filter (λ req, persisted r req = true) batch else []).

(** [complete_one_job_with_queue] and [complete_one_job_without_queue]. *)
Definition complete_job_direct (o : Outcome) (w : str) (req : CompletionRequest) (db : Db) :
    Db * bool :=
  execute o (complete_one w (job_id req) (req_has_queue req)) db.

(** [complete] on a closed channel; the boolean is the [Ok] of its result. *)
Definition complete_closed (hooks : bool) (o : Outcome) (w : str) (req : CompletionRequest)
    (db : Db) : Effect CompletionRequest * bool :=
  let '(db', ok) := complete_job_direct o w req db in
  if ok then (mkEffect db' (if req_has_queue req then 1 else 0)%nat (if hooks then [req] else []), true)
  else (mkEffect db' 0 [], false).

(** ** Failure *)

Record FailureRequest := mkFailure { fail_job_of : Job; error : str; will_retry : bool }.

(** The two contexts [emit_failure_hook] chooses from. *)
Inductive FailureContext := JobFail (job : Job) (error : str)
                          | JobPermanentlyFail (job : Job) (error : str).

Definition failure_context (req : FailureRequest) : FailureContext :=
  if will_retry req then JobFail (fail_job_of req) (error req)
  else JobPermanentlyFail (fail_job_of req) (error req).

Section failure.
(** The delay function of the statements, and the outcome and timestamp of
    each statement, numbered from the batched one. *)
Context (exp_secs : Z → Z) (outcome : nat → Outcome) (clock : nat → Z) (w : str).

Definition fail_job_direct (n : nat) (req : FailureRequest) (db : Db) : Db * bool :=
  execute (outcome n)
    (fail_job exp_secs (clock n) (fail_job_of req) w (error req) None) db.

(** The fallback loop of [persist_failure_batch]. *)
Fixpoint persist_each (n : nat) (batch : list FailureRequest) (db : Db) : Db * list bool :=
  match batch with
  | [] => (db, [])
  | req :: rest =>
      let '(db1, b) := fail_job_direct n req db in
      let '(db2, bs) := persist_each (S n) rest db1 in
      (db2, b :: bs)
  end.

Definition persist_failure_batch (batch : list FailureRequest) (db : Db) : Db * list bool :=
  let failed := (λ req, (fail_job_of req, error req)) <$> batch in
  let '(db1, ok) := execute (outcome 0) (fail_jobs exp_secs (clock 0) failed w) db in
  if ok then (db1, replicate (length batch) true) else persist_each 1 batch db1.

Definition flush_failure_batch (hooks : bool) (batch : list FailureRequest) (db : Db) :
    Effect FailureContext :=
  if is_empty batch then mkEffect db 0 []
  else
    let '(db', ok) := persist_failure_batch batch db in
    mkEffect db'
      (count_if (λ rb, rb.2 && has_queue (fail_job_of rb.1)) (zip batch ok))
      (if hooks then (λ rb, failure_context rb.1) <$> filter (λ rb, rb.2 = true) (zip batch ok)
       else []).

(** [fail] on a closed channel. *)
Definition fail_closed (hooks : bool) (req : FailureRequest) (db : Db) :
    Effect FailureContext * bool :=
  let '(db', ok) := fail_job_direct 0 req db in
  if ok then
    (mkEffect db' (if has_queue (fail_job_of req) then 1 else 0)%nat
       (if hooks then [failure_context req] else []), true)
  else (mkEffect db' 0 [], false).
End failure.

(** ** Completion: what a flush persists *)

(** The ids of the two groups. *)
Definition ids_of (queued : bool) (batch : list CompletionRequest) : list Z :=
  job_id <$> filter (λ r, req_has_queue r = queued) batch.

Lemma elem_of_ids_of b batch i :
  i ∈ ids_of b batch ↔ ∃ r, r ∈ batch ∧ req_has_queue r = b ∧ job_id r = i.
Proof.
  unfold ids_of. rewrite list_elem_of_fmap. setoid_rewrite list_elem_of_filter. naive_solver.
Qed.

Lemma delete_jobs_lookup (ids : list Z) db i :
  jobs (delete_jobs (λ i _, bool_decide (i ∈ ids)) db) !! i
  = if bool_decide (i ∈ ids) then None else jobs db !! i.
Proof.
  cbn. apply option_eq. intros r. rewrite delete_where_Some.
  case_bool_decide; naive_solver.
Qed.

(** A statement of either group that ran removed exactly its rows. *)
Lemma execute_group_jobs o (ids : list Z) stmt db i :
  (∀ db, jobs (stmt db) !! i = if bool_decide (i ∈ ids) then None else jobs db !! i) →
  jobs (execute_group o ids stmt db).1 !! i
  = if bool_decide (i ∈ ids ∧ o ≠ RolledBack) then None else jobs db !! i.
Proof.
  intros Hs. unfold execute_group. destruct ids as [|k ks]; cbn [is_empty].
  - rewrite bool_decide_eq_false_2 by set_solver. done.
  - destruct o; cbn [execute fst]; rewrite ?Hs.
    + by rewrite (bool_decide_ext (_ ∧ Acknowledged ≠ RolledBack) (i ∈ k :: ks)) by naive_solver.
    + rewrite (bool_decide_eq_false_2 (_ ∧ _)) by naive_solver. done.
    + by rewrite (bool_decide_ext (_ ∧ ReplyLost ≠ RolledBack) (i ∈ k :: ks)) by naive_solver.
Qed.

Lemma complete_jobs_with_queues_jobs w (ids : list Z) db i :
  jobs (complete_jobs_with_queues w ids db) !! i
  = if bool_decide (i ∈ ids) then None else jobs db !! i.
Proof.
  unfold complete_jobs_with_queues. destruct ids as [|k ks]; cbn [is_empty]; [|apply delete_jobs_lookup].
  by rewrite bool_decide_eq_false_2 by set_solver.
Qed.

Lemma complete_jobs_without_queues_jobs (ids : list Z) db i :
  jobs (complete_jobs_without_queues ids db) !! i
  = if bool_decide (i ∈ ids) then None else jobs db !! i.
Proof.
  unfold complete_jobs_without_queues. destruct ids as [|k ks]; cbn [is_empty]; [|apply delete_jobs_lookup].
  by rewrite bool_decide_eq_false_2 by set_solver.
Qed.

(** The rows a flush removes. *)
Definition removed (oq ou : Outcome) (batch : list CompletionRequest) (i : Z) : Prop :=
  i ∈ ids_of true batch ∧ oq ≠ RolledBack ∨ i ∈ ids_of false batch ∧ ou ≠ RolledBack.

#[export] Instance removed_dec oq ou batch i : Decision (removed oq ou batch i).
Proof. unfold removed. apply _. Defined.

(** [complete_batch] unfolded into its two statements. *)
Lemma complete_batch_result_eq oq ou w batch db :
  complete_batch_result oq ou w batch db =
  (let g1 := execute_group oq (ids_of true batch)
               (complete_jobs_with_queues w (ids_of true batch)) db in
   let g2 := execute_group ou (ids_of false batch)
               (complete_jobs_without_queues (ids_of false batch)) g1.1 in
   (g2.1, mkResult g1.2 g2.2)).
Proof.
  unfold complete_batch_result. rewrite split_batch_filter. fold (ids_of true batch) (ids_of false batch).
  destruct (execute_group oq _ _ db) as [db1 q]. cbn. by destruct (execute_group ou _ _ db1).
Qed.

Lemma complete_batch_jobs oq ou w batch db i :
  jobs (complete_batch_result oq ou w batch db).1 !! i
  = if bool_decide (removed oq ou batch i) then None else jobs db !! i.
Proof.
  rewrite complete_batch_result_eq. cbn [fst].
  rewrite (execute_group_jobs ou) by (intros; apply complete_jobs_without_queues_jobs).
  rewrite (execute_group_jobs oq) by (intros; apply complete_jobs_with_queues_jobs).
  unfold removed. by repeat case_bool_decide; try done; naive_solver.
Qed.

Lemma execute_group_ok o (ids : list Z) stmt db i :
  i ∈ ids → (execute_group o ids stmt db).2 = bool_decide (o = Acknowledged).
Proof. unfold execute_group. destruct ids; [set_solver|]. by destruct o. Qed.

Lemma persisted_iff oq ou w batch db req :
  req ∈ batch →
  persisted (complete_batch_result oq ou w batch db).2 req
  = bool_decide ((if req_has_queue req then oq else ou) = Acknowledged).
Proof.
  intros Hin. rewrite complete_batch_result_eq. unfold persisted. cbn [snd with_queue_succeeded without_queue_succeeded].
  destruct (req_has_queue req) eqn:E; cbn [andb negb orb];
    rewrite ?(execute_group_ok _ _ _ _ (job_id req)) by (apply elem_of_ids_of; eauto).
  - by rewrite orb_false_r.
  - done.
Qed.

(** Which queue locks a flush releases: those of the removed queued rows, if
    held by the worker. *)
Lemma complete_batch_queues oq ou w batch db q :
  job_queues (complete_batch_result oq ou w batch db).1 !! q
  = (λ r, if bool_decide (oq ≠ RolledBack)
             && (bool_decide (Some q ∈ job_queue_id <$> rows_where (with_id (ids_of true batch)) (jobs db))
                 && bool_decide (queue_locked_by r = Some w))
          then unlock_queue r else r) <$> job_queues db !! q.
Proof.
  rewrite complete_batch_result_eq. cbn [fst].
  assert (∀ o ids db, job_queues (execute_group o ids (complete_jobs_without_queues ids) db).1 = job_queues db) as ->.
  { intros o ids db'. unfold execute_group, complete_jobs_without_queues. destruct ids; [done|]. by destruct o. }
  unfold execute_group, complete_jobs_with_queues. destruct (ids_of true batch) as [|k ks]; cbn [is_empty fst].
  - rewrite (bool_decide_eq_false_2 (Some q ∈ _)) by (rewrite elem_of_row_queues; apply with_id_nil_queues).
    destruct (bool_decide (oq ≠ RolledBack)); by destruct (job_queues db !! q).
  - destruct oq; cbn [execute fst job_queues with_queues].
    + rewrite release_queues_lookup. done.
    + by destruct (job_queues db !! q).
    + rewrite release_queues_lookup. done.
Qed.

Lemma woken_count oq ou w batch db :
  count_if (λ req, req_has_queue req && persisted (complete_batch_result oq ou w batch db).2 req) batch
  = if bool_decide (oq = Acknowledged) then length (ids_of true batch) else 0%nat.
Proof.
  assert (∀ l, (∀ r, r ∈ l → r ∈ batch) →
    count_if (λ req, req_has_queue req && persisted (complete_batch_result oq ou w batch db).2 req) l
    = if bool_decide (oq = Acknowledged) then length (ids_of true l) else 0%nat) as H; [|by apply H].
  induction l as [|r l IH]; intros Hl; [by case_bool_decide|].
  rewrite count_if_cons, IH, persisted_iff by set_solver. unfold ids_of. rewrite filter_cons.
  destruct (req_has_queue r); case_bool_decide; cbn; done.
Qed.

(** A completion flush tells the truth about the database.  Whatever its
    two statements end with, a success hook is emitted only for a request of
    the batch whose job row is gone; rows outside the batch, and rows of a
    group whose statement was rolled back, are untouched; fetchers are woken
    for exactly the queued requests of an acknowledged statement, and every
    queue lock the worker held for them is then released, while all other
    queue locks stay. *)
Theorem completion_flush_truthful hooks oq ou w batch db :
  let e := flush_batch hooks oq ou w batch db in
  (∀ req, req ∈ emitted e → req ∈ batch ∧ jobs (tables e) !! job_id req = None) ∧
  (∀ i, ¬ removed oq ou batch i → jobs (tables e) !! i = jobs db !! i) ∧
  (∀ i, i ∉ job_id <$> batch → jobs (tables e) !! i = jobs db !! i) ∧
  woken e = (if bool_decide (oq = Acknowledged) then length (ids_of true batch) else 0%nat) ∧
  (∀ req j q r, req ∈ batch → req_has_queue req = true → oq = Acknowledged →
     jobs db !! job_id req = Some j → job_queue_id j = Some q →
     job_queues db !! q = Some r → queue_locked_by r = Some w →
     job_queues (tables e) !! q = Some (unlock_queue r)) ∧
  (∀ q r, job_queues db !! q = Some r → queue_locked_by r ≠ Some w →
     job_queues (tables e) !! q = Some r).
Proof.
  unfold flush_batch. destruct (is_empty batch) eqn:Hemp.
  { destruct batch; [|done]. cbn. split_and!; try done; [set_solver|by case_bool_decide|set_solver]. }
  destruct (complete_batch_result oq ou w batch db) as [db' res] eqn:E.
  assert (db' = (complete_batch_result oq ou w batch db).1) as Hdb by (by rewrite E).
  assert (res = (complete_batch_result oq ou w batch db).2) as Hres by (by rewrite E).
  cbn [tables woken emitted]. subst db' res. clear E. split_and!.
  - intros req Hin. destruct hooks; [|set_solver].
    apply list_elem_of_filter in Hin as [Hp Hin]. split; [done|].
    rewrite persisted_iff in Hp by done. apply bool_decide_eq_true in Hp.
    rewrite complete_batch_jobs, bool_decide_eq_true_2; [done|]. unfold removed. rewrite !elem_of_ids_of.
    destruct (req_has_queue req) eqn:Eq; subst; naive_solver.
  - intros i Hi. by rewrite complete_batch_jobs, bool_decide_eq_false_2.
  - intros i Hi. rewrite complete_batch_jobs, bool_decide_eq_false_2; [done|].
    unfold removed. rewrite !elem_of_ids_of, list_elem_of_fmap in *. naive_solver.
  - apply woken_count.
  - intros req j q r Hin Hq -> Hj Hjq Hr Hw. rewrite complete_batch_queues, Hr. cbn [fmap option_fmap option_map].
    rewrite !bool_decide_eq_true_2; [done..| |done]. rewrite elem_of_row_queues.
    exists (job_id req), j. split_and!; [done| |done].
    apply bool_decide_eq_true_2, elem_of_ids_of. eauto.
  - intros q r Hr Hw. rewrite complete_batch_queues, Hr. cbn.
    by rewrite (bool_decide_eq_false_2 _ Hw), !andb_false_r.
Qed.
(** ** Failure: what a flush persists *)

Section failure_proofs.
Context (exp_secs : Z → Z) (outcome : nat → Outcome) (clock : nat → Z) (w : str).

(** The row was failed once by one of the statements, with the error of a
    request for it. *)
Definition failed_once (batch : list FailureRequest) (i : Z) (j j' : DbJob) : Prop :=
  locked_by j = Some w ∧
  ∃ n req, req ∈ batch ∧ id (fail_job_of req) = i ∧
    j' = mark_failed exp_secs (clock n) (error req) None j.

(** Every row is as before or failed once. *)
Definition at_most_once (batch : list FailureRequest) (db db' : Db) : Prop :=
  ∀ i, jobs db' !! i = jobs db !! i ∨
       ∃ j j', jobs db !! i = Some j ∧ jobs db' !! i = Some j' ∧ failed_once batch i j j'.

Lemma at_most_once_refl batch db : at_most_once batch db db.
Proof. intros i. by left. Qed.

(** The worker no longer holds the row, if there is one. *)
Definition unowned (i : Z) (db : Db) : Prop :=
  ∀ j, jobs db !! i = Some j → locked_by j ≠ Some w.

Lemma fail_job_lookup now (job : Job) e repl db i :
  jobs (fail_job exp_secs now job w e repl db) !! i
  = (λ r, if bool_decide (i = id job) && owned_by w r
          then mark_failed exp_secs now e repl r else r) <$> jobs db !! i.
Proof.
  unfold fail_job, fail_one. destruct (has_queue job); cbn [jobs with_queues with_jobs];
    apply lookup_update_where.
Qed.

Lemma fail_jobs_lookup now failed db i :
  jobs (fail_jobs exp_secs now failed w db) !! i
  = (λ r, if bool_decide (i ∈ failed_ids failed) && owned_by w r
          then mark_failed exp_secs now (input_error failed (id r)) None r else r) <$> jobs db !! i.
Proof.
  unfold fail_jobs. destruct failed as [|f fs]; cbn [is_empty].
  - rewrite bool_decide_eq_false_2 by set_solver. by destruct (jobs db !! i).
  - destruct (existsb _ _); cbn [jobs with_queues with_jobs]; apply lookup_update_where.
Qed.

Lemma input_error_elem failed i :
  i ∈ failed_ids failed → ∃ job : Job, (job, input_error failed i) ∈ failed ∧ id job = i.
Proof.
  intros Hi. unfold input_error. destruct (list_find _ failed) as [[k [job e]]|] eqn:E; cbn.
  - apply list_find_Some in E as (Hk & Hid & _). exists job. split; [|done].
    by eapply list_elem_of_lookup_2.
  - apply list_find_None in E. rewrite Forall_forall in E.
    apply list_elem_of_fmap in Hi as (je & -> & Hin). by destruct (E je Hin).
Qed.

(** Failing a row the worker no longer holds changes nothing. *)
Lemma fail_job_unowned now (job : Job) e repl db :
  unowned (id job) db → fail_job exp_secs now job w e repl db = db.
Proof.
  intros Hu. apply db_eq; try (unfold fail_job, fail_one; by destruct (has_queue job)).
  - apply map_eq. intros i. rewrite fail_job_lookup. destruct (jobs db !! i) as [r|] eqn:Hr; [|done].
    cbn. case_bool_decide as Hi; [subst i|done]. unfold owned_by.
    by rewrite bool_decide_eq_false_2 by (by apply Hu).
  - unfold fail_job, fail_one. destruct (has_queue job); [|done]. cbn [job_queues with_queues].
    apply release_queues_nil. intros q. rewrite elem_of_row_queues.
    intros (k & j & Hk & [->%bool_decide_eq_true Ho%bool_decide_eq_true]%andb_true_iff & _).
    by apply (Hu j Hk).
Qed.

Lemma fail_job_unowns now (job : Job) e repl db : unowned (id job) (fail_job exp_secs now job w e repl db).
Proof.
  intros j. rewrite fail_job_lookup, fmap_Some. intros (r & _ & ->).
  rewrite bool_decide_eq_true_2 by done. cbn. unfold owned_by. by case_bool_decide.
Qed.

Lemma fail_job_keeps_unowned now (job : Job) e repl db i :
  unowned i db → unowned i (fail_job exp_secs now job w e repl db).
Proof.
  intros Hu j. rewrite fail_job_lookup, fmap_Some. intros (r & Hr & ->).
  destruct (_ && _); [done|by apply Hu].
Qed.

(** A further failure finds the row as before, or no longer the worker's. *)
Lemma at_most_once_fail_job batch n req db db1 :
  req ∈ batch → at_most_once batch db db1 →
  at_most_once batch db (fail_job exp_secs (clock n) (fail_job_of req) w (error req) None db1).
Proof.
  intros Hin H i. rewrite fail_job_lookup.
  destruct (H i) as [->|(j & j' & Hj & -> & Ho)].
  - destruct (jobs db !! i) as [r|]; [|by left]. cbn.
    case_bool_decide as Hi; [|by left]. unfold owned_by.
    case_bool_decide as Hw; cbn; [|by left]. right. exists r. eexists. split_and!; [done..|].
    split; [done|]. by exists n, req.
  - right. exists j, j'. split_and!; [done| |done]. cbn.
    destruct Ho as (_ & k & r & _ & _ & ->). unfold owned_by.
    rewrite (bool_decide_eq_false_2 (locked_by _ = _)) by done. by rewrite andb_false_r.
Qed.

Lemma at_most_once_fail_jobs batch db :
  keyed db →
  at_most_once batch db
    (fail_jobs exp_secs (clock 0) ((λ req, (fail_job_of req, error req)) <$> batch) w db).
Proof.
  intros Hk i. rewrite fail_jobs_lookup. destruct (jobs db !! i) as [r|] eqn:Hr; [|by left]. cbn.
  case_bool_decide as Hi; [|by left]. unfold owned_by. case_bool_decide as Hw; [|by left].
  right. exists r. eexists. split_and!; [done..|]. split; [done|].
  rewrite (Hk i r Hr). destruct (input_error_elem _ _ Hi) as (job & Hin & Hid).
  apply list_elem_of_fmap in Hin as (req & [= -> He] & Hreq). exists 0%nat, req.
  split_and!; [done..|]. by rewrite He.
Qed.

Lemma fail_jobs_unowns now failed db i :
  i ∈ failed_ids failed → unowned i (fail_jobs exp_secs now failed w db).
Proof.
  intros Hi j. rewrite fail_jobs_lookup, fmap_Some. intros (r & _ & ->).
  rewrite bool_decide_eq_true_2 by done. cbn. unfold owned_by. by case_bool_decide.
Qed.

(** What the fallback loop establishes, request by request. *)
Lemma persist_each_spec batch l n db db1 :
  (∀ r, r ∈ l → r ∈ batch) → at_most_once batch db db1 →
  let p := persist_each exp_secs outcome clock w n l db1 in
  at_most_once batch db p.1 ∧ length p.2 = length l ∧
  (∀ i, unowned i db1 → unowned i p.1) ∧
  (∀ k req, l !! k = Some req → p.2 !! k = Some true → unowned (id (fail_job_of req)) p.1).
Proof.
  revert n db1. induction l as [|req l IH]; intros n db1 Hl Ho; cbn [persist_each].
  { cbn. split_and!; [done..|]. intros k r Hk. by rewrite lookup_nil in Hk. }
  destruct (fail_job_direct exp_secs outcome clock w n req db1) as [db2 b] eqn:E.
  assert (at_most_once batch db db2 ∧ (∀ i, unowned i db1 → unowned i db2) ∧
          (b = true → unowned (id (fail_job_of req)) db2)) as (Ho2 & Hu2 & Hb).
  { unfold fail_job_direct in E. destruct (outcome n); cbn in E; injection E as <- <-; split_and!;
      try done; eauto using fail_job_keeps_unowned, fail_job_unowns;
      (apply at_most_once_fail_job; [apply Hl; left|done]). }
  specialize (IH (S n) db2 ltac:(intros; apply Hl; by right) Ho2).
  destruct (persist_each exp_secs outcome clock w (S n) l db2) as [db3 bs]. cbn in *.
  destruct IH as (H1 & H2 & H3 & H4). split_and!; [done|lia|by eauto|].
  intros [|k] r Hk Hbk; cbn in *; [|by eauto]. injection Hk as ->. injection Hbk as ->. auto.
Qed.

Lemma persist_each_unowned l n db :
  (∀ r, r ∈ l → unowned (id (fail_job_of r)) db) →
  (persist_each exp_secs outcome clock w n l db).1 = db.
Proof.
  revert n. induction l as [|req l IH]; intros n Hl; cbn [persist_each]; [done|].
  assert ((fail_job_direct exp_secs outcome clock w n req db).1 = db) as E.
  { unfold fail_job_direct. destruct (outcome n); cbn; [|done|];
      apply fail_job_unowned, Hl; left. }
  destruct (fail_job_direct _ _ _ _ _ _ _) as [db2 b]. cbn in E. subst db2.
  specialize (IH (S n) ltac:(intros; apply Hl; by right)).
  by destruct (persist_each exp_secs outcome clock w (S n) l db).
Qed.

(** C10: A failure flush applies every failure at most once.  Whatever the
    batched statement and the per-job fallbacks end with, each row is
    untouched, or was held by the worker and is failed once, with the error of
    one of its requests and a single back-off; a request reported as
    persisted, and so any failure hook emitted, concerns a job the worker no
    longer holds; and when only the reply of the batched statement was lost,
    the fallbacks change nothing. *)
Theorem failure_flush_at_most_once hooks batch db :
  keyed db →
  let p := persist_failure_batch exp_secs outcome clock w batch db in
  let e := flush_failure_batch exp_secs outcome clock w hooks batch db in
  at_most_once batch db (tables e) ∧ length p.2 = length batch ∧
  (∀ k req, batch !! k = Some req → p.2 !! k = Some true → unowned (id (fail_job_of req)) (tables e)) ∧
  (∀ c, c ∈ emitted e → ∃ req, req ∈ batch ∧ c = failure_context req ∧
     unowned (id (fail_job_of req)) (tables e)) ∧
  (outcome 0 = ReplyLost →
     tables e = fail_jobs exp_secs (clock 0) ((λ req, (fail_job_of req, error req)) <$> batch) w db).
Proof.
  intros Hk p e.
  assert (∀ r, r ∈ batch → id (fail_job_of r) ∈ failed_ids ((λ req, (fail_job_of req, error req)) <$> batch)) as Hids.
  { intros r Hr. unfold failed_ids. rewrite <- list_fmap_compose. apply list_elem_of_fmap. by exists r. }
  assert (at_most_once batch db p.1 ∧ length p.2 = length batch ∧
    (∀ k req, batch !! k = Some req → p.2 !! k = Some true → unowned (id (fail_job_of req)) p.1) ∧
    (outcome 0 = ReplyLost → p.1 = fail_jobs exp_secs (clock 0)
       ((λ req, (fail_job_of req, error req)) <$> batch) w db)) as (H1 & H2 & H3 & H4).
  { unfold p, persist_failure_batch. destruct (outcome 0); cbn [execute].
    - cbn [fst snd]. rewrite length_replicate. split_and!; [by apply at_most_once_fail_jobs|done| |done].
      intros k req Hr _. apply fail_jobs_unowns, Hids. by eapply list_elem_of_lookup_2.
    - destruct (persist_each_spec batch batch 1 db db) as (? & ? & _ & ?); [done|apply at_most_once_refl|].
      by split_and!.
    - destruct (persist_each_spec batch batch 1 db
        (fail_jobs exp_secs (clock 0) ((λ req, (fail_job_of req, error req)) <$> batch) w db))
        as (? & ? & _ & ?); [done|by apply at_most_once_fail_jobs|].
      split_and!; [done..|]. intros _. apply persist_each_unowned. intros r Hr.
      by apply fail_jobs_unowns, Hids. }
  unfold e, flush_failure_batch. fold p. destruct (is_empty batch) eqn:Hemp.
  { destruct batch; [|done]. cbn [tables emitted]. split_and!; [apply at_most_once_refl|done|..].
    - intros k req Hr. by rewrite lookup_nil in Hr.
    - set_solver.
    - done. }
  destruct p as [db' ok]. cbn [fst snd tables emitted] in *. split_and!; [done..| |done].
  intros c Hc. destruct hooks; [|set_solver].
  apply list_elem_of_fmap in Hc as ([req b] & -> & [Hb Hin]%list_elem_of_filter).
  cbn in Hb. subst b. apply list_elem_of_lookup in Hin as (k & Hk').
  apply lookup_zip_with_Some in Hk' as (r & b & [= <- <-] & Hr & Hok).
  exists req. split_and!; [by eapply list_elem_of_lookup_2|done|]. by eapply H3.
Qed.
End failure_proofs.

(** ** Witness *)

(** The batched statement commits without a reply, then the fallbacks run. *)
Definition demo_outcome (n : nat) : Outcome := match n with O => ReplyLost | _ => Acknowledged end.

Definition demo_failures : list FailureRequest :=
  (λ j, mkFailure j (lit "boom") true) <$> demo_rows.

Lemma failure_flush_at_most_once_witness :
  tables (flush_failure_batch demo_exp demo_outcome (λ n, 300 + Z.of_nat n) (lit "w") true
            demo_failures demo_claim.1)
  = fail_jobs demo_exp 300 ((λ req, (fail_job_of req, error req)) <$> demo_failures) (lit "w")
      demo_claim.1.
Proof.
  apply (failure_flush_at_most_once demo_exp demo_outcome (λ n, 300 + Z.of_nat n) (lit "w") true
           demo_failures demo_claim.1 demo_db_keyed). reflexivity.
Defined.

End Batcher.
