(* ===== verification/LocalQueue.v ===== *)
(** * Local queues (src/local_queue)

    The prefetch caches of one worker and the coordinator its queues share.
    Each queue claims a batch, keeps it until the handlers take the jobs, and
    gives back what is left when its time to live expires or on release.  A
    return whose reply was lost may have committed, and the statement that
    retries it unlocks whatever the worker holds under those ids; the
    coordinator keeps the worker from claiming meanwhile.

    The critical sections of the code are the steps of the model; they
    interleave freely with each other, with the handlers and with everything
    other workers do to the tables.  Throttling (refetch delay, wake-ups,
    timers) only decides when a step happens: here it is left to the
    interleaving, FetchLoop.v models it. *)

From S2P Require Import Prelude Job Database FlagFilter JobStore JobRelease AddJob JobInvariant Batcher.
Open Scope Z_scope.

Module LocalQueue.
Import Job FlagFilter JobStore JobRelease Batcher.
Abbreviation db_inv := (JobInvariant.inv_if false false).

(** ** State *)

Inductive Mode := Starting | Polling | Waiting | TtlExpired | Released.

#[export] Instance Mode_eq_dec : EqDecision Mode.
Proof. solve_decision. Defined.

(** [fetching] holds the coordinator's read guard of the fetch loop, [direct]
    counts the guards of [get_job_direct] calls; [inflight] is what the
    fetch loop received and has not put into the cache yet; [pending] and
    [permit] are the fields of [PendingReturns]. *)
Record Queue := mkQueue {
  mode : Mode;
  job_queue : list Job;
  fetching : bool;
  direct : nat;
  inflight : list Job;
  pending : list Job;
  permit : bool;
  ttl_return_complete : bool
}.

Definition new_queue : Queue := mkQueue Starting [] false 0 [] [] false false.

(** The worker: its queues, the [returns] counter of their coordinator, the
    jobs its handlers are running, and the tables. *)
Record Worker := mkWorkerState {
  queues : list Queue;
  returns : nat;
  running : list Z;
  db : Db
}.

(** ** Operations on a queue *)

Definition with_mode (m : Mode) (q : Queue) : Queue :=
  mkQueue m (job_queue q) (fetching q) (direct q) (inflight q) (pending q) (permit q)
    (ttl_return_complete q).

(** state/mode.rs *)
Definition set_mode (new_mode : Mode) (q : Queue) : Queue :=
  if bool_decide (mode q = new_mode) || bool_decide (mode q = Released)
     || (bool_decide (mode q = TtlExpired) && bool_decide (new_mode = Polling)
         && negb (ttl_return_complete q))
  then q else with_mode new_mode q.

(** claims.rs, [try_fetch]: [None] while any return is pending. *)
Definition try_fetch (returns : nat) : bool := bool_decide (returns = 0%nat).

(** fetch.rs: entering and leaving the guarded part of [fetch]. *)
Definition start_fetch (q : Queue) : Queue :=
  mkQueue (mode q) (job_queue q) true (direct q) (inflight q) (pending q) (permit q)
    (ttl_return_complete q).

Definition end_fetch (rows : list Job) (q : Queue) : Queue :=
  mkQueue (mode q) (job_queue q) false (direct q) rows (pending q) (permit q)
    (ttl_return_complete q).

(** cache.rs *)
Definition received_jobs (q : Queue) : Queue :=
  set_mode Waiting
    (mkQueue (mode q) (job_queue q ++ inflight q) (fetching q) (direct q) [] (pending q)
       (permit q) (ttl_return_complete q)).

(** jobs.rs, [get_job_direct]: taking and dropping its guard. *)
Definition set_direct (n : nat) (q : Queue) : Queue :=
  mkQueue (mode q) (job_queue q) (fetching q) n (inflight q) (pending q) (permit q)
    (ttl_return_complete q).

(** jobs.rs, [get_job_from_cache], in its two critical sections: a queue whose
    expired claims are returned polls again, then a job is popped unless the
    mode forbids it. *)
Definition resume (q : Queue) : Queue :=
  if bool_decide (mode q = TtlExpired) && ttl_return_complete q then set_mode Polling q else q.

Definition pop_cached (q : Queue) : option (Job * Queue) :=
  match mode q, job_queue q with
  | (Released | TtlExpired), _ => None
  | _, [] => None
  | _, job :: rest =>
      let q' := mkQueue (mode q) rest (fetching q) (direct q) (inflight q) (pending q) (permit q)
                  (ttl_return_complete q) in
      Some (job, if is_empty rest then set_mode Polling q' else q')
  end.

(** release.rs *)
Definition set_mode_ttl_expired (q : Queue) : option Queue :=
  if bool_decide (mode q = Waiting) then
    Some (mkQueue TtlExpired (job_queue q) (fetching q) (direct q) (inflight q) (pending q)
            (permit q) false)
  else None.

(** [begin_return] waits for the write lock, that is, for every read guard. *)
Definition can_begin_return (qs : list Queue) : bool :=
  forallb (λ q, negb (fetching q) && bool_decide (direct q = 0%nat)) qs.

Definition take_permit (q : Queue) : Queue :=
  mkQueue (mode q) (job_queue q) (fetching q) (direct q) (inflight q) (pending q) true
    (ttl_return_complete q).

Definition drain (q : Queue) : Queue :=
  mkQueue (mode q) [] (fetching q) (direct q) (inflight q) (pending q ++ job_queue q) (permit q)
    (ttl_return_complete q).

(** After an acknowledged return, or when nothing is pending; [ttl] says that
    [set_mode_ttl_expired] asked for it. *)
Definition returned (ttl : bool) (q : Queue) : Queue :=
  mkQueue (mode q) (job_queue q) (fetching q) (direct q) (inflight q) [] false
    (ttl || ttl_return_complete q).

(** ** Configuration (config/queue.rs, config/retry.rs) *)

Record RefetchDelayConfig := mkRefetch {
  refetch_duration : Z;
  threshold : Z;
  max_abort_threshold : option Z
}.

Record LocalQueueConfig := mkConfig {
  size : Z;
  ttl : Z;
  refetch_delay : option RefetchDelayConfig;
  queue_count : Z
}.

Inductive LocalQueueConfigError :=
| RefetchDelayExceedsPollInterval (duration poll_interval : Z)
| EmptySize
| EmptyQueueCount
| SizeTooLarge (size max : Z).

Definition validate (c : LocalQueueConfig) (poll_interval : Z) : result unit LocalQueueConfigError :=
  let? _ := match refetch_delay c with
            | Some r => if refetch_duration r >? poll_interval
                        then Err (RefetchDelayExceedsPollInterval (refetch_duration r) poll_interval)
                        else Ok tt
            | None => Ok tt
            end in
  if size c =? 0 then Err EmptySize
  else if queue_count c =? 0 then Err EmptyQueueCount
  else if size c >? I32_MAX then Err (SizeTooLarge (size c) I32_MAX)
  else Ok tt.

(** The batch size [fetch] asks for: [size.try_into().unwrap_or(i32::MAX)]. *)
Definition fetch_size (c : LocalQueueConfig) : Z :=
  if size c <=? I32_MAX then size c else I32_MAX.

(** [RETURN_JOBS_RETRY_OPTIONS.max_attempts]. *)
Definition RETURN_MAX_ATTEMPTS : nat := 20.

(** ** Steps *)

Section worker.
Context (w : str).

(** release.rs: the loop of [return_jobs_with_retry] from a given number of
    failed attempts, of which [budget] remain; the delays between attempts are
    omitted.  [Err] carries the number of attempts. *)
Fixpoint return_jobs_loop (budget attempt : nat) (outcome : nat → Outcome) (clock : nat → Z)
    (js : list Job) (d : Db) : Db * result unit nat :=
  match budget with
  | O => (d, Err attempt)
  | S budget =>
      let '(d', ok) := execute (outcome attempt) (return_jobs js w (clock attempt)) d in
      if ok then (d', Ok tt) else return_jobs_loop budget (S attempt) outcome clock js d'
  end.

Definition return_jobs_with_retry (outcome : nat → Outcome) (clock : nat → Z) (js : list Job)
    (d : Db) : Db * result unit nat :=
  return_jobs_loop RETURN_MAX_ATTEMPTS 0 outcome clock js d.

(** The worker holds the row. *)
Definition owned (i : Z) (d : Db) : Prop :=
  ∃ j, jobs d !! i = Some j ∧ locked_by j = Some w.

(** What others do to the tables: they keep them well formed and release
    nothing the worker holds. *)
Definition others (d d' : Db) : Prop :=
  db_inv d' ∧ (∀ i, owned i d → owned i d').

(** The worker's runner finishes a job: the row is removed or unlocked. *)
Definition finished (i : Z) (d d' : Db) : Prop :=
  db_inv d' ∧ ∀ k, k ≠ i → owned k d → owned k d'.

Definition put (s : Worker) (k : nat) (q : Queue) : list Queue := <[k := q]> (queues s).

Inductive step (s : Worker) : Worker → Prop :=
| step_mode k q m :
    queues s !! k = Some q →
    step s (mkWorkerState (put s k (set_mode m q)) (returns s) (running s) (db s))
| step_fetch k q :
    queues s !! k = Some q → try_fetch (returns s) = true → fetching q = false → inflight q = [] →
    step s (mkWorkerState (put s k (start_fetch q)) (returns s) (running s) (db s))
| step_fetched k q con clock td filt n now d' rows (o : Outcome) :
    queues s !! k = Some q → fetching q = true →
    batch_get_jobs_with_filter con clock td w filt n now (db s) d' (Ok rows) →
    step s (mkWorkerState
      (put s k (end_fetch (match o with Acknowledged => rows | _ => [] end) q)) (returns s) (running s)
      (match o with RolledBack => db s | _ => d' end))
| step_received k q :
    queues s !! k = Some q → fetching q = false →
    step s (mkWorkerState (put s k (received_jobs q)) (returns s) (running s) (db s))
| step_direct k q :
    queues s !! k = Some q → try_fetch (returns s) = true →
    step s (mkWorkerState (put s k (set_direct (S (direct q)) q)) (returns s) (running s) (db s))
| step_direct_job k q n con clock td filt now d' (job : Job) :
    queues s !! k = Some q → direct q = S n → mode q ≠ Released →
    get_job_with_filter con clock td w filt now (db s) d' (Some job) →
    step s (mkWorkerState (put s k (set_direct n q)) (returns s) (id job :: running s) d')
| step_direct_none k q n :
    queues s !! k = Some q → direct q = S n →
    step s (mkWorkerState (put s k (set_direct n q)) (returns s) (running s) (db s))
| step_resume k q :
    queues s !! k = Some q →
    step s (mkWorkerState (put s k (resume q)) (returns s) (running s) (db s))
| step_pop k q (job : Job) q' :
    queues s !! k = Some q → pop_cached q = Some (job, q') →
    step s (mkWorkerState (put s k q') (returns s) (id job :: running s) (db s))
| step_ttl k q q' :
    queues s !! k = Some q → set_mode_ttl_expired q = Some q' →
    step s (mkWorkerState (put s k q') (returns s) (running s) (db s))
| step_release k q :
    queues s !! k = Some q →
    step s (mkWorkerState (put s k (with_mode Released q)) (returns s) (running s) (db s))
| step_permit k q :
    queues s !! k = Some q → permit q = false → can_begin_return (queues s) = true →
    step s (mkWorkerState (put s k (take_permit q)) (S (returns s)) (running s) (db s))
| step_drain k q :
    queues s !! k = Some q → permit q = true →
    step s (mkWorkerState (put s k (drain q)) (returns s) (running s) (db s))
| step_return k q now (o : Outcome) ttl :
    queues s !! k = Some q → permit q = true →
    step s (mkWorkerState
      (put s k (match o with Acknowledged => returned ttl q | _ => q end))
      (match o with Acknowledged => pred (returns s) | _ => returns s end) (running s)
      (execute o (return_jobs (pending q) w now) (db s)).1)
| step_finish i d' :
    i ∈ running s → finished i (db s) d' →
    step s (mkWorkerState (queues s) (returns s) (filter (λ k, k ≠ i) (running s)) d')
| step_others d' :
    others (db s) d' →
    step s (mkWorkerState (queues s) (returns s) (running s) d').

(** ** Invariant *)

(** Every claim a queue keeps, and those of them it may still hand out. *)
Definition claims (q : Queue) : list Z := (λ j : Job, id j) <$> job_queue q ++ inflight q ++ pending q.
Definition held (q : Queue) : list Z := (λ j : Job, id j) <$> job_queue q ++ inflight q.

Definition rest (s : Worker) (k : nat) : list Z := concat (claims <$> delete k (queues s)).

(** No claim is kept twice; what can be handed out or is running is still the
    worker's; claims pending return have a permit, and while there is one no
    claim statement can run. *)
Record inv (s : Worker) : Prop := {
  inv_db : db_inv (db s);
  inv_nodup : NoDup (concat (claims <$> queues s) ++ running s);
  inv_held : Forall (λ q, ∀ i, i ∈ held q → owned i (db s)) (queues s);
  inv_running : ∀ i, i ∈ running s → owned i (db s);
  inv_returns : returns s = count_if permit (queues s);
  inv_pending : Forall (λ q, pending q ≠ [] → permit q = true) (queues s);
  inv_inflight : Forall (λ q, fetching q = true → inflight q = []) (queues s);
  inv_guards : returns s ≠ 0%nat → can_begin_return (queues s) = true
}.

Lemma held_claims q i : i ∈ held q → i ∈ claims q.
Proof. unfold held, claims. rewrite app_assoc, (fmap_app _ (_ ++ _)), elem_of_app. tauto. Qed.

Lemma claims_split q : claims q = held q ++ ((λ j : Job, id j) <$> pending q).
Proof. unfold claims, held. by rewrite app_assoc, fmap_app. Qed.

(** The list of queues around the [k]-th. *)
Lemma queues_at (l : list Queue) k q :
  l !! k = Some q →
  concat (claims <$> l) ≡ₚ claims q ++ concat (claims <$> delete k l) ∧
  count_if permit l = ((if permit q then 1 else 0) + count_if permit (delete k l))%nat.
Proof.
  intros (l1 & l2 & -> & ->)%list_elem_of_split_length. rewrite delete_middle.
  rewrite !fmap_app, !concat_app, !count_if_app, count_if_cons. cbn.
  split; [|lia]. rewrite !app_assoc. by rewrite (Permutation_app_comm (concat _) (claims q)).
Qed.

Lemma queues_put s k q q' :
  queues s !! k = Some q →
  concat (claims <$> put s k q') ≡ₚ claims q' ++ rest s k ∧
  count_if permit (put s k q') = ((if permit q' then 1 else 0) + count_if permit (delete k (queues s)))%nat.
Proof.
  intros Hq. unfold put, rest. rewrite <- (delete_insert_eq (queues s) k q').
  apply queues_at, list_lookup_insert_eq, lookup_lt_is_Some. eauto.
Qed.

Lemma Forall_put P s k q q' :
  queues s !! k = Some q → Forall P (queues s) → (P q → P q') → Forall P (put s k q').
Proof.
  intros Hq HF H. apply Forall_insert; [done|]. apply H. by eapply Forall_lookup_1.
Qed.

(** A step that changes one queue, the counter, the running jobs and the
    tables. *)
Lemma inv_put s k q q' r' run' d' :
  inv s → queues s !! k = Some q → db_inv d' →
  NoDup (claims q' ++ rest s k ++ run') →
  (∀ i, i ∈ rest s k → owned i (db s) → owned i d') →
  (∀ i, i ∈ held q' → owned i d') → (∀ i, i ∈ run' → owned i d') →
  (r' + (if permit q then 1 else 0) = returns s + (if permit q' then 1 else 0))%nat →
  (pending q' ≠ [] → permit q' = true) → (fetching q' = true → inflight q' = []) →
  (r' ≠ 0%nat → can_begin_return (put s k q') = true) →
  inv (mkWorkerState (put s k q') r' run' d').
Proof.
  intros Hi Hq Hd Hn Hrest Hheld Hrun Hr Hpend Hinf Hg.
  destruct Hi as [_ _ Hh _ Hret Hp Hf _].
  destruct (queues_put s k q q' Hq) as [Hperm Hcount].
  constructor; cbn [queues returns running db]; [done| | |done| | | |done].
  - by rewrite Hperm, <- app_assoc.
  - apply Forall_forall. intros x Hx i Hi.
    apply list_elem_of_lookup in Hx as (m & Hm). unfold put in Hm.
    apply list_lookup_insert_Some in Hm as [(-> & -> & _)|(Hne & Hm)]; [by apply Hheld|].
    apply Hrest.
    + unfold rest. apply list_elem_of_In, in_concat. exists (claims x).
      rewrite <- !list_elem_of_In. split; [|by apply held_claims].
      apply list_elem_of_fmap. exists x. split; [done|]. apply list_elem_of_lookup.
      destruct (decide (m < k)%nat).
      * exists m. by rewrite list_lookup_delete_lt.
      * exists (pred m). rewrite list_lookup_delete_ge by lia. by replace (S (pred m)) with m by lia.
    + by eapply Forall_lookup_1 in Hh; [apply Hh|].
  - destruct (queues_at _ _ _ Hq) as [_ Hc]. lia.
  - by eapply Forall_put.
  - by eapply Forall_put.
Qed.

Definition idle (q : Queue) : bool := negb (fetching q) && bool_decide (direct q = 0%nat).

Lemma can_begin_return_Forall qs : can_begin_return qs = true ↔ Forall (λ q, idle q = true) qs.
Proof. unfold can_begin_return. rewrite forallb_forall, Forall_forall. by setoid_rewrite list_elem_of_In. Qed.

Lemma guards_put s k q q' :
  queues s !! k = Some q → can_begin_return (queues s) = true →
  (idle q = true → idle q' = true) → can_begin_return (put s k q') = true.
Proof.
  intros Hq. rewrite !can_begin_return_Forall. intros HF H. by eapply Forall_put.
Qed.

(** The claims of one queue, as part of all of them. *)
Lemma inv_nodup_at s k q : inv s → queues s !! k = Some q → NoDup (claims q ++ rest s k ++ running s).
Proof.
  intros Hi Hq. pose proof (inv_nodup s Hi) as H. destruct (queues_at _ _ _ Hq) as [Hp _].
  by rewrite Hp, <- app_assoc in H.
Qed.

(** A step within one queue that only moves claims. *)
Lemma inv_local s k q q' :
  inv s → queues s !! k = Some q →
  claims q' ≡ₚ claims q → (∀ i, i ∈ held q' → i ∈ held q) → permit q' = permit q →
  (pending q' ≠ [] → pending q ≠ [] ∨ permit q = true) →
  (fetching q' = true → fetching q = true ∧ (inflight q = [] → inflight q' = [])) →
  (idle q = true → idle q' = true) →
  inv (mkWorkerState (put s k q') (returns s) (running s) (db s)).
Proof.
  intros Hi Hq Hc Hh Hp Hpend Hf Hidle. pose proof Hi as [Hdb _ Hheld Hrun _ Hpe Hinf Hg].
  eapply (inv_put s k q); [done..| | | | |by rewrite Hp| | |].
  - rewrite Hc. by apply inv_nodup_at.
  - done.
  - intros i Hin. eapply Forall_lookup_1 in Hheld; [|done]. auto.
  - done.
  - intros [?| ?]%Hpend; rewrite Hp; [|done]. eapply Forall_lookup_1 in Hpe; [|done]. auto.
  - intros [? H]%Hf. apply H. eapply Forall_lookup_1 in Hinf; [|done]. auto.
  - intros Hne. eapply guards_put; eauto.
Qed.

(** set_mode changes nothing but the mode. *)
Lemma set_mode_cases m q : set_mode m q = q ∨ set_mode m q = with_mode m q.
Proof. unfold set_mode. destruct (_ || _ || _); auto. Qed.

Lemma inv_with_mode s k q m :
  inv s → queues s !! k = Some q →
  inv (mkWorkerState (put s k (with_mode m q)) (returns s) (running s) (db s)).
Proof. intros Hi Hq. eapply inv_local; try done. auto. Qed.

Lemma put_same_inv s k q : inv s → queues s !! k = Some q →
  inv (mkWorkerState (put s k q) (returns s) (running s) (db s)).
Proof. intros Hi Hq. unfold put. rewrite list_insert_id by done. by destruct s. Qed.

Lemma inv_set_mode s k q m :
  inv s → queues s !! k = Some q →
  inv (mkWorkerState (put s k (set_mode m q)) (returns s) (running s) (db s)).
Proof.
  intros Hi Hq. destruct (set_mode_cases m q) as [-> | ->]; [by apply put_same_inv|by apply inv_with_mode].
Qed.

(** No guard is held while a return is pending, and then nothing is pending
    while a guard is held. *)
Lemma guarded_no_pending s k q :
  inv s → queues s !! k = Some q → idle q = false →
  returns s = 0%nat ∧ ∀ x, x ∈ queues s → permit x = false ∧ pending x = [].
Proof.
  intros [_ _ _ _ Hr Hp _ Hg] Hq Hidle.
  assert (returns s = 0%nat) as H0.
  { destruct (decide (returns s = 0%nat)) as [|Hne]; [done|]. specialize (Hg Hne).
    rewrite can_begin_return_Forall in Hg. eapply Forall_lookup_1 in Hg; [|done]. congruence. }
  split; [done|]. intros x Hx.
  assert (permit x = false) as Hperm.
  { apply not_true_is_false. intros Ht. rewrite Hr in H0. unfold count_if in H0.
    apply length_zero_iff_nil in H0. assert (x ∈ filter (λ x, permit x = true) (queues s)) as Hin
      by (by apply list_elem_of_filter). rewrite H0 in Hin. by apply not_elem_of_nil in Hin. }
  split; [done|]. rewrite Forall_forall in Hp. destruct (pending x) eqn:E; [done|].
  specialize (Hp x Hx). rewrite E in Hp. rewrite Hp in Hperm; done.
Qed.

(** While a guard is held every claim is the worker's. *)
Lemma guarded_owned s k q i :
  inv s → queues s !! k = Some q → idle q = false →
  i ∈ claims q ++ rest s k ++ running s → owned i (db s).
Proof.
  intros Hi Hq Hidle. destruct (guarded_no_pending s k q Hi Hq Hidle) as [_ Hno].
  pose proof Hi as [_ _ Hheld Hrun _ _ _ _]. destruct (queues_at _ _ _ Hq) as [Hp _].
  rewrite app_assoc. fold (rest s k) in Hp. rewrite <- Hp, elem_of_app. intros [Hin|]; [|auto].
  apply list_elem_of_In, in_concat in Hin as (l & Hl & Hil).
  apply list_elem_of_In, list_elem_of_fmap in Hl as (x & -> & Hx). apply list_elem_of_In in Hil.
  rewrite claims_split in Hil. destruct (Hno x Hx) as [_ Hpx]. rewrite Hpx, app_nil_r in Hil.
  rewrite Forall_forall in Hheld. by apply (Hheld x).
Qed.

(** ** Claims and returns *)

(** What a claim statement of the worker adds: rows it did not hold before,
    each once, and it loses none. *)
Definition gains (ids : list Z) (d d' : Db) : Prop :=
  db_inv d' ∧ NoDup ids ∧ (∀ i, i ∈ ids → ¬ owned i d ∧ owned i d') ∧ (∀ i, owned i d → owned i d').

Lemma claim_gains con tids filt t d sel :
  db_inv d → claimed con tids filt t d sel → gains sel.*1 d (apply_claim w t sel d).
Proof.
  intros Hd Hcl. pose proof Hcl as (Hn & Hc & _). split_and!; [by eapply JobInvariant.inv_claim|done|..].
  - intros i ([i' j] & -> & Hin)%list_elem_of_fmap. cbn. destruct (Hc _ _ Hin) as [Hj Hcand]. split.
    + apply candidate_spec in Hcand as (Hl & _). intros (x & Hx & Hb). simplify_eq.
      rewrite (JobInvariant.inv_unlocked d i' j Hd Hj Hl) in Hb. done.
    + exists (lock_job w t j). split; [|done]. apply apply_claim_job; [done|].
      apply list_elem_of_fmap. by exists (i', j).
  - intros i (j & Hj & Hb). destruct (decide (i ∈ sel.*1)).
    + exists (lock_job w t j). split; [by apply apply_claim_job|done].
    + exists j. by rewrite apply_claim_other.
Qed.

Lemma returned_ids td con tids filt t d sel :
  db_inv d → claimed con tids filt t d sel →
  (λ j : Job, id j) <$> returned_jobs td w t sel = sel.*1.
Proof.
  intros Hd (_ & Hc & _). unfold returned_jobs. rewrite <- list_fmap_compose.
  apply list_fmap_ext. intros k [i j] Hk. cbn.
  by apply (JobInvariant.inv_keyed d Hd), Hc, (list_elem_of_lookup_2 _ k).
Qed.

Lemma fetch_gains con clock td filt n now d d' rows :
  db_inv d → batch_get_jobs_with_filter con clock td w filt n now d d' (Ok rows) →
  gains ((λ j : Job, id j) <$> rows) d d'.
Proof.
  intros Hd Hb. pose proof (JobInvariant.inv_keyed d Hd) as Hkey.
  destruct (batch_claim_inv _ _ _ _ _ _ _ _ _ _ Hkey Hb) as (sel & Hcl & -> & Hp & _).
  destruct (claim_gains _ _ _ _ _ _ Hd Hcl) as (H1 & H2 & H3 & H4).
  pose proof (returned_ids td _ _ _ _ _ _ Hd Hcl) as Hids.
  split_and!; [done| |..|done].
  - by rewrite Hp, Hids.
  - intros i. rewrite Hp, Hids. apply H3.
Qed.

Lemma get_gains con clock td filt now d d' (job : Job) :
  db_inv d → get_job_with_filter con clock td w filt now d d' (Some job) → gains [id job] d d'.
Proof.
  intros Hd (sel & Hcl & -> & Hr & Hlen)%get_claim_inv.
  pose proof (returned_ids td _ _ _ _ _ _ Hd Hcl) as Hids.
  destruct sel as [|a [|b sel]]; [done| |cbn in Hlen; lia].
  pose proof (claim_gains _ _ _ _ _ _ Hd Hcl) as Hg. rewrite <- Hids in Hg. cbn in Hr, Hg.
  injection Hr as ->. apply Hg.
Qed.

Lemma return_other js now d i :
  i ∉ (λ j : Job, id j) <$> js → jobs (return_jobs js w now d) !! i = jobs d !! i.
Proof.
  intros Hi. unfold return_jobs. destruct (is_empty js); [done|].
  cbn [private_return_jobs jobs with_queues with_jobs]. rewrite lookup_update_where.
  rewrite bool_decide_eq_false_2 by done. by destruct (jobs d !! i).
Qed.

Lemma return_inv js now d : db_inv d → db_inv (return_jobs js w now d).
Proof.
  intros. unfold return_jobs. destruct (is_empty js); [done|by apply JobInvariant.inv_private_return].
Qed.

Lemma return_unlocks js now d i :
  i ∈ (λ j : Job, id j) <$> js → ¬ owned i (return_jobs js w now d).
Proof.
  intros Hi. unfold return_jobs. destruct js as [|j0 js]; [by apply not_elem_of_nil in Hi|]. cbn [is_empty].
  intros (j & Hj & Hb). cbn [private_return_jobs jobs with_queues with_jobs] in Hj.
  apply update_where_Some in Hj as (r & Hr & ->). rewrite bool_decide_eq_true_2 in Hb by done.
  cbn [andb] in Hb. unfold owned_by in Hb. case_bool_decide; [|done]. by cbn in Hb.
Qed.

(** A claim made under a guard takes nothing that is kept already. *)
Lemma gains_fresh s k q ids d' :
  inv s → queues s !! k = Some q → idle q = false → gains ids (db s) d' →
  NoDup (claims q ++ rest s k ++ (running s ++ ids)).
Proof.
  intros Hi Hq Hidle (_ & Hn & Hnew & _). rewrite !app_assoc. apply NoDup_app.
  rewrite <- !app_assoc. split_and!; [by apply inv_nodup_at| |done].
  intros i Hin Hids. destruct (Hnew i Hids) as [Hno _]. apply Hno.
  by eapply guarded_owned.
Qed.

(** ** Preservation *)

(** Taking a guard: no return is pending. *)
Lemma inv_take_guard s k q q' :
  inv s → queues s !! k = Some q → try_fetch (returns s) = true →
  claims q' = claims q → held q' = held q → permit q' = permit q → pending q' = pending q →
  (fetching q' = true → fetching q = true ∨ inflight q = []) → inflight q' = inflight q →
  inv (mkWorkerState (put s k q') (returns s) (running s) (db s)).
Proof.
  intros Hi Hq Ht Hc Hh Hp Hpe Hf Hinf. pose proof Hi as [Hdb _ Hheld Hrun _ Hpend Hfl _].
  apply bool_decide_eq_true in Ht.
  eapply (inv_put s k q); [done..| | | |done|by rewrite Hp| | |].
  - rewrite Hc. by apply inv_nodup_at.
  - done.
  - rewrite Hh. eapply Forall_lookup_1 in Hheld; [|done]. auto.
  - rewrite Hp, Hpe. eapply Forall_lookup_1 in Hpend; [|done]. auto.
  - rewrite Hinf. eapply Forall_lookup_1 in Hfl; [|done]. intros [?|?]%Hf; auto.
  - done.
Qed.

Lemma inv_fetched s k q ids d' q' :
  inv s → queues s !! k = Some q → fetching q = true → gains ids (db s) d' →
  (∀ rows : list Job, q' = end_fetch rows q →
     (rows = [] ∨ (λ j : Job, id j) <$> rows = ids) →
     inv (mkWorkerState (put s k q') (returns s) (running s) d')).
Proof.
  intros Hi Hq Hf Hg rows -> Hrows. pose proof Hi as [_ _ Hheld Hrun _ Hpend Hfl Hguard].
  assert (idle q = false) as Hidle by (unfold idle; by rewrite Hf).
  destruct (guarded_no_pending s k q Hi Hq Hidle) as [H0 Hno].
  destruct (Hno q ltac:(by eapply list_elem_of_lookup_2)) as [Hperm Hpq].
  pose proof (gains_fresh _ _ _ _ _ Hi Hq Hidle Hg) as Hfresh.
  pose proof (Forall_lookup_1 _ _ _ _ Hfl Hq Hf) as Hin0. pose proof Hg as (Hd' & _ & Hnew & Hold).
  assert (claims q = (λ j : Job, id j) <$> job_queue q) as Ecl.
  { unfold claims. by rewrite Hin0, Hpq, !app_nil_r. }
  eapply (inv_put s k q); [done..| | | | |done| | |].
  - assert (claims (end_fetch rows q) = claims q ++ ((λ j : Job, id j) <$> rows)) as ->.
    { rewrite Ecl. unfold claims. cbn. by rewrite Hpq, app_nil_r, fmap_app. }
    destruct Hrows as [-> | ->]; [cbn; rewrite app_nil_r; by apply inv_nodup_at|].
    rewrite <- app_assoc. rewrite (Permutation_app_comm ids), <- app_assoc. done.
  - intros i _. apply Hold.
  - intros i. unfold held. cbn. rewrite fmap_app, elem_of_app. intros [Hi1|Hi2].
    + apply Hold. eapply Forall_lookup_1 in Hheld; [|done]. apply Hheld. unfold held.
      rewrite fmap_app, elem_of_app. auto.
    + destruct Hrows as [-> |Hr]; [by apply not_elem_of_nil in Hi2|]. rewrite Hr in Hi2. by apply Hnew.
  - intros i Hir. by apply Hold, Hrun.
  - cbn. rewrite Hpq. done.
  - done.
  - rewrite H0. done.
Qed.

Lemma inv_direct_job s k q n d' (job : Job) :
  inv s → queues s !! k = Some q → direct q = S n → gains [id job] (db s) d' →
  inv (mkWorkerState (put s k (set_direct n q)) (returns s) (id job :: running s) d').
Proof.
  intros Hi Hq Hdir Hg. pose proof Hi as [_ _ Hheld Hrun _ Hpend Hfl _].
  assert (idle q = false) as Hidle by (unfold idle; by rewrite Hdir, andb_false_r).
  destruct (guarded_no_pending s k q Hi Hq Hidle) as [H0 _].
  pose proof (gains_fresh _ _ _ _ _ Hi Hq Hidle Hg) as Hfresh. pose proof Hg as (Hd' & _ & Hnew & Hold).
  eapply (inv_put s k q); [done..| | | | |done| | |].
  - change (claims (set_direct n q)) with (claims q). by rewrite (Permutation_app_comm (running s) [id job]) in Hfresh.
  - intros i _. apply Hold.
  - intros i Hin. apply Hold. eapply Forall_lookup_1 in Hheld; [|done]. by apply Hheld.
  - intros i [-> |Hin]%elem_of_cons; [by apply Hnew; left|by apply Hold, Hrun].
  - exact (Forall_lookup_1 _ _ _ _ Hpend Hq).
  - exact (Forall_lookup_1 _ _ _ _ Hfl Hq).
  - rewrite H0. done.
Qed.

Lemma pop_cached_inv q (job : Job) q' :
  pop_cached q = Some (job, q') →
  ∃ rest, job_queue q = job :: rest ∧ mode q ≠ Released ∧ mode q ≠ TtlExpired ∧
    job_queue q' = rest ∧ inflight q' = inflight q ∧ pending q' = pending q ∧ permit q' = permit q ∧
    fetching q' = fetching q ∧ direct q' = direct q.
Proof.
  unfold pop_cached. intros E.
  destruct (mode q), (job_queue q) as [|j rest] eqn:Hc; try done; injection E as <- <-; exists rest;
    (destruct (is_empty rest); [destruct (set_mode_cases Polling (mkQueue (mode q) rest (fetching q)
      (direct q) (inflight q) (pending q) (permit q) (ttl_return_complete q))) as [E|E]|]);
    unfold set_mode in *; split_and!; try done; repeat case_match; done.
Qed.

Lemma inv_pop s k q (job : Job) q' :
  inv s → queues s !! k = Some q → pop_cached q = Some (job, q') →
  inv (mkWorkerState (put s k q') (returns s) (id job :: running s) (db s)).
Proof.
  intros Hi Hq (l & Hc & _ & _ & Hc' & Hin & Hp & Hpe & Hf & Hd)%pop_cached_inv.
  pose proof Hi as [Hdb _ Hheld Hrun _ Hpend Hfl Hguard].
  pose proof (inv_nodup_at s k q Hi Hq) as Hn.
  assert (claims q = id job :: claims q') as Ecl by (unfold claims; by rewrite Hc, Hc', Hin, Hp).
  assert (held q = id job :: held q') as Eh by (unfold held; by rewrite Hc, Hc', Hin).
  pose proof (Forall_lookup_1 _ _ _ _ Hheld Hq) as Hhq. cbn beta in Hhq. rewrite Eh in Hhq.
  eapply (inv_put s k q); [done..| | | | |by rewrite Hpe| | |].
  - rewrite Ecl in Hn. by rewrite app_assoc, <- Permutation_middle, <- app_assoc.
  - done.
  - intros i Hii. apply Hhq. by right.
  - intros i [-> |Hii]%elem_of_cons; [apply Hhq; left|auto].
  - rewrite Hp, Hpe. exact (Forall_lookup_1 _ _ _ _ Hpend Hq).
  - rewrite Hf, Hin. exact (Forall_lookup_1 _ _ _ _ Hfl Hq).
  - intros Hne. eapply guards_put; eauto. unfold idle. by rewrite Hf, Hd.
Qed.

Lemma inv_permit s k q :
  inv s → queues s !! k = Some q → permit q = false → can_begin_return (queues s) = true →
  inv (mkWorkerState (put s k (take_permit q)) (S (returns s)) (running s) (db s)).
Proof.
  intros Hi Hq Hp Hg. pose proof Hi as [Hdb _ Hheld Hrun _ _ Hfl _].
  eapply (inv_put s k q); [done..| | | |done| | | |].
  - by apply (inv_nodup_at s k q).
  - done.
  - exact (Forall_lookup_1 _ _ _ _ Hheld Hq).
  - rewrite Hp. cbn. lia.
  - done.
  - exact (Forall_lookup_1 _ _ _ _ Hfl Hq).
  - intros _. by eapply guards_put.
Qed.

(** The return statement, with or without a reply: nothing outside the
    pending claims of the queue changes. *)
Lemma inv_return_db s k q d' :
  inv s → queues s !! k = Some q → db_inv d' →
  (∀ i, i ∉ (λ j : Job, id j) <$> pending q → jobs d' !! i = jobs (db s) !! i) →
  ∀ q' r', held q' = held q → (pending q' = pending q ∨ pending q' = []) →
  (r' + (if permit q then 1 else 0) = returns s + (if permit q' then 1 else 0))%nat →
  (permit q' = permit q ∨ pending q' = []) → fetching q' = fetching q → inflight q' = inflight q →
  idle q' = idle q →
  (r' ≠ 0%nat → returns s ≠ 0%nat) →
  inv (mkWorkerState (put s k q') r' (running s) d').
Proof.
  intros Hi Hq Hd Hother q' r' Hh Hp Hr Hpe Hf Hinf Hidle Hr0.
  pose proof Hi as [_ _ Hheld Hrun _ Hpend Hfl Hg]. pose proof (inv_nodup_at s k q Hi Hq) as Hn.
  assert (∀ i, i ∈ held q ++ rest s k ++ running s → i ∉ (λ j : Job, id j) <$> pending q) as Hdisj.
  { rewrite claims_split, <- app_assoc in Hn. apply NoDup_app in Hn as (_ & H1 & H2).
    intros i [Hi1|Hi1]%elem_of_app Hi2.
    - apply (H1 i Hi1). apply elem_of_app. by left.
    - apply NoDup_app in H2 as (_ & H2 & _). by apply (H2 i Hi2). }
  assert (∀ i, i ∈ held q ++ rest s k ++ running s → owned i (db s) → owned i d') as Hkeep.
  { intros i Hin (j & Hj & Hb). exists j. rewrite Hother by (by apply Hdisj). done. }
  eapply (inv_put s k q); [done..| | | | |done| | |].
  - rewrite claims_split, Hh, <- app_assoc. rewrite claims_split, <- app_assoc in Hn.
    destruct Hp as [-> | ->]; [done|]. cbn.
    apply NoDup_app in Hn as (H1 & H2 & H3). apply NoDup_app. split_and!; [done| |].
    + intros i Hi1 Hi2. apply (H2 i Hi1). apply elem_of_app. by right.
    + by apply NoDup_app in H3 as (_ & _ & ?).
  - intros i Hir. apply Hkeep. set_solver.
  - intros i. rewrite Hh. intros Hih. apply Hkeep; [set_solver|].
    exact (Forall_lookup_1 _ _ _ _ Hheld Hq i Hih).
  - intros i Hir. apply Hkeep; [set_solver|auto].
  - destruct Hpe as [-> | ->]; [|done]. destruct Hp as [-> | ->]; [|done].
    exact (Forall_lookup_1 _ _ _ _ Hpend Hq).
  - rewrite Hf, Hinf. exact (Forall_lookup_1 _ _ _ _ Hfl Hq).
  - intros Hne. eapply guards_put; [done|by auto|]. by rewrite Hidle.
Qed.

Lemma inv_return s k q now (o : Outcome) ttl :
  inv s → queues s !! k = Some q → permit q = true →
  inv (mkWorkerState
    (put s k (match o with Acknowledged => returned ttl q | _ => q end))
    (match o with Acknowledged => pred (returns s) | _ => returns s end) (running s)
    (execute o (return_jobs (pending q) w now) (db s)).1).
Proof.
  intros Hi Hq Hp.
  assert (returns s ≠ 0%nat) as Hne.
  { rewrite (inv_returns s Hi). destruct (queues_at _ _ _ Hq) as [_ ->]. rewrite Hp. done. }
  pose proof (inv_db s Hi).
  eapply inv_return_db; try done.
  - destruct o; cbn [execute fst]; [|done|]; by apply return_inv.
  - intros i Hin. destruct o; cbn [execute fst]; [|done|]; by apply return_other.
  - by destruct o.
  - destruct o; auto.
  - destruct o; rewrite ?Hp; cbn; lia.
  - destruct o; auto.
  - by destruct o.
  - by destruct o.
  - by destruct o.
Qed.

Lemma inv_tables s d' :
  inv s → db_inv d' → ∀ run', run' `sublist_of` running s →
  (∀ i, i ∈ concat (claims <$> queues s) ++ run' → owned i (db s) → owned i d') →
  inv (mkWorkerState (queues s) (returns s) run' d').
Proof.
  intros [_ Hn Hheld Hrun Hr Hp Hf Hg] Hd run' Hsub Hkeep.
  constructor; cbn [queues returns running db]; try done.
  - apply NoDup_app in Hn as (H1 & H2 & H3). apply NoDup_app. split_and!; [done| |].
    + intros i Hi1 Hi2. apply (H2 i Hi1). by eapply elem_of_submseteq, sublist_submseteq.
    + by eapply sublist_NoDup.
  - apply Forall_forall. intros q Hq i Hi. rewrite Forall_forall in Hheld.
    apply Hkeep; [|by apply (Hheld q)]. apply elem_of_app. left.
    apply list_elem_of_In, in_concat. exists (claims q). rewrite <- !list_elem_of_In.
    split; [apply list_elem_of_fmap; by exists q|by apply held_claims].
  - intros i Hi. apply Hkeep; [apply elem_of_app; by right|].
    apply Hrun. by eapply elem_of_submseteq, sublist_submseteq.
Qed.

Lemma worker_step_inv s s' : inv s → step s s' → inv s'.
Proof.
  intros Hi Hs. destruct Hs as [k q m Hq|k q Hq Ht Hf Hin|k q con clock td filt n now d' rows o Hq Hf Hb
    |k q Hq Hf|k q Hq Ht|k q n con clock td filt now d' job Hq Hd Hm Hg|k q n Hq Hd|k q Hq
    |k q job q' Hq Hpop|k q q' Hq Httl|k q Hq|k q Hq Hp Hg|k q Hq Hp|k q now o ttl Hq Hp
    |i d' Hin [Hd Hk]|d' [Hd Hk]].
  - by apply inv_set_mode.
  - eapply inv_take_guard; try done. by right.
  - destruct o.
    + eapply inv_fetched; [done..|by eapply fetch_gains, Hb; apply inv_db|done|by right].
    + eapply (inv_fetched s k q []); [done..| |done|by left]. split_and!; try done; [by apply inv_db|constructor|set_solver].
    + eapply inv_fetched; [done..|by eapply fetch_gains, Hb; apply inv_db|done|by left].
  - assert (inv (mkWorkerState (put s k (mkQueue (mode q) (job_queue q ++ inflight q) (fetching q) (direct q) []
      (pending q) (permit q) (ttl_return_complete q))) (returns s) (running s) (db s))) as H.
    { eapply inv_local; try done; unfold claims, held; cbn; [by rewrite <- app_assoc|by rewrite app_nil_r|auto]. }
    eapply (inv_set_mode _ k) in H; [|apply list_lookup_insert_eq, lookup_lt_is_Some; eauto].
    unfold put in H. cbn [queues returns running db] in H. by rewrite list_insert_insert_eq in H.
  - eapply inv_take_guard; try done. by left.
  - eapply inv_direct_job; try done. eapply get_gains, Hg. by apply inv_db.
  - eapply inv_local; try done; [auto|]. unfold idle. by rewrite Hd, andb_false_r.
  - unfold resume. destruct (_ && _); [by apply inv_set_mode|by apply put_same_inv].
  - by eapply inv_pop.
  - unfold set_mode_ttl_expired in Httl. case_bool_decide; [|done]. injection Httl as <-.
    eapply inv_local; try done. auto.
  - by apply inv_with_mode.
  - by apply inv_permit.
  - eapply inv_local; try done; unfold claims, held; cbn; try done; [|set_solver|auto].
    by rewrite (Permutation_app_comm (job_queue q)), <- app_assoc.
  - by apply inv_return.
  - apply inv_tables; [done..|apply sublist_filter|]. intros x Hx. apply Hk. intros ->.
    pose proof (inv_nodup s Hi) as (_ & Hn & _)%NoDup_app.
    apply elem_of_app in Hx as [Hx|[Hx _]%list_elem_of_filter]; [by apply (Hn i)|done].
  - apply inv_tables; [done..|reflexivity|]. auto.
Qed.

(** Any number of fresh queues over well-formed tables. *)
Definition started (s : Worker) : Prop :=
  ∃ n, queues s = replicate n new_queue ∧ returns s = 0%nat ∧ running s = [] ∧ db_inv (db s).

Definition reachable (s : Worker) : Prop := ∃ s0, started s0 ∧ rtc step s0 s.

Lemma started_inv s : started s → inv s.
Proof.
  intros (n & Hq & Hr & Hrun & Hd). constructor; rewrite ?Hq, ?Hr, ?Hrun; try done.
  - clear. induction n as [|n IH]; [apply NoDup_nil_2|exact IH].
  - apply Forall_replicate. intros i Hi. by apply not_elem_of_nil in Hi.
  - intros i Hi. by apply not_elem_of_nil in Hi.
  - clear. induction n as [|n IH]; [done|]. cbn [replicate]. rewrite count_if_cons, <- IH. done.
  - by apply Forall_replicate.
  - by apply Forall_replicate.
Qed.

Lemma worker_reachable_inv s : reachable s → inv s.
Proof.
  intros (s0 & H0 & Hs). apply started_inv in H0. induction Hs; eauto using worker_step_inv.
Qed.

(** ** What the coordinator guarantees *)

Lemma claims_elem s k q i : queues s !! k = Some q → i ∈ claims q → i ∈ concat (claims <$> queues s).
Proof.
  intros Hq Hi. apply list_elem_of_In, in_concat. exists (claims q). rewrite <- !list_elem_of_In.
  split; [|done]. apply list_elem_of_fmap. exists q. split; [done|]. by eapply list_elem_of_lookup_2.
Qed.

(** C5: Returning claims never takes a job from a handler.  Whatever the
    interleaving of fetches, direct claims, expiries, cancelled and retried
    returns and replies lost on the way, in every local queue of the worker:
    each job its handlers run is still locked by the worker, is not among the
    claims any queue is giving back, and a return statement, however it ends,
    leaves its row as it is. *)
Theorem returns_spare_running_jobs s k q now (o : Outcome) i :
  reachable s → queues s !! k = Some q → i ∈ running s →
  owned i (db s) ∧ i ∉ (λ j : Job, id j) <$> pending q ∧
  jobs (execute o (return_jobs (pending q) w now) (db s)).1 !! i = jobs (db s) !! i.
Proof.
  intros [_ Hn _ Hrun _ _ _ _]%worker_reachable_inv Hq Hi.
  assert (i ∉ (λ j : Job, id j) <$> pending q) as Hno.
  { intros Hp. apply NoDup_app in Hn as (_ & Hn & _). apply (Hn i); [|done].
    eapply claims_elem; [done|]. rewrite claims_split. apply elem_of_app. by right. }
  split_and!; [by apply Hrun|done|]. destruct o; cbn [execute fst]; [|done|]; by apply return_other.
Qed.

(** A job leaves a cache at most once and only while the worker owns it: the
    job popped is locked by the worker, no handler is running it, no other
    place of this queue still has it and no queue at all is giving it back. *)
Theorem cached_jobs_handed_once s k q (job : Job) q' :
  reachable s → queues s !! k = Some q → pop_cached q = Some (job, q') →
  owned (id job) (db s) ∧ id job ∉ running s ∧ id job ∉ claims q' ∧
  ∀ k' x, queues s !! k' = Some x → id job ∉ (λ j : Job, id j) <$> pending x.
Proof.
  intros Hre Hq Hpop. pose proof (worker_reachable_inv s Hre) as Hi.
  pose proof (inv_pop s k q job q' Hi Hq Hpop) as Hi'.
  assert (id job ∈ held q) as Hh.
  { apply pop_cached_inv in Hpop as (l & Hc & _). unfold held. rewrite Hc. cbn. left. }
  assert (owned (id job) (db s)) as Ho by exact (Forall_lookup_1 _ _ _ _ (inv_held s Hi) Hq _ Hh).
  assert (∀ k' x, put s k q' !! k' = Some x → id job ∉ claims x) as Hgone.
  { intros k' x Hx Hin. pose proof (inv_nodup _ Hi') as (_ & Hn & _)%NoDup_app.
    apply (Hn (id job)); [|by left]. by eapply (claims_elem (mkWorkerState (put s k q') 0 [] (db s))). }
  assert (put s k q' !! k = Some q') as Hk by (apply list_lookup_insert_eq, lookup_lt_is_Some; eauto).
  split_and!; [done| |by eapply Hgone|].
  - pose proof (inv_nodup s Hi) as (_ & Hn & _)%NoDup_app. apply Hn.
    eapply claims_elem; [done|]. by apply held_claims.
  - intros k' x Hx Hin. destruct (decide (k' = k)) as [-> |Hne].
    + simplify_eq. apply (Hgone k q' Hk). rewrite claims_split. apply elem_of_app. right.
      apply pop_cached_inv in Hpop as (l & _ & _ & _ & _ & _ & -> & _). done.
    + apply (Hgone k' x); [by unfold put; rewrite list_lookup_insert_ne|].
      rewrite claims_split. apply elem_of_app. by right.
Qed.

(** ** Retried returns *)

Definition is_acked (o : Outcome) : bool := match o with Acknowledged => true | _ => false end.

Lemma return_loop_steps s k q ttl budget attempt outcome clock d :
  queues s !! k = Some q → permit q = true →
  let '(d', r) := return_jobs_loop budget attempt outcome clock (pending q) d in
  let s' := mkWorkerState (queues s) (returns s) (running s) in
  (rtc step (s' d)
     (match r with
      | Ok _ => mkWorkerState (put s k (returned ttl q)) (pred (returns s)) (running s) d'
      | Err _ => s' d'
      end)) ∧
  (r = Ok tt ↔ ∃ n, (n < budget)%nat ∧ is_acked (outcome (attempt + n)%nat) = true) ∧
  (∀ n, r = Err n → n = (attempt + budget)%nat).
Proof.
  intros Hq Hp. revert attempt d. induction budget as [|budget IH]; intros attempt d; cbn [return_jobs_loop].
  { split_and!; [apply rtc_refl| |intros n [= ->]; lia]. split; [done|]. intros (n & ? & _). lia. }
  pose proof (step_return (mkWorkerState (queues s) (returns s) (running s) d) k q (clock attempt)
    (outcome attempt) ttl Hq Hp) as Hstep. cbn [queues returns running db] in Hstep.
  specialize (IH (S attempt)). destruct (outcome attempt) eqn:Ho; cbn [execute fst] in *.
  - split_and!; [by apply rtc_once| |done]. split; [|done]. intros _. exists 0%nat.
    rewrite Nat.add_0_r, Ho. split; [lia|done].
  - specialize (IH d). destruct (return_jobs_loop _ _ _ _ _ _) as [d' r]. destruct IH as (H1 & H2 & H3).
    split_and!; [done| |intros n ->%H3; lia]. rewrite H2. split.
    + intros (n & ? & ?). exists (S n). rewrite <- Nat.add_succ_comm. split; [lia|done].
    + intros ([|n] & ? & Hn); [rewrite Nat.add_0_r, Ho in Hn; done|].
      exists n. rewrite Nat.add_succ_comm. split; [lia|done].
  - specialize (IH (return_jobs (pending q) w (clock attempt) d)).
    destruct (return_jobs_loop _ _ _ _ _ _) as [d' r]. destruct IH as (H1 & H2 & H3).
    split_and!; [|rewrite H2; split|intros n ->%H3; lia].
    + eapply rtc_l; [|done]. unfold put in Hstep. cbn [queues] in Hstep. rewrite list_insert_id in Hstep by done. done.
    + intros (n & ? & ?). exists (S n). rewrite <- Nat.add_succ_comm. split; [lia|done].
    + intros ([|n] & ? & Hn); [rewrite Nat.add_0_r, Ho in Hn; done|].
      exists n. rewrite Nat.add_succ_comm. split; [lia|done].
Qed.

(** The retry loop of a return is a sequence of return steps, so everything
    proved of those steps holds across it.  It terminates after at most
    [RETURN_MAX_ATTEMPTS] statements; it succeeds exactly when one of them is
    acknowledged, and only then are the pending claims and their permit given
    up; otherwise they are kept for a later attempt, and the error names the
    number of attempts. *)
Theorem return_retry_refines_steps s k q ttl outcome clock :
  queues s !! k = Some q → permit q = true →
  let '(d', r) := return_jobs_with_retry outcome clock (pending q) (db s) in
  rtc step s (match r with
    | Ok _ => mkWorkerState (put s k (returned ttl q)) (pred (returns s)) (running s) d'
    | Err _ => mkWorkerState (queues s) (returns s) (running s) d'
    end) ∧
  (r = Ok tt ↔ ∃ n, (n < RETURN_MAX_ATTEMPTS)%nat ∧ outcome n = Acknowledged) ∧
  (∀ n, r = Err n → n = RETURN_MAX_ATTEMPTS).
Proof.
  intros Hq Hp. unfold return_jobs_with_retry.
  pose proof (return_loop_steps s k q ttl RETURN_MAX_ATTEMPTS 0 outcome clock (db s) Hq Hp) as H.
  destruct (return_jobs_loop _ _ _ _ _ _) as [d' r]. destruct H as (H1 & H2 & H3).
  split_and!; [by destruct s| |done]. rewrite H2. cbn [Nat.add].
  split; intros (n & ? & Hn); exists n; (split; [done|]); by destruct (outcome n).
Qed.

(** A validated configuration asks the database for exactly the configured
    number of jobs, which the statement accepts. *)
Lemma validated_fetch_size c poll :
  0 ≤ size c → validate c poll = Ok tt → fetch_size c = size c ∧ 1 ≤ fetch_size c ≤ I32_MAX.
Proof.
  intros H0. unfold validate, fetch_size. case_match; [|done].
  destruct (Z.eqb_spec (size c) 0), (Z.eqb_spec (queue_count c) 0); try done.
  rewrite Z.gtb_ltb. destruct (Z.ltb_spec I32_MAX (size c)); [done|]. intros _.
  destruct (Z.leb_spec (size c) I32_MAX); lia.
Qed.

(** A released queue stays released. *)
Lemma step_keeps_released s s' k q :
  step s s' → queues s !! k = Some q → mode q = Released →
  ∃ q', queues s' !! k = Some q' ∧ mode q' = Released.
Proof.
  intros Hs Hq Hm.
  assert (∀ k' x x', queues s !! k' = Some x → (mode x = Released → mode x' = Released) →
    ∃ q', put s k' x' !! k = Some q' ∧ mode q' = Released) as Hput.
  { intros k' x x' Hx Hmx. destruct (decide (k' = k)) as [-> |Hne].
    - exists x'. split; [apply list_lookup_insert_eq, lookup_lt_is_Some; eauto|]. apply Hmx. congruence.
    - exists q. unfold put. by rewrite list_lookup_insert_ne. }
  assert (∀ m x, mode x = Released → mode (set_mode m x) = Released) as Hset.
  { intros m x Hx. unfold set_mode. rewrite (bool_decide_eq_true_2 _ Hx), orb_true_r. done. }
  destruct Hs; cbn [queues]; try (by eapply Hput; eauto; intros; apply Hset); try (by eauto).
  - eapply Hput; [done|]. intros Hx. unfold resume. destruct (_ && _); auto.
  - eapply Hput; [done|]. intros Hx. by apply pop_cached_inv in H0 as (l & _ & ? & _).
  - eapply Hput; [done|]. intros Hx. unfold set_mode_ttl_expired in H0. rewrite Hx in H0. done.
  - eapply Hput; [done|]. intros Hx. by destruct o.
Qed.

(** Release is final and complete.  Once a queue is released it stays so and
    hands out nothing more, whatever happens next; and when its fetch loop has
    ended, draining the cache and returning what is pending with an
    acknowledged statement leaves the queue without claims and every claim it
    kept unlocked in the tables. *)
Theorem release_returns_every_claim s k q now :
  queues s !! k = Some q → mode q = Released →
  (∀ s', rtc step s s' → ∃ q', queues s' !! k = Some q' ∧ mode q' = Released ∧ pop_cached q' = None) ∧
  (fetching q = false → inflight q = [] →
     claims (returned false (drain q)) = [] ∧
     ∀ i, i ∈ claims q → ¬ owned i (return_jobs (pending (drain q)) w now (db s))).
Proof.
  intros Hq Hm. split.
  - intros s' Hs. assert (∃ q', queues s' !! k = Some q' ∧ mode q' = Released) as (q' & ? & Hm').
    { revert q Hq Hm. induction Hs as [s|s s1 s2 H1 _ IH]; intros q Hq Hm; [eauto|].
      destruct (step_keeps_released _ _ _ _ H1 Hq Hm) as (q1 & ? & ?). by eapply IH. }
    exists q'. split_and!; [done..|]. unfold pop_cached. by rewrite Hm'.
  - intros _ Hin. split; [unfold claims; cbn; by rewrite Hin|]. intros i Hi. apply return_unlocks.
    unfold claims in Hi. rewrite Hin in Hi. cbn. rewrite Permutation_app_comm. done.
Qed.
End worker.

(** ** Witnesses *)

(** Two jobs without a queue are fetched and cached, one is handed out, then
    the time to live expires and the other one is being returned. *)
Definition plain_job : AddJob.JobToAdd :=
  AddJob.mkToAdd (lit "task") (Object []) default_spec.
Definition two_jobs : Db :=
  JobInvariant.ok_db (AddJob.add_jobs None 0 [plain_job; plain_job] ∅ false false 0 empty_db) empty_db.
Definition two_claim : Db * result (list Job) SqlError :=
  batch_get_jobs_exec demo_con 10 demo_tasks (lit "w") no_filter 5 None two_jobs.
Definition two_rows : list Job := match two_claim.2 with Ok r => r | Err _ => [] end.

Lemma two_jobs_inv : db_inv two_jobs.
Proof.
  apply (JobInvariant.reachable_inv (λ _, 0)), JobInvariant.run_add; [done|]. apply rtc_refl.
Qed.

Definition cached : Queue :=
  set_mode Waiting (mkQueue Starting two_rows false 0 [] [] false false).
Definition one_queue (q : Queue) (r : nat) (run : list Z) (d : Db) : Worker := mkWorkerState [q] r run d.

Lemma cached_reachable : reachable (lit "w") (one_queue cached 0 [] two_claim.1).
Proof.
  exists (one_queue new_queue 0 [] two_jobs). split.
  { exists 1%nat. split_and!; [done..|]. exact two_jobs_inv. }
  eapply rtc_l; [apply (step_fetch _ _ 0 new_queue); done|]. cbn.
  eapply rtc_l.
  { apply (step_fetched _ _ 0 (start_fetch new_queue) demo_con 10 demo_tasks no_filter 5 None
      two_claim.1 two_rows Acknowledged); [done..|]. cbn [db].
    pose proof (batch_exec_step demo_con 10 demo_tasks (lit "w") no_filter 5 None two_jobs) as H.
    fold two_claim in H. unfold two_rows. destruct two_claim.2 as [r|] eqn:E; [exact H|].
    vm_compute in E. discriminate E. }
  cbn [put queues returns running db]. eapply rtc_l; [by apply (step_received _ _ 0 (end_fetch two_rows (start_fetch new_queue)))|].
  apply rtc_refl.
Qed.

Lemma two_rows_split :
  ∃ a b : Job, two_rows = [a; b] ∧ id a = 1 ∧ id b = 2.
Proof.
  destruct two_rows as [|a [|b [|c l]]] eqn:E; vm_compute in E; try discriminate E.
  injection E as <- <-. eexists _, _. split; [reflexivity|]. split; reflexivity.
Qed.

Definition after_pop (b : Job) : Queue := mkQueue Waiting [b] false 0 [] [] false false.
Definition returning (b : Job) : Queue := mkQueue TtlExpired [] false 0 [] [b] true false.

Lemma returning_reachable (a b : Job) :
  two_rows = [a; b] → reachable (lit "w") (one_queue (returning b) 1 [id a] two_claim.1).
Proof.
  intros E. destruct cached_reachable as (s0 & H0 & Hs). exists s0. split; [done|].
  etrans; [done|]. unfold cached. rewrite E.
  eapply rtc_l; [eapply (step_pop _ _ 0 _ a (after_pop b)); done|].
  eapply rtc_l; [apply (step_ttl _ _ 0 (after_pop b) (mkQueue TtlExpired [b] false 0 [] [] false false)); done|].
  eapply rtc_l; [apply (step_permit _ _ 0 (mkQueue TtlExpired [b] false 0 [] [] false false)); done|].
  eapply rtc_l; [apply (step_drain _ _ 0 (mkQueue TtlExpired [b] false 0 [] [] true false)); done|].
  apply rtc_refl.
Qed.

Lemma returns_spare_running_jobs_witness :
  ∃ b : Job, id b = 2 ∧
    jobs (execute ReplyLost (return_jobs [b] (lit "w") 20) two_claim.1).1 !! 1 = jobs two_claim.1 !! 1.
Proof.
  destruct two_rows_split as (a & b & E & Ha & Hb). exists b. split; [exact Hb|].
  apply (returns_spare_running_jobs (lit "w") (one_queue (returning b) 1 [id a] two_claim.1) 0
           (returning b) 20 ReplyLost 1 (returning_reachable a b E)).
  - reflexivity.
  - rewrite Ha. left.
Defined.

Lemma cached_jobs_handed_once_witness :
  ∃ a b : Job, two_rows = [a; b] ∧ id a ∉ claims (after_pop b).
Proof.
  destruct two_rows_split as (a & b & E & Ha & Hb). exists a, b. split; [exact E|].
  apply (cached_jobs_handed_once (lit "w") (one_queue cached 0 [] two_claim.1) 0 cached a (after_pop b)
           cached_reachable).
  - reflexivity.
  - unfold cached. rewrite E. reflexivity.
Defined.

Lemma release_returns_every_claim_witness :
  ∃ a b : Job, two_rows = [a; b] ∧
    ¬ owned (lit "w") 2 (return_jobs [b] (lit "w") 30 two_claim.1).
Proof.
  destruct two_rows_split as (a & b & E & Ha & Hb). exists a, b. split; [exact E|].
  destruct (release_returns_every_claim (lit "w") (one_queue (with_mode Released (after_pop b)) 0 [id a] two_claim.1)
    0 (with_mode Released (after_pop b)) 30) as [_ H].
  - reflexivity.
  - reflexivity.
  - destruct H as [_ H]; [reflexivity|reflexivity|]. apply H. rewrite <- Hb. left.
Defined.

(** The first attempt commits without a reply, the second is acknowledged. *)
Definition second_try (n : nat) : Outcome := match n with O => ReplyLost | _ => Acknowledged end.

Lemma return_retry_refines_steps_witness :
  ∃ a b : Job, two_rows = [a; b] ∧
    (return_jobs_with_retry (lit "w") second_try (λ n, Z.of_nat n) [b] two_claim.1).2 = Ok tt.
Proof.
  destruct two_rows_split as (a & b & E & Ha & Hb). exists a, b. split; [exact E|].
  pose proof (return_retry_refines_steps (lit "w") (one_queue (returning b) 1 [id a] two_claim.1) 0
    (returning b) true second_try (λ n, Z.of_nat n) eq_refl eq_refl) as H.
  cbn [pending returning db one_queue] in H.
  destruct (return_jobs_with_retry _ _ _ _ _) as [d r]. destruct H as (_ & H & _).
  apply H. exists 1%nat. split; [unfold RETURN_MAX_ATTEMPTS; lia|reflexivity].
Defined.

End LocalQueue.
