(* ===== verification/FetchLoop.v ===== *)
(** * The fetch loop of a local queue (src/local_queue/fetch.rs,
    refetch_delay.rs, mod.rs, state)

    LocalQueue.v leaves to the interleaving when a queue claims.  Here is what
    decides it: the loop that fetches while the queue polls, the delay between
    fetches that find little, the pulses that cut it short, and the two
    notifications the loop and the delay wait on, in the abstract state of
    Notify.v.  Every atomic access that another task can observe is a step of
    its own; the cache and the mode are those of LocalQueue.v. *)

From S2P Require Import Prelude Job Notify QueueWakeup LocalQueue.
Open Scope Z_scope.

Module FetchLoop.
Import Job Notify.
Abbreviation Queue := LocalQueue.Queue.
Abbreviation mode := LocalQueue.mode.

#[local] Existing Instance LocalQueue.Mode_eq_dec.
#[export] Instance NState_eq_dec : EqDecision NState.
Proof. solve_decision. Defined.

(** ** Waiting on a notification *)

(** [notified()] records the broadcast counter; its first poll consumes a
    permit or registers a waiter. *)
Inductive Wait := Created (b : Z) | Registered (b : Z).

(** A poll: [None] inside when it is ready.  Too many waiters is a panic. *)
Definition poll (w : Wait) (n : NState) : option (NState * option Wait) :=
  match w with
  | Created b =>
      match a_register n b with
      | (n', Ready) => Some (n', None)
      | (n', Notify.Registered) => Some (n', Some (Registered b))
      | (_, TooManyWaiters) => None
      end
  | Registered b =>
      match a_complete n b with
      | (n', true) => Some (n', None)
      | (n', false) => Some (n', Some w)
      end
  end.

(** Dropping the future gives up its waiter. *)
Definition forget (w : option Wait) (n : NState) : NState :=
  match w with Some (Registered b) => (a_drop n b).1 | _ => n end.

(** ** Where the tasks are *)

(** The loop, by the line it is about to execute; [claimed] says that the
    fetch before ran its statement. *)
Inductive Loc :=
| Start | StartBroadcast
| Top | Checking (m : LocalQueue.Mode) | ToWait | Waiting (w : Wait)
| ToFetch | Guarded | Delayed | Resetting | Claiming
| Claimed (r : result nat unit) | Handling (n : nat)
| DelayActive (n : nat) | DelayFlag (n : nat) | DelaySpawn (n : nat)
| Receiving (n : nat) | Received (n : nat) (changed : bool) | NotContinuous (changed : bool)
| AfterFetch (claimed : bool) | TakeFlags (claimed again : bool) | Idle (claimed : bool) (w : Wait)
| Stopping | StopBroadcast (changed : bool) | Ended.

(** A refetch delay: not polled yet, in its select, and through
    [refetch_delay_complete]; the waiter it registered is dropped at its end. *)
Inductive Task :=
| Spawned
| Sleeping (w : Wait)
| Completing (aborted : bool) (w : option Wait)
| Inactive (aborted : bool) (w : option Wait)
| Announced (aborted : bool) (w : option Wait)
| Finishing (w : option Wait)
| Done.

(** A pulse, by the line of [pulse] and [check_refetch_delay_abort]. *)
Inductive Pulse := Counted | Compare | Threshold (c : Z) | Abort | ReadMode | Busy | Again | Quiet | Wake | PulseDone.

(** [release], up to the point where it waits for the loop. *)
Inductive Release := NotReleased | ReleasedMode | ReleasedFlag | ReleasedAbort | ReleasedAll.

#[export] Instance Loc_ended_dec (l : Loc) : Decision (l = Ended).
Proof. destruct l; first [left; reflexivity|right; discriminate]. Defined.
#[export] Instance Release_eq_dec : EqDecision Release.
Proof. solve_decision. Defined.

(** ** State *)

Record State := mkState {
  queue : Queue;
  fetch_in_progress : bool;
  fetch_again : bool;
  active : bool;
  fetch_on_complete : bool;
  counter : Z;
  abort_threshold : Z;
  abort_notify : NState;
  state_notify : NState;
  loop : Loc;
  tasks : list Task;
  pulses : list Pulse;
  broadcasts : nat;
  release : Release;
  fetches : nat
}.

(** The head of [tasks] is in [refetch_delay_task], the others were replaced
    there and aborted; [broadcasts] counts the [set_mode] calls of other tasks
    between their two effects; [fetches] counts the claim statements. *)
Definition initial : State :=
  mkState LocalQueue.new_queue false false false false 0 USIZE_MAX (mkN false 0 0 0) (mkN false 0 0 0)
    Start [] [] 0 NotReleased 0.

Definition set_queue (x : Queue) (s : State) : State :=
  mkState x (fetch_in_progress s) (fetch_again s) (active s) (fetch_on_complete s) (counter s) (abort_threshold s)
    (abort_notify s) (state_notify s) (loop s) (tasks s) (pulses s) (broadcasts s) (release s) (fetches s).
Definition set_fetch_in_progress (x : bool) (s : State) : State :=
  mkState (queue s) x (fetch_again s) (active s) (fetch_on_complete s) (counter s) (abort_threshold s)
    (abort_notify s) (state_notify s) (loop s) (tasks s) (pulses s) (broadcasts s) (release s) (fetches s).
Definition set_fetch_again (x : bool) (s : State) : State :=
  mkState (queue s) (fetch_in_progress s) x (active s) (fetch_on_complete s) (counter s) (abort_threshold s)
    (abort_notify s) (state_notify s) (loop s) (tasks s) (pulses s) (broadcasts s) (release s) (fetches s).
Definition set_refetch_delay_active (x : bool) (s : State) : State :=
  mkState (queue s) (fetch_in_progress s) (fetch_again s) x (fetch_on_complete s) (counter s) (abort_threshold s)
    (abort_notify s) (state_notify s) (loop s) (tasks s) (pulses s) (broadcasts s) (release s) (fetches s).
Definition set_refetch_delay_fetch_on_complete (x : bool) (s : State) : State :=
  mkState (queue s) (fetch_in_progress s) (fetch_again s) (active s) x (counter s) (abort_threshold s)
    (abort_notify s) (state_notify s) (loop s) (tasks s) (pulses s) (broadcasts s) (release s) (fetches s).
Definition set_counter (x : Z) (s : State) : State :=
  mkState (queue s) (fetch_in_progress s) (fetch_again s) (active s) (fetch_on_complete s) x (abort_threshold s)
    (abort_notify s) (state_notify s) (loop s) (tasks s) (pulses s) (broadcasts s) (release s) (fetches s).
Definition set_abort_threshold (x : Z) (s : State) : State :=
  mkState (queue s) (fetch_in_progress s) (fetch_again s) (active s) (fetch_on_complete s) (counter s) x
    (abort_notify s) (state_notify s) (loop s) (tasks s) (pulses s) (broadcasts s) (release s) (fetches s).
Definition set_abort_notify (x : NState) (s : State) : State :=
  mkState (queue s) (fetch_in_progress s) (fetch_again s) (active s) (fetch_on_complete s) (counter s) (abort_threshold s)
    x (state_notify s) (loop s) (tasks s) (pulses s) (broadcasts s) (release s) (fetches s).
Definition set_state_notify (x : NState) (s : State) : State :=
  mkState (queue s) (fetch_in_progress s) (fetch_again s) (active s) (fetch_on_complete s) (counter s) (abort_threshold s)
    (abort_notify s) x (loop s) (tasks s) (pulses s) (broadcasts s) (release s) (fetches s).
Definition goto (x : Loc) (s : State) : State :=
  mkState (queue s) (fetch_in_progress s) (fetch_again s) (active s) (fetch_on_complete s) (counter s) (abort_threshold s)
    (abort_notify s) (state_notify s) x (tasks s) (pulses s) (broadcasts s) (release s) (fetches s).
Definition set_tasks (x : list Task) (s : State) : State :=
  mkState (queue s) (fetch_in_progress s) (fetch_again s) (active s) (fetch_on_complete s) (counter s) (abort_threshold s)
    (abort_notify s) (state_notify s) (loop s) x (pulses s) (broadcasts s) (release s) (fetches s).
Definition set_pulses (x : list Pulse) (s : State) : State :=
  mkState (queue s) (fetch_in_progress s) (fetch_again s) (active s) (fetch_on_complete s) (counter s) (abort_threshold s)
    (abort_notify s) (state_notify s) (loop s) (tasks s) x (broadcasts s) (release s) (fetches s).
Definition set_broadcasts (x : nat) (s : State) : State :=
  mkState (queue s) (fetch_in_progress s) (fetch_again s) (active s) (fetch_on_complete s) (counter s) (abort_threshold s)
    (abort_notify s) (state_notify s) (loop s) (tasks s) (pulses s) x (release s) (fetches s).
Definition set_release (x : Release) (s : State) : State :=
  mkState (queue s) (fetch_in_progress s) (fetch_again s) (active s) (fetch_on_complete s) (counter s) (abort_threshold s)
    (abort_notify s) (state_notify s) (loop s) (tasks s) (pulses s) (broadcasts s) x (fetches s).
Definition count_fetch (s : State) : State :=
  mkState (queue s) (fetch_in_progress s) (fetch_again s) (active s) (fetch_on_complete s) (counter s) (abort_threshold s)
    (abort_notify s) (state_notify s) (loop s) (tasks s) (pulses s) (broadcasts s) (release s) (S (fetches s)).

Definition notify_one (s : State) : State := set_state_notify (a_mark_one (state_notify s)).1 s.
Definition notify_waiters (s : State) : State := set_state_notify (a_mark_all (state_notify s)) s.
Definition notify_abort (s : State) : State := set_abort_notify (a_mark_one (abort_notify s)).1 s.

(** [set_mode], up to its notification, and whether there is one. *)
Definition set_mode (m : LocalQueue.Mode) (s : State) : State * bool :=
  let q := LocalQueue.set_mode m (queue s) in
  (set_queue q s, negb (bool_decide (mode q = mode (queue s)))).

(** ** The loop *)

Section loop.
Context (cfg : LocalQueue.LocalQueueConfig) (continuous : bool).

(** What its surroundings answer: the coordinator's guard, the claim, the
    random draw scaled to the maximum, whether the timer has fired. *)
Record Answers := mkAnswers { guard_free : bool; claim : result (list Job) unit; draw : Z; timer : bool }.

(** start_refetch_delay *)
Definition max_abort (r : LocalQueue.RefetchDelayConfig) : Z :=
  default (5 * LocalQueue.size cfg) (LocalQueue.max_abort_threshold r).
Definition new_abort_threshold (r : LocalQueue.RefetchDelayConfig) (draw : Z) : Z :=
  if max_abort r =? USIZE_MAX then USIZE_MAX else Z.max draw 1.

(** fetch.rs, lines 101 to 110: the delay to start. *)
Definition fetched_max (n : nat) : bool := LocalQueue.size cfg <=? Z.of_nat n.
Definition delay_wanted (n : nat) : option LocalQueue.RefetchDelayConfig :=
  match LocalQueue.refetch_delay cfg with
  | Some r => if fetched_max n || (LocalQueue.threshold r <? Z.of_nat n) then None else Some r
  | None => None
  end.

(** A wait is polled, or its timer has fired first. *)
Definition await (w : Wait) (again : Wait → Loc) (next : Loc) (s : State) : option State :=
  match poll w (state_notify s) with
  | Some (n, None) => Some (goto next (set_state_notify n s))
  | Some (n, Some w') => if bool_decide (n = state_notify s) then None else Some (goto (again w') (set_state_notify n s))
  | None => None
  end.

Definition loop_next (e : Answers) (s : State) : option State :=
  match loop s with
  | Start => let '(s', changed) := set_mode LocalQueue.Polling s in Some (goto (if changed then StartBroadcast else Top) s')
  | StartBroadcast => Some (goto Top (notify_waiters s))
  | Top => Some (goto (if bool_decide (mode (queue s) = LocalQueue.Released) then Ended else Checking (mode (queue s))) s)
  | Checking m =>
      Some (goto (if bool_decide (m = LocalQueue.Polling) && negb (fetch_in_progress s) && negb (active s)
                  then ToFetch else ToWait) s)
  | ToWait => Some (goto (Waiting (Created (broadcast (state_notify s)))) s)
  | Waiting w => await w Waiting Top s
  | ToFetch =>
      if negb (guard_free e) then Some (goto (AfterFetch false) s)
      else if fetch_in_progress s then Some (goto (AfterFetch false) s)
      else Some (goto Guarded (set_fetch_in_progress true (set_queue (LocalQueue.start_fetch (queue s)) s)))
  | Guarded =>
      if active s then Some (goto Delayed (set_fetch_in_progress false (set_refetch_delay_fetch_on_complete true
                                             (set_queue (LocalQueue.end_fetch [] (queue s)) s))))
      else Some (goto Resetting (set_fetch_again false s))
  | Delayed => Some (goto (AfterFetch false) (notify_one s))
  | Resetting => Some (goto Claiming (set_counter 0 s))
  | Claiming =>
      match claim e with
      | Ok js => Some (goto (Claimed (Ok (length js)))
                   (count_fetch (set_fetch_in_progress false (set_queue (LocalQueue.end_fetch js (queue s)) s))))
      | Err _ => Some (goto (Claimed (Err tt))
                   (count_fetch (set_fetch_in_progress false (set_queue (LocalQueue.end_fetch [] (queue s)) s))))
      end
  | Claimed r => Some (goto (match r with Ok n => Handling n | Err _ => AfterFetch true end) (notify_one s))
  | Handling n =>
      match delay_wanted n with
      | Some r => Some (goto (DelayActive n) (set_abort_threshold (new_abort_threshold r (draw e)) s))
      | None => Some (goto (Receiving n) s)
      end
  | DelayActive n => Some (goto (DelayFlag n) (set_refetch_delay_active true s))
  | DelayFlag n => Some (goto (DelaySpawn n) (set_refetch_delay_fetch_on_complete false s))
  | DelaySpawn n => Some (goto (Receiving n) (set_tasks (Spawned :: tasks s) s))
  | Receiving n =>
      if Nat.eqb n 0 then
        if continuous then Some (goto (AfterFetch true) s)
        else let '(s', changed) := set_mode LocalQueue.Released s in Some (goto (NotContinuous changed) s')
      else
        let q := LocalQueue.received_jobs (queue s) in
        Some (goto (Received n (negb (bool_decide (mode q = mode (queue s))))) (set_queue q s))
  | Received n changed =>
      let s := if changed then notify_waiters s else s in
      Some (goto (AfterFetch true) (set_fetch_again (fetched_max n || fetch_again s) s))
  | NotContinuous changed => Some (goto (AfterFetch true) (if changed then notify_waiters s else s))
  | AfterFetch claimed =>
      if bool_decide (mode (queue s) = LocalQueue.Polling) then
        if continuous then Some (goto (TakeFlags claimed (fetch_again s)) (set_fetch_again false s))
        else Some (goto Stopping s)
      else Some (goto Top s)
  | TakeFlags claimed again =>
      let wants := fetch_on_complete s in
      let s := set_refetch_delay_fetch_on_complete false s in
      Some (goto (if negb again && negb wants then Idle claimed (Created (broadcast (state_notify s))) else Top) s)
  | Idle claimed w =>
      if timer e then Some (goto Top (set_state_notify (forget (Some w) (state_notify s)) s))
      else await w (Idle claimed) Top s
  | Stopping => let '(s', changed) := set_mode LocalQueue.Released s in Some (goto (StopBroadcast changed) s')
  | StopBroadcast changed => Some (goto Ended (if changed then notify_waiters s else s))
  | Ended => None
  end.

(** ** The refetch delay *)

Definition task_next (fired : bool) (t : Task) (s : State) : option (Task * State) :=
  match t with
  | Spawned => Some (Sleeping (Created (broadcast (abort_notify s))), s)
  | Sleeping w =>
      if fired then Some (Completing false (Some w), s)
      else match poll w (abort_notify s) with
           | Some (n, None) => Some (Completing true None, set_abort_notify n s)
           | Some (n, Some w') =>
               if bool_decide (n = abort_notify s) then None else Some (Sleeping w', set_abort_notify n s)
           | None => None
           end
  | Completing aborted w => Some (Inactive aborted w, set_refetch_delay_active false s)
  | Inactive aborted w => Some (Announced aborted w, notify_one s)
  | Announced aborted w => Some (Finishing w, if aborted then set_refetch_delay_fetch_on_complete true s else s)
  | Finishing w => Some (Done, set_abort_notify (forget w (abort_notify s)) s)
  | Done => None
  end.

(** An aborted task is dropped at one of its awaits. *)
Definition drop_task (t : Task) (s : State) : option (Task * State) :=
  match t with
  | Spawned => Some (Done, s)
  | Sleeping w => Some (Done, set_abort_notify (forget (Some w) (abort_notify s)) s)
  | Announced true w | Finishing w => Some (Done, set_abort_notify (forget w (abort_notify s)) s)
  | _ => None
  end.

(** ** A pulse *)

Definition new_pulse (count : Z) (s : State) : State :=
  set_pulses (Counted :: pulses s) (set_counter ((counter s + count) `mod` 2 ^ 64) s).

Definition pulse_next (p : Pulse) (s : State) : option (Pulse * State) :=
  match p with
  | Counted => Some (if active s then Compare else ReadMode, s)
  | Compare => Some (Threshold (counter s), s)
  | Threshold c => Some (if abort_threshold s <=? c then Abort else ReadMode, s)
  | Abort => Some (ReadMode, notify_abort s)
  | ReadMode => Some (if bool_decide (mode (queue s) = LocalQueue.Polling) then Busy else PulseDone, s)
  | Busy => Some (if fetch_in_progress s then Again else Quiet, s)
  | Again => Some (Wake, set_fetch_again true s)
  | Quiet => Some (if active s then PulseDone else Wake, s)
  | Wake => Some (PulseDone, notify_one s)
  | PulseDone => None
  end.

(** ** A release *)

Definition release_next (s : State) : option State :=
  match release s with
  | NotReleased => Some (set_release ReleasedMode (set_queue (LocalQueue.with_mode LocalQueue.Released (queue s)) s))
  | ReleasedMode => Some (set_release ReleasedFlag (set_refetch_delay_active false s))
  | ReleasedFlag => Some (set_release ReleasedAbort (set_abort_notify (a_mark_all (abort_notify s)) s))
  | ReleasedAbort => Some (set_release ReleasedAll (notify_one s))
  | ReleasedAll => None
  end.

(** ** Steps *)

(** What other tasks do to the mode and the cache, with the operations of
    LocalQueue.v: [get_job_from_cache], the expiry timer, and a return. *)
Inductive QueueOp := Resume | Pop | Expire | TakePermit | Drain | Return (ttl : bool).

Definition queue_op (o : QueueOp) (q : Queue) : option Queue :=
  match o with
  | Resume => Some (LocalQueue.resume q)
  | Pop => snd <$> LocalQueue.pop_cached q
  | Expire => LocalQueue.set_mode_ttl_expired q
  | TakePermit => Some (LocalQueue.take_permit q)
  | Drain => Some (LocalQueue.drain q)
  | Return ttl => Some (LocalQueue.returned ttl q)
  end.
(** Those that change the mode through [set_mode] broadcast it. *)
Definition announces (o : QueueOp) : bool := match o with Resume | Pop => true | _ => false end.

Inductive Action :=
| ALoop (e : Answers)
| ATask (k : nat) (fired : bool)
| ADrop (k : nat)
| APulse (count : Z)
| APulseStep (k : nat)
| AQueue (o : QueueOp)
| ABroadcast
| ARelease.

(** The broadcast counter has [COUNT] values: a registered waiter is polled
    before that many broadcasts have passed. *)
Definition lapped (s : State) : bool :=
  match loop s with
  | Waiting (Registered b) | Waiting (Created b) | Idle _ (Registered b) | Idle _ (Created b) =>
      (broadcast (state_notify s) + 1) `mod` COUNT =? b
  | _ => false
  end.

Definition exec (a : Action) (s : State) : option State :=
  match a with
  | ALoop e => loop_next e s
  | ATask k fired =>
      match tasks s !! k with
      | Some t => (λ '(t', s'), set_tasks (<[k := t']> (tasks s)) s') <$> task_next fired t s
      | None => None
      end
  | ADrop k =>
      match tasks s !! k with
      | Some t =>
          if bool_decide (k ≠ 0%nat) || bool_decide (release s = ReleasedAll ∧ loop s = Ended)
          then (λ '(t', s'), set_tasks (<[k := t']> (tasks s)) s') <$> drop_task t s else None
      | None => None
      end
  | APulse count => if (0 <=? count) && (count <=? USIZE_MAX) then Some (new_pulse count s) else None
  | APulseStep k =>
      match pulses s !! k with
      | Some p => (λ '(p', s'), set_pulses (<[k := p']> (pulses s)) s') <$> pulse_next p s
      | None => None
      end
  | AQueue o =>
      q ← queue_op o (queue s);
      Some (set_broadcasts (if announces o && negb (bool_decide (mode q = mode (queue s)))
                            then S (broadcasts s) else broadcasts s) (set_queue q s))
  | ABroadcast =>
      match broadcasts s with
      | S m => if lapped s then None else Some (set_broadcasts m (notify_waiters s))
      | O => None
      end
  | ARelease => release_next s
  end.

Definition step (s s' : State) : Prop := ∃ a, exec a s = Some s'.
Definition reachable : State → Prop := rtc step initial.

Fixpoint run (l : list Action) (s : State) : option State :=
  match l with
  | [] => Some s
  | a :: l => s' ← exec a s; run l s'
  end.

Lemma run_rtc l s s' : run l s = Some s' → rtc step s s'.
Proof.
  revert s. induction l as [|a l IH]; cbn; intros s; [by intros [= ->]|].
  destruct (exec a s) as [s1|] eqn:E; cbn; [|done]. intros Hr. eapply rtc_l; [by exists a|by apply IH].
Qed.

(** ** The loop's notification *)

(** The loop holds a waiter of the current broadcast. *)
Definition registered (l : Loc) (n : NState) : bool :=
  match l with
  | Waiting (Registered b) | Idle _ (Registered b) => b =? broadcast n
  | _ => false
  end.

(** From the notification that ends a fetch to the wait that follows it. *)
Definition has_permit (l : Loc) : bool :=
  match l with
  | Handling _ | DelayActive _ | DelayFlag _ | DelaySpawn _ | Receiving _ | Received _ _ | NotContinuous _
  | AfterFetch true | TakeFlags true _ | Idle true _ => true
  | _ => false
  end.

Record notify_inv (l : Loc) (n : NState) : Prop := {
  ni_ok : n_ok n;
  ni_waiters : waiters n = b2z (registered l n);
  ni_pending : registered l n = true → permit n = true → 0 < pending n;
  ni_permit : has_permit l = true → permit n = true;
  ni_idle b : l ≠ Idle true (Registered b)
}.

Lemma unregistered_pending l n : notify_inv l n → registered l n = false → waiters n = 0 ∧ pending n = 0.
Proof. intros [Hok Hw _ _ _] Hr. rewrite Hr in Hw. cbn in Hw. unfold n_ok in Hok. lia. Qed.

Lemma notify_inv_mark_one l n : notify_inv l n → notify_inv l (a_mark_one n).1.
Proof.
  intros [Hok Hw Hp Hh Hi]. unfold a_mark_one, n_ok in *.
  assert (registered l (if pending n <? waiters n then mkN (permit n) (waiters n) (pending n + 1) (broadcast n)
                        else mkN true (waiters n) (pending n) (broadcast n)) = registered l n) as E.
  { destruct l; cbn; try done; destruct w; cbn; try done; by destruct (pending n <? waiters n). }
  destruct (Z.ltb_spec (pending n) (waiters n)); constructor; cbn in *; unfold n_ok; cbn; rewrite ?E; try lia; try done; try tauto.
  intros Hr. rewrite Hr in Hw. cbn in Hw. lia.
Qed.

(** A broadcast frees the waiter. *)
Lemma notify_inv_mark_all l n :
  notify_inv l n → registered l (a_mark_all n) = false → notify_inv l (a_mark_all n).
Proof.
  intros [Hok Hw Hp Hh Hi] Hr. constructor; rewrite ?Hr; try done. unfold n_ok, a_mark_all, COUNT in *; cbn.
  pose proof (Z.mod_pos_bound (broadcast n + 1) (2 ^ 21)). lia.
Qed.

Lemma lapped_registered s : lapped s = false → registered (loop s) (a_mark_all (state_notify s)) = false.
Proof. unfold lapped, registered. destruct (loop s) as [| | | | |[]| | | | | | | | | | | | | | | |? []| | |]; cbn; try done; by rewrite Z.eqb_sym. Qed.

(** The loop moves on without a waiter. *)
Lemma notify_inv_move l l' n :
  notify_inv l n → registered l n = false → (∀ m, registered l' m = false) → (∀ b, l' ≠ Idle true (Registered b)) →
  (has_permit l' = true → has_permit l = true ∨ permit n = true) → notify_inv l' n.
Proof.
  intros Hi Hr Hr' Hn Hp. destruct (unregistered_pending _ _ Hi Hr). destruct Hi as [Hok Hw _ Hh _].
  constructor; rewrite ?Hr'; try done. tauto.
Qed.

(** Polling a wait keeps the invariant, with the wait it leaves. *)
Lemma notify_inv_poll l n w n' w' (next : Loc) (again : Wait → Loc) :
  notify_inv l n → (l = again w) → (again = Waiting ∨ again = Idle false ∨ again = Idle true) →
  (next = Top) → poll w n = Some (n', w') →
  notify_inv (match w' with None => next | Some w' => again w' end) n'.
Proof.
  intros Hi -> Ha -> Hp. pose proof Hi as [Hok Hw Hpd Hh Hid]. unfold n_ok, COUNT in *. destruct w as [b|b]; cbn in Hp.
  - assert (registered (again (Created b)) n = false) as Hr by (by destruct Ha as [->|[->| ->]]).
    destruct (unregistered_pending _ _ Hi Hr) as [Hw0 Hp0]. unfold a_register, COUNT in Hp.
    destruct (Z.eqb_spec (broadcast n) b) as [Eb|Nb]; cbn in Hp.
    + destruct (permit n) eqn:Epm; cbn in Hp.
      * injection Hp as <- <-. constructor; cbn; unfold n_ok, COUNT; cbn; try done; lia.
      * destruct (Z.ltb_spec (waiters n) (2 ^ 21 - 1)); cbn in Hp; [|done]. injection Hp as <- <-.
        destruct Ha as [->|[->| ->]]; constructor; cbn; unfold n_ok, COUNT; cbn; rewrite ?Eb, ?Z.eqb_refl; cbn; try done; try lia;
          specialize (Hh eq_refl); congruence.
    + injection Hp as <- <-. by apply (notify_inv_move (again (Created b))).
  - assert (registered (again (Registered b)) n = (b =? broadcast n)) as Hr by (by destruct Ha as [->|[->| ->]]).
    rewrite Hr in *. unfold a_complete in Hp. destruct (Z.eqb_spec (broadcast n) b) as [Eb|Nb]; cbn in Hp.
    + rewrite Eb, Z.eqb_refl in *. cbn in Hw. destruct (Z.eqb_spec (pending n) 0) as [E0|N0]; cbn in Hp; injection Hp as <- <-.
      * done.
      * constructor; cbn; unfold n_ok, COUNT; cbn; try done; lia.
    + injection Hp as <- <-. apply (notify_inv_move (again (Registered b))); try done. rewrite Hr. apply Z.eqb_neq. congruence.
Qed.

(** ** The delay *)

(** The delay still counts: its flag is set. *)
Definition waiting (t : Task) : bool := match t with Spawned | Sleeping _ | Completing _ _ => true | _ => false end.
Definition head_waiting (ts : list Task) : bool := match ts with t :: _ => waiting t | [] => false end.

(** The loop has set the flag and not spawned the delay yet; and from its
    check that no delay is running until there. *)
Definition starting (l : Loc) : bool := match l with DelayFlag _ | DelaySpawn _ => true | _ => false end.
Definition clear (l : Loc) : bool :=
  match l with
  | Resetting | Claiming | Claimed _ | Handling _ | DelayActive _ | DelayFlag _ | DelaySpawn _ => true
  | _ => false
  end.

Definition in_fetch (l : Loc) : bool := match l with Guarded | Resetting | Claiming => true | _ => false end.

Definition task_wait (t : Task) : option Wait :=
  match t with
  | Sleeping w => Some w
  | Completing _ w | Inactive _ w | Announced _ w | Finishing w => w
  | Spawned | Done => None
  end.
Definition holds (w : option Wait) : nat := match w with Some (Registered _) => 1 | _ => 0 end.
Definition first_round (w : option Wait) : Prop := match w with Some (Registered b) | Some (Created b) => b = 0 | None => True end.

Record delay_inv (s : State) : Prop := {
  di_active : active s = head_waiting (tasks s) || starting (loop s);
  di_head : clear (loop s) = true → head_waiting (tasks s) = false;
  di_tail : Forall (λ t, waiting t = false) (tail (tasks s));
  di_waits : Forall (λ t, first_round (task_wait t)) (tasks s);
  di_ok : n_ok (abort_notify s) ∧ broadcast (abort_notify s) = 0;
  di_waiters : waiters (abort_notify s) = Z.of_nat (sum_list ((λ t, holds (task_wait t)) <$> tasks s));
  di_release : release s = NotReleased
}.

(** The whole invariant; a released queue needs no delay. *)
Record inv (s : State) : Prop := {
  inv_notify : notify_inv (loop s) (state_notify s);
  inv_fetch : fetch_in_progress s = in_fetch (loop s);
  inv_delay : mode (queue s) ≠ LocalQueue.Released → delay_inv s
}.

Lemma delay_inv_ext s s' :
  delay_inv s → active s' = active s → tasks s' = tasks s → abort_notify s' = abort_notify s → release s' = release s →
  starting (loop s') = starting (loop s) → (clear (loop s') = true → clear (loop s) = true) → delay_inv s'.
Proof.
  intros [Ha Hh Ht Hw Hok Hn Hr] Ea Et En Er Es Ec.
  constructor; rewrite ?Ea, ?Et, ?En, ?Er, ?Es; try done. intros Hc. by apply Hh, Ec.
Qed.

Lemma initial_loop_inv : inv initial.
Proof.
  assert (n_ok (mkN false 0 0 0)) by (unfold n_ok, COUNT; cbn; lia).
  constructor; [constructor|..]; done.
Qed.

(** ** Released is final *)

Lemma set_mode_released m q : mode (LocalQueue.set_mode m q) ≠ LocalQueue.Released → mode q ≠ LocalQueue.Released.
Proof. unfold LocalQueue.set_mode. intros H E. rewrite E in H. cbn in H. rewrite orb_true_r in H. cbn in H. done. Qed.

Lemma received_released q : mode (LocalQueue.received_jobs q) ≠ LocalQueue.Released → mode q ≠ LocalQueue.Released.
Proof. unfold LocalQueue.received_jobs. by intros H%set_mode_released. Qed.

Lemma queue_op_released o q q' : queue_op o q = Some q' → mode q' ≠ LocalQueue.Released → mode q ≠ LocalQueue.Released.
Proof.
  destruct o; cbn; try (intros [= <-]; done).
  - unfold LocalQueue.resume. intros [= <-]. destruct (_ && _); [apply set_mode_released|done].
  - unfold LocalQueue.pop_cached. intros H Hm E. by rewrite E in H.
  - unfold LocalQueue.set_mode_ttl_expired. case_bool_decide; congruence.
Qed.

(** ** Every step keeps the invariant *)

(** A step of the loop that leaves its notification and the delay alone. *)
Lemma loop_moves s s' :
  inv s → registered (loop s) (state_notify s) = false → (∀ m, registered (loop s') m = false) →
  (∀ b, loop s' ≠ Idle true (Registered b)) → (has_permit (loop s') = true → has_permit (loop s) = true) →
  state_notify s' = state_notify s → fetch_in_progress s' = in_fetch (loop s') →
  (mode (queue s') ≠ LocalQueue.Released → mode (queue s) ≠ LocalQueue.Released) →
  active s' = active s → tasks s' = tasks s → abort_notify s' = abort_notify s → release s' = release s →
  starting (loop s') = starting (loop s) → (clear (loop s') = true → clear (loop s) = true) → inv s'.
Proof.
  intros [Hn Hf Hd] Hr Hr' Hi Hp En Ef Em Ea Et Eab Er Es Ec. constructor; [|done|].
  - rewrite En. eapply notify_inv_move; try done. auto.
  - intros Hm. eapply delay_inv_ext; eauto.
Qed.

(** The notifications of a step. *)
Lemma inv_notified s s' l :
  inv s → notify_inv l (state_notify s') → loop s' = l → fetch_in_progress s' = in_fetch l → queue s' = queue s →
  active s' = active s → tasks s' = tasks s → abort_notify s' = abort_notify s → release s' = release s →
  starting l = starting (loop s) → (clear l = true → clear (loop s) = true) → inv s'.
Proof.
  intros [Hn Hf Hd] Hn' <- Ef Eq Ea Et Eab Er Es Ec. constructor; [done..|].
  rewrite Eq. intros Hm. eapply delay_inv_ext; eauto.
Qed.

Lemma mark_one_permit l n : notify_inv l n → registered l n = false → permit (a_mark_one n).1 = true.
Proof. intros Hi Hr. destruct (unregistered_pending l n Hi Hr) as [Hw Hp]. unfold a_mark_one. by rewrite Hw, Hp. Qed.

Lemma notify_and_move l l' n :
  notify_inv l n → registered l n = false → (∀ m, registered l' m = false) → (∀ b, l' ≠ Idle true (Registered b)) →
  notify_inv l' (a_mark_one n).1.
Proof.
  intros Hi Hr Hr' Hn. apply (notify_inv_move l); try done; [by apply notify_inv_mark_one| |].
  - unfold registered in *. unfold a_mark_one. by destruct (_ <? _).
  - intros _. right. by eapply mark_one_permit.
Qed.

Lemma broadcast_and_move l l' n :
  notify_inv l n → (∀ m, registered l m = false) → (∀ m, registered l' m = false) → (∀ b, l' ≠ Idle true (Registered b)) →
  (has_permit l' = true → has_permit l = true) → notify_inv l' (a_mark_all n).
Proof.
  intros Hi Hr Hr' Hn Hp. apply (notify_inv_move l); auto. by apply notify_inv_mark_all.
Qed.

Lemma await_inv w again s s' :
  inv s → loop s = again w → (again = Waiting ∨ again = Idle false ∨ again = Idle true) →
  await w again Top s = Some s' → inv s'.
Proof.
  intros Hi El Ha Haw. unfold await in Haw. destruct (poll w (state_notify s)) as [[n' w']|] eqn:Ep; [|done].
  pose proof (notify_inv_poll _ _ _ _ _ Top again (inv_notify s Hi) El Ha eq_refl Ep) as Hn.
  assert (starting (loop s) = false ∧ in_fetch (loop s) = false ∧
    ∀ w', starting (again w') = false ∧ in_fetch (again w') = false ∧ clear (again w') = false) as (Hs & Hf & Hw).
  { rewrite El. by destruct Ha as [->|[->| ->]]. }
  pose proof (inv_fetch s Hi) as Hff. destruct w' as [w'|]; [case_bool_decide; [done|]|]; injection Haw as <-;
    (eapply inv_notified; [exact Hi|exact Hn|..]); try done; cbn.
  - by rewrite Hff, Hf, (proj1 (proj2 (Hw w'))).
  - by rewrite Hs, (proj1 (Hw w')).
  - by rewrite (proj2 (proj2 (Hw w'))).
  - by rewrite Hff, Hf.
Qed.

(** A timer that fires first drops the waiter. *)
Lemma forget_inv claimed w n : notify_inv (Idle claimed w) n → notify_inv Top (forget (Some w) n).
Proof.
  intros Hi. destruct w as [b|b]; cbn; [by apply (notify_inv_move (Idle claimed (Created b)))|].
  pose proof Hi as [Hok Hw Hp Hh Hd]. cbn in Hw, Hp. unfold a_drop.
  destruct (Z.eqb_spec (broadcast n) b) as [E|E]; cbn.
  - subst b. rewrite Z.eqb_refl in Hw. cbn in Hw. rewrite Hw. cbn. unfold n_ok, COUNT in *.
    constructor; cbn; unfold n_ok, COUNT; cbn; try done; lia.
  - apply (notify_inv_move (Idle claimed (Registered b))); try done. cbn. apply Z.eqb_neq. congruence.
Qed.

(** Closes the steps of the loop that move it. *)
Ltac moves Hi El := eapply loop_moves; [exact Hi|..]; rewrite ?El; cbn; try done; try (by rewrite (inv_fetch _ Hi), El).

(** The steps of the loop that notify. *)
Lemma loop_notifies l n' s s' :
  inv s → loop s' = l → state_notify s' = n' → notify_inv l n' →
  in_fetch (loop s) = false → in_fetch l = false → fetch_in_progress s' = fetch_in_progress s → queue s' = queue s →
  active s' = active s → tasks s' = tasks s → abort_notify s' = abort_notify s → release s' = release s →
  starting l = starting (loop s) → (clear l = true → clear (loop s) = true) → inv s'.
Proof.
  intros Hi El <- Hn Hf Hf' Ef. intros. eapply inv_notified; [exact Hi|exact Hn|done|..]; try done.
  by rewrite Ef, (inv_fetch s Hi), Hf, Hf'.
Qed.

(** A broadcast that [set_mode] asks for, if it changed the mode. *)
Lemma may_broadcast (changed : bool) l l' n :
  notify_inv l n → (∀ m, registered l m = false) → (∀ m, registered l' m = false) → (∀ b, l' ≠ Idle true (Registered b)) →
  (has_permit l' = true → has_permit l = true) → notify_inv l' (if changed then a_mark_all n else n).
Proof.
  intros Hn Hr Hr' Hb Hp. destruct changed; [by apply (broadcast_and_move l)|].
  apply (notify_inv_move l); auto.
Qed.

(** Where a delay is taken up: the check before claiming, setting the flag,
    spawning. *)
Lemma guarded_inv s :
  inv s → loop s = Guarded → active s = false → inv (goto Resetting (set_fetch_again false s)).
Proof.
  intros [Hn Hf Hd] El Ea. rewrite El in *. constructor; cbn; [by apply (notify_inv_move Guarded)|by rewrite Hf|].
  intros Hm. destruct (Hd Hm) as [Ha Hh Ht Hw Hok Hnn Hr]. rewrite Ea, El, orb_false_r in Ha.
  constructor; cbn; try done. by rewrite Ea, <- Ha.
Qed.

Lemma delay_active_inv n s :
  inv s → loop s = DelayActive n → inv (goto (DelayFlag n) (set_refetch_delay_active true s)).
Proof.
  intros [Hn Hf Hd] El. rewrite El in *. constructor; cbn; [apply (notify_inv_move (DelayActive n)); auto; done|by rewrite Hf|].
  intros Hm. destruct (Hd Hm) as [Ha Hh Ht Hw Hok Hnn Hr]. rewrite El in Hh.
  constructor; cbn; try done; first [by rewrite orb_true_r|intros _; by apply Hh].
Qed.

Lemma delay_spawn_inv n s :
  inv s → loop s = DelaySpawn n → inv (goto (Receiving n) (set_tasks (Spawned :: tasks s) s)).
Proof.
  intros [Hn Hf Hd] El. rewrite El in *. constructor; cbn; [apply (notify_inv_move (DelaySpawn n)); auto; done|by rewrite Hf|].
  intros Hm. destruct (Hd Hm) as [Ha Hh Ht Hw Hok Hnn Hr]. rewrite El in *. specialize (Hh eq_refl).
  constructor; cbn; try done.
  - by rewrite Ha, orb_true_r.
  - destruct (tasks s); by constructor.
  - by constructor.
Qed.

Lemma loop_next_inv e s s' : inv s → loop_next e s = Some s' → inv s'.
Proof.
  intros Hi Hs. pose proof (inv_notify _ Hi) as Hn. unfold loop_next in Hs. destruct (loop s) eqn:El.
  - cbn in Hs. injection Hs as <-. moves Hi El; try (by case_bool_decide); [|apply set_mode_released].
    by rewrite (inv_fetch _ Hi), El; case_bool_decide.
  - injection Hs as <-. eapply loop_notifies; [exact Hi|done|done|..]; rewrite ?El; try done.
    by apply (broadcast_and_move StartBroadcast).
  - injection Hs as <-. moves Hi El; try (by case_bool_decide). by rewrite (inv_fetch _ Hi), El; case_bool_decide.
  - injection Hs as <-. moves Hi El; try (by destruct (_ && _)). by rewrite (inv_fetch _ Hi), El; destruct (_ && _).
  - injection Hs as <-. moves Hi El.
  - eapply await_inv; eauto.
  - destruct (negb _); [|destruct (fetch_in_progress s) eqn:Ef]; injection Hs as <-; moves Hi El.
  - destruct (active s) eqn:Ea; injection Hs as <-; [by moves Hi El|by apply guarded_inv].
  - injection Hs as <-. eapply loop_notifies; [exact Hi|done|done|..]; rewrite ?El; try done. by apply (notify_and_move Delayed).
  - injection Hs as <-. moves Hi El.
  - destruct (claim e); injection Hs as <-; moves Hi El.
  - injection Hs as <-. eapply loop_notifies; [exact Hi|done|done|..]; rewrite ?El; try (by destruct r).
    apply (notify_and_move (Claimed r)); by destruct r.
  - destruct (delay_wanted n); injection Hs as <-; moves Hi El.
  - injection Hs as <-. by apply delay_active_inv.
  - injection Hs as <-. moves Hi El.
  - injection Hs as <-. by apply delay_spawn_inv.
  - destruct (Nat.eqb n 0); [destruct continuous|]; cbn in Hs; injection Hs as <-; moves Hi El; [apply set_mode_released|apply received_released].
  - injection Hs as <-. eapply (loop_notifies (AfterFetch true) (if changed then a_mark_all (state_notify s) else state_notify s));
      [exact Hi|done|by destruct (fetched_max n), changed|by apply (may_broadcast changed (Received n changed))|..]; rewrite ?El; try done;
      by destruct (fetched_max n), changed.
  - injection Hs as <-. eapply (loop_notifies (AfterFetch true) (if changed then a_mark_all (state_notify s) else state_notify s));
      [exact Hi|done|by destruct changed|by apply (may_broadcast changed (NotContinuous changed))|..]; rewrite ?El; try done; by destruct changed.
  - case_bool_decide; [destruct continuous|]; injection Hs as <-; moves Hi El; by destruct claimed.
  - injection Hs as <-. moves Hi El; destruct (_ && _); cbn; try done; first [by rewrite (inv_fetch _ Hi), El|by destruct claimed].
  - destruct (timer e); [|eapply await_inv; [exact Hi|exact El|destruct claimed; auto|exact Hs]].
    injection Hs as <-. eapply loop_notifies; [exact Hi|done|done|..]; rewrite ?El; try done. by eapply forget_inv.
  - cbn in Hs. injection Hs as <-. moves Hi El. apply set_mode_released.
  - injection Hs as <-. eapply (loop_notifies Ended (if changed then a_mark_all (state_notify s) else state_notify s));
      [exact Hi|done|by destruct changed|by apply (may_broadcast changed (StopBroadcast changed))|..]; rewrite ?El; try done; by destruct changed.
  - done.
Qed.

(** Waits on the abort notification. *)
Lemma abort_poll w n n' w' :
  n_ok n → broadcast n = 0 → first_round (Some w) → Z.of_nat (holds (Some w)) ≤ waiters n → poll w n = Some (n', w') →
  n_ok n' ∧ broadcast n' = 0 ∧ waiters n' + Z.of_nat (holds (Some w)) = waiters n + Z.of_nat (holds w') ∧ first_round w'.
Proof.
  unfold n_ok, COUNT. intros Hok Hb Hf Hh Hp. destruct w as [b|b]; cbn in *; subst b.
  - unfold a_register, COUNT in Hp. rewrite Hb, Z.eqb_refl in Hp. cbn in Hp. destruct (permit n); cbn in Hp; [injection Hp as <- <-; cbn; lia|].
    destruct (Z.ltb_spec (waiters n) (2 ^ 21 - 1)); cbn in Hp; [|done]. injection Hp as <- <-. cbn. lia.
  - unfold a_complete in Hp. rewrite Hb, Z.eqb_refl in Hp. cbn in Hp.
    destruct (Z.eqb_spec (pending n) 0); cbn in Hp; injection Hp as <- <-; cbn; lia.
Qed.

Lemma abort_forget w n :
  n_ok n → broadcast n = 0 → first_round w → Z.of_nat (holds w) ≤ waiters n →
  n_ok (forget w n) ∧ broadcast (forget w n) = 0 ∧ waiters (forget w n) + Z.of_nat (holds w) = waiters n.
Proof.
  unfold n_ok, COUNT. intros Hok Hb Hf Hh. destruct w as [[b|b]|]; cbn in *; [lia| |lia]. subst b. unfold a_drop.
  rewrite Hb, Z.eqb_refl. cbn. destruct (Z.eqb_spec (waiters n) 0); cbn; lia.
Qed.

Lemma holds_waiters s k t :
  delay_inv s → tasks s !! k = Some t → Z.of_nat (holds (task_wait t)) ≤ waiters (abort_notify s).
Proof.
  intros Hd Hk. rewrite (di_waiters s Hd).
  pose proof (sum_list_insert (λ t, holds (task_wait t)) (tasks s) k t Done Hk) as E. cbn in E. lia.
Qed.

(** One delay moves on. *)
Lemma task_replaced s s1 k t t' :
  inv s → tasks s !! k = Some t → queue s1 = queue s → loop s1 = loop s → fetch_in_progress s1 = fetch_in_progress s →
  release s1 = release s → notify_inv (loop s) (state_notify s1) →
  (delay_inv s → first_round (task_wait t') ∧ n_ok (abort_notify s1) ∧ broadcast (abort_notify s1) = 0 ∧
     waiters (abort_notify s1) + Z.of_nat (holds (task_wait t)) = waiters (abort_notify s) + Z.of_nat (holds (task_wait t'))) →
  (waiting t' = true → waiting t = true) → (mode (queue s) ≠ LocalQueue.Released → active s1 = (if waiting t && negb (waiting t') then false else active s)) →
  inv (set_tasks (<[k := t']> (tasks s)) s1).
Proof.
  intros [Hn Hf Hd] Hk Eq El Ef Er Hn' Hab Hw Ea. constructor; cbn; [by rewrite El|by rewrite Ef, El|].
  rewrite Eq. intros Hm. specialize (Hd Hm). specialize (Ea Hm). destruct (Hab Hd) as (Hfr & Hok & Hb & Hwt). destruct Hd as [Ha Hh Ht Hws _ Hnn Hr].
  assert (head_waiting (<[k := t']> (tasks s)) = (if waiting t && negb (waiting t') then false else head_waiting (tasks s)) ∧
    (waiting t && negb (waiting t') = true → starting (loop s) = false) ∧
    Forall (λ t, waiting t = false) (tail (<[k := t']> (tasks s)))) as (Hhd & Hst & Htl).
  { destruct (tasks s) as [|t0 ts]; [done|]. destruct k as [|k]; cbn in *.
    - injection Hk as ->. split_and!; [|intros Hx|done].
      + destruct (waiting t), (waiting t'); naive_solver.
      + destruct (waiting t), (starting (loop s)) eqn:Es; try done. by destruct (loop s); try done; specialize (Hh eq_refl).
    - pose proof (Forall_lookup_1 _ _ _ _ Ht Hk) as Hwk. cbn in Hwk. rewrite Hwk. cbn. split_and!; [done..|].
      apply Forall_insert; [done|]. destruct (waiting t'); [|done]. rewrite Hwk in Hw. by specialize (Hw eq_refl). }
  constructor; cbn; rewrite ?El; try done.
  - rewrite Ea, Hhd, Ha. destruct (waiting t && negb (waiting t')); [by rewrite Hst|done].
  - intros Hc. rewrite Hhd, (Hh Hc). by destruct (_ && _).
  - by apply Forall_insert.
  - pose proof (sum_list_insert (λ t, holds (task_wait t)) (tasks s) k t t' Hk) as E. cbn in E. lia.
  - by rewrite Er.
Qed.

Lemma task_next_inv fired s s1 k t t' :
  inv s → tasks s !! k = Some t → task_next fired t s = Some (t', s1) → inv (set_tasks (<[k := t']> (tasks s)) s1).
Proof.
  intros Hi Hk Hs. pose proof (inv_notify s Hi) as Hn.
  assert (delay_inv s → n_ok (abort_notify s) ∧ broadcast (abort_notify s) = 0 ∧ first_round (task_wait t) ∧
    Z.of_nat (holds (task_wait t)) ≤ waiters (abort_notify s)) as Hd.
  { intros Hd. pose proof (holds_waiters s k t Hd Hk). destruct Hd as [_ _ _ Hw [Hok Hb] _ _].
    pose proof (Forall_lookup_1 _ _ _ _ Hw Hk). done. }
  destruct t as [|w|ab w|ab w|ab w|w|]; cbn in Hs; [| |injection Hs as <- <-..|done].
  - injection Hs as <- <-. eapply task_replaced; try done. intros Hx%Hd. cbn in *. naive_solver lia.
  - destruct fired; [injection Hs as <- <-; eapply task_replaced; try done; intros Hx%Hd; cbn in *; naive_solver lia|].
    destruct (poll w (abort_notify s)) as [[n' [w'|]]|] eqn:Ep; [case_bool_decide|..]; try done; injection Hs as <- <-;
      (eapply task_replaced; [exact Hi|exact Hk|..]; try done; intros (Hok & Hb & Hfr & Hw)%Hd; destruct (abort_poll w _ _ _ Hok Hb Hfr Hw Ep) as (? & ? & ? & ?); done).
  - eapply task_replaced; try done. intros Hx%Hd. cbn in *. naive_solver lia.
  - eapply task_replaced; try done; [by apply notify_inv_mark_one|]. intros Hx%Hd. cbn in *. naive_solver lia.
  - eapply task_replaced; try done; try (by destruct ab). intros Hx%Hd. destruct ab; cbn in *; naive_solver lia.
  - eapply task_replaced; try done. intros Hx%Hd. cbn in *. destruct (abort_forget w (abort_notify s)); naive_solver lia.
Qed.

(** A replaced delay no longer counts. *)
Lemma drop_task_inv s s1 k t t' :
  inv s → tasks s !! k = Some t → (k ≠ 0%nat ∨ release s = ReleasedAll ∧ loop s = Ended) → drop_task t s = Some (t', s1) →
  inv (set_tasks (<[k := t']> (tasks s)) s1).
Proof.
  intros Hi Hk Hc Hs.
  assert (mode (queue s) ≠ LocalQueue.Released → waiting t = false) as Hwt.
  { intros Hm. pose proof (inv_delay s Hi Hm) as Hd. destruct Hc as [Hc|[Hc _]]; [|by rewrite (di_release s Hd) in Hc].
    pose proof (di_tail s Hd) as Ht. destruct (tasks s) as [|t0 ts], k as [|k]; try done. cbn in *. by apply (Forall_lookup_1 _ _ _ _ Ht Hk). }
  assert (t' = Done ∧ queue s1 = queue s ∧ loop s1 = loop s ∧ fetch_in_progress s1 = fetch_in_progress s ∧ release s1 = release s ∧
    state_notify s1 = state_notify s ∧ active s1 = active s ∧ abort_notify s1 = forget (task_wait t) (abort_notify s))
    as (-> & Eq & El & Ef & Er & En & Ea & Eab).
  { destruct t as [|w|? ?|? ?|[] ?|w|]; cbn in Hs; try done; by injection Hs as <- <-. }
  eapply task_replaced; try done.
  - rewrite En. apply (inv_notify s Hi).
  - intros Hd. pose proof (holds_waiters s k t Hd Hk). destruct Hd as [_ _ _ Hw [Hok Hb] _ _].
    pose proof (Forall_lookup_1 _ _ _ _ Hw Hk) as Hfr. cbn in Hfr. rewrite Eab.
    destruct (abort_forget (task_wait t) (abort_notify s)) as (? & ? & ?); try done. cbn. split_and!; try done. lia.
  - intros Hm. by rewrite (Hwt Hm), Ea.
Qed.

(** A step of another task that only notifies the loop, or not even that. *)
Lemma inv_aside s s' :
  inv s → loop s' = loop s → notify_inv (loop s) (state_notify s') → fetch_in_progress s' = fetch_in_progress s →
  (mode (queue s') ≠ LocalQueue.Released → mode (queue s) ≠ LocalQueue.Released) → active s' = active s → tasks s' = tasks s →
  abort_notify s' = abort_notify s → release s' = release s → inv s'.
Proof.
  intros [Hn Hf Hd] El Hn' Ef Em Ea Et Eab Er. constructor; [by rewrite El|by rewrite Ef, El|].
  intros Hm. apply (delay_inv_ext s); rewrite ?El; auto.
Qed.

(** Pulses touch only flags and notifications. *)
Lemma pulse_next_inv s s1 p p' ps : inv s → pulse_next p s = Some (p', s1) → inv (set_pulses ps s1).
Proof.
  intros Hi Hs. pose proof Hi as [Hn Hf Hd].
  destruct p; cbn in Hs; try done; injection Hs as <- <-; try (by apply (inv_aside s)); [|by apply (inv_aside s); try done; apply notify_inv_mark_one].
  constructor; [done..|]. intros Hm. destruct (Hd Hm) as [Ha Hh Ht Hw [Hok Hb] Hnn Hr].
  assert (n_ok (a_mark_one (abort_notify s)).1 ∧ broadcast (a_mark_one (abort_notify s)).1 = 0 ∧
    waiters (a_mark_one (abort_notify s)).1 = waiters (abort_notify s)) as (? & ? & Ew).
  { unfold n_ok, COUNT, a_mark_one in *. destruct (Z.ltb_spec (pending (abort_notify s)) (waiters (abort_notify s))); cbn; lia. }
  constructor; cbn; congruence || done.
Qed.

Lemma exec_inv a s s' : inv s → exec a s = Some s' → inv s'.
Proof.
  intros Hi Hs. pose proof Hi as [Hn Hf Hd]. destruct a as [e|k fired|k|n|k|o| |]; cbn in Hs.
  - by eapply loop_next_inv.
  - destruct (tasks s !! k) as [t|] eqn:Hk; [|done]. apply fmap_Some in Hs as ([t' s1] & Ht & ->). by eapply task_next_inv.
  - destruct (tasks s !! k) as [t|] eqn:Hk; [|done]. destruct (_ || _) eqn:Hc; [|done].
    apply fmap_Some in Hs as ([t' s1] & Ht & ->). eapply drop_task_inv; eauto.
    apply orb_true_iff in Hc as [Hc|Hc]; apply bool_decide_eq_true in Hc; auto.
  - destruct (_ && _); [|done]. injection Hs as <-. by apply (inv_aside s).
  - destruct (pulses s !! k) as [p|]; [|done]. apply fmap_Some in Hs as ([p' s1] & Hp & ->). by eapply pulse_next_inv.
  - apply bind_Some in Hs as (q & Hq & [= <-]). apply (inv_aside s); try done. cbn. by eapply queue_op_released.
  - destruct (broadcasts s); [done|]. destruct (lapped s) eqn:Hl; [done|]. injection Hs as <-.
    apply (inv_aside s); try done. by apply notify_inv_mark_all, lapped_registered.
  - assert (mode (queue s) ≠ LocalQueue.Released → release s = NotReleased) as Hr by (intros Hm; apply (di_release s (Hd Hm))).
    unfold release_next in Hs. destruct (release s) eqn:Er; [|..|done]; injection Hs as <-; (constructor; [done || by apply notify_inv_mark_one|done|]);
      cbn; try done; by intros Hm%Hr.
Qed.

Lemma loop_reachable_inv s : reachable s → inv s.
Proof.
  unfold reachable. intros Hr. pose proof initial_loop_inv as Hi. induction Hr as [|x y z [a Ha] _ IH]; [done|]. eauto using exec_inv.
Qed.

(** ** Waking up *)

Definition wait_round (w : Wait) : Z := match w with Created b | Registered b => b end.

(** A broadcast or a notification has reached the wait of the loop. *)
Definition ready (s : State) (w : Wait) : Prop := broadcast (state_notify s) ≠ wait_round w ∨ 0 < tokens (state_notify s).

(** What the loop and its delay do by themselves, with the pulse under way if
    [pulse]; no timer has to fire unless [timed]. *)
Definition alone (pulse timed : bool) (a : Action) : Prop :=
  match a with
  | ALoop e => timed || negb (timer e) = true
  | ATask 0 fired => timed || negb fired = true
  | APulseStep 0 => pulse = true
  | _ => False
  end.

Lemma run_app l1 l2 s : run (l1 ++ l2) s = s1 ← run l1 s; run l2 s1.
Proof. revert s. induction l1 as [|a l1 IH]; intros s; cbn; [done|]. destruct (exec a s); cbn; [apply IH|done]. Qed.

Lemma run_keeps_inv l s s' : inv s → run l s = Some s' → inv s'.
Proof.
  revert s. induction l as [|a l IH]; cbn; intros s Hi; [by intros [= <-]|].
  destruct (exec a s) eqn:E; cbn; [|done]. apply IH. by eapply exec_inv.
Qed.

Lemma poll_ready s w : inv s → loop s = Waiting w → ready s w → ∃ n, poll w (state_notify s) = Some (n, None).
Proof.
  intros Hi El Hr. pose proof (inv_notify s Hi) as Hn. rewrite El in Hn. pose proof Hn as [Hok Hw Hp _ _].
  unfold ready, tokens in Hr. destruct w as [b|b]; cbn in *.
  - destruct (unregistered_pending _ _ Hn eq_refl) as [_ E0]. rewrite E0 in Hr. unfold a_register.
    destruct (Z.eqb_spec (broadcast (state_notify s)) b); cbn; [|eauto]. destruct (permit (state_notify s)); cbn in *; [eauto|naive_solver lia].
  - unfold a_complete. destruct (Z.eqb_spec (broadcast (state_notify s)) b); cbn; [|eauto].
    destruct (Z.eqb_spec (pending (state_notify s)) 0) as [E0|]; cbn; [|eauto]. subst b. rewrite Z.eqb_refl in *. cbn in *.
    destruct Hr as [?|Ht]; [done|]. destruct (permit (state_notify s)); cbn in Ht; [specialize (Hp eq_refl eq_refl)|]; lia.
Qed.

(** One more step of the loop. *)
Lemma run_loop e s s1 l s' : loop_next e s = Some s1 → run l s1 = Some s' → run (ALoop e :: l) s = Some s'.
Proof. intros H1 H2. cbn. by rewrite H1. Qed.

(** A notified loop of a polling queue fetches. *)
Lemma ready_fetches s w :
  inv s → mode (queue s) = LocalQueue.Polling → loop s = Waiting w → active s = false → ready s w →
  ∃ l s', Forall (alone false false) l ∧ run l s = Some s' ∧ fetches s' = S (fetches s).
Proof.
  intros Hi Hm El Ha Hr. destruct (poll_ready s w Hi El Hr) as [n Hp].
  pose proof (inv_fetch s Hi) as Hf. rewrite El in Hf. cbn in Hf. set (e := mkAnswers true (Err tt) 0 false).
  eexists (replicate 7 (ALoop e)), _. split; [by apply Forall_replicate|]. split.
  - apply (run_loop e s (goto Top (set_state_notify n s))); [unfold loop_next, await; by rewrite El, Hp|].
    eapply run_loop; [unfold loop_next; cbn [loop goto]; done|].
    eapply run_loop; [unfold loop_next; cbn; rewrite Hm, Hf, Ha; done|].
    eapply run_loop; [unfold loop_next; cbn; rewrite Hf; done|].
    eapply run_loop; [unfold loop_next; cbn; rewrite Ha; done|].
    eapply run_loop; [unfold loop_next; cbn; done|].
    eapply run_loop; [unfold loop_next; cbn; done|]. done.
  - done.
Qed.

(** The end of a delay clears its flag and notifies the loop. *)
Lemma completing_ends s ts ab w :
  inv s → tasks s = Completing ab w :: ts →
  ∃ s', run [ATask 0 false; ATask 0 false] s = Some s' ∧ inv s' ∧ active s' = false ∧ 0 < tokens (state_notify s') ∧
    loop s' = loop s ∧ queue s' = queue s ∧ fetches s' = fetches s.
Proof.
  intros Hi Ht. assert (∃ s', run [ATask 0 false; ATask 0 false] s = Some s' ∧ active s' = false ∧
    state_notify s' = (a_mark_one (state_notify s)).1 ∧ loop s' = loop s ∧ queue s' = queue s ∧ fetches s' = fetches s)
    as (s' & Hs & Ha & En & El & Eq & Ef).
  { cbn. rewrite Ht. cbn. eexists. by split. }
  exists s'. split; [done|]. split; [by eapply run_keeps_inv|]. split_and!; try done. rewrite En.
  apply QueueWakeup.mark_one_tokens, (ni_ok _ _ (inv_notify s Hi)).
Qed.

(** The delay alone brings itself to completion. *)
Definition ends_delay (timed : bool) (s : State) : Prop :=
  ∃ l s' ab w ts', Forall (alone false timed) l ∧ run l s = Some s' ∧ inv s' ∧ tasks s' = Completing ab w :: ts' ∧
    loop s' = loop s ∧ queue s' = queue s ∧ fetches s' = fetches s.

Lemma task_next_frame fired t s t' s1 :
  task_next fired t s = Some (t', s1) → loop s1 = loop s ∧ queue s1 = queue s ∧ fetches s1 = fetches s.
Proof. intros H. destruct t; cbn in H; repeat case_match; simplify_eq; done. Qed.

Lemma ends_delay_step timed fired s ts t t' s1 :
  inv s → tasks s = t :: ts → timed || negb fired = true → task_next fired t s = Some (t', s1) →
  (inv (set_tasks (t' :: ts) s1) → ends_delay timed (set_tasks (t' :: ts) s1)) → ends_delay timed s.
Proof.
  intros Hi Ht Hf Hs Hnext. assert (exec (ATask 0 fired) s = Some (set_tasks (t' :: ts) s1)) as E by (cbn [exec]; by rewrite Ht; cbn; rewrite Hs).
  destruct (task_next_frame _ _ _ _ _ Hs) as (El & Eq & Ef).
  destruct Hnext as (l & s' & ab & w & ts' & Hl & Hr & Hi' & Hts & El' & Eq' & Ef'); [by eapply exec_inv|].
  exists (ATask 0 fired :: l), s', ab, w, ts'. rewrite <- El, <- Eq, <- Ef. split_and!; try done; [by constructor|].
  cbn [run]. by rewrite E.
Qed.

Lemma ends_delay_now timed s ab w ts : inv s → tasks s = Completing ab w :: ts → ends_delay timed s.
Proof. intros Hi Ht. by exists [], s, ab, w, ts. Qed.

(** A delay that counts: its timer ends it. *)
Lemma timer_ends_delay s ts t : inv s → tasks s = t :: ts → waiting t = true → ends_delay true s.
Proof.
  intros Hi Ht Hw. destruct t as [|w|ab w|? ?|? ?|?|]; try done; [| |by eapply ends_delay_now].
  - eapply (ends_delay_step true true); try done. intros Hi1.
    eapply (ends_delay_step true true); try done. intros Hi2. by eapply ends_delay_now.
  - eapply (ends_delay_step true true); try done. intros Hi1. by eapply ends_delay_now.
Qed.

(** An abort that reached it ends it without the timer. *)
Lemma abort_ends_sleep s ts w :
  inv s → mode (queue s) ≠ LocalQueue.Released → tasks s = Sleeping w :: ts → waiters (abort_notify s) < COUNT - 1 →
  0 < pending (abort_notify s) ∨ permit (abort_notify s) = true ∧ waiters (abort_notify s) = 0 → ends_delay false s.
Proof.
  intros Hi Hm Ht Hc Hab. pose proof (inv_delay s Hi Hm) as Hd. pose proof (di_ok s Hd) as [Hok Hb].
  pose proof (holds_waiters s 0 _ Hd ltac:(by rewrite Ht)) as Hh. pose proof (di_waits s Hd) as Hw. rewrite Ht in Hw.
  apply Forall_cons in Hw as [Hw _]. cbn in Hw, Hh. destruct w as [b|b]; subst b.
  - destruct (permit (abort_notify s)) eqn:Ep.
    + eapply (ends_delay_step false false); [done..| |].
      { cbn. unfold a_register. by rewrite Hb, Z.eqb_refl, Ep. }
      intros Hi1. by eapply ends_delay_now.
    + destruct Hab as [Hp|[? _]]; [|done].
      eapply (ends_delay_step false false); [done..| |].
      { cbn. unfold a_register. rewrite Hb, Z.eqb_refl, Ep. cbn. destruct (Z.ltb_spec (waiters (abort_notify s)) (COUNT - 1)); [|lia].
        rewrite bool_decide_eq_false_2; [done|]. intros E%(f_equal waiters). cbn in E. lia. }
      intros Hi1. eapply (ends_delay_step false false); [done..| |].
      { cbn. unfold a_complete. cbn. rewrite ?Hb, ?Z.eqb_refl. cbn. destruct (Z.eqb_spec (pending (abort_notify s)) 0); [lia|done]. }
      intros Hi2. by eapply ends_delay_now.
  - eapply (ends_delay_step false false); [done..| |].
    { cbn. unfold a_complete. rewrite Hb, Z.eqb_refl. cbn. destruct (Z.eqb_spec (pending (abort_notify s)) 0); [|done]. cbn in Hh. lia. }
    intros Hi1. by eapply ends_delay_now.
Qed.

Lemma abort_ends_delay s ts t :
  inv s → mode (queue s) ≠ LocalQueue.Released → tasks s = t :: ts → waiting t = true → waiters (abort_notify s) < COUNT - 1 →
  0 < pending (abort_notify s) ∨ permit (abort_notify s) = true ∧ waiters (abort_notify s) = 0 → ends_delay false s.
Proof.
  intros Hi Hm Ht Hw Hc Hab. destruct t as [|w|ab w|? ?|? ?|?|]; try done; [| |by eapply ends_delay_now].
  - eapply (ends_delay_step false false); try done. intros Hi1. by eapply abort_ends_sleep.
  - by eapply abort_ends_sleep.
Qed.

(** A queue that polls fetches once its delay has ended. *)
Lemma ended_delay_fetches timed s w :
  inv s → mode (queue s) = LocalQueue.Polling → loop s = Waiting w → ends_delay timed s →
  ∃ l s', Forall (alone false timed) l ∧ run l s = Some s' ∧ fetches s' = S (fetches s).
Proof.
  intros Hi Hm El (l & s1 & ab & w1 & ts & Hl & Hr & Hi1 & Ht & El1 & Eq1 & Ef1).
  destruct (completing_ends s1 ts ab w1 Hi1 Ht) as (s2 & Hr2 & Hi2 & Ha2 & Htok & El2 & Eq2 & Ef2).
  destruct (ready_fetches s2 w) as (l3 & s3 & Hl3 & Hr3 & Ef3); [done|congruence|congruence|done|by right|].
  exists (l ++ [ATask 0 false; ATask 0 false] ++ l3), s3. split_and!; [|by rewrite run_app, Hr; cbn [mbind option_bind]; rewrite run_app, Hr2|congruence].
  apply Forall_app. split; [done|]. constructor; [by destruct timed|]. constructor; [by destruct timed|].
  eapply Forall_impl; [exact Hl3|]. intros [] Ha; cbn in *; destruct timed; try done; by repeat case_match.
Qed.

(** C31: A fetch loop is woken by what is meant to wake it.  Whenever the loop
    of a polling queue sleeps while a refetch delay is running, or after a
    notification or broadcast, it can run its next claim with nothing but its
    own steps and those of the delay: a running delay always has a task that
    ends it, and ending it notifies the loop. *)
Theorem sleeping_loop_wakes s w :
  reachable s → mode (queue s) = LocalQueue.Polling → loop s = Waiting w → active s = true ∨ ready s w →
  ∃ l s', Forall (alone false true) l ∧ run l s = Some s' ∧ fetches s' = S (fetches s).
Proof.
  intros Hi%loop_reachable_inv Hm El Hc. destruct (active s) eqn:Ea.
  - pose proof (inv_delay s Hi ltac:(by rewrite Hm)) as Hd. pose proof (di_active s Hd) as E. rewrite Ea, El, orb_false_r in E.
    destruct (tasks s) as [|t ts] eqn:Et; [done|]. eapply ended_delay_fetches; [done..|]. by eapply timer_ends_delay.
  - destruct (ready_fetches s w) as (l & s' & Hl & Hr & Ef); [done..|naive_solver|]. exists l, s'. split_and!; try done.
    eapply Forall_impl; [exact Hl|]. intros [] Ha; cbn in *; by repeat case_match.
Qed.

(** ** Pulses *)

(** One more step of the newest pulse. *)
Lemma run_pulse s p ps p' s1 l s' :
  pulses s = p :: ps → pulse_next p s = Some (p', s1) → run l (set_pulses (p' :: ps) s1) = Some s' → run (APulseStep 0 :: l) s = Some s'.
Proof. intros H1 H2 H3. cbn [run exec]. rewrite H1. cbn. by rewrite H2. Qed.

Lemma run_new_pulse n s l s' :
  0 ≤ n ≤ USIZE_MAX → run l (new_pulse n s) = Some s' → run (APulse n :: l) s = Some s'.
Proof. intros Hn Hr. cbn [run exec]. rewrite (proj2 (Z.leb_le 0 n)), (proj2 (Z.leb_le n _)) by lia. done. Qed.

(** What a pulse leaves when it has run alone. *)
Lemma quiet_pulse s n :
  0 ≤ n ≤ USIZE_MAX → mode (queue s) = LocalQueue.Polling → fetch_in_progress s = false → active s = false →
  ∃ s', run (APulse n :: replicate 5 (APulseStep 0)) s = Some s' ∧ active s' = false ∧ loop s' = loop s ∧ queue s' = queue s ∧
    fetches s' = fetches s ∧ state_notify s' = (a_mark_one (state_notify s)).1.
Proof.
  intros Hn Hm Hf Ha. eexists. split; [apply run_new_pulse; [done|]|].
  - do 5 (eapply run_pulse; [done|cbn; rewrite ?Ha, ?Hm, ?Hf; done|]). done.
  - done.
Qed.

Lemma aborting_pulse s n :
  0 ≤ n ≤ USIZE_MAX → active s = true → abort_threshold s ≤ (counter s + n) `mod` 2 ^ 64 →
  ∃ s', run (APulse n :: replicate 4 (APulseStep 0)) s = Some s' ∧ loop s' = loop s ∧ queue s' = queue s ∧
    fetches s' = fetches s ∧ tasks s' = tasks s ∧ abort_notify s' = (a_mark_one (abort_notify s)).1.
Proof.
  intros Hn Ha Ht. eexists. split; [apply run_new_pulse; [done|]|].
  - eapply run_pulse; [done|cbn -[Z.pow Z.modulo]; rewrite Ha; done|].
    eapply run_pulse; [done|cbn -[Z.pow Z.modulo]; done|].
    eapply run_pulse; [done|cbn -[Z.pow Z.modulo]; rewrite (proj2 (Z.leb_le _ _) Ht); done|].
    eapply run_pulse; [done|cbn -[Z.pow Z.modulo]; done|]. done.
  - done.
Qed.

(** The notification an abort leaves for the delay. *)
Lemma aborted_notify n : n_ok n → 0 < pending (a_mark_one n).1 ∨ permit (a_mark_one n).1 = true ∧ waiters (a_mark_one n).1 = 0.
Proof. unfold n_ok, a_mark_one. destruct (Z.ltb_spec (pending n) (waiters n)); cbn; [lia|]. destruct (Z.eq_dec (waiters n) 0); [by right|left; lia]. Qed.

Lemma alone_weaken timed l : Forall (alone false timed) l → Forall (alone true timed) l.
Proof. intros H. eapply Forall_impl; [exact H|]. intros []; cbn; try done. by destruct k. Qed.

(** A pulse reaches a fetch.  When the loop of a polling queue sleeps and a
    pulse arrives while no delay is running, or one that brings the count to
    the abort threshold, then the pulse, the delay and the loop by themselves
    lead to the next claim without any timer: a pulse in this situation is
    never lost, wherever the delay stands. *)
Theorem pulse_reaches_fetch s w n :
  reachable s → mode (queue s) = LocalQueue.Polling → loop s = Waiting w → 0 ≤ n ≤ USIZE_MAX →
  waiters (abort_notify s) < COUNT - 1 →
  active s = false ∨ abort_threshold s ≤ (counter s + n) `mod` 2 ^ 64 →
  ∃ l s', Forall (alone true false) l ∧ run (APulse n :: l) s = Some s' ∧ fetches s' = S (fetches s).
Proof.
  intros Hi%loop_reachable_inv Hm El Hn Hc Ht. pose proof (inv_fetch s Hi) as Hf. rewrite El in Hf.
  assert (∃ k s1 l s', run (APulse n :: replicate k (APulseStep 0)) s = Some s1 ∧ Forall (alone false false) l ∧
    run l s1 = Some s' ∧ fetches s' = S (fetches s)) as (k & s1 & l & s' & H1 & Hl & H2 & Ef).
  { destruct (active s) eqn:Ea.
    - destruct Ht as [?|Ht]; [done|]. destruct (aborting_pulse s n Hn Ea Ht) as (s1 & Hr & El1 & Eq1 & Ef1 & Et1 & En1).
      pose proof (inv_delay s Hi ltac:(by rewrite Hm)) as Hd. pose proof (di_active s Hd) as E. rewrite Ea, El, orb_false_r in E.
      destruct (tasks s) as [|t ts] eqn:Et; [done|]. destruct (di_ok s Hd) as [Hok _].
      destruct (ended_delay_fetches false s1 w) as (l & s' & Hl & Hr' & Ef'); [by eapply run_keeps_inv|congruence|congruence| |].
      { eapply (abort_ends_delay s1 ts t); [by eapply run_keeps_inv|by rewrite Eq1, Hm|congruence|done| |rewrite En1; by apply aborted_notify].
        rewrite En1. by rewrite (proj2 (QueueWakeup.mark_one_ok _ Hok)). }
      exists 4%nat, s1, l, s'. split_and!; try done. congruence.
    - destruct (quiet_pulse s n Hn Hm Hf Ea) as (s1 & Hr & Ea1 & El1 & Eq1 & Ef1 & En1).
      destruct (ready_fetches s1 w) as (l & s' & Hl & Hr' & Ef'); [by eapply run_keeps_inv|congruence|congruence|done| |].
      { right. rewrite En1. apply QueueWakeup.mark_one_tokens, (ni_ok _ _ (inv_notify s Hi)). }
      exists 5%nat, s1, l, s'. split_and!; try done. congruence. }
  exists (replicate k (APulseStep 0) ++ l), s'. split_and!; [|by rewrite app_comm_cons, run_app, H1|done].
  apply Forall_app. split; [by apply Forall_replicate|by apply alone_weaken].
Qed.

(** Every fetch that ran its statement leaves a permit for the next wait. *)
Lemma idle_goes_on e s w : reachable s → loop s = Idle true w → ∃ s', loop_next e s = Some s' ∧ loop s' = Top.
Proof.
  intros Hi%loop_reachable_inv El. pose proof (inv_notify s Hi) as Hn. rewrite El in Hn.
  destruct Hn as [Hok Hw Hp Hh Hid]. specialize (Hh eq_refl). destruct w as [b|b]; [|by destruct (Hid b)].
  unfold loop_next. rewrite El. destruct (timer e); [by eexists|]. unfold await. cbn. unfold a_register. rewrite Hh.
  destruct (negb _); by eexists.
Qed.

(** ** The lost broadcast *)

(** A polling queue whose loop sleeps with nothing under way. *)
Definition stalled (s : State) : Prop :=
  mode (queue s) = LocalQueue.Polling ∧ LocalQueue.job_queue (queue s) = [] ∧
  loop s = Waiting (Registered (broadcast (state_notify s))) ∧ tokens (state_notify s) = 0 ∧ 0 ≤ pending (state_notify s) ∧
  tasks s = [] ∧ pulses s = [] ∧ broadcasts s = 0%nat.

(** Pulses and releases come from outside the queue and its consumers. *)
Definition outside (a : Action) : bool := match a with APulse _ | ARelease => true | _ => false end.

Lemma stalled_stays a s s' :
  outside a = false → stalled s → exec a s = Some s' → stalled s' ∧ fetches s' = fetches s.
Proof.
  intros Ho (Hm & Hj & El & Htok & Hp & Et & Eps & Eb) Hs. destruct a as [e|k fired|k|n|k|o| |]; try done; cbn in Hs; rewrite ?Et, ?Eps, ?Eb in Hs; try done.
  - exfalso. unfold loop_next in Hs. rewrite El in Hs. unfold await, poll, a_complete in Hs. rewrite Z.eqb_refl in Hs. cbn in Hs.
    unfold tokens in Htok. destruct (Z.eqb_spec (pending (state_notify s)) 0) as [E|E]; cbn in Hs; [by rewrite bool_decide_eq_true_2 in Hs|].
    destruct (permit (state_notify s)); cbn in Htok; lia.
  - apply bind_Some in Hs as (q & Hq & [= <-]). assert (mode q = LocalQueue.Polling ∧ LocalQueue.job_queue q = []) as [Hm' Hj'].
    { destruct o; cbn in Hq; try (injection Hq as <-; done).
      - unfold LocalQueue.resume in Hq. rewrite Hm in Hq. cbn in Hq. by injection Hq as <-.
      - unfold LocalQueue.pop_cached in Hq. rewrite Hm, Hj in Hq. done.
      - unfold LocalQueue.set_mode_ttl_expired in Hq. rewrite Hm in Hq. done. }
    unfold stalled. cbn. rewrite Hm, Hm', bool_decide_eq_true_2, andb_false_r by done. done.
Qed.

Lemma stalled_forever l s s' :
  Forall (λ a, outside a = false) l → stalled s → run l s = Some s' → stalled s' ∧ fetches s' = fetches s.
Proof.
  intros Hl. revert s. induction Hl as [|a l Ha Hl IH]; cbn; intros s Hst; [by intros [= <-]|].
  destruct (exec a s) as [s1|] eqn:E; cbn; [|done]. intros Hr. destruct (stalled_stays a s s1 Ha Hst E) as [Hst1 E1].
  destruct (IH s1 Hst1 Hr) as [? ?]. split; [done|congruence].
Qed.

End loop.

(** ** The default configuration *)

Section default.
(** A worker's queue runs on; there is no refetch delay by default. *)
Context (cfg : LocalQueue.LocalQueueConfig).
Hypothesis no_delay : LocalQueue.refetch_delay cfg = None.

(** An idle queue after [m] claims: everything as at the start but for the
    broadcast of its first mode and the count. *)
Definition idle_queue (m : nat) : State :=
  mkState (LocalQueue.with_mode LocalQueue.Polling LocalQueue.new_queue) false false false false 0 USIZE_MAX (mkN false 0 0 0) (mkN false 0 0 1)
    Top [] [] 0 NotReleased m.

Definition nothing_found : Answers := mkAnswers true (Ok []) 0 false.

Lemma idle_queue_again m : run cfg true (replicate 12 (ALoop nothing_found)) (idle_queue m) = Some (idle_queue (S m)).
Proof. destruct cfg as [sz t rd qc]. cbn in no_delay. rewrite no_delay. reflexivity. Qed.

(** The poll interval is not waited for.  Every fetch that ran its
    statement leaves a permit in the notification of the loop, and the wait for
    the next poll consumes it at once, so whatever the timer the loop goes
    straight on; without a refetch delay, which is the default, an idle queue
    sends claim after claim to the database without ever sleeping. *)
Theorem poll_interval_is_skipped :
  (∀ s w, reachable cfg true s → loop s = Idle true w → ∀ e, ∃ s', loop_next cfg true e s = Some s' ∧ loop s' = Top) ∧
  (∀ m, ∃ l, Forall (λ a, a = ALoop nothing_found) l ∧ run cfg true l initial = Some (idle_queue m)).
Proof.
  split; [intros s w Hr El e; by eapply idle_goes_on|].
  intros m. induction m as [|m (l & Hl & IH)].
  - exists (replicate 2 (ALoop nothing_found)). split; [by repeat constructor|done].
  - exists (l ++ replicate 12 (ALoop nothing_found)). split; [apply Forall_app; split; [done|by repeat constructor]|].
    rewrite run_app, IH. apply idle_queue_again.
Qed.

(** A claim of one job, then its handler takes it between the loop's look at
    the mode and its wait. *)
Definition one_job (j : Job) : Answers := mkAnswers true (Ok [j]) 0 false.
Definition losing_run (j : Job) : list Action :=
  replicate 18 (ALoop (one_job j)) ++ [AQueue Pop; ABroadcast] ++ replicate 3 (ALoop (one_job j)).

Lemma losing_run_stalls j : ∃ s, run cfg true (losing_run j) initial = Some s ∧ fetches s = 1%nat ∧ stalled s.
Proof.
  destruct cfg as [sz t rd qc]. cbn in no_delay. rewrite no_delay.
  eexists. split; [vm_compute; reflexivity|]. by repeat split.
Qed.

(** A mode change can be missed.  [set_mode] notifies with a broadcast,
    which only reaches waits that already exist: if the last cached job is
    taken between the loop's look at the mode and the creation of its wait, the
    queue polls but its loop sleeps, and it claims nothing ever after, whatever
    its consumers, returns and timers do, until a pulse or a release comes from
    outside. *)
Theorem mode_change_can_be_missed j :
  ∃ s, run cfg true (losing_run j) initial = Some s ∧ fetches s = 1%nat ∧ mode (queue s) = LocalQueue.Polling ∧
    ∀ l s', Forall (λ a, outside a = false) l → run cfg true l s = Some s' → fetches s' = 1%nat.
Proof.
  destruct (losing_run_stalls j) as (s & Hs & Hf & Hst). exists s. split_and!; try done; [by destruct Hst|].
  intros l s' Hl Hrun. rewrite <- Hf. by eapply stalled_forever.
Qed.

End default.

(** ** On concrete queues *)

(** A delay of 100 ms after a fetch that finds nothing; its threshold is 2. *)
Definition demo_delay : LocalQueue.LocalQueueConfig :=
  LocalQueue.mkConfig 10 100 (Some (LocalQueue.mkRefetch 100 0 None)) 1.
Definition demo_plain : LocalQueue.LocalQueueConfig := LocalQueue.mkConfig 10 100 None 1.
Definition demo_answers : Answers := mkAnswers true (Ok []) 2 false.
Definition demo_job : Job :=
  mkJob (mkDbJob 1 None (Object []) 0 0 1 25 None 0 0 None 0 (Some 0) (Some []) None 1) [].

(** The loop sleeps while its first delay runs. *)
Definition demo_asleep : State := default initial (run demo_delay true (replicate 21 (ALoop demo_answers)) initial).

Lemma demo_asleep_reachable : reachable demo_delay true demo_asleep.
Proof. apply (run_rtc _ _ (replicate 21 (ALoop demo_answers))). vm_compute. reflexivity. Qed.

(** Two pulses reach the threshold before the delay wakes from the first; the
    delay ends, the loop fetches and starts the next one. *)
Definition two_pulses : list Action :=
  replicate 21 (ALoop demo_answers) ++ replicate 2 (ATask 0 false) ++
  APulse 2 :: replicate 7 (APulseStep 0) ++ APulse 1 :: replicate 7 (APulseStep 0) ++
  replicate 5 (ATask 0 false) ++ replicate 15 (ALoop demo_answers).

(** An abort can outlive its delay.  The second notification of a delay that
    two pulses abort stays in the primitive as a permit: the next delay, with
    its count at zero and no pulse under way, ends as aborted on its first
    polls. *)
Theorem stale_abort_cuts_next_delay :
  ∃ s s', run demo_delay true two_pulses initial = Some s ∧ head (tasks s) = Some Spawned ∧ active s = true ∧
    counter s = 0 ∧ abort_threshold s = 2 ∧ Forall (λ p, p = PulseDone) (pulses s) ∧
    run demo_delay true (replicate 2 (ATask 0 false)) s = Some s' ∧ head (tasks s') = Some (Completing true None).
Proof. eexists _, _. split; [vm_compute; reflexivity|]. split_and!; [done..|by repeat constructor|vm_compute; reflexivity|done]. Qed.

(** ** Witnesses *)

Lemma sleeping_loop_wakes_witness :
  ∃ l s', Forall (alone false true) l ∧ run demo_delay true l demo_asleep = Some s' ∧ fetches s' = 2%nat.
Proof.
  apply (sleeping_loop_wakes demo_delay true demo_asleep (Registered 1) demo_asleep_reachable); [vm_compute; reflexivity..|left; vm_compute; reflexivity].
Defined.

Lemma pulse_reaches_fetch_witness :
  ∃ l s', Forall (alone true false) l ∧ run demo_delay true (APulse 2 :: l) demo_asleep = Some s' ∧ fetches s' = 2%nat.
Proof.
  apply (pulse_reaches_fetch demo_delay true demo_asleep (Registered 1) 2 demo_asleep_reachable);
    [vm_compute; reflexivity|vm_compute; reflexivity|vm_compute; split; discriminate|vm_compute; reflexivity|right; vm_compute; discriminate].
Defined.

Lemma poll_interval_is_skipped_witness :
  ∃ l, Forall (λ a, a = ALoop nothing_found) l ∧ run demo_plain true l initial = Some (idle_queue 3).
Proof. apply (poll_interval_is_skipped demo_plain eq_refl). Defined.

Lemma mode_change_can_be_missed_witness :
  ∃ s, run demo_plain true (losing_run demo_job) initial = Some s ∧ fetches s = 1%nat ∧ mode (queue s) = LocalQueue.Polling.
Proof.
  destruct (mode_change_can_be_missed demo_plain eq_refl demo_job) as (s & Hs & Hf & Hm & _). exists s. by split_and!.
Defined.

End FetchLoop.
