(* ===== verification/Background.v ===== *)
(** * Background tasks (src/background_tasks.rs, src/recovery_tasks.rs)

    The owners of spawned tasks, and the two tasks of recovery: the heartbeat
    that keeps a worker registered and the sweeper that looks for the dead ones.
    Composed with the interval timer ([Runtime]) and the sweep ([Recovery]), they
    show that a worker that keeps its heartbeat is never taken for dead.

    Times are nanoseconds; the server stamps rows with their microseconds. *)

From S2P Require Import Prelude Job JobStore JobRelease Hooks Recovery Runtime.
Open Scope Z_scope.

Module Background.
Import Job JobStore JobRelease Hooks Recovery Runtime.

(** ** background_tasks.rs *)

(** A spawned task, and what its owner has done with it. *)
Abbreviation TaskId := nat.
Record Fates := mkFates { aborted : gset nat; awaited : gset nat }.
Definition no_fates : Fates := mkFates ∅ ∅.
Definition abort_one (t : TaskId) (w : Fates) : Fates := mkFates ({[t]} ∪ aborted w) (awaited w).
Definition await_one (t : TaskId) (w : Fates) : Fates := mkFates (aborted w) ({[t]} ∪ awaited w).

(** [BackgroundTasks]: its handles. *)
Definition tasks_push (handles : list TaskId) (h : TaskId) : list TaskId := handles ++ [h].
Definition tasks_abort (handles : list TaskId) (w : Fates) : Fates := foldr abort_one w handles.
(** [stop]: all are aborted before the first is awaited; a failure is logged. *)
Definition tasks_stop (handles : list TaskId) (w : Fates) : Fates := foldr await_one (tasks_abort handles w) handles.

(** [TaskSlot]. *)
Definition TaskSlot : Type := option TaskId.
Definition replace_abort (h : TaskId) (slot : TaskSlot) (w : Fates) : TaskSlot * Fates :=
  (Some h, match slot with Some existing => abort_one existing w | None => w end).
Definition slot_abort (slot : TaskSlot) (w : Fates) : TaskSlot * Fates :=
  (None, match slot with Some h => abort_one h w | None => w end).
Definition slot_stop (slot : TaskSlot) (w : Fates) : TaskSlot * Fates :=
  (None, match slot with Some h => await_one h w | None => w end).
Definition slot_drop (slot : TaskSlot) (w : Fates) : Fates :=
  match slot with Some h => abort_one h w | None => w end.

Inductive SlotOp := OpReplace (h : TaskId) | OpAbort | OpStop.
Definition slot_op (o : SlotOp) (s : TaskSlot * Fates) : TaskSlot * Fates :=
  match o with
  | OpReplace h => replace_abort h s.1 s.2
  | OpAbort => slot_abort s.1 s.2
  | OpStop => slot_stop s.1 s.2
  end.
Definition placed (ops : list SlotOp) : list TaskId :=
  filter_map (λ o, match o with OpReplace h => Some h | _ => None end) ops.

(** Whatever is done with a slot, no task put into it is left running on its
    own: each is in the slot, aborted or awaited, and after the slot is dropped
    none is in it.  A task is aborted only when it is replaced, by [abort] or by
    the drop. *)
Theorem slot_leaks_no_task (ops : list SlotOp) (first : TaskSlot) :
  let '(slot, w) := foldl (λ s o, slot_op o s) (first, no_fates) ops in
  (∀ t, t ∈ option_list first ++ placed ops → slot = Some t ∨ t ∈ aborted w ∪ awaited w) ∧
  (∀ t, t ∈ option_list first ++ placed ops → t ∈ aborted (slot_drop slot w) ∪ awaited (slot_drop slot w)).
Proof.
  assert (∀ s w0, let '(slot, w) := foldl (λ s o, slot_op o s) (s, w0) ops in
    aborted w0 ⊆ aborted w ∧ awaited w0 ⊆ awaited w ∧
    ∀ t, t ∈ option_list s ++ placed ops → slot = Some t ∨ t ∈ aborted w ∪ awaited w) as H.
  { induction ops as [|o ops IH]; intros s w0; cbn [foldl].
    - split_and!; [done..|]. intros t. destruct s; cbn; set_solver.
    - destruct (slot_op o (s, w0)) as [s1 w1] eqn:E. specialize (IH s1 w1).
      destruct (foldl _ (s1, w1) ops) as [slot w]. destruct IH as (Ha & Hw & Ht).
      destruct o, s; cbn in E; injection E as <- <-; cbn in *; split_and!; set_solver. }
  specialize (H first no_fates). destruct (foldl _ _ ops) as [slot w]. destruct H as (_ & _ & H). split; [done|].
  intros t Ht. destruct (H t Ht) as [->|Hin]; cbn; [set_solver|]. destruct slot; cbn; set_solver.
Qed.

(** Stopping a group aborts every task of it and waits for every one. *)
Lemma tasks_stop_all handles w t : t ∈ handles → t ∈ aborted (tasks_stop handles w) ∧ t ∈ awaited (tasks_stop handles w).
Proof.
  assert (∀ l w', aborted (foldr await_one w' l) = aborted w' ∧ (t ∈ l → t ∈ awaited (foldr await_one w' l))) as H1.
  { induction l as [|x l IH]; intros w'; cbn; [set_solver|]. destruct (IH w'). split; [done|]. set_solver. }
  assert (t ∈ handles → t ∈ aborted (tasks_abort handles w)) as H2.
  { unfold tasks_abort. induction handles as [|x l IH]; cbn; set_solver. }
  unfold tasks_stop. destruct (H1 handles (tasks_abort handles w)) as [-> H3]. auto.
Qed.

(** ** recovery_tasks.rs *)

(** The stamp the server gives at a time. *)
Definition stamp (t : Z) : Z := t / 1000.

Definition worker_recovery_metadata (pid : Z) : option Value := Some (Object [(lit "pid", VNumber (dec pid))]).

(** [None]: the statement fails. *)
Definition register_worker (config : WorkerRecoveryConfig) (w : str) (metadata : option Value) (at_ : option Z) (db : Db) :
    Db * bool :=
  if enabled config then
    match at_ with Some t => (worker_heartbeat w metadata (stamp t) db, true) | None => (db, false) end
  else (db, true).

(** One turn of [run_heartbeat_loop]: a tick, then the statement, applied at a
    time or failed. *)
Record Beat := mkBeat { b_tick : Tick; b_applied : option Z }.

(** The loop over its turns: the interval and the times of its heartbeats. *)
Fixpoint run_heartbeat_loop (self : Interval) (beats : list Beat) : Interval * list Z :=
  match beats with
  | [] => (self, [])
  | b :: beats =>
      let '(i, hs) := run_heartbeat_loop (tick self (b_tick b)) beats in
      (i, match b_applied b with Some h => h :: hs | None => hs end)
  end.

(** One turn of [run_sweeper_loop]: shutdown is asked first. *)
Inductive SweeperTurn := ShutdownSeen | Swept (t : Tick) (failed : bool).
(** The interval, the number of sweeps, and whether the loop has ended. *)
Fixpoint run_sweeper_loop (self : Interval) (turns : list SweeperTurn) : Interval * nat * bool :=
  match turns with
  | [] => (self, O, false)
  | ShutdownSeen :: _ => (self, O, true)
  | Swept t _ :: turns =>
      let '(i, n, e) := run_sweeper_loop (tick self t) turns in (i, S n, e)
  end.

(** The sweep of a turn. *)
Definition sweep_once (exp_secs : Z → Z) (acquired : bool) (hook : option (Job → JobRecoveryResult))
    (config : WorkerRecoveryConfig) (now clock : Z) (db : Db) : Db * SweepStaleWorkersResult :=
  sweep_stale_workers exp_secs acquired hook config (mkSweepOptions None None false) now clock db.

(** [spawn_recovery_tasks]: the tasks of the group. *)
Definition spawn_recovery_tasks (config : WorkerRecoveryConfig) (heartbeat sweeper : TaskId) : list TaskId :=
  if enabled config then tasks_push (tasks_push [] heartbeat) sweeper else [].

(** The sweeper sweeps once per tick, failures notwithstanding, until it sees the
    shutdown, after which it sweeps no more. *)
Lemma sweeper_until_shutdown self swept rest : Forall (λ t, t ≠ ShutdownSeen) swept →
  (run_sweeper_loop self (swept ++ ShutdownSeen :: rest)).1.2 = length swept ∧
  (run_sweeper_loop self (swept ++ ShutdownSeen :: rest)).2 = true ∧
  (run_sweeper_loop self swept).2 = false.
Proof.
  intros H. revert self. induction H as [|t swept Ht _ IH]; intros self; [done|].
  destruct t as [|t f]; [done|]. cbn. destruct (IH (tick self t)) as (H1 & H2 & H3).
  destruct (run_sweeper_loop (tick self t) (swept ++ _)) as [[i n] e], (run_sweeper_loop (tick self t) swept) as [[i' n'] e'].
  cbn in *. by split_and!; [f_equal|..].
Qed.

(** ** A history of the tables *)

(** What happens at a time: a heartbeat of the worker, a sweep by any worker, or
    anything else. *)
Inductive Action :=
| ABeat (metadata : option Value)
| ASweep (acquired : bool) (hook : option (Job → JobRecoveryResult)) (options : SweepStaleWorkersOptions) (clock : Z)
| AOther (f : Db → Db).
Definition History : Type := list (Z * Action).

Section history.
Context (exp_secs : Z → Z) (defaults : WorkerRecoveryConfig) (w : str).

Definition act (t : Z) (a : Action) (db : Db) : Db * list str :=
  match a with
  | ABeat metadata => (worker_heartbeat w metadata (stamp t) db, [])
  | ASweep acquired hook options clock =>
      let '(db', r) := sweep_stale_workers exp_secs acquired hook defaults options (stamp t) clock db in
      (db', Recovery.worker_ids r)
  | AOther f => (f db, [])
  end.

(** The tables and everyone the sweeps found dead. *)
Fixpoint play (h : History) (db : Db) : Db * list str :=
  match h with
  | [] => (db, [])
  | (t, a) :: h =>
      let '(db, dead) := act t a db in
      let '(db, more) := play h db in (db, dead ++ more)
  end.

(** The others leave the worker's registration alone: heartbeats of other
    workers, claims and releases, and deregistrations other than its own. *)
Definition respectful (h : History) : Prop :=
  ∀ t f, (t, AOther f) ∈ h → ∀ db, workers (f db) !! w = workers db !! w.

(** Every sweep comes at most [gap] after the last heartbeat before it. *)
Fixpoint dense (gap last : Z) (h : History) : Prop :=
  match h with
  | [] => True
  | (t, ABeat _) :: h => dense gap t h
  | (t, ASweep _ _ _ _) :: h => t - last ≤ gap ∧ dense gap last h
  | (_, AOther _) :: h => dense gap last h
  end.

(** The thresholds of the sweeps are at least [gap]. *)
Definition patient (gap : Z) (h : History) : Prop :=
  ∀ t acquired hook options clock, (t, ASweep acquired hook options clock) ∈ h →
    gap ≤ duration_as_millis_i64 (sweep_threshold (resolve options defaults)) * 10 ^ 6.

Lemma not_stale last t gap ms : t - last ≤ gap → gap ≤ ms * 10 ^ 6 → stamp t - millis ms ≤ stamp last.
Proof.
  intros H1 H2. unfold stamp, millis. assert (t ≤ last + ms * 1000 * 1000) as H by lia.
  apply (Z.div_le_mono _ _ 1000) in H; [|lia]. rewrite Z.div_add in H by lia. lia.
Qed.

Lemma recovery_keeps_workers hook ws delay now db :
  workers (recover_jobs_from_workers exp_secs hook ws delay now db).1.1 = workers db.
Proof.
  unfold recover_jobs_from_workers. destruct (is_empty ws) eqn:He; [done|]. destruct hook as [h|].
  - set (l := get_locked_jobs_for_recovery ws db). clearbody l.
    assert (∀ acc, workers (foldl (recover_one exp_secs h delay now) acc l).1.1 = workers acc.1.1) as H; [|by rewrite H].
    induction l as [|job l IH]; intros [[d n] em]; cbn [foldl]; [done|]. rewrite IH. unfold recover_one.
    destruct (locked_by job) as [x|]; [|done].
    assert (workers (apply_job_recovery exp_secs (h job) job x WorkerCrashed delay now d).1 = workers d) as Hd.
    { destruct (h job); cbn; [done..| |done]. unfold fail_job, fail_one. by destruct (has_queue job). }
    destruct (apply_job_recovery _ _ _ _ _ _ _ _) as [d' o]. by destruct (was_handled o).
  - unfold recover_dead_worker_jobs. by rewrite He.
Qed.

(** A sweep spares a worker whose check-in is recent enough. *)
Lemma sweep_spares acquired hook options now clock db r :
  workers db !! w = Some r →
  now - millis (duration_as_millis_i64 (sweep_threshold (resolve options defaults))) ≤ last_heartbeat_at r →
  let '(db', res) := sweep_stale_workers exp_secs acquired hook defaults options now clock db in
  workers db' !! w = Some r ∧ w ∉ Recovery.worker_ids res.
Proof.
  intros Hr Hl. unfold sweep_stale_workers. destruct acquired; cbn [negb]; [|split; [done|apply not_elem_of_nil]].
  set (c := resolve options defaults) in *. set (dead := find_dead_worker_ids c now clock db).
  assert (w ∉ dead) as Hd.
  { unfold dead. rewrite find_dead_spec. unfold dead_worker. intros [(r' & Hr' & Hs & _)|[Hn _]]; [|congruence].
    rewrite Hr in Hr'. injection Hr' as <-. lia. }
  destruct (dry_run c); [done|].
  pose proof (recovery_keeps_workers hook dead (recovery_delay c) now db) as Hw.
  destruct (recover_jobs_from_workers _ _ _ _ _ _) as [[db1 n] em]. cbn [fst] in Hw. split; [|done].
  unfold delete_stale_workers. destruct (is_empty dead); [congruence|]. cbn.
  apply map_lookup_filter_Some. by rewrite Hw.
Qed.

Lemma dense_history_spares gap h db last r : respectful h → patient gap h → dense gap last h →
  workers db !! w = Some r → last_heartbeat_at r = stamp last →
  let '(db', dead) := play h db in w ∉ dead ∧ is_Some (workers db' !! w).
Proof.
  revert db last r. induction h as [|[t a] h IH]; intros db last r Hr Hp Hd Hw Hl; cbn [play].
  { split; [apply not_elem_of_nil|eauto]. }
  assert (respectful h) as Hr' by (intros t' f Hin; apply (Hr t'); by right).
  assert (patient gap h) as Hp' by (intros t' ac hk o c Hin; apply (Hp t' ac hk o c); by right).
  destruct a as [m|acquired hook options clock|f]; cbn [act].
  - cbn in Hd. set (db1 := worker_heartbeat w m (stamp t) db).
    assert (∃ r1, workers db1 !! w = Some r1 ∧ last_heartbeat_at r1 = stamp t) as (r1 & H1 & H2).
    { eexists. unfold db1, worker_heartbeat. cbn. rewrite lookup_insert_eq. split; [done|]. by rewrite Hw. }
    specialize (IH db1 t r1 Hr' Hp' Hd H1 H2). by destruct (play h db1).
  - destruct Hd as [Hgap Hd].
    pose proof (sweep_spares acquired hook options (stamp t) clock db r Hw) as Hs.
    destruct (sweep_stale_workers _ _ _ _ _ _ _ _) as [db1 res]. destruct Hs as [H1 H2].
    { rewrite Hl. eapply not_stale; [exact Hgap|]. apply (Hp t acquired hook options clock). by left. }
    specialize (IH db1 last r Hr' Hp' Hd H1 Hl). destruct (play h db1) as [db2 more]. destruct IH as [H3 H4].
    split; [|done]. rewrite elem_of_app. tauto.
  - cbn in Hd. rewrite <- (Hr t f ltac:(by left) db) in Hw. specialize (IH (f db) last r Hr' Hp' Hd Hw Hl).
    by destruct (play h (f db)).
Qed.
End history.

(** ** The heartbeat loop is dense *)

(** The turns of the loop on a machine that is late by at most [late] and whose
    heartbeats, when they do not fail, are applied within [latency]. *)
Fixpoint timely (late latency : Z) (self : Interval) (beats : list Beat) : Prop :=
  match beats with
  | [] => True
  | b :: beats =>
      valid_tick self (b_tick b) ∧ Runtime.last (b_tick b) ≤ next self + late ∧
      (∀ h, b_applied b = Some h → Runtime.last (b_tick b) ≤ h ≤ Runtime.last (b_tick b) + latency) ∧
      timely late latency (tick self (b_tick b)) beats
  end.

(** At most [failures] heartbeats fail in a row. *)
Definition tolerable (failures : nat) (beats : list Beat) : Prop :=
  ∀ k, (k + failures < length beats)%nat →
    ∃ i b h, (k ≤ i ≤ k + failures)%nat ∧ beats !! i = Some b ∧ b_applied b = Some h.

Lemma timely_schedule late latency self beats k b h : 0 < duration self → late ≤ duration self →
  timely late latency self beats → beats !! k = Some b → b_applied b = Some h →
  next self + Z.of_nat k * duration self ≤ h ≤ next self + Z.of_nat k * duration self + late + latency.
Proof.
  intros Hd Hlate. revert self k Hd Hlate. induction beats as [|b0 beats IH]; intros self k Hd Hlate; [done|].
  intros (Hv & Hl & Ha & Ht) Hk Hb. pose proof (tick_facts self (b_tick b0) Hd Hv) as (Hdd & Hn & _ & _ & Hs).
  destruct k as [|k]; cbn in Hk.
  - injection Hk as ->. specialize (Ha h Hb). lia.
  - specialize (IH (tick self (b_tick b0)) k). rewrite Hdd in IH. rewrite Hs in IH by lia.
    specialize (IH Hd Hlate Ht Hk Hb). lia.
Qed.

Lemma applied_in_loop self beats k b h : beats !! k = Some b → b_applied b = Some h →
  h ∈ (run_heartbeat_loop self beats).2.
Proof.
  revert self k. induction beats as [|b0 beats IH]; intros self [|k] Hk Hb; [done..| |]; cbn in Hk |- *.
  - injection Hk as ->. destruct (run_heartbeat_loop _ _) as [i hs]. rewrite Hb. cbn. left.
  - specialize (IH (tick self (b_tick b0)) k Hk Hb). destruct (run_heartbeat_loop _ _) as [i hs].
    destruct (b_applied b0); cbn in *; [by right|done].
Qed.

(** The heartbeats of the worker in a history. *)
Definition beat_times (h : History) : list Z :=
  filter_map (λ e, match e.2 with ABeat _ => Some e.1 | _ => None end) h.
Definition sweep_times (h : History) : list Z :=
  filter_map (λ e, match e.2 with ASweep _ _ _ _ => Some e.1 | _ => None end) h.

(** In a history in the order of time, sweeps that each have a heartbeat before
    them within [gap] are dense. *)
Lemma dense_of_times gap last h : StronglySorted (λ a b : Z * Action, a.1 ≤ b.1) ((last, ABeat None) :: h) →
  (∀ t, t ∈ sweep_times h → t - last ≤ gap ∨ ∃ b, b ∈ beat_times h ∧ b < t ∧ t - b ≤ gap) → dense gap last h.
Proof.
  revert last. induction h as [|[t a] h IH]; intros last Hs Ht; [done|].
  apply StronglySorted_inv in Hs as [Hs Hlast]. rewrite Forall_forall in Hlast.
  assert (∀ x, x ∈ h → t ≤ x.1) as Hall.
  { apply StronglySorted_inv in Hs as [_ Hf]. rewrite Forall_forall in Hf. exact Hf. }
  assert (last ≤ t) as Hlt by (apply (Hlast (t, a)); left).
  assert (StronglySorted (λ a b : Z * Action, a.1 ≤ b.1) ((last, ABeat None) :: h)) as Hs'.
  { apply StronglySorted_inv in Hs as [Hs _]. constructor; [done|]. apply Forall_forall. intros x Hx.
    apply Hlast. by right. }
  assert (∀ (f : Action → bool) x, x ∈ filter_map (λ e : Z * Action, if f e.2 then Some e.1 else None) h → t ≤ x) as Hge.
  { intros f x. rewrite elem_of_filter_map. intros (e & He & E). destruct (f e.2); [|done]. injection E as <-. by apply Hall. }
  destruct a as [m|acquired hook options clock|f]; cbn in *.
  - apply IH; [by constructor; [apply StronglySorted_inv in Hs as [? _]|apply Forall_forall]|].
    intros t' Ht'. destruct (Ht t' Ht') as [Hg|(b & Hb & Hbt & Hg)]; [left; lia|].
    apply elem_of_cons in Hb as [->|Hb]; [by left|]. right. eauto.
  - split.
    + destruct (Ht t) as [Hg|(b & Hb & Hbt & Hg)]; [left|done|].
      assert (t ≤ b); [|lia]. apply (Hge (λ a, match a with ABeat _ => true | _ => false end)).
      unfold beat_times in Hb. apply elem_of_filter_map in Hb as ([t1 a1] & Hin & E).
      apply elem_of_filter_map. exists (t1, a1). split; [done|]. by destruct a1.
    + apply IH; [done|]. intros t' Ht'. apply Ht. by right.
  - apply IH; [done|]. intros t' Ht'. by apply Ht.
Qed.

(** A heartbeat of the loop shortly before any time while it runs, or the
    registration. *)
Lemma loop_gap failures late latency self beats registered t :
  0 < duration self → 0 ≤ late ≤ duration self → 0 ≤ latency →
  next self - registered ≤ duration self →
  timely late latency self beats → tolerable failures beats →
  t ≤ next self + Z.of_nat (length beats) * duration self →
  t - registered ≤ (Z.of_nat failures + 1) * duration self + late + latency ∨
  ∃ b, b ∈ (run_heartbeat_loop self beats).2 ∧ b < t ∧ t - b ≤ (Z.of_nat failures + 1) * duration self + late + latency.
Proof.
  intros Hd Hlate Hlat Hreg Ht Htol Hend. set (H := duration self) in *.
  set (x := t - 1 - next self - late - latency). destruct (decide (x < Z.of_nat failures * H)) as [Hx|Hx]; [left; lia|].
  right. set (k := x / H). pose proof (Z.div_mod x H) as Hdm. pose proof (Z.mod_pos_bound x H Hd) as Hm.
  assert (Z.of_nat failures ≤ k) as Hk by (apply Z.div_le_lower_bound; lia).
  assert (k < Z.of_nat (length beats)) as Hkl by (apply Z.div_lt_upper_bound; lia).
  destruct (Htol (Z.to_nat k - failures)%nat) as (i & b & h & Hi & Hb & Hh); [lia|].
  exists h. split; [by eapply applied_in_loop|].
  pose proof (timely_schedule late latency self beats i b h Hd (proj2 Hlate) Ht Hb Hh) as Hs. fold H in Hs.
  assert ((k - Z.of_nat failures) * H ≤ Z.of_nat i * H ≤ k * H) as Hik by (split; apply Z.mul_le_mono_nonneg_r; lia).
  fold k in Hdm. split; lia.
Qed.

(** C17: a worker that keeps its heartbeat is never taken for dead.  It registers
    and runs the heartbeat loop on its interval; the ticks may be late, the
    statements take time and a number of them may fail in a row.  If the
    threshold of the sweeps is no less than the intervals these failures span,
    plus the lateness and the latency, then whatever anyone else does to the
    tables meanwhile, no sweep of any worker, whichever clock it reads, reports
    it dead, and its registration is still there. *)
Theorem live_worker_never_swept exp_secs config w metadata failures late latency self beats registered start h db :
  enabled config = true → interval (heartbeat_interval config) start = Some self →
  0 ≤ late ≤ heartbeat_interval config → 0 ≤ latency →
  start - registered ≤ heartbeat_interval config →
  timely late latency self beats → tolerable failures beats →
  StronglySorted (λ a b : Z * Action, a.1 ≤ b.1) ((registered, ABeat None) :: h) →
  (∀ b t, b ∈ (run_heartbeat_loop self beats).2 → t ∈ sweep_times h → b < t → b ∈ beat_times h) →
  (∀ t, t ∈ sweep_times h → t ≤ start + Z.of_nat (length beats) * heartbeat_interval config) →
  respectful w h →
  patient config ((Z.of_nat failures + 1) * heartbeat_interval config + late + latency) h →
  let '(db', dead) := play exp_secs config w h (register_worker config w metadata (Some registered) db).1 in
  w ∉ dead ∧ is_Some (workers db' !! w).
Proof.
  intros He Hi Hlate Hlat Hstart Ht Htol Hsort Hin Hend Hresp Hpat.
  unfold interval in Hi. destruct (Z.ltb_spec 0 (heartbeat_interval config)) as [Hd|]; [|done]. injection Hi as <-.
  unfold register_worker. rewrite He. cbn [fst].
  set (gap := (Z.of_nat failures + 1) * heartbeat_interval config + late + latency) in *.
  assert (∃ r, workers (worker_heartbeat w metadata (stamp registered) db) !! w = Some r ∧
    last_heartbeat_at r = stamp registered) as (r & Hr & Hl).
  { eexists. unfold worker_heartbeat. cbn. rewrite lookup_insert_eq. split; [done|]. by destruct (workers db !! w). }
  apply (dense_history_spares exp_secs config w gap h _ registered r Hresp Hpat); [|done..].
  apply dense_of_times; [done|]. intros t Hst.
  destruct (loop_gap failures late latency (mkInterval (heartbeat_interval config) start) beats registered t)
    as [Hg|(b & Hb & Hbt & Hg)]; try done; [by apply Hend|by left|].
  right. exists b. split_and!; [by apply (Hin b t)|done..].
Qed.

(** ** Witnesses *)

Definition demo_config : WorkerRecoveryConfig :=
  mkRecoveryConfig (seconds 30) (seconds 60) (seconds (5 * 60)) (seconds 30) 3 [INFRASTRUCTURE_RESILIENT_FLAG] true.
(** The second of four heartbeats fails. *)
Definition demo_beats : list Beat :=
  [mkBeat (mkTick 0 0 0) (Some 5); mkBeat (mkTick 6 (seconds 30) (seconds 30)) None;
   mkBeat (mkTick (seconds 31) (seconds 60) (seconds 61)) (Some (seconds 62));
   mkBeat (mkTick (seconds 62) (seconds 90) (seconds 90)) (Some (seconds 91))].
Definition demo_history : History :=
  [(5, ABeat None); (seconds 59, ASweep true None (mkSweepOptions None None false) 0);
   (seconds 60, AOther (λ db, worker_deregister (lit "other") db));
   (seconds 62, ABeat None); (seconds 85, ASweep true None (mkSweepOptions (Some (seconds 62)) None false) 0)].

Lemma live_worker_never_swept_witness :
  let '(db', dead) := play (λ x, x) demo_config (lit "me") demo_history
    (register_worker demo_config (lit "me") None (Some 0) empty_db).1 in
  lit "me" ∉ dead ∧ is_Some (workers db' !! lit "me").
Proof.
  apply (live_worker_never_swept (λ x, x) demo_config (lit "me") None 1 (seconds 1) (seconds 1)
    (mkInterval (seconds 30) 0) demo_beats 0 0 demo_history empty_db).
  - reflexivity.
  - reflexivity.
  - vm_compute. split; discriminate.
  - vm_compute. discriminate.
  - vm_compute. discriminate.
  - unfold demo_beats. cbn [timely b_tick b_applied].
    repeat match goal with |- _ ∧ _ => split end;
      match goal with
      | |- True => exact I
      | |- ∀ h, None = _ → _ => intros h; discriminate
      | |- ∀ h, Some _ = _ → _ => intros h [= <-]; vm_compute; split; discriminate
      | _ => vm_compute; first [discriminate | split; discriminate]
      end.
  - intros [|[|[|k]]] Hk; cbn in Hk; [| | |lia]; [exists 0%nat|exists 2%nat|exists 2%nat];
      eexists _, _; (split; [lia|]); split; reflexivity.
  - repeat constructor; vm_compute; discriminate.
  - intros b t Hb Ht Hlt. vm_compute in Hb, Ht |- *. repeat (apply elem_of_cons in Hb as [->|Hb]; [|]);
      [set_solver..| |by apply elem_of_nil in Hb].
    repeat (apply elem_of_cons in Ht as [->|Ht]; [exfalso; vm_compute in Hlt; discriminate|]). by apply elem_of_nil in Ht.
  - intros t Ht. vm_compute in Ht. repeat (apply elem_of_cons in Ht as [->|Ht]; [vm_compute; discriminate|]).
    by apply elem_of_nil in Ht.
  - intros t f Hin db. unfold demo_history in Hin.
    repeat (apply elem_of_cons in Hin as [E|Hin]; [|]); try discriminate E; [|by apply elem_of_nil in Hin].
    injection E as _ ->. cbn. apply lookup_delete_ne. discriminate.
  - intros t a hk o c Hin. unfold demo_history in Hin.
    repeat (apply elem_of_cons in Hin as [E|Hin]; [|]); try discriminate E; [| |by apply elem_of_nil in Hin];
      injection E as -> -> -> -> ->; vm_compute; discriminate.
Defined.

End Background.
