(* ===== verification/WorkerUtils.v ===== *)
(** * The client of the schema (crates/graphile-worker-utils)

    [WorkerUtils] schedules jobs through the hooks and maintains the tables.
    Its cache of task details is shared with the worker, so a cleanup runs
    against other sessions of the database and against registrations of tasks:
    between two of its statements anything may happen to both, and any
    statement may fail. *)

From S2P Require Import Prelude Job Database FlagFilter JobStore JobRelease Hooks AddJob JobInvariant.
Open Scope Z_scope.

Module WorkerUtils.
Import Job FlagFilter JobStore JobRelease Hooks AddJob JobInvariant.

Inductive UtilsError :=
| WorkerError (e : GraphileWorkerError)
| TaskDetailsRefreshConflict (attempts : nat).

(** ** add/mod.rs, add/bulk.rs *)

Section add.
Context (trace : option Value) (local_now : Z) (now : Z).
Context (hooks : option (option (list ScheduleHook))) (use_local_time : bool).

(** [None] when a hook's answer has the wrong type. *)
Definition add_raw_job (identifier : str) (payload : Value) (spec : JobSpec) (db : Db) :
    option (Db * result Job GraphileWorkerError) :=
  r ← invoke_before_job_schedule hooks identifier payload spec;
  Some (match r with
        | Err e => (db, Err e)
        | Ok payload =>
            match add_job trace local_now identifier payload spec use_local_time now db with
            | Ok (db', job) => (db', Ok job)
            | Err e => (db, Err e)
            end
        end).

Definition add_batch_job (identifier : str) (payloads : list Value) (spec : JobSpec) (db : Db) :
    option (Db * result Job GraphileWorkerError) :=
  r ← batch_payload hooks identifier payloads spec;
  Some (match r with
        | Err e => (db, Err e)
        | Ok payload =>
            match add_job trace local_now identifier payload spec use_local_time now db with
            | Ok (db', job) => (db', Ok job)
            | Err e => (db, Err e)
            end
        end).

(** One statement: its tables are kept only when it succeeds. *)
Definition inserted (js : list JobToAdd) (td : TaskDetails) (preserve : bool) (db : Db) :
    Db * result (list Job) GraphileWorkerError :=
  match add_jobs trace local_now js td preserve use_local_time now db with
  | Ok (db', rows) => (db', Ok rows)
  | Err e => (db, Err e)
  end.

(** The typed batch: the identifiers come from the cache. *)
Definition add_jobs_of (identifier : str) (js : list (Value * JobSpec)) (cache : TaskDetails) (db : Db) :
    option (Db * result (list Job) GraphileWorkerError) :=
  if is_empty js then Some (db, Ok [])
  else
    r ← prepare_batch_jobs hooks ((λ j, (identifier, j.1, j.2)) <$> js);
    Some (match r with
          | Err e => (db, Err e)
          | Ok (js, preserve) => inserted js cache preserve db
          end).

(** The raw batch: its identifiers are registered first, and stay registered
    when the insertion fails. *)
Definition add_raw_jobs (js : list (str * Value * JobSpec)) (db : Db) :
    option (Db * result (list Job) GraphileWorkerError) :=
  if is_empty js then Some (db, Ok [])
  else
    r ← prepare_batch_jobs hooks js;
    Some (match r with
          | Err e => (db, Err e)
          | Ok (js', preserve) =>
              match get_tasks_details (unique_identifiers ((λ j, j.1.1) <$> js)) db with
              | Err e => (db, Err (SqlFailed e))
              | Ok (db, td) => inserted js' td preserve db
              end
          end).
End add.

(** ** add/analyze.rs *)

Definition BULK_INSERT_ANALYZE_THRESHOLD : Z := 10000.

(** Whether a batch is followed by [analyze], which changes no row. *)
Definition analyze_jobs_after_large_batch (job_count : Z) : bool := BULK_INSERT_ANALYZE_THRESHOLD <=? job_count.

(** ** maintenance.rs *)

(** The tables and the cache of task details that other sessions and the
    worker share with a cleanup. *)
Record World := mkWorld { tables : Db; cache : TaskDetails }.
Definition on_db (f : Db → Db) (w : World) : World := mkWorld (f (tables w)) (cache w).

Section cleanup.
(** What happens to the world while the cleanup waits for its k-th answer,
    and whether that statement fails. *)
Context (others : nat → World → World) (fails : nat → option SqlError).

(** The two statements of [get_tasks_details]. *)
Definition register_names (names : list str) (d : Db) : result Db SqlError :=
  insert_names insert_task_name (remove_dups names) d.
Definition select_details (names : list str) (d : Db) : TaskDetails :=
  task_rows_to_details (filter (λ r, r.2 ∈ names) (map_to_list (tasks d))).

Definition registered (k : nat) (names : list str) (w : World) : World * result unit SqlError :=
  match fails k with
  | Some e => (w, Err e)
  | None => match register_names names (tables w) with
            | Ok d => (mkWorld d (cache w), Ok ())
            | Err e => (w, Err e)
            end
  end.

(** Answers of one attempt: the insertion, the selection, the write lock. *)
Definition answers_per_attempt : nat := 3.

(** The write lock: the refreshed details are stored unless the cache changed
    since the snapshot. *)
Definition publish (retry : World → World * result unit UtilsError) (k : nat) (snapshot refreshed : TaskDetails)
    (w : World) : World * result unit UtilsError :=
  let w := others k w in
  if bool_decide (cache w = snapshot) then (mkWorld (tables w) refreshed, Ok ()) else retry w.

Fixpoint refresh_attempts (n k : nat) (w : World) : World * result unit UtilsError :=
  match n with
  | O => (w, Err (TaskDetailsRefreshConflict 3))
  | S n =>
      let snapshot := cache w in
      let publish := publish (refresh_attempts n (k + answers_per_attempt)) (k + 2) snapshot in
      if is_empty (task_names snapshot) then publish ∅ w
      else
        let '(w, r) := registered k (task_names snapshot) (others k w) in
        match r with
        | Err e => (w, Err (WorkerError (SqlFailed e)))
        | Ok _ =>
            let w := others (k + 1) w in
            match fails (k + 1) with
            | Some e => (w, Err (WorkerError (SqlFailed e)))
            | None => publish (select_details (task_names snapshot) (tables w)) w
            end
        end
  end.

Definition MAX_ATTEMPTS : nat := 3.
Definition refresh_task_details (k : nat) (w : World) : World * result unit UtilsError :=
  refresh_attempts MAX_ATTEMPTS k w.

(** The table lock and the statement are one transaction. *)
Definition execute_cleanup_task (k : nat) (t : CleanupTask) (names : list str) (w : World) :
    World * result unit UtilsError :=
  let w := others k w in
  match fails k with
  | Some e => (w, Err (WorkerError (SqlFailed e)))
  | None => (on_db (cleanup_execute t names) w, Ok ())
  end.

(** Answers of one task of a cleanup: its statement and the refresh. *)
Definition answers_per_task : nat := 1 + MAX_ATTEMPTS * answers_per_attempt.

Fixpoint cleanup (ts : list CleanupTask) (keep : list str) (k : nat) (w : World) :
    World * result unit UtilsError :=
  match ts with
  | [] => (w, Ok ())
  | t :: rest =>
      let '(w, r) :=
        match t with
        | GcTaskIdentifiers =>
            let '(w, r) := execute_cleanup_task k t (remove_dups (task_names (cache w) ++ keep)) w in
            match r with
            | Err e => (w, Err e)
            | Ok _ => refresh_task_details (k + 1) w
            end
        | _ => execute_cleanup_task k t [] w
        end in
      match r with
      | Err e => (w, Err e)
      | Ok _ => cleanup rest keep (k + answers_per_task) w
      end
  end.
End cleanup.

(** ** Registered names and the details of the cache *)

(** Ids of tasks come from their sequence. *)
Definition tasks_fresh (d : Db) : Prop := ∀ i x, tasks d !! i = Some x → i < tasks_seq d.

Lemma insert_task_grows d n d' : tasks_fresh d → insert_task_name d n = Ok d' →
  tasks_fresh d' ∧ tasks d ⊆ tasks d'.
Proof.
  intros Hf. unfold insert_task_name. destruct (name_id _ n); [by intros [= <-]|].
  case_match; [done|]. intros [= <-]. cbn. split.
  - intros i x. cbn. rewrite lookup_insert_Some. intros [[<- _]|[_ Hi%Hf]]; lia.
  - apply insert_subseteq. destruct (tasks d !! tasks_seq d) eqn:E; [|done].
    apply Hf in E. lia.
Qed.

Lemma register_names_grows ns d d' : tasks_fresh d → insert_names insert_task_name ns d = Ok d' →
  tasks_fresh d' ∧ tasks d ⊆ tasks d' ∧ (∀ n, n ∈ ns → ∃ i, tasks d' !! i = Some n).
Proof.
  revert d. induction ns as [|n ns IH]; intros d Hf; cbn; [intros [= <-]; set_solver|].
  destruct (insert_task_name d n) as [d1|] eqn:E; [|done].
  apply insert_task_same in E as E'. destruct E' as (_ & _ & [i Hi%name_id_Some] & _).
  destruct (insert_task_grows _ _ _ Hf E) as [Hf1 Hs1].
  intros (Hf' & Hs & Hn)%IH; [|done]. split_and!; [done|by etrans|].
  intros m [->|Hm]%elem_of_cons; [|by apply Hn]. exists i. by eapply lookup_weaken.
Qed.

(** Nothing is inserted for names that are there. *)
Lemma register_known ns d : (∀ n, n ∈ ns → ∃ i, tasks d !! i = Some n) →
  insert_names insert_task_name ns d = Ok d.
Proof.
  induction ns as [|n ns IH]; intros Hn; [done|]. cbn. unfold insert_task_name at 1.
  destruct (Hn n) as [i [k ->]%name_id_is_Some]; [set_solver|]. cbn. apply IH. set_solver.
Qed.

Lemma task_rows_lookup rows acc i n : NoDup rows.*1 →
  foldl (λ d r, insert_task d r.1 r.2) acc rows !! i = Some n ↔
    (i, n) ∈ rows ∨ (i ∉ rows.*1 ∧ acc !! i = Some n).
Proof.
  revert acc. induction rows as [|[k x] rows IH]; intros acc; cbn; [set_solver|].
  intros [Hk Hnd]%NoDup_cons. rewrite IH by done. unfold insert_task. rewrite lookup_insert_Some.
  assert (∀ y, (k, y) ∈ rows → k ∈ rows.*1) as Hin.
  { intros y Hy. apply list_elem_of_fmap. by exists (k, y). }
  set_solver.
Qed.

Lemma NoDup_fst_filter (P : Z * str → Prop) `{!∀ x, Decision (P x)} l : NoDup l.*1 → NoDup (filter P l).*1.
Proof.
  induction l as [|x l IH]; [done|]. rewrite filter_cons. intros [Hx Hnd]%NoDup_cons.
  case_decide; [|by apply IH]. cbn. apply NoDup_cons. split; [|by apply IH].
  intros (y & Hy & [_ Hin]%list_elem_of_filter)%list_elem_of_fmap. apply Hx, list_elem_of_fmap. eauto.
Qed.

Lemma select_details_lookup names d i n :
  select_details names d !! i = Some n ↔ tasks d !! i = Some n ∧ n ∈ names.
Proof.
  unfold select_details, task_rows_to_details. rewrite task_rows_lookup.
  - rewrite list_elem_of_filter, elem_of_map_to_list. cbn. set_solver.
  - apply NoDup_fst_filter, NoDup_fst_map_to_list.
Qed.

Lemma get_tasks_details_split names d d' td :
  get_tasks_details names d = Ok (d', td) →
  register_names names d = Ok d' ∧ td = select_details names d'.
Proof.
  unfold get_tasks_details, register_names. destruct names as [|n ns]; cbn [is_empty].
  - intros [= <- <-]. split; [done|]. apply map_eq. intros i.
    symmetry. rewrite lookup_empty. apply eq_None_not_Some. intros [x [_ Hx]%select_details_lookup].
    set_solver.
  - destruct (insert_names _ _ _) as [d1|]; [|done]. by intros [= <- <-].
Qed.
(** ** The identifiers of a raw batch *)

Lemma elem_of_unique_identifiers l x : x ∈ unique_identifiers l ↔ x ∈ l.
Proof.
  unfold unique_identifiers.
  assert (∀ acc, x ∈ foldl (λ acc i, if bool_decide (i ∈ acc) then acc else acc ++ [i]) acc l ↔ x ∈ acc ∨ x ∈ l)
    as H; [|rewrite H; set_solver].
  induction l as [|y l IH]; intros acc; cbn; [set_solver|]. rewrite IH. case_bool_decide; set_solver.
Qed.

Lemma prepare_identifiers hooks js js' p :
  prepare_batch_jobs hooks js = Some (Ok (js', p)) → a_identifier <$> js' = (λ j, j.1.1) <$> js.
Proof.
  revert js' p. induction js as [|[[n v] sp] js IH]; intros js' p; cbn; [by intros [= <- _]|].
  destruct (invoke_before_job_schedule _ _ _ _) as [[v'|]|]; cbn; try done.
  destruct (prepare_batch_jobs hooks js) as [[[more q]|]|]; cbn; try done.
  intros [= <- _]. cbn. f_equal. by eapply IH.
Qed.

Lemma batch_spec_identifiers js t trace :
  s_identifier <$> build_batch_specs js t trace = a_identifier <$> js.
Proof.
  unfold build_batch_specs, build_borrowed_batch_specs. case_match; rewrite <- list_fmap_compose; done.
Qed.

Lemma insert_row_task preserve now touched s d d' touched' r :
  insert_row preserve now touched s d = Ok (d', touched', r) →
  tasks d' = tasks d ∧ ∀ row, r = Some row → tasks d !! task_id row = Some (s_identifier s).
Proof.
  unfold insert_row. destruct (name_id _ _) as [tid|] eqn:E; [apply name_id_Some in E|by intros [= <- _ <-]].
  case_match; [done|]. destruct (k ← s_job_key s; find_key d k) as [[i j]|]; [|by intros [= <- _ <-]; naive_solver].
  repeat case_match; intros; simplify_eq; naive_solver.
Qed.

Lemma insert_rows_tasks preserve now touched ss d d' rows :
  insert_rows preserve now touched ss d = Ok (d', rows) →
  tasks d' = tasks d ∧ ∀ row, row ∈ rows → ∃ n, n ∈ s_identifier <$> ss ∧ tasks d !! task_id row = Some n.
Proof.
  revert touched d rows. induction ss as [|s ss IH]; intros touched d rows; cbn; [intros [= <- <-]; set_solver|].
  destruct (insert_row _ _ _ _ _) as [[[d1 t1] r]|] eqn:E1; cbn; [|done].
  destruct (insert_rows _ _ _ _ d1) as [[d2 rs]|] eqn:E2; cbn; [|done]. intros [= <- <-].
  apply insert_row_task in E1 as [Ht1 Hr]. apply IH in E2 as [Ht2 Hrs].
  rewrite Ht2, Ht1. split; [done|]. rewrite Ht1 in Hrs. intros row Hrow.
  assert (r = Some row ∨ row ∈ rs) as [Hx|Hx] by (destruct r; set_solver).
  - exists (s_identifier s). split; [set_solver|by apply Hr].
  - destruct (Hrs row Hx) as (n & ? & ?). exists n. split; [set_solver|done].
Qed.

(** Every job a raw batch reports was inserted under a task the batch
    asked for, and carries that task's identifier: what the batch resolves
    before inserting is what the rows point to, hooks and keys included. *)
Theorem raw_jobs_identified trace local_now now hooks local js d d' rows :
  tasks_fresh d →
  add_raw_jobs trace local_now now hooks local js d = Some (d', Ok rows) →
  ∀ job : Job, job ∈ rows →
    task_identifier job ∈ (λ j, j.1.1) <$> js ∧
    tasks d' !! task_id job = Some (task_identifier job).
Proof.
  intros Hf. unfold add_raw_jobs. destruct (is_empty js); [intros [= <- <-]; set_solver|].
  destruct (prepare_batch_jobs hooks js) as [[[js' p]|]|] eqn:Ep; cbn [mbind option_bind]; try done.
  apply prepare_identifiers in Ep. set (names := unique_identifiers _).
  assert (∀ n, n ∈ names ↔ n ∈ a_identifier <$> js') as Hnames.
  { intros n. rewrite Ep. apply elem_of_unique_identifiers. }
  destruct (get_tasks_details names d) as [[d1 td]|] eqn:Et; [|done].
  apply get_tasks_details_split in Et as [Hreg ->].
  apply register_names_grows in Hreg as (_ & _ & Hknown); [|done].
  unfold inserted, add_jobs. destruct (is_empty js'); [intros [= <- <-]; set_solver|].
  destruct (validate_batch_job_key_modes js'); [|done].
  destruct (sql_add_jobs _ _ _ _) as [[d2 raw]|] eqn:Es; cbn [map_err]; [|done]. intros [= <- <-] job.
  intros (row & -> & Hrow)%list_elem_of_fmap. unfold sql_add_jobs in Es.
  rewrite batch_spec_identifiers in Es.
  rewrite register_known in Es by (intros n Hn%elem_of_remove_dups%Hnames; by apply Hknown, elem_of_remove_dups).
  destruct (insert_names insert_queue_name _ d1) as [dq|] eqn:Eq; [|done].
  apply insert_queues_same in Eq as [_ Htq].
  apply insert_rows_tasks in Es as [Ht Hrows]. rewrite batch_spec_identifiers in Hrows. cbn in Ht, Hrows.
  destruct (Hrows row Hrow) as (n & Hn & Hrn). rewrite Ht. cbn.
  assert (get_or_empty (select_details names d1) (id row) (task_id row) = n) as ->.
  { unfold get_or_empty. replace (select_details names d1 !! task_id row) with (Some n); [done|].
    symmetry. apply select_details_lookup. split; [by rewrite <- Htq|by apply Hnames]. }
  split; [by rewrite <- Ep|done].
Qed.

(** ** Cleanup against other sessions *)

Definition knows (w : World) (n : str) : Prop := n ∈ task_names (cache w).
(** The cache names what the table holds. *)
Definition agrees (w : World) : Prop := ∀ i n, cache w !! i = Some n → tasks (tables w) !! i = Some n.
Definition tasks_known (d : Db) : Prop := map_Forall (λ _ j, is_Some (tasks d !! task_id j)) (jobs d).

Lemma knows_lookup w n : knows w n ↔ ∃ i, cache w !! i = Some n.
Proof.
  unfold knows, task_names. rewrite list_elem_of_fmap. split.
  - intros ([i x] & -> & H%elem_of_map_to_list). eauto.
  - intros [i Hi]. exists (i, n). split; [done|]. by apply elem_of_map_to_list.
Qed.

(** What the other sessions of a cleanup respect: registrations add tasks
    whose rows exist, rows of registered tasks and of jobs are not collected,
    and ids come from the sequence. *)
Record polite (others : nat → World → World) : Prop := {
  polite_knows k w n : knows w n → knows (others k w) n;
  polite_rows k w i n : knows w n → tasks (tables w) !! i = Some n → tasks (tables (others k w)) !! i = Some n;
  polite_fresh k w : tasks_fresh (tables w) → tasks_fresh (tables (others k w));
  polite_agrees k w : agrees w → agrees (others k w);
  polite_jobs k w : tasks_known (tables w) → tasks_known (tables (others k w))
}.

(** What a stretch of a cleanup keeps. *)
Record kept (w w' : World) : Prop := {
  kept_knows n : knows w n → knows w' n;
  kept_fresh : tasks_fresh (tables w) → tasks_fresh (tables w');
  kept_jobs : tasks_known (tables w) → tasks_known (tables w')
}.

Lemma kept_refl w : kept w w.
Proof. by constructor. Qed.
Lemma kept_trans w1 w2 w3 : kept w1 w2 → kept w2 w3 → kept w1 w3.
Proof. intros [? ? ?] [? ? ?]. constructor; eauto. Qed.

Lemma tasks_known_grow d d' : same_jobs d d' → tasks d ⊆ tasks d' → tasks_known d → tasks_known d'.
Proof.
  intros (Hj & _) Hs Hk i j. rewrite Hj. intros [x Hx]%(Hk i j). exists x. by eapply lookup_weaken.
Qed.

Lemma cleanup_execute_jobs t names d : tasks_known d → tasks_known (cleanup_execute t names d).
Proof.
  intros Hk i j Hj. destruct t; cbn in *.
  - destruct (Hk i j Hj) as [x Hx]. exists x. apply delete_where_Some. split; [done|].
    apply andb_false_iff. left. apply bool_decide_eq_false. intros Hn. apply Hn, list_elem_of_fmap.
    exists j. split; [done|]. apply elem_of_rows_where. eauto.
  - by apply (Hk i j).
  - apply delete_where_Some in Hj as [Hj _]. by apply (Hk i j).
Qed.

Section interference.
Context (others : nat → World → World) (fails : nat → option SqlError) (Hothers : polite others).

Lemma others_kept k w : kept w (others k w).
Proof. constructor; [intros n|..]; apply Hothers. Qed.

Lemma on_db_kept f w :
  (tasks_fresh (tables w) → tasks_fresh (f (tables w))) →
  (tasks_known (tables w) → tasks_known (f (tables w))) → kept w (on_db f w).
Proof. by constructor. Qed.

Lemma registered_kept k names w w' r :
  tasks_fresh (tables w) → registered fails k names w = (w', r) →
  kept w w' ∧ cache w' = cache w ∧
  (r = Ok () → ∀ n, n ∈ names → ∃ i, tasks (tables w') !! i = Some n).
Proof.
  intros Hf. unfold registered. destruct (fails k); [intros [= <- <-]; split_and!; [apply kept_refl|done..]|].
  destruct (register_names names (tables w)) as [d|] eqn:E;
    [|intros [= <- <-]; split_and!; [apply kept_refl|done..]].
  intros [= <- <-]. pose proof E as Hsame. apply insert_tasks_same in Hsame as [Hsame _].
  apply register_names_grows in E as (Hf' & Hs & Hn); [|done]. split_and!; [|done|].
  - constructor; [done|done|]. by apply tasks_known_grow.
  - intros _ n Hin. by apply Hn, elem_of_remove_dups.
Qed.

(** Storing details that name what was registered when the snapshot was taken. *)
Lemma publish_kept retry k w w1 refreshed w' r :
  kept w w1 →
  (∀ n, knows w n → ∃ i, refreshed !! i = Some n) →
  (∀ i n, refreshed !! i = Some n → knows w n ∧ tasks (tables w1) !! i = Some n) →
  (∀ w2, kept w w2 → retry w2 = (w', r) → kept w w' ∧ (r = Ok () → agrees w')) →
  publish others retry k (cache w) refreshed w1 = (w', r) → kept w w' ∧ (r = Ok () → agrees w').
Proof.
  intros Hk1 Hin Hrow Hretry. unfold publish.
  assert (kept w (others k w1)) as Hk2 by (eapply kept_trans, others_kept; done).
  case_bool_decide as Hc; [|by apply Hretry]. intros [= <- <-]. split.
  - constructor; [|apply Hk2..]. intros n Hn%Hin. by apply knows_lookup.
  - intros _ i n [Hn Hi]%Hrow. cbn. apply Hothers; [|done]. by apply Hk1.
Qed.

Lemma refresh_kept m k w w' r :
  tasks_fresh (tables w) → refresh_attempts others fails m k w = (w', r) →
  kept w w' ∧ (r = Ok () → agrees w').
Proof.
  revert k w. induction m as [|m IH]; intros k w Hf; cbn; [intros [= <- <-]; split; [apply kept_refl|done]|].
  assert (∀ w2, kept w w2 → refresh_attempts others fails m (k + answers_per_attempt) w2 = (w', r) →
    kept w w' ∧ (r = Ok () → agrees w')) as Hretry.
  { intros w2 Hk2 [Hk3 Ha]%IH; [|by apply Hk2]. split; [by eapply kept_trans|done]. }
  destruct (is_empty (task_names (cache w))) eqn:Ee.
  { apply publish_kept; [apply kept_refl| | |done].
    - intros n. unfold knows. destruct (task_names _); [set_solver|done].
    - intros i n. by rewrite lookup_empty. }
  destruct (registered fails k _ (others k w)) as [w1 r1] eqn:E1.
  apply registered_kept in E1 as (Hk1 & _ & Hn); [|by apply Hothers].
  assert (kept w w1) as Hk by (eapply kept_trans, Hk1; apply others_kept).
  destruct r1 as [[]|e]; [|intros [= <- <-]; done].
  assert (kept w (others (k + 1) w1)) as Hk2 by (eapply kept_trans, others_kept; done).
  destruct (fails (k + 1)); [intros [= <- <-]; done|]. apply publish_kept; [done| | |done].
  - intros n Hin. destruct (Hn eq_refl n Hin) as [i Hi]. exists i. apply select_details_lookup.
    split; [|done]. apply Hothers; [|done]. by apply Hk.
  - intros i n [Hi Hin]%select_details_lookup. done.
Qed.

Lemma execute_kept k t names w w' r :
  execute_cleanup_task others fails k t names w = (w', r) →
  kept w w' ∧ (agrees w → t ≠ GcTaskIdentifiers → agrees w').
Proof.
  unfold execute_cleanup_task. destruct (fails k); intros [= <- <-].
  - split; [apply others_kept|]. intros. by apply Hothers.
  - split.
    + eapply kept_trans; [apply (others_kept k)|]. apply on_db_kept; [|apply cleanup_execute_jobs].
      destruct t; cbn; [|done|done]. intros Hf i x [Hi _]%delete_where_Some. by eapply Hf.
    + intros Ha Ht. apply (polite_agrees _ Hothers k) in Ha. by destruct t.
Qed.

(** A cleanup forgets no registration.  Whatever other sessions do that
    respect registered tasks, and wherever the cleanup fails, every task the
    cache knew before it knows afterwards, and no job loses its task; when
    task identifiers were collected and the cleanup succeeded, every entry of
    the cache is a row of the table. *)
Theorem cleanup_keeps_registrations ts keep k w w' r :
  tasks_fresh (tables w) →
  cleanup others fails ts keep k w = (w', r) →
  (∀ n, knows w n → knows w' n) ∧
  (tasks_known (tables w) → tasks_known (tables w')) ∧
  (r = Ok () → agrees w ∨ GcTaskIdentifiers ∈ ts → agrees w').
Proof.
  intros Hf Hc. enough (kept w w' ∧ (r = Ok () → agrees w ∨ GcTaskIdentifiers ∈ ts → agrees w')) as [[? ? ?] ?];
    [done|].
  revert k w Hf Hc. induction ts as [|t ts IH]; intros k w Hf; cbn [cleanup].
  { intros [= <- <-]. split; [apply kept_refl|]. set_solver. }
  set (first := match t with GcTaskIdentifiers => _ | _ => _ end). destruct first as [w1 r1] eqn:E.
  assert (kept w w1 ∧ (r1 = Ok () → agrees w ∨ t = GcTaskIdentifiers → agrees w1)) as [Hk Ha].
  { subst first. destruct t; [|apply execute_kept in E as [? Ha]; split; [done|naive_solver]..].
    destruct (execute_cleanup_task _ _ _ _ _ w) as [w0 [[]|e]] eqn:E0; apply execute_kept in E0 as [Hk0 _].
    - apply refresh_kept in E as [Hk1 Ha]; [|by apply Hk0]. split; [by eapply kept_trans|by intros ? _; apply Ha].
    - by injection E as <- <-. }
  destruct r1 as [[]|e]; [|by intros [= <- <-]].
  intros [Hk1 Ha1]%IH; [|by apply Hk]. split; [by eapply kept_trans|].
  intros Hr H. apply Ha1; [done|]. destruct H as [H|[<-|H]%elem_of_cons]; [left|left|by right]; apply Ha; auto.
Qed.
End interference.

(** An attempt that did not publish its details saw the cache change. *)
Definition changed (others : nat → World → World) (k : nat) : Prop :=
  ∃ j x, (j < answers_per_attempt)%nat ∧ cache (others (k + j)%nat x) ≠ cache x.

Lemma attempt_changed (others : nat → World → World) k w w1 :
  cache w1 = cache w ∨ (∃ w0, cache w0 = cache (others k w) ∧ w1 = others (k + 1)%nat w0) →
  cache (others (k + 2)%nat w1) ≠ cache w → changed others k.
Proof.
  intros Hw1 Hne. destruct (decide (cache (others (k + 2)%nat w1) = cache w1)) as [H2|];
    [|exists 2%nat, w1; split; [unfold answers_per_attempt; lia|done]].
  destruct Hw1 as [H1|(w0 & H0 & ->)]; [congruence|].
  destruct (decide (cache (others (k + 1)%nat w0) = cache w0)) as [H1|];
    [|exists 1%nat, w0; split; [unfold answers_per_attempt; lia|done]].
  exists 0%nat, w. split; [unfold answers_per_attempt; lia|]. rewrite Nat.add_0_r. congruence.
Qed.

Lemma attempts_conflict others fails n k w w' m :
  refresh_attempts others fails n k w = (w', Err (TaskDetailsRefreshConflict m)) →
  m = 3%nat ∧ ∀ a, (a < n)%nat → changed others (k + answers_per_attempt * a)%nat.
Proof.
  revert k w. induction n as [|n IH]; intros k w; cbn [refresh_attempts]; [intros [= <- <-]; split; [done|lia]|].
  assert (∀ w2 refreshed,
    cache w2 = cache w ∨ (∃ w0, cache w0 = cache (others k w) ∧ w2 = others (k + 1)%nat w0) →
    publish others (refresh_attempts others fails n (k + answers_per_attempt)%nat) (k + 2)%nat (cache w) refreshed w2
      = (w', Err (TaskDetailsRefreshConflict m)) →
    m = 3%nat ∧ ∀ a, (a < S n)%nat → changed others (k + answers_per_attempt * a)%nat) as Hp.
  { intros w2 refreshed Hw2. unfold publish. case_bool_decide as Hc; [done|]. intros [Hm Ha]%IH.
    split; [done|]. intros [|a] Hlt.
    - rewrite Nat.mul_0_r, Nat.add_0_r. by eapply attempt_changed.
    - replace (k + answers_per_attempt * S a)%nat with (k + answers_per_attempt + answers_per_attempt * a)%nat by lia.
      apply Ha. lia. }
  destruct (is_empty _); [apply Hp; by left|].
  destruct (registered fails k _ _) as [w1 [[]|e]] eqn:E; [|done].
  destruct (fails (k + 1)%nat); [done|]. apply Hp. right. exists w1. split; [|done].
  unfold registered in E. repeat case_match; by simplify_eq.
Qed.

(** The refresh gives up only if each of its three attempts saw the cache
    change between its snapshot and its write. *)
Theorem refresh_conflict_needs_changes others fails k w w' m :
  refresh_task_details others fails k w = (w', Err (TaskDetailsRefreshConflict m)) →
  m = 3%nat ∧ ∀ a, (a < 3)%nat → changed others (k + answers_per_attempt * a)%nat.
Proof. apply attempts_conflict. Qed.

(** ** Witnesses *)

Definition demo_world : World :=
  mkWorld (with_tasks empty_db {[1 := lit "old"; 2 := lit "mine"]} 3) {[2 := lit "mine"]}.
(** Another session registers a task while the first refresh waits to publish. *)
Definition demo_others (k : nat) (w : World) : World :=
  if bool_decide (k = 3%nat ∧ tasks (tables w) !! 7 = None ∧ cache w !! 7 = None ∧ 7 < tasks_seq (tables w))
  then mkWorld (with_tasks (tables w) (<[7 := lit "new"]> (tasks (tables w))) (tasks_seq (tables w)))
         (<[7 := lit "new"]> (cache w))
  else w.
Definition demo_start : World := on_db (λ d, with_tasks d (tasks d) 9) demo_world.

Lemma demo_others_polite : polite demo_others.
Proof.
  constructor; unfold demo_others; intros k w; case_bool_decide as H; try done; destruct H as (_ & Ht & Hc & Hs).
  - intros n. rewrite !knows_lookup. intros [i Hi]. exists i. cbn. rewrite lookup_insert_ne; [done|congruence].
  - intros i n _ Hi. cbn. rewrite lookup_insert_ne; [done|congruence].
  - intros Hf i x. cbn. rewrite lookup_insert_Some. intros [[<- _]|[_ Hi]]; [done|by eapply Hf].
  - intros Ha i n. cbn. rewrite !lookup_insert_Some. naive_solver.
  - intros Hk i j Hj. destruct (Hk i j Hj) as [x Hx]. exists x. cbn. rewrite lookup_insert_ne; [done|congruence].
Qed.

Lemma cleanup_keeps_registrations_witness :
  let '(w, r) := cleanup demo_others (λ _, None) [GcTaskIdentifiers] [] 0 demo_start in
  r = Ok () ∧ map_to_list (cache w) = [(7, lit "new"); (2, lit "mine")] ∧
  map_to_list (tasks (tables w)) = [(7, lit "new"); (2, lit "mine")] ∧ agrees w.
Proof.
  destruct (cleanup _ _ _ _ _ _) as [w r] eqn:E.
  assert (r = Ok () ∧ map_to_list (cache w) = [(7, lit "new"); (2, lit "mine")] ∧
          map_to_list (tasks (tables w)) = [(7, lit "new"); (2, lit "mine")]) as (-> & Hc & Ht).
  { vm_compute in E. injection E as <- <-. vm_compute. split_and!; reflexivity. }
  destruct (cleanup_keeps_registrations demo_others (λ _, None) demo_others_polite
    [GcTaskIdentifiers] [] 0 demo_start w (Ok ())) as (_ & _ & Ha).
  - intros i x Hi. cbn in *. rewrite lookup_insert_Some, lookup_singleton_Some in Hi. lia.
  - exact E.
  - split_and!; [done..|]. apply Ha; [done|]. right. set_solver.
Defined.

Lemma raw_jobs_identified_witness :
  ∃ d rows, add_raw_jobs None 0 10 None false
      [(lit "a", Object [], mkSpec None None None None None None None);
       (lit "b", Object [], mkSpec (Some (lit "q")) None None None None None None)] empty_db
    = Some (d, Ok rows) ∧ task_identifier <$> rows = [lit "a"; lit "b"] ∧
    ∀ job : Job, job ∈ rows → tasks d !! task_id job = Some (task_identifier job).
Proof.
  destruct (add_raw_jobs _ _ _ _ _ _ _) as [[d [rows|]]|] eqn:E; [|vm_compute in E; discriminate E..].
  exists d, rows. split_and!; [done| |].
  - vm_compute in E. injection E as <- <-. vm_compute. reflexivity.
  - intros job Hin. eapply (raw_jobs_identified _ _ _ _ _ _ _ _ _ (λ i x, _) E job Hin).
    Unshelve. cbn. intros Hi. by rewrite lookup_empty in Hi.
Defined.

End WorkerUtils.
