(* ===== verification/AdminApi.v ===== *)
(** * Administration queries (crates/graphile-worker-admin-api)

    What the administration server and the command line read: the filtered and
    paged job list, one job, the counts by state, the queues and the workers
    that hold locks.  The text of the list query and its parameters are built
    as the code builds them; what the query answers is a function of the
    tables.  [ilike], the text of a JSON value and the collation of names are
    PostgreSQL's. *)

From S2P Require Import Prelude Text Job Database JobStore JobRelease.
Open Scope Z_scope.

Module AdminApi.
Import Job Database JobStore JobRelease.

(** ** jobs.rs *)

Inductive JobState := All | Ready | Scheduled | Locked | Failed.

Record ListJobsParams := mkParams {
  p_state : JobState;
  p_identifier : option str;
  p_queue : option str;
  p_search : option str;
  p_limit : Z;
  p_offset : Z
}.

Definition default_limit : Z := 100.

Record ListedJob := mkListed {
  listed_row :> DbJob;
  listed_task_identifier : str;
  listed_queue_name : option str;
  is_available : bool
}.

(** What the server and the command line answer about a job row. *)
Record DbJobOutput := mkOutput { output_row :> DbJob; output_task_identifier : option str }.

Inductive JobKeyModeRequest := ReplaceRequest | PreserveRunAtRequest | UnsafeDedupeRequest.

Record AddJobRequest := mkAddJob {
  add_identifier : str;
  add_payload : Value;
  add_queue : option str;
  add_run_at : option Z;
  add_max_attempts : option Z;
  add_key : option str;
  add_job_key_mode : option JobKeyModeRequest;
  add_priority : option Z;
  add_flags : option (list str)
}.

Inductive JobAction := Complete | Fail | RunNow | Reschedule.

Record JobActionRequest := mkAction {
  act_action : JobAction;
  act_ids : list Z;
  act_reason : option str;
  act_run_at : option Z;
  act_priority : option Z;
  act_attempts : option Z;
  act_max_attempts : option Z
}.

Record JobActionResponse := mkActionResponse { act_message : str; act_jobs : list DbJobOutput }.

(** ** maintenance.rs *)

Inductive MaintenanceAction := Migrate | Cleanup | ForceUnlock | SweepStaleWorkers.
Inductive CleanupTaskName := DeletePermanentlyFailed | GcTasks | GcQueues.

Definition all_cleanup_tasks : list CleanupTaskName := [DeletePermanentlyFailed; GcTasks; GcQueues].

Record MaintenanceRequest := mkMaintenance {
  m_action : MaintenanceAction;
  m_cleanup_tasks : list CleanupTaskName;
  m_worker_ids : list str;
  m_dry_run : bool;
  m_sweep_threshold_secs : option Z;
  m_recovery_delay_secs : option Z
}.

(** ** overview.rs *)

Record JobStats := mkStats { total : Z; ready : Z; scheduled : Z; locked : Z; failed : Z }.

Record QueueRow := mkQueueRow {
  row_queue_id : Z;
  row_queue_name : str;
  row_locked_at : option Z;
  row_locked_by : option str;
  job_count : Z;
  ready_count : Z
}.

Record LockedWorkerRow := mkLockedWorker { worker_id : str; locked_jobs : Z; locked_queues : Z }.

(** ** queries/error.rs *)

Inductive AdminQueryError := BadRequest (msg : str) | NotFound (msg : str) | Sqlx.

(** ** The text of the list query *)

(** A piece of a [QueryBuilder]: text, or a bound parameter. *)
Inductive Param := PText (s : str) | PInt (n : Z).
Inductive Piece := Push (s : str) | Bind (p : Param).

(** [QueryBuilder::sql]: parameters are numbered in order. *)
Fixpoint sql_from (n : Z) (q : list Piece) : str :=
  match q with
  | [] => []
  | Push s :: q => s ++ sql_from n q
  | Bind _ :: q => lit "$" ++ dec n ++ sql_from (n + 1) q
  end.
Definition sql (q : list Piece) : str := sql_from 1 q.
Definition arguments (q : list Piece) : list Param :=
  omap (λ p, match p with Bind a => Some a | Push _ => None end) q.

(** [Option::filter(|value| !value.is_empty())]. *)
Definition non_empty (o : option str) : option str :=
  match o with Some (c :: s) => Some (c :: s) | _ => None end.
Definition search_term (args : ListJobsParams) : option str := non_empty (Text.trim <$> p_search args).

(** *** queries/jobs/filters.rs *)

Definition search_columns : list str :=
  lit <$> [" and (jobs.id::text ilike "; " or tasks.identifier ilike ";
           " or coalesce(job_queues.queue_name, '') ilike "; " or coalesce(jobs.key, '') ilike ";
           " or coalesce(jobs.locked_by, '') ilike "; " or coalesce(jobs.last_error, '') ilike ";
           " or jobs.payload::text ilike "]%string.

Definition pattern (search : str) : str := lit "%" ++ search ++ lit "%".

Definition apply_search_filter (args : ListJobsParams) : list Piece :=
  match search_term args with
  | None => []
  | Some search => flat_map (λ c, [Push c; Bind (PText (pattern search))]) search_columns ++ [Push (lit ")")]
  end.

Definition apply_state_filter (state : JobState) : list Piece :=
  match state with
  | All => []
  | Ready => [Push (lit " and jobs.locked_at is null and jobs.attempts < jobs.max_attempts and jobs.run_at <= now()")]
  | Scheduled => [Push (lit " and jobs.locked_at is null and jobs.attempts < jobs.max_attempts and jobs.run_at > now()")]
  | Locked => [Push (lit " and jobs.locked_at is not null")]
  | Failed => [Push (lit " and jobs.locked_at is null and jobs.attempts >= jobs.max_attempts")]
  end.

Definition apply_job_filters (args : ListJobsParams) : list Piece :=
  match non_empty (p_identifier args) with
  | Some i => [Push (lit " and tasks.identifier = "); Bind (PText i)]
  | None => []
  end ++
  match non_empty (p_queue args) with
  | Some q => [Push (lit " and job_queues.queue_name = "); Bind (PText q)]
  | None => []
  end ++ apply_search_filter args ++ apply_state_filter (p_state args).

(** *** queries/jobs/select.rs, sql.rs *)

Definition jobs_select_sql (schema : Schema) : str :=
  lit "select jobs.id, tasks.identifier as task_identifier, job_queues.queue_name, jobs.payload, jobs.priority, jobs.run_at, jobs.attempts, jobs.max_attempts, jobs.last_error, jobs.created_at, jobs.updated_at, jobs.key, jobs.locked_at, jobs.locked_by, jobs.revision, jobs.flags, jobs.is_available from "
  ++ private_table schema (lit "jobs") ++ lit " as jobs inner join " ++ private_table schema (lit "tasks")
  ++ lit " as tasks on tasks.id = jobs.task_id left join " ++ private_table schema (lit "job_queues")
  ++ lit " as job_queues on job_queues.id = jobs.job_queue_id".

(** *** queries/jobs/mod.rs *)

(** [ListJobsQueryOptions::max_limit]. *)
Definition effective_limit (max_limit : option Z) (args : ListJobsParams) : Z :=
  match max_limit with Some m => Z.min (p_limit args) m | None => p_limit args end.

Definition list_jobs_query (schema : Schema) (max_limit : option Z) (args : ListJobsParams) : list Piece :=
  Push (jobs_select_sql schema ++ lit " where true") :: apply_job_filters args ++
  [Push (lit " order by jobs.id asc limit "); Bind (PInt (effective_limit max_limit args));
   Push (lit " offset "); Bind (PInt (p_offset args))].

(** *** queries/jobs/tasks.rs *)

(** The parameters of the [in] list, in increasing order without repetition. *)
Definition separated (sep : str) (ps : list Param) : list Piece :=
  match ps with
  | [] => []
  | p :: ps => Bind p :: flat_map (λ p, [Push sep; Bind p]) ps
  end.

Definition btree_set (ids : list Z) : list Z := merge_sort Z.le (remove_dups ids).

Definition task_identifiers_query (schema : Schema) (ids : list Z) : list Piece :=
  Push (lit "select id, identifier from " ++ private_table schema (lit "tasks") ++ lit " where id in (")
  :: separated (lit ", ") (PInt <$> btree_set ids) ++ [Push (lit ")")].

(** ** What the queries answer *)

Definition task_identifiers_by_id (ids : list Z) (db : Db) : gmap Z str :=
  if is_empty (btree_set ids) then ∅ else filter (λ it, it.1 ∈ btree_set ids) (tasks db).

Section queries.
Context (ilike : str → str → bool) (value_text : Value → str) (collate : relation str).
Context `{!RelDecision collate}.

(** [order by id]. *)
Definition id_order {A} (a b : Z * A) : Prop := a.1 ≤ b.1.
#[local] Instance id_order_dec {A} : RelDecision (@id_order A).
Proof. unfold id_order. solve_decision. Defined.
Definition rows_by_id {A} (t : gmap Z A) : list (Z * A) := merge_sort id_order (map_to_list t).

(** The joins: the task must be known, the queue need not. *)
Definition listed (db : Db) (j : DbJob) : option ListedJob :=
  identifier ← tasks db !! task_id j;
  Some (mkListed j identifier (queue_name <$> (q ← job_queue_id j; job_queues db !! q)) (job_available j)).
Definition joined (db : Db) : list ListedJob := omap (λ ij, listed db ij.2) (rows_by_id (jobs db)).

Definition in_state (now : Z) (s : JobState) (j : DbJob) : bool :=
  match s with
  | All => true
  | Ready => bool_decide (locked_at j = None) && (attempts j <? max_attempts j) && (run_at j <=? now)
  | Scheduled => bool_decide (locked_at j = None) && (attempts j <? max_attempts j) && (now <? run_at j)
  | Locked => negb (bool_decide (locked_at j = None))
  | Failed => bool_decide (locked_at j = None) && (max_attempts j <=? attempts j)
  end.

Definition found (search : str) (l : ListedJob) : bool :=
  existsb (λ text, ilike text (pattern search))
    [Text.int_text (id l); listed_task_identifier l; default [] (listed_queue_name l); default [] (key l);
     default [] (locked_by l); default [] (last_error l); value_text (payload l)].

(** The [where] clause. *)
Definition admitted (now : Z) (args : ListJobsParams) (l : ListedJob) : bool :=
  match non_empty (p_identifier args) with Some i => bool_decide (listed_task_identifier l = i) | None => true end &&
  match non_empty (p_queue args) with Some q => bool_decide (listed_queue_name l = Some q) | None => true end &&
  match search_term args with Some s => found s l | None => true end &&
  in_state now (p_state args) l.

Definition list_jobs (now : Z) (max_limit : option Z) (args : ListJobsParams) (db : Db) :
    result (list ListedJob) AdminQueryError :=
  if p_limit args <? 0 then Err (BadRequest (lit "limit must be greater than or equal to 0"))
  else if p_offset args <? 0 then Err (BadRequest (lit "offset must be greater than or equal to 0"))
  else Ok (take (Z.to_nat (effective_limit max_limit args))
             (drop (Z.to_nat (p_offset args)) (filter (λ l, admitted now args l = true) (joined db)))).

Definition get_job (i : Z) (db : Db) : result ListedJob AdminQueryError :=
  match j ← jobs db !! i; listed db j with
  | Some l => Ok l
  | None => Err (NotFound (lit "job " ++ Text.int_text i ++ lit " not found"))
  end.

(** *** queries/overview.rs *)

Definition count_rows {A} (p : A → bool) (t : gmap Z A) : Z := Z.of_nat (count_if p (map_to_list t).*2).

Definition get_stats (now : Z) (db : Db) : JobStats :=
  mkStats (count_rows (λ _, true) (jobs db)) (count_rows (in_state now Ready) (jobs db))
    (count_rows (in_state now Scheduled) (jobs db)) (count_rows (in_state now Locked) (jobs db))
    (count_rows (in_state now Failed) (jobs db)).

Definition queue_row (now : Z) (db : Db) (iq : Z * JobQueue) : QueueRow :=
  let mine := λ j, bool_decide (job_queue_id j = Some iq.1) in
  mkQueueRow iq.1 (queue_name iq.2) (queue_locked_at iq.2) (queue_locked_by iq.2)
    (count_rows mine (jobs db)) (count_rows (λ j, mine j && in_state now Ready j) (jobs db)).

Definition name_order {A} (name : A → str) (a b : A) : Prop := collate (name a) (name b).
#[local] Instance name_order_dec {A} (name : A → str) : RelDecision (name_order name).
Proof. unfold name_order. solve_decision. Defined.

Definition list_queues (now : Z) (db : Db) : list QueueRow :=
  merge_sort (name_order row_queue_name) (queue_row now db <$> map_to_list (job_queues db)).

(** *** queries/workers.rs *)

(** [select locked_by, count( * ) ... where locked_by is not null group by locked_by]. *)
Definition holders (l : list (option str)) : list (str * Z) :=
  (λ w, (w, Z.of_nat (count_if (λ x, bool_decide (x = Some w)) l))) <$> remove_dups (omap (λ x, x) l).

Definition job_owners (db : Db) : list (option str) := locked_by <$> (map_to_list (jobs db)).*2.
Definition queue_owners (db : Db) : list (option str) := queue_locked_by <$> (map_to_list (job_queues db)).*2.

(** [union all] of the two, grouped again. *)
Definition lock_rows (db : Db) : list (str * Z * Z) :=
  ((λ wn, (wn.1, wn.2, 0)) <$> holders (job_owners db)) ++
  ((λ wn, (wn.1, 0, wn.2)) <$> holders (queue_owners db)).

Definition sum_of (f : str * Z * Z → Z) (w : str) (rows : list (str * Z * Z)) : Z :=
  foldr (λ r n, (if bool_decide (r.1.1 = w) then f r else 0) + n) 0 rows.

Definition list_locked_workers (db : Db) : list LockedWorkerRow :=
  merge_sort (name_order worker_id)
    ((λ w, mkLockedWorker w (sum_of (λ r, r.1.2) w (lock_rows db)) (sum_of (λ r, r.2) w (lock_rows db)))
       <$> remove_dups (fst ∘ fst <$> lock_rows db)).

(** *** worker_heartbeat/active.rs *)

Record ActiveWorkerRow := mkActive { active_id : str; active_worker :> Worker; is_stale : bool }.

Definition latest_first (a b : str * Worker) : Prop := last_heartbeat_at b.2 ≤ last_heartbeat_at a.2.
#[local] Instance latest_first_dec : RelDecision latest_first.
Proof. unfold latest_first. solve_decision. Defined.

(** Times are in microseconds, the threshold in nanoseconds; a heartbeat in
    the future is not stale. *)
Definition list_active_workers (sweep_threshold now : Z) (db : Db) : list ActiveWorkerRow :=
  (λ wr, let elapsed := now - last_heartbeat_at wr.2 in
         mkActive wr.1 wr.2 ((0 <=? elapsed) && (sweep_threshold <=? elapsed * 1000)))
    <$> merge_sort latest_first (map_to_list (workers db)).

(** ** Lists and counts *)

Definition keyed (db : Db) : Prop := map_Forall (λ i j, id j = i) (jobs db).
Definition tasks_known (db : Db) : Prop := map_Forall (λ _ j, is_Some (tasks db !! task_id j)) (jobs db).

#[local] Instance id_order_total {A} : Total (@id_order A).
Proof. intros a b. unfold id_order. lia. Qed.
#[local] Instance id_order_trans {A} : Transitive (@id_order A).
Proof. intros a b c. unfold id_order. lia. Qed.

Lemma rows_by_id_perm {A} (t : gmap Z A) : rows_by_id t ≡ₚ map_to_list t.
Proof. apply merge_sort_Permutation. Qed.

Lemma elem_of_rows_by_id {A} (t : gmap Z A) i x : (i, x) ∈ rows_by_id t ↔ t !! i = Some x.
Proof. by rewrite rows_by_id_perm, elem_of_map_to_list. Qed.

Lemma count_if_perm {A} (p : A → bool) l l' : l ≡ₚ l' → count_if p l = count_if p l'.
Proof. intros H. unfold count_if. by rewrite H. Qed.

Lemma count_if_ext {A} (p q : A → bool) l : (∀ x, p x = q x) → count_if p l = count_if q l.
Proof. intros H. induction l as [|x l IH]; [done|]. by rewrite !count_if_cons, IH, H. Qed.

Lemma count_if_fmap {A B} (f : A → B) (p : B → bool) l : count_if p (f <$> l) = count_if (p ∘ f) l.
Proof. induction l as [|x l IH]; [done|]. rewrite fmap_cons, !count_if_cons, IH. done. Qed.

(** When every task is known the join keeps every job. *)
Lemma joined_rows db : tasks_known db → listed_row <$> joined db = (rows_by_id (jobs db)).*2.
Proof.
  intros Hk. unfold joined. assert (∀ ij, ij ∈ rows_by_id (jobs db) → is_Some (tasks db !! task_id ij.2)) as H.
  { intros [i j] Hin%elem_of_rows_by_id. by apply (Hk i). }
  induction (rows_by_id (jobs db)) as [|[i j] l IH]; [done|]. cbn. unfold listed at 1.
  destruct (H (i, j)) as [t Ht]; [apply elem_of_cons; by left|]. cbn in Ht. rewrite Ht. cbn. f_equal.
  apply IH. intros. apply H. apply elem_of_cons. by right.
Qed.

(** The matching rows before paging. *)
Definition matching (now : Z) (args : ListJobsParams) (db : Db) : list ListedJob :=
  filter (λ l, admitted now args l = true) (joined db).

Definition state_only (s : JobState) (limit : Z) : ListJobsParams := mkParams s None None None limit 0.
Definition stat (s : JobState) (st : JobStats) : Z :=
  match s with All => total st | Ready => ready st | Scheduled => scheduled st | Locked => locked st | Failed => failed st end.

Lemma admitted_state now s n l : admitted now (state_only s n) l = in_state now s l.
Proof. unfold admitted, state_only, search_term. cbn. done. Qed.

Lemma stat_count now s db : stat s (get_stats now db) = count_rows (in_state now s) (jobs db).
Proof. by destruct s. Qed.

Lemma matching_length now s n db :
  tasks_known db → Z.of_nat (length (matching now (state_only s n) db)) = stat s (get_stats now db).
Proof.
  intros Hk. rewrite stat_count. unfold count_rows, matching. f_equal.
  rewrite (count_if_perm _ _ (rows_by_id (jobs db)).*2) by (by rewrite rows_by_id_perm).
  rewrite <- (joined_rows db Hk), count_if_fmap. unfold count_if. done.
Qed.

(** Every job is in exactly one state. *)
Lemma states_partition now j :
  Z.b2z (in_state now Ready j) + Z.b2z (in_state now Scheduled j) + Z.b2z (in_state now Locked j) + Z.b2z (in_state now Failed j) = 1.
Proof.
  unfold in_state. case_bool_decide; cbn; [|done].
  destruct (Z.ltb_spec (attempts j) (max_attempts j)), (Z.leb_spec (max_attempts j) (attempts j)); try lia; cbn; [|done].
  destruct (Z.leb_spec (run_at j) now), (Z.ltb_spec now (run_at j)); try lia; done.
Qed.

(** The overview and the lists agree.  The total is the sum of the four
    counts by state, and, every task being known, each count is the number of
    jobs the list shows for that state when nothing else is filtered and the
    limit does not cut it. *)
Theorem stats_match_lists now db :
  let st := get_stats now db in
  total st = ready st + scheduled st + locked st + failed st ∧
  (tasks_known db → ∀ s n, stat s st ≤ n →
     ∃ js, list_jobs now None (state_only s n) db = Ok js ∧ Z.of_nat (length js) = stat s st).
Proof.
  intros st. split.
  - unfold st, get_stats, count_rows. cbn. induction (map_to_list (jobs db)).*2 as [|j l IH]; [done|].
    rewrite !count_if_cons. pose proof (states_partition now j).
    destruct (in_state now Ready j), (in_state now Scheduled j), (in_state now Locked j), (in_state now Failed j); cbn in *; lia.
  - intros Hk s n Hn. unfold st in *. rewrite <- (matching_length now s n db Hk) in *. exists (matching now (state_only s n) db).
    split; [|done]. unfold list_jobs. cbn. destruct (Z.ltb_spec n 0); [lia|]. f_equal. rewrite drop_0. apply take_ge. unfold matching in *. lia.
Qed.

(** ** Paging *)

Lemma Sorted_rows_by_id {A} (t : gmap Z A) : StronglySorted (λ a b, a.1 < b.1) (rows_by_id t).
Proof.
  pose proof (StronglySorted_merge_sort (@id_order A) (map_to_list t)) as Hs. fold (rows_by_id t) in Hs.
  assert (NoDup (rows_by_id t).*1) as Hn by (rewrite rows_by_id_perm; apply NoDup_fst_map_to_list).
  induction Hs as [|a l Hs IH Ha]; [constructor|]. cbn in Hn. apply NoDup_cons in Hn as [Hna Hn]. constructor; [by apply IH|].
  apply Forall_forall. intros b Hb. pose proof (proj1 (Forall_forall _ _) Ha b Hb) as Hle. unfold id_order in Hle.
  assert (a.1 ≠ b.1); [|lia]. intros E. apply Hna. rewrite E. by apply list_elem_of_fmap_2.
Qed.

Lemma joined_sorted db : keyed db → StronglySorted (λ a b : ListedJob, id a < id b) (joined db).
Proof.
  intros Hk. pose proof (Sorted_rows_by_id (jobs db)) as Hs. unfold joined.
  assert (∀ ij, ij ∈ rows_by_id (jobs db) → id ij.2 = ij.1) as Hid by (intros [i j] Hin%elem_of_rows_by_id; by apply Hk).
  induction Hs as [|[i j] l Hs IH Ha]; [constructor|]. cbn. assert (∀ ij, ij ∈ l → id ij.2 = ij.1) as Hid'.
  { intros ij Hij. apply Hid. apply elem_of_cons. by right. }
  specialize (IH Hid'). unfold listed at 1. destruct (tasks db !! task_id j); cbn; [|done]. constructor; [done|].
  apply Forall_forall. intros x (ij & Hx & Hij)%list_elem_of_omap. pose proof (proj1 (Forall_forall _ _) Ha ij Hx) as Hlt. cbn in Hlt.
  unfold listed in Hij. destruct (tasks db !! task_id ij.2); [|done]. injection Hij as <-. cbn.
  rewrite (Hid' ij Hx). pose proof (Hid (i, j) ltac:(apply elem_of_cons; by left)) as E. cbn in E. lia.
Qed.

Definition page (args : ListJobsParams) (k : nat) (n : Z) : ListJobsParams :=
  mkParams (p_state args) (p_identifier args) (p_queue args) (p_search args) (p_limit args) (Z.of_nat k * n).

Fixpoint pages (now : Z) (max_limit : option Z) (args : ListJobsParams) (db : Db) (m : nat) : result (list ListedJob) AdminQueryError :=
  match m with
  | O => Ok []
  | S m => let? l := pages now max_limit args db m in
           let? r := list_jobs now max_limit (page args m (effective_limit max_limit args)) db in
           Ok (l ++ r)
  end.

Lemma take_plus {A} (l : list A) a b : take (a + b) l = take a l ++ take b (drop a l).
Proof. revert l. induction a as [|a IH]; intros [|x l]; cbn; try done; [by rewrite take_nil|]. by rewrite IH. Qed.

(** Paging neither repeats nor skips a job.  Asking for one page after the
    other, each starting where the one before ended, yields the matching jobs
    in strictly increasing id order, exactly those that satisfy the filters, cut
    after the number of pages asked for. *)
Theorem pages_cover_matches now max_limit args db :
  keyed db → 0 ≤ p_limit args → 0 ≤ effective_limit max_limit args →
  ∃ all, (∀ l, l ∈ all ↔ l ∈ joined db ∧ admitted now args l = true) ∧
    StronglySorted (λ a b : ListedJob, id a < id b) all ∧
    ∀ m, pages now max_limit args db m = Ok (take (m * Z.to_nat (effective_limit max_limit args)) all).
Proof.
  intros Hk Hl He. exists (matching now args db). split_and!.
  - intros l. unfold matching. rewrite list_elem_of_filter. tauto.
  - unfold matching. pose proof (joined_sorted db Hk) as Hs.
    induction Hs as [|a l Hs IH Ha]; [constructor|]. rewrite filter_cons. case_decide; [|done]. constructor; [done|].
    apply Forall_forall. intros b [_ Hb]%list_elem_of_filter. by apply (proj1 (Forall_forall _ _) Ha).
  - intros m. induction m as [|m IH]; [done|]. cbn [pages]. rewrite IH. unfold list_jobs at 1, page at 1 2 3 4 5. cbn.
    destruct (Z.ltb_spec (p_limit args) 0); [lia|]. destruct (Z.ltb_spec (Z.of_nat m * effective_limit max_limit args) 0); [lia|].
    f_equal. rewrite Z2Nat.inj_mul, Nat2Z.id by lia. fold (matching now (page args m (effective_limit max_limit args)) db).
    replace (matching now (page args m (effective_limit max_limit args)) db) with (matching now args db) by done.
    rewrite (Nat.add_comm (Z.to_nat _)), take_plus. done.
Qed.

End queries.

(** ** Workers that hold locks *)

Section workers.
Context (collate : relation str) `{!RelDecision collate}.

Definition pair_sum (w : str) (ps : list (str * Z)) : Z :=
  foldr (λ wn n, (if bool_decide (wn.1 = w) then wn.2 else 0) + n) 0 ps.

Lemma sum_of_app f w l1 l2 : sum_of f w (l1 ++ l2) = sum_of f w l1 + sum_of f w l2.
Proof. induction l1 as [|r l1 IH]; cbn; [done|]. unfold sum_of in *. rewrite IH. lia. Qed.

Lemma sum_of_pairs f (g : str * Z → str * Z * Z) w ps :
  (∀ wn, (g wn).1.1 = wn.1 ∧ f (g wn) = wn.2) → sum_of f w (g <$> ps) = pair_sum w ps.
Proof.
  intros H. induction ps as [|wn ps IH]; [done|]. cbn. unfold sum_of in IH. rewrite IH. destruct (H wn) as [-> ->]. done.
Qed.

Lemma sum_of_zero f (g : str * Z → str * Z * Z) w ps : (∀ wn, f (g wn) = 0) → sum_of f w (g <$> ps) = 0.
Proof. intros H. induction ps as [|wn ps IH]; [done|]. cbn. unfold sum_of in IH. rewrite IH, H. by case_bool_decide. Qed.

Definition holds (w : str) (x : option str) : bool := bool_decide (x = Some w).

Lemma elem_of_holders l w : w ∈ (holders l).*1 ↔ Some w ∈ l.
Proof.
  assert ((holders l).*1 = remove_dups (omap (λ x, x) l)) as ->.
  { unfold holders. induction (remove_dups (omap _ l)) as [|x ws IH]; [done|]. rewrite !fmap_cons, IH. done. }
  rewrite elem_of_remove_dups, list_elem_of_omap.
  split; [by intros (x & Hx & ->)|]. intros H. by exists (Some w).
Qed.

Lemma pair_sum_names (f : str → Z) w ws :
  NoDup ws → pair_sum w ((λ x, (x, f x)) <$> ws) = if bool_decide (w ∈ ws) then f w else 0.
Proof.
  induction ws as [|x ws IH]; intros Hn; [done|]. apply NoDup_cons in Hn as [Hx Hn]. rewrite fmap_cons. cbn. unfold pair_sum in IH. rewrite IH by done.
  destruct (decide (x = w)) as [->|Hne].
  - rewrite (bool_decide_eq_true_2 (w = w)), (bool_decide_eq_false_2 (w ∈ ws)), (bool_decide_eq_true_2 (w ∈ w :: ws)) by (done || apply elem_of_cons; by left). lia.
  - rewrite (bool_decide_eq_false_2 (x = w)) by done. cbn. rewrite (bool_decide_ext (w ∈ x :: ws) (w ∈ ws)); [done|].
    rewrite elem_of_cons. naive_solver.
Qed.

Lemma count_none w l : Some w ∉ l → count_if (holds w) l = 0%nat.
Proof.
  intros H. induction l as [|x l IH]; [done|]. rewrite elem_of_cons in H. rewrite count_if_cons, IH by tauto.
  unfold holds. rewrite bool_decide_eq_false_2; [done|]. intros ->. tauto.
Qed.

Lemma holders_sum l w : pair_sum w (holders l) = Z.of_nat (count_if (holds w) l).
Proof.
  etrans; [apply (pair_sum_names (λ w, Z.of_nat (count_if (holds w) l))), NoDup_remove_dups|].
  case_bool_decide as Hin; [done|]. rewrite count_none; [done|]. rewrite elem_of_remove_dups, list_elem_of_omap in Hin.
  intros H. apply Hin. by exists (Some w).
Qed.

(** The worker list is exact: a worker appears, once, exactly when it holds a
    job or a queue, with the number of jobs and of queues it holds. *)
Theorem locked_workers_exact db :
  let rows := list_locked_workers collate db in
  NoDup (worker_id <$> rows) ∧
  (∀ w, w ∈ worker_id <$> rows ↔ Some w ∈ job_owners db ∨ Some w ∈ queue_owners db) ∧
  (∀ r, r ∈ rows → locked_jobs r = Z.of_nat (count_if (holds (worker_id r)) (job_owners db)) ∧
                   locked_queues r = Z.of_nat (count_if (holds (worker_id r)) (queue_owners db))).
Proof.
  intros rows. set (names := remove_dups (fst ∘ fst <$> lock_rows db)).
  assert (rows ≡ₚ (λ w, mkLockedWorker w (Z.of_nat (count_if (holds w) (job_owners db))) (Z.of_nat (count_if (holds w) (queue_owners db)))) <$> names) as Hp.
  { unfold rows, list_locked_workers. rewrite merge_sort_Permutation. apply Permutation_refl'. apply list_fmap_ext. intros _ w _. f_equal.
    - unfold lock_rows. rewrite sum_of_app, (sum_of_pairs (λ r, r.1.2)), (sum_of_zero (λ r, r.1.2)), holders_sum by done. apply Z.add_0_r.
    - unfold lock_rows. rewrite sum_of_app, (sum_of_zero (λ r, r.2)), (sum_of_pairs (λ r, r.2)), holders_sum by done. done. }
  assert (worker_id <$> rows ≡ₚ names) as Hn.
  { rewrite Hp, <- list_fmap_compose. by rewrite list_fmap_id. }
  split_and!.
  - rewrite Hn. apply NoDup_remove_dups.
  - intros w. rewrite Hn. unfold names. rewrite elem_of_remove_dups. unfold lock_rows. rewrite fmap_app, elem_of_app, <- !list_fmap_compose.
    rewrite <- (elem_of_holders (job_owners db)), <- (elem_of_holders (queue_owners db)). exact (iff_refl _).
  - intros r Hr. rewrite Hp in Hr. apply list_elem_of_fmap in Hr as (w & -> & _). done.
Qed.

End workers.

(** ** The text of the list query *)

(** Which filters are present. *)
Definition same_filters (a b : ListJobsParams) : Prop :=
  (is_Some (non_empty (p_identifier a)) ↔ is_Some (non_empty (p_identifier b))) ∧
  (is_Some (non_empty (p_queue a)) ↔ is_Some (non_empty (p_queue b))) ∧
  (is_Some (search_term a) ↔ is_Some (search_term b)) ∧ p_state a = p_state b.

(** Pieces that differ in parameters only. *)
Definition alike (p q : Piece) : Prop :=
  match p, q with Push s, Push t => s = t | Bind _, Bind _ => True | _, _ => False end.

Lemma alike_sql n q q' : Forall2 alike q q' → sql_from n q = sql_from n q'.
Proof.
  intros H. revert n. induction H as [|p p' q q' Hp _ IH]; intros n; [done|].
  destruct p, p'; cbn in Hp; try done; cbn; rewrite IH; congruence.
Qed.

Lemma alike_option {o o' : option str} (f : str → list Piece) :
  (is_Some o ↔ is_Some o') → (∀ s s', Forall2 alike (f s) (f s')) →
  Forall2 alike (match o with Some s => f s | None => [] end) (match o' with Some s => f s | None => [] end).
Proof.
  intros H Hf. destruct o, o'; try done; [by destruct (proj1 H ltac:(by eexists))|by destruct (proj2 H ltac:(by eexists))].
Qed.

(** The parameters the query text refers to, in order. *)
Definition expected_arguments (max_limit : option Z) (args : ListJobsParams) : list Param :=
  match non_empty (p_identifier args) with Some i => [PText i] | None => [] end ++
  match non_empty (p_queue args) with Some q => [PText q] | None => [] end ++
  match search_term args with Some s => replicate 7 (PText (pattern s)) | None => [] end ++
  [PInt (effective_limit max_limit args); PInt (p_offset args)].

(** Nothing a user types becomes SQL.  The text of the list query depends
    only on the schema, on the state and on which filters are present, never on
    their contents; identifier, queue, search pattern, limit and offset are
    passed as parameters, in the order the text numbers them. *)
Theorem list_query_is_parameterized schema max_limit a b :
  same_filters a b →
  sql (list_jobs_query schema max_limit a) = sql (list_jobs_query schema max_limit b) ∧
  arguments (list_jobs_query schema max_limit a) = expected_arguments max_limit a.
Proof.
  intros (Hi & Hq & Hs & Hst). split.
  - apply alike_sql. unfold list_jobs_query, apply_job_filters. constructor; [done|].
    rewrite <- !app_assoc. apply Forall2_app; [by apply (alike_option (λ i, [Push _; Bind (PText i)])); [|intros; repeat constructor]|].
    apply Forall2_app; [by apply (alike_option (λ i, [Push _; Bind (PText i)])); [|intros; repeat constructor]|].
    apply Forall2_app; [|apply Forall2_app; [rewrite Hst; destruct (p_state b); repeat constructor|repeat constructor]].
    unfold apply_search_filter. apply (alike_option (λ s, flat_map (λ c, [Push c; Bind (PText (pattern s))]) search_columns ++ [Push (lit ")")])); [done|].
    intros s s'. apply Forall2_app; [|repeat constructor]. induction search_columns as [|c l IH]; [constructor|]. cbn. by repeat constructor.
  - unfold arguments, list_jobs_query, apply_job_filters, expected_arguments, apply_search_filter, apply_state_filter.
    destruct (non_empty (p_identifier a)), (non_empty (p_queue a)), (search_term a), (p_state a); reflexivity.
Qed.

(** ** Witnesses *)

Definition demo_row (i : Z) (owner : option str) : DbJob :=
  mkDbJob i None (Object []) 0 0 0 25 None 0 0 None 0 ((λ _, 0) <$> owner) owner None 1.
(** Two ready jobs and one that a worker holds. *)
Definition demo_db : Db :=
  mkDb {[1 := demo_row 1 None; 2 := demo_row 2 (Some (lit "w")); 3 := demo_row 3 None]} ∅ {[1 := lit "task"]} ∅ ∅ 4 1 2.
Definition demo_args : ListJobsParams := mkParams Ready (Some (lit "task")) None (Some (lit " a ")) 1 0.

Lemma stats_match_lists_witness :
  ∃ js, list_jobs (λ _ _, true) (λ _, []) 5 None (state_only Ready 10) demo_db = Ok js ∧ Z.of_nat (length js) = 2.
Proof.
  assert (tasks_known demo_db) as Hk by (apply map_Forall_to_list; vm_compute; repeat constructor; by eexists).
  apply (proj2 (stats_match_lists (λ _ _, true) (λ _, []) 5 demo_db) Hk Ready 10). vm_compute. discriminate.
Defined.

Lemma pages_cover_matches_witness :
  ∃ all, (∀ m, pages (λ _ _, true) (λ _, []) 5 (Some 500) demo_args demo_db m = Ok (take (m * 1) all)).
Proof.
  assert (keyed demo_db) as Hk by (apply map_Forall_to_list; vm_compute; repeat constructor).
  destruct (pages_cover_matches (λ _ _, true) (λ _, []) 5 (Some 500) demo_args demo_db Hk) as (all & _ & _ & H);
    [vm_compute; discriminate..|]. exists all. exact H.
Defined.

Lemma locked_workers_exact_witness : NoDup (worker_id <$> list_locked_workers (=) demo_db).
Proof. apply (locked_workers_exact (=) demo_db). Defined.

Lemma list_query_is_parameterized_witness :
  arguments (list_jobs_query (new_schema (lit "graphile_worker")) (Some 500) demo_args) =
  PText (lit "task") :: replicate 7 (PText (lit "%a%")) ++ [PInt 1; PInt 0].
Proof.
  exact (proj2 (list_query_is_parameterized (new_schema (lit "graphile_worker")) (Some 500) demo_args demo_args
    ltac:(by repeat split))).
Defined.

End AdminApi.
