(* ===== verification/Executor.v ===== *)
(** * Executors and transactions (crates/graphile-worker-database/src/database.rs,
    executor.rs, the transactions of its drivers; crates/graphile-worker-utils/src/
    client.rs, executor.rs, schedule.rs, management.rs)

    The calls of [WorkerUtils] are sequences of statements run on an executor:
    the pooled database, where each statement commits by itself and may be
    retried, or a transaction of the caller's.  A call is a program of
    statements; the trait [DbExecutorArg] is a type class with the pool and the
    transaction as instances, and a program runs on either.

    A statement may fail although it is valid: [Fault] says what the caller
    sees, whether the statement was applied nevertheless and whether the
    connection is lost.  After an error PostgreSQL refuses everything in a
    transaction until it ends, and a COMMIT then rolls back and reports success.
    [now()] is the time of a transaction's start.  Sequences are not rolled
    back.  What other sessions do meanwhile is not part of this file. *)

From S2P Require Import Prelude Job Database FlagFilter JobStore JobRelease Hooks AddJob WorkerUtils AdminApi.
Open Scope Z_scope.

Module Executor.
Import Job Database FlagFilter JobStore JobRelease Hooks AddJob.

(** ** executor.rs: statements and programs *)

(** A statement at a time: the tables and its answer, or its rejection. *)
Definition Statement (B : Type) : Type := Z → Db → result (Db * B) SqlError.

Inductive Prog (A : Type) : Type :=
| Done (a : A)
| Stmt {B : Type} (s : Statement B) (k : result B DbError → Prog A).
Arguments Done {A} a.
Arguments Stmt {A B} s k.

(** The trait [DbExecutorArg]. *)
Class DbExecutor (E : Type) := execute : ∀ {B}, Statement B → E → E * result B DbError.

Fixpoint run {E} `{!DbExecutor E} {A} (p : Prog A) (e : E) : E * A :=
  match p with
  | Done a => (e, a)
  | Stmt s k => let '(e, r) := execute s e in run (k r) e
  end.

(** What can go wrong with a valid statement.  A local fault is the client's own
    and does not fail the transaction: a parameter that cannot be encoded, or a
    row of the answer that cannot be decoded. *)
Record Fault := mkFault { f_error : DbError; f_applied : bool; f_disconnects : bool; f_local : bool }.

(** The error of a rejected statement: its SQLSTATE. *)
Definition sql_state (e : SqlError) : str :=
  match e with
  | NegativeLimit => lit "2201W"
  | CheckViolation => lit "23514"
  | AffectsRowTwice => lit "21000"
  | UniqueViolation => lit "23505"
  | UnableToSchedule => lit "GWNOR"
  | InvalidJobKeyMode => lit "GWBKM"
  end.
Definition in_failed_transaction : DbError :=
  with_code (lit "current transaction is aborted, commands ignored until end of transaction block") (lit "25P02").
Definition connection_closed : DbError := new_error (lit "connection closed").

Section executors.
(** The texts of rejections; the clock and the fault at each statement. *)
Context (sql_message : SqlError → str) (clock : nat → Z) (faults : nat → option Fault).

Definition sql_error (e : SqlError) : DbError := with_code (sql_message e) (sql_state e).

(** ** database.rs: the pool *)

Record Pool := mkPool { p_tables : Db; p_step : nat; p_max_attempts : option nat }.

(** One execution of a statement in a transaction of its own. *)
Definition attempt {B} (s : Statement B) (e : Pool) : Pool * result B DbError :=
  let k := p_step e in
  let next := λ d, mkPool d (S k) (p_max_attempts e) in
  match faults k with
  | Some f =>
      (next (match s (clock k) (p_tables e) with
             | Ok (d, _) => if f_applied f then d else p_tables e
             | Err _ => p_tables e
             end), Err (f_error f))
  | None =>
      match s (clock k) (p_tables e) with
      | Ok (d, b) => (next d, Ok b)
      | Err x => (next (p_tables e), Err (sql_error x))
      end
  end.

(** [SqlRetryPolicy::run], with [n] retries left. *)
Fixpoint attempts {B} (s : Statement B) (n : nat) (e : Pool) : Pool * result B DbError :=
  let '(e', r) := attempt s e in
  match n, r with
  | S n, Err err => if backoff err then attempts s n e' else (e', r)
  | _, _ => (e', r)
  end.

#[export] Instance pool_executor : DbExecutor Pool := λ B s e,
  attempts s (match p_max_attempts e with Some n => n - 1 | None => 0 end) e.

(** ** Transactions *)

Inductive TxStatus := Active | Aborted | Gone.
#[export] Instance TxStatus_eq_dec : EqDecision TxStatus.
Proof. solve_decision. Defined.

(** [t_base]: the tables at its start; [t_work]: with its statements. *)
Record Tx := mkTx { t_base : Db; t_work : Db; t_status : TxStatus; t_start : Z; t_step : nat }.

Definition begin (k : nat) (d : Db) : Tx := mkTx d d Active (clock k) (S k).

#[export] Instance tx_executor : DbExecutor Tx := λ B s e,
  let next := λ d st, mkTx (t_base e) d st (t_start e) (S (t_step e)) in
  match t_status e with
  | Gone => (next (t_work e) Gone, Err connection_closed)
  | Aborted => (next (t_work e) Aborted, Err in_failed_transaction)
  | Active =>
      match faults (t_step e) with
      | Some f =>
          if f_local f then
            if f_applied f then
              match s (t_start e) (t_work e) with
              | Ok (d, _) => (next d Active, Err (f_error f))
              | Err x => (next (t_work e) Aborted, Err (sql_error x))
              end
            else (next (t_work e) Active, Err (f_error f))
          else (next (t_work e) (if f_disconnects f then Gone else Aborted), Err (f_error f))
      | None =>
          match s (t_start e) (t_work e) with
          | Ok (d, b) => (next d Active, Ok b)
          | Err x => (next (t_work e) Aborted, Err (sql_error x))
          end
      end
  end.

(** The rows of one state with the sequences of another. *)
Definition with_sequences (rows seqs : Db) : Db :=
  mkDb (jobs rows) (job_queues rows) (tasks rows) (workers rows) (retirements rows)
    (jobs_seq seqs) (queues_seq seqs) (tasks_seq seqs).

(** Dropping a transaction. *)
Definition rollback (e : Tx) : Db := with_sequences (t_base e) (t_work e).

(** [DbTransaction::commit]; a failed one is dropped, a lost reply may have
    been applied. *)
Definition commit (e : Tx) : Db * result unit DbError :=
  match t_status e with
  | Gone => (rollback e, Err connection_closed)
  | Aborted =>
      (rollback e, match faults (t_step e) with Some f => Err (f_error f) | None => Ok () end)
  | Active =>
      match faults (t_step e) with
      | Some f => (if f_applied f then t_work e else rollback e, Err (f_error f))
      | None => (t_work e, Ok ())
      end
  end.
End executors.

(** ** Running without faults *)

(** The reference executor: statements one after the other at one time. *)
Record Ideal := mkIdeal { i_tables : Db }.
Definition ideal_executor (sql_message : SqlError → str) (now : Z) : DbExecutor Ideal := λ B s e,
  match s now (i_tables e) with
  | Ok (d, b) => (mkIdeal d, Ok b)
  | Err x => (e, Err (sql_error sql_message x))
  end.
Definition run_ideal (sql_message : SqlError → str) (now : Z) {A} (p : Prog A) (d : Db) : Db * A :=
  let '(e, a) := run (DbExecutor0 := ideal_executor sql_message now) p (mkIdeal d) in (i_tables e, a).

(** ** client.rs, executor.rs, schedule.rs, management.rs: the calls *)

Record Utils := mkUtils {
  u_hooks : option (option (list ScheduleHook));
  u_task_details : TaskDetails;
  u_use_local_time : bool
}.
Definition utils_new : Utils := mkUtils None ∅ false.
Definition with_hooks (h : option (list ScheduleHook)) (u : Utils) : Utils :=
  mkUtils (Some h) (u_task_details u) (u_use_local_time u).
Definition with_task_details (td : TaskDetails) (u : Utils) : Utils := mkUtils (u_hooks u) td (u_use_local_time u).
Definition with_use_local_time (b : bool) (u : Utils) : Utils := mkUtils (u_hooks u) (u_task_details u) b.

Inductive CallError :=
| Refused (e : GraphileWorkerError)      (* before any statement *)
| DatabaseError (e : DbError).

Inductive Answer :=
| AJob (j : Job) | AJobs (js : list Job) | ADbJobs (js : list DbJob)
| AWorkers (ws : list AdminApi.ActiveWorkerRow) | AUnit.

(** [None]: a hook answered with a value of the wrong type, and the call
    panics. *)
Definition Reply : Type := option (result Answer CallError).

Definition answer (a : Answer) : Prog Reply := Done (Some (Ok a)).
Definition refuse (e : GraphileWorkerError) : Prog Reply := Done (Some (Err (Refused e))).

(** A statement and [?]. *)
Definition query {B} (s : Statement B) (k : B → Prog Reply) : Prog Reply :=
  Stmt s (λ r, match r with Ok b => k b | Err e => Done (Some (Err (DatabaseError e))) end).

(** What the hooks make of the payloads. *)
Definition hooked {V} (r : option (result V GraphileWorkerError)) (k : V → Prog Reply) : Prog Reply :=
  match r with None => Done None | Some (Err e) => refuse e | Some (Ok v) => k v end.

(** A statement that only changes the tables. *)
Definition change (f : Z → Db → Db) : Statement unit := λ now d, Ok (f now d, ()).

Inductive UtilsCall :=
| AddRawJob (identifier : str) (v : Value) (spec : JobSpec)
| AddBatchJob (identifier : str) (vs : list Value) (spec : JobSpec)
| AddJobs (identifier : str) (js : list (Value * JobSpec))
| AddRawJobs (js : list (str * Value * JobSpec))
| RemoveJob (k : str)
| CompleteJobs (ids : list Z)
| PermanentlyFailJobs (ids : list Z) (reason : str)
| RescheduleJobs (ids : list Z) (o : RescheduleJobOptions)
| ListActiveWorkers (threshold : Z)
| ForceUnlockWorkers (ws : list str).

Section calls.
(** The trace of the caller, its clock, and the order rows come back in. *)
Context (trace : option Value) (local_now : Z) (arrange : list DbJob → list DbJob) (u : Utils).

Definition default_run_at : option Z := if u_use_local_time u then Some local_now else None.

Definition insert_job (identifier : str) (spec : JobSpec) (payload : Value) : Prog Reply :=
  query (λ now d, sql_add_job (spec_row trace default_run_at identifier payload spec)
                    (job_key_mode_to_string <$> spec_job_key_mode spec) now d)
    (λ row, answer (AJob (from_db_job row identifier))).

Definition insert_jobs (js : list JobToAdd) (td : TaskDetails) (preserve : bool) (k : list Job → Prog Reply) : Prog Reply :=
  if is_empty js then k []
  else match validate_batch_job_key_modes js with
       | Err e => refuse e
       | Ok _ =>
           query (λ now d, sql_add_jobs (build_batch_specs js default_run_at trace) preserve now d)
             (λ rows, k ((λ r, from_db_job r (get_or_empty td (id r) (task_id r))) <$> rows))
       end.

(** [analyze] changes no row, and its error is only logged. *)
Definition analyze (count : nat) (k : Prog Reply) : Prog Reply :=
  if WorkerUtils.analyze_jobs_after_large_batch (Z.of_nat count) then Stmt (change (λ _ d, d)) (λ _, k) else k.

Definition tasks_details (names : list str) (k : TaskDetails → Prog Reply) : Prog Reply :=
  if is_empty names then k ∅
  else query (λ _ d, let? d := WorkerUtils.register_names names d in Ok (d, ()))
         (λ _, query (λ _ d, Ok (d, WorkerUtils.select_details names d)) k).

Definition managed_rows (ids : list Z) (now : Z) (d : Db) : list DbJob :=
  arrange (rows_where (λ i j, bool_decide (i ∈ ids) && manageable now j) (jobs d)).

Definition call_prog (c : UtilsCall) : Prog Reply :=
  match c with
  | AddRawJob identifier v spec =>
      hooked (invoke_before_job_schedule (u_hooks u) identifier v spec) (insert_job identifier spec)
  | AddBatchJob identifier vs spec =>
      hooked (batch_payload (u_hooks u) identifier vs spec) (insert_job identifier spec)
  | AddJobs identifier js =>
      if is_empty js then answer (AJobs [])
      else hooked (prepare_batch_jobs (u_hooks u) ((λ j, (identifier, j.1, j.2)) <$> js))
             (λ '(js', preserve), insert_jobs js' (u_task_details u) preserve
                (λ rows, analyze (length js) (answer (AJobs rows))))
  | AddRawJobs js =>
      if is_empty js then answer (AJobs [])
      else hooked (prepare_batch_jobs (u_hooks u) js)
             (λ '(js', preserve), tasks_details (unique_identifiers ((λ j, j.1.1) <$> js))
                (λ td, insert_jobs js' td preserve (λ rows, analyze (length js) (answer (AJobs rows)))))
  | RemoveJob k => query (change (remove_job k)) (λ _, answer AUnit)
  | CompleteJobs ids =>
      query (λ now d, Ok (complete_jobs ids now d, managed_rows ids now d)) (λ rows, answer (ADbJobs rows))
  | PermanentlyFailJobs ids reason =>
      query (λ now d, Ok (permanently_fail_jobs ids reason now d, exhaust now reason <$> managed_rows ids now d))
        (λ rows, answer (ADbJobs rows))
  | RescheduleJobs ids o =>
      query (λ now d, let? d' := reschedule_jobs ids o now d in Ok (d', reschedule o now <$> managed_rows ids now d))
        (λ rows, answer (ADbJobs rows))
  | ListActiveWorkers threshold =>
      query (λ now d, Ok (d, AdminApi.list_active_workers threshold now d)) (λ ws, answer (AWorkers ws))
  | ForceUnlockWorkers ws => query (change (λ _, force_unlock_workers ws)) (λ _, answer AUnit)
  end.

Fixpoint calls {E} `{!DbExecutor E} (cs : list UtilsCall) (e : E) : E * list Reply :=
  match cs with
  | [] => (e, [])
  | c :: cs =>
      let '(e, r) := run (call_prog c) e in
      let '(e, rs) := calls cs e in (e, r :: rs)
  end.
End calls.

(** [WorkerUtils] runs its calls on the pool; [WorkerUtilsWithExecutor] holds
    an executor of the caller's. *)
Record WithExecutor (E : Type) := mkWithExecutor { we_utils : Utils; we_executor : E }.
Arguments mkWithExecutor {E}.
Arguments we_utils {E}.
Arguments we_executor {E}.
Definition with_executor {E} (u : Utils) (e : E) : WithExecutor E := mkWithExecutor u e.
Definition into_inner {E} (w : WithExecutor E) : Utils := we_utils w.
Definition call_with {E} `{!DbExecutor E} (trace : option Value) (local_now : Z) (arrange : list DbJob → list DbJob)
    (c : UtilsCall) (w : WithExecutor E) : WithExecutor E * Reply :=
  let '(e, r) := run (call_prog trace local_now arrange (we_utils w) c) (we_executor w) in
  (mkWithExecutor (we_utils w) e, r).

(** A call of [WorkerUtils] itself: each of its statements on the pool. *)
Definition pool_call (sql_message : SqlError → str) (clock : nat → Z) (faults : nat → option Fault)
    (trace : option Value) (local_now : Z) (arrange : list DbJob → list DbJob) (u : Utils) (c : UtilsCall) (p : Pool) :
    Pool * Reply :=
  run (DbExecutor0 := pool_executor sql_message clock faults) (call_prog trace local_now arrange u c) p.

(** ** Retries *)

(** An error that is retried means that the statement was not applied: the
    server aborted it, or it was never sent. *)
Definition safe_faults (faults : nat → option Fault) : Prop :=
  ∀ k f, faults k = Some f → f_applied f = true → backoff (f_error f) = None.

Section retries.
Context (sql_message : SqlError → str) (clock : nat → Z) (faults : nat → option Fault).
#[local] Existing Instance pool_executor.
#[local] Existing Instance tx_executor.

Lemma rejected_not_retried x : backoff (sql_error sql_message x) = None.
Proof. by destruct x. Qed.

Lemma attempt_spec {B} (s : Statement B) e e' r : attempt sql_message clock faults s e = (e', r) →
  p_step e' = S (p_step e) ∧ p_max_attempts e' = p_max_attempts e ∧
  match r with
  | Ok b => ∃ t, s t (p_tables e) = Ok (p_tables e', b)
  | Err err => p_tables e' = p_tables e ∨
      (∃ f, faults (p_step e) = Some f ∧ f_applied f = true ∧ err = f_error f) ∧
      ∃ t b, s t (p_tables e) = Ok (p_tables e', b)
  end.
Proof.
  unfold attempt. destruct (faults (p_step e)) as [f|] eqn:Ef; cbn.
  - destruct (s (clock (p_step e)) (p_tables e)) as [[d b]|x] eqn:Es; intros [= <- <-]; cbn; [|by auto].
    destruct (f_applied f) eqn:Ea; [|by auto]. split_and!; [done..|]. right. split; [by exists f|by eauto].
  - destruct (s (clock (p_step e)) (p_tables e)) as [[d b]|x] eqn:Es; intros [= <- <-]; cbn; eauto.
Qed.

Lemma attempts_spec {B} (s : Statement B) n e e' r : safe_faults faults →
  attempts sql_message clock faults s n e = (e', r) →
  (p_step e < p_step e' ≤ p_step e + n + 1)%nat ∧
  match r with
  | Ok b => ∃ t, s t (p_tables e) = Ok (p_tables e', b)
  | Err err => p_tables e' = p_tables e ∨ backoff err = None ∧ ∃ t b, s t (p_tables e) = Ok (p_tables e', b)
  end.
Proof.
  intros Hsafe. revert e. induction n as [|n IH]; intros e; cbn [attempts];
    destruct (attempt sql_message clock faults s e) as [e1 r1] eqn:E1; apply attempt_spec in E1 as (Hk & _ & H1).
  - destruct r1 as [b|err]; intros [= <- <-].
    + split; [lia|done].
    + split; [lia|]. destruct H1 as [H1|[(f & Hf & Ha & ->) H1]]; [by left|].
      right. split; [by eapply Hsafe|done].
  - destruct r1 as [b|err]; [intros [= <- <-]; split; [lia|done]|].
    destruct (backoff err) as [w|] eqn:Eb.
    + intros [Hk' Hr]%IH. destruct H1 as [H1|[(f & Hf & Ha & ->) _]].
      * rewrite H1 in Hr. split; [lia|done].
      * by rewrite (Hsafe _ _ Hf Ha) in Eb.
    + intros [= <- <-]. split; [lia|]. destruct H1 as [H1|[_ H1]]; [by left|by right].
Qed.

(** A pooled statement under the retry policy is applied at most once, if the
    errors the policy retries are those of statements that were not applied: an
    answer means it was applied exactly once, an error at most once, and an
    error that could have been retried means not at all.  The number of
    executions is within the limit. *)
Theorem retries_apply_once {B} (s : Statement B) e e' r : safe_faults faults →
  execute (DbExecutor := pool_executor sql_message clock faults) s e = (e', r) →
  (p_step e < p_step e' ≤ p_step e + Nat.max 1 (default 1%nat (p_max_attempts e)))%nat ∧
  match r with
  | Ok b => ∃ t, s t (p_tables e) = Ok (p_tables e', b)
  | Err err => p_tables e' = p_tables e ∨ backoff err = None ∧ ∃ t b, s t (p_tables e) = Ok (p_tables e', b)
  end.
Proof.
  intros Hsafe [Hk Hr]%attempts_spec; [|done]. split; [|done]. destruct (p_max_attempts e); cbn in *; lia.
Qed.
End retries.

(** ** Transactions *)

(** Two states of the tables with the same rows. *)
Definition same_rows (d d' : Db) : Prop :=
  jobs d = jobs d' ∧ job_queues d = job_queues d' ∧ tasks d = tasks d' ∧ workers d = workers d' ∧
  retirements d = retirements d'.

Section transactions.
Context (sql_message : SqlError → str) (clock : nat → Z) (faults : nat → option Fault).
Context (trace : option Value) (local_now : Z) (arrange : list DbJob → list DbJob) (u : Utils).
Abbreviation tx := (tx_executor sql_message faults).
Abbreviation ideal now := (ideal_executor sql_message now).
Abbreviation prog := (call_prog trace local_now arrange u).
Abbreviation tx_calls := (calls (DbExecutor0 := tx) trace local_now arrange u).
(** The calls one after the other, without faults and at one time. *)
Definition ideal_calls (now : Z) (cs : list UtilsCall) (d : Db) : Db * list Reply :=
  let '(e, rs) := calls (DbExecutor0 := ideal now) trace local_now arrange u cs (mkIdeal d) in (i_tables e, rs).

(** No fault is the client's own. *)
Definition server_faults : Prop := ∀ n f, faults n = Some f → f_local f = false.

Lemma tx_execute_base {B} (s : Statement B) e : t_base (execute (DbExecutor := tx) s e).1 = t_base e ∧
  t_start (execute (DbExecutor := tx) s e).1 = t_start e.
Proof.
  unfold execute, tx_executor. destruct (t_status e); [destruct (faults (t_step e)) as [f|]|done..];
    [destruct (f_local f), (f_applied f)|]; try done; by destruct (s (t_start e) (t_work e)) as [[]|].
Qed.

Lemma tx_run_base {A} (p : Prog A) e :
  t_base (run (DbExecutor0 := tx) p e).1 = t_base e ∧ t_start (run (DbExecutor0 := tx) p e).1 = t_start e.
Proof.
  revert e. induction p as [a|B s k IH]; intros e; cbn [run]; [done|]. destruct (tx_execute_base s e) as [Hb Ht].
  destruct (execute s e) as [e1 r]. cbn [fst] in *. destruct (IH r e1) as [-> ->]. done.
Qed.

Lemma tx_calls_base cs e : t_base (tx_calls cs e).1 = t_base e ∧ t_start (tx_calls cs e).1 = t_start e.
Proof.
  revert e. induction cs as [|c cs IH]; intros e; cbn [calls]; [done|]. destruct (tx_run_base (prog c) e) as [Hb Ht].
  destruct (run (prog c) e) as [e1 r]. cbn [fst] in *. destruct (IH e1) as [Hb1 Ht1].
  destruct (tx_calls cs e1) as [e2 rs]. cbn [fst] in *. split; congruence.
Qed.

Lemma tx_run {A} (p : Prog A) e e' a : server_faults → run (DbExecutor0 := tx) p e = (e', a) →
  t_status e' = Active → t_status e = Active ∧
    run (DbExecutor0 := ideal (t_start e)) p (mkIdeal (t_work e)) = (mkIdeal (t_work e'), a).
Proof.
  intros Hsf. revert e. induction p as [a0|B s k IH]; intros e; cbn [run]; [by intros [= <- <-]|].
  destruct (execute s e) as [e1 r] eqn:E1. intros Hrun Hact.
  destruct (IH _ _ Hrun Hact) as [Ha Hi]. clear Hrun Hact. unfold execute, tx_executor in E1.
  destruct (t_status e) eqn:Es; [destruct (faults (t_step e)) as [f|] eqn:Ef|..];
    [rewrite (Hsf _ _ Ef) in E1|destruct (s (t_start e) (t_work e)) as [[d b]|x] eqn:Ex|..]; injection E1 as <- <-; cbn in *;
    try done; [by destruct (f_disconnects f)|].
  split; [done|]. unfold execute, ideal_executor. cbn. by rewrite Ex.
Qed.

Lemma tx_calls_spec cs e e' rs : server_faults → tx_calls cs e = (e', rs) →
  t_status e' = Active → t_status e = Active ∧
    calls (DbExecutor0 := ideal (t_start e)) trace local_now arrange u cs (mkIdeal (t_work e)) =
      (mkIdeal (t_work e'), rs).
Proof.
  intros Hsf. revert e rs. induction cs as [|c cs IH]; intros e rs; cbn [calls]; [by intros [= <- <-]|].
  pose proof (tx_run_base (prog c) e) as [_ Ht].
  destruct (run (prog c) e) as [e1 r] eqn:E1. cbn [fst] in Ht.
  destruct (tx_calls cs e1) as [e2 rs'] eqn:E2. intros [= <- <-] Hact.
  destruct (IH _ _ E2 Hact) as [Ha Hc]. destruct (tx_run _ _ _ _ Hsf E1 Ha) as [He Hr]. split; [done|].
  rewrite Hr. rewrite Ht in Hc. by rewrite Hc.
Qed.

(** Programs in which an error ends the call. *)
Definition failed (r : Reply) : Prop := ∃ e, r = Some (Err e).
Inductive strict : Prog Reply → Prop :=
| strict_done r : strict (Done r)
| strict_stmt {B} (s : Statement B) k :
    (∀ e, ∃ r, k (Err e) = Done r ∧ failed r) → (∀ b, strict (k (Ok b))) → strict (Stmt s k).

Lemma strict_query {B} (s : Statement B) k : (∀ b, strict (k b)) → strict (query s k).
Proof. intros Hk. apply strict_stmt; [|done]. intros e. eexists. split; [done|by eexists]. Qed.

Lemma strict_hooked {V} (r : option (result V GraphileWorkerError)) k : (∀ v, strict (k v)) → strict (hooked r k).
Proof. intros Hk. destruct r as [[v|e]|]; [apply Hk|apply strict_done|apply strict_done]. Qed.

Lemma strict_insert_jobs js td preserve k : (∀ rows, strict (k rows)) →
  strict (insert_jobs trace local_now u js td preserve k).
Proof.
  intros Hk. unfold insert_jobs. destruct (is_empty js); [done|].
  destruct (validate_batch_job_key_modes js); [apply strict_query; intros; apply Hk|apply strict_done].
Qed.

(** Batches too small to be followed by [analyze]. *)
Definition batch_size (c : UtilsCall) : nat :=
  match c with AddJobs _ js => length js | AddRawJobs js => length js | _ => O end.
Definition small (c : UtilsCall) : Prop := Z.of_nat (batch_size c) < WorkerUtils.BULK_INSERT_ANALYZE_THRESHOLD.

Lemma analyze_small n k : Z.of_nat n < WorkerUtils.BULK_INSERT_ANALYZE_THRESHOLD → analyze n k = k.
Proof.
  intros Hn. unfold analyze, WorkerUtils.analyze_jobs_after_large_batch.
  destruct (Z.leb_spec WorkerUtils.BULK_INSERT_ANALYZE_THRESHOLD (Z.of_nat n)); [lia|done].
Qed.

Lemma call_strict c : small c → strict (prog c).
Proof.
  intros Hc. destruct c; cbn [call_prog];
    try (apply strict_query; intros; apply strict_done);
    try (apply strict_hooked; intros; apply strict_query; intros; apply strict_done);
    destruct (is_empty js); try apply strict_done; apply strict_hooked; intros [js' preserve].
  - apply strict_insert_jobs. intros rows. rewrite analyze_small by exact Hc. apply strict_done.
  - assert (∀ td, strict (insert_jobs trace local_now u js' td preserve (λ rows, analyze (length js) (answer (AJobs rows)))))
      as Hi. { intros td. apply strict_insert_jobs. intros rows. rewrite analyze_small by exact Hc. apply strict_done. }
    unfold tasks_details. destruct (is_empty _); [done|]. apply strict_query. intros _. apply strict_query, Hi.
Qed.

(** A call that did not fail met no fault. *)
Lemma strict_run p e e' r : strict p → t_status e = Active → run (DbExecutor0 := tx) p e = (e', r) →
  ¬ failed r → t_status e' = Active ∧
    run (DbExecutor0 := ideal (t_start e)) p (mkIdeal (t_work e)) = (mkIdeal (t_work e'), r).
Proof.
  intros Hp. revert e. induction Hp as [r0|B s k Herr Hok IH]; intros e He; cbn [run]; [by intros [= <- <-]|].
  assert (∀ e1 err, run (DbExecutor0 := tx) (k (Err err)) e1 = (e', r) → failed r) as Hfail.
  { intros e1 err. destruct (Herr err) as (r1 & -> & Hr1). cbn. by intros [= _ <-]. }
  unfold execute, tx_executor, ideal_executor. rewrite He. cbn [i_tables].
  destruct (faults (t_step e)) as [f|].
  - destruct (f_local f), (f_applied f); try destruct (s (t_start e) (t_work e)) as [[d b]|x];
      intros Hr Hn; by apply Hfail in Hr.
  - destruct (s (t_start e) (t_work e)) as [[d b]|x]; [|intros Hr Hn; by apply Hfail in Hr].
    intros Hr Hn. by destruct (IH _ _ (eq_refl : t_status (mkTx (t_base e) d Active (t_start e) (S (t_step e))) = Active) Hr Hn).
Qed.

Lemma strict_calls cs e e' rs : Forall small cs → t_status e = Active → tx_calls cs e = (e', rs) →
  (∀ r, r ∈ rs → ¬ failed r) → t_status e' = Active ∧
    calls (DbExecutor0 := ideal (t_start e)) trace local_now arrange u cs (mkIdeal (t_work e)) = (mkIdeal (t_work e'), rs).
Proof.
  revert e rs. induction cs as [|c cs IH]; intros e rs Hs He; cbn [calls]; [by intros [= <- <-]|].
  apply Forall_cons in Hs as [Hc Hs]. pose proof (tx_run_base (prog c) e) as [_ Ht].
  destruct (run (prog c) e) as [e1 r] eqn:E1. destruct (tx_calls cs e1) as [e2 rs'] eqn:E2. cbn [fst] in Ht.
  intros [= <- <-] Hall. apply strict_run in E1 as [Ha Hr]; [|by apply call_strict|done|apply Hall; set_solver].
  destruct (IH _ _ Hs Ha E2) as [Ha' Hc']; [intros r' Hr'; apply Hall; set_solver|].
  split; [done|]. rewrite Hr. rewrite Ht in Hc'. by rewrite Hc'.
Qed.

(** C29: calls made on a transaction's executor take effect together or not at
    all.  Dropping the transaction leaves the rows as they were.  Committing it
    does too, or leaves exactly what the calls do one after the other without
    faults at the time of its start, with the answers they gave, unless a fault
    was the client's own and left the transaction active.  Whatever the faults,
    when the commit succeeds and no call failed, they took effect, provided no
    batch is large enough to be followed by [analyze]. *)
Theorem transaction_all_or_nothing cs k d e rs d' r : tx_calls cs (begin clock k d) = (e, rs) →
  commit faults e = (d', r) →
  same_rows (rollback e) d ∧
  (server_faults → same_rows d' d ∨ ideal_calls (clock k) cs d = (d', rs)) ∧
  (r = Ok () → (∀ r, r ∈ rs → ¬ failed r) → Forall small cs → ideal_calls (clock k) cs d = (d', rs)).
Proof.
  intros Hcs Hcommit. pose proof (tx_calls_base cs (begin clock k d)) as [Hb _]. rewrite Hcs in Hb. cbn in Hb.
  assert (same_rows (rollback e) d) as Hroll. { unfold rollback, same_rows. rewrite Hb. done. }
  split; [done|]. unfold commit in Hcommit. split.
  - intros Hsf. assert (t_status e = Active → ideal_calls (clock k) cs d = (t_work e, rs)) as Hideal.
    { intros Ha. destruct (tx_calls_spec _ _ _ _ Hsf Hcs Ha) as [_ Hi]. unfold ideal_calls. cbn in Hi. by rewrite Hi. }
    destruct (t_status e) eqn:Es; [destruct (faults (t_step e)) as [f|]|..]; injection Hcommit as <- <-;
      try (by left); [destruct (f_applied f); [right|by left]|right]; by apply Hideal.
  - intros -> Hall Hsmall.
    destruct (strict_calls cs (begin clock k d) e rs Hsmall eq_refl Hcs Hall) as [Hst Hi].
    rewrite Hst in Hcommit. destruct (faults (t_step e)); [done|]. injection Hcommit as <-.
    unfold ideal_calls. cbn in Hi. by rewrite Hi.
Qed.

(** ** Calls and their effect *)

(** The effect of a call when nothing interferes, as the components describe
    it. *)
Definition call_effect (now : Z) (c : UtilsCall) (d : Db) : option (Db * result Answer GraphileWorkerError) :=
  let done d' a := Some (d', Ok a) in
  match c with
  | AddRawJob i v spec =>
      r ← WorkerUtils.add_raw_job trace local_now now (u_hooks u) (u_use_local_time u) i v spec d;
      Some (r.1, result_map AJob r.2)
  | AddBatchJob i vs spec =>
      r ← WorkerUtils.add_batch_job trace local_now now (u_hooks u) (u_use_local_time u) i vs spec d;
      Some (r.1, result_map AJob r.2)
  | AddJobs i js =>
      r ← WorkerUtils.add_jobs_of trace local_now now (u_hooks u) (u_use_local_time u) i js (u_task_details u) d;
      Some (r.1, result_map AJobs r.2)
  | AddRawJobs js =>
      r ← WorkerUtils.add_raw_jobs trace local_now now (u_hooks u) (u_use_local_time u) js d;
      Some (r.1, result_map AJobs r.2)
  | RemoveJob k => done (remove_job k now d) AUnit
  | CompleteJobs ids => done (complete_jobs ids now d) (ADbJobs (managed_rows arrange ids now d))
  | PermanentlyFailJobs ids reason =>
      done (permanently_fail_jobs ids reason now d) (ADbJobs (exhaust now reason <$> managed_rows arrange ids now d))
  | RescheduleJobs ids o =>
      match reschedule_jobs ids o now d with
      | Ok d' => done d' (ADbJobs (reschedule o now <$> managed_rows arrange ids now d))
      | Err e => Some (d, Err (SqlFailed e))
      end
  | ListActiveWorkers threshold => done d (AWorkers (AdminApi.list_active_workers threshold now d))
  | ForceUnlockWorkers ws => done (force_unlock_workers ws d) AUnit
  end.

Definition report (e : GraphileWorkerError) : CallError :=
  match e with SqlFailed x => DatabaseError (sql_error sql_message x) | _ => Refused e end.

Definition reported (d : Db) (r : option (Db * result Answer GraphileWorkerError)) : Db * Reply :=
  match r with Some (d', r) => (d', Some (map_err report r)) | None => (d, None) end.

Lemma ideal_done now d (r : Reply) : run_ideal sql_message now (Done r) d = (d, r).
Proof. done. Qed.

Lemma ideal_query {B} now d (s : Statement B) k :
  run_ideal sql_message now (query s k) d =
  match s now d with
  | Ok (d', b) => run_ideal sql_message now (k b) d'
  | Err x => (d, Some (Err (DatabaseError (sql_error sql_message x))))
  end.
Proof. unfold run_ideal. cbn. unfold execute, ideal_executor. cbn. by destruct (s now d) as [[d' b]|x]. Qed.

Lemma ideal_analyze now d n k : run_ideal sql_message now (analyze n k) d = run_ideal sql_message now k d.
Proof. unfold analyze. by destruct (WorkerUtils.analyze_jobs_after_large_batch _). Qed.

Lemma ideal_insert_job now d i spec v :
  run_ideal sql_message now (insert_job trace local_now u i spec v) d =
  match add_job trace local_now i v spec (u_use_local_time u) now d with
  | Ok (d', j) => (d', Some (Ok (AJob j)))
  | Err e => (d, Some (Err (report e)))
  end.
Proof.
  unfold insert_job, add_job, default_run_at. rewrite ideal_query.
  by destruct (sql_add_job _ _ now d) as [[d' row]|x].
Qed.

Lemma ideal_insert_jobs now d js td preserve n :
  run_ideal sql_message now
    (insert_jobs trace local_now u js td preserve (λ rows, analyze n (answer (AJobs rows)))) d =
  let '(d', r) := WorkerUtils.inserted trace local_now now (u_use_local_time u) js td preserve d in
  (d', Some (map_err report (result_map AJobs r))).
Proof.
  unfold insert_jobs, WorkerUtils.inserted, add_jobs, default_run_at. destruct (is_empty js); [by rewrite ideal_analyze|].
  destruct (validate_batch_job_key_modes js) as [[]|e] eqn:Ev.
  - rewrite ideal_query. destruct (sql_add_jobs _ preserve now d) as [[d' rows]|x]; [by rewrite ideal_analyze|done].
  - unfold validate_batch_job_key_modes in Ev. destruct (existsb _ _); [|done]. by injection Ev as <-.
Qed.

Lemma ideal_hooked {V} now d (r : option (result V GraphileWorkerError)) k
    (f : V → Db * result Answer GraphileWorkerError) :
  (∀ e, r = Some (Err e) → report e = Refused e) →
  (∀ v, run_ideal sql_message now (k v) d = let '(d', r) := f v in (d', Some (map_err report r))) →
  run_ideal sql_message now (hooked r k) d =
  reported d (r ← r; Some (match r with Err e => (d, Err e) | Ok v => f v end)).
Proof.
  intros He Hk. destruct r as [[v|e]|]; cbn; [|by rewrite (He e)|done]. rewrite Hk. by destruct (f v).
Qed.

Lemma hook_error hooks i v spec e : invoke_before_job_schedule hooks i v spec = Some (Err e) → report e = Refused e.
Proof.
  unfold invoke_before_job_schedule. destruct hooks as [h|]; [|done].
  destruct (intercept_schedule h _) as [[]|]; cbn; by intros [= <-].
Qed.

Lemma batch_error hooks i vs spec e : batch_payload hooks i vs spec = Some (Err e) → report e = Refused e.
Proof.
  unfold batch_payload. destruct (is_empty vs); [by intros [= <-]|].
  destruct (invoke_before_job_schedule _ _ _ _) as [[v|e']|] eqn:Ei; cbn; [|intros [= <-]; by eapply hook_error|done].
  destruct v as [| | | |[]|]; by intros [= <-].
Qed.

Lemma prepare_error hooks js e : prepare_batch_jobs hooks js = Some (Err e) → report e = Refused e.
Proof.
  induction js as [|[[i v] spec] js IH]; cbn; [done|].
  destruct (invoke_before_job_schedule _ _ _ _) as [[v'|e']|] eqn:Ei; cbn; [|intros [= <-]; by eapply hook_error|done].
  destruct (prepare_batch_jobs hooks js) as [[[more q]|e']|]; cbn; [done|intros [= <-]; by apply IH|done].
Qed.

Lemma ideal_tasks_details now d names k : is_empty names = false →
  run_ideal sql_message now (tasks_details names k) d =
  match get_tasks_details names d with
  | Ok (d', td) => run_ideal sql_message now (k td) d'
  | Err x => (d, Some (Err (DatabaseError (sql_error sql_message x))))
  end.
Proof.
  intros Hn. unfold tasks_details, get_tasks_details. rewrite Hn, ideal_query. unfold WorkerUtils.register_names.
  destruct (insert_names _ _ d) as [d'|x]; [|done]. by rewrite ideal_query.
Qed.

(** A single insertion after the hooks. *)
Lemma ideal_hooked_insert now d r i spec : (∀ e, r = Some (Err e) → report e = Refused e) →
  run_ideal sql_message now (hooked r (insert_job trace local_now u i spec)) d =
  reported d ((x ← r; Some (match x with
    | Err e => (d, Err e)
    | Ok v => match add_job trace local_now i v spec (u_use_local_time u) now d with
              | Ok (d', j) => (d', Ok j)
              | Err e => (d, Err e)
              end
    end)) ≫= λ x, Some (x.1, result_map AJob x.2)).
Proof.
  intros He. rewrite (ideal_hooked _ _ _ _ (λ v, match add_job trace local_now i v spec (u_use_local_time u) now d with
    | Ok (d', j) => (d', Ok (AJob j)) | Err e => (d, Err e) end)); [|done|].
  - by destruct r as [[v|]|]; cbn; [destruct (add_job _ _ _ _ _ _ _ _) as [[]|]|..].
  - intros v. rewrite ideal_insert_job. by destruct (add_job _ _ _ _ _ _ _ _) as [[]|].
Qed.

(** The answer of a batch. *)
Definition as_jobs (r : Db * result (list Job) GraphileWorkerError) : Db * result Answer GraphileWorkerError :=
  (r.1, result_map AJobs r.2).

Lemma unique_identifiers_nonempty (js : list (str * Value * JobSpec)) : is_empty js = false →
  is_empty (unique_identifiers ((λ j, j.1.1) <$> js)) = false.
Proof.
  destruct js as [|j js]; [done|]. intros _. destruct (unique_identifiers _) as [|n ns] eqn:En; [|done].
  assert (j.1.1 ∈ unique_identifiers ((λ j, j.1.1) <$> j :: js)) as Hin
    by (apply WorkerUtils.elem_of_unique_identifiers; left).
  rewrite En in Hin. by apply elem_of_nil in Hin.
Qed.

(** Run alone, every call of the utilities does, statement by statement, what
    the components say of it: the tables and the answer of the scheduling
    functions with their hooks, of the management functions of the schema and
    of the listing, their errors reported as the database's or the client's. *)
Theorem calls_refine now c d : run_ideal sql_message now (prog c) d = reported d (call_effect now c d).
Proof.
  destruct c; cbn [call_prog call_effect]; try (rewrite ideal_query; done).
  - apply ideal_hooked_insert. intros e. apply hook_error.
  - apply ideal_hooked_insert. intros e. apply batch_error.
  - unfold WorkerUtils.add_jobs_of. destruct (is_empty js); [done|].
    rewrite (ideal_hooked _ _ _ _ (λ '(js', preserve), as_jobs
      (WorkerUtils.inserted trace local_now now (u_use_local_time u) js' (u_task_details u) preserve d))).
    + by destruct (prepare_batch_jobs _ _) as [[[js' preserve]|]|].
    + intros e. apply prepare_error.
    + intros [js' preserve]. rewrite ideal_insert_jobs. by destruct (WorkerUtils.inserted _ _ _ _ _ _ _ _).
  - unfold WorkerUtils.add_raw_jobs. destruct (is_empty js) eqn:Ej; [done|].
    apply unique_identifiers_nonempty in Ej as Hn. set (names := unique_identifiers _) in *.
    rewrite (ideal_hooked _ _ _ _ (λ '(js', preserve), match get_tasks_details names d with
      | Err e => (d, Err (SqlFailed e))
      | Ok (d', td) => as_jobs (WorkerUtils.inserted trace local_now now (u_use_local_time u) js' td preserve d') end)).
    + destruct (prepare_batch_jobs _ _) as [[[js' preserve]|]|]; cbn; [|done..].
      by destruct (get_tasks_details names d) as [[d' td]|].
    + intros e. apply prepare_error.
    + intros [js' preserve]. rewrite ideal_tasks_details by done.
      destruct (get_tasks_details names d) as [[d' td]|]; [|done].
      rewrite ideal_insert_jobs. by destruct (WorkerUtils.inserted _ _ _ _ _ _ _ _).
  - rewrite ideal_query. by destruct (reschedule_jobs ids o now d).
Qed.

(** A large batch in a transaction whose [analyze] fails: the call reports its
    jobs and the commit succeeds, but PostgreSQL has rolled back, and none of
    them is there. *)
Theorem swallowed_analyze_loses_batch identifier js k d d1 rows f :
  ¬ small (AddJobs identifier js) →
  ideal_calls (clock k) [AddJobs identifier js] d = (d1, [Some (Ok (AJobs rows))]) →
  f_disconnects f = false → f_local f = false → (∀ n, faults n = if decide (n = S (S k)) then Some f else None) →
  ∃ e, tx_calls [AddJobs identifier js] (begin clock k d) = (e, [Some (Ok (AJobs rows))]) ∧
       (commit faults e).2 = Ok () ∧ same_rows (commit faults e).1 d.
Proof.
  intros Hlarge Hideal Hf Hloc Hfaults.
  assert (WorkerUtils.analyze_jobs_after_large_batch (Z.of_nat (length js)) = true) as Han.
  { unfold small, batch_size in Hlarge. apply Z.leb_le. lia. }
  unfold ideal_calls in Hideal. cbn [calls call_prog] in *.
  destruct js as [|j js]; [exfalso; by apply Hlarge|]. set (all := j :: js) in *. cbn [is_empty all] in *.
  destruct (prepare_batch_jobs _ _) as [[[js' p]|e]|] eqn:Ep; cbn [hooked] in *; [|by cbn in Hideal; simplify_eq..].
  apply WorkerUtils.prepare_identifiers in Ep. destruct js' as [|j' js']; [done|].
  unfold insert_jobs, analyze in *. rewrite Han in *. cbn [is_empty] in *.
  destruct (validate_batch_job_key_modes _); [|by cbn in Hideal; simplify_eq].
  cbn in *. unfold execute, tx_executor, ideal_executor in *. cbn in *.
  rewrite (Hfaults (S k)), decide_False by lia.
  destruct (sql_add_jobs _ p (clock k) d) as [[d2 raw]|]; cbn in *; [|by simplify_eq].
  rewrite (Hfaults (S (S k))), decide_True, Hloc, Hf by done. injection Hideal as <- <-.
  eexists. split; [done|]. unfold commit. cbn. by rewrite (Hfaults (S (S (S k)))), decide_False by lia.
Qed.
End transactions.

(** ** Witnesses *)

Definition quiet_message (_ : SqlError) : str := [].
(** A deadlock at the first statement, nothing later. *)
Definition deadlock : Fault := mkFault (with_code [] (lit "40P01")) false false false.
Definition one_deadlock (n : nat) : option Fault := match n with O => Some deadlock | _ => None end.
Definition ticking (n : nat) : Z := Z.of_nat n.
Definition demo_call : UtilsCall := AddRawJob (lit "task") Null default_spec.
Definition insert_demo : Statement DbJob := λ now d,
  sql_add_job (spec_row None None (lit "task") Null default_spec) None now d.

Lemma retries_apply_once_witness :
  ∃ e' b t, execute (DbExecutor := pool_executor quiet_message ticking one_deadlock) insert_demo
              (mkPool empty_db 0 (Some 3%nat)) = (e', Ok b) ∧
    insert_demo t empty_db = Ok (p_tables e', b) ∧ p_step e' = 2%nat.
Proof.
  destruct (execute (DbExecutor := pool_executor quiet_message ticking one_deadlock) insert_demo
    (mkPool empty_db 0 (Some 3%nat))) as [e' [b|err]] eqn:E; [|vm_compute in E; discriminate E].
  destruct (retries_apply_once quiet_message ticking one_deadlock insert_demo (mkPool empty_db 0 (Some 3%nat)) e' (Ok b))
    as [_ [t Ht]]; [|exact E|].
  - intros [|k] f; [|done]. by intros [= <-].
  - exists e', b, t. split_and!; [done..|]. vm_compute in E. by injection E as <- _.
Defined.

Lemma transaction_all_or_nothing_witness :
  ∃ e rs d', calls (DbExecutor0 := tx_executor quiet_message (λ _, None)) None 0 (λ l, l) utils_new
      [demo_call; RemoveJob (lit "k"); demo_call] (begin ticking 5 empty_db) = (e, rs) ∧
    commit (λ _, None) e = (d', Ok ()) ∧ size (jobs d') = 2%nat ∧
    ideal_calls quiet_message None 0 (λ l, l) utils_new 5 [demo_call; RemoveJob (lit "k"); demo_call] empty_db = (d', rs).
Proof.
  destruct (calls (DbExecutor0 := tx_executor quiet_message (λ _, None)) None 0 (λ l, l) utils_new
    [demo_call; RemoveJob (lit "k"); demo_call] (begin ticking 5 empty_db)) as [e rs] eqn:E.
  destruct (commit (λ _, None) e) as [d' r] eqn:Ec.
  assert (r = Ok () ∧ size (jobs d') = 2%nat ∧ ∀ x, x ∈ rs → ¬ failed x) as (-> & Hs & Hall).
  { vm_compute in E. injection E as <- <-. vm_compute in Ec. injection Ec as <- <-. split_and!; [done|by vm_compute|].
    intros x Hx [y ->]. repeat (apply elem_of_cons in Hx as [Hx|Hx]; [discriminate Hx|]). by apply elem_of_nil in Hx. }
  exists e, rs, d'. split_and!; [done..|].
  apply (transaction_all_or_nothing quiet_message ticking (λ _, None) None 0 (λ l, l) utils_new
    [demo_call; RemoveJob (lit "k"); demo_call] 5 empty_db e rs d' (Ok ()) E Ec); [done|exact Hall|].
  repeat constructor.
Defined.
End Executor.
