(* ===== verification/Drivers.v ===== *)
(** * Database drivers (crates/graphile-worker-database/src/sqlx,
    crates/graphile-worker-database/src/tokio_postgres)

    How the two drivers bind the parameters of a statement, run it on a
    connection of their pool, turn the rows of its answer into [DbRow]s and the
    errors of their libraries into [DbError]s.

    The libraries are parameters: an error is what the code observes of it (its
    text, its kind, the chain of its sources), a connection is what becomes of a
    statement sent on it, and the typed getters of a row are functions on the
    raw value of a column. *)

From S2P Require Import Prelude Job Database JobStore Executor.
Open Scope Z_scope.

Module Drivers.
Import Database.

(** ** error.rs: [connection_io_code] *)

Inductive IoKind := HostUnreachable | TimedOut | OtherKind.

(** An error of a chain: an I/O error with its kind, or any other. *)
Inductive Cause := IoError (k : IoKind) | NotIo.

(** The error itself first, then its sources. *)
Fixpoint connection_io_code (chain : list Cause) : option str :=
  match chain with
  | [] => None
  | IoError HostUnreachable :: _ => Some (lit "EHOSTUNREACH")
  | IoError TimedOut :: _ => Some (lit "ETIMEDOUT")
  | _ :: sources => connection_io_code sources
  end.

(** ** sqlx/driver.rs: errors *)

(** The variants of [sqlx::Error] the code tells apart. *)
Inductive SqlxKind := SDatabase (code : option str) | SPoolTimedOut | SOther.
Record SqlxError := mkSqlxError { sx_kind : SqlxKind; sx_display : str; sx_chain : list Cause }.

Definition from_sqlx (error : SqlxError) : DbError :=
  match sx_kind error with
  | SDatabase (Some code) => with_code (sx_display error) code
  | _ => new_error (sx_display error)
  end.

Definition acquisition_error (error : SqlxError) : DbError :=
  let code :=
    match sx_kind error with
    | SPoolTimedOut => Some (lit "ETIMEDOUT")
    | _ => connection_io_code (sx_chain error)
    end in
  match code with
  | Some code => connection_failure_error (sx_display error) code
  | None => from_sqlx error
  end.

(** ** tokio_postgres/executor.rs: errors *)

(** [pg_db]: the text and the SQLSTATE of [as_db_error]. *)
Record PgError := mkPgError { pg_db : option (str * str); pg_display : str; pg_chain : list Cause }.

Definition from_tokio (error : PgError) : DbError :=
  match pg_db error with
  | Some (text, code) => with_code (pg_display error ++ lit ": " ++ text) code
  | None => new_error (pg_display error)
  end.

Inductive PoolKind := PTimeout | PBackend (e : PgError) | POther.
Record PoolError := mkPoolError { po_kind : PoolKind; po_display : str; po_chain : list Cause }.

Definition from_pool (error : PoolError) : DbError :=
  match po_kind error with
  | PTimeout => connection_failure_error (po_display error) (lit "ETIMEDOUT")
  | k =>
      match connection_io_code (po_chain error) with
      | Some code => connection_failure_error (po_display error) code
      | None =>
          match k with
          | PBackend e => from_tokio e
          | _ => new_error (po_display error)
          end
      end
  end.

(** ** sqlx/params.rs, tokio_postgres/params.rs *)

(** What is sent for a parameter: a null of a type, or a value. *)
Inductive ArgType := TBool | TI16 | TI32 | TI64 | TJson | TText | TTextArray | TTimestampTz.
Inductive Arg :=
| ArgNull (t : ArgType)
| ArgBool (b : bool) | ArgI16 (n : Z) | ArgI32 (n : Z) | ArgI64 (n : Z)
| ArgJson (v : Job.Value) | ArgText (s : str) | ArgTextArray (l : list str)
| ArgI32Array (l : list Z) | ArgI64Array (l : list Z) | ArgTimestampTz (t : Z).

Definition opt_arg {T} (t : ArgType) (f : T → Arg) (v : option T) : Arg :=
  match v with Some x => f x | None => ArgNull t end.

(** A statement as [sqlx::query] builds it. *)
Record Query := mkQuery { q_sql : str; q_args : list Arg; q_persistent : bool }.

Definition bind (query : Query) (a : Arg) : Query :=
  mkQuery (q_sql query) (q_args query ++ [a]) (q_persistent query).
Definition persistent (b : bool) (query : Query) : Query := mkQuery (q_sql query) (q_args query) b.

Definition bind_value (query : Query) (value : DbValue) : Query :=
  match value with
  | Bool v => bind query (ArgBool v)
  | BoolOpt v => bind query (opt_arg TBool ArgBool v)
  | I16 v => bind query (ArgI16 v)
  | I16Opt v => bind query (opt_arg TI16 ArgI16 v)
  | I32 v => bind query (ArgI32 v)
  | I32Opt v => bind query (opt_arg TI32 ArgI32 v)
  | I64 v => bind query (ArgI64 v)
  | I64Opt v => bind query (opt_arg TI64 ArgI64 v)
  | Json v => bind query (ArgJson v)
  | JsonOpt v => bind query (opt_arg TJson ArgJson v)
  | Text v => bind query (ArgText v)
  | TextOpt v => bind query (opt_arg TText ArgText v)
  | TextArray v => bind query (ArgTextArray v)
  | TextArrayOpt v => bind query (opt_arg TTextArray ArgTextArray v)
  | I32Array v => bind query (ArgI32Array v)
  | I64Array v => bind query (ArgI64Array v)
  | TimestampTz v => bind query (ArgTimestampTz v)
  | TimestampTzOpt v => bind query (opt_arg TTimestampTz ArgTimestampTz v)
  end.

Definition bind_params (sql : str) (params : list DbValue) : Query :=
  foldl bind_value (mkQuery sql [] true) params.

Definition boxed_param (value : DbValue) : Arg :=
  match value with
  | Bool v => ArgBool v
  | BoolOpt v => opt_arg TBool ArgBool v
  | I16 v => ArgI16 v
  | I16Opt v => opt_arg TI16 ArgI16 v
  | I32 v => ArgI32 v
  | I32Opt v => opt_arg TI32 ArgI32 v
  | I64 v => ArgI64 v
  | I64Opt v => opt_arg TI64 ArgI64 v
  | Json v => ArgJson v
  | JsonOpt v => opt_arg TJson ArgJson v
  | Text v => ArgText v
  | TextOpt v => opt_arg TText ArgText v
  | TextArray v => ArgTextArray v
  | TextArrayOpt v => opt_arg TTextArray ArgTextArray v
  | I32Array v => ArgI32Array v
  | I64Array v => ArgI64Array v
  | TimestampTz v => ArgTimestampTz v
  | TimestampTzOpt v => opt_arg TTimestampTz ArgTimestampTz v
  end.

Definition boxed_params (params : list DbValue) : list Arg := boxed_param <$> params.

(** ** Rows *)

(** The typed getters [row.try_get::<Option<T>, _>] of a driver. *)
Record Getters (Raw E : Type) := mkGetters {
  get_bool : Raw → result (option bool) E;
  get_i16 : Raw → result (option Z) E;
  get_i32 : Raw → result (option Z) E;
  get_i64 : Raw → result (option Z) E;
  get_json : Raw → result (option Job.Value) E;
  get_text : Raw → result (option str) E;
  get_timestamp : Raw → result (option Z) E
}.
Arguments mkGetters {Raw E}.
Arguments get_bool {Raw E}.
Arguments get_i16 {Raw E}.
Arguments get_i32 {Raw E}.
Arguments get_i64 {Raw E}.
Arguments get_json {Raw E}.
Arguments get_text {Raw E}.
Arguments get_timestamp {Raw E}.

(** [tokio_postgres::types::Type]; the types without a case print their name. *)
Inductive PgType :=
| BOOL | INT2 | INT4 | INT8 | JSON | JSONB | TEXT | VARCHAR | BPCHAR | NAME | TIMESTAMPTZ
| OtherType (name : str).
#[export] Instance PgType_eq_dec : EqDecision PgType.
Proof. solve_decision. Defined.

(** [HashMap::insert]: a later column of the same name replaces it. *)
Definition cells_insert (name : str) (cell : DbCell) (cells : DbRow) : DbRow :=
  (name, cell) :: filter (λ kv, kv.1 ≠ name) cells.

Definition unsupported (other name : str) : DbError :=
  new_error (lit "unsupported PostgreSQL result type `" ++ other ++ lit "` for column `" ++ name ++ lit "`").

Section rows.
Context {Raw : Type}.

(** The loop over the columns of a row. *)
Fixpoint columns_loop {C} (name : C → str) (cell : C → result DbCell DbError) (columns : list C) (cells : DbRow) :
    result DbRow DbError :=
  match columns with
  | [] => Ok cells
  | c :: columns => let? v := cell c in columns_loop name cell columns (cells_insert (name c) v cells)
  end.

(** A getter, [?], and the cell or [Null]. *)
Definition get_cell {E T} (conv : E → DbError) (f : T → DbCell) (r : result (option T) E) : result DbCell DbError :=
  let? v := map_err conv r in Ok (opt_cell f v).

(** sqlx/rows.rs: a column is its name, the name of its type and its value. *)
Definition sqlx_cell (G : Getters Raw SqlxError) (column : str * str * Raw) : result DbCell DbError :=
  let '(name, type_name, raw) := column in
  if decide (type_name = lit "BOOL") then get_cell from_sqlx CBool (get_bool G raw)
  else if decide (type_name = lit "INT2") then get_cell from_sqlx CI16 (get_i16 G raw)
  else if decide (type_name = lit "INT4") then get_cell from_sqlx CI32 (get_i32 G raw)
  else if decide (type_name = lit "INT8") then get_cell from_sqlx CI64 (get_i64 G raw)
  else if decide (type_name ∈ [lit "JSON"; lit "JSONB"]) then get_cell from_sqlx CJson (get_json G raw)
  else if decide (type_name ∈ [lit "TEXT"; lit "VARCHAR"; lit "BPCHAR"; lit "NAME"]) then
    get_cell from_sqlx CText (get_text G raw)
  else if decide (type_name = lit "TIMESTAMPTZ") then get_cell from_sqlx CTimestampTz (get_timestamp G raw)
  else Err (unsupported type_name name).

Definition sqlx_row_to_db_row (G : Getters Raw SqlxError) (row : list (str * str * Raw)) : result DbRow DbError :=
  columns_loop (λ c, c.1.1) (sqlx_cell G) row [].

(** tokio_postgres/rows.rs *)
Definition tokio_cell (G : Getters Raw PgError) (column : str * PgType * Raw) : result DbCell DbError :=
  let '(name, type, raw) := column in
  match type with
  | BOOL => get_cell from_tokio CBool (get_bool G raw)
  | INT2 => get_cell from_tokio CI16 (get_i16 G raw)
  | INT4 => get_cell from_tokio CI32 (get_i32 G raw)
  | INT8 => get_cell from_tokio CI64 (get_i64 G raw)
  | JSON | JSONB => get_cell from_tokio CJson (get_json G raw)
  | TEXT | VARCHAR | BPCHAR | NAME => get_cell from_tokio CText (get_text G raw)
  | TIMESTAMPTZ => get_cell from_tokio CTimestampTz (get_timestamp G raw)
  | OtherType other => Err (unsupported other name)
  end.

Definition tokio_row_to_db_row (G : Getters Raw PgError) (row : list (str * PgType * Raw)) : result DbRow DbError :=
  columns_loop (λ c, c.1.1) (tokio_cell G) row [].

(** ** Running a statement *)

(** What becomes of a statement sent on a connection.  A failure may come
    after the server applied it. *)
Inductive Sent (E R : Type) := Answered (r : R) | Failed (applied : bool) (e : E).
Arguments Answered {E R} r.
Arguments Failed {E R} applied e.

(** sqlx/executor.rs *)
Record SqlxConn := mkSqlxConn {
  sqlx_run_execute : Query → Sent SqlxError Z;
  sqlx_run_fetch_all : Query → Sent SqlxError (list (list (str * str * Raw)))
}.

Definition execute_with_executor (executor : SqlxConn) (sql : str) (params : list DbValue) (prepared_statements : bool) :
    result Z DbError :=
  match sqlx_run_execute executor (persistent prepared_statements (bind_params sql params)) with
  | Answered affected => Ok affected
  | Failed _ e => Err (from_sqlx e)
  end.

Definition fetch_all_with_executor (G : Getters Raw SqlxError) (executor : SqlxConn) (sql : str) (params : list DbValue)
    (prepared_statements : bool) : result (list DbRow) DbError :=
  match sqlx_run_fetch_all executor (persistent prepared_statements (bind_params sql params)) with
  | Answered rows => collect_result (sqlx_row_to_db_row G <$> rows)
  | Failed _ e => Err (from_sqlx e)
  end.

(** [PgPool]: what [acquire] answers. *)
Definition SqlxPool : Type := result SqlxConn SqlxError.
Record SqlxDatabase := mkSqlxDatabase { sd_pool : SqlxPool; sd_prepared_statements : bool }.
Definition sqlx_database_new (pool : SqlxPool) : SqlxDatabase := mkSqlxDatabase pool true.
Definition with_prepared_statements (enabled : bool) (self : SqlxDatabase) : SqlxDatabase :=
  mkSqlxDatabase (sd_pool self) enabled.

Definition sqlx_execute (self : SqlxDatabase) (sql : str) (params : list DbValue) : result Z DbError :=
  let? connection := map_err acquisition_error (sd_pool self) in
  execute_with_executor connection sql params (sd_prepared_statements self).
Definition sqlx_fetch_all (G : Getters Raw SqlxError) (self : SqlxDatabase) (sql : str) (params : list DbValue) :
    result (list DbRow) DbError :=
  let? connection := map_err acquisition_error (sd_pool self) in
  fetch_all_with_executor G connection sql params (sd_prepared_statements self).

(** The pool itself as an executor of the library: it acquires on its own, and
    a failure to do so is an error like any other. *)
Definition pool_as_executor (pool : SqlxPool) : SqlxConn :=
  match pool with
  | Ok c => c
  | Err e => mkSqlxConn (λ _, Failed false e) (λ _, Failed false e)
  end.
Definition pg_pool_execute (pool : SqlxPool) (sql : str) (params : list DbValue) : result Z DbError :=
  execute_with_executor (pool_as_executor pool) sql params true.
Definition pg_pool_fetch_all (G : Getters Raw SqlxError) (pool : SqlxPool) (sql : str) (params : list DbValue) :
    result (list DbRow) DbError :=
  fetch_all_with_executor G (pool_as_executor pool) sql params true.

(** tokio_postgres/executor.rs *)
Record PgClient := mkPgClient {
  pg_run_execute : str → list Arg → Sent PgError Z;
  pg_run_query : str → list Arg → Sent PgError (list (list (str * PgType * Raw)))
}.

Definition execute_with_client (client : PgClient) (sql : str) (params : list DbValue) : result Z DbError :=
  match pg_run_execute client sql (boxed_params params) with
  | Answered affected => Ok affected
  | Failed _ e => Err (from_tokio e)
  end.
Definition fetch_all_with_client (G : Getters Raw PgError) (client : PgClient) (sql : str) (params : list DbValue) :
    result (list DbRow) DbError :=
  match pg_run_query client sql (boxed_params params) with
  | Answered rows => collect_result (tokio_row_to_db_row G <$> rows)
  | Failed _ e => Err (from_tokio e)
  end.

(** ** The handles a caller can pass as executor *)

(** The trait [DbExecutorArg]. *)
Class DbExecutorArg (G X : Type) := mkDbExecutorArg {
  arg_execute : X → str → list DbValue → result Z DbError;
  arg_fetch_all : G → X → str → list DbValue → result (list DbRow) DbError
}.

(** A transaction of the caller's is the connection it holds. *)
Record SqlxTx := mkSqlxTx { sqlx_tx_conn : SqlxConn }.
#[export] Instance sqlx_transaction_arg : DbExecutorArg (Getters Raw SqlxError) SqlxTx := {|
  arg_execute := λ tx sql params, execute_with_executor (sqlx_tx_conn tx) sql params true;
  arg_fetch_all := λ G tx sql params, fetch_all_with_executor G (sqlx_tx_conn tx) sql params true |}.
#[export] Instance sqlx_connection_arg : DbExecutorArg (Getters Raw SqlxError) SqlxConn := {|
  arg_execute := λ c sql params, execute_with_executor c sql params true;
  arg_fetch_all := λ G c sql params, fetch_all_with_executor G c sql params true |}.

#[export] Instance tokio_client_arg : DbExecutorArg (Getters Raw PgError) PgClient := {|
  arg_execute := execute_with_client;
  arg_fetch_all := fetch_all_with_client |}.

Record PgTransaction := mkPgTransaction { pg_tx_client : PgClient }.
#[export] Instance tokio_transaction_arg : DbExecutorArg (Getters Raw PgError) PgTransaction := {|
  arg_execute := λ tx, execute_with_client (pg_tx_client tx);
  arg_fetch_all := λ G tx, fetch_all_with_client G (pg_tx_client tx) |}.

(** Borrowed mutably, it is reborrowed. *)
Definition tokio_transaction_mut_arg : DbExecutorArg (Getters Raw PgError) PgTransaction := {|
  arg_execute := λ tx, execute_with_client (pg_tx_client tx);
  arg_fetch_all := λ G tx, fetch_all_with_client G (pg_tx_client tx) |}.

(** A client of the pool dereferences to the client of the library. *)
Record DeadClient := mkDeadClient { dead_client : PgClient }.
Definition execute_with_deadpool_client (client : DeadClient) (sql : str) (params : list DbValue) : result Z DbError :=
  match pg_run_execute (dead_client client) sql (boxed_params params) with
  | Answered affected => Ok affected
  | Failed _ e => Err (from_tokio e)
  end.
Definition fetch_all_with_deadpool_client (G : Getters Raw PgError) (client : DeadClient) (sql : str)
    (params : list DbValue) : result (list DbRow) DbError :=
  match pg_run_query (dead_client client) sql (boxed_params params) with
  | Answered rows => collect_result (tokio_row_to_db_row G <$> rows)
  | Failed _ e => Err (from_tokio e)
  end.
#[export] Instance deadpool_client_arg : DbExecutorArg (Getters Raw PgError) DeadClient := {|
  arg_execute := execute_with_deadpool_client;
  arg_fetch_all := fetch_all_with_deadpool_client |}.

(** What [pool.get] answers. *)
Definition DeadPool : Type := result DeadClient PoolError.
#[export] Instance deadpool_arg : DbExecutorArg (Getters Raw PgError) DeadPool := {|
  arg_execute := λ pool sql params,
    let? client := map_err from_pool pool in execute_with_deadpool_client client sql params;
  arg_fetch_all := λ G pool sql params,
    let? client := map_err from_pool pool in fetch_all_with_deadpool_client G client sql params |}.

(** [DbExecutor for TokioPostgresDatabase]; its pool alone matters here. *)
Record TokioPostgresDatabase := mkTokioPostgresDatabase { td_pool : DeadPool; td_has_listener : bool }.
Definition tokio_database_new (pool : DeadPool) : TokioPostgresDatabase := mkTokioPostgresDatabase pool false.
Definition tokio_execute (self : TokioPostgresDatabase) (sql : str) (params : list DbValue) : result Z DbError :=
  let? client := map_err from_pool (td_pool self) in execute_with_deadpool_client client sql params.
Definition tokio_fetch_all (G : Getters Raw PgError) (self : TokioPostgresDatabase) (sql : str) (params : list DbValue) :
    result (list DbRow) DbError :=
  let? client := map_err from_pool (td_pool self) in fetch_all_with_deadpool_client G client sql params.

(** ** sqlx/transaction.rs, tokio_postgres/mod.rs, tokio_postgres/transaction.rs *)

(** What is sent on the connection of a transaction. *)
Inductive Command := CBegin | CStatement (sql : str) (args : list Arg) | CCommit | CRollback.

Definition already_committed : DbError := new_error (lit "transaction has already been committed").

(** The connection it holds until its commit, and what was sent on it. *)
Record DriverTx (C : Type) := mkDriverTx { dt_client : option C; dt_sent : list Command }.
Arguments mkDriverTx {C}.
Arguments dt_client {C}.
Arguments dt_sent {C}.

(** [DatabaseDriver::begin]: the reply to BEGIN is [reply]. *)
Definition tokio_begin (self : TokioPostgresDatabase) (reply : Sent PgError unit) :
    result (DriverTx DeadClient) DbError :=
  let? client := map_err from_pool (td_pool self) in
  match reply with
  | Answered _ => Ok (mkDriverTx (Some client) [CBegin])
  | Failed _ e => Err (from_tokio e)
  end.

Definition tokio_tx_execute (self : DriverTx DeadClient) (sql : str) (params : list DbValue) :
    DriverTx DeadClient * result Z DbError :=
  match dt_client self with
  | None => (self, Err already_committed)
  | Some client =>
      (mkDriverTx (Some client) (dt_sent self ++ [CStatement sql (boxed_params params)]),
       execute_with_client (dead_client client) sql params)
  end.

Definition tokio_tx_fetch_all (G : Getters Raw PgError) (self : DriverTx DeadClient) (sql : str) (params : list DbValue) :
    DriverTx DeadClient * result (list DbRow) DbError :=
  match dt_client self with
  | None => (self, Err already_committed)
  | Some client =>
      (mkDriverTx (Some client) (dt_sent self ++ [CStatement sql (boxed_params params)]),
       fetch_all_with_client G (dead_client client) sql params)
  end.

(** The client is taken only when the server acknowledges. *)
Definition tokio_tx_commit (self : DriverTx DeadClient) (reply : Sent PgError unit) :
    DriverTx DeadClient * result unit DbError :=
  match dt_client self with
  | None => (self, Err already_committed)
  | Some client =>
      let sent := dt_sent self ++ [CCommit] in
      match reply with
      | Answered _ => (mkDriverTx None sent, Ok ())
      | Failed _ e => (mkDriverTx (Some client) sent, Err (from_tokio e))
      end
  end.

(** [Drop]: a task rolls back what is still open. *)
Definition tokio_tx_drop (self : DriverTx DeadClient) : list Command :=
  match dt_client self with
  | None => dt_sent self
  | Some _ => dt_sent self ++ [CRollback]
  end.

Definition sqlx_begin (self : SqlxDatabase) (reply : Sent SqlxError unit) : result (DriverTx SqlxConn) DbError :=
  let? connection := map_err from_sqlx (sd_pool self) in
  match reply with
  | Answered _ => Ok (mkDriverTx (Some connection) [CBegin])
  | Failed _ e => Err (from_sqlx e)
  end.

Definition sqlx_tx_execute (prepared_statements : bool) (self : DriverTx SqlxConn) (sql : str) (params : list DbValue) :
    DriverTx SqlxConn * result Z DbError :=
  match dt_client self with
  | None => (self, Err already_committed)
  | Some tx =>
      (mkDriverTx (Some tx) (dt_sent self ++ [CStatement sql (q_args (bind_params sql params))]),
       match sqlx_run_execute tx (persistent prepared_statements (bind_params sql params)) with
       | Answered affected => Ok affected
       | Failed _ e => Err (from_sqlx e)
       end)
  end.

Definition sqlx_tx_fetch_all (G : Getters Raw SqlxError) (prepared_statements : bool) (self : DriverTx SqlxConn) (sql : str)
    (params : list DbValue) : DriverTx SqlxConn * result (list DbRow) DbError :=
  match dt_client self with
  | None => (self, Err already_committed)
  | Some tx =>
      (mkDriverTx (Some tx) (dt_sent self ++ [CStatement sql (q_args (bind_params sql params))]),
       match sqlx_run_fetch_all tx (persistent prepared_statements (bind_params sql params)) with
       | Answered rows => collect_result (sqlx_row_to_db_row G <$> rows)
       | Failed _ e => Err (from_sqlx e)
       end)
  end.

(** The transaction is taken first; the library rolls back one that is dropped
    without a successful commit. *)
Definition sqlx_tx_commit (self : DriverTx SqlxConn) (reply : Sent SqlxError unit) :
    DriverTx SqlxConn * result unit DbError :=
  match dt_client self with
  | None => (self, Err already_committed)
  | Some _ =>
      let sent := dt_sent self ++ [CCommit] in
      match reply with
      | Answered _ => (mkDriverTx None sent, Ok ())
      | Failed _ e => (mkDriverTx None (sent ++ [CRollback]), Err (from_sqlx e))
      end
  end.
Definition sqlx_tx_drop (self : DriverTx SqlxConn) : list Command :=
  match dt_client self with
  | None => dt_sent self
  | Some _ => dt_sent self ++ [CRollback]
  end.
End rows.
Arguments mkDriverTx {C}.
Arguments dt_client {C}.
Arguments dt_sent {C}.
Arguments Answered {E R} r.
Arguments Failed {E R} applied e.
Arguments DeadClient : clear implicits.
Arguments TokioPostgresDatabase : clear implicits.
Arguments SqlxConn : clear implicits.
Arguments PgClient : clear implicits.
Arguments SqlxPool : clear implicits.
Arguments SqlxDatabase : clear implicits.
Arguments DeadPool : clear implicits.

(** ** Parameters *)

Lemma bind_params_args sql params :
  bind_params sql params = mkQuery sql (boxed_params params) true.
Proof.
  assert (∀ q, foldl bind_value q params = mkQuery (q_sql q) (q_args q ++ boxed_params params) (q_persistent q)) as H.
  { induction params as [|v params IH]; intros q; cbn [foldl]; [by destruct q; cbn; rewrite app_nil_r|].
    rewrite IH. by destruct v; cbn; rewrite <- app_assoc. }
  unfold bind_params. by rewrite H.
Qed.

(** ** Rows of the server *)

(** A row as the server answers it: names, types and values. *)
Definition ServerRow : Type := list (str * PgType * DbCell).

Definition supported (t : PgType) : bool := match t with OtherType _ => false | _ => true end.

(** A value of a type. *)
Definition has_type (t : PgType) (c : DbCell) : Prop :=
  match t with
  | BOOL => ∃ v, c = opt_cell CBool v
  | INT2 => ∃ v, c = opt_cell CI16 v
  | INT4 => ∃ v, c = opt_cell CI32 v
  | INT8 => ∃ v, c = opt_cell CI64 v
  | JSON | JSONB => ∃ v, c = opt_cell CJson v
  | TEXT | VARCHAR | BPCHAR | NAME => ∃ v, c = opt_cell CText v
  | TIMESTAMPTZ => ∃ v, c = opt_cell CTimestampTz v
  | OtherType _ => True
  end.
Definition typed_row (row : ServerRow) : Prop := Forall (λ c, has_type c.1.2 c.2) row.

(** The getters of a driver read the values the server encodes. *)
Class Decodes {Raw E} (G : Getters Raw E) (encode : PgType → DbCell → Raw) : Prop := mkDecodes {
  decodes_bool v : get_bool G (encode BOOL (opt_cell CBool v)) = Ok v;
  decodes_i16 v : get_i16 G (encode INT2 (opt_cell CI16 v)) = Ok v;
  decodes_i32 v : get_i32 G (encode INT4 (opt_cell CI32 v)) = Ok v;
  decodes_i64 v : get_i64 G (encode INT8 (opt_cell CI64 v)) = Ok v;
  decodes_json t v : t ∈ [JSON; JSONB] → get_json G (encode t (opt_cell CJson v)) = Ok v;
  decodes_text t v : t ∈ [TEXT; VARCHAR; BPCHAR; NAME] → get_text G (encode t (opt_cell CText v)) = Ok v;
  decodes_timestamp v : get_timestamp G (encode TIMESTAMPTZ (opt_cell CTimestampTz v)) = Ok v
}.

(** The names sqlx gives to the types of the tables, and to no other. *)
Definition type_name (t : PgType) : str :=
  match t with
  | BOOL => lit "BOOL" | INT2 => lit "INT2" | INT4 => lit "INT4" | INT8 => lit "INT8"
  | JSON => lit "JSON" | JSONB => lit "JSONB" | TEXT => lit "TEXT" | VARCHAR => lit "VARCHAR"
  | BPCHAR => lit "BPCHAR" | NAME => lit "NAME" | TIMESTAMPTZ => lit "TIMESTAMPTZ"
  | OtherType name => name
  end.
Definition type_names : list str :=
  type_name <$> [BOOL; INT2; INT4; INT8; JSON; JSONB; TEXT; VARCHAR; BPCHAR; NAME; TIMESTAMPTZ].
Definition proper_type (t : PgType) : Prop :=
  match t with OtherType name => name ∉ type_names | _ => True end.

Section decoding.
Context {Raw : Type} (encode : PgType → DbCell → Raw).
Context (GS : Getters Raw SqlxError) (GT : Getters Raw PgError).

(** The row as each driver sees it. *)
Definition sqlx_view (row : ServerRow) : list (str * str * Raw) :=
  (λ c, (c.1.1, type_name c.1.2, encode c.1.2 c.2)) <$> row.
Definition tokio_view (row : ServerRow) : list (str * PgType * Raw) :=
  (λ c, (c.1.1, c.1.2, encode c.1.2 c.2)) <$> row.

Definition supported_row (row : ServerRow) : bool := forallb (λ c, supported c.1.2) row.

(** The cells of a supported row. *)
Definition row_cells (row : ServerRow) : DbRow :=
  foldl (λ cells c, cells_insert c.1.1 c.2 cells) [] row.

Lemma sqlx_cell_spec name t c `{!Decodes GS encode} : has_type t c → proper_type t →
  match sqlx_cell GS (name, type_name t, encode t c) with
  | Ok c' => supported t = true ∧ c' = c
  | Err e => supported t = false ∧ code e = None ∧ connection_failure e = false
  end.
Proof.
  intros Ht Hp. destruct t; cbn in Ht; try destruct Ht as [v ->]; cbn [type_name sqlx_cell].
  12: { unfold sqlx_cell. cbn in Hp.
    assert (∀ l, forallb (λ n, bool_decide (n ∈ type_names)) l = true → name0 ∉ l) as Hl.
    { intros l Hl Hin. apply Hp. rewrite forallb_forall in Hl.
      apply (bool_decide_eq_true_1 (_ ∈ _)), Hl, list_elem_of_In, Hin. }
    repeat (rewrite decide_False; [|first [by apply Hl; vm_compute
      | intros ->; eapply Hp, (bool_decide_unpack _); by vm_compute]]). done. }
  all: unfold sqlx_cell; repeat first [rewrite decide_True by (apply (bool_decide_unpack _); by vm_compute)
    | rewrite decide_False by (apply bool_decide_eq_false_1; by vm_compute)];
    unfold get_cell; rewrite ?decodes_bool, ?decodes_i16, ?decodes_i32, ?decodes_i64, ?decodes_timestamp; try done.
  all: first [rewrite decodes_json by set_solver | rewrite decodes_text by set_solver]; done.
Qed.

Lemma tokio_cell_spec name t c `{!Decodes GT encode} : has_type t c →
  match tokio_cell GT (name, t, encode t c) with
  | Ok c' => supported t = true ∧ c' = c
  | Err e => supported t = false ∧ code e = None ∧ connection_failure e = false
  end.
Proof.
  intros Ht. destruct t; cbn in Ht; try destruct Ht as [v ->]; cbn [tokio_cell]; [..|done].
  all: unfold get_cell; rewrite ?decodes_bool, ?decodes_i16, ?decodes_i32, ?decodes_i64, ?decodes_timestamp; try done.
  all: first [rewrite decodes_json by set_solver | rewrite decodes_text by set_solver]; done.
Qed.

(** The loop over columns whose cells are those of the server. *)
Lemma columns_loop_spec {C} (name : C → str) (cell : C → result DbCell DbError) (view : str * PgType * DbCell → C) row cells :
  Forall (λ c, name (view c) = c.1.1 ∧ match cell (view c) with
    | Ok c' => supported c.1.2 = true ∧ c' = c.2
    | Err e => supported c.1.2 = false ∧ code e = None ∧ connection_failure e = false end) row →
  match columns_loop name cell (view <$> row) cells with
  | Ok r => supported_row row = true ∧ r = foldl (λ cells c, cells_insert c.1.1 c.2 cells) cells row
  | Err e => supported_row row = false ∧ code e = None ∧ connection_failure e = false
  end.
Proof.
  intros H. revert cells. induction H as [|c row [Hn Hc] _ IH]; intros cells; [done|].
  cbn [fmap list_fmap columns_loop supported_row forallb foldl].
  destruct (cell (view c)) as [c'|e]; destruct Hc as [Hs Hc]; rewrite Hs; [|done].
  subst c'. rewrite Hn. apply IH.
Qed.

Lemma sqlx_row_spec row `{!Decodes GS encode} : typed_row row → Forall (λ c, proper_type c.1.2) row →
  match sqlx_row_to_db_row GS (sqlx_view row) with
  | Ok r => supported_row row = true ∧ r = row_cells row
  | Err e => supported_row row = false ∧ code e = None ∧ connection_failure e = false
  end.
Proof.
  intros Ht Hp. apply (columns_loop_spec (λ c, c.1.1) (sqlx_cell GS)).
  apply Forall_forall. intros c Hc. split; [done|].
  unfold typed_row in Ht. rewrite Forall_forall in Ht, Hp. apply sqlx_cell_spec; [done|by apply Ht|by apply Hp].
Qed.

Lemma tokio_row_spec row `{!Decodes GT encode} : typed_row row →
  match tokio_row_to_db_row GT (tokio_view row) with
  | Ok r => supported_row row = true ∧ r = row_cells row
  | Err e => supported_row row = false ∧ code e = None ∧ connection_failure e = false
  end.
Proof.
  intros Ht. apply (columns_loop_spec (λ c, c.1.1) (tokio_cell GT)).
  apply Forall_forall. intros c Hc. split; [done|].
  unfold typed_row in Ht. rewrite Forall_forall in Ht. apply tokio_cell_spec; [done|by apply Ht].
Qed.
End decoding.

(** ** Transactions *)

Section transactions.
Context {Raw : Type} (GS : Getters Raw SqlxError) (GT : Getters Raw PgError).

(** The use of a transaction: statements that execute or fetch, then its
    commit with the reply of the server, or its drop. *)
Inductive TxOp := Execute (sql : str) (params : list DbValue) | FetchAll (sql : str) (params : list DbValue).
Definition op_command (o : TxOp) : Command :=
  match o with Execute sql ps | FetchAll sql ps => CStatement sql (boxed_params ps) end.

Definition tokio_op (tx : DriverTx (DeadClient Raw)) (o : TxOp) : DriverTx (DeadClient Raw) * option DbError :=
  let err {R} (r : result R DbError) := match r with Ok _ => None | Err e => Some e end in
  match o with
  | Execute sql ps => let '(tx, r) := tokio_tx_execute tx sql ps in (tx, err r)
  | FetchAll sql ps => let '(tx, r) := tokio_tx_fetch_all GT tx sql ps in (tx, err r)
  end.
Definition sqlx_op (prepared : bool) (tx : DriverTx (SqlxConn Raw)) (o : TxOp) : DriverTx (SqlxConn Raw) * option DbError :=
  let err {R} (r : result R DbError) := match r with Ok _ => None | Err e => Some e end in
  match o with
  | Execute sql ps => let '(tx, r) := sqlx_tx_execute prepared tx sql ps in (tx, err r)
  | FetchAll sql ps => let '(tx, r) := sqlx_tx_fetch_all GS prepared tx sql ps in (tx, err r)
  end.

(** [commit] consumes the transaction, which is then dropped. *)
Definition tokio_finish (tx : DriverTx (DeadClient Raw)) (commit : option (Sent PgError unit)) : list Command :=
  match commit with
  | None => tokio_tx_drop tx
  | Some reply => tokio_tx_drop (tokio_tx_commit tx reply).1
  end.
Definition sqlx_finish (tx : DriverTx (SqlxConn Raw)) (commit : option (Sent SqlxError unit)) : list Command :=
  match commit with
  | None => sqlx_tx_drop tx
  | Some reply => sqlx_tx_drop (sqlx_tx_commit tx reply).1
  end.

(** What is sent after the statements. *)
Definition closing {E} (commit : option (Sent E unit)) : list Command :=
  match commit with
  | None => [CRollback]
  | Some (Answered _) => [CCommit]
  | Some (Failed _ _) => [CCommit; CRollback]
  end.

Lemma tokio_ops ops c sent :
  foldl (λ tx o, (tokio_op tx o).1) (mkDriverTx (Some c) sent) ops = mkDriverTx (Some c) (sent ++ (op_command <$> ops)).
Proof.
  revert sent. induction ops as [|o ops IH]; intros sent; cbn [foldl]; [by cbn; rewrite app_nil_r|].
  assert ((tokio_op (mkDriverTx (Some c) sent) o).1 = mkDriverTx (Some c) (sent ++ [op_command o])) as ->
    by by destruct o.
  by rewrite IH, <- app_assoc.
Qed.

Lemma sqlx_ops prepared ops c sent :
  foldl (λ tx o, (sqlx_op prepared tx o).1) (mkDriverTx (Some c) sent) ops
  = mkDriverTx (Some c) (sent ++ (op_command <$> ops)).
Proof.
  revert sent. induction ops as [|o ops IH]; intros sent; cbn [foldl]; [by cbn; rewrite app_nil_r|].
  assert ((sqlx_op prepared (mkDriverTx (Some c) sent) o).1 = mkDriverTx (Some c) (sent ++ [op_command o])) as ->.
  { destruct o; cbn; unfold sqlx_tx_execute, sqlx_tx_fetch_all; cbn; by rewrite bind_params_args. }
  by rewrite IH, <- app_assoc.
Qed.

(** A transaction sends BEGIN, its statements with their parameters in order,
    and closes: COMMIT when its commit is acknowledged, and otherwise a ROLLBACK
    at the end, whether it was dropped or its commit failed.  The connection is
    never given back inside an open transaction. *)
Theorem transactions_are_closed (d : SqlxDatabase Raw) (d' : TokioPostgresDatabase Raw) tx tx' prepared ops commit commit' :
  sqlx_begin d (Answered ()) = Ok tx → tokio_begin d' (Answered ()) = Ok tx' →
  sqlx_finish (foldl (λ tx o, (sqlx_op prepared tx o).1) tx ops) commit = CBegin :: (op_command <$> ops) ++ closing commit ∧
  tokio_finish (foldl (λ tx o, (tokio_op tx o).1) tx' ops) commit' = CBegin :: (op_command <$> ops) ++ closing commit'.
Proof.
  unfold sqlx_begin, tokio_begin.
  destruct (sd_pool d) as [c|], (td_pool d') as [c'|]; try done. cbn. intros [= <-] [= <-].
  rewrite sqlx_ops, tokio_ops. split.
  - destruct commit as [[]|]; cbn; by rewrite <- ?app_assoc.
  - destruct commit' as [[]|]; cbn; by rewrite <- ?app_assoc.
Qed.
End transactions.

(** ** The drivers agree *)

(** Equal answers, or errors with the same SQLSTATE and classification. *)
Definition agree {R} (r r' : result R DbError) : Prop :=
  match r, r' with
  | Ok x, Ok x' => x = x'
  | Err e, Err e' => code e = code e' ∧ connection_failure e = connection_failure e'
  | _, _ => False
  end.

(** The same failure of a statement, as each library reports it. *)
Definition sqlx_state (e : SqlxError) : option str := match sx_kind e with SDatabase c => c | _ => None end.
Definition pg_state (e : PgError) : option str := snd <$> pg_db e.
Definition same_failure (e : SqlxError) (e' : PgError) : Prop := sqlx_state e = pg_state e'.

(** The same failure to get a connection: a wait that timed out, the same
    fault of the connection, or the same refusal of the server. *)
Definition same_refusal (e : SqlxError) (e' : PoolError) : Prop :=
  match sx_kind e, po_kind e' with
  | SPoolTimedOut, PTimeout => True
  | SPoolTimedOut, _ | _, PTimeout => False
  | _, k => connection_io_code (sx_chain e) = connection_io_code (po_chain e') ∧
      sqlx_state e = match k with PBackend b => pg_state b | _ => None end
  end.

Lemma from_sqlx_state e : code (from_sqlx e) = sqlx_state e ∧ connection_failure (from_sqlx e) = false.
Proof. unfold from_sqlx, sqlx_state. by destruct (sx_kind e) as [[c|]| |]. Qed.

Lemma from_tokio_state e : code (from_tokio e) = pg_state e ∧ connection_failure (from_tokio e) = false.
Proof. unfold from_tokio, pg_state. by destruct (pg_db e) as [[t c]|]. Qed.

Lemma failures_agree {R} e e' : same_failure e e' → agree (R := R) (Err (from_sqlx e)) (Err (from_tokio e')).
Proof.
  intros H. destruct (from_sqlx_state e) as [Hc Hf], (from_tokio_state e') as [Hc' Hf'].
  split; congruence.
Qed.

Lemma refusals_agree {R} e e' : same_refusal e e' → agree (R := R) (Err (acquisition_error e)) (Err (from_pool e')).
Proof.
  unfold same_refusal, acquisition_error, from_pool. destruct (from_sqlx_state e) as [Hc Hf].
  destruct (sx_kind e) as [c| |] eqn:Ek, (po_kind e') as [|b|] eqn:Ep; try done.
  all: intros [<- Hs]; destruct (connection_io_code (sx_chain e)); [done|].
  all: try destruct (from_tokio_state b) as [Hc' Hf']; split; cbn; congruence.
Qed.

Section agreement.
Context {Raw : Type} (encode : PgType → DbCell → Raw).
Context (GS : Getters Raw SqlxError) (GT : Getters Raw PgError).
Context `{!Decodes GS encode, !Decodes GT encode}.

(** An answer of the server to a query: rows whose values have the types of
    their columns. *)
Definition answer_ok (rows : list ServerRow) : Prop :=
  Forall (λ row, typed_row row ∧ Forall (λ c, proper_type c.1.2) row) rows.

(** Either conversion of the rows of an answer: all of them, or an error with
    no SQLSTATE when a column has an unsupported type. *)
Definition read_as (rows : list ServerRow) (r : result (list DbRow) DbError) : Prop :=
  if forallb supported_row rows then r = Ok (row_cells <$> rows)
  else ∃ e, r = Err e ∧ code e = None ∧ connection_failure e = false.

Lemma rows_read {C} (convert : list C → result DbRow DbError) (view : ServerRow → list C) rows :
  Forall (λ row, match convert (view row) with
    | Ok r => supported_row row = true ∧ r = row_cells row
    | Err e => supported_row row = false ∧ code e = None ∧ connection_failure e = false end) rows →
  read_as rows (collect_result (convert <$> (view <$> rows))).
Proof.
  unfold read_as. induction 1 as [|row rows Hrow _ IH]; [done|]. cbn.
  destruct (convert (view row)) as [r|e]; destruct Hrow as [-> Hr]; cbn; [|eauto].
  destruct (forallb supported_row rows); [by rewrite IH, Hr|].
  destruct IH as (e & -> & He). eauto.
Qed.

End agreement.

(** ** Jobs through the drivers *)

(** The columns of the jobs table as the migrations declare them. *)
Definition job_types : list PgType :=
  [INT8; INT4; JSON; INT2; TIMESTAMPTZ; INT2; INT2; TEXT; TIMESTAMPTZ; TIMESTAMPTZ; TEXT; INT4; TIMESTAMPTZ; TEXT; JSONB;
   INT4].
Definition job_columns (j : Job.DbJob) : ServerRow :=
  zip_with (λ t c, (c.1, t, c.2)) job_types (job_cells j).

Lemma job_columns_typed j : typed_row (job_columns j) ∧ supported_row (job_columns j) = true.
Proof.
  split; [|done]. unfold typed_row, job_columns. cbn.
  repeat constructor; cbn; by first [eexists; reflexivity | eexists (Some _)].
Qed.

Lemma row_cells_perm (row : ServerRow) : NoDup (row.*1.*1) →
  row_cells row ≡ₚ (λ c, (c.1.1, c.2)) <$> row.
Proof.
  unfold row_cells. intros Hn.
  assert (∀ cells : DbRow, (∀ x, x ∈ cells.*1 → x ∉ row.*1.*1) →
    foldl (λ cells c, cells_insert c.1.1 c.2 cells) cells row ≡ₚ ((λ c, (c.1.1, c.2)) <$> row) ++ cells) as H.
  { induction row as [|c row IH]; intros cells Hd; [done|]. cbn in *. apply NoDup_cons in Hn as [Hc Hn].
    assert (cells_insert c.1.1 c.2 cells = (c.1.1, c.2) :: cells) as ->.
    { unfold cells_insert. f_equal. apply filter_all, Forall_forall. intros kv Hkv Heq.
      apply (Hd kv.1); [by apply list_elem_of_fmap_2|set_solver]. }
    rewrite IH; [by rewrite <- Permutation_middle|done|]. cbn. set_solver. }
  rewrite H; [by rewrite app_nil_r|]. set_solver.
Qed.

Section jobs.
Context {Raw : Type} (encode : PgType → DbCell → Raw) (debug_cell : DbCell → str).
Context (GS : Getters Raw SqlxError) (GT : Getters Raw PgError).
Context `{!Decodes GS encode, !Decodes GT encode}.

(** C23: a job read from the database is the job that was stored, through either
    driver: a row with the columns of the jobs table, in any order and with
    further columns of supported types, is converted and decoded to exactly
    that job. *)
Theorem driver_rows_decode_jobs (j : Job.DbJob) (extra row : ServerRow) :
  row ≡ₚ job_columns j ++ extra → NoDup (row.*1.*1) → typed_row extra → supported_row extra = true →
  (let? r := sqlx_row_to_db_row GS (sqlx_view encode row) in db_job_from_row debug_cell r) = Ok j ∧
  (let? r := tokio_row_to_db_row GT (tokio_view encode row) in db_job_from_row debug_cell r) = Ok j.
Proof.
  intros Hp Hn Ht Hs. destruct (job_columns_typed j) as [Htj Hsj].
  assert (typed_row row) as Htr. { unfold typed_row. rewrite Hp. by apply Forall_app. }
  assert (supported_row row = true) as Hsr.
  { unfold supported_row in *. rewrite forallb_forall in *. intros c. rewrite <- !list_elem_of_In, Hp, elem_of_app.
    intros [Hc|Hc]; [apply Hsj|apply Hs]; by apply list_elem_of_In. }
  assert (Forall (λ c, proper_type c.1.2) row) as Hpr.
  { apply Forall_forall. intros c Hc. unfold supported_row in Hsr. rewrite forallb_forall in Hsr.
    specialize (Hsr c). rewrite <- list_elem_of_In in Hsr. specialize (Hsr Hc). by destruct c.1.2. }
  assert (db_job_from_row debug_cell (row_cells row) = Ok j) as Hj.
  { apply (db_job_row_roundtrip debug_cell j ((λ c, (c.1.1, c.2)) <$> extra)).
    - rewrite row_cells_perm by done. rewrite Hp, fmap_app. done.
    - rewrite row_cells_perm by done. revert Hn. by rewrite <- !list_fmap_compose. }
  pose proof (sqlx_row_spec encode GS row Htr Hpr) as H1. pose proof (tokio_row_spec encode GT row Htr) as H2.
  destruct (sqlx_row_to_db_row GS _), (tokio_row_to_db_row GT _); try (exfalso; intuition congruence).
  by destruct H1 as [_ ->], H2 as [_ ->].
Qed.
End jobs.

(** ** Retries through the drivers *)

(** The server's codes that the retry policy replays. *)
Definition replayed : list str := lit <$> ["40001"; "40P01"; "57P03"]%string.

Lemma backoff_none e : connection_failure e = false → (∀ c, code e = Some c → c ∉ replayed) → backoff e = None.
Proof.
  intros Hf Hc. unfold backoff. destruct (code e) as [c|]; [|done]. specialize (Hc c eq_refl).
  rewrite Hf, andb_false_r. unfold replayed in Hc. cbn [fmap list_fmap] in Hc.
  rewrite !not_elem_of_cons in Hc. destruct Hc as (? & ? & ? & _).
  by repeat (case_bool_decide; [tauto|]).
Qed.

Section retries.
Context {Raw : Type} (GS : Getters Raw SqlxError) (GT : Getters Raw PgError).

(** An error of reading a column. *)
Definition getter_error {E} (G : Getters Raw E) (e : E) : Prop :=
  ∃ raw, get_bool G raw = Err e ∨ get_i16 G raw = Err e ∨ get_i32 G raw = Err e ∨ get_i64 G raw = Err e ∨
    get_json G raw = Err e ∨ get_text G raw = Err e ∨ get_timestamp G raw = Err e.
(** It is not one of the server's. *)
Hypothesis sqlx_getters_local : ∀ e, getter_error GS e → sqlx_state e = None.
Hypothesis tokio_getters_local : ∀ e, getter_error GT e → pg_state e = None.

(** A statement the server reports as aborted (serialization failure,
    deadlock) or refuses while starting up was not applied. *)
Definition aborts {E R} (state : E → option str) (s : Sent E R) : Prop :=
  ∀ e c, s = Failed true e → state e = Some c → c ∉ replayed.
Definition honest_sqlx (d : SqlxDatabase Raw) : Prop :=
  ∀ c q, sd_pool d = Ok c → aborts sqlx_state (sqlx_run_execute c q) ∧ aborts sqlx_state (sqlx_run_fetch_all c q).
Definition honest_tokio (d : TokioPostgresDatabase Raw) : Prop :=
  ∀ c sql args, td_pool d = Ok c → aborts pg_state (pg_run_execute (dead_client c) sql args) ∧
    aborts pg_state (pg_run_query (dead_client c) sql args).

Definition sent_applied {E R} (s : Sent E R) : bool := match s with Answered _ => true | Failed a _ => a end.
(** What a call of the driver does to the statement, as a fault of the pool:
    it may have been applied unless no connection was acquired. *)
Definition fault_of {R} (r : result R DbError) (applied : bool) : option Executor.Fault :=
  match r with Ok _ => None | Err e => Some (Executor.mkFault e applied false false) end.

Definition sqlx_applied (run : SqlxConn Raw → bool) (d : SqlxDatabase Raw) : bool :=
  match sd_pool d with Ok c => run c | Err _ => false end.
Definition tokio_applied (run : PgClient Raw → bool) (d : TokioPostgresDatabase Raw) : bool :=
  match td_pool d with Ok c => run (dead_client c) | Err _ => false end.

(** The faults of a pooled statement whose [k]-th execution finds the driver
    and its server in the state [world k]. *)
Inductive driver_faults (sql : str) (params : list DbValue) : (nat → option Executor.Fault) → Prop :=
| by_sqlx_execute world : (∀ k : nat, honest_sqlx (world k)) →
    driver_faults sql params (λ k, fault_of (sqlx_execute (world k) sql params)
      (sqlx_applied (λ c, sent_applied (sqlx_run_execute c
         (persistent (sd_prepared_statements (world k)) (bind_params sql params)))) (world k)))
| by_sqlx_fetch_all world : (∀ k : nat, honest_sqlx (world k)) →
    driver_faults sql params (λ k, fault_of (sqlx_fetch_all GS (world k) sql params)
      (sqlx_applied (λ c, sent_applied (sqlx_run_fetch_all c
         (persistent (sd_prepared_statements (world k)) (bind_params sql params)))) (world k)))
| by_tokio_execute world : (∀ k : nat, honest_tokio (world k)) →
    driver_faults sql params (λ k, fault_of (tokio_execute (world k) sql params)
      (tokio_applied (λ c, sent_applied (pg_run_execute c sql (boxed_params params))) (world k)))
| by_tokio_fetch_all world : (∀ k : nat, honest_tokio (world k)) →
    driver_faults sql params (λ k, fault_of (tokio_fetch_all GT (world k) sql params)
      (tokio_applied (λ c, sent_applied (pg_run_query c sql (boxed_params params))) (world k))).

Lemma sqlx_rows_local rows e : collect_result (sqlx_row_to_db_row GS <$> rows) = Err e →
  code e = None ∧ connection_failure e = false.
Proof using sqlx_getters_local.
  assert (∀ cols cells e, columns_loop (λ c, c.1.1) (sqlx_cell GS) cols cells = Err e →
    code e = None ∧ connection_failure e = false) as Hl.
  { intros cols. induction cols as [|[[name t] raw] cols IH]; intros cells e'; cbn [columns_loop]; [done|].
    destruct (sqlx_cell GS _) as [v|e''] eqn:E; [apply IH|]. intros [= <-].
    unfold sqlx_cell, get_cell in E.
    repeat (case_decide; [match type of E with context [map_err _ ?g] => destruct g as [o|x] eqn:G end;
      cbn in E; [done|injection E as <-; destruct (from_sqlx_state x) as [-> ->]; split; [|done];
      apply sqlx_getters_local; exists raw; tauto]|]).
    by injection E as <-. }
  induction rows as [|row rows IH]; cbn; [done|].
  destruct (sqlx_row_to_db_row GS row) eqn:E; [|intros [= <-]; by eapply Hl].
  destruct (collect_result _); [done|]. intros [= <-]. by apply IH.
Qed.

Lemma tokio_rows_local rows e : collect_result (tokio_row_to_db_row GT <$> rows) = Err e →
  code e = None ∧ connection_failure e = false.
Proof using tokio_getters_local.
  assert (∀ cols cells e, columns_loop (λ c, c.1.1) (tokio_cell GT) cols cells = Err e →
    code e = None ∧ connection_failure e = false) as Hl.
  { intros cols. induction cols as [|[[name t] raw] cols IH]; intros cells e'; cbn [columns_loop]; [done|].
    destruct (tokio_cell GT _) as [v|e''] eqn:E; [apply IH|]. intros [= <-].
    destruct t; unfold tokio_cell, get_cell in E; try (by injection E as <-);
      match type of E with context [map_err _ ?g] => destruct g as [o|x] eqn:G end;
      cbn in E; [done| |..]; try done; injection E as <-; destruct (from_tokio_state x) as [-> ->]; (split; [|done]);
      apply tokio_getters_local; exists raw; tauto. }
  induction rows as [|row rows IH]; cbn; [done|].
  destruct (tokio_row_to_db_row GT row) eqn:E; [|intros [= <-]; by eapply Hl].
  destruct (collect_result _); [done|]. intros [= <-]. by apply IH.
Qed.

(** Either driver's faults are safe to retry as the policy does. *)
Lemma driver_faults_safe sql params faults : driver_faults sql params faults → Executor.safe_faults faults.
Proof using All.
  destruct 1 as [world Hw|world Hw|world Hw|world Hw]; intros k f; unfold fault_of, sqlx_applied, tokio_applied;
    unfold sqlx_execute, sqlx_fetch_all, tokio_execute, tokio_fetch_all.
  - destruct (sd_pool (world k)) as [c|e] eqn:Ep; cbn [map_err]; [|by intros [= <-]].
    unfold execute_with_executor. set (q := persistent _ _). destruct (Hw k c q Ep) as [Ha _].
    destruct (sqlx_run_execute c q) as [|a e]; [done|]. intros [= <-]. cbn. intros ->.
    destruct (from_sqlx_state e) as [Hc Hf]. apply backoff_none; [done|]. intros x. rewrite Hc. by apply Ha.
  - destruct (sd_pool (world k)) as [c|e] eqn:Ep; cbn [map_err]; [|by intros [= <-]].
    unfold fetch_all_with_executor. set (q := persistent _ _). destruct (Hw k c q Ep) as [_ Ha].
    destruct (sqlx_run_fetch_all c q) as [rows|a e].
    + destruct (collect_result _) as [|e] eqn:Ec; [done|]. apply sqlx_rows_local in Ec as [Hc Hf].
      intros [= <-] _. apply backoff_none; [done|]. cbn. by rewrite Hc.
    + intros [= <-]. cbn. intros ->.
      destruct (from_sqlx_state e) as [Hc Hf]. apply backoff_none; [done|]. intros x. rewrite Hc. by apply Ha.
  - destruct (td_pool (world k)) as [c|e] eqn:Ep; cbn [map_err]; [|by intros [= <-]].
    unfold execute_with_deadpool_client. destruct (Hw k c sql (boxed_params params) Ep) as [Ha _].
    destruct (pg_run_execute _ _ _) as [|a e]; [done|]. intros [= <-]. cbn. intros ->.
    destruct (from_tokio_state e) as [Hc Hf]. apply backoff_none; [done|]. intros x. rewrite Hc. by apply Ha.
  - destruct (td_pool (world k)) as [c|e] eqn:Ep; cbn [map_err]; [|by intros [= <-]].
    unfold fetch_all_with_deadpool_client. destruct (Hw k c sql (boxed_params params) Ep) as [_ Ha].
    destruct (pg_run_query _ _ _) as [rows|a e].
    + destruct (collect_result _) as [|e] eqn:Ec; [done|]. apply tokio_rows_local in Ec as [Hc Hf].
      intros [= <-] _. apply backoff_none; [done|]. cbn. by rewrite Hc.
    + intros [= <-]. cbn. intros ->.
      destruct (from_tokio_state e) as [Hc Hf]. apply backoff_none; [done|]. intros x. rewrite Hc. by apply Ha.
Qed.

(** C18: retrying a pooled statement never applies it twice, with either driver:
    an answer means that it was applied exactly once, an error at most once, and
    an error that the policy would still retry not at all, within the limit of
    executions.  The only errors replayed are those of statements that were not
    applied: no connection was acquired, or the server says it aborted or
    refused.  A statement whose rows cannot be converted was applied, and is not
    replayed. *)
Theorem driver_retries_apply_once {B} (s : Executor.Statement B) sql_message clock faults sql params
    (e e' : Executor.Pool) (r : result B DbError) : driver_faults sql params faults →
  Executor.execute (DbExecutor := Executor.pool_executor sql_message clock faults) s e = (e', r) →
  (Executor.p_step e < Executor.p_step e'
    ≤ Executor.p_step e + Nat.max 1 (default 1%nat (Executor.p_max_attempts e)))%nat ∧
  match r with
  | Ok b => ∃ t, s t (Executor.p_tables e) = Ok (Executor.p_tables e', b)
  | Err err => Executor.p_tables e' = Executor.p_tables e ∨
      backoff err = None ∧ ∃ t b, s t (Executor.p_tables e) = Ok (Executor.p_tables e', b)
  end.
Proof using All.
  intros Hd%driver_faults_safe Hx. by apply (Executor.retries_apply_once sql_message clock faults).
Qed.
End retries.

(** ** Witnesses *)

(** A server whose raw values are the cells themselves. *)
Definition plain_getters {E} (broken : E) : Getters DbCell E := {|
  get_bool := λ c, match c with CNull => Ok None | CBool v => Ok (Some v) | _ => Err broken end;
  get_i16 := λ c, match c with CNull => Ok None | CI16 v => Ok (Some v) | _ => Err broken end;
  get_i32 := λ c, match c with CNull => Ok None | CI32 v => Ok (Some v) | _ => Err broken end;
  get_i64 := λ c, match c with CNull => Ok None | CI64 v => Ok (Some v) | _ => Err broken end;
  get_json := λ c, match c with CNull => Ok None | CJson v => Ok (Some v) | _ => Err broken end;
  get_text := λ c, match c with CNull => Ok None | CText v => Ok (Some v) | _ => Err broken end;
  get_timestamp := λ c, match c with CNull => Ok None | CTimestampTz v => Ok (Some v) | _ => Err broken end
|}.
Definition plain_encode (t : PgType) (c : DbCell) : DbCell := c.
#[export] Instance plain_decodes {E} (broken : E) : Decodes (plain_getters broken) plain_encode.
Proof. constructor; intros; by destruct v. Qed.

Definition sqlx_broken : SqlxError := mkSqlxError SOther (lit "decode") [NotIo].
Definition pg_broken : PgError := mkPgError None (lit "decode") [NotIo].
Definition plain_sqlx := plain_getters sqlx_broken.
Definition plain_tokio := plain_getters pg_broken.

(** One row for any query, and a deadlock for any other statement. *)
Definition count_row : ServerRow := [(lit "count", INT8, CI64 3); (lit "ok", BOOL, CBool true)].
Definition demo_conn : SqlxConn DbCell :=
  mkSqlxConn (λ _, Failed false (mkSqlxError (SDatabase (Some (lit "40P01"))) (lit "deadlock") []))
    (λ _, Answered [sqlx_view plain_encode count_row]).
Definition demo_client : DeadClient DbCell :=
  mkDeadClient (mkPgClient (λ _ _, Failed false (mkPgError (Some ([], lit "40P01")) (lit "db error") []))
    (λ _ _, Answered [tokio_view plain_encode count_row])).
Definition demo_sqlx : SqlxDatabase DbCell := sqlx_database_new (Ok demo_conn).
Definition demo_tokio : TokioPostgresDatabase DbCell := tokio_database_new (Ok demo_client).


Lemma driver_rows_decode_jobs_witness :
  (let? r := sqlx_row_to_db_row plain_sqlx
     (sqlx_view plain_encode (reverse (job_columns sample_job ++ [(lit "task_identifier", TEXT, CText (lit "t"))])))
   in db_job_from_row (λ _, []) r) = Ok sample_job.
Proof.
  apply (driver_rows_decode_jobs plain_encode (λ _, []) plain_sqlx plain_tokio sample_job
    [(lit "task_identifier", TEXT, CText (lit "t"))]).
  - apply reverse_Permutation.
  - apply (bool_decide_unpack _). by vm_compute.
  - repeat constructor. by eexists (Some _).
  - done.
Defined.

(** No connection at first, then a deadlock, then a server that answers. *)
Definition recovering (k : nat) : SqlxDatabase DbCell :=
  match k with
  | O => sqlx_database_new (Err (mkSqlxError SPoolTimedOut (lit "pool timed out") []))
  | S O => demo_sqlx
  | _ => sqlx_database_new (Ok (mkSqlxConn (λ _, Answered 1) (λ _, Answered [])))
  end.
Definition recovering_faults (k : nat) : option Executor.Fault :=
  fault_of (sqlx_execute (recovering k) [] [])
    (sqlx_applied (λ c, sent_applied (sqlx_run_execute c
       (persistent (sd_prepared_statements (recovering k)) (bind_params [] [])))) (recovering k)).

Lemma getter_error_plain {E} (broken e : E) : getter_error (plain_getters broken) e → e = broken.
Proof. intros [c H]. destruct c; cbn in H; naive_solver. Qed.

Lemma driver_retries_apply_once_witness :
  ∃ e' b t, Executor.execute (DbExecutor := Executor.pool_executor Executor.quiet_message Executor.ticking recovering_faults)
      Executor.insert_demo (Executor.mkPool JobStore.empty_db 0 (Some 5%nat)) = (e', Ok b) ∧
    Executor.insert_demo t JobStore.empty_db = Ok (Executor.p_tables e', b) ∧ Executor.p_step e' = 3%nat.
Proof.
  destruct (Executor.execute (DbExecutor := Executor.pool_executor Executor.quiet_message Executor.ticking recovering_faults)
    Executor.insert_demo (Executor.mkPool JobStore.empty_db 0 (Some 5%nat))) as [e' [b|err]] eqn:E;
    [|vm_compute in E; discriminate E].
  destruct (driver_retries_apply_once plain_sqlx plain_tokio
    (λ e H, ltac:(by rewrite (getter_error_plain _ _ H))) (λ e H, ltac:(by rewrite (getter_error_plain _ _ H)))
    Executor.insert_demo Executor.quiet_message Executor.ticking recovering_faults [] []
    (Executor.mkPool JobStore.empty_db 0 (Some 5%nat)) e' (Ok b)) as [_ [t Ht]]; [|exact E|].
  - apply by_sqlx_execute. intros [|[|k]] c q [= <-]; split; intros e x [=].
  - exists e', b, t. split_and!; [done..|]. vm_compute in E. by injection E as <- _.
Defined.

End Drivers.
