(* ===== verification/Listener.v ===== *)
(** * Notifications of the database (crates/graphile-worker-database/src/
    tokio_postgres/listener.rs, the [listen] of sqlx/driver.rs, notification.rs)

    The tokio-postgres driver keeps a connection of its own for LISTEN.  Per
    connection a task forwards the notifications of the server into the channel
    whose receiver is the stream of the worker; one supervising task waits for
    the connection to close, sleeps, and connects again with a delay that
    doubles from 50 ms to 5 s.  The tasks are an executable step function on
    events; the messages of the server and the outcomes of connecting are the
    environment's. *)

From S2P Require Import Prelude Job Database Drivers.
Open Scope Z_scope.

Module Listener.
Import Database Drivers.

(** ** notification.rs *)

Record Notification := mkNotification { n_channel : str; n_payload : str }.
#[export] Instance Notification_eq_dec : EqDecision Notification.
Proof. solve_decision. Defined.

(** ** Delays, in milliseconds *)

Definition INITIAL_LISTENER_RECONNECT_DELAY : Z := 50.
Definition MAX_LISTENER_RECONNECT_DELAY : Z := 5000.
(** The largest [Duration]: its seconds are a [u64]. *)
Definition DURATION_MAX : Z := U64_MAX * 1000 + 999.
Definition checked_mul (d k : Z) : option Z := if d * k <=? DURATION_MAX then Some (d * k) else None.

Definition next_reconnect_delay (delay : Z) : Z :=
  let doubled := default MAX_LISTENER_RECONNECT_DELAY (checked_mul delay 2) in
  if MAX_LISTENER_RECONNECT_DELAY <? doubled then MAX_LISTENER_RECONNECT_DELAY else doubled.

(** ** The tasks *)

(** The task of a connection: forwarding, or ended with [closed_tx] sent. *)
Inductive Forwarder := Live | Closed.

(** The supervising task: at its first [select!] with a connection, asleep in
    the second one, in [connect_listener], or returned. *)
Inductive Supervisor := Watching (connection : nat) | Asleep | Connecting | Returned.

Record State := mkState {
  forwarders : list Forwarder;
  supervisor : Supervisor;
  reconnect_delay : Z;
  receiver : bool;                                  (* the stream is not dropped *)
  channel : list (result Notification DbError);
  received : list (result Notification DbError)     (* taken from the stream *)
}.

(** [AsyncMessage], an error, or the end of the connection. *)
Inductive Message := MNotification (n : Notification) | MNotice | MOther | MError (e : PgError) | MEnd.

(** Connecting: it succeeds, the connection is refused, or it is made and the
    LISTEN statement fails, which leaves its forwarder behind. *)
Inductive Connect := Connected | ConnectRefused (e : PgError) | ListenFailed (e : PgError).

Inductive Event :=
| Poll (connection : nat) (m : Message)
| SeeClosed                  (* [&mut closed_rx] *)
| SeeReceiverGone            (* [tx.closed()] *)
| Wake                       (* [sleep(reconnect_delay)] *)
| TryConnect (c : Connect)
| DropReceiver
| Receive.

(** [connect_listener], with the errors it returns. *)
Definition connect_listener (c : Connect) (fs : list Forwarder) : list Forwarder * result nat DbError :=
  match c with
  | Connected => (fs ++ [Live], Ok (length fs))
  | ConnectRefused e => (fs, Err (from_tokio e))
  | ListenFailed e => (fs ++ [Live], Err (from_tokio e))
  end.

(** One turn of the loop of a forwarder. *)
Definition forward (i : nat) (m : Message) (s : State) : State :=
  let close := mkState (<[i := Closed]> (forwarders s)) (supervisor s) (reconnect_delay s) (receiver s) (channel s) (received s) in
  match m with
  | MNotification n =>
      if receiver s then
        mkState (forwarders s) (supervisor s) (reconnect_delay s) (receiver s) (channel s ++ [Ok n]) (received s)
      else close
  | MNotice | MOther => s
  | MError _ | MEnd => close
  end.

Definition with_supervisor (p : Supervisor) (s : State) : State :=
  mkState (forwarders s) p (reconnect_delay s) (receiver s) (channel s) (received s).

Definition step (s : State) (e : Event) : option State :=
  match e with
  | Poll i m => match forwarders s !! i with Some Live => Some (forward i m s) | _ => None end
  | SeeClosed =>
      match supervisor s with
      | Watching i => match forwarders s !! i with Some Closed => Some (with_supervisor Asleep s) | _ => None end
      | _ => None
      end
  | SeeReceiverGone =>
      match supervisor s with
      | Watching _ | Asleep => if receiver s then None else Some (with_supervisor Returned s)
      | _ => None
      end
  | Wake => match supervisor s with Asleep => Some (with_supervisor Connecting s) | _ => None end
  | TryConnect c =>
      match supervisor s with
      | Connecting =>
          let '(fs, r) := connect_listener c (forwarders s) in
          Some (match r with
                | Ok i => mkState fs (Watching i) INITIAL_LISTENER_RECONNECT_DELAY (receiver s) (channel s) (received s)
                | Err _ => mkState fs Asleep (next_reconnect_delay (reconnect_delay s)) (receiver s) (channel s) (received s)
                end)
      | _ => None
      end
  | DropReceiver =>
      if receiver s then Some (mkState (forwarders s) (supervisor s) (reconnect_delay s) false [] (received s)) else None
  | Receive =>
      if receiver s then
        match channel s with
        | [] => None
        | item :: rest =>
            Some (mkState (forwarders s) (supervisor s) (reconnect_delay s) true rest (received s ++ [item]))
        end
      else None
  end.

Fixpoint run (s : State) (es : list Event) : option State :=
  match es with [] => Some s | e :: es => s ← step s e; run s es end.

(** ** [listen] *)

Definition listen_sql (channel : str) : str := lit "LISTEN " ++ escape_identifier channel.

(** The state when [run_reconnecting_listener] is spawned. *)
Definition spawned (fs : list Forwarder) (i : nat) : State :=
  mkState fs (Watching i) INITIAL_LISTENER_RECONNECT_DELAY true [] [].

(** Without a configuration there is no stream; the first connection is made
    before the stream is returned, and its error is the caller's.  [connect]
    says what becomes of connecting with a LISTEN statement. *)
Definition listen (config : bool) (channel : str) (connect : str → Connect) : result (option State) DbError :=
  if config then
    let sql := listen_sql channel in
    let '(fs, r) := connect_listener (connect sql) [] in
    let? i := r in Ok (Some (spawned fs i))
  else Ok None.

(** sqlx/driver.rs: the library reconnects; its items are converted. *)
Definition sqlx_listen {E} (conv : E → DbError) (connect listen : result unit E) (items : list (result Notification E)) :
    result (option (list (result Notification DbError))) DbError :=
  let? _ := map_err conv connect in
  let? _ := map_err conv listen in
  Ok (Some (map_err conv <$> items)).

(** ** What the stream carries *)

(** The notifications the server delivers along a run while the stream is
    there. *)
Fixpoint delivered (s : State) (es : list Event) : list Notification :=
  match es with
  | [] => []
  | e :: es =>
      match e with Poll _ (MNotification n) => if receiver s then [n] else [] | _ => [] end ++
      match step s e with Some s' => delivered s' es | None => [] end
  end.

(** The delay after a number of failures in a row. *)
Definition delay_after (failures : nat) : Z :=
  Z.min MAX_LISTENER_RECONNECT_DELAY (INITIAL_LISTENER_RECONNECT_DELAY * 2 ^ Z.of_nat failures).

Lemma next_delay_after k : next_reconnect_delay (delay_after k) = delay_after (S k).
Proof.
  unfold next_reconnect_delay, delay_after, checked_mul, DURATION_MAX, U64_MAX, MAX_LISTENER_RECONNECT_DELAY,
    INITIAL_LISTENER_RECONNECT_DELAY.
  rewrite Nat2Z.inj_succ, Z.pow_succ_r by lia. set (p := 2 ^ Z.of_nat k).
  assert (0 < p) by (apply Z.pow_pos_nonneg; lia). clearbody p.
  change ((2 ^ 64 - 1) * 1000 + 999) with 18446744073709551615999.
  destruct (Z.leb_spec (Z.min 5000 (50 * p) * 2) 18446744073709551615999); [|lia]. cbn [default]. unfold id.
  destruct (Z.ltb_spec 5000 (Z.min 5000 (50 * p) * 2)); lia.
Qed.

Lemma delay_after_bounds k : 50 ≤ delay_after k ≤ 5000.
Proof.
  unfold delay_after, MAX_LISTENER_RECONNECT_DELAY, INITIAL_LISTENER_RECONNECT_DELAY.
  assert (0 < 2 ^ Z.of_nat k) by (apply Z.pow_pos_nonneg; lia). lia.
Qed.

(** What holds while the tasks run: the supervisor watches a forwarder that
    exists, has not returned while the stream is there, and its delay is the one
    of the failures in a row. *)
Definition inv (s : State) : Prop :=
  (∃ k, reconnect_delay s = delay_after k) ∧
  (receiver s = true → supervisor s ≠ Returned) ∧
  (∀ i, supervisor s = Watching i →
     (i < length (forwarders s))%nat ∧ reconnect_delay s = INITIAL_LISTENER_RECONNECT_DELAY).

Lemma spawned_inv c fs i : connect_listener c [] = (fs, Ok i) → inv (spawned fs i).
Proof.
  intros H. split_and!; [by exists O|done|]. intros j [= <-]. split; [|done].
  destruct c; cbn in H; simplify_eq. cbn. lia.
Qed.

Lemma listener_step_inv s e s' : inv s → step s e = Some s' → inv s'.
Proof.
  intros (Hd & Hr & Hw) Hs. destruct e as [i m| | | |c| |]; cbn in Hs.
  - destruct (forwarders s !! i) as [[]|]; [|done..]. injection Hs as <-.
    unfold forward. destruct m; try destruct (receiver s) eqn:E; split_and!; cbn; rewrite ?E, ?length_insert; eauto.
  - destruct (supervisor s) as [i| | |]; try done. destruct (forwarders s !! i) as [[]|]; try done.
    injection Hs as <-. by split_and!.
  - destruct (supervisor s), (receiver s) eqn:E; try done; injection Hs as <-; split_and!; cbn; try done; by rewrite E.
  - destruct (supervisor s); try done. injection Hs as <-. by split_and!.
  - destruct (supervisor s); try done. destruct Hd as [k Hd].
    destruct c; cbn in Hs; injection Hs as <-; split_and!; cbn; try done.
    + by exists O.
    + intros i [= <-]. rewrite length_app. cbn. split; [lia|done].
    + exists (S k). by rewrite Hd, next_delay_after.
    + exists (S k). by rewrite Hd, next_delay_after.
  - destruct (receiver s); [|done]. injection Hs as <-. by split_and!.
  - destruct (receiver s) eqn:E, (channel s); try done. injection Hs as <-. split_and!; cbn; eauto.
Qed.

Lemma listener_run_inv s es s' : inv s → run s es = Some s' → inv s'.
Proof.
  revert s. induction es as [|e es IH]; intros s Hi; cbn; [by intros [= <-]|].
  destruct (step s e) as [s1|] eqn:E; cbn; [|done]. apply IH. by eapply listener_step_inv.
Qed.

(** The stream is dropped once and for all. *)
Lemma step_receiver s e s' : step s e = Some s' → receiver s' = true → receiver s = true.
Proof.
  intros Hs Hr. destruct e as [i m| | | |c| |]; cbn in Hs; repeat case_match; simplify_eq; cbn in *; try congruence.
  unfold forward in Hr. destruct m; try done; by destruct (receiver s).
Qed.

Lemma run_receiver s es s' : run s es = Some s' → receiver s' = true → receiver s = true.
Proof.
  revert s. induction es as [|e es IH]; intros s; cbn; [by intros [= <-]|].
  destruct (step s e) as [s1|] eqn:E; cbn; [|done]. intros Hr Ht. eapply step_receiver; [done|]. by eapply IH.
Qed.

Lemma step_carries s e s' : step s e = Some s' → receiver s' = true →
  received s' ++ channel s' =
    (received s ++ channel s) ++ (Ok <$> match e with Poll _ (MNotification n) => [n] | _ => [] end).
Proof.
  intros Hs Hr. pose proof (step_receiver _ _ _ Hs Hr) as Hr0.
  destruct e as [i m| | | |c| |]; cbn in Hs; rewrite ?Hr0 in Hs; repeat case_match; simplify_eq; cbn in *;
    rewrite ?app_nil_r, ?Hr0; try done; try congruence.
  - cbn. by rewrite app_assoc.
  - by rewrite <- app_assoc.
Qed.

Lemma run_carries s es s' : run s es = Some s' → receiver s' = true →
  received s' ++ channel s' = (received s ++ channel s) ++ (Ok <$> delivered s es).
Proof.
  revert s. induction es as [|e es IH]; intros s; cbn [run delivered]; [intros [= <-]; by rewrite app_nil_r|].
  destruct (step s e) as [s1|] eqn:E; cbn; [|done]. intros Hrun Hr.
  pose proof (run_receiver _ _ _ Hrun Hr) as Hr1. rewrite (step_receiver _ _ _ E Hr1).
  rewrite (IH s1 Hrun Hr), (step_carries _ _ _ E Hr1), fmap_app, <- !app_assoc.
  destruct e as [i []| | | |c| |]; done.
Qed.

(** The supervisor's own next event if connecting succeeds. *)
Definition supervise (s : State) : option Event :=
  match supervisor s with
  | Watching i => match forwarders s !! i with Some Closed => Some SeeClosed | _ => None end
  | Asleep => Some Wake
  | Connecting => Some (TryConnect Connected)
  | Returned => None
  end.
Fixpoint supervise_n (n : nat) (s : State) : State :=
  match n with
  | O => s
  | S n =>
      match supervise s with
      | Some e => match step s e with Some s' => supervise_n n s' | None => s end
      | None => s
      end
  end.

(** The supervisor watches a connection that forwards. *)
Definition listening (s : State) : Prop := ∃ i, supervisor s = Watching i ∧ forwarders s !! i = Some Live.

Lemma supervise_listens s : inv s → receiver s = true → ∃ n, (n ≤ 3)%nat ∧ listening (supervise_n n s).
Proof.
  intros (_ & Hr & Hw) Ht. specialize (Hr Ht).
  assert (∀ s, supervisor s = Connecting → listening (supervise_n 1 s)) as Hc.
  { intros s1 E. cbn. unfold supervise. rewrite E. cbn. rewrite E. cbn. eexists. split; [done|].
    apply list_lookup_middle. done. }
  assert (∀ s, supervisor s = Asleep → listening (supervise_n 2 s)) as Ha.
  { intros s1 E. cbn. unfold supervise. rewrite E. cbn. rewrite E. by apply Hc. }
  destruct (supervisor s) as [i| | |] eqn:E; [| |by exists 1%nat; eauto with lia|done]; [|by exists 2%nat; eauto with lia].
  destruct (Hw i eq_refl) as [Hi _]. destruct (lookup_lt_is_Some_2 (forwarders s) i Hi) as [[] Hf].
  - exists O. split; [lia|]. by exists i.
  - exists 3%nat. split; [lia|]. cbn. unfold supervise. rewrite E, Hf. cbn. rewrite E, Hf. by apply Ha.
Qed.

(** C22: the notification stream survives its connections.  In every run of the
    tasks from a successful [listen], as long as the stream is there: it carries
    exactly the notifications the server delivered, in order, each once and
    never an error; the supervisor has not returned; and from wherever it is, if
    connecting succeeds, it listens on a live connection again within three of
    its own steps, the one sleep among them lasting between 50 ms and 5 s and
    doubling with each failure in a row. *)
Theorem stream_survives_connections (name : str) (c : str → Connect) (s0 s : State) (es : list Event) :
  listen true name c = Ok (Some s0) → run s0 es = Some s → receiver s = true →
  received s ++ channel s = Ok <$> delivered s0 es ∧
  supervisor s ≠ Returned ∧
  (∃ n, (n ≤ 3)%nat ∧ listening (supervise_n n s)) ∧
  (∃ failures, reconnect_delay s = delay_after failures ∧ 50 ≤ reconnect_delay s ≤ 5000).
Proof.
  unfold listen. destruct (connect_listener (c _) []) as [fs [i|]] eqn:Ec; [|done]. intros [= <-] Hrun Hr.
  pose proof (listener_run_inv _ _ _ (spawned_inv _ _ _ Ec) Hrun) as Hinv. pose proof Hinv as ((k & Hk) & Hret & _).
  split_and!; [exact (run_carries _ _ _ Hrun Hr)|by apply Hret|by apply supervise_listens|].
  exists k. rewrite Hk. split; [done|apply delay_after_bounds].
Qed.

(** The supervisor's next event once the stream is dropped, connecting as it may. *)
Definition wind_down (outcome : Connect) (s : State) : option Event :=
  match supervisor s with
  | Watching _ | Asleep => Some SeeReceiverGone
  | Connecting => Some (TryConnect outcome)
  | Returned => None
  end.

(** Once the stream is dropped the supervisor returns after at most two of its
    steps, whatever becomes of a connection attempt under way, and a forwarder
    stops at the next notification instead of queueing it. *)
Theorem dropped_stream_ends_tasks (s : State) (outcome : Connect) : receiver s = false →
  (supervisor s = Returned ∨ ∃ e s1, wind_down outcome s = Some e ∧ step s e = Some s1 ∧ receiver s1 = false ∧
     (supervisor s1 = Returned ∨ ∃ e' s2, wind_down outcome s1 = Some e' ∧ step s1 e' = Some s2 ∧ supervisor s2 = Returned)) ∧
  (∀ i n s', step s (Poll i (MNotification n)) = Some s' → forwarders s' !! i = Some Closed ∧ channel s' = channel s).
Proof.
  intros Hr. split.
  - unfold wind_down. destruct (supervisor s) eqn:E; [..|by left]; right.
    + eexists _, _. split; [done|]. cbn. rewrite E, Hr. split_and!; [done..|by left].
    + eexists _, _. split; [done|]. cbn. rewrite E, Hr. split_and!; [done..|by left].
    + destruct outcome; eexists _, _; (split; [reflexivity|]); cbn; rewrite E; (split; [reflexivity|]); (split; [exact Hr|]);
        right; eexists _, _; (split; [reflexivity|]); cbn; rewrite Hr; split; reflexivity.
  - intros i n s' Hs. cbn in Hs. destruct (forwarders s !! i) as [[]|] eqn:E; try done. injection Hs as <-.
    unfold forward. rewrite Hr. cbn. split; [|done]. apply list_lookup_insert_eq. by eapply lookup_lt_Some.
Qed.

(** ** Witnesses *)

Definition note (p : string) : Notification := mkNotification (lit "jobs:insert") (lit p).
Definition down : PgError := mkPgError None (lit "connection refused") [IoError OtherKind].
(** A notification, a lost connection, a refused attempt, a new connection and
    a second notification. *)
Definition demo_run : list Event :=
  [Poll 0 (MNotification (note "1")); Receive; Poll 0 (MError down); SeeClosed; Wake; TryConnect (ConnectRefused down);
   Wake; TryConnect Connected; Poll 1 MNotice; Poll 1 (MNotification (note "2"))].

Lemma stream_survives_connections_witness :
  ∃ s, run (spawned [Live] 0) demo_run = Some s ∧ received s = [Ok (note "1")] ∧ channel s = [Ok (note "2")] ∧
    supervisor s ≠ Returned ∧ received s ++ channel s = Ok <$> delivered (spawned [Live] 0) demo_run.
Proof.
  destruct (run (spawned [Live] 0) demo_run) as [s|] eqn:E; [|vm_compute in E; discriminate E].
  exists s. split; [done|]. pose proof E as E'. vm_compute in E'.
  destruct (stream_survives_connections (lit "jobs:insert") (λ _, Connected) (spawned [Live] 0) s demo_run eq_refl E) as (H & Hr & _).
  { by injection E' as <-. }
  split_and!; [by injection E' as <-|by injection E' as <-|exact Hr|exact H].
Defined.

Lemma dropped_stream_ends_tasks_witness :
  supervisor (mkState [Live] Connecting 100 false [] []) = Connecting ∧
  ∀ s', step (mkState [Live] Connecting 100 false [] []) (Poll 0 (MNotification (note "1"))) = Some s' →
    forwarders s' !! 0%nat = Some Closed.
Proof.
  destruct (dropped_stream_ends_tasks (mkState [Live] Connecting 100 false [] []) (ConnectRefused down) eq_refl) as [_ H].
  split; [done|]. intros s' Hs. by destruct (H 0%nat (note "1") s' Hs).
Defined.

End Listener.
