(* ===== verification/AdminServer.v ===== *)
(** * The administration server (crates/graphile-worker-admin-ui/src/native)

    Authentication, the CSRF check, the routes and every handler, as a
    function from a request and the tables to the tables and a response.  What
    axum, base64 and serde do to a request are fields of [Library]: the
    extractors either give the handler its typed argument or reject the
    request with a status.  A statement of a request may fail; the failures
    are an argument. *)

From S2P Require Import Prelude Text Job Database FlagFilter JobStore JobRelease Hooks AddJob JobInvariant Recovery WorkerUtils AdminApi.
Open Scope Z_scope.

Module AdminServer.
Import Job FlagFilter JobStore JobRelease Hooks AddJob JobInvariant WorkerUtils AdminApi.

(** ** auth/config.rs *)

Inductive PublicAuthMode := ModeBasic | ModeBearer | ModeHeader | ModeNone.

Definition mode_as_str (m : PublicAuthMode) : str :=
  match m with
  | ModeBasic => lit "basic" | ModeBearer => lit "bearer"
  | ModeHeader => lit "header" | ModeNone => lit "none"
  end.

Inductive AdminAuthConfig :=
| Basic (username password : str) (generated_password : bool)
| Bearer (token : str) (generated_token : bool)
| Header (header_name token : str) (generated_token : bool)
| NoAuth.

Record AdminAuthSummary := mkSummary {
  sum_mode : PublicAuthMode;
  sum_username : option str;
  sum_header_name : option str;
  generated_secret : bool
}.

Definition summary (auth : AdminAuthConfig) : AdminAuthSummary :=
  match auth with
  | Basic username _ generated => mkSummary ModeBasic (Some username) None generated
  | Bearer _ generated => mkSummary ModeBearer None None generated
  | Header name _ generated => mkSummary ModeHeader None (Some name) generated
  | NoAuth => mkSummary ModeNone None None false
  end.

Definition secret_for_display (auth : AdminAuthConfig) : option str :=
  match auth with
  | Basic _ password _ => Some password
  | Bearer token _ | Header _ token _ => Some token
  | NoAuth => None
  end.

(** ** Requests *)

Inductive Method := GET | HEAD | OPTIONS | POST | OtherMethod (name : str).
#[global] Instance method_eq : EqDecision Method.
Proof. solve_decision. Defined.

(** Header names are lower case; the values are as received. *)
Abbreviation HeaderMap := (list (str * str)).

Record Request := mkRequest {
  method : Method;
  uri_path : str;
  uri_query : str;
  headers : HeaderMap;
  body : str
}.

(** [HeaderMap::get]: the first value. *)
Definition header_get (hs : HeaderMap) (name : str) : option str :=
  (λ r, r.2.2) <$> list_find (λ h, h.1 = name) hs.

(** [HeaderValue::to_str]: visible ASCII and tab only. *)
Definition to_str (value : str) : option str :=
  if forallb (λ c, (32 <=? c) && (c <? 127) || (c =? 9)) value then Some value else None.

Definition header_text (hs : HeaderMap) (name : str) : option str := v ← header_get hs name; to_str v.

(** [str::strip_prefix]. *)
Definition strip_prefix (s p : str) : option str :=
  if Text.starts_with s p then Some (drop (length p) s) else None.

(** ** Libraries *)

Record Library := mkLibrary {
  decode : str → option str;                        (* base64, then UTF-8 *)
  parse_add_job : str → result AddJobRequest Z;     (* axum's Json *)
  parse_action : str → result JobActionRequest Z;
  parse_remove : str → result str Z;
  parse_maintenance : str → result MaintenanceRequest Z;
  parse_params : str → result ListJobsParams Z;     (* axum's Query *)
  parse_id : str → result Z Z;                      (* axum's Path *)
  ilike : str → str → bool;
  value_text : Value → str;
  text_le : str → str → bool;                       (* the collation *)
  row_order : list DbJob → list DbJob;              (* the order rows come back in *)
  header_name_from_bytes : str → option str;        (* HeaderName::from_bytes *)
  exp_secs : Z → Z
}.

Definition AUTHORIZATION : str := lit "authorization".
Definition CSRF_HEADER : str := lit "x-graphile-worker-admin-csrf".

(** ** auth/verify.rs *)

(** Equality whose time does not depend on the contents. *)
Definition constant_time_eq (left right : str) : bool := bool_decide (bytes left = bytes right).

Section server.
Context (L : Library).

Definition auth_header (header_name token : str) (generated : bool) : option AdminAuthConfig :=
  (λ name, Header name token generated) <$> header_name_from_bytes L header_name.

Definition authorize_basic (hs : HeaderMap) (expected_user expected_password : str) : bool :=
  match
    header ← header_text hs AUTHORIZATION;
    encoded ← strip_prefix header (lit "Basic ");
    credentials ← decode L encoded;
    Text.split_once (lit ":") credentials
  with
  | None => false
  | Some (user, password) =>
      constant_time_eq user expected_user && constant_time_eq password expected_password
  end.

Definition authorize_bearer (hs : HeaderMap) (expected_token : str) : bool :=
  match header ← header_text hs AUTHORIZATION; strip_prefix header (lit "Bearer ") with
  | None => false
  | Some token => constant_time_eq token expected_token
  end.

Definition is_authorized (auth : AdminAuthConfig) (hs : HeaderMap) : bool :=
  match auth with
  | NoAuth => true
  | Basic username password _ => authorize_basic hs username password
  | Bearer token _ => authorize_bearer hs token
  | Header name token _ =>
      match header_text hs name with Some value => constant_time_eq value token | None => false end
  end.

(** ** state.rs *)

Record AdminServerConfig := mkConfig {
  c_schema_name : str;
  c_loopback : bool;                  (* listen_addr.ip().is_loopback() *)
  c_auth : AdminAuthConfig;
  c_read_only : bool;
  c_hooks : option (option (list ScheduleHook));     (* of the WorkerUtils *)
  c_recovery_hook : option (Job → JobRecoveryResult);
  c_use_local_time : bool
}.

Inductive AdminUiError := InsecureNoAuth | InvalidHeaderName (name : str).

Definition validate (c : AdminServerConfig) : result unit AdminUiError :=
  match c_auth c with
  | NoAuth => if c_loopback c then Ok () else Err InsecureNoAuth
  | _ => Ok ()
  end.

Definition build (c : AdminServerConfig) : result AdminServerConfig AdminUiError :=
  let? _ := validate c in Ok c.

Record AppState := mkApp {
  config :> AdminServerConfig;
  csrf_token : str
}.

Definition from_config (secret : str) (c : AdminServerConfig) : result AppState AdminUiError :=
  let? _ := validate c in Ok (mkApp c secret).

(** ** error.rs, responses *)

Record OverviewResponse := mkOverview {
  o_stats : JobStats;
  o_queues : list QueueRow;
  o_workers : list LockedWorkerRow;
  o_active_workers : list ActiveWorkerRow
}.

Record SessionResponse := mkSession {
  s_schema : str;
  s_read_only : bool;
  s_csrf_header : str;
  s_auth : AdminAuthSummary
}.

Inductive AssetName := Css | Js | WasmBindgenJs | Wasm | Favicon.

Inductive Body :=
| Empty
| ErrorBody (error : str)
| MessageBody (message : str)
| SessionBody (s : SessionResponse)
| OverviewBody (o : OverviewResponse)
| JobsBody (js : list ListedJob)
| JobBody (j : ListedJob)
| ActionBody (a : JobActionResponse)
| PageBody (csrf schema : str) (read_only : bool) (auth : AdminAuthSummary)
| AssetBody (a : AssetName).

Record Response := mkResponse { status : Z; response_headers : HeaderMap; response_body : Body }.

Definition json_ok (b : Body) : Response := mkResponse 200 [] b.
Definition json_error_response (code : Z) (message : str) : Response := mkResponse code [] (ErrorBody message).

Record ApiError := mkApiError { error_status : Z; error_message : str }.
Definition bad_request (m : str) : ApiError := mkApiError 400 m.
Definition forbidden (m : str) : ApiError := mkApiError 403 m.
Definition not_found (m : str) : ApiError := mkApiError 404 m.
Definition internal : ApiError := mkApiError 500 (lit "internal server error").

Definition from_query_error (e : AdminQueryError) : ApiError :=
  match e with
  | BadRequest m => bad_request m
  | NotFound m => not_found m
  | Sqlx => internal
  end.

Definition into_response (r : result Body ApiError) : Response :=
  match r with
  | Ok b => json_ok b
  | Err e => json_error_response (error_status e) (error_message e)
  end.

(** ** routes: reading *)

(** The answers of the statements of one request, the transaction time of the
    database, the clock of the server, and the trace of the request. *)
Context (fails : nat → option SqlError) (now clock : Z) (trace : option Value).

Definition text_order : relation str := λ a b, text_le L a b = true.
#[export] Instance text_order_dec : RelDecision text_order.
Proof. unfold text_order. solve_decision. Defined.

(** The k-th statement of a request. *)
Definition answer {A} (k : nat) (v : A) : result A ApiError :=
  match fails k with Some _ => Err internal | None => Ok v end.

Definition session (state : AppState) : SessionResponse :=
  mkSession (c_schema_name state) (c_read_only state) CSRF_HEADER (summary (c_auth state)).

Definition index (state : AppState) : Body :=
  PageBody (csrf_token state) (c_schema_name state) (c_read_only state) (summary (c_auth state)).

Definition overview (d : Db) : result Body ApiError :=
  let? stats := answer 0 (get_stats now d) in
  let? queues := answer 1 (list_queues text_order now d) in
  let? workers := answer 2 (list_locked_workers text_order d) in
  let? active := answer 3 (list_active_workers (Recovery.default_sweep_threshold Recovery.default_config) clock d) in
  Ok (OverviewBody (mkOverview stats queues workers active)).

Definition MAX_LIST : Z := 500.

(** Pagination is checked before the query runs. *)
Definition list_handler (params : ListJobsParams) (d : Db) : result Body ApiError :=
  match list_jobs (ilike L) (value_text L) now (Some MAX_LIST) params d with
  | Err e => Err (from_query_error e)
  | Ok js => answer 0 (JobsBody js)
  end.

Definition get_handler (i : Z) (d : Db) : result Body ApiError :=
  let? r := answer 0 (AdminApi.get_job i d) in
  map_err from_query_error (result_map JobBody r).

(** ** routes: writing *)

Definition ensure_write_allowed (state : AppState) : result unit ApiError :=
  if c_read_only state then Err (forbidden (lit "admin UI is running in read-only mode")) else Ok ().

Definition validate_add_job_request (r : AddJobRequest) : result unit ApiError :=
  match add_job_key_mode r with
  | None => Ok ()
  | Some _ => if is_empty (default [] (Text.trim <$> add_key r))
              then Err (bad_request (lit "key is required when job_key_mode is set")) else Ok ()
  end.

Definition job_key_mode_from_request (m : JobKeyModeRequest) : JobKeyMode :=
  match m with
  | ReplaceRequest => Replace
  | PreserveRunAtRequest => PreserveRunAt
  | UnsafeDedupeRequest => UnsafeDedupe
  end.

(** The builder sets what is given; empty flags are left out. *)
Definition add_job_spec (r : AddJobRequest) : JobSpec :=
  mkSpec (add_queue r) (add_run_at r) (add_max_attempts r) (add_key r)
    (job_key_mode_from_request <$> add_job_key_mode r) (add_priority r)
    (match add_flags r with Some (f :: fs) => Some (f :: fs) | _ => None end).

Definition db_job_output_from_job (job : Job) : DbJobOutput := mkOutput job (Some (task_identifier job)).

(** A handler that changes the tables. *)
Abbreviation Handled := (World * result Body ApiError)%type.
Definition refuse (w : World) (e : ApiError) : Handled := (w, Err e).

Definition add_job_handler (state : AppState) (r : AddJobRequest) (w : World) : Handled :=
  match (let? _ := ensure_write_allowed state in validate_add_job_request r) with
  | Err e => refuse w e
  | Ok _ =>
      match fails 0 with
      | Some _ => refuse w internal
      | None =>
          match add_raw_job trace clock now (c_hooks state) (c_use_local_time state)
                  (add_identifier r) (add_payload r) (add_job_spec r) (tables w) with
          | Some (d, Ok job) =>
              (mkWorld d (cache w),
               Ok (ActionBody (mkActionResponse (lit "Added job " ++ Text.int_text (id job)) [db_job_output_from_job job])))
          | Some (_, Err _) | None => refuse w internal
          end
      end
  end.

(** [action_response]: a second statement resolves the identifiers. *)
Definition action_response (action : str) (rows : list DbJob) (w : World) : result Body ApiError :=
  let? identifiers := answer 1 (task_identifiers_by_id (task_id <$> rows) (tables w)) in
  Ok (ActionBody (mkActionResponse
        (action ++ lit " " ++ dec (Z.of_nat (length rows)) ++ lit " job(s)")
        ((λ j, mkOutput j (identifiers !! task_id j)) <$> rows))).

(** The rows a management function of the schema works on. *)
Definition managed (ids : list Z) (d : Db) : list DbJob :=
  row_order L (rows_where (λ i j, bool_decide (i ∈ ids) && manageable now j) (jobs d)).

Definition DEFAULT_REASON : str := lit "Marked failed from Graphile Worker admin UI".
Definition fail_reason (r : JobActionRequest) : str :=
  match act_reason r with
  | Some reason => if is_empty (Text.trim reason) then DEFAULT_REASON else reason
  | None => DEFAULT_REASON
  end.

Definition complete_action (ids : list Z) (w : World) : Handled :=
  match fails 0 with
  | Some _ => refuse w internal
  | None =>
      let w' := on_db (complete_jobs ids now) w in
      (w', action_response (lit "Completed") (managed ids (tables w)) w')
  end.

Definition fail_action (ids : list Z) (reason : str) (w : World) : Handled :=
  match fails 0 with
  | Some _ => refuse w internal
  | None =>
      let w' := on_db (permanently_fail_jobs ids reason now) w in
      (w', action_response (lit "Failed") (exhaust now reason <$> managed ids (tables w)) w')
  end.

Definition reschedule_action (label : str) (ids : list Z) (o : RescheduleJobOptions) (w : World) : Handled :=
  match fails 0 with
  | Some _ => refuse w internal
  | None =>
      match reschedule_jobs ids o now (tables w) with
      | Err _ => refuse w internal
      | Ok d => let w' := mkWorld d (cache w) in
                (w', action_response label (reschedule o now <$> managed ids (tables w)) w')
      end
  end.

Definition reschedule_handler (r : JobActionRequest) (w : World) : Handled :=
  match act_run_at r, act_priority r, act_attempts r, act_max_attempts r with
  | None, None, None, None => refuse w (bad_request (lit "provide run_at, priority, attempts, or max_attempts"))
  | t, p, a, m => reschedule_action (lit "Rescheduled") (act_ids r) (mkReschedule t p a m) w
  end.

Definition job_action (state : AppState) (r : JobActionRequest) (w : World) : Handled :=
  match ensure_write_allowed state with
  | Err e => refuse w e
  | Ok _ =>
      if is_empty (act_ids r) then refuse w (bad_request (lit "select at least one job"))
      else match act_action r with
           | Complete => complete_action (act_ids r) w
           | Fail => fail_action (act_ids r) (fail_reason r) w
           | RunNow => reschedule_action (lit "Run now") (act_ids r)
                         (mkReschedule (Some clock) (act_priority r) (act_attempts r) (act_max_attempts r)) w
           | Reschedule => reschedule_handler r w
           end
  end.

Definition remove_job_by_key (state : AppState) (k : str) (w : World) : Handled :=
  match ensure_write_allowed state with
  | Err e => refuse w e
  | Ok _ =>
      if is_empty (Text.trim k) then refuse w (bad_request (lit "key is required"))
      else match fails 0 with
           | Some _ => refuse w internal
           | None => (on_db (remove_job k now) w,
                      Ok (MessageBody (lit "Removed job with key `" ++ k ++ lit "`")))
           end
  end.

(** *** routes/maintenance.rs *)

Definition cleanup_task_from_name (n : CleanupTaskName) : CleanupTask :=
  match n with
  | DeletePermanentlyFailed => DeletePermanentlyFailedJobs
  | GcTasks => GcTaskIdentifiers
  | GcQueues => GcJobQueues
  end.

Definition sweep_message (dry_run : bool) (r : Recovery.SweepStaleWorkersResult) : str :=
  let n := dec (Z.of_nat (length (Recovery.worker_ids r))) in
  let names := Text.join (lit ", ") (Recovery.worker_ids r) in
  if is_empty (Recovery.worker_ids r) then lit "No stale workers found"
  else if dry_run then lit "Would recover " ++ n ++ lit " worker(s): " ++ names
  else lit "Recovered " ++ dec (Recovery.recovered_count r) ++ lit " job(s) from " ++ n ++
       lit " worker(s): " ++ names.

(** The tables are those of a migrated schema, which [migrate] leaves alone;
    [acquired] is the answer of the sweep's advisory lock. *)
Definition maintenance (acquired : bool) (state : AppState) (r : MaintenanceRequest) (w : World) : Handled :=
  match ensure_write_allowed state with
  | Err e => refuse w e
  | Ok _ =>
      match m_action r with
      | Migrate => (w, answer 0 (MessageBody (lit "Migrations complete")))
      | Cleanup =>
          let names := if is_empty (m_cleanup_tasks r) then all_cleanup_tasks else m_cleanup_tasks r in
          match cleanup (λ _ w, w) fails (cleanup_task_from_name <$> names) [] 0 w with
          | (w, Ok _) => (w, Ok (MessageBody (lit "Cleanup complete")))
          | (w, Err _) => refuse w internal
          end
      | ForceUnlock =>
          if is_empty (m_worker_ids r) then refuse w (bad_request (lit "provide at least one worker id"))
          else match fails 0 with
               | Some _ => refuse w internal
               | None => (on_db (force_unlock_workers (m_worker_ids r)) w,
                          Ok (MessageBody (lit "Unlocked " ++ dec (Z.of_nat (length (m_worker_ids r))) ++
                                           lit " worker id(s)")))
               end
      | SweepStaleWorkers =>
          match fails 0 with
          | Some _ => refuse w internal
          | None =>
              let o := Recovery.mkSweepOptions (Recovery.seconds <$> m_sweep_threshold_secs r)
                         (Recovery.seconds <$> m_recovery_delay_secs r) (m_dry_run r) in
              let '(d, res) := Recovery.sweep_stale_workers (exp_secs L) acquired (c_recovery_hook state)
                                 Recovery.default_config o now clock (tables w) in
              (mkWorld d (cache w), Ok (MessageBody (sweep_message (m_dry_run r) res)))
          end
      end
  end.

(** ** server.rs *)

Inductive Endpoint :=
| ESession | EOverview | EJobs | EJob (segment : str) | EAction | ERemove | EMaintenance
| EIndex | EAsset (a : AssetName).

Definition static_routes : list (str * Endpoint) :=
  [(lit "/api/session", ESession); (lit "/api/overview", EOverview); (lit "/api/jobs", EJobs);
   (lit "/api/jobs/action", EAction); (lit "/api/jobs/remove-by-key", ERemove);
   (lit "/api/maintenance", EMaintenance); (lit "/", EIndex); (lit "/assets/admin.css", EAsset Css);
   (lit "/assets/admin.js", EAsset Js); (lit "/assets/admin_ui.js", EAsset WasmBindgenJs);
   (lit "/assets/admin_ui_bg.wasm", EAsset Wasm); (lit "/favicon.ico", EAsset Favicon)].

(** A static route wins over [/api/jobs/{id}], which takes one segment. *)
Definition route (path : str) : option Endpoint :=
  match list_find (λ r, r.1 = path) static_routes with
  | Some (_, (_, e)) => Some e
  | None =>
      segment ← strip_prefix path (lit "/api/jobs/");
      if is_empty segment || existsb (Z.eqb 47) segment then None else Some (EJob segment)
  end.

Definition is_api (e : Endpoint) : bool := match e with EIndex | EAsset _ => false | _ => true end.

Definition extracted {A} (r : result A Z) (w : World) (k : A → World * Response) : World * Response :=
  match r with Ok a => k a | Err code => (w, mkResponse code [] Empty) end.

Definition responded (h : Handled) : World * Response := (h.1, into_response h.2).

Definition content_type (a : AssetName) : str :=
  match a with
  | Css => lit "text/css; charset=utf-8"
  | Js | WasmBindgenJs => lit "application/javascript; charset=utf-8"
  | Wasm => lit "application/wasm"
  | Favicon => lit "image/svg+xml"
  end.

Definition get_route (state : AppState) (e : Endpoint) (req : Request) (w : World) :
    option (World * Response) :=
  match e with
  | ESession => Some (w, json_ok (SessionBody (session state)))
  | EOverview => Some (w, into_response (overview (tables w)))
  | EJobs => Some (extracted (parse_params L (uri_query req)) w
                     (λ params, (w, into_response (list_handler params (tables w)))))
  | EJob segment => Some (extracted (parse_id L segment) w
                            (λ i, (w, into_response (get_handler i (tables w)))))
  | EIndex => Some (w, json_ok (index state))
  | EAsset a => Some (w, mkResponse 200 [(lit "content-type", content_type a)] (AssetBody a))
  | EAction | ERemove | EMaintenance => None
  end.

Definition post_route (acquired : bool) (state : AppState) (e : Endpoint) (req : Request) (w : World) :
    option (World * Response) :=
  match e with
  | EJobs => Some (extracted (parse_add_job L (body req)) w (λ r, responded (add_job_handler state r w)))
  | EAction => Some (extracted (parse_action L (body req)) w (λ r, responded (job_action state r w)))
  | ERemove => Some (extracted (parse_remove L (body req)) w (λ k, responded (remove_job_by_key state k w)))
  | EMaintenance =>
      Some (extracted (parse_maintenance L (body req)) w (λ r, responded (maintenance acquired state r w)))
  | _ => None
  end.

(** [get] also answers HEAD, without a body. *)
Definition call (acquired : bool) (state : AppState) (e : Endpoint) (req : Request) (w : World) :
    World * Response :=
  let not_allowed := (w, mkResponse 405 [] Empty) in
  match method req with
  | GET => default not_allowed (get_route state e req w)
  | HEAD => match get_route state e req w with
            | Some (w, r) => (w, mkResponse (status r) (response_headers r) Empty)
            | None => not_allowed
            end
  | POST => default not_allowed (post_route acquired state e req w)
  | _ => not_allowed
  end.

(** ** middleware.rs *)

Definition is_write_method (m : Method) : bool :=
  match m with GET | HEAD | OPTIONS => false | _ => true end.

Definition csrf_matches (hs : HeaderMap) (expected_token : str) : bool :=
  match header_text hs CSRF_HEADER with Some value => constant_time_eq value expected_token | None => false end.

Definition is_static_asset (path : str) : bool :=
  Text.starts_with path (lit "/assets/") || bool_decide (path = lit "/favicon.ico").

(** The double quotes of a quoted string. *)
Definition quoted (s : str) : str := [34] ++ s ++ [34].

Definition unauthorized_response (auth : AdminAuthConfig) : Response :=
  let challenge :=
    match auth with
    | Basic _ _ _ => [(lit "www-authenticate", lit "Basic realm=" ++ quoted (lit "Graphile Worker Admin")
                                               ++ lit ", charset=" ++ quoted (lit "UTF-8"))]
    | _ => []
    end in
  mkResponse 401 challenge (ErrorBody (lit "unauthorized")).

Definition require_page_auth (state : AppState) (req : Request) (next : World → World * Response) (w : World) :
    World * Response :=
  if is_authorized (c_auth state) (headers req) then next w
  else (w, unauthorized_response (c_auth state)).

Definition require_api_auth (state : AppState) (req : Request) (next : World → World * Response) (w : World) :
    World * Response :=
  if negb (is_authorized (c_auth state) (headers req)) then (w, unauthorized_response (c_auth state))
  else if is_write_method (method req) && negb (csrf_matches (headers req) (csrf_token state))
  then (w, json_error_response 403 (lit "missing or invalid admin CSRF token"))
  else next w.

Definition policy_headers (path : str) : HeaderMap :=
  [(lit "cache-control", if is_static_asset path then lit "public, max-age=3600" else lit "no-store");
   (lit "x-content-type-options", lit "nosniff"); (lit "x-frame-options", lit "DENY");
   (lit "referrer-policy", lit "no-referrer");
   (lit "content-security-policy", lit "default-src 'self'; script-src 'self' 'wasm-unsafe-eval'; style-src 'self' 'unsafe-inline'; img-src 'self' data:; connect-src 'self'; frame-ancestors 'none'; base-uri 'none'; form-action 'self'")].

Definition security_headers (req : Request) (next : World → World * Response) (w : World) : World * Response :=
  let '(w, r) := next w in
  (w, mkResponse (status r) (policy_headers (uri_path req) ++ response_headers r) (response_body r)).

(** [build_router]: the layers around the routes, outermost last. *)
Definition routes (acquired : bool) (state : AppState) (req : Request) (w : World) : World * Response :=
  match route (uri_path req) with
  | None => (w, mkResponse 404 [] Empty)
  | Some e => if is_api e then require_api_auth state req (call acquired state e req) w
              else call acquired state e req w
  end.

Definition serve (acquired : bool) (state : AppState) (req : Request) (w : World) : World * Response :=
  let app := security_headers req (routes acquired state req) in
  match c_auth state with
  | Basic _ _ _ => require_page_auth state req app w
  | _ => app w
  end.
End server.

(** ** Who may change the tables *)

Section guards.
Context (L : Library) (fails : nat → option SqlError) (now clock : Z) (trace : option Value) (acquired : bool).

Abbreviation get_route := (get_route L fails now clock).
Abbreviation post_route := (post_route L fails now clock trace).
Abbreviation call := (call L fails now clock trace).
Abbreviation routes := (routes L fails now clock trace).
Abbreviation serve := (serve L fails now clock trace).

Lemma extracted_world {A} (r : result A Z) w (k : A → World * Response) :
  (∀ a, (k a).1 = w) → (extracted r w k).1 = w.
Proof. intros H. destruct r; [apply H|done]. Qed.

Lemma get_route_world (state : AppState) e req w res : get_route state e req w = Some res → res.1 = w.
Proof. destruct e; intros [= <-]; try done; by apply extracted_world. Qed.

Lemma post_route_read_only (state : AppState) e req w res :
  c_read_only state = true → post_route acquired state e req w = Some res → res.1 = w.
Proof.
  intros Hr. destruct e; intros [= <-]; apply extracted_world; intros r; unfold responded, add_job_handler,
    job_action, remove_job_by_key, maintenance, ensure_write_allowed; by rewrite Hr.
Qed.

(** Only a POST request of a server that is not read-only changes anything. *)
Lemma call_world (state : AppState) e req w :
  (call acquired state e req w).1 ≠ w → method req = POST ∧ c_read_only state = false ∧ is_api e = true.
Proof.
  unfold AdminServer.call. destruct (method req) eqn:Em; try done.
  - destruct (get_route state e req w) as [res|] eqn:E; [|done]. by apply get_route_world in E.
  - destruct (get_route state e req w) as [[w' r]|] eqn:E; [|done]. by apply get_route_world in E.
  - destruct (post_route acquired state e req w) as [res|] eqn:E; [|done]. cbn. intros Hne.
    destruct (c_read_only state) eqn:Er; [by apply post_route_read_only in E|]. by destruct e.
Qed.

Lemma security_headers_world req next w : (security_headers req next w).1 = (next w).1.
Proof. unfold security_headers. by destruct (next w). Qed.

Lemma serve_cases (state : AppState) req w (P : World * Response → Prop) :
  (is_authorized L (c_auth state) (headers req) = false → (∃ u p g, c_auth state = Basic u p g) →
   P (w, unauthorized_response (c_auth state))) →
  P (security_headers req (routes acquired state req) w) → P (serve acquired state req w).
Proof.
  unfold AdminServer.serve, require_page_auth. intros H1 H2. destruct (c_auth state); try done.
  destruct (is_authorized _ _ _); eauto.
Qed.

(** C27: a request changes the tables only if it is a POST with the credentials
    and the CSRF token the server asks for, and the server is not read-only;
    a server without credentials listens on a loopback address only. *)
Theorem writes_are_guarded secret c (state : AppState) req w :
  from_config secret c = Ok state →
  (serve acquired state req w).1 ≠ w →
  method req = POST ∧ c_read_only state = false ∧
  is_authorized L (c_auth state) (headers req) = true ∧ csrf_matches (headers req) secret = true ∧
  (c_auth state = NoAuth → c_loopback state = true).
Proof.
  intros Hc. apply serve_cases; [done|]. rewrite security_headers_world. unfold AdminServer.routes.
  destruct (route (uri_path req)) as [e|]; [|done].
  assert (csrf_token state = secret ∧ (c_auth state = NoAuth → c_loopback state = true)) as [<- Hl].
  { unfold from_config, validate in Hc. destruct (c_auth c) eqn:Ec, (c_loopback c) eqn:El; simplify_eq; cbn; rewrite ?Ec; done. }
  destruct (is_api e) eqn:Ea.
  - unfold require_api_auth. destruct (is_authorized _ _ _) eqn:Eauth; [|done]. cbn.
    destruct (is_write_method (method req) && negb _) eqn:Ew; [done|].
    intros (Hm & Hr & _)%call_world. rewrite Hm in Ew. cbn in Ew. apply negb_false_iff in Ew. done.
  - intros (_ & _ & He)%call_world. congruence.
Qed.

Definition api_path (path : str) : bool := match route path with Some e => is_api e | None => false end.
Definition is_basic (auth : AdminAuthConfig) : bool := match auth with Basic _ _ _ => true | _ => false end.

(** The response to a request that lacks the credentials or the token does
    not depend on the tables, which it leaves alone. *)
Definition refused (state : AppState) (req : Request) (code : Z) (m : str) : Prop :=
  ∃ r, status r = code ∧ response_body r = ErrorBody m ∧ ∀ w, serve acquired state req w = (w, r).

(** Unauthenticated requests learn nothing.  Every request to an API route
    without credentials, and with HTTP Basic every request at all, is answered
    401 whatever the tables hold; with credentials, a write without the CSRF
    token is answered 403; neither touches the tables. *)
Theorem refused_requests_learn_nothing (state : AppState) req :
  (is_authorized L (c_auth state) (headers req) = false →
   api_path (uri_path req) = true ∨ is_basic (c_auth state) = true → refused state req 401 (lit "unauthorized")) ∧
  (is_authorized L (c_auth state) (headers req) = true → api_path (uri_path req) = true →
   is_write_method (method req) = true → csrf_matches (headers req) (csrf_token state) = false →
   refused state req 403 (lit "missing or invalid admin CSRF token")).
Proof.
  unfold refused, AdminServer.serve, require_page_auth, security_headers, AdminServer.routes,
    require_api_auth, api_path. split.
  - intros Hn Hg. destruct (c_auth state) eqn:Eauth; rewrite Hn;
      (destruct Hg as [Hg|Hg]; [destruct (route (uri_path req)) as [e|]; [|done]; rewrite ?Hg|try done]);
      eexists; split_and!; try (intros; reflexivity); done.
  - intros Hy Hg Hw Hcs. destruct (route (uri_path req)) as [e|]; [|done].
    destruct (c_auth state); rewrite Hy, Hg, Hw, Hcs; eexists; split_and!; try (intros; reflexivity); done.
Qed.

(** Listing never returns more than 500 jobs. *)
Lemma list_handler_capped params d js :
  list_handler L fails now params d = Ok (JobsBody js) → (length js ≤ 500)%nat.
Proof.
  unfold list_handler, AdminApi.list_jobs, answer. repeat (case_match; try done). intros; simplify_eq.
  rewrite length_take. unfold effective_limit, MAX_LIST. lia.
Qed.
End guards.

(** ** Credentials *)

Lemma split_once_colon a b : 58 ∉ a → Text.split_once (lit ":") (a ++ lit ":" ++ b) = Some (a, b).
Proof.
  change (lit ":") with [58]. induction a as [|c a IH]; intros Hn; [done|].
  cbn [app Text.split_once Text.starts_with]. destruct (Z.eqb_spec 58 c) as [<-|]; [set_solver|].
  cbn [andb]. change (a ++ 58 :: b) with (a ++ [58] ++ b). rewrite IH by set_solver. done.
Qed.

Lemma split_once_no_colon s a b : Text.split_once (lit ":") s = Some (a, b) → 58 ∉ a.
Proof.
  change (lit ":") with [58]. revert a. induction s as [|c s IH]; intros a; [done|].
  cbn [Text.split_once Text.starts_with]. destruct (Z.eqb_spec 58 c) as [<-|]; cbn [andb];
    [intros [= <- <-]; set_solver|].
  destruct (Text.split_once [58] s) as [[x y]|]; [|done]. cbn. intros [= <- <-].
  apply not_elem_of_cons. eauto.
Qed.

(** A colon is a byte of its own in UTF-8. *)
Lemma colon_bytes s : 58 ∈ bytes s ↔ 58 ∈ s.
Proof.
  unfold bytes. rewrite list_elem_of_bind. split.
  - intros (c & Hc & Hin). destruct (Z.lt_ge_cases c 128) as [Hlt|Hge].
    + rewrite utf8_char_ascii in Hc by done. set_solver.
    + apply utf8_char_high in Hc; lia.
  - intros Hin. exists 58. split; [rewrite utf8_char_ascii by lia; set_solver|done].
Qed.

Lemma strip_prefix_app p s : strip_prefix (p ++ s) p = Some s.
Proof.
  unfold strip_prefix. replace (Text.starts_with (p ++ s) p) with true; [by rewrite drop_app_length|].
  symmetry. apply Text.starts_with_spec. eauto.
Qed.

(** HTTP Basic.  The credentials of the configuration, sent the standard
    way, are accepted exactly when the user name has no colon; with a colon in
    the configured user name no request whatsoever is accepted. *)
Theorem basic_login_exact L (encode : str → str) user password :
  (∀ t, decode L (encode t) = Some t) → (∀ t, to_str (encode t) = Some (encode t)) →
  (58 ∉ user → authorize_basic L [(AUTHORIZATION, lit "Basic " ++ encode (user ++ lit ":" ++ password))]
                 user password = true) ∧
  (58 ∈ user → ∀ hs, authorize_basic L hs user password = false).
Proof.
  intros Hd Hv. split.
  - intros Hn. unfold authorize_basic, header_text.
    change (header_get _ _) with (Some (lit "Basic " ++ encode (user ++ lit ":" ++ password))). cbn [mbind option_bind].
    replace (to_str _) with (Some (lit "Basic " ++ encode (user ++ lit ":" ++ password))).
    + cbn [mbind option_bind]. rewrite strip_prefix_app. cbn [mbind option_bind]. rewrite Hd. cbn [mbind option_bind].
      rewrite split_once_colon by done. unfold constant_time_eq. by rewrite !bool_decide_eq_true_2.
    + specialize (Hv (user ++ lit ":" ++ password)). unfold to_str in *. rewrite forallb_app.
      destruct (forallb _ (encode _)); done.
  - intros Hin hs. unfold authorize_basic. destruct (_ ≫= _) as [[u p]|] eqn:E; [|done].
    destruct (header_text hs AUTHORIZATION) as [h|]; [|done]. cbn in E.
    destruct (strip_prefix h _) as [enc|]; [|done]. cbn in E. destruct (decode L enc) as [c|]; [|done]. cbn in E.
    apply split_once_no_colon in E. unfold constant_time_eq. apply andb_false_iff. left.
    apply bool_decide_eq_false. intros Hb. apply E, colon_bytes. rewrite Hb. by apply colon_bytes.
Qed.

(** ** Requests are statements of the schema *)

Section statements.
Context (L : Library) (fails : nat → option SqlError) (now clock : Z) (trace : option Value) (acquired : bool).

(** The statements of a request satisfy [ok] when it allows those with no
    particular label, and hooks, when there are any, to reschedule. *)
Context (ok : Db → Label → Prop) (ok_other : ∀ d, ok d LOther).
Abbreviation steps := (rtc (step_with (exp_secs L) ok)).
Abbreviation schedules_ok := (∀ d i a, ok d (LSchedule i a)).

Lemma one_step d d' : db_step (exp_secs L) d LOther d' → steps d d'.
Proof. intros H. apply rtc_once. by exists LOther. Qed.

Lemma registered_steps k names w w' r :
  is_empty names = false → registered fails k names w = (w', r) → steps (tables w) (tables w').
Proof.
  intros Hn. unfold registered. destruct (fails k); [intros [= <- _]; done|].
  destruct (register_names names (tables w)) as [d|] eqn:E; intros [= <- _]; [|done].
  apply one_step. apply (step_tasks _ _ names _ (select_details names d)).
  unfold get_tasks_details, register_names in *. by rewrite Hn, E.
Qed.

Lemma refresh_steps n k w w' r :
  refresh_attempts (λ _ w, w) fails n k w = (w', r) → steps (tables w) (tables w').
Proof.
  revert k w. induction n as [|n IH]; intros k w; cbn [refresh_attempts]; [by intros [= <- _]|].
  assert (∀ w1 td, steps (tables w) (tables w1) →
    publish (λ _ w, w) (refresh_attempts (λ _ w, w) fails n (k + answers_per_attempt)%nat) (k + 2) (cache w) td w1
      = (w', r) → steps (tables w) (tables w')) as Hp.
  { intros w1 td Hs. unfold publish. case_bool_decide; [by intros [= <- _]|]. intros ?%IH. by etrans. }
  destruct (is_empty _) eqn:Ee; [by apply Hp|].
  destruct (registered fails k _ w) as [w1 [[]|e]] eqn:E; apply registered_steps in E; try done;
    [|by intros [= <- _]].
  destruct (fails (k + 1)); [by intros [= <- _]|by apply Hp].
Qed.

Lemma cleanup_steps ts keep k w w' r :
  cleanup (λ _ w, w) fails ts keep k w = (w', r) → steps (tables w) (tables w').
Proof.
  revert k w. induction ts as [|t ts IH]; intros k w; cbn [cleanup]; [by intros [= <- _]|].
  assert (∀ names w1 r1, execute_cleanup_task (λ _ w, w) fails k t names w = (w1, r1) →
    steps (tables w) (tables w1)) as Hx.
  { intros names w1 r1. unfold execute_cleanup_task. destruct (fails k); intros [= <- _]; [done|].
    apply one_step, step_cleanup. }
  destruct (match t with GcTaskIdentifiers => _ | _ => _ end) as [w1 [[]|e]] eqn:E.
  all: assert (steps (tables w) (tables w1)) as Hs; [|by try (intros [= <- _]); try (intros ?%IH; etrans)].
  all: destruct t; [|by eapply Hx..].
  all: destruct (execute_cleanup_task _ _ _ _ _ w) as [w0 [[]|e0]] eqn:E0; apply Hx in E0; [|by simplify_eq].
  all: apply refresh_steps in E; by etrans.
Qed.

Lemma recovery_steps action job w reason delay d :
  schedules_ok → steps d (Recovery.apply_job_recovery (exp_secs L) action job w reason delay now d).1.
Proof.
  intros Hs. destruct action; cbn [Recovery.apply_job_recovery fst].
  - apply one_step, step_return_recovery.
  - etrans; [apply one_step, step_return_recovery|]. apply rtc_once. eexists. split; [apply Hs|].
    apply step_recovered_schedule.
  - apply one_step, step_fail.
  - done.
Qed.

Lemma recover_loop_steps h delay js acc :
  schedules_ok → steps acc.1.1 (foldl (Recovery.recover_one (exp_secs L) h delay now) acc js).1.1.
Proof.
  intros Hs. revert acc. induction js as [|j js IH]; intros [[d n] em]; cbn [foldl]; [done|].
  etrans; [|apply IH]. unfold Recovery.recover_one. destruct (locked_by j) as [w|]; [|done].
  pose proof (recovery_steps (h j) j w Recovery.WorkerCrashed delay d Hs) as H.
  destruct (Recovery.apply_job_recovery _ _ _ _ _ _ _ _) as [d1 o]. by destruct (Recovery.was_handled o).
Qed.

Lemma sweep_steps hook defaults o d d' res :
  hook = None ∨ schedules_ok →
  Recovery.sweep_stale_workers (exp_secs L) acquired hook defaults o now clock d = (d', res) → steps d d'.
Proof.
  intros Hh. unfold Recovery.sweep_stale_workers. destruct (negb acquired); [by intros [= <- _]|].
  destruct (Recovery.dry_run _); [by intros [= <- _]|]. set (dead := Recovery.find_dead_worker_ids _ _ _ _).
  assert (∀ delay, steps d (Recovery.recover_jobs_from_workers (exp_secs L) hook dead delay now d).1.1) as Hrec.
  { intros delay. unfold Recovery.recover_jobs_from_workers. destruct (is_empty dead); [done|].
    destruct hook as [h|]; [apply (recover_loop_steps h delay _ (d, 0, [])); by destruct Hh|].
    pose proof (step_recover (exp_secs L) d dead delay now) as H.
    destruct (recover_dead_worker_jobs dead delay now d) as [d1 n]. by apply one_step. }
  specialize (Hrec (Recovery.recovery_delay (Recovery.resolve o defaults))).
  destruct (Recovery.recover_jobs_from_workers _ _ _ _ _ _) as [[d1 n] em]. intros [= <- _].
  etrans; [exact Hrec|]. apply one_step, step_delete_workers.
Qed.

Lemma add_raw_job_steps hooks local name v spec d d' r :
  add_raw_job trace clock now hooks local name v spec d = Some (d', r) → steps d d'.
Proof.
  unfold add_raw_job. destruct (invoke_before_job_schedule _ _ _ _) as [[v'|]|]; cbn; [|by intros [= <- _]|done].
  destruct (add_job _ _ _ _ _ _ _ _) as [[d1 j]|] eqn:E; intros [= <- _]; [|done].
  apply one_step. by eapply step_add_job.
Qed.

Lemma reschedule_steps label ids o w :
  steps (tables w) (tables (reschedule_action L fails now label ids o w).1).
Proof.
  unfold reschedule_action. destruct (fails 0); [done|].
  destruct (reschedule_jobs _ _ _ _) as [d|] eqn:E; [|done]. apply one_step. by eapply step_reschedule.
Qed.

Lemma job_action_steps state r w :
  steps (tables w) (tables (job_action L fails now clock state r w).1).
Proof.
  unfold job_action. destruct (ensure_write_allowed state); [|done]. destruct (is_empty _); [done|].
  destruct (act_action r).
  - unfold complete_action. destruct (fails 0); [done|]. apply one_step, step_complete_jobs.
  - unfold fail_action. destruct (fails 0); [done|]. apply one_step, step_permanently_fail.
  - by apply reschedule_steps.
  - unfold reschedule_handler. repeat case_match; try done; by apply reschedule_steps.
Qed.

Lemma maintenance_steps (state : AppState) r w :
  c_recovery_hook state = None ∨ schedules_ok →
  steps (tables w) (tables (maintenance L fails now clock acquired state r w).1).
Proof.
  intros Hh. unfold maintenance. destruct (ensure_write_allowed state); [|done]. destruct (m_action r).
  - done.
  - destruct (cleanup _ _ _ _ _ _) as [w1 [[]|e]] eqn:E; by apply cleanup_steps in E.
  - destruct (is_empty _); [done|]. destruct (fails 0); [done|]. apply one_step, step_force_unlock.
  - destruct (fails 0); [done|]. destruct (Recovery.sweep_stale_workers _ _ _ _ _ _ _ _) as [d res] eqn:E.
    cbn [fst tables]. by eapply sweep_steps.
Qed.

Lemma post_route_steps (state : AppState) e req w w' r :
  c_recovery_hook state = None ∨ schedules_ok →
  post_route L fails now clock trace acquired state e req w = Some (w', r) → steps (tables w) (tables w').
Proof.
  intros Hh. destruct e; cbn; try done; unfold extracted, responded.
  - destruct (parse_add_job _ _) as [a|]; intros [= <- _]; [|done]. unfold add_job_handler.
    destruct (let? _ := _ in _); [|done]. destruct (fails 0); [done|].
    destruct (add_raw_job _ _ _ _ _ _ _ _ _) as [[d [j|]]|] eqn:E; [|done..]. by apply add_raw_job_steps in E.
  - destruct (parse_action _ _) as [a|] eqn:E; intros [= <- _]; [|done]. apply job_action_steps.
  - destruct (parse_remove _ _) as [k|]; intros [= <- _]; [|done]. unfold remove_job_by_key.
    destruct (ensure_write_allowed state); [|done]. destruct (is_empty _); [done|]. destruct (fails 0); [done|].
    apply one_step, step_remove.
  - destruct (parse_maintenance _ _) as [a|]; intros [= <- _]; [|done]. by apply maintenance_steps.
Qed.

Lemma serve_steps (state : AppState) req w :
  c_recovery_hook state = None ∨ schedules_ok →
  steps (tables w) (tables (serve L fails now clock trace acquired state req w).1).
Proof.
  intros Hh. apply serve_cases; [done|].
  rewrite security_headers_world. unfold routes. destruct (route _) as [e|]; [|done].
  assert (steps (tables w) (tables (call L fails now clock trace acquired state e req w).1)) as Hcall.
  { unfold call. destruct (method req); try done.
    - destruct (get_route _ _ _ _ _ _ _ _) as [res|] eqn:E; [|done]. apply get_route_world in E. by cbn; rewrite E.
    - destruct (get_route _ _ _ _ _ _ _ _) as [[w1 r]|] eqn:E; [|done]. apply get_route_world in E. by cbn in *; subst.
    - destruct (post_route _ _ _ _ _ _ _ _ _ _) as [[w1 r]|] eqn:E; [|done]. by apply post_route_steps in E. }
  destruct (is_api e); [|done]. unfold require_api_auth. by repeat case_match.
Qed.
End statements.

(** C28: whatever a request asks, whatever recovery hook is registered and
    wherever a statement fails, what the server does to the tables is a
    sequence of statements of the schema, none of them a worker's completion:
    the tables it leaves are reachable when they were, and reached with owned
    completions when they were, so that queues stay serial.  Without a
    recovery hook it also gives no retired job new attempts. *)
Theorem requests_keep_tables_reachable L fails now clock trace acquired (state : AppState) req w :
  let after := tables (serve L fails now clock trace acquired state req w).1 in
  rtc (step_with (exp_secs L) no_completion) (tables w) after ∧
  (reachable (exp_secs L) (tables w) → reachable (exp_secs L) after) ∧
  (run_with (exp_secs L) owned_completions (tables w) → run_with (exp_secs L) owned_completions after) ∧
  (c_recovery_hook state = None →
   run_with (exp_secs L) spares_retired (tables w) → run_with (exp_secs L) spares_retired after).
Proof.
  intros after.
  assert (∀ ok, (∀ d, ok d LOther) → c_recovery_hook state = None ∨ (∀ d i a, ok d (LSchedule i a)) →
    rtc (step_with (exp_secs L) ok) (tables w) after) as Hs by (intros; by apply serve_steps).
  split_and!.
  - apply Hs; [done|by right].
  - intros Hr. unfold reachable, run_with. etrans; [exact Hr|]. apply Hs; [done|by right].
  - intros Hr. unfold run_with. etrans; [exact Hr|]. apply Hs; [done|by right].
  - intros Hh Hr. unfold run_with. etrans; [exact Hr|]. apply Hs; [done|by left].
Qed.

(** A job that spent more attempts than it is allowed, as rescheduling with a
    lower limit leaves it, is counted as failed but kept by the cleanup of
    permanently failed jobs. *)
Theorem overspent_jobs_survive_cleanup now names d i j :
  jobs d !! i = Some j → locked_at j = None → max_attempts j < attempts j →
  in_state now AdminApi.Failed j = true ∧
  jobs (cleanup_execute DeletePermanentlyFailedJobs names d) !! i = Some j.
Proof.
  intros Hj Hl Ha. split.
  - unfold in_state. rewrite bool_decide_eq_true_2 by done. cbn. lia.
  - apply delete_where_Some. split; [done|]. destruct (Z.eqb_spec (attempts j) (max_attempts j)); [lia|done].
Qed.

(** ** Witnesses *)

(** A text encoding in visible ASCII: each character in unary with its sign. *)
Definition demo_encode (t : str) : str :=
  flat_map (λ c, (if c <? 0 then [110] else []) ++ repeat 97 (Z.to_nat (Z.abs c)) ++ [98]) t.
Fixpoint demo_decode_from (neg : bool) (n : Z) (s : str) : option str :=
  match s with
  | [] => Some []
  | 110 :: s => demo_decode_from true n s
  | 97 :: s => demo_decode_from neg (n + 1) s
  | 98 :: s => ((if neg then - n else n) ::.) <$> demo_decode_from false 0 s
  | _ => None
  end.
Definition demo_decode (s : str) : option str := demo_decode_from false 0 s.

Lemma demo_decode_run neg n k s :
  demo_decode_from neg n (repeat 97 k ++ [98] ++ s)
  = ((if neg then - (n + Z.of_nat k) else n + Z.of_nat k) ::.) <$> demo_decode_from false 0 s.
Proof.
  revert n. induction k as [|k IH]; intros n; cbn [repeat app demo_decode_from]; [by rewrite Z.add_0_r|].
  change (repeat 97 k ++ 98 :: s) with (repeat 97 k ++ [98] ++ s). rewrite IH.
  by replace (n + 1 + Z.of_nat k) with (n + Z.of_nat (S k)) by lia.
Qed.

Lemma demo_decode_encode t : demo_decode (demo_encode t) = Some t.
Proof.
  unfold demo_decode. induction t as [|c t IH]; [done|]. cbn [demo_encode flat_map].
  rewrite <- !app_assoc. destruct (Z.ltb_spec c 0); cbn [app demo_decode_from];
    change (98 :: flat_map _ t) with ([98] ++ demo_encode t); rewrite demo_decode_run, IH; cbn; do 2 f_equal; lia.
Qed.

Lemma demo_encode_visible t : to_str (demo_encode t) = Some (demo_encode t).
Proof.
  unfold to_str. replace (forallb _ _) with true; [done|]. symmetry.
  induction t as [|c t IH]; [done|]. cbn [demo_encode flat_map]. rewrite !forallb_app. fold (demo_encode t). rewrite IH.
  replace (forallb _ (repeat 97 _)) with true; [by destruct (c <? 0)|].
  symmetry. by induction (Z.to_nat (Z.abs c)).
Qed.

Definition demo_job : AddJobRequest :=
  mkAddJob (lit "task") (Object []) (Some (lit "q")) None None None None None None.
Definition demo_library : Library :=
  mkLibrary demo_decode (λ _, Ok demo_job) (λ _, Ok (mkAction Complete [1] None None None None None))
    (λ b, Ok b) (λ _, Err 400) (λ _, Err 400) (λ _, Err 400) (λ _ _, true) (λ _, []) (λ _ _, true)
    (λ l, l) Some (λ _, 0).
Definition demo_config : AdminServerConfig :=
  mkConfig (lit "graphile_worker") true (Basic (lit "admin") (lit "pw") false) false None None false.
Definition demo_app : AppState := mkApp demo_config (lit "token").
Definition demo_login : HeaderMap :=
  [(AUTHORIZATION, lit "Basic " ++ demo_encode (lit "admin:pw")); (CSRF_HEADER, lit "token")].
Definition demo_request (hs : HeaderMap) : Request := mkRequest POST (lit "/api/jobs") [] hs [].
Definition demo_serve (hs : HeaderMap) (w : World) : World * Response :=
  serve demo_library (λ _, None) 10 10 None true demo_app (demo_request hs) w.
Definition demo_empty : World := mkWorld empty_db ∅.

Lemma writes_are_guarded_witness :
  status (demo_serve demo_login demo_empty).2 = 200 ∧
  is_authorized demo_library (c_auth demo_app) demo_login = true ∧ csrf_matches demo_login (lit "token") = true.
Proof.
  split; [vm_compute; reflexivity|].
  destruct (writes_are_guarded demo_library (λ _, None) 10 10 None true (lit "token") demo_config demo_app
    (demo_request demo_login) demo_empty) as (_ & _ & Ha & Hc & _).
  - reflexivity.
  - intros H%(f_equal (λ w, jobs_seq (tables w))). vm_compute in H. discriminate H.
  - done.
Defined.

Lemma refused_requests_learn_nothing_witness :
  refused demo_library (λ _, None) 10 10 None true demo_app (demo_request []) 401 (lit "unauthorized") ∧
  refused demo_library (λ _, None) 10 10 None true demo_app (demo_request (take 1 demo_login)) 403
    (lit "missing or invalid admin CSRF token").
Proof.
  split.
  - apply (refused_requests_learn_nothing demo_library (λ _, None) 10 10 None true demo_app (demo_request []));
      [reflexivity|left; reflexivity].
  - apply (refused_requests_learn_nothing demo_library (λ _, None) 10 10 None true demo_app
      (demo_request (take 1 demo_login))); vm_compute; reflexivity.
Defined.

Lemma basic_login_exact_witness :
  authorize_basic demo_library [(AUTHORIZATION, lit "Basic " ++ demo_encode (lit "admin" ++ lit ":" ++ lit "pw"))]
    (lit "admin") (lit "pw") = true ∧
  ∀ hs, authorize_basic demo_library hs (lit "ad:min") (lit "pw") = false.
Proof.
  split.
  - apply (basic_login_exact demo_library demo_encode); [apply demo_decode_encode|apply demo_encode_visible|].
    vm_compute. set_solver.
  - apply (basic_login_exact demo_library demo_encode); [apply demo_decode_encode|apply demo_encode_visible|].
    vm_compute. set_solver.
Defined.

Lemma requests_keep_tables_reachable_witness :
  reachable (λ _, 0) (tables (demo_serve demo_login demo_empty).1).
Proof.
  apply (requests_keep_tables_reachable demo_library (λ _, None) 10 10 None true demo_app
    (demo_request demo_login) demo_empty). apply rtc_refl.
Defined.
End AdminServer.
