(* ===== verification/AdminClient.v ===== *)
(** * The browser client of the administration server
    (crates/graphile-worker-admin-ui-client/src/wasm)

    The client's own logic: reading its configuration from the page, the
    headers of its requests, the requests of its forms and buttons, the
    interpretation of responses, the refresh loop, selection and filtering, and
    the CSV export.  Signals are the fields of a state, the handlers of the page
    are functions on it, and the asynchronous refresh task is a step function.
    Composed with [AdminServer], the requests of a page served by a server are
    accepted by it and reach the handler they are meant for.

    The document, serde and chrono are parameters; markup and styling are left
    out. *)

From S2P Require Import Prelude Text Job Database FlagFilter JobStore JobRelease Hooks AddJob JobInvariant Recovery WorkerUtils AdminApi AdminServer.
Open Scope Z_scope.

Module AdminClient.
Import Job WorkerUtils AdminApi AdminServer.

(** ** types.rs *)

Inductive AuthMode := CBasic | CBearer | CHeader | CNone.

Definition auth_mode_parse (value : str) : result AuthMode str :=
  if decide (value = lit "basic") then Ok CBasic
  else if decide (value = lit "bearer") then Ok CBearer
  else if decide (value = lit "header") then Ok CHeader
  else if decide (value = lit "none") then Ok CNone
  else Err (lit "unsupported auth mode `" ++ value ++ lit "`").

Definition auth_mode_as_str (m : AuthMode) : str :=
  match m with CBasic => lit "basic" | CBearer => lit "bearer" | CHeader => lit "header" | CNone => lit "none" end.

Definition requires_token (m : AuthMode) : bool := match m with CBearer | CHeader => true | _ => false end.

Record AdminClientConfig := mkClientConfig {
  auth_mode : AuthMode;
  auth_header : str;
  csrf : str;
  csrf_header : str;
  read_only : bool;
  schema : str
}.

Inductive Modal := MAddJob | MFailJobs | MReschedule | MRemoveKey | MJobDetails (j : ListedJob).

(** ** mod.rs: the configuration in the page *)

(** The [data-] attributes of the root element, by their [dataset] names. *)
Abbreviation Dataset := (list (str * str)).
Definition data_get (root : Dataset) (k : str) : option str := (λ r, r.2.2) <$> list_find (λ h, h.1 = k) root.

Definition required_data (root : Dataset) (k : str) : result str str :=
  match data_get root k with
  | Some v => if is_empty v then Err (lit "missing data-" ++ k) else Ok v
  | None => Err (lit "missing data-" ++ k)
  end.

Definition parse_bool (value : str) : result bool str :=
  if decide (value = lit "true") then Ok true
  else if decide (value = lit "false") then Ok false
  else Err (lit "invalid read-only value `" ++ value ++ lit "`").

Definition config_from_root (root : Dataset) : result AdminClientConfig str :=
  let? mode := required_data root (lit "authMode") in
  let? auth_mode := auth_mode_parse mode in
  let auth_header := default [] (data_get root (lit "authHeader")) in
  let? csrf := required_data root (lit "csrf") in
  let? csrf_header := required_data root (lit "csrfHeader") in
  let? ro := required_data root (lit "readOnly") in
  let? read_only := parse_bool ro in
  let? schema := required_data root (lit "schema") in
  Ok (mkClientConfig auth_mode auth_header csrf csrf_header read_only schema).

(** The page is mounted, or its text replaced by the error. *)
Definition start (root : Dataset) : result AdminClientConfig str :=
  map_err (λ e, lit "Failed to load Graphile Worker Admin UI: " ++ e) (config_from_root root).

(** view/mod.rs, view/shell.rs of the server: the root element of the page. *)
Definition bool_text (b : bool) : str := if b then lit "true" else lit "false".
Definition shell_dataset (csrf_token schema : str) (read_only : bool) (auth : AdminAuthSummary) : Dataset :=
  [(lit "authMode", mode_as_str (sum_mode auth)); (lit "authHeader", default [] (sum_header_name auth));
   (lit "readOnly", bool_text read_only); (lit "csrf", csrf_token); (lit "csrfHeader", CSRF_HEADER);
   (lit "schema", schema)].

(** ** api/http.rs *)

(** Whether a character is one of some. *)
Definition one_of (cs : list char) (c : char) : bool := bool_decide (c ∈ cs).


(** [Headers.set] of the browser: names are compared without case, the value
    loses the white space around it, and replaces an earlier one. *)
Definition lower_ascii (c : char) : char := if is_ascii_uppercase c then c + 32 else c.
Definition http_whitespace (c : char) : bool := one_of [9; 10; 13; 32] c.
Definition drop_http_whitespace (s : str) : str := (span http_whitespace s).2.
Definition normalize_value (s : str) : str := rev (drop_http_whitespace (rev (drop_http_whitespace s))).
Definition set_header (name value : str) (hs : HeaderMap) : HeaderMap :=
  let n := lower_ascii <$> name in filter (λ h, h.1 ≠ n) hs ++ [(n, normalize_value value)].

Definition with_api_headers (hs : HeaderMap) (config : AdminClientConfig) (token : str) (writes : bool) : HeaderMap :=
  let hs := set_header (lit "Accept") (lit "application/json") hs in
  let hs := if writes then set_header (csrf_header config) (csrf config) hs else hs in
  if is_empty token then hs
  else match auth_mode config with
       | CBearer => set_header (lit "Authorization") (lit "Bearer " ++ token) hs
       | CHeader => if is_empty (auth_header config) then hs else set_header (auth_header config) token hs
       | _ => hs
       end.

(** The requests; [browser] are the headers the browser adds of its own, among
    them the credentials it keeps for the page. *)
Definition api_get (browser : HeaderMap) (path query : str) (config : AdminClientConfig) (token : str) : Request :=
  mkRequest GET path query (with_api_headers browser config token false) [].
Definition api_post (browser : HeaderMap) (path : str) (json : str) (config : AdminClientConfig) (token : str) : Request :=
  mkRequest POST path []
    (set_header (lit "Content-Type") (lit "application/json") (with_api_headers browser config token true)) json.

(** [from_json] reads the expected body, [error_json] an [ErrorResponse]. *)
Definition parse_response {T} (from_json : str → result T str) (error_json : str → option str) (code : Z) (text : str) :
    result T str :=
  if (200 <=? code) && (code <? 300) then from_json text
  else Err (default (dec code ++ lit ": " ++ text) (error_json text)).

(** ** filters/form.rs *)

Definition optional_string (value : str) : option str :=
  let value := Text.trim value in if is_empty value then None else Some value.

(** [str::parse] of a signed integer below [bound]. *)
Definition parse_int (bound : Z) (s : str) : option Z :=
  match s with
  | 45 :: ((_ :: _) as ds) => Z.opp <$> ok (Text.parse_digits bound 0 ds)
  | _ => ok (Text.parse_uint (bound - 1) s)
  end.
Definition parse_i16 : str → option Z := parse_int (2 ^ 15).
Definition parse_i64 : str → option Z := parse_int (2 ^ 63).
Definition optional_i16 (value : str) : option Z := parse_i16 (Text.trim value).

(** [str::split] at the characters of a set. *)
Fixpoint split_on (p : char → bool) (s : str) : list str :=
  match s with
  | [] => [[]]
  | c :: s =>
      if p c then [] :: split_on p s
      else match split_on p s with l :: ls => (c :: l) :: ls | [] => [[c]] end
  end.

Definition non_blank (items : list str) : list str := filter (λ i, i ≠ []) (Text.trim <$> items).

Definition optional_csv (value : str) : option (list str) :=
  let values := non_blank (split_on (one_of [44]) value) in
  if is_empty values then None else Some values.

(** [parse] is [NaiveDateTime::parse_from_str] by format, [offset] the minutes
    of the browser's time zone at a local time. *)
Definition datetime_local_to_utc (parse : str → str → option Z) (offset : Z → option Z) (value : str) : option Z :=
  let value := Text.trim value in
  if is_empty value then None
  else
    let format := if (2 <=? count_if (Z.eqb 58) value)%nat then lit "%Y-%m-%dT%H:%M:%S" else lit "%Y-%m-%dT%H:%M" in
    datetime ← parse format value;
    minutes ← offset datetime;
    Some (datetime + minutes * 60 * 10 ^ 6).

(** ** filters/format.rs *)

Definition short (value : str) (length_ : nat) : str :=
  if (length value <=? length_)%nat then value else take (length_ - 3) value ++ lit "...".

(** ** filters/matching.rs *)

Section matching.
(** [str::to_lowercase], and serde's text of a JSON value. *)
Context (lowercase : str → str) (stringify_value : Value → str).

Definition filter_values (raw : str) : list str :=
  lowercase <$> non_blank (split_on (one_of [44; 10; 13]) raw).

Definition normalize_filter_paste (raw : str) : str :=
  Text.join (lit ", ") (non_blank (split_on (one_of [44; 10; 13; 9]) raw)).

(** [str::contains]. *)
Definition contains (s p : str) : bool := bool_decide (is_Some (Text.split_once p s)).

Inductive Column := CTask | CQueue | CKey | CWorker.
Definition column_value (job : ListedJob) (c : Column) : str :=
  match c with
  | CTask => listed_task_identifier job
  | CQueue => default [] (listed_queue_name job)
  | CKey => default [] (Job.key job)
  | CWorker => default [] (Job.locked_by job)
  end.

Definition matches_column (job : ListedJob) (column : Column) (filters : list str) : bool :=
  if is_empty filters then true
  else let value := lowercase (column_value job column) in existsb (λ f, contains value f) filters.

Definition job_search_text (job : ListedJob) : str :=
  lowercase (Text.join (lit " ")
    [Text.int_text (Job.id job); listed_task_identifier job; default [] (listed_queue_name job); default [] (Job.key job);
     default [] (Job.locked_by job); default [] (Job.last_error job); stringify_value (Job.payload job)]).

(** ** filters/state.rs *)

(** [now] is [Utc::now()] in microseconds. *)
Definition job_state (now : Z) (job : ListedJob) : JobState :=
  match Job.locked_at job with
  | Some _ => Locked
  | None =>
      if Job.max_attempts job <=? Job.attempts job then Failed
      else if now <? Job.run_at job then Scheduled
      else Ready
  end.

Definition state_label (s : JobState) : str :=
  match s with
  | All => lit "all" | Ready => lit "ready" | Scheduled => lit "scheduled" | Locked => lit "locked" | Failed => lit "failed"
  end.

#[export] Instance JobState_eq_dec : EqDecision JobState.
Proof. solve_decision. Defined.

(** ** app/mod.rs: the visible jobs *)

Record Filters := mkFilters {
  active_state : JobState; search : str; task_filter : str; queue_filter : str; key_filter : str; worker_filter : str
}.

Definition visible (now : Z) (f : Filters) (job : ListedJob) : bool :=
  if negb (bool_decide (active_state f = All)) && negb (bool_decide (job_state now job = active_state f)) then false
  else
    let search := lowercase (Text.trim (search f)) in
    if negb (is_empty search) && negb (contains (job_search_text job) search) then false
    else forallb (λ cv, matches_column job cv.1 cv.2)
           [(CTask, filter_values (task_filter f)); (CQueue, filter_values (queue_filter f));
            (CKey, filter_values (key_filter f)); (CWorker, filter_values (worker_filter f))].

Definition filtered_jobs (now : Z) (f : Filters) (jobs : list ListedJob) : list ListedJob :=
  filter (λ j, visible now f j = true) jobs.
End matching.

(** ** filters/selection.rs *)

Definition selected_rows (jobs : list ListedJob) (selected : list Z) : list ListedJob :=
  filter (λ j : ListedJob, Job.id j ∈ selected) jobs.

Definition csv_escape (value : str) : str := [34] ++ (value ≫= Database.escape_char) ++ [34].

Definition csv_columns : list str :=
  [lit "id"; lit "task_identifier"; lit "queue_name"; lit "state"; lit "run_at"; lit "attempts"; lit "max_attempts";
   lit "priority"; lit "key"].
(** [rfc3339] is chrono's format of a time. *)
Definition csv_fields (rfc3339 : Z → str) (now : Z) (job : ListedJob) : list str :=
  [Text.int_text (Job.id job); listed_task_identifier job; default [] (listed_queue_name job);
   state_label (job_state now job); rfc3339 (Job.run_at job); Text.int_text (Job.attempts job);
   Text.int_text (Job.max_attempts job); Text.int_text (Job.priority job); default [] (Job.key job)].
Definition crlf : str := [13; 10].
Definition selected_csv (rfc3339 : Z → str) (now : Z) (rows : list ListedJob) : str :=
  Text.join crlf (Text.join [44] csv_columns ::
    ((λ j, Text.join [44] (csv_escape <$> csv_fields rfc3339 now j)) <$> rows)) ++ crlf.

(** ** api/mutations.rs, modals, buttons: the requests *)

Inductive ClientRequest :=
| PostAddJob (r : AddJobRequest)
| PostJobAction (r : JobActionRequest)
| PostRemoveKey (key : str)
| PostMaintenance (r : MaintenanceRequest).

Definition request_path (r : ClientRequest) : str :=
  match r with
  | PostAddJob _ => lit "/api/jobs"
  | PostJobAction _ => lit "/api/jobs/action"
  | PostRemoveKey _ => lit "/api/jobs/remove-by-key"
  | PostMaintenance _ => lit "/api/maintenance"
  end.

(** modals/add_job.rs: the fields of the form, and what submitting makes of
    them: a request, or the text of a toast. *)
Record AddJobForm := mkAddJobForm {
  f_identifier : str; f_queue : str; f_key : str; f_key_mode : str; f_priority : str; f_max_attempts : str;
  f_run_at : str; f_payload : str; f_flags : str
}.
Definition key_mode_of (value : str) : option JobKeyModeRequest :=
  if decide (value = lit "replace") then Some ReplaceRequest
  else if decide (value = lit "preserve-run-at") then Some PreserveRunAtRequest
  else if decide (value = lit "unsafe-dedupe") then Some UnsafeDedupeRequest
  else None.
Definition submit_add_job (parse_json : str → result Value str) (utc : str → option Z) (f : AddJobForm) :
    result ClientRequest str :=
  let? payload := map_err (λ e, lit "Invalid JSON: " ++ e) (parse_json (f_payload f)) in
  Ok (PostAddJob (mkAddJob (f_identifier f) payload (optional_string (f_queue f)) (utc (f_run_at f))
        (optional_i16 (f_max_attempts f)) (optional_string (f_key f)) (key_mode_of (f_key_mode f))
        (optional_i16 (f_priority f)) (optional_csv (f_flags f)))).

(** modals/actions.rs *)
Definition submit_fail (reason : str) (selected : list Z) : ClientRequest :=
  PostJobAction (mkAction Fail selected (optional_string reason) None None None None).
Definition submit_reschedule (utc : str → option Z) (run_at priority attempts max_attempts : str) (selected : list Z) :
    ClientRequest :=
  PostJobAction (mkAction Reschedule selected None (utc run_at) (optional_i16 priority) (optional_i16 attempts)
    (optional_i16 max_attempts)).
Definition submit_remove_key (key : str) : ClientRequest := PostRemoveKey key.

(** app/jobs/bulk_actions.rs *)
Definition bulk_disabled (config : AdminClientConfig) (selected : list Z) : bool := is_empty selected || read_only config.
Definition click_complete (config : AdminClientConfig) (selected : list Z) : option ClientRequest :=
  if bulk_disabled config selected then None else Some (PostJobAction (mkAction Complete selected None None None None None)).
Definition click_run_now (config : AdminClientConfig) (selected : list Z) : option ClientRequest :=
  if bulk_disabled config selected then None else Some (PostJobAction (mkAction RunNow selected None None None None None)).

(** app/maintenance.rs, components/workers.rs *)
Definition maintenance_request (a : MaintenanceAction) (tasks : list CleanupTaskName) (workers : list str) : ClientRequest :=
  PostMaintenance (mkMaintenance a tasks workers false None None).
(** The buttons are disabled on a read-only page. *)
Definition writable {A} (config : AdminClientConfig) (a : A) : option A := if read_only config then None else Some a.
Definition click_migrate (config : AdminClientConfig) : option ClientRequest := writable config (maintenance_request Migrate [] []).
Definition click_cleanup (config : AdminClientConfig) : option ClientRequest :=
  writable config (maintenance_request Cleanup [DeletePermanentlyFailed; GcTasks; GcQueues] []).
Definition click_sweep (config : AdminClientConfig) : option ClientRequest :=
  writable config (maintenance_request SweepStaleWorkers [] []).
Definition click_force_unlock (config : AdminClientConfig) (selected_workers : list str) : option (result ClientRequest str) :=
  writable config
    (if is_empty selected_workers then Err (lit "Select at least one worker")
     else Ok (maintenance_request ForceUnlock [] selected_workers)).

(** ** Signals *)

(** api/refresh.rs *)
Record RefreshSignals := mkRefreshSignals {
  token : str;
  limit : Z;
  overview : OverviewResponse;
  jobs : list ListedJob;
  selected_jobs : list Z;
  toast : option str;
  refreshing : bool;
  refresh_pending : bool
}.

(** The task of [refresh_data]: none, spawned and not polled yet, or waiting for
    the answers to the requests of one turn of its loop. *)
Inductive Task := NoTask | Spawned | Waiting.

(** app/signals.rs: the signals of the page, with the local storage of the
    browser, whether an interval is installed, and the refresh task. *)
Record Client := mkClient {
  refresh : RefreshSignals;
  selected_workers : list str;
  filters : Filters;
  modal : option Modal;
  theme : str;
  accent : str;
  compact : bool;
  auto_refresh_enabled : bool;
  auto_refresh_timer : bool;
  storage : gmap str str;
  task : Task
}.

(** app/state.rs *)
Definition empty_overview : OverviewResponse := mkOverview (mkStats 0 0 0 0 0) [] [] [].
Definition stored_theme (st : gmap str str) : str := default (lit "system") (st !! lit "gw-admin-theme").
Definition stored_accent (st : gmap str str) : str := default (lit "cyan") (st !! lit "gw-admin-accent").
Definition stored_compact_density (st : gmap str str) : bool := bool_decide (st !! lit "gw-admin-density" = Some (lit "compact")).

Definition signals_new (st : gmap str str) : Client :=
  mkClient
    (mkRefreshSignals (default [] (st !! lit "gw-admin-token")) 100 empty_overview [] [] None false false)
    [] (mkFilters All [] [] [] [] []) None (stored_theme st) (stored_accent st) (stored_compact_density st) false false st
    NoTask.

(** Setting signals. *)
Definition on_refresh (f : RefreshSignals → RefreshSignals) (c : Client) : Client :=
  mkClient (f (refresh c)) (selected_workers c) (filters c) (modal c) (theme c) (accent c) (compact c)
    (auto_refresh_enabled c) (auto_refresh_timer c) (storage c) (task c).
Definition set_task (t : Task) (c : Client) : Client :=
  mkClient (refresh c) (selected_workers c) (filters c) (modal c) (theme c) (accent c) (compact c)
    (auto_refresh_enabled c) (auto_refresh_timer c) (storage c) t.
Definition set_modal (m : option Modal) (c : Client) : Client :=
  mkClient (refresh c) (selected_workers c) (filters c) m (theme c) (accent c) (compact c)
    (auto_refresh_enabled c) (auto_refresh_timer c) (storage c) (task c).
Definition set_workers (l : list str) (c : Client) : Client :=
  mkClient (refresh c) l (filters c) (modal c) (theme c) (accent c) (compact c)
    (auto_refresh_enabled c) (auto_refresh_timer c) (storage c) (task c).
Definition set_filters (f : Filters) (c : Client) : Client :=
  mkClient (refresh c) (selected_workers c) f (modal c) (theme c) (accent c) (compact c)
    (auto_refresh_enabled c) (auto_refresh_timer c) (storage c) (task c).
Definition set_look (th ac : str) (co : bool) (st : gmap str str) (c : Client) : Client :=
  mkClient (refresh c) (selected_workers c) (filters c) (modal c) th ac co
    (auto_refresh_enabled c) (auto_refresh_timer c) st (task c).
Definition set_storage (st : gmap str str) (c : Client) : Client := set_look (theme c) (accent c) (compact c) st c.
Definition set_auto (on timer : bool) (c : Client) : Client :=
  mkClient (refresh c) (selected_workers c) (filters c) (modal c) (theme c) (accent c) (compact c)
    on timer (storage c) (task c).

Definition set_flags (r p : bool) (s : RefreshSignals) : RefreshSignals :=
  mkRefreshSignals (token s) (limit s) (overview s) (jobs s) (selected_jobs s) (toast s) r p.
Definition set_toast (m : option str) (s : RefreshSignals) : RefreshSignals :=
  mkRefreshSignals (token s) (limit s) (overview s) (jobs s) (selected_jobs s) m (refreshing s) (refresh_pending s).
Definition set_token (t : str) (s : RefreshSignals) : RefreshSignals :=
  mkRefreshSignals t (limit s) (overview s) (jobs s) (selected_jobs s) (toast s) (refreshing s) (refresh_pending s).
Definition set_limit (n : Z) (s : RefreshSignals) : RefreshSignals :=
  mkRefreshSignals (token s) n (overview s) (jobs s) (selected_jobs s) (toast s) (refreshing s) (refresh_pending s).
Definition set_selected (l : list Z) (s : RefreshSignals) : RefreshSignals :=
  mkRefreshSignals (token s) (limit s) (overview s) (jobs s) l (toast s) (refreshing s) (refresh_pending s).
Definition set_data (o : OverviewResponse) (js : list ListedJob) (s : RefreshSignals) : RefreshSignals :=
  mkRefreshSignals (token s) (limit s) o js (selected_jobs s) (toast s) (refreshing s) (refresh_pending s).

(** browser.rs: the message is shown; a timer clears it later. *)
Definition show_toast (message : str) (s : RefreshSignals) : RefreshSignals := set_toast (Some message) s.

(** ** api/refresh.rs *)

Definition refresh_data (c : Client) : Client :=
  if refreshing (refresh c) then on_refresh (set_flags true true) c
  else set_task Spawned (on_refresh (λ s, set_flags true (refresh_pending s) s) c).

(** The requests of one turn of the loop. *)
Definition jobs_query (s : RefreshSignals) : str := lit "state=all&limit=" ++ Text.int_text (limit s).
Definition turn_requests (browser : HeaderMap) (config : AdminClientConfig) (s : RefreshSignals) : Request * Request :=
  (api_get browser (lit "/api/overview") [] config (token s),
   api_get browser (lit "/api/jobs") (jobs_query s) config (token s)).

(** The beginning of a turn, up to the requests. *)
Definition begin_turn (c : Client) : Client := set_task Waiting (on_refresh (λ s, set_flags (refreshing s) false s) c).

(** The [match] on the two results. *)
Definition apply_results (o : result OverviewResponse str) (js : result (list ListedJob) str) (s : RefreshSignals) :
    RefreshSignals :=
  match o, js with
  | Ok next_overview, Ok next_jobs =>
      let next_ids := (λ j : ListedJob, Job.id j) <$> next_jobs in
      set_selected (filter (λ i, i ∈ next_ids) (selected_jobs s)) (set_data next_overview next_jobs s)
  | Err error, _ | _, Err error => show_toast error s
  end.

Definition end_turn (o : result OverviewResponse str) (js : result (list ListedJob) str) (c : Client) : Client :=
  let c := on_refresh (apply_results o js) c in
  if refresh_pending (refresh c) then begin_turn c
  else set_task NoTask (on_refresh (λ s, set_flags false (refresh_pending s) s) c).

(** ** The checkboxes: components/job_table.rs, app/jobs/table.rs,
    components/workers.rs *)

Definition push_new {A} `{EqDecision A} (selected : list A) (i : A) : list A :=
  if decide (i ∈ selected) then selected else selected ++ [i].
Definition toggle_row {A} `{EqDecision A} (checked : bool) (i : A) (selected : list A) : list A :=
  if checked then push_new selected i else filter (λ c, c ≠ i) selected.
Definition toggle_all (checked : bool) (visible_ids selected : list Z) : list Z :=
  if checked then foldl push_new selected visible_ids else filter (λ i, i ∉ visible_ids) selected.

(** app/mod.rs *)
Definition all_visible_selected (visible : list ListedJob) (selected : list Z) : bool :=
  negb (is_empty visible) && forallb (λ j : ListedJob, bool_decide (Job.id j ∈ selected)) visible.

(** ** The filters *)

Definition set_active_state (st : JobState) (f : Filters) : Filters :=
  mkFilters st (search f) (task_filter f) (queue_filter f) (key_filter f) (worker_filter f).
Definition set_search (s : str) (f : Filters) : Filters :=
  mkFilters (active_state f) s (task_filter f) (queue_filter f) (key_filter f) (worker_filter f).
Definition set_column (col : Column) (v : str) (f : Filters) : Filters :=
  match col with
  | CTask => mkFilters (active_state f) (search f) v (queue_filter f) (key_filter f) (worker_filter f)
  | CQueue => mkFilters (active_state f) (search f) (task_filter f) v (key_filter f) (worker_filter f)
  | CKey => mkFilters (active_state f) (search f) (task_filter f) (queue_filter f) v (worker_filter f)
  | CWorker => mkFilters (active_state f) (search f) (task_filter f) (queue_filter f) (key_filter f) v
  end.
(** components/job_table.rs, [ColumnFilter]: a paste with a separator in it
    replaces the filter; another is left to the browser. *)
Definition paste_column (col : Column) (pasted : str) (f : Filters) : option Filters :=
  if existsb (one_of [10; 13; 9; 44]) pasted then Some (set_column col (normalize_filter_paste pasted) f) else None.

(** ** app/topbar.rs *)

Definition toggle_auto (checked : bool) (c : Client) : Client := set_auto checked checked c.
Definition select_theme (value : str) (c : Client) : Client :=
  set_look value (accent c) (compact c) (<[lit "gw-admin-theme" := value]> (storage c)) c.
Definition select_accent (value : str) (c : Client) : Client :=
  set_look (theme c) value (compact c) (<[lit "gw-admin-accent" := value]> (storage c)) c.
Definition toggle_density (c : Client) : Client :=
  let next := negb (compact c) in
  set_look (theme c) (accent c) next
    (<[lit "gw-admin-density" := if next then lit "compact" else lit "comfortable"]> (storage c)) c.

(** ** app/auth.rs *)

Definition use_token (c : Client) : Client :=
  refresh_data (set_storage (<[lit "gw-admin-token" := token (refresh c)]> (storage c)) c).
Definition clear_token (c : Client) : Client :=
  on_refresh (set_token []) (set_storage (delete (lit "gw-admin-token") (storage c)) c).

(** ** app/jobs/filters.rs *)

Definition select_limit (value : str) (c : Client) : Client :=
  refresh_data (on_refresh (set_limit (default 100 (parse_i64 value))) c).

(** ** api/mutations.rs *)

(** What the four functions do with the answer; [closes] when they were given
    the modal to close. *)
Definition mutated (closes : bool) (r : result str str) (c : Client) : Client :=
  match r with
  | Ok message =>
      let c := on_refresh (show_toast message) c in
      refresh_data (if closes then set_modal None c else c)
  | Err error => on_refresh (show_toast error) c
  end.

(** ** The events of the page *)

Inductive Event :=
| ClickRefresh                       (* app/topbar.rs *)
| Interval                           (* the timer of auto refresh fires *)
| ToggleAuto (checked : bool)
| SelectTheme (value : str)
| SelectAccent (value : str)
| ToggleDensity
| Start                              (* the refresh task is polled first *)
| Answers (o : result OverviewResponse str) (js : result (list ListedJob) str)
| Mutated (closes : bool) (r : result str str)   (* api/mutations.rs: a mutation is answered *)
| HideToast                          (* the timer of a toast fires *)
| ToggleJob (checked : bool) (job : ListedJob)
| ToggleVisible (checked : bool)
| ToggleWorker (checked : bool) (worker_id : str)
| TypeToken (value : str)            (* app/auth.rs *)
| UseToken
| ClearToken
| SelectState (st : JobState)
| TypeSearch (value : str)
| TypeFilter (col : Column) (value : str)
| PasteFilter (col : Column) (pasted : str)
| SetModal (m : option Modal)
| SelectLimit (value : str).         (* app/jobs/filters.rs *)

Definition job_ids (js : list ListedJob) : list Z := (λ j : ListedJob, Job.id j) <$> js.

Section page.
Context (lowercase : str → str) (stringify_value : Value → str).

(** The rows of the table at a time. *)
Definition table (now : Z) (c : Client) : list ListedJob :=
  filtered_jobs lowercase stringify_value now (filters c) (jobs (refresh c)).

Definition step (now : Z) (c : Client) (e : Event) : option Client :=
  match e with
  | ClickRefresh => Some (refresh_data c)
  | Interval => if auto_refresh_timer c then Some (refresh_data c) else None
  | ToggleAuto checked => Some (toggle_auto checked c)
  | SelectTheme value => Some (select_theme value c)
  | SelectAccent value => Some (select_accent value c)
  | ToggleDensity => Some (toggle_density c)
  | Start => match task c with Spawned => Some (begin_turn c) | _ => None end
  | Answers o js => match task c with Waiting => Some (end_turn o js c) | _ => None end
  | Mutated closes r => Some (mutated closes r c)
  | HideToast => Some (on_refresh (set_toast None) c)
  | ToggleJob checked job =>
      if decide (Job.id job ∈ job_ids (table now c))
      then Some (on_refresh (λ s, set_selected (toggle_row checked (Job.id job) (selected_jobs s)) s) c) else None
  | ToggleVisible checked =>
      Some (on_refresh (λ s, set_selected (toggle_all checked (job_ids (table now c)) (selected_jobs s)) s) c)
  | ToggleWorker checked worker_id =>
      if decide (worker_id ∈ AdminApi.worker_id <$> o_workers (overview (refresh c)))
      then Some (set_workers (toggle_row checked worker_id (selected_workers c)) c) else None
  | TypeToken value => Some (on_refresh (set_token value) c)
  | UseToken => Some (use_token c)
  | ClearToken => Some (clear_token c)
  | SelectState st => Some (set_filters (set_active_state st (filters c)) c)
  | TypeSearch value => Some (set_filters (set_search value (filters c)) c)
  | TypeFilter col value => Some (set_filters (set_column col value (filters c)) c)
  | PasteFilter col pasted => (λ f, set_filters f c) <$> paste_column col pasted (filters c)
  | SetModal m => Some (set_modal m c)
  | SelectLimit value => Some (select_limit value c)
  end.

(** A run: events at their times. *)
Fixpoint run (c : Client) (es : list (Z * Event)) : option Client :=
  match es with [] => Some c | (now, e) :: es => c ← step now c e; run c es end.

(** [AdminApp]: the signals, and the first refresh. *)
Definition admin_app (st : gmap str str) : Client := refresh_data (signals_new st).
End page.

(** ** The page of a server *)

Definition page_dataset (state : AppState) : Dataset :=
  shell_dataset (csrf_token state) (c_schema_name state) (c_read_only state) (summary (c_auth state)).

(** The configuration the page of a server stands for. *)
Definition mode_of (auth : AdminAuthConfig) : AuthMode :=
  match auth with Basic _ _ _ => CBasic | Bearer _ _ => CBearer | Header _ _ _ => CHeader | NoAuth => CNone end.
Definition page_config (state : AppState) : AdminClientConfig :=
  mkClientConfig (mode_of (c_auth state)) (default [] (sum_header_name (summary (c_auth state)))) (csrf_token state)
    CSRF_HEADER (c_read_only state) (c_schema_name state).

Lemma page_config_read (state : AppState) :
  csrf_token state ≠ [] → c_schema_name state ≠ [] → config_from_root (page_dataset state) = Ok (page_config state).
Proof.
  intros Hc Hs. unfold page_dataset, page_config, config_from_root, required_data.
  destruct (csrf_token state) as [|c csrf]; [done|]. destruct (c_schema_name state) as [|x sch]; [done|].
  destruct (c_auth state), (c_read_only state); reflexivity.
Qed.

(** ** Headers *)

(** Text that may be the value of a header: visible characters. *)
Definition visible_char (c : char) : Prop := 33 ≤ c < 127.

Lemma drop_http_visible s : Forall visible_char s → drop_http_whitespace s = s.
Proof.
  intros Hs. destruct Hs as [|c s Hc _]; [done|]. unfold drop_http_whitespace. cbn.
  replace (http_whitespace c) with false; [done|]. symmetry. apply bool_decide_eq_false_2.
  unfold visible_char in Hc. rewrite !elem_of_cons, elem_of_nil. lia.
Qed.
Lemma normalize_prefixed p s :
  drop_http_whitespace (p ++ s) = p ++ s → s ≠ [] → Forall visible_char s → normalize_value (p ++ s) = p ++ s.
Proof.
  intros Hp Hn Hs. unfold normalize_value. rewrite Hp, rev_app_distr.
  destruct s as [|c s _] using rev_ind; [done|]. rewrite rev_unit. apply Forall_app in Hs as [_ Hc]. rewrite Forall_singleton in Hc.
  unfold drop_http_whitespace. cbn. replace (http_whitespace c) with false.
  - cbn. rewrite rev_app_distr, rev_involutive, rev_involutive. by rewrite app_assoc.
  - symmetry. apply bool_decide_eq_false_2. unfold visible_char in Hc. rewrite !elem_of_cons, elem_of_nil. lia.
Qed.
Lemma normalize_visible s : s ≠ [] → Forall visible_char s → normalize_value s = s.
Proof. intros Hn Hs. apply (normalize_prefixed []); [|done..]. by apply drop_http_visible. Qed.
Lemma to_str_visible s : Forall visible_char s → to_str s = Some s.
Proof.
  intros Hs. unfold to_str. replace (forallb _ s) with true; [done|]. symmetry. apply forallb_forall.
  intros c Hc%list_elem_of_In. rewrite Forall_forall in Hs. specialize (Hs c Hc). unfold visible_char in Hs. lia.
Qed.

Lemma header_get_app hs hs' n :
  header_get (hs ++ hs') n = match header_get hs n with Some v => Some v | None => header_get hs' n end.
Proof.
  induction hs as [|h hs IH]; [done|]. unfold header_get in *. cbn. destruct (decide (h.1 = n)); [done|].
  destruct (list_find (λ h, h.1 = n) (hs ++ hs')) as [[? ?]|], (list_find (λ h, h.1 = n) hs) as [[? ?]|]; cbn in *; done.
Qed.
Lemma header_get_cons h hs n : header_get (h :: hs) n = if decide (h.1 = n) then Some h.2 else header_get hs n.
Proof.
  unfold header_get. cbn. destruct (decide (h.1 = n)); [done|]. by destruct (list_find _ hs) as [[? ?]|].
Qed.
Lemma header_get_filter hs n m :
  header_get (filter (λ h, h.1 ≠ n) hs) m = if decide (m = n) then None else header_get hs m.
Proof.
  induction hs as [|h hs IH]; [by destruct (decide (m = n))|].
  rewrite filter_cons, header_get_cons. destruct (decide (h.1 ≠ n)) as [H|H].
  - rewrite header_get_cons, IH. destruct (decide (h.1 = m)), (decide (m = n)); congruence.
  - rewrite IH. destruct (decide (m = n)), (decide (h.1 = m)); [done..| |done]. exfalso. naive_solver.
Qed.
(** The value of a header after one is set. *)
Lemma header_get_set name value hs m :
  header_get (set_header name value hs) m
  = if decide (m = lower_ascii <$> name) then Some (normalize_value value) else header_get hs m.
Proof.
  unfold set_header. rewrite header_get_app, header_get_filter, header_get_cons. cbn.
  destruct (decide (m = lower_ascii <$> name)) as [->|]; [by rewrite decide_True|].
  by destruct (header_get hs m); [|rewrite decide_False].
Qed.
Lemma header_text_set name value hs m :
  header_text (set_header name value hs) m
  = if decide (m = lower_ascii <$> name) then to_str (normalize_value value) else header_text hs m.
Proof. unfold header_text. rewrite header_get_set. by destruct (decide _). Qed.


(** ** The requests of a page, at its server *)

Section served.
Context (L : Library) (fails : nat → option JobStore.SqlError) (now clock : Z) (trace : option Value) (acquired : bool).
(** serde's text of a request. *)
Context (json : ClientRequest → str).

Definition client_post (browser : HeaderMap) (config : AdminClientConfig) (token : str) (r : ClientRequest) : Request :=
  api_post browser (request_path r) (json r) config token.

(** The server reads back what the client wrote. *)
Definition decodes (r : ClientRequest) : Prop :=
  match r with
  | PostAddJob a => parse_add_job L (json r) = Ok a
  | PostJobAction a => parse_action L (json r) = Ok a
  | PostRemoveKey k => parse_remove L (json r) = Ok k
  | PostMaintenance m => parse_maintenance L (json r) = Ok m
  end.

(** The handler a request is meant for. *)
Definition meant (state : AppState) (r : ClientRequest) (w : World) : World * Response :=
  responded match r with
            | PostAddJob a => add_job_handler fails now clock trace state a w
            | PostJobAction a => job_action L fails now clock state a w
            | PostRemoveKey k => remove_job_by_key fails now state k w
            | PostMaintenance m => maintenance L fails now clock acquired state m w
            end.

(** The user has the server's secret: in the token field, or in the browser. *)
Definition credentials (auth : AdminAuthConfig) (browser : HeaderMap) (token : str) : Prop :=
  match auth with
  | NoAuth => True
  | Basic user password _ => authorize_basic L browser user password = true
  | Bearer t _ => token = t ∧ t ≠ [] ∧ Forall visible_char t
  | Header name t _ =>
      token = t ∧ t ≠ [] ∧ Forall visible_char t ∧ name ≠ [] ∧ lower_ascii <$> name = name ∧
      name ≠ CSRF_HEADER ∧ name ≠ lit "content-type"
  end.

Record serves_pages (state : AppState) : Prop := {
  csrf_not_empty : csrf_token state ≠ [];
  csrf_visible : Forall visible_char (csrf_token state);
  schema_not_empty : c_schema_name state ≠ []
}.

Lemma constant_time_refl s : constant_time_eq s s = true.
Proof. by apply bool_decide_eq_true_2. Qed.
Lemma is_empty_false {A} (l : list A) : l ≠ [] → is_empty l = false.
Proof. by destruct l. Qed.
Lemma strip_bearer t : strip_prefix (lit "Bearer " ++ t) (lit "Bearer ") = Some t.
Proof. reflexivity. Qed.

(** The headers of [with_api_headers] carry the credentials. *)
Lemma api_headers_authorized (state : AppState) browser token writes :
  credentials (c_auth state) browser token →
  is_authorized L (c_auth state) (with_api_headers browser (page_config state) token writes) = true.
Proof.
  unfold with_api_headers, page_config. destruct (c_auth state) as [user pw g|t g|name t g|]; cbn; intros Hc; [| | |done].
  - unfold authorize_basic in *. replace (header_text _ AUTHORIZATION) with (header_text browser AUTHORIZATION); [done|].
    by destruct (is_empty token), writes; rewrite ?header_text_set.
  - destruct Hc as (-> & Hn & Hv). rewrite (is_empty_false t Hn). unfold authorize_bearer. rewrite header_text_set.
    rewrite decide_True by reflexivity. change (normalize_value _) with (normalize_value (lit "Bearer " ++ t)).
    rewrite normalize_prefixed by done.
    replace (to_str _) with (Some (lit "Bearer " ++ t)); [apply constant_time_refl|].
    unfold to_str. rewrite forallb_app. pose proof (to_str_visible t Hv) as Ht. unfold to_str in Ht.
    destruct (forallb _ t); [|done]. reflexivity.
  - destruct Hc as (-> & Hn & Hv & Hname & Hl & _). rewrite (is_empty_false t Hn), (is_empty_false name Hname).
    rewrite header_text_set, decide_True by done. rewrite normalize_visible, to_str_visible by done. apply constant_time_refl.
Qed.

(** A later header keeps them. *)
Lemma authorized_set name value auth hs browser token :
  credentials auth browser token → lower_ascii <$> name = lit "content-type" →
  is_authorized L auth (set_header name value hs) = is_authorized L auth hs.
Proof.
  intros Hc Hn. destruct auth; cbn; unfold authorize_basic, authorize_bearer; rewrite ?header_text_set, ?Hn; try done.
  destruct Hc as (_ & _ & _ & _ & _ & _ & Hct). by rewrite decide_False.
Qed.

Lemma post_headers_csrf (state : AppState) browser token value :
  serves_pages state → credentials (c_auth state) browser token →
  csrf_matches (set_header (lit "Content-Type") value (with_api_headers browser (page_config state) token true))
    (csrf_token state) = true.
Proof.
  intros [Hn Hv _] Hc. unfold csrf_matches. rewrite header_text_set, decide_False by done.
  replace (header_text _ CSRF_HEADER) with (Some (csrf_token state)); [apply constant_time_refl|].
  assert (∀ hs, header_text (set_header CSRF_HEADER (csrf_token state) hs) CSRF_HEADER = Some (csrf_token state)) as Hset.
  { intros hs. rewrite header_text_set, decide_True by reflexivity. by rewrite normalize_visible, to_str_visible. }
  unfold with_api_headers, page_config. cbn [auth_mode auth_header csrf_header csrf].
  destruct (is_empty token); [by rewrite Hset|].
  destruct (c_auth state) as [| |name t g|]; cbn [mode_of]; [by rewrite Hset| | |by rewrite Hset].
  - by rewrite header_text_set, decide_False, Hset.
  - cbn [summary sum_header_name default]. unfold Datatypes.id.
    destruct (is_empty name); [exact (eq_sym (Hset _))|].
    destruct Hc as (_ & _ & _ & _ & Hl & Hcs & _). rewrite header_text_set, Hl, decide_False by auto.
    exact (eq_sym (Hset _)).
Qed.

(** An authorized request passes the layers around the routes. *)
Lemma serve_authorized (state : AppState) req e w :
  is_authorized L (c_auth state) (headers req) = true → route (uri_path req) = Some e → is_api e = true →
  (is_write_method (method req) = true → csrf_matches (headers req) (csrf_token state) = true) →
  serve L fails now clock trace acquired state req w
  = security_headers req (call L fails now clock trace acquired state e req) w.
Proof.
  intros Ha Hr He Hw. unfold serve, security_headers, require_page_auth, routes. rewrite Hr, He, Ha.
  unfold require_api_auth. rewrite Ha. cbn [negb].
  destruct (is_write_method (method req)); cbn [andb]; [rewrite Hw by done|]; by destruct (c_auth state).
Qed.

(** The page of a server makes requests the server serves: the configuration
    is read back from the page, and with the server's secret at hand every
    button and form reaches the handler it is meant for with its request, and
    the two reads of a refresh reach theirs. *)
Lemma page_posts_served (state : AppState) browser token r w :
  serves_pages state → credentials (c_auth state) browser token → decodes r →
  let req := client_post browser (page_config state) token r in
  serve L fails now clock trace acquired state req w = security_headers req (meant state r) w.
Proof.
  intros Hs Hc Hd req. rewrite (serve_authorized state req
    match r with PostAddJob _ => EJobs | PostJobAction _ => EAction | PostRemoveKey _ => ERemove | PostMaintenance _ => EMaintenance end).
  - unfold security_headers. f_equal. unfold call, meant. cbn [method req client_post api_post].
    destruct r; cbn in *; by rewrite Hd.
  - cbn [headers req client_post api_post]. erewrite authorized_set by done. by apply api_headers_authorized.
  - by destruct r.
  - by destruct r.
  - intros _. by apply post_headers_csrf.
Qed.

Lemma page_reads_served (state : AppState) browser (s : RefreshSignals) params w :
  credentials (c_auth state) browser (token s) → parse_params L (jobs_query s) = Ok params →
  let '(o, j) := turn_requests browser (page_config state) s in
  serve L fails now clock trace acquired state o w
  = security_headers o (λ w, (w, into_response (AdminServer.overview L fails now clock (tables w)))) w ∧
  serve L fails now clock trace acquired state j w
  = security_headers j (λ w, (w, into_response (list_handler L fails now params (tables w)))) w.
Proof.
  intros Hc Hp. cbn [turn_requests]. unfold turn_requests. split.
  - erewrite serve_authorized; [|by apply api_headers_authorized|done..]. done.
  - erewrite serve_authorized; [|by apply api_headers_authorized|done..].
    unfold security_headers, call. cbn [method api_get get_route uri_query default]. by rewrite Hp.
Qed.
End served.


(** ** The page over time *)

Section page_runs.
Context (lowercase : str → str) (stringify_value : Value → str).
Abbreviation step := (step lowercase stringify_value).
Abbreviation run := (run lowercase stringify_value).

(** What holds between events: the refresh task runs exactly while the page says
    so, the selections have no duplicates and select jobs that are listed, the
    interval is installed exactly when auto refresh is on, and the look is the
    one a reload would restore. *)
Record page_ok (c : Client) : Prop := {
  ok_task : refreshing (refresh c) = true ↔ task c ≠ NoTask;
  ok_pending : refresh_pending (refresh c) = true → task c ≠ NoTask;
  ok_selected : NoDup (selected_jobs (refresh c));
  ok_listed : ∀ i, i ∈ selected_jobs (refresh c) → i ∈ job_ids (jobs (refresh c));
  ok_workers : NoDup (selected_workers c);
  ok_auto : auto_refresh_enabled c = auto_refresh_timer c;
  ok_look : theme c = stored_theme (storage c) ∧ accent c = stored_accent (storage c) ∧
            compact c = stored_compact_density (storage c)
}.

Lemma elem_of_push_new {A} `{EqDecision A} (l : list A) i x : x ∈ push_new l i ↔ x ∈ l ∨ x = i.
Proof. unfold push_new. destruct (decide (i ∈ l)); [naive_solver|]. rewrite elem_of_app, list_elem_of_singleton. done. Qed.
Lemma NoDup_push_new {A} `{EqDecision A} (l : list A) i : NoDup l → NoDup (push_new l i).
Proof.
  intros H. unfold push_new. destruct (decide (i ∈ l)) as [|Hi]; [done|].
  apply NoDup_app. split_and!; [done| |apply NoDup_singleton]. intros x Hx ->%list_elem_of_singleton. done.
Qed.
Lemma elem_of_push_all (l ids : list Z) x : x ∈ foldl push_new l ids ↔ x ∈ l ∨ x ∈ ids.
Proof.
  revert l. induction ids as [|i ids IH]; intros l; cbn; [set_solver|]. rewrite IH, elem_of_push_new. set_solver.
Qed.
Lemma NoDup_push_all (l ids : list Z) : NoDup l → NoDup (foldl push_new l ids).
Proof. revert l. induction ids as [|i ids IH]; intros l H; [done|]. by apply IH, NoDup_push_new. Qed.
Lemma NoDup_toggle_row {A} `{EqDecision A} checked (i : A) l : NoDup l → NoDup (toggle_row checked i l).
Proof. intros H. destruct checked; [by apply NoDup_push_new|by apply NoDup_filter]. Qed.

Lemma table_listed now c i :
  i ∈ job_ids (table lowercase stringify_value now c) → i ∈ job_ids (jobs (refresh c)).
Proof.
  unfold job_ids, table, filtered_jobs. intros (j & -> & Hj)%list_elem_of_fmap. apply list_elem_of_fmap. exists j.
  by apply list_elem_of_filter in Hj as [_ Hj].
Qed.

Lemma refresh_data_ok c : page_ok c → page_ok (refresh_data c).
Proof.
  intros [Ht Hp Hs Hl Hw Ha Hk]. unfold refresh_data. destruct (refreshing (refresh c)) eqn:Hr; split; cbn; try done; naive_solver.
Qed.
Lemma signals_new_ok st : page_ok (signals_new st).
Proof. split; cbn; try done; try constructor. Qed.

(** What the answers do to the signals. *)
Lemma apply_results_ok o js s :
  NoDup (selected_jobs s) → (∀ i, i ∈ selected_jobs s → i ∈ job_ids (jobs s)) →
  let s' := apply_results o js s in
  NoDup (selected_jobs s') ∧ (∀ i, i ∈ selected_jobs s' → i ∈ job_ids (jobs s')) ∧
  refreshing s' = refreshing s ∧ refresh_pending s' = refresh_pending s.
Proof.
  intros Hs Hl. destruct o as [o|], js as [js|]; cbn; split_and!; try done; [by apply NoDup_filter|].
  intros i [Hi _]%list_elem_of_filter. done.
Qed.

Lemma begin_turn_ok c : page_ok c → task c ≠ NoTask → page_ok (begin_turn c).
Proof. intros [Ht Hp Hs Hl Hw Ha Hk] H. split; cbn; try done. naive_solver. Qed.
Lemma end_turn_ok o js c : page_ok c → task c = Waiting → page_ok (end_turn o js c).
Proof.
  intros [Ht Hp Hs Hl Hw Ha Hk] H. destruct (apply_results_ok o js (refresh c) Hs Hl) as (Hs' & Hl' & Hr & Hq).
  unfold end_turn. cbn [on_refresh refresh]. rewrite Hq.
  destruct (refresh_pending (refresh c)) eqn:E; split; cbn; rewrite ?Hr, ?Hq, ?H; try done; naive_solver.
Qed.

Lemma select_ok c l :
  page_ok c → NoDup l → (∀ i, i ∈ l → i ∈ job_ids (jobs (refresh c))) → page_ok (on_refresh (set_selected l) c).
Proof. intros [Ht Hp Hs Hl Hw Ha Hk] H1 H2. by split. Qed.

Lemma look_ok c th ac co st :
  page_ok c → th = stored_theme st → ac = stored_accent st → co = stored_compact_density st →
  page_ok (set_look th ac co st c).
Proof. intros [Ht Hp Hs Hl Hw Ha Hk] -> -> ->. by split. Qed.
Lemma stored_other (st : gmap str str) k v :
  k ≠ lit "gw-admin-theme" → k ≠ lit "gw-admin-accent" → k ≠ lit "gw-admin-density" →
  stored_theme (<[k:=v]> st) = stored_theme st ∧ stored_accent (<[k:=v]> st) = stored_accent st ∧
  stored_compact_density (<[k:=v]> st) = stored_compact_density st.
Proof. intros. unfold stored_theme, stored_accent, stored_compact_density. by rewrite !lookup_insert_ne. Qed.

(** The events that leave the refresh task, the selections and the look alone. *)
Definition quiet (c c' : Client) : Prop :=
  task c' = task c ∧ refreshing (refresh c') = refreshing (refresh c) ∧
  refresh_pending (refresh c') = refresh_pending (refresh c) ∧
  selected_jobs (refresh c') = selected_jobs (refresh c) ∧ jobs (refresh c') = jobs (refresh c) ∧
  selected_workers c' = selected_workers c ∧ storage c' = storage c ∧
  theme c' = theme c ∧ accent c' = accent c ∧ compact c' = compact c ∧
  auto_refresh_enabled c' = auto_refresh_enabled c ∧ auto_refresh_timer c' = auto_refresh_timer c.
Lemma quiet_ok c c' : quiet c c' → page_ok c → page_ok c'.
Proof.
  intros (E1 & E2 & E3 & E4 & E5 & E6 & E7 & E8 & E9 & E10 & E11 & E12) [Ht Hp Hs Hl Hw Ha Hk].
  split; rewrite ?E1, ?E2, ?E3, ?E4, ?E5, ?E6, ?E7, ?E8, ?E9, ?E10, ?E11, ?E12; done.
Qed.
Ltac quiet := eapply quiet_ok; [unfold quiet; split_and!; reflexivity|].

Lemma density_stored (st : gmap str str) (b : bool) :
  stored_compact_density (<[lit "gw-admin-density" := if b then lit "compact" else lit "comfortable"]> st) = b.
Proof. unfold stored_compact_density. rewrite lookup_insert_eq. by destruct b. Qed.

Lemma page_step_ok now c e c' : page_ok c → step now c e = Some c' → page_ok c'.
Proof.
  intros H. pose proof H as [Ht Hp Hs Hl Hw Ha (Hk1 & Hk2 & Hk3)].
  destruct e as [| |on|v|v| | |o js|closes [m|m]| |on job|on|on wid|v| | |st|v|col v|col v|m|v]; cbn [step AdminClient.step].
  - intros [= <-]. by apply refresh_data_ok.
  - destruct (auto_refresh_timer c); [|done]. intros [= <-]. by apply refresh_data_ok.
  - intros [= <-]. by split.
  - intros [= <-]. apply look_ok; [done|..]; unfold stored_theme, stored_accent, stored_compact_density in *;
      [by rewrite lookup_insert_eq|by rewrite lookup_insert_ne..].
  - intros [= <-]. apply look_ok; [done|..]; unfold stored_theme, stored_accent, stored_compact_density in *;
      [by rewrite lookup_insert_ne|by rewrite lookup_insert_eq|by rewrite lookup_insert_ne].
  - intros [= <-]. apply look_ok; [done|..|by rewrite density_stored]; unfold stored_theme, stored_accent in *;
      by rewrite lookup_insert_ne.
  - destruct (task c) eqn:E; [done| |done]. intros [= <-]. apply begin_turn_ok; [done|by rewrite E].
  - destruct (task c) eqn:E; [done..|]. intros [= <-]. by apply end_turn_ok.
  - intros [= <-]. apply refresh_data_ok. destruct closes; by quiet.
  - intros [= <-]. by quiet.
  - intros [= <-]. by quiet.
  - destruct (decide _) as [Hi|]; [|done]. intros [= <-]. apply table_listed in Hi.
    apply (select_ok c (toggle_row on (Job.id job) (selected_jobs (refresh c)))); [done|by apply NoDup_toggle_row|].
    intros i. destruct on; cbn; [rewrite elem_of_push_new; naive_solver|]. intros [_ Hj]%list_elem_of_filter. auto.
  - intros [= <-]. apply (select_ok c (toggle_all on _ (selected_jobs (refresh c)))); [done| |].
    + destruct on; [by apply NoDup_push_all|by apply NoDup_filter].
    + intros i. destruct on; cbn; [rewrite elem_of_push_all; intros [?|?%table_listed]; auto|].
      intros [_ Hj]%list_elem_of_filter. auto.
  - destruct (decide _); [|done]. intros [= <-]. split; try done. by apply NoDup_toggle_row.
  - intros [= <-]. by quiet.
  - intros [= <-]. apply refresh_data_ok. destruct (stored_other (storage c) (lit "gw-admin-token") (token (refresh c)))
      as (E1 & E2 & E3); [done..|]. apply look_ok; [done|exact (eq_trans Hk1 (eq_sym E1))|exact (eq_trans Hk2 (eq_sym E2))|exact (eq_trans Hk3 (eq_sym E3))].
  - intros [= <-]. apply (quiet_ok (set_storage (delete (lit "gw-admin-token") (storage c)) c)).
    { unfold quiet; split_and!; reflexivity. }
    apply look_ok; [done|..]; unfold stored_theme, stored_accent, stored_compact_density in *; by rewrite lookup_delete_ne.
  - intros [= <-]. by quiet.
  - intros [= <-]. by quiet.
  - intros [= <-]. by quiet.
  - destruct (paste_column col v (filters c)); cbn; [|done]. intros [= <-]. by quiet.
  - intros [= <-]. by quiet.
  - intros [= <-]. apply refresh_data_ok. by quiet.
Qed.

Lemma page_run_app c es1 es2 : run c (es1 ++ es2) = (c' ← run c es1; run c' es2).
Proof. revert c. induction es1 as [|[now e] es1 IH]; intros c; [done|]. cbn. destruct (step now c e); cbn; [apply IH|done]. Qed.
Lemma page_run_ok c es c' : page_ok c → run c es = Some c' → page_ok c'.
Proof.
  revert c. induction es as [|[now e] es IH]; intros c H; cbn; [by intros [= <-]|].
  destruct (step now c e) as [c1|] eqn:E; [cbn|done]. apply IH. by eapply page_step_ok.
Qed.

(** An event that begins a turn of the refresh loop, which reads the tables. *)
Definition begins (c : Client) (e : Event) : bool :=
  match e with Start => true | Answers _ _ => refresh_pending (refresh c) | _ => false end.
Definition is_answers (e : Event) : bool := match e with Answers _ _ => true | _ => false end.

(** A turn that has not begun yet is due. *)
Definition due (c : Client) : Prop := task c = Spawned ∨ task c = Waiting ∧ refresh_pending (refresh c) = true.

Lemma refresh_due c : page_ok c → due (refresh_data c).
Proof.
  intros [Ht _ _ _ _ _ _]. unfold refresh_data, due. destruct (refreshing (refresh c)) eqn:E; cbn; [|by left].
  destruct (task c); [naive_solver|by left|by right].
Qed.
Lemma refresh_still_due c : due c → due (refresh_data c).
Proof. unfold refresh_data, due. destruct (refreshing (refresh c)); cbn; naive_solver. Qed.
Lemma refresh_keeps_task c : page_ok c → task c = Waiting → task (refresh_data c) = Waiting.
Proof.
  intros [Ht _ _ _ _ _ _] H. unfold refresh_data. destruct (refreshing (refresh c)) eqn:E; [done|].
  exfalso. assert (task c ≠ NoTask) as H'%Ht by (by rewrite H). done.
Qed.
Lemma end_turn_task o js c :
  task (end_turn o js c) = if refresh_pending (refresh c) then Waiting else NoTask.
Proof.
  unfold end_turn. assert (refresh_pending (refresh (on_refresh (apply_results o js) c)) = refresh_pending (refresh c)) as ->.
  { by destruct o, js. }
  by destruct (refresh_pending (refresh c)).
Qed.

Lemma end_turn_pending o js c : refresh_pending (refresh (end_turn o js c)) = false.
Proof. unfold end_turn. destruct (refresh_pending (refresh (on_refresh (apply_results o js) c))) eqn:E; cbn; [done|exact E]. Qed.

(** What a step that begins no turn does to one that is due. *)
Lemma step_due now c e c' : due c → begins c e = false → step now c e = Some c' → due c'.
Proof.
  intros Hd Hb. destruct e as [| |on|v|v| | |o js|closes [m|m]| |on job|on|on wid|v| | |st|v|col v|col v|m|v];
    cbn [step AdminClient.step]; try (by intros [= <-]); try done.
  - intros [= <-]. by apply refresh_still_due.
  - destruct (auto_refresh_timer c); [|done]. intros [= <-]. by apply refresh_still_due.
  - cbn in Hb. unfold due in Hd. rewrite Hb in Hd. destruct Hd as [->|[_ ?]]; done.
  - intros [= <-]. apply refresh_still_due. by destruct closes.
  - destruct (decide _); [|done]. by intros [= <-].
  - destruct (decide _); [|done]. by intros [= <-].
  - intros [= <-]. by apply refresh_still_due.
  - destruct (paste_column col v (filters c)); cbn; [|done]. by intros [= <-].
  - intros [= <-]. by apply refresh_still_due.
Qed.
Lemma step_begins now c e c' : begins c e = true → step now c e = Some c' → task c' = Waiting.
Proof.
  destruct e; cbn; try done.
  - intros _. destruct (task c); [done| |done]. by intros [= <-].
  - intros Hp. destruct (task c); [done..|]. intros [= <-]. by rewrite end_turn_task, Hp.
Qed.
(** A turn under way lasts until its answers. *)
Lemma step_waiting now c e c' :
  page_ok c → task c = Waiting → is_answers e = false → step now c e = Some c' → task c' = Waiting.
Proof.
  intros Hok Hw Ha. destruct e as [| |on|v|v| | |o js|closes [m|m]| |on job|on|on wid|v| | |st|v|col v|col v|m|v];
    cbn [step AdminClient.step]; try (by intros [= <-]); try done.
  - intros [= <-]. by apply refresh_keeps_task.
  - destruct (auto_refresh_timer c); [|done]. intros [= <-]. by apply refresh_keeps_task.
  - by rewrite Hw.
  - intros [= <-]. apply refresh_keeps_task; [|by destruct closes].
    by apply (quiet_ok c); [destruct closes; unfold quiet; split_and!; reflexivity|].
  - destruct (decide _); [|done]. by intros [= <-].
  - destruct (decide _); [|done]. by intros [= <-].
  - intros [= <-]. unfold use_token, refresh_data. cbn. destruct Hok as [Ht _ _ _ _ _ _].
    assert (refreshing (refresh c) = true) as -> by (apply Ht; by rewrite Hw). done.
  - destruct (paste_column col v (filters c)); cbn; [|done]. by intros [= <-].
  - intros [= <-]. apply refresh_keeps_task; [|done]. by apply (quiet_ok c); [unfold quiet; split_and!; reflexivity|].
Qed.

Lemma run_waiting_answered c es c' :
  page_ok c → task c = Waiting → run c es = Some c' → task c' = NoTask → existsb is_answers es.*2 = true.
Proof.
  revert c. induction es as [|[now e] es IH]; intros c Hok Hw; cbn; [intros [= <-]; congruence|].
  destruct (step now c e) as [c1|] eqn:E; [cbn|done]. intros Hr Hn. destruct (is_answers e) eqn:Ha; [done|].
  apply (IH c1); [by eapply page_step_ok|by eapply step_waiting|done..].
Qed.

Lemma due_is_served c es c' :
  page_ok c → due c → run c es = Some c' → task c' = NoTask →
  ∃ a now e b c1, es = a ++ (now, e) :: b ∧ run c a = Some c1 ∧ begins c1 e = true ∧ existsb is_answers b.*2 = true.
Proof.
  revert c. induction es as [|[now e] es IH]; intros c Hok Hd; cbn.
  { intros [= <-] Hn. destruct Hd as [?|[? _]]; congruence. }
  destruct (step now c e) as [c1|] eqn:E; [cbn|done]. intros Hr Hn. destruct (begins c e) eqn:Hb.
  - exists [], now, e, es, c. split_and!; try done. eapply (run_waiting_answered c1); [by eapply page_step_ok| |done..].
    by eapply step_begins.
  - destruct (IH c1) as (a & now' & e' & b & c2 & -> & Ha & Hb' & Hx); [by eapply page_step_ok|by eapply step_due|done..|].
    exists ((now, e) :: a), now', e', b, c2. split_and!; try done. cbn. by rewrite E.
Qed.
End page_runs.


(** ** Pasted filters *)

Lemma trim_start_suffix s : ∃ pad, s = pad ++ Text.trim_start s.
Proof. exists (span is_whitespace s).1. symmetry. apply span_app. Qed.
Lemma trim_start_head s c r : Text.trim_start s = c :: r → is_whitespace c = false.
Proof.
  unfold Text.trim_start. induction s as [|d s IH]; cbn; [done|]. destruct (is_whitespace d) eqn:E; [|cbn; congruence].
  destruct (span is_whitespace s); exact IH.
Qed.
(** Trimming cuts a middle out, which has no white space at its ends. *)
Lemma trim_middle s : ∃ a b, s = a ++ Text.trim s ++ b.
Proof.
  unfold Text.trim. destruct (trim_start_suffix s) as [a Ha], (trim_start_suffix (rev (Text.trim_start s))) as [b Hb].
  exists a, (rev b). rewrite <- rev_app_distr, <- Hb, rev_involutive. exact Ha.
Qed.
Lemma trim_trim s : Text.trim (Text.trim s) = Text.trim s.
Proof.
  apply Text.trim_solid.
  - intros c r. unfold Text.trim. destruct (trim_start_suffix (rev (Text.trim_start s))) as [b Hb].
    intros E. apply (f_equal (@rev Z)) in Hb. rewrite rev_involutive, rev_app_distr, E in Hb. by eapply trim_start_head.
  - intros r d E. unfold Text.trim in E. apply (f_equal (@rev Z)) in E. rewrite rev_involutive, rev_unit in E.
    by eapply trim_start_head.
Qed.

Lemma split_on_free p s : Forall (λ c, p c = false) s → split_on p s = [s].
Proof. induction 1 as [|c s Hc _ IH]; [done|]. cbn. by rewrite Hc, IH. Qed.
Lemma split_on_app p s c r : Forall (λ c, p c = false) s → p c = true → split_on p (s ++ c :: r) = s :: split_on p r.
Proof. induction 1 as [|d s Hd _ IH]; intros Hc; cbn; [by rewrite Hc|]. by rewrite Hd, IH. Qed.
Lemma split_on_pieces p s : Forall (Forall (λ c, p c = false)) (split_on p s).
Proof.
  induction s as [|c s IH]; cbn; [by repeat constructor|]. destruct (p c) eqn:Hc; [by constructor|].
  destruct IH as [|l ls Hl Hls]; by repeat constructor.
Qed.

(** A piece that splitting and trimming leaves alone. *)
Definition solid (p : char → bool) (s : str) : Prop := Forall (λ c, p c = false) s ∧ Text.trim s = s ∧ s ≠ [].

Lemma non_blank_solid p s : Forall (solid p) (non_blank (split_on p s)).
Proof.
  unfold non_blank. apply Forall_forall. intros x [Hne (y & -> & Hy)%list_elem_of_fmap]%list_elem_of_filter.
  split_and!; [|apply trim_trim|done]. pose proof (split_on_pieces p s) as H. rewrite Forall_forall in H. specialize (H y Hy).
  destruct (trim_middle y) as (a & b & E). rewrite E, !Forall_app in H. tauto.
Qed.

Lemma non_blank_cons x l : non_blank (x :: l) = (if decide (Text.trim x = []) then [] else [Text.trim x]) ++ non_blank l.
Proof. unfold non_blank. rewrite fmap_cons, filter_cons. by destruct (decide (Text.trim x ≠ [])), (decide (Text.trim x = [])). Qed.

Lemma split_joined p pad ps :
  p 44 = true → p 32 = false → Forall (solid p) ps → Forall (λ c, is_whitespace c = true ∧ p c = false) pad →
  non_blank (split_on p (pad ++ Text.join (lit ", ") ps)) = ps.
Proof.
  intros Hc Hsp Hps. revert pad. induction Hps as [|x ps (Hx & Ht & Hne) Hps IH]; intros pad Hpad.
  - cbn. rewrite app_nil_r, split_on_free by (eapply Forall_impl; [done|by intros ? []]). rewrite non_blank_cons.
    replace (Text.trim pad) with (@nil Z); [done|]. symmetry. rewrite <- (app_nil_r pad).
    rewrite Text.trim_pad; [done|]. eapply Forall_impl; [done|by intros ? []].
  - assert (Text.trim (pad ++ x) = x) as Hpx by (rewrite Text.trim_pad; [done|eapply Forall_impl; [done|by intros ? []]]).
    assert (Forall (λ c, p c = false) (pad ++ x)) as Hfree.
    { apply Forall_app. split; [|done]. eapply Forall_impl; [done|by intros ? []]. }
    destruct ps as [|y ps].
    + cbn. rewrite split_on_free by done. rewrite non_blank_cons, Hpx, decide_False by done. done.
    + change (Text.join (lit ", ") (x :: y :: ps)) with (x ++ 44 :: [32] ++ Text.join (lit ", ") (y :: ps)).
      rewrite app_assoc, split_on_app by done. rewrite non_blank_cons, Hpx, decide_False by done. cbn [app]. f_equal.
      apply (IH [32]). by repeat constructor.
Qed.

(** A pasted list is filtered by exactly its items, whatever separates them. *)
Theorem pasted_list_filters_its_items (lowercase : str → str) raw :
  filter_values lowercase (normalize_filter_paste raw) = lowercase <$> non_blank (split_on (one_of [44; 10; 13; 9]) raw).
Proof.
  unfold filter_values, normalize_filter_paste. f_equal. apply (split_joined _ []); [done..| |done].
  eapply Forall_impl; [apply non_blank_solid|]. intros x (Hx & Ht & Hne). split_and!; [|done..].
  eapply Forall_impl; [done|]. intros c. unfold one_of. rewrite !bool_decide_eq_false. set_solver.
Qed.

(** ** The state shown for a job is the one the server lists it under *)

Theorem shown_state_is_listed_state now (j : ListedJob) s : s ≠ All → job_state now j = s ↔ in_state now s j = true.
Proof.
  unfold job_state, in_state. intros Hs. destruct (Job.locked_at j); cbn.
  - destruct s; cbn; split; congruence.
  - destruct (Z.leb_spec (Job.max_attempts j) (Job.attempts j)), (Z.ltb_spec (Job.attempts j) (Job.max_attempts j)); try lia;
      destruct (Z.ltb_spec now (Job.run_at j)), (Z.leb_spec (Job.run_at j) now); try lia; destruct s; cbn; split; congruence.
Qed.


(** ** The CSV export *)

(** A reader of CSV (RFC 4180): a field is quoted, or runs to the next comma or
    line end; a record ends with CRLF. *)
Definition unquoted (c : char) : bool := negb (one_of [44; 13; 10] c).
Definition read_field (s : str) : option (str * str) :=
  match s with c :: s' => if c =? 34 then Database.read_quoted s' else Some (span unquoted s) | [] => Some ([], []) end.
Fixpoint read_record (fuel : nat) (s : str) : option (list str * str) :=
  match fuel with
  | O => None
  | S fuel =>
      '(f, rest) ← read_field s;
      match rest with
      | c :: rest =>
          if c =? 44 then '(fs, rest) ← read_record fuel rest; Some (f :: fs, rest)
          else match rest with d :: rest => if (c =? 13) && (d =? 10) then Some ([f], rest) else None | [] => None end
      | [] => None
      end
  end.
Fixpoint read_csv (fuel : nat) (s : str) : option (list (list str)) :=
  match s with
  | [] => Some []
  | _ => match fuel with
         | O => None
         | S fuel => '(r, rest) ← read_record (length s) s; rs ← read_csv fuel rest; Some (r :: rs)
         end
  end.

(** A text that is read as one field before a comma or a line end. *)
Definition field_text (text f : str) : Prop :=
  ∀ c rest, c = 44 ∨ c = 13 → read_field (text ++ c :: rest) = Some (f, c :: rest).

Lemma escaped_field f : field_text (csv_escape f) f.
Proof.
  intros c rest Hc. unfold csv_escape, read_field. cbn [app]. rewrite Z.eqb_refl.
  rewrite <- app_assoc. apply Database.read_quoted_escape. intros r E. injection E as ->. destruct Hc; done.
Qed.
Lemma plain_field f : f ≠ [] → Forall (λ c, unquoted c = true ∧ c ≠ 34) f → field_text f f.
Proof.
  intros Hne Hf c rest Hc. destruct Hf as [|d f [Hd Hq] Hf]; [done|].
  unfold read_field. cbn [app]. rewrite (proj2 (Z.eqb_neq d 34)) by done. f_equal.
  apply (span_prefix unquoted (d :: f) (c :: rest)); [|by intros x l [= -> _]; destruct Hc as [->| ->]].
  constructor; [done|]. eapply Forall_impl; [done|by intros ? []].
Qed.

Lemma read_record_join texts fs n rest :
  Forall2 field_text texts fs → texts ≠ [] → (length texts ≤ n)%nat →
  read_record n (Text.join [44] texts ++ crlf ++ rest) = Some (fs, rest).
Proof.
  intros H. revert n. induction H as [|t f texts fs Ht Hts IH]; intros n Hne Hn; [done|].
  destruct n as [|n]; [cbn in Hn; lia|]. destruct Hts as [|t' f' texts fs Ht' Hts].
  - change (Text.join [44] [t] ++ crlf ++ rest) with (t ++ 13 :: 10 :: rest). cbn [read_record]. rewrite Ht by tauto. reflexivity.
  - change (Text.join [44] (t :: t' :: texts)) with (t ++ 44 :: Text.join [44] (t' :: texts)).
    rewrite <- app_assoc. cbn [app read_record]. rewrite Ht by tauto. cbn [mbind option_bind].
    rewrite Z.eqb_refl, IH; [done..|cbn in *; lia].
Qed.

Lemma join_length sep (l : list str) : sep ≠ [] → (length l ≤ S (length (Text.join sep l)))%nat.
Proof.
  intros Hs. induction l as [|x [|y l] IH]; [cbn; lia..|]. change (Text.join sep (x :: y :: l)) with (x ++ sep ++ Text.join sep (y :: l)).
  rewrite !length_app. destruct sep; [done|]. cbn in *. lia.
Qed.

(** One record after another. *)
Lemma read_csv_records (records : list (list str * list str)) n :
  Forall (λ r, Forall2 field_text r.1 r.2 ∧ r.1 ≠ []) records → (length records ≤ n)%nat →
  read_csv n (concat ((λ r, Text.join [44] r.1 ++ crlf) <$> records)) = Some records.*2.
Proof.
  intros H. revert n. induction H as [|[texts fs] records [Hr Hne] _ IH]; intros n Hn; [by destruct n|].
  destruct n as [|n]; [cbn in Hn; lia|]. rewrite fmap_cons. cbn [concat fst].
  set (rest := concat _). rewrite <- app_assoc. destruct (Text.join [44] texts ++ crlf ++ rest) as [|c s] eqn:E.
  { by destruct (Text.join [44] texts). }
  cbn [read_csv]. rewrite <- E, (read_record_join texts fs); [|done..|].
  - cbn [mbind option_bind]. subst rest. rewrite IH by (cbn in Hn; lia). done.
  - pose proof (join_length [44] texts). rewrite !length_app. cbn in *. specialize (H ltac:(done)). lia.
Qed.

Lemma join_crlf (ls : list str) : ls ≠ [] → Text.join crlf ls ++ crlf = concat ((.++ crlf) <$> ls).
Proof.
  induction ls as [|x [|y ls] IH]; intros Hne; [done|cbn; by rewrite app_nil_r|].
  change (Text.join crlf (x :: y :: ls)) with (x ++ crlf ++ Text.join crlf (y :: ls)).
  rewrite <- !app_assoc, IH by done. by rewrite fmap_cons, app_assoc.
Qed.

(** Reading the copied CSV back gives the columns and the fields of every
    selected row, whatever the text of a task, a queue or a key is. *)
Theorem csv_roundtrip (rfc3339 : Z → str) now rows :
  let text := selected_csv rfc3339 now rows in
  read_csv (S (length rows)) text = Some (csv_columns :: (csv_fields rfc3339 now <$> rows)).
Proof.
  intros text.
  set (records := (csv_columns, csv_columns) :: ((λ j, (csv_escape <$> csv_fields rfc3339 now j, csv_fields rfc3339 now j)) <$> rows)).
  assert (text = concat ((λ r, Text.join [44] r.1 ++ crlf) <$> records)) as ->.
  { subst text records. unfold selected_csv. rewrite join_crlf by done. rewrite !fmap_cons. cbn [concat fst]. f_equal.
    f_equal. rewrite <- !list_fmap_compose. done. }
  rewrite read_csv_records.
  - subst records. rewrite fmap_cons, <- list_fmap_compose. done.
  - constructor.
    + split; [|done]. cbn [fst snd]. unfold csv_columns. repeat (constructor; [apply plain_field; [done|apply (bool_decide_unpack _); vm_compute; exact I]|]). constructor.
    + apply Forall_fmap, Forall_true. intros j. split; [|done]. cbn [compose fst snd]. generalize (csv_fields rfc3339 now j).
      intros fs. induction fs; constructor; [apply escaped_field|done].
  - subst records. cbn. by rewrite length_fmap.
Qed.

(** A shortened text is no longer than asked for, but for the ellipsis. *)
Lemma short_bound s n : (length (short s n) ≤ Nat.max n 3)%nat ∧ ((length s ≤ n)%nat → short s n = s).
Proof.
  unfold short. destruct (Nat.leb_spec (length s) n); split; try done; try lia.
  rewrite length_app, length_take. cbn. lia.
Qed.


(** A bulk button that is offered names jobs, on a page that may write. *)
Lemma offered_actions_allowed (state : AppState) selected r :
  click_complete (page_config state) selected = Some r ∨ click_run_now (page_config state) selected = Some r →
  ensure_write_allowed state = Ok () ∧
  ∃ a, r = PostJobAction a ∧ act_ids a = selected ∧ is_empty (act_ids a) = false.
Proof.
  unfold click_complete, click_run_now, bulk_disabled, ensure_write_allowed. cbn [page_config read_only].
  destruct (is_empty selected) eqn:E; cbn [orb]; [naive_solver|].
  destruct (c_read_only state); [naive_solver|]. intros [[= <-]|[= <-]]; (split; [done|]; eexists; split; [done|]; done).
Qed.

(** ** What the client promises *)

(** C20: The page a server renders makes requests that server serves: the client
    reads its configuration back from the page; with the server's secret in the
    token field, or kept by the browser, every form and button passes the
    authentication and CSRF layers and reaches the handler it is meant for with
    the request it describes; and the two reads of a refresh reach the overview
    and the list of jobs. *)
Theorem page_requests_are_served (L : Library) (fails : nat → option JobStore.SqlError) (now clock : Z)
    (trace : option Value) (acquired : bool) (json : ClientRequest → str) (state : AppState) (browser : HeaderMap)
    (s : RefreshSignals) (r : ClientRequest) (params : ListJobsParams) (w : World) :
  serves_pages state → credentials L (c_auth state) browser (token s) → decodes L json r →
  parse_params L (jobs_query s) = Ok params →
  ∃ cfg, config_from_root (page_dataset state) = Ok cfg ∧
    let post := client_post json browser cfg (token s) r in
    let '(o, j) := turn_requests browser cfg s in
    serve L fails now clock trace acquired state post w
    = security_headers post (meant L fails now clock trace acquired state r) w ∧
    serve L fails now clock trace acquired state o w
    = security_headers o (λ w, (w, into_response (AdminServer.overview L fails now clock (tables w)))) w ∧
    serve L fails now clock trace acquired state j w
    = security_headers j (λ w, (w, into_response (list_handler L fails now params (tables w)))) w.
Proof.
  intros Hs Hc Hd Hp. exists (page_config state). split; [apply page_config_read; apply Hs|].
  split; [by apply page_posts_served|]. by apply page_reads_served.
Qed.

(** An event that asks for a refresh. *)
Definition asks (e : Event) : bool :=
  match e with ClickRefresh | Interval | Mutated _ (Ok _) | UseToken | SelectLimit _ => true | _ => false end.

Lemma asks_due lowercase text now c e c' :
  page_ok c → asks e = true → step lowercase text now c e = Some c' → due c'.
Proof.
  intros Hok Ha. destruct e as [| |on|v|v| | |o js|closes [m|m]| |on job|on|on wid|v| | |st|v|col v|col v|m|v];
    try done; cbn [step].
  - intros [= <-]. by apply refresh_due.
  - destruct (auto_refresh_timer c); [|done]. intros [= <-]. by apply refresh_due.
  - intros [= <-]. apply refresh_due. by apply (quiet_ok c); [destruct closes; unfold quiet; split_and!; reflexivity|].
  - intros [= <-]. pose proof (refresh_due c Hok) as H. unfold due, use_token, refresh_data in *. cbn in *.
    by destruct (refreshing (refresh c)).
  - intros [= <-]. apply refresh_due. by apply (quiet_ok c); [unfold quiet; split_and!; reflexivity|].
Qed.

(** Left alone, the refresh task ends. *)
Definition settle (c : Client) (o : result OverviewResponse str) (js : result (list ListedJob) str) : list Event :=
  match task c with
  | NoTask => []
  | Spawned => [Start; Answers o js]
  | Waiting => if refresh_pending (refresh c) then [Answers o js; Answers o js] else [Answers o js]
  end.
Lemma settle_quiet lowercase text now c o js :
  ∃ c', run lowercase text c (pair now <$> settle c o js) = Some c' ∧ task c' = NoTask.
Proof.
  unfold settle. destruct (task c) eqn:E; [by exists c| |].
  - cbn. rewrite E. cbn. eexists. split; [done|]. by rewrite end_turn_task.
  - destruct (refresh_pending (refresh c)) eqn:Hp; cbn; rewrite E; cbn.
    + rewrite end_turn_task, Hp. cbn. eexists. split; [done|]. rewrite end_turn_task.
      by rewrite end_turn_pending.
    + eexists. split; [done|]. by rewrite end_turn_task, Hp.
Qed.

(** C21: No refresh is lost and at most one task refreshes: whatever the user, the
    timers and the answers do, the page says it is refreshing exactly while the
    task runs, and a refresh asked for (by a click, the timer, an answered
    mutation, a new token or a new limit) is followed, before the task ends, by a turn that
    begins after it and is answered; left alone, the task ends within two
    turns.  The selection is free of duplicates and of jobs that are not
    listed, and the look is the one a reload restores. *)
Theorem refreshes_are_served (lowercase : str → str) (text : Value → str) (st : gmap str str)
    (before : list (Z * Event)) (now : Z) (e : Event) (after : list (Z * Event)) (c : Client) :
  asks e = true → run lowercase text (admin_app st) (before ++ (now, e) :: after) = Some c →
  page_ok c ∧
  (task c = NoTask → ∃ a now' e' b c1, after = a ++ (now', e') :: b ∧
     run lowercase text (admin_app st) (before ++ (now, e) :: a) = Some c1 ∧
     begins c1 e' = true ∧ existsb is_answers b.*2 = true) ∧
  (∀ o js, (length (settle c o js) ≤ 2)%nat ∧
     ∃ c', run lowercase text c (pair now <$> settle c o js) = Some c' ∧ task c' = NoTask).
Proof.
  intros Ha Hr. assert (page_ok (admin_app st)) as Hok by apply refresh_data_ok, signals_new_ok.
  split; [by eapply page_run_ok|]. split.
  - intros Hn. rewrite page_run_app in Hr. destruct (run lowercase text (admin_app st) before) as [c0|] eqn:E0; [|done].
    cbn in Hr. destruct (step lowercase text now c0 e) as [c1|] eqn:E1; [cbn in Hr|done].
    assert (page_ok c0) as Hok0 by (by eapply page_run_ok).
    destruct (due_is_served lowercase text c1 after c) as (a & now' & e' & b & c2 & -> & Hra & Hb & Hx);
      [by eapply page_step_ok|by eapply asks_due|done..|].
    exists a, now', e', b, c2. split_and!; try done. rewrite page_run_app, E0. cbn. by rewrite E1.
  - intros o js. split; [|apply settle_quiet]. unfold settle. destruct (task c), (refresh_pending (refresh c)); cbn; lia.
Qed.

(** ** Examples *)

Definition demo_api_library : Library :=
  mkLibrary (λ _, None) (λ _, Ok demo_job) (λ _, Err 400) (λ b, Ok b) (λ _, Err 400)
    (λ _, Ok (mkParams All None None None 100 0)) (λ _, Err 400) (λ _ _, true) (λ _, []) (λ _ _, true) (λ l, l) Some (λ _, 0).
Definition demo_bearer : AppState :=
  mkApp (mkConfig (lit "graphile_worker") true (Bearer (lit "s3cret") false) false None None false) (lit "csrf").
Definition demo_signals : RefreshSignals := mkRefreshSignals (lit "s3cret") 100 empty_overview [] [] None false false.

Lemma page_requests_are_served_witness :
  ∃ cfg, config_from_root (page_dataset demo_bearer) = Ok cfg ∧
    status (serve demo_api_library (λ _, None) 10 10 None true demo_bearer
      (client_post (λ _, []) [] cfg (lit "s3cret") (PostAddJob demo_job)) demo_empty).2 = 200.
Proof.
  destruct (page_requests_are_served demo_api_library (λ _, None) 10 10 None true (λ _, []) demo_bearer []
    demo_signals (PostAddJob demo_job) (mkParams All None None None 100 0) demo_empty) as (cfg & Hcfg & Hpost & _).
  - constructor; [done|apply (bool_decide_unpack _); vm_compute; exact I|done].
  - split_and!; [done|done|apply (bool_decide_unpack _); vm_compute; exact I].
  - reflexivity.
  - reflexivity.
  - exists cfg. split; [exact Hcfg|]. cbn [demo_signals token] in Hpost. rewrite Hpost. vm_compute. reflexivity.
Defined.

(** A click while the first refresh waits for its answers: a second turn. *)
Definition demo_events : list (Z * Event) :=
  [(1, Start); (2, ClickRefresh); (3, Answers (Err (lit "offline")) (Ok [])); (4, Answers (Ok empty_overview) (Ok []))].

Lemma refreshes_are_served_witness :
  ∃ c, run (λ s, s) (λ _, []) (admin_app ∅) demo_events = Some c ∧ task c = NoTask ∧ page_ok c ∧
    toast (refresh c) = Some (lit "offline").
Proof.
  eexists. split; [vm_compute; reflexivity|]. split; [reflexivity|]. split; [|reflexivity].
  apply (refreshes_are_served (λ s, s) (λ _, []) ∅ (take 1 demo_events) 2 ClickRefresh (drop 2 demo_events));
    [reflexivity|vm_compute; reflexivity].
Defined.

End AdminClient.
