(* ===== verification/Cli.v ===== *)
(** * The command line (crates/graphile-worker-cli)

    The value parsers, the credentials of the administration server and every
    command, as a function from its arguments and the tables to the tables and
    what is printed.  clap enforces that a command that takes ids or worker ids
    has at least one; reading a payload file, the JSON parser and the printed
    form of a time are fields of [CliLibrary]. *)

From S2P Require Import Prelude Text Job Database FlagFilter JobStore JobRelease Hooks AddJob JobInvariant Recovery WorkerUtils AdminApi AdminServer.
Open Scope Z_scope.

Module Cli.
Import Job FlagFilter JobStore JobRelease Hooks AddJob JobInvariant WorkerUtils AdminApi AdminServer.

(** ** parsers.rs *)

Definition to_ascii_lowercase (s : str) : str := (λ c, if is_ascii_uppercase c then c + 32 else c) <$> s.

Definition second_units : list str := lit <$> ["s"; "sec"; "secs"; "second"; "seconds"]%string.
Definition minute_units : list str := lit <$> ["m"; "min"; "mins"; "minute"; "minutes"]%string.
Definition hour_units : list str := lit <$> ["h"; "hr"; "hrs"; "hour"; "hours"]%string.

(** The seconds of a duration, in [u64] arithmetic: a release build wraps
    where a debug build panics. *)
Definition unit_seconds (unit : str) (amount : Z) : option Z :=
  if bool_decide (unit ∈ second_units) then Some amount
  else if bool_decide (unit ∈ minute_units) then Some (wrap_u64 (amount * 60))
  else if bool_decide (unit ∈ hour_units) then Some (wrap_u64 (wrap_u64 (amount * 60) * 60))
  else None.

Definition quote_value (m value : str) : str := m ++ lit " `" ++ value ++ lit "`".

Definition parse_duration (value : str) : result Z str :=
  let value := Text.trim value in
  if is_empty value then Err (lit "duration must not be empty")
  else
    match Text.parse_u64 value with
    | Ok seconds => Ok seconds
    | Err _ =>
        let '(number, unit) := span is_ascii_digit value in
        let invalid := Err (quote_value (lit "invalid duration") value) in
        if is_empty unit then invalid
        else
          match Text.parse_u64 number with
          | Err _ => invalid
          | Ok amount =>
              let unit := to_ascii_lowercase (Text.trim unit) in
              match unit_seconds unit amount with
              | Some seconds => Ok seconds
              | None => Err (quote_value (lit "unsupported duration unit") unit)
              end
          end
    end.

(** [parse_utc_datetime]: the word "now" in any case, or RFC 3339. *)
Definition parse_utc_datetime (parse_from_rfc3339 : str → result Z str) (clock : Z) (value : str) : result Z str :=
  if bool_decide (to_ascii_lowercase value = lit "now") then Ok clock else parse_from_rfc3339 value.

(** ** args *)

Record AddArgs := mkAddArgs {
  arg_identifier : str;
  arg_payload : option str;
  arg_payload_file : option str;
  arg_queue : option str;
  arg_run_at : option Z;
  arg_max_attempts : option Z;
  arg_key : option str;
  arg_job_key_mode : option JobKeyMode;
  arg_priority : option Z;
  arg_flags : list str
}.

Record ListArgs := mkListArgs {
  list_identifier : option str;
  list_queue : option str;
  list_state : JobState;
  list_limit : Z;
  list_offset : Z
}.

Record RescheduleArgs := mkRescheduleArgs {
  re_ids : list Z;
  re_now : bool;
  re_run_at : option Z;
  re_priority : option Z;
  re_attempts : option Z;
  re_max_attempts : option Z
}.

Record SweepArgs := mkSweepArgs {
  sw_sweep_threshold : option Z;
  sw_recovery_delay : option Z;
  sw_dry_run : bool
}.

Inductive AdminAuthModeArg := AuthBasic | AuthBearer | AuthHeader | AuthNone.

Record AdminArgs := mkAdminArgs {
  listen : str;
  listen_loopback : bool;             (* listen.ip().is_loopback() *)
  arg_auth : AdminAuthModeArg;
  username : str;
  password : option str;
  bearer_token : option str;
  header_token : option str;
  arg_header_name : str;
  arg_read_only : bool
}.

Inductive Command :=
| CmdAdd (a : AddArgs)
| CmdList (a : ListArgs)
| CmdShow (i : Z)
| CmdComplete (ids : list Z)
| CmdFail (ids : list Z) (reason : str)
| CmdReschedule (a : RescheduleArgs)
| CmdRemove (k : str)
| CmdCleanup (ts : list CleanupTaskName) (keep : list str)
| CmdForceUnlock (ws : list str)
| CmdMigrate
| CmdStats
| CmdQueues
| CmdWorkers
| CmdSweep (a : SweepArgs)
| CmdAdmin (a : AdminArgs).

(** ** Libraries *)

Record CliLibrary := mkCliLibrary {
  server_library :> Library;
  read_file : str → option str;
  from_json : str → option Value;
  time_text : Z → str;                 (* DateTime::to_rfc3339 *)
  value_pretty : Value → str
}.

(** ** admin.rs *)

Section commands.
Context (L : CliLibrary).

Definition given (o : option str) (secret : str) : str * bool :=
  match o with Some t => (t, false) | None => (secret, true) end.

(** [secret] is what [generate_secret] answers. *)
Definition build_admin_auth (secret : str) (a : AdminArgs) : result AdminAuthConfig str :=
  match arg_auth a with
  | AuthBasic => let '(p, generated) := given (password a) secret in Ok (Basic (username a) p generated)
  | AuthBearer => let '(t, generated) := given (bearer_token a) secret in Ok (Bearer t generated)
  | AuthHeader =>
      let '(t, generated) := given (header_token a) secret in
      match auth_header L (arg_header_name a) t generated with
      | Some auth => Ok auth
      | None => Err (lit "invalid admin header auth configuration")
      end
  | AuthNone =>
      if listen_loopback a then Ok NoAuth
      else Err (lit "--auth none is only allowed when --listen uses a loopback address")
  end.

Definition secret_line (generated : bool) (label what : str) (auth : AdminAuthConfig) : list str :=
  if generated then match secret_for_display auth with
                    | Some secret => [lit "Generated " ++ label ++ lit ": " ++ secret]
                    | None => []
                    end
  else [what ++ lit ": configured"].

Definition print_admin_startup (a : AdminArgs) (auth : AdminAuthConfig) : list str :=
  [lit "Graphile Worker admin UI: http://" ++ listen a;
   lit "Read-only mode: " ++ (if arg_read_only a then lit "on" else lit "off")] ++
  match auth with
  | Basic u _ generated =>
      [lit "Auth: HTTP Basic"; lit "Username: " ++ u] ++
      secret_line generated (lit "password") (lit "Password") auth
  | Bearer _ generated =>
      [lit "Auth: bearer token"] ++ secret_line generated (lit "bearer token") (lit "Bearer token") auth
  | Header name _ generated =>
      [lit "Auth: header token"; lit "Header: " ++ name] ++
      secret_line generated (lit "header token") (lit "Header token") auth
  | NoAuth => [lit "Auth: none (loopback only)"]
  end.

(** The configuration the admin command serves; the utilities have no hooks. *)
Definition admin_config (secret schema : str) (a : AdminArgs) : result AdminServerConfig str :=
  let? auth := build_admin_auth secret a in
  match build (mkConfig schema (listen_loopback a) auth (arg_read_only a) None None false) with
  | Ok c => Ok c
  | Err _ => Err (lit "admin auth without credentials is only allowed on loopback addresses")
  end.

(** ** output.rs *)

Inductive Output :=
| Lines (ls : list str)
| JsonJob (o : DbJobOutput)
| JsonJobs (os : list DbJobOutput)
| JsonListed (js : list ListedJob)
| JsonShown (j : ListedJob)
| JsonRemovedKey (k : str)
| JsonCleanupTasks (ts : list CleanupTaskName)
| JsonUnlockedWorkers (ws : list str)
| JsonMigrated
| JsonStats (s : JobStats)
| JsonQueues (qs : list QueueRow)
| JsonWorkers (ws : list LockedWorkerRow)
| JsonSweep (r : Recovery.SweepStaleWorkersResult)
| Serving (startup : list str) (c : AdminServerConfig).

Definition cells (l : list str) : str := Text.join [9] l.
Definition or_dash (o : option str) : str := default (lit "-") o.

Definition state_for (clock : Z) (j : ListedJob) : str :=
  if bool_decide (is_Some (locked_at j)) then lit "locked"
  else if max_attempts j <=? attempts j then lit "failed"
  else if clock <? run_at j then lit "scheduled"
  else lit "ready".

Definition job_line (clock : Z) (j : ListedJob) : str :=
  cells [Text.int_text (id j); listed_task_identifier j; or_dash (listed_queue_name j); state_for clock j;
         time_text L (run_at j); Text.int_text (attempts j) ++ lit "/" ++ Text.int_text (max_attempts j); Text.int_text (priority j);
         or_dash (key j); or_dash (locked_by j)].

Definition print_jobs_table (clock : Z) (js : list ListedJob) : list str :=
  cells (lit <$> ["id"; "task"; "queue"; "state"; "run_at"; "attempts"; "priority"; "key"; "locked_by"]%string)
  :: (job_line clock <$> js).

Definition print_job_details (clock : Z) (j : ListedJob) : list str :=
  [lit "id: " ++ Text.int_text (id j); lit "task: " ++ listed_task_identifier j;
   lit "queue: " ++ or_dash (listed_queue_name j); lit "state: " ++ state_for clock j;
   lit "run_at: " ++ time_text L (run_at j);
   lit "attempts: " ++ Text.int_text (attempts j) ++ lit "/" ++ Text.int_text (max_attempts j); lit "priority: " ++ Text.int_text (priority j);
   lit "key: " ++ or_dash (key j); lit "locked_by: " ++ or_dash (locked_by j);
   lit "last_error: " ++ or_dash (last_error j); lit "payload: " ++ value_pretty L (payload j)].

Definition print_queues_table (qs : list QueueRow) : list str :=
  cells (lit <$> ["id"; "queue"; "jobs"; "ready"; "locked_by"; "locked_at"]%string)
  :: ((λ q, cells [Text.int_text (row_queue_id q); row_queue_name q; dec (job_count q); dec (ready_count q);
                   or_dash (row_locked_by q); or_dash (time_text L <$> row_locked_at q)]) <$> qs).

Definition print_workers_table (ws : list LockedWorkerRow) : list str :=
  cells (lit <$> ["worker_id"; "locked_jobs"; "locked_queues"]%string)
  :: ((λ r, cells [worker_id r; dec (locked_jobs r); dec (locked_queues r)]) <$> ws).

(** The identifiers of the tasks are not resolved. *)
Definition print_db_job_result (json : bool) (action : str) (rows : list DbJob) : Output :=
  if json then JsonJobs ((λ j, mkOutput j None) <$> rows)
  else Lines [action ++ lit " " ++ dec (Z.of_nat (length rows)) ++ lit " job(s): " ++
              Text.join (lit ", ") ((λ j, Text.int_text (id j)) <$> rows)].

(** ** commands *)

(** The answers of the statements, the clocks and the trace, as for the server. *)
Context (fails : nat → option SqlError) (now clock : Z) (trace : option Value) (acquired : bool).
Context (json : bool) (schema secret : str).
Abbreviation Ran := (World * result Output str)%type.

Definition failed (w : World) (m : string) : Ran := (w, Err (lit m)).
Definition printed (w : World) (j o : Output) : Ran := (w, Ok (if json then j else o)).

Definition read_payload (a : AddArgs) : result Value str :=
  let? text :=
    match arg_payload a, arg_payload_file a with
    | Some p, _ => Ok p
    | None, Some path => match read_file L path with
                         | Some text => Ok text
                         | None => Err (quote_value (lit "failed to read payload file") path)
                         end
    | None, None => Ok (lit "{}")
    end in
  match from_json L text with Some v => Ok v | None => Err (lit "payload must be valid JSON") end.

Definition add_spec (a : AddArgs) : JobSpec :=
  mkSpec (arg_queue a) (arg_run_at a) (arg_max_attempts a) (arg_key a) (arg_job_key_mode a)
    (arg_priority a) (if is_empty (arg_flags a) then None else Some (arg_flags a)).

Definition cmd_add (a : AddArgs) (w : World) : Ran :=
  match read_payload a with
  | Err e => (w, Err e)
  | Ok payload =>
      match fails 0 with
      | Some _ => failed w "failed to add job"
      | None =>
          match add_raw_job trace clock now None false (arg_identifier a) payload (add_spec a) (tables w) with
          | Some (d, Ok job) =>
              printed (mkWorld d (cache w)) (JsonJob (db_job_output_from_job job))
                (Lines [lit "Added job " ++ Text.int_text (id job) ++ lit " for task `" ++ task_identifier job ++ lit "`"])
          | _ => failed w "failed to add job"
          end
      end
  end.

Definition list_jobs_params (a : ListArgs) : result ListJobsParams str :=
  if list_limit a <? 0 then Err (lit "--limit must be greater than or equal to 0")
  else if list_offset a <? 0 then Err (lit "--offset must be greater than or equal to 0")
  else Ok (mkParams (list_state a) (list_identifier a) (list_queue a) None (list_limit a) (list_offset a)).

Definition cmd_list (a : ListArgs) (w : World) : Ran :=
  match list_jobs_params a with
  | Err e => (w, Err e)
  | Ok params =>
      match fails 0, list_jobs (ilike L) (value_text L) now None params (tables w) with
      | None, Ok js => printed w (JsonListed js) (Lines (print_jobs_table clock js))
      | _, _ => failed w "failed to list jobs"
      end
  end.

Definition cmd_show (i : Z) (w : World) : Ran :=
  match fails 0, AdminApi.get_job i (tables w) with
  | None, Ok j => printed w (JsonShown j) (Lines (print_job_details clock j))
  | _, _ => (w, Err (lit "failed to get job " ++ Text.int_text i))
  end.

Definition cmd_complete (ids : list Z) (w : World) : Ran :=
  match fails 0 with
  | Some _ => failed w "failed to complete jobs"
  | None => (on_db (complete_jobs ids now) w,
             Ok (print_db_job_result json (lit "Completed") (managed L now ids (tables w))))
  end.

Definition cmd_fail (ids : list Z) (reason : str) (w : World) : Ran :=
  match fails 0 with
  | Some _ => failed w "failed to permanently fail jobs"
  | None => (on_db (permanently_fail_jobs ids reason now) w,
             Ok (print_db_job_result json (lit "Failed") (exhaust now reason <$> managed L now ids (tables w))))
  end.

Definition cmd_reschedule (a : RescheduleArgs) (w : World) : Ran :=
  let run_at := if re_now a then Some clock else re_run_at a in
  match run_at, re_priority a, re_attempts a, re_max_attempts a with
  | None, None, None, None =>
      failed w "provide at least one of --now, --run-at, --priority, --attempts, or --max-attempts"
  | t, p, at_, m =>
      let o := mkReschedule t p at_ m in
      match fails 0, reschedule_jobs (re_ids a) o now (tables w) with
      | None, Ok d =>
          (mkWorld d (cache w),
           Ok (print_db_job_result json (lit "Rescheduled") (reschedule o now <$> managed L now (re_ids a) (tables w))))
      | _, _ => failed w "failed to reschedule jobs"
      end
  end.

Definition cmd_remove (k : str) (w : World) : Ran :=
  match fails 0 with
  | Some _ => (w, Err (quote_value (lit "failed to remove job with key") k))
  | None => printed (on_db (remove_job k now) w) (JsonRemovedKey k) (Lines [quote_value (lit "Removed job with key") k])
  end.

Definition cmd_cleanup (ts : list CleanupTaskName) (keep : list str) (w : World) : Ran :=
  let requested := if is_empty ts then all_cleanup_tasks else ts in
  match cleanup (λ _ w, w) fails (cleanup_task_from_name <$> requested) keep 0 w with
  | (w, Ok _) => printed w (JsonCleanupTasks requested) (Lines [lit "Cleanup complete"])
  | (w, Err _) => failed w "failed to cleanup"
  end.

Definition cmd_force_unlock (ws : list str) (w : World) : Ran :=
  match fails 0 with
  | Some _ => failed w "failed to force unlock workers"
  | None => printed (on_db (force_unlock_workers ws) w) (JsonUnlockedWorkers ws)
              (Lines [lit "Unlocked " ++ dec (Z.of_nat (length ws)) ++ lit " worker id(s)"])
  end.

Definition cmd_sweep (a : SweepArgs) (w : World) : Ran :=
  match fails 0 with
  | Some _ => failed w "failed to sweep stale workers"
  | None =>
      let o := Recovery.mkSweepOptions (Recovery.seconds <$> sw_sweep_threshold a)
                 (Recovery.seconds <$> sw_recovery_delay a) (sw_dry_run a) in
      let '(d, r) := Recovery.sweep_stale_workers (exp_secs L) acquired None Recovery.default_config o now clock (tables w) in
      printed (mkWorld d (cache w)) (JsonSweep r) (Lines [sweep_message (sw_dry_run a) r])
  end.

Definition cmd_stats (w : World) : Ran :=
  match fails 0 with
  | Some _ => failed w "failed to get stats"
  | None =>
      let s := get_stats now (tables w) in
      printed w (JsonStats s)
        (Lines [cells (lit <$> ["total"; "ready"; "scheduled"; "locked"; "failed"]%string);
                cells (dec <$> [AdminApi.total s; AdminApi.ready s; AdminApi.scheduled s; AdminApi.locked s; AdminApi.failed s])])
  end.

Definition cmd_queues (w : World) : Ran :=
  match fails 0 with
  | Some _ => failed w "failed to list queues"
  | None => let qs := list_queues (text_order L) now (tables w) in
            printed w (JsonQueues qs) (Lines (print_queues_table qs))
  end.

Definition cmd_workers (w : World) : Ran :=
  match fails 0 with
  | Some _ => failed w "failed to list workers"
  | None => let ws := list_locked_workers (text_order L) (tables w) in
            printed w (JsonWorkers ws) (Lines (print_workers_table ws))
  end.

(** The admin command serves until the process ends; the requests are those
    of the server. *)
Definition cmd_admin (a : AdminArgs) (w : World) : Ran :=
  match build_admin_auth secret a with
  | Err e => (w, Err e)
  | Ok auth => (w, let? c := admin_config secret schema a in Ok (Serving (print_admin_startup a auth) c))
  end.

(** commands/mod.rs; the tables are those of a migrated schema. *)
Definition run_command (c : Command) (w : World) : Ran :=
  match c with
  | CmdAdd a => cmd_add a w
  | CmdList a => cmd_list a w
  | CmdShow i => cmd_show i w
  | CmdComplete ids => cmd_complete ids w
  | CmdFail ids reason => cmd_fail ids reason w
  | CmdReschedule a => cmd_reschedule a w
  | CmdRemove k => cmd_remove k w
  | CmdCleanup ts keep => cmd_cleanup ts keep w
  | CmdForceUnlock ws => cmd_force_unlock ws w
  | CmdMigrate =>
      match fails 0 with
      | Some _ => failed w "failed to run migrations"
      | None => printed w JsonMigrated (Lines [lit "Migrations complete"])
      end
  | CmdStats => cmd_stats w
  | CmdQueues => cmd_queues w
  | CmdWorkers => cmd_workers w
  | CmdSweep a => cmd_sweep a w
  | CmdAdmin a => cmd_admin a w
  end.
End commands.

(** ** Commands and requests *)

(** What a client of the server may call. *)
Inductive Call :=
| CallAdd (r : AddJobRequest)
| CallAction (r : JobActionRequest)
| CallRemove (k : str)
| CallMaintenance (r : MaintenanceRequest).

Section calls.
Context (L : CliLibrary) (fails : nat → option SqlError) (now clock : Z) (trace : option Value) (acquired : bool).
Context (json : bool) (schema secret : str).

Definition perform (state : AppState) (c : Call) (w : World) : World :=
  match c with
  | CallAdd r => (add_job_handler fails now clock trace state r w).1
  | CallAction r => (job_action L fails now clock state r w).1
  | CallRemove k => (remove_job_by_key fails now state k w).1
  | CallMaintenance r => (maintenance L fails now clock acquired state r w).1
  end.

Definition mode_request (m : JobKeyMode) : JobKeyModeRequest :=
  match m with
  | Replace => ReplaceRequest
  | PreserveRunAt => PreserveRunAtRequest
  | UnsafeDedupe => UnsafeDedupeRequest
  end.

Definition action_call (a : JobAction) (ids : list Z) (reason : option str) (t p at_ m : option Z) : option Call :=
  if is_empty ids then None else Some (CallAction (mkAction a ids reason t p at_ m)).

Definition maintenance_call (r : MaintenanceRequest) : option Call := Some (CallMaintenance r).

(** The call of the server a command corresponds to.  There is none for a
    command that only reads, and none where the server asks for more: a key
    that is not blank, a reason that is not blank; it keeps no task
    identifiers when it collects them. *)
Definition call_of (c : Command) : option Call :=
  match c with
  | CmdAdd a =>
      match read_payload L a with
      | Err _ => None
      | Ok payload =>
          if negb (bool_decide (arg_job_key_mode a = None)) && is_empty (default [] (Text.trim <$> arg_key a)) then None
          else Some (CallAdd (mkAddJob (arg_identifier a) payload (arg_queue a) (arg_run_at a) (arg_max_attempts a)
                 (arg_key a) (mode_request <$> arg_job_key_mode a) (arg_priority a) (Some (arg_flags a))))
      end
  | CmdComplete ids => action_call Complete ids None None None None None
  | CmdFail ids reason => if is_empty (Text.trim reason) then None
                          else action_call Fail ids (Some reason) None None None None
  | CmdReschedule a =>
      action_call (if re_now a then RunNow else AdminApi.Reschedule) (re_ids a) None
        (if re_now a then None else re_run_at a) (re_priority a) (re_attempts a) (re_max_attempts a)
  | CmdRemove k => if is_empty (Text.trim k) then None else Some (CallRemove k)
  | CmdCleanup ts [] => maintenance_call (mkMaintenance Cleanup ts [] false None None)
  | CmdForceUnlock ws => if is_empty ws then None
                         else maintenance_call (mkMaintenance ForceUnlock [] ws false None None)
  | CmdMigrate => maintenance_call (mkMaintenance Migrate [] [] false None None)
  | CmdSweep a => maintenance_call (mkMaintenance SweepStaleWorkers [] [] (sw_dry_run a)
                                      (sw_sweep_threshold a) (sw_recovery_delay a))
  | _ => None
  end.

Lemma mode_request_from m : job_key_mode_from_request (mode_request m) = m.
Proof. by destruct m. Qed.

Lemma add_spec_request a v : add_spec a =
  add_job_spec (mkAddJob (arg_identifier a) v (arg_queue a) (arg_run_at a) (arg_max_attempts a)
    (arg_key a) (mode_request <$> arg_job_key_mode a) (arg_priority a) (Some (arg_flags a))).
Proof.
  unfold add_spec, add_job_spec. cbn. f_equal; [|by destruct (arg_flags a)].
  destruct (arg_job_key_mode a) as [m|]; cbn; [by rewrite mode_request_from|done].
Qed.

(** The command line and the server are the same client: a command leaves
    the tables exactly as the corresponding call of a server without hooks
    that is not read-only, whatever statement fails. *)
Theorem command_matches_call (state : AppState) c call w :
  c_read_only state = false → c_hooks state = None → c_recovery_hook state = None →
  c_use_local_time state = false →
  call_of c = Some call →
  (run_command L fails now clock trace acquired json schema secret c w).1 = perform state call w.
Proof.
  intros Hr Hh Hrh Hl. unfold call_of, action_call, maintenance_call.
  destruct c as [a|a|i|ids|ids reason|a|k|ts keep|ws| | | | |a|a]; try done; cbn [run_command].
  - unfold cmd_add. destruct (read_payload L a) as [v|]; [|done].
    destruct (negb _ && _) eqn:Ev; [done|]. intros [= <-]. cbn [perform]. unfold add_job_handler, ensure_write_allowed.
    rewrite Hr. set (r := mkAddJob _ _ _ _ _ _ _ _ _).
    assert (validate_add_job_request r = Ok ()) as ->.
    { subst r. unfold validate_add_job_request. cbn [add_job_key_mode add_key].
      destruct (arg_job_key_mode a); [|done]. cbn in Ev |- *. by rewrite Ev. }
    destruct (fails 0); [done|]. rewrite Hh, Hl, (add_spec_request a v). fold r. cbn [add_identifier add_payload r].
    destruct (add_raw_job _ _ _ _ _ _ _ _ _) as [[d [j|]]|]; done.
  - unfold cmd_complete, perform, job_action, ensure_write_allowed. destruct (is_empty ids) eqn:Ee; [done|].
    intros [= <-]. cbn. rewrite Hr, Ee. unfold complete_action. by destruct (fails 0).
  - destruct (is_empty (Text.trim reason)) eqn:Et; [done|]. destruct (is_empty ids) eqn:Ee; [done|].
    intros [= <-]. unfold cmd_fail, perform, job_action, ensure_write_allowed. cbn. rewrite Hr, Ee.
    unfold fail_action, fail_reason. cbn. rewrite Et. by destruct (fails 0).
  - destruct (is_empty (re_ids a)) eqn:Ee; [done|]. intros [= <-].
    unfold cmd_reschedule, perform, job_action, ensure_write_allowed. cbn. rewrite Hr, Ee.
    destruct (re_now a); cbn; unfold reschedule_handler, reschedule_action; cbn.
    + destruct (fails 0); [done|]. by destruct (reschedule_jobs _ _ _ _).
    + destruct (re_run_at a), (re_priority a), (re_attempts a), (re_max_attempts a); try done;
        destruct (fails 0); try done; by destruct (reschedule_jobs _ _ _ _).
  - destruct (is_empty (Text.trim k)) eqn:Et; [done|]. intros [= <-].
    unfold cmd_remove, perform, remove_job_by_key, ensure_write_allowed. rewrite Hr, Et. by destruct (fails 0).
  - destruct keep; [|done]. intros [= <-]. unfold cmd_cleanup, perform, maintenance, ensure_write_allowed. rewrite Hr. cbn [m_action m_cleanup_tasks].
    by destruct (cleanup _ _ _ _ _ _) as [w1 [|]].
  - destruct (is_empty ws) eqn:Ee; [done|]. intros [= <-].
    unfold cmd_force_unlock, perform, maintenance, ensure_write_allowed. rewrite Hr. cbn [m_action m_worker_ids].
    rewrite Ee. by destruct (fails 0).
  - intros [= <-]. unfold perform, maintenance, ensure_write_allowed. rewrite Hr. by destruct (fails 0).
  - intros [= <-]. unfold cmd_sweep, perform, maintenance, ensure_write_allowed. rewrite Hr, Hrh. cbn [m_action].
    destruct (fails 0); [done|]. cbn [m_dry_run m_sweep_threshold_secs m_recovery_delay_secs].
    by destruct (Recovery.sweep_stale_workers _ _ _ _ _ _ _ _).
Qed.

(** Reading commands change nothing. *)
Lemma reading_commands c w :
  match c with CmdList _ | CmdShow _ | CmdStats | CmdQueues | CmdWorkers | CmdAdmin _ => True | _ => False end →
  (run_command L fails now clock trace acquired json schema secret c w).1 = w.
Proof.
  destruct c; try done; intros _; cbn [run_command]; unfold cmd_list, cmd_show, cmd_stats, cmd_queues, cmd_workers,
    cmd_admin, printed, Cli.failed; repeat case_match; done.
Qed.
End calls.

(** ** Durations *)

(** A unit in any case is a word. *)
Definition words : list str := second_units ++ minute_units ++ hour_units.

Lemma words_lower u : u ∈ words → u ≠ [] ∧ Forall (λ c, is_ascii_lowercase c = true) u.
Proof.
  assert (Forall (λ u, u ≠ [] ∧ Forall (λ c, is_ascii_lowercase c = true) u) words) as Hall.
  { apply (bool_decide_unpack _). vm_compute. exact I. }
  rewrite Forall_forall in Hall. apply Hall.
Qed.

Lemma letter_solid c : is_ascii_lowercase (if is_ascii_uppercase c then c + 32 else c) = true →
  is_whitespace c = false ∧ is_ascii_digit c = false.
Proof.
  unfold is_ascii_lowercase, is_ascii_uppercase, is_whitespace, is_ascii_digit.
  split; repeat case_bool_decide; try done; lia.
Qed.

Lemma word_letters u : to_ascii_lowercase u ∈ words →
  u ≠ [] ∧ Forall (λ c, is_whitespace c = false ∧ is_ascii_digit c = false) u.
Proof.
  intros [Hn Hl]%words_lower. split; [by intros ->|]. unfold to_ascii_lowercase in Hl.
  rewrite Forall_fmap in Hl. eapply Forall_impl; [exact Hl|]. intros c. apply letter_solid.
Qed.

Lemma parse_digits_Forall max n s r : Text.parse_digits max n s = Ok r → Forall (λ c, is_ascii_digit c = true) s.
Proof.
  revert n. induction s as [|c s IH]; intros n; cbn; [constructor|]. destruct (is_ascii_digit c) eqn:Hc; cbn; [|done].
  case_match; [done|]. intros Hs. constructor; [done|by eapply IH].
Qed.

Lemma digit_facts c : is_ascii_digit c = true → is_whitespace c = false ∧ c ≠ 43 ∧ c ≠ 45.
Proof. unfold is_ascii_digit, is_whitespace. repeat case_bool_decide; try done; lia. Qed.

(** A number followed by something else is no number. *)
Lemma parse_u64_suffix c s d r : is_ascii_digit c = true → is_ascii_digit d = false → d ∈ s →
  Text.parse_u64 (c :: s) = Ok r → False.
Proof.
  intros Hc Hd Hin. destruct (digit_facts c Hc) as (_ & H1 & H2). unfold Text.parse_u64, Text.parse_uint.
  assert (Text.parse_digits U64_MAX 0 (c :: s) = Ok r → False) as H.
  { intros Hp%parse_digits_Forall. rewrite Forall_forall in Hp. specialize (Hp d ltac:(set_solver)). congruence. }
  repeat case_match; try done; simplify_eq; done.
Qed.

Lemma dec_digits n : 0 ≤ n ≤ U64_MAX →
  Forall (λ c, is_ascii_digit c = true) (dec n) ∧ Text.digits_value (dec n) = n ∧ dec n ≠ [].
Proof.
  unfold U64_MAX. intros Hn. destruct (Text.dec_fuel_spec 20 n) as (H1 & H2 & H3); [cbn; lia|]. auto.
Qed.

Lemma digits_ends ds : Forall (λ c, is_ascii_digit c = true) ds →
  (∀ c r, ds = c :: r → is_whitespace c = false) ∧ (∀ r d, ds = r ++ [d] → is_whitespace d = false).
Proof.
  rewrite Forall_forall. intros H. split; intros; subst; apply digit_facts, H; set_solver.
Qed.

Lemma word_ends u : Forall (λ c, is_whitespace c = false ∧ is_ascii_digit c = false) u →
  (∀ c r, u = c :: r → is_whitespace c = false) ∧ (∀ r d, u = r ++ [d] → is_whitespace d = false).
Proof. rewrite Forall_forall. intros H. split; intros; subst; apply H; set_solver. Qed.

Lemma tail_no_digit between u : Forall (λ c, is_whitespace c = true) between →
  Forall (λ c, is_whitespace c = false ∧ is_ascii_digit c = false) u →
  ∀ c r, between ++ u = c :: r → is_ascii_digit c = false.
Proof.
  intros [|x b Hx _] Hu c r E; cbn in E; [by subst u; apply Forall_cons in Hu as [[]]|].
  injection E as -> _. destruct (is_ascii_digit c) eqn:Hc; [|done]. apply digit_facts in Hc. naive_solver congruence.
Qed.

(** The factor of a unit. *)
Definition factor (u : str) : option Z :=
  if bool_decide (u ∈ second_units) then Some 1 else if bool_decide (u ∈ minute_units) then Some 60
  else if bool_decide (u ∈ hour_units) then Some 3600 else None.

Lemma unit_seconds_exact u n f : factor u = Some f → 0 ≤ n → n * f ≤ U64_MAX → unit_seconds u n = Some (n * f).
Proof.
  unfold factor, unit_seconds, wrap_u64, U64_MAX. intros Hf Hn Hle.
  repeat case_bool_decide; simplify_eq; rewrite ?Z.mod_small by (rewrite ?Z.mod_small by lia; lia); f_equal; lia.
Qed.

(** A duration written as a number and a unit, in any of its spellings and
    cases and with white space before and between them, is read back exactly
    when it fits in 64 bits, and so is a bare number of seconds. *)
Theorem duration_roundtrip n f before between u :
  0 ≤ n ≤ U64_MAX → Forall (λ c, is_whitespace c = true) (before ++ between) →
  factor (to_ascii_lowercase u) = Some f → n * f ≤ U64_MAX →
  parse_duration (before ++ dec n) = Ok n ∧
  parse_duration (before ++ dec n ++ between ++ u) = Ok (n * f).
Proof.
  intros Hn Hw Hf Hle. destruct (dec_digits n Hn) as (Hd & Hv & Hne).
  apply Forall_app in Hw as [Hb Hm].
  assert (to_ascii_lowercase u ∈ words) as Hu.
  { unfold words. rewrite !elem_of_app. unfold factor in Hf. repeat case_bool_decide; auto || done. }
  assert (Text.parse_u64 (dec n) = Ok n) as Hp.
  { unfold Text.parse_u64. rewrite Text.parse_uint_digits; [by rewrite Hv|done|done|lia]. }
  destruct (word_letters u Hu) as [Hun Hul]. unfold parse_duration. rewrite !Text.trim_pad by done. split.
  - rewrite Text.trim_solid by (by eapply digits_ends). rewrite Hp. by destruct (dec n).
  - assert (Text.trim (dec n ++ between ++ u) = dec n ++ between ++ u) as ->.
    { apply Text.trim_solid.
      - intros c r E. destruct (dec n) as [|c' ds] eqn:En; [done|]. injection E as -> _.
        apply Forall_cons in Hd as [Hc _]. by apply digit_facts.
      - intros r d E. destruct u as [|d' u _] using rev_ind; [done|]. rewrite !app_assoc in E.
        apply app_inj_tail in E as [_ ->]. apply Forall_app in Hul as [_ Hul]. by apply Forall_cons in Hul as [[]]. }
    assert (is_empty (dec n ++ between ++ u) = false) as -> by (by destruct (dec n)).
    destruct (Text.parse_u64 (dec n ++ between ++ u)) as [r|] eqn:Ep.
    { exfalso. destruct (dec n) as [|c ds] eqn:En; [done|]. destruct u as [|d u]; [done|].
      apply Forall_cons in Hd as [Hc _]. apply Forall_cons in Hul as [[_ Hdig] _].
      eapply (parse_u64_suffix c _ d); [done|done| |exact Ep]. set_solver. }
    rewrite (span_prefix is_ascii_digit (dec n) (between ++ u)); [|done|by eapply tail_no_digit].
    assert (is_empty (between ++ u) = false) as -> by (by destruct between, u).
    rewrite Hp, Text.trim_pad, Text.trim_solid by (done || by eapply word_ends). by rewrite (unit_seconds_exact _ _ f) by (done || lia).
Qed.

(** A longer duration silently becomes a short one: the product wraps. *)
Theorem long_duration_wraps :
  parse_duration (lit "307445734561825861m") = Ok 44 ∧ parse_duration (lit "5124095576030432h") = Ok 3584.
Proof. vm_compute. split; reflexivity. Qed.

(** ** States and credentials *)

Definition state_text (s : JobState) : option str :=
  match s with
  | All => None
  | Ready => Some (lit "ready")
  | Scheduled => Some (lit "scheduled")
  | Locked => Some (lit "locked")
  | AdminApi.Failed => Some (lit "failed")
  end.

(** The state a listing prints is the state whose filter admits the job. *)
Theorem printed_state_is_filter clock (j : ListedJob) s :
  s ≠ All → state_text s = Some (state_for clock j) ↔ in_state clock s j = true.
Proof.
  intros Hs. unfold state_for, in_state.
  destruct (locked_at j) as [t|].
  - rewrite bool_decide_eq_true_2 by eauto. by destruct s.
  - rewrite bool_decide_eq_false_2 by (intros []; done). rewrite (bool_decide_eq_true_2 (None = None)) by done.
    destruct (Z.leb_spec (max_attempts j) (attempts j)), (Z.ltb_spec (attempts j) (max_attempts j)); try lia;
      destruct (Z.ltb_spec clock (run_at j)), (Z.leb_spec (run_at j) clock); try lia; by destruct s.
Qed.

(** The credentials the command line builds pass the check of the server: no
    credentials are asked for only on a loopback address, and a secret is
    printed exactly when it was generated. *)
Theorem admin_command_is_safe L secret schema a auth :
  build_admin_auth L secret a = Ok auth →
  (∃ c, admin_config L secret schema a = Ok c ∧ c_auth c = auth ∧ validate c = Ok () ∧
        c_read_only c = arg_read_only a) ∧
  (auth = NoAuth → listen_loopback a = true) ∧
  (secret_for_display auth ≠ None →
   generated_secret (summary auth) = true → secret_for_display auth = Some secret).
Proof.
  intros H. assert (auth = NoAuth → listen_loopback a = true) as Hl.
  { intros ->. unfold build_admin_auth, given, auth_header in H. destruct (arg_auth a).
    - by destruct (password a).
    - by destruct (bearer_token a).
    - destruct (header_token a), (header_name_from_bytes _ _); done.
    - by destruct (listen_loopback a). }
  split_and!; [|done|].
  - unfold admin_config. rewrite H. unfold build, validate. cbn.
    destruct auth; try (eexists; split_and!; done). rewrite Hl by done. by eexists.
  - unfold build_admin_auth, given, auth_header in H. intros _. destruct (arg_auth a).
    + destruct (password a); simplify_eq; done.
    + destruct (bearer_token a); simplify_eq; done.
    + destruct (header_token a), (header_name_from_bytes _ _); cbn in H; simplify_eq; done.
    + destruct (listen_loopback a); simplify_eq; done.
Qed.

(** ** Witnesses *)

Lemma duration_roundtrip_witness :
  parse_duration (lit " 90 Mins") = Ok 5400.
Proof.
  apply (duration_roundtrip 90 60 [32] [32] (lit "Mins")).
  - unfold U64_MAX. lia.
  - repeat constructor.
  - vm_compute. reflexivity.
  - unfold U64_MAX. lia.
Defined.

Definition demo_cli_library : CliLibrary :=
  mkCliLibrary demo_library (λ _, None) (λ _, Some (Object [])) (λ _, []) (λ _, []).
Definition demo_args : AddArgs :=
  mkAddArgs (lit "task") None None (Some (lit "q")) None None (Some (lit "k")) (Some PreserveRunAt) None [lit "f"].

Lemma command_matches_call_witness :
  ∃ call, call_of demo_cli_library (CmdAdd demo_args) = Some call ∧
    (run_command demo_cli_library (λ _, None) 10 10 None true false [] [] (CmdAdd demo_args) demo_empty).1
    = perform demo_cli_library (λ _, None) 10 10 None true demo_app call demo_empty ∧
    jobs_seq (tables (perform demo_cli_library (λ _, None) 10 10 None true demo_app call demo_empty)) = 2.
Proof.
  eexists. split_and!; [reflexivity| |vm_compute; reflexivity].
  apply (command_matches_call demo_cli_library (λ _, None) 10 10 None true false [] [] demo_app (CmdAdd demo_args));
    reflexivity.
Defined.
End Cli.
