(* ===== verification/CrontabRunner.v ===== *)
(** * Cron runner (crates/graphile-worker-crontab-runner)

    Registration and backfill of crontabs, the minute ticks and the statement
    that schedules the jobs of a tick.  A [DateTime] is its microseconds since
    the epoch; UTC offsets are whole minutes, so rounding to the minute is the
    same in every time zone, but chrono rounds through local time, which is
    [ambiguous] for some instants; [calendar] is chrono's conversion of an
    instant to calendar time ([naive_utc] or [naive_local]), [ts_text] its debug
    format. *)

From S2P Require Import Prelude CrontabTypes Job Database FlagFilter JobStore JobRelease AddJob.
Open Scope Z_scope.

Module CrontabRunner.
Import FlagFilter JobStore CrontabTypes.

Abbreviation Crontab := (CrontabTypes.Crontab Job.Value).

(** ** utils.rs *)

Definition SECOND_US : Z := 10 ^ 6.
Definition ONE_MINUTE : Z := 60 * SECOND_US.

(** [with_second] and [with_nanosecond] go through the local time and give
    [None] where it is ambiguous, as in the hour repeated at the end of daylight
    saving time. *)
Definition with_second_zero (ambiguous : Z → bool) (t : Z) : option Z :=
  let t := t / ONE_MINUTE * ONE_MINUTE + t `mod` SECOND_US in if ambiguous t then None else Some t.
Definition with_nanosecond_zero (ambiguous : Z → bool) (t : Z) : option Z :=
  let t := t / SECOND_US * SECOND_US in if ambiguous t then None else Some t.

(** [None] is the panic of the two [unwrap]s. *)
Definition round_date_minute (ambiguous : Z → bool) (t : Z) (round_up : bool) : option Z :=
  t ← with_second_zero ambiguous t;
  t ← with_nanosecond_zero ambiguous t;
  Some (t + (if round_up then ONE_MINUTE else 0)).

(** ** sql/known.rs *)

Record KnownCrontab := mkKnown { known_since : Z; last_execution : option Z }.

(** The table, the job tables, and which jobs were added for which tick. *)
Record CronState := mkCron {
  known : gmap str KnownCrontab;
  tables : Db;
  fired : list (str * Z)
}.

(** [insert ... select ... on conflict do nothing]. *)
Definition insert_unknown_crontabs (ids : list str) (start_time : Z) (s : CronState) : CronState :=
  mkCron
    (foldl (λ k i, match k !! i with
                   | Some _ => k
                   | None => <[i := mkKnown start_time None]> k
                   end) (known s) ids)
    (tables s) (fired s).

(** ** sql/job.rs *)

Section cron.
Context (calendar : Z → NaiveDateTime) (ts_text : Z → str) (ambiguous : Z → bool).

Record CrontabJob := mkCrontabJob { cj_identifier : str; cj_spec : AddJob.SqlSpec; cj_mode : option str }.

Definition mode_text (m : JobKeyMode) : str :=
  match m with Replace => lit "replace" | PreserveRunAt => lit "preserve_run_at" end.

(** The payload with its [_cron] entry, when it is an object. *)
Definition cron_payload (p : option Job.Value) (ts : Z) (backfilled : bool) : option Job.Value :=
  match p with
  | Some (Job.Object fs) =>
      Some (Job.Object (AddJob.fields_insert (lit "_cron")
        (Job.Object [(lit "backfilled", Job.VBool backfilled); (lit "ts", Job.VString (ts_text ts))]) fs))
  | _ => p
  end.

(** An absent payload is serialized as a JSON [null]. *)
Definition for_cron (c : Crontab) (ts : Z) (backfilled : bool) : CrontabJob :=
  let o := options c in
  mkCrontabJob (identifier c)
    (AddJob.mkSqlSpec (task_identifier c)
       (Some (default Job.Null (cron_payload (payload c) ts backfilled)))
       (opt_queue o) (Some ts) (opt_max o) (opt_job_key o) (opt_priority o) None)
    (mode_text <$> opt_job_key_mode o).

(** ** sql/schedule.rs *)

Inductive ScheduleCronJobError := QueryError (e : SqlError) | SmallintOutOfRange.

(** The [locks] part, row by row: the identifiers locked so far come with
    the table. *)
Definition lock_one (ts : Z) (acc : result (gmap str KnownCrontab * list str) ScheduleCronJobError)
    (i : str) : result (gmap str KnownCrontab * list str) ScheduleCronJobError :=
  let? (k, locked) := acc in
  if bool_decide (i ∈ locked) then Err (QueryError AffectsRowTwice)
  else
    match k !! i with
    | None => Ok (<[i := mkKnown ts (Some ts)]> k, locked ++ [i])
    | Some r =>
        if match last_execution r with None => true | Some l => l <? ts end
        then Ok (<[i := mkKnown (known_since r) (Some ts)]> k, locked ++ [i])
        else Ok (k, locked)
    end.

(** The [add_job] calls of the locked specs, in order. *)
Fixpoint add_cron_jobs (js : list CrontabJob) (now : Z) (db : Db) : result Db ScheduleCronJobError :=
  match js with
  | [] => Ok db
  | j :: js =>
      let? (db, _) := map_err QueryError (AddJob.sql_add_job (cj_spec j) (cj_mode j) now db) in
      add_cron_jobs js now db
  end.

(** [maxAttempts] is a [u16] cast to [smallint]. *)
Definition max_fits (j : CrontabJob) : bool :=
  match AddJob.s_max_attempts (cj_spec j) with Some m => m <=? I16_MAX | None => true end.

Definition schedule_cron_jobs (js : list CrontabJob) (ts now : Z) (s : CronState) :
    result CronState ScheduleCronJobError :=
  if negb (forallb max_fits js) then Err SmallintOutOfRange
  else
    let? (k, locked) := foldl (lock_one ts) (Ok (known s, [])) (cj_identifier <$> js) in
    let due := filter (λ j, cj_identifier j ∈ locked) js in
    let? db := add_cron_jobs due now (tables s) in
    Ok (mkCron k db (fired s ++ ((λ j, (cj_identifier j, ts)) <$> due))).

(** ** backfill.rs *)

Record BackfillItemAndDate := mkBackfill { item : Crontab; not_before : Z }.

Definition get_backfill_and_unknown_items (crontabs : list Crontab) (k : gmap str KnownCrontab) :
    list BackfillItemAndDate * list str :=
  foldl (λ acc c,
    match k !! identifier c with
    | Some r => (acc.1 ++ [mkBackfill c (default (known_since r) (last_execution r))], acc.2)
    | None => (acc.1, acc.2 ++ [identifier c])
    end) ([], []) crontabs.

Definition largest_backfill (items : list BackfillItemAndDate) : option Z :=
  match filter_map (λ b, to_secs <$> opt_fill (options (item b))) items with
  | [] => None
  | f :: fs => Some (foldl Z.max f fs)
  end.

(** The closure of the [filter_map]. *)
Definition backfill_due (start_time ts : Z) (b : BackfillItemAndDate) : bool :=
  match opt_fill (options (item b)) with
  | None => false
  | Some fill =>
      ((start_time - ts) / SECOND_US <=? to_secs fill) && (not_before b <=? ts)
      && crontab_should_run_at (item b) (calendar ts)
  end.

Definition to_backfill (items : list BackfillItemAndDate) (start_time ts : Z) : list CrontabJob :=
  filter_map (λ b, if backfill_due start_time ts b then Some (for_cron (item b) ts true) else None) items.

(** The [while ts < start_time] loop; [None] when the fuel does not last. *)
Fixpoint backfill_loop (fuel : nat) (items : list BackfillItemAndDate) (start_time ts now : Z)
    (s : CronState) : option (result CronState ScheduleCronJobError) :=
  if ts <? start_time then
    match fuel with
    | O => None
    | S fuel =>
        let js := to_backfill items start_time ts in
        match (if is_empty js then Ok s else schedule_cron_jobs js ts now s) with
        | Ok s => backfill_loop fuel items start_time (ts + ONE_MINUTE) now s
        | Err e => Some (Err e)
        end
    end
  else Some (Ok s).

(** One iteration per minute from the first one. *)
Definition backfill_fuel (start_time ts : Z) : nat := Z.to_nat ((start_time - ts) / ONE_MINUTE + 1).

(** Why the runner stops: the error of a statement, or a panic. *)
Inductive CronStop := Failed (e : ScheduleCronJobError) | Panicked.

Definition register_and_backfill_items (crontabs : list Crontab) (start_time now : Z) (s : CronState) :
    option (result CronState CronStop) :=
  let '(items, unknown) := get_backfill_and_unknown_items crontabs (known s) in
  let s := if is_empty unknown then s else insert_unknown_crontabs unknown start_time s in
  match largest_backfill items with
  | None => Some (Ok s)
  | Some largest =>
      match round_date_minute ambiguous (start_time - largest * SECOND_US) true with
      | None => Some (Err Panicked)
      | Some ts => map_err Failed <$> backfill_loop (backfill_fuel start_time ts) items start_time ts now s
      end
  end.

(** ** runner/mod.rs and runner/schedule.rs *)

Definition collect_jobs_to_schedule (crontabs : list Crontab) (ts : Z) : list CrontabJob :=
  filter_map (λ c, if crontab_should_run_at c (calendar ts) then Some (for_cron c ts false) else None)
    crontabs.

Definition emit_tick_and_schedule_jobs (crontabs : list Crontab) (ts now : Z) (s : CronState) :
    result CronState ScheduleCronJobError :=
  let js := collect_jobs_to_schedule crontabs ts in
  if is_empty js then Ok s else schedule_cron_jobs js ts now s.

(** The tick loop of [run_until_error] over the clock readings made after each
    sleep: the state when they run out or the first error or panic, and the
    ticks. *)
Fixpoint tick_loop (readings : list Z) (crontabs : list Crontab) (ts : Z) (s : CronState) :
    result CronState CronStop * list Z :=
  match readings with
  | [] => (Ok s, [])
  | now :: readings =>
      match round_date_minute ambiguous now false with
      | None => (Err Panicked, [])
      | Some current_ts =>
          if Z.quot (current_ts - ts) ONE_MINUTE <? 0 then tick_loop readings crontabs ts s
          else
            match emit_tick_and_schedule_jobs crontabs ts now s with
            | Err e => (Err (Failed e), [ts])
            | Ok s => let '(r, ticks) := tick_loop readings crontabs (ts + ONE_MINUTE) s in (r, ts :: ticks)
            end
      end
  end.

Definition MIN_RETRY_DELAY : Z := 200 * 1000.
Definition MAX_RETRY_DELAY : Z := 60 * SECOND_US.

Definition next_retry_delay (d : Z) : Z := Z.min (d + Z.quot d 2) MAX_RETRY_DELAY.
End cron.

(** ** The lock on a tick *)

Definition last_of (k : gmap str KnownCrontab) (i : str) : option Z := k !! i ≫= last_execution.

(** The identifier has not been executed at or after the tick. *)
Definition allowed (k : gmap str KnownCrontab) (ts : Z) (i : str) : bool :=
  match last_of k i with None => true | Some l => l <? ts end.

Lemma lock_one_cases ts k locked i :
  i ∉ locked →
  ∃ r, lock_one ts (Ok (k, locked)) i
       = (if allowed k ts i then Ok (<[i := mkKnown r (Some ts)]> k, locked ++ [i]) else Ok (k, locked)).
Proof.
  intros Hi. unfold lock_one, allowed, last_of. rewrite bool_decide_eq_false_2 by done.
  destruct (k !! i) as [r|]; cbn; [|by exists ts].
  exists (known_since r). by destruct (last_execution r) as [l|]; [destruct (l <? ts)|].
Qed.

Lemma lock_err ts e ids : foldl (lock_one ts) (Err e) ids = Err e.
Proof. induction ids; done. Qed.

Lemma lock_fold ts ids k0 l0 k' locked :
  foldl (lock_one ts) (Ok (k0, l0)) ids = Ok (k', locked) →
  (∀ i, i ∈ l0 → allowed k0 ts i = false) →
  ∃ new, locked = l0 ++ new ∧ NoDup new ∧ (∀ i, i ∈ l0 → i ∉ ids) ∧
    (∀ i, i ∈ new ↔ i ∈ ids ∧ allowed k0 ts i = true) ∧
    filter (λ i, i ∈ new) ids = new ∧
    (∀ i, i ∈ new → last_of k' i = Some ts) ∧ (∀ i, i ∉ new → k' !! i = k0 !! i).
Proof.
  revert k0 l0. induction ids as [|i ids IH]; intros k0 l0 E Hl0; cbn [foldl] in E.
  { injection E as <- <-. exists []. rewrite app_nil_r. split_and!; try done; [apply NoDup_nil_2|set_solver..]. }
  destruct (decide (i ∈ l0)) as [Hin|Hin].
  { cbn [lock_one] in E. rewrite bool_decide_eq_true_2 in E by done. by rewrite lock_err in E. }
  destruct (lock_one_cases ts k0 l0 i Hin) as (r & Hone). rewrite Hone in E.
  destruct (allowed k0 ts i) eqn:Ha.
  - apply IH in E as (new & -> & Hn & Hno & Hnew & Hf & Hlast & Hsame).
    + assert (i ∉ ids) as Hii by (apply Hno; set_solver).
      assert (∀ j, j ≠ i → allowed (<[i := mkKnown r (Some ts)]> k0) ts j = allowed k0 ts j) as Hother
        by (intros j Hj; unfold allowed, last_of; by rewrite lookup_insert_ne).
      exists (i :: new). split_and!.
      * by rewrite <- app_assoc.
      * apply NoDup_cons. split; [rewrite Hnew; tauto|done].
      * intros j Hj. assert (j ∉ ids) by (apply Hno; set_solver). set_solver.
      * intros j. rewrite !elem_of_cons, Hnew. destruct (decide (j = i)) as [-> |Hj].
        -- split; [|by left]. intros _. split; [by left|done].
        -- rewrite Hother by done. tauto.
      * rewrite filter_cons_True by set_solver. f_equal. etrans; [|exact Hf]. apply filter_ext_elem.
        intros j Hj. rewrite elem_of_cons. split; [|by right]. intros [-> |]; [|done]. done.
      * intros j [-> |Hj]%elem_of_cons; [|auto]. unfold last_of.
        rewrite Hsame by (rewrite Hnew; tauto). by rewrite lookup_insert_eq.
      * intros j Hj. rewrite Hsame by set_solver. rewrite lookup_insert_ne by set_solver. done.
    + intros j [Hj| ->%list_elem_of_singleton]%elem_of_app.
      * unfold allowed, last_of. rewrite lookup_insert_ne by set_solver. by apply Hl0.
      * unfold allowed, last_of. rewrite lookup_insert_eq. cbn. by apply Z.ltb_irrefl.
  - apply IH in E as (new & -> & Hn & Hno & Hnew & Hf & Hlast & Hsame); [|done].
    assert (i ∉ new) as Hinew by (rewrite Hnew; intros [_ ?]; congruence).
    exists new. split_and!; try done.
    + intros j Hj. specialize (Hno j Hj). set_solver.
    + intros j. rewrite Hnew, elem_of_cons. split; [tauto|]. intros [[-> |?] ?]; [congruence|tauto].
    + by rewrite filter_cons_False.
Qed.

(** What a committed schedule statement adds. *)
Lemma schedule_spec js ts now s s' :
  schedule_cron_jobs js ts now s = Ok s' →
  ∃ new, NoDup new ∧ (∀ i, i ∈ new ↔ i ∈ cj_identifier <$> js ∧ allowed (known s) ts i = true) ∧
    fired s' = fired s ++ ((λ i, (i, ts)) <$> new) ∧
    (∀ i, i ∈ new → last_of (known s') i = Some ts) ∧
    (∀ i, i ∉ new → known s' !! i = known s !! i).
Proof.
  unfold schedule_cron_jobs. destruct (forallb max_fits js); [|done]. cbn [negb].
  destruct (foldl _ _ _) as [[k locked]|] eqn:E; [|done].
  apply lock_fold in E as (new & -> & Hn & _ & Hnew & Hf & Hlast & Hsame);
    [|by intros i ?%not_elem_of_nil].
  destruct (add_cron_jobs _ _ _) as [db|]; [|done]. intros [= <-]. cbn [known fired app].
  exists new. split_and!; try done. f_equal.
  trans ((λ i, (i, ts)) <$> filter (λ i, i ∈ new) (cj_identifier <$> js)); [|by rewrite Hf].
  clear. induction js as [|j js IH]; [done|]. rewrite fmap_cons, !filter_cons.
  repeat case_decide; try done. cbn. by rewrite IH.
Qed.

(** ** At most once *)

(** What any number of runners do to the table: registering, scheduling a tick
    in a committed statement, whatever its reply, and changing jobs. *)
Inductive cron_step (s : CronState) : CronState → Prop :=
| step_register ids t : cron_step s (insert_unknown_crontabs ids t s)
| step_schedule js ts now s' : schedule_cron_jobs js ts now s = Ok s' → cron_step s s'
| step_tables db : cron_step s (mkCron (known s) db (fired s)).

Definition cron_reachable (s : CronState) : Prop :=
  ∃ k db, rtc cron_step (mkCron k db []) s.

(** Each job added is covered by the last execution of its identifier. *)
Definition cron_inv (s : CronState) : Prop :=
  NoDup (fired s) ∧ ∀ i t, (i, t) ∈ fired s → ∃ l, last_of (known s) i = Some l ∧ t ≤ l.

Lemma insert_unknown_last ids t s i : last_of (known (insert_unknown_crontabs ids t s)) i = last_of (known s) i.
Proof.
  unfold insert_unknown_crontabs. cbn [known]. generalize (known s) as k.
  induction ids as [|j ids IH]; intros k; cbn [foldl]; [done|]. rewrite IH.
  destruct (k !! j) eqn:Hj; [done|]. unfold last_of. destruct (decide (j = i)) as [-> |Hne].
  - by rewrite lookup_insert_eq, Hj.
  - by rewrite lookup_insert_ne.
Qed.

Lemma schedule_inv js ts now s s' : cron_inv s → schedule_cron_jobs js ts now s = Ok s' → cron_inv s'.
Proof.
  intros [Hn Hl] (new & Hnn & Hnew & Hf & Hlast & Hsame)%schedule_spec.
  assert (∀ i t, (i, t) ∈ fired s → i ∈ new → t < ts) as Hlt.
  { intros i t Hit [_ Ha]%Hnew. destruct (Hl i t Hit) as (l & Hli & Hle). unfold allowed in Ha.
    rewrite Hli in Ha. apply Z.ltb_lt in Ha. lia. }
  split; rewrite Hf.
  - apply NoDup_app. split_and!; [done| |].
    + intros [i t] Hit (i' & [= -> ->] & Hi)%list_elem_of_fmap. specialize (Hlt i' ts Hit Hi). lia.
    + apply NoDup_fmap_2; [|done]. by intros ?? [= ->].
  - intros i t [Hit|(i' & [= -> ->] & Hi)%list_elem_of_fmap]%elem_of_app.
    + destruct (decide (i ∈ new)) as [Hin|Hin].
      * exists ts. split; [by apply Hlast|]. specialize (Hlt i t Hit Hin). lia.
      * unfold last_of. rewrite Hsame by done. by apply Hl.
    + exists ts. split; [by apply Hlast|lia].
Qed.

Lemma cron_inv_step s s' : cron_inv s → cron_step s s' → cron_inv s'.
Proof.
  intros Hi [ids t|js ts now s2 E|db].
  - destruct Hi as [Hn Hl]. split; [done|]. intros i u Hu. rewrite insert_unknown_last. by apply Hl.
  - by eapply schedule_inv.
  - done.
Qed.

(** C6: A crontab fires at most once per tick.  Whatever number of runners
    register, tick, backfill, restart and retry in whatever order, and whether
    or not the replies to their statements arrive, no identifier ever gets two
    jobs for the same minute. *)
Theorem cron_fires_at_most_once s :
  cron_reachable s →
  NoDup (fired s) ∧ ∀ i t, (i, t) ∈ fired s → ∃ l, last_of (known s) i = Some l ∧ t ≤ l.
Proof.
  intros (k & db & Hr). assert (∀ a b, rtc cron_step a b → cron_inv a → cron_inv b) as Hind
    by (intros a b; induction 1; eauto using cron_inv_step).
  apply (Hind _ _ Hr). split; [apply NoDup_nil_2|]. by intros i t ?%not_elem_of_nil.
Qed.

(** ** Backfill *)

(** Rounded to the minute, when it does not panic. *)
Definition whole_minute (t : Z) (round_up : bool) : Z :=
  t / ONE_MINUTE * ONE_MINUTE + (if round_up then ONE_MINUTE else 0).

Lemma round_date_minute_Some ambiguous t up ts : round_date_minute ambiguous t up = Some ts → ts = whole_minute t up.
Proof.
  unfold round_date_minute, with_second_zero, with_nanosecond_zero, whole_minute. cbv zeta.
  destruct (ambiguous _); [done|]. cbn [mbind option_bind]. destruct (ambiguous _); [done|]. cbn. intros [= <-].
  unfold ONE_MINUTE, SECOND_US. f_equal. Z.to_euclidean_division_equations. lia.
Qed.

(** It panics exactly where local time is ambiguous, at the start of the minute
    or at the fraction of its first second the time has. *)
Lemma round_date_minute_None ambiguous t up :
  round_date_minute ambiguous t up = None ↔
  ambiguous (whole_minute t false + t `mod` SECOND_US) = true ∨ ambiguous (whole_minute t false) = true.
Proof.
  unfold round_date_minute, with_second_zero, with_nanosecond_zero, whole_minute. cbv zeta. rewrite Z.add_0_r.
  assert ((t / ONE_MINUTE * ONE_MINUTE + t `mod` SECOND_US) / SECOND_US * SECOND_US = t / ONE_MINUTE * ONE_MINUTE) as E.
  { unfold ONE_MINUTE, SECOND_US. Z.to_euclidean_division_equations. lia. }
  destruct (ambiguous (t / ONE_MINUTE * ONE_MINUTE + t `mod` SECOND_US)); cbn [mbind option_bind]; [by split; [left|]|].
  rewrite E. destruct (ambiguous (t / ONE_MINUTE * ONE_MINUTE)); cbn; [by split; [right|]|]. split; [done|by intros []].
Qed.

Lemma allowed_iff k ts i : allowed k ts i = true ↔ ∀ l, last_of k i = Some l → l < ts.
Proof.
  unfold allowed. destruct (last_of k i) as [l|]; [rewrite Z.ltb_lt|]; naive_solver.
Qed.

Section backfill.
Context (calendar : Z → NaiveDateTime) (ts_text : Z → str) (ambiguous : Z → bool).

Lemma ONE_MINUTE_pos : 0 < ONE_MINUTE.
Proof. reflexivity. Qed.

Lemma backfill_step_spec items start ts now s s' :
  (if is_empty (to_backfill calendar ts_text items start ts) then Ok s
   else schedule_cron_jobs (to_backfill calendar ts_text items start ts) ts now s) = Ok s' →
  (∀ i t, (i, t) ∈ fired s' ↔ (i, t) ∈ fired s ∨
     t = ts ∧ i ∈ cj_identifier <$> to_backfill calendar ts_text items start ts ∧ allowed (known s) ts i = true) ∧
  (∀ i, last_of (known s') i = last_of (known s) i ∨
     last_of (known s') i = Some ts ∧ allowed (known s) ts i = true).
Proof.
  set (js := to_backfill _ _ _ _ _). destruct js as [|j js'] eqn:Ej; cbn [is_empty].
  { intros [= <-]. split; [|by left]. intros i t. cbn. rewrite (elem_of_nil i). tauto. }
  rewrite <- Ej. intros (new & _ & Hnew & Hf & Hlast & Hsame)%schedule_spec. split.
  - intros i t. rewrite Hf, elem_of_app, list_elem_of_fmap. setoid_rewrite Hnew.
    split; (intros [?|H]; [by left|right]).
    + destruct H as (i' & [= -> ->] & ? & ?). done.
    + destruct H as (-> & ? & ?). by exists i.
  - intros i. destruct (decide (i ∈ new)) as [Hin|Hin].
    + right. split; [by apply Hlast|by apply Hnew].
    + left. unfold last_of. by rewrite Hsame.
Qed.

(** The minutes the loop visits. *)
Definition visited (ts start t : Z) : Prop := ∃ n, 0 ≤ n ∧ t = ts + n * ONE_MINUTE ∧ t < start.

Lemma visited_step ts start t :
  visited ts start t ↔ (ts < start ∧ t = ts) ∨ visited (ts + ONE_MINUTE) start t.
Proof.
  pose proof ONE_MINUTE_pos. unfold visited. split.
  - intros (n & Hn & -> & Ht). destruct (decide (n = 0)) as [-> |].
    + left. lia.
    + right. exists (n - 1). split_and!; lia.
  - intros [[? ->]|(n & Hn & -> & Ht)]; [exists 0; split_and!; lia|].
    exists (n + 1). split_and!; lia.
Qed.

Lemma backfill_loop_spec fuel items start ts now s s' :
  backfill_loop calendar ts_text fuel items start ts now s = Some (Ok s') →
  ∀ i t, (i, t) ∈ fired s' ↔ (i, t) ∈ fired s ∨
    visited ts start t ∧ i ∈ cj_identifier <$> to_backfill calendar ts_text items start t ∧
    ∀ l, last_of (known s) i = Some l → l < t.
Proof.
  revert ts s. induction fuel as [|fuel IH]; intros ts s; cbn [backfill_loop];
    (destruct (Z.ltb_spec ts start) as [Hlt|Hge]; [|intros [= <-] i t]); [done| |..].
  1,3: split; [by left|]; intros [?|((n & ? & -> & ?) & _)]; [done|]; pose proof ONE_MINUTE_pos; nia.
  destruct (if is_empty _ then _ else _) as [s1|] eqn:E1; [|done]. intros E i t.
  destruct (backfill_step_spec _ _ _ _ _ _ E1) as [Hf Hlast].
  rewrite (IH _ _ E i t), Hf, (visited_step ts start t), allowed_iff.
  assert (visited (ts + ONE_MINUTE) start t → ts < t) as Hv.
  { intros (n & ? & -> & _). pose proof ONE_MINUTE_pos. nia. }
  assert (visited (ts + ONE_MINUTE) start t →
    ((∀ l, last_of (known s1) i = Some l → l < t) ↔ (∀ l, last_of (known s) i = Some l → l < t))) as Hk.
  { intros Hts%Hv. destruct (Hlast i) as [-> |[-> Ha]]; [done|]. rewrite allowed_iff in Ha.
    split; [|by intros _ l [= <-]]. intros _ l Hl. specialize (Ha l Hl). lia. }
  split.
  - intros [[?|(-> & ? & ?)]|(Hvis & ? & Hl)]; [by left|right; split_and!; [by left|done..]|].
    right. split_and!; [by right|done|]. by apply Hk.
  - intros [?|([[_ ->]|Hvis] & ? & Hl)]; [by left; left|by left; right|].
    right. split_and!; [done..|]. by apply Hk.
Qed.

Lemma backfill_loop_terminates fuel items start ts now s :
  (start - ts) / ONE_MINUTE + 1 ≤ Z.of_nat fuel →
  backfill_loop calendar ts_text fuel items start ts now s ≠ None.
Proof.
  pose proof ONE_MINUTE_pos. revert ts s. induction fuel as [|fuel IH]; intros ts s Hf; cbn [backfill_loop];
    destruct (Z.ltb_spec ts start) as [Hlt|Hge]; try done.
  - assert (0 ≤ (start - ts) / ONE_MINUTE) by (apply Z.div_pos; lia). lia.
  - destruct (if is_empty _ then _ else _); [|done]. apply IH.
    replace (start - (ts + ONE_MINUTE)) with ((start - ts) + (-1) * ONE_MINUTE) by lia.
    rewrite Z.div_add by lia. lia.
Qed.

Lemma items_spec crontabs k :
  get_backfill_and_unknown_items crontabs k =
  (filter_map (λ c : Crontab, (λ r, mkBackfill c (default (known_since r) (last_execution r))) <$> k !! identifier c) crontabs,
   filter_map (λ c : Crontab, match k !! identifier c with Some _ => None | None => Some (identifier c) end) crontabs).
Proof.
  unfold get_backfill_and_unknown_items. induction crontabs as [|c l IH] using rev_ind; [done|].
  rewrite foldl_snoc, IH, !filter_map_app. cbn. by destruct (k !! identifier c); cbn; rewrite ?app_nil_r.
Qed.

Lemma elem_of_items crontabs k b :
  b ∈ (get_backfill_and_unknown_items crontabs k).1 ↔
  ∃ c r, c ∈ crontabs ∧ k !! identifier c = Some r ∧
    b = mkBackfill c (default (known_since r) (last_execution r)).
Proof.
  rewrite items_spec. cbn [fst]. rewrite elem_of_filter_map. split.
  - intros (c & Hc & (r & Hr & ->)%fmap_Some). eauto.
  - intros (c & r & Hc & Hr & ->). exists c. by rewrite Hr.
Qed.

Lemma foldl_max_ge l a x : x ∈ l ∨ x ≤ a → x ≤ foldl Z.max a l.
Proof.
  revert a. induction l as [|y l IH]; intros a; cbn [foldl]; [intros [?%not_elem_of_nil|?]; done|].
  intros [[-> |?]%elem_of_cons|?]; apply IH; [right; lia|by left|right; lia].
Qed.

Lemma largest_none items b fill :
  largest_backfill items = None → b ∈ items → opt_fill (options (item b)) = Some fill → False.
Proof.
  unfold largest_backfill. intros H Hb Hf.
  assert (to_secs fill ∈ filter_map (λ b, to_secs <$> opt_fill (options (item b))) items) as Hin
    by (apply elem_of_filter_map; exists b; by rewrite Hf).
  destruct (filter_map _ _); [by apply not_elem_of_nil in Hin|done].
Qed.

Lemma visited_minutes start first t :
  visited (whole_minute first true) start t ↔ t `mod` ONE_MINUTE = 0 ∧ first < t < start.
Proof.
  pose proof ONE_MINUTE_pos. unfold visited, whole_minute.
  pose proof (Z.div_mod first ONE_MINUTE). pose proof (Z.mod_pos_bound first ONE_MINUTE). split.
  - intros (n & Hn & -> & Ht). split; [|nia].
    replace (first / ONE_MINUTE * ONE_MINUTE + ONE_MINUTE + n * ONE_MINUTE)
      with ((first / ONE_MINUTE + 1 + n) * ONE_MINUTE) by lia. by apply Z.mod_mul.
  - intros (Hm & Hlo & Hhi). pose proof (Z.div_mod t ONE_MINUTE).
    exists (t / ONE_MINUTE - first / ONE_MINUTE - 1). split_and!; [nia|nia|done].
Qed.

Lemma elem_of_to_backfill items start ts i :
  i ∈ cj_identifier <$> to_backfill calendar ts_text items start ts ↔
  ∃ b, b ∈ items ∧ identifier (item b) = i ∧ backfill_due calendar start ts b = true.
Proof.
  unfold to_backfill. rewrite list_elem_of_fmap. setoid_rewrite elem_of_filter_map. split.
  - intros (j & -> & b & Hb & E). destruct (backfill_due _ _ _ _) eqn:Hd; [|done].
    injection E as <-. by exists b.
  - intros (b & Hb & <- & Hd). exists (for_cron ts_text (item b) ts true). split; [done|].
    exists b. by rewrite Hd.
Qed.

(** C36: Backfill always ends.  It panics exactly when the time it first rounds,
    the start less the largest fill period of a known crontab, falls where
    local time is ambiguous.  When it does not and its statements succeed it
    adds jobs for exactly the missed ticks: for a crontab already known and with
    a fill period, the whole minutes within that period before the start, not
    before its last execution (or the time it became known), at which it
    should run and which no runner has scheduled yet.  Unknown crontabs and
    crontabs without a fill period are not backfilled. *)
Theorem backfill_schedules_exactly crontabs start now s :
  is_Some (register_and_backfill_items calendar ts_text ambiguous crontabs start now s) ∧
  (register_and_backfill_items calendar ts_text ambiguous crontabs start now s = Some (Err Panicked) ↔
   ∃ largest, largest_backfill (get_backfill_and_unknown_items crontabs (known s)).1 = Some largest ∧
     let t := start - largest * SECOND_US in
     ambiguous (t / ONE_MINUTE * ONE_MINUTE + t `mod` SECOND_US) = true ∨ ambiguous (t / ONE_MINUTE * ONE_MINUTE) = true) ∧
  ∀ s', register_and_backfill_items calendar ts_text ambiguous crontabs start now s = Some (Ok s') →
  ∀ i t, (i, t) ∈ fired s' ↔ (i, t) ∈ fired s ∨
    ∃ (c : Crontab) r fill largest, c ∈ crontabs ∧ identifier c = i ∧ known s !! i = Some r ∧
      opt_fill (options c) = Some fill ∧
      largest_backfill (get_backfill_and_unknown_items crontabs (known s)).1 = Some largest ∧
      t `mod` ONE_MINUTE = 0 ∧ start - largest * SECOND_US < t < start ∧
      (start - t) / SECOND_US ≤ to_secs fill ∧
      default (known_since r) (last_execution r) ≤ t ∧ (∀ l, last_execution r = Some l → l < t) ∧
      crontab_should_run_at c (calendar t) = true.
Proof.
  unfold register_and_backfill_items. pose proof (elem_of_items crontabs (known s)) as Hitems.
  destruct (get_backfill_and_unknown_items crontabs (known s)) as [items unknown]. cbn [fst] in *.
  set (s0 := if is_empty unknown then s else insert_unknown_crontabs unknown start s).
  assert (fired s0 = fired s ∧ ∀ i, last_of (known s0) i = last_of (known s) i) as [Hf0 Hl0].
  { unfold s0. destruct (is_empty unknown); [done|]. split; [done|]. intros. apply insert_unknown_last. }
  destruct (largest_backfill items) as [largest|] eqn:El.
  - set (t0 := start - largest * SECOND_US). pose proof (round_date_minute_None ambiguous t0 true) as Hnone.
    unfold whole_minute in Hnone. rewrite Z.add_0_r in Hnone.
    destruct (round_date_minute ambiguous t0 true) as [first|] eqn:Efirst.
    2:{ split_and!; [done| |done]. split; [|done]. intros _. exists largest. split; [done|]. by apply Hnone. }
    apply round_date_minute_Some in Efirst.
    assert (is_Some (backfill_loop calendar ts_text (backfill_fuel start first) items start first now s0)) as [res Eres].
    { apply not_eq_None_Some, backfill_loop_terminates. unfold backfill_fuel. lia. }
    rewrite Eres. cbn [fmap option_fmap option_map]. split_and!; [done| |].
    { split; [by destruct res|]. intros (l & [= <-] & H). by apply Hnone in H. }
    destruct res as [s1|]; [|done]. intros s' [= <-] i t.
    pose proof Eres as Hs'. rewrite (backfill_loop_spec _ _ _ _ _ _ _ Hs' i t), Hf0, Hl0. f_equiv.
    rewrite Efirst, visited_minutes, elem_of_to_backfill. unfold t0. unfold last_of. split.
    + intros ((Hm & Hlt) & (b & Hb & Hi & Hd) & Hlast). apply Hitems in Hb as (c & r & Hc & Hr & ->).
      cbn [item] in *. subst i. unfold backfill_due in Hd. cbn [item not_before] in Hd.
      destruct (opt_fill (options c)) as [fill|] eqn:Hfill; [|done]. bool_hyps.
      exists c, r, fill, largest. rewrite Hr in Hlast. split_and!; done || lia.
    + intros (c & r & fill & largest' & Hc & <- & Hr & Hfill & [= <-] & Hm & Hlt & Hago & Hnb & Hlast & Hrun).
      rewrite Hr. split_and!; [done|lia|lia| |done].
      exists (mkBackfill c (default (known_since r) (last_execution r))).
      split_and!; [apply Hitems; eauto|done|]. unfold backfill_due. cbn [item not_before].
      rewrite Hfill, Hrun, !andb_true_iff, !Z.leb_le. done.
  - split_and!; [done|split; [done|by intros (l & ? & _)]|]. intros s' [= <-] i t. rewrite Hf0. split; [by left|]. intros [?|H]; [done|].
    by destruct H as (c & r & fill & largest & _ & _ & _ & _ & ? & _).
Qed.

(** With a tick on a whole minute, the loop skips exactly the early readings. *)
Lemma reading_early now ts :
  ts `mod` ONE_MINUTE = 0 →
  (Z.quot (whole_minute now false - ts) ONE_MINUTE <? 0) = (now <? ts).
Proof.
  intros Hm. pose proof ONE_MINUTE_pos as Hp. pose proof (Z.div_mod ts ONE_MINUTE) as Ht. unfold whole_minute.
  pose proof (Z.div_mod now ONE_MINUTE). pose proof (Z.mod_pos_bound now ONE_MINUTE).
  set (a := now / ONE_MINUTE) in *. set (b := ts / ONE_MINUTE) in *.
  replace (a * ONE_MINUTE + 0 - ts) with ((a - b) * ONE_MINUTE) by lia.
  rewrite Z.quot_mul by lia. apply eq_true_iff_eq. rewrite !Z.ltb_lt. nia.
Qed.

Lemma tick_loop_spec readings crontabs ts s :
  ts `mod` ONE_MINUTE = 0 →
  let '(r, ticks) := tick_loop calendar ts_text ambiguous readings crontabs ts s in
  (∀ n t, ticks !! n = Some t → t = ts + Z.of_nat n * ONE_MINUTE ∧ ∃ now, now ∈ readings ∧ t ≤ now) ∧
  (is_ok r = true →
   (∀ now, now ∈ readings → ts + Z.of_nat (length readings - 1) * ONE_MINUTE ≤ now) →
   length ticks = length readings).
Proof.
  pose proof ONE_MINUTE_pos as Hp. revert ts s. induction readings as [|now readings IH]; intros ts s Hm; cbn [tick_loop].
  { split; [|done]. intros n t Hn. by rewrite lookup_nil in Hn. }
  destruct (round_date_minute ambiguous now false) as [current|] eqn:Ec.
  2:{ split; [|done]. intros n t Hn. by rewrite lookup_nil in Hn. }
  apply round_date_minute_Some in Ec as ->. rewrite reading_early by done. destruct (Z.ltb_spec now ts) as [Hlt|Hge].
  - specialize (IH ts s Hm). destruct (tick_loop _ _ _ _ _ _ _) as [r ticks]. destruct IH as [H1 _]. split.
    + intros n t Hn. destruct (H1 n t Hn) as (? & x & ? & ?). split; [done|]. exists x. split; [by right|done].
    + intros _ Hall. specialize (Hall now (list_elem_of_here _ _)). lia.
  - destruct (emit_tick_and_schedule_jobs _ _ _ _ _ _) as [s1|e].
    + assert ((ts + ONE_MINUTE) `mod` ONE_MINUTE = 0) as Hm1.
      { replace (ts + ONE_MINUTE) with (ts + 1 * ONE_MINUTE) by lia. by rewrite Z.mod_add by lia. }
      specialize (IH (ts + ONE_MINUTE) s1 Hm1). destruct (tick_loop _ _ _ _ _ _ _) as [r ticks].
      destruct IH as [H1 H2]. split.
      * intros [|n] t Hn; cbn in Hn.
        -- injection Hn as <-. split; [lia|]. exists now. split; [left|done].
        -- destruct (H1 n t Hn) as (? & x & ? & ?). split; [lia|]. exists x. split; [by right|done].
      * intros Hok Hall. cbn [length]. f_equal. apply H2; [done|]. intros x Hx.
        specialize (Hall x (list_elem_of_further _ _ _ Hx)). cbn [length] in Hall.
        destruct readings; [by apply not_elem_of_nil in Hx|]. cbn [length] in *. lia.
    + split; [|done]. intros [|n] t Hn; cbn in Hn; [|done]. injection Hn as <-. split; [lia|].
      exists now. split; [left|done].
Qed.

(** The ticks of a running cron are the consecutive minutes after its start:
    none is skipped or repeated, none is fired before the clock has reached
    it, and a loop that fell behind catches up one tick per clock reading. *)
Theorem ticks_are_consecutive readings crontabs start ts s :
  round_date_minute ambiguous start true = Some ts →
  let '(r, ticks) := tick_loop calendar ts_text ambiguous readings crontabs ts s in
  start < ts ≤ start + ONE_MINUTE ∧
  (∀ n t, ticks !! n = Some t → t = ts + Z.of_nat n * ONE_MINUTE ∧ ∃ now, now ∈ readings ∧ t ≤ now) ∧
  (is_ok r = true →
   (∀ now, now ∈ readings → ts + Z.of_nat (length readings - 1) * ONE_MINUTE ≤ now) →
   length ticks = length readings).
Proof.
  intros ->%round_date_minute_Some. set (ts := whole_minute start true). assert (start < ts ≤ start + ONE_MINUTE ∧ ts `mod` ONE_MINUTE = 0) as [Hts Hm].
  { unfold ts, whole_minute. pose proof ONE_MINUTE_pos. pose proof (Z.div_mod start ONE_MINUTE).
    pose proof (Z.mod_pos_bound start ONE_MINUTE). split; [lia|].
    replace (start / ONE_MINUTE * ONE_MINUTE + ONE_MINUTE) with ((start / ONE_MINUTE + 1) * ONE_MINUTE) by lia.
    by apply Z.mod_mul; lia. }
  pose proof (tick_loop_spec readings crontabs ts s Hm) as H.
  destruct (tick_loop _ _ _ _ _ _ _) as [r ticks]. split_and!; try apply Hts; apply H.
Qed.

(** A cron started exactly on a minute neither backfills nor ticks that
    minute. *)
Lemma start_minute_skipped start largest :
  start `mod` ONE_MINUTE = 0 →
  ¬ visited (whole_minute (start - largest * SECOND_US) true) start start ∧
  start < whole_minute start true.
Proof.
  intros Hm. split; [rewrite visited_minutes; lia|]. unfold whole_minute. pose proof ONE_MINUTE_pos.
  pose proof (Z.div_mod start ONE_MINUTE). lia.
Qed.
End backfill.

(** ** Witness *)

(** A crontab that runs every minute; one runner and then another one
    schedule the same tick. *)
Definition demo_cron : Crontab :=
  CrontabTypes.mkCrontab default_timer (lit "task") default_options None.
Definition demo_job_at (ts : Z) : CrontabJob := for_cron (λ _, []) demo_cron ts false.
Definition demo_start : CronState := mkCron ∅ empty_db [].
Definition demo_tick (ts : Z) (s : CronState) : CronState :=
  match schedule_cron_jobs [demo_job_at ts] ts 0 s with Ok s => s | Err _ => s end.
Definition demo_end : CronState := demo_tick ONE_MINUTE (demo_tick ONE_MINUTE demo_start).

Lemma demo_tick_reachable ts s : cron_reachable s → cron_reachable (demo_tick ts s).
Proof.
  intros (k & db & H). unfold demo_tick. destruct (schedule_cron_jobs _ _ _ _) eqn:E.
  - exists k, db. eapply rtc_r; [done|]. by eapply step_schedule.
  - by exists k, db.
Qed.

Lemma cron_fires_at_most_once_witness : fired demo_end = [(lit "task", ONE_MINUTE)] ∧ NoDup (fired demo_end).
Proof.
  split; [vm_compute; reflexivity|]. apply cron_fires_at_most_once.
  apply demo_tick_reachable, demo_tick_reachable. exists ∅, empty_db. apply rtc_refl.
Defined.

End CrontabRunner.
