(* ===== verification/CronRun.v ===== *)
(** * The cron runner and its retries (crates/graphile-worker-crontab-runner/src/
    runner/mod.rs, backfill.rs, clock.rs)

    [CrontabRunner] has what a statement of the cron runner does and when ticks
    are due.  Here statements also fail: the runner waits, reads the clock,
    registers and backfills again, with a delay that grows by half up to a minute
    and returns to 200 ms with every tick that succeeds.  A failure may come
    before the statement was applied or after.  A panic of the rounding, where
    local time is ambiguous, ends the run.  Times are microseconds. *)

From S2P Require Import Prelude CrontabTypes Job Database FlagFilter JobStore JobRelease AddJob CrontabRunner.
Open Scope Z_scope.

Module CronRun.
Import FlagFilter JobStore CrontabTypes CrontabRunner.

(** ** clock.rs *)

(** [SystemClock::sleep_until], read at [now]: what it hands to [runtime::sleep]. *)
Definition system_sleep_until (datetime now : Z) : option Z :=
  let dur := datetime - now in if dur <? 0 then None else Some dur.

(** [MockClock::sleep_until] over the times the clock is set to. *)
Fixpoint mock_sleep_until (datetime now : Z) (later : list Z) : option Z :=
  if datetime <=? now then Some now
  else match later with [] => None | t :: later => mock_sleep_until datetime t later end.

(** ** Statements that fail *)

Inductive Fault := NotApplied | ReplyLost.
Inductive RunError := ScheduleError (e : ScheduleCronJobError) | ConnectionError | Panic.

Definition statement (f : option Fault) (run : CronState → result CronState ScheduleCronJobError) (s : CronState) :
    CronState * result unit RunError :=
  match f with
  | Some NotApplied => (s, Err ConnectionError)
  | Some ReplyLost => (match run s with Ok s' => s' | Err _ => s end, Err ConnectionError)
  | None => match run s with Ok s' => (s', Ok ()) | Err e => (s, Err (ScheduleError e)) end
  end.

(** ** The runner *)

Section runner.
Context (calendar : Z → NaiveDateTime) (ts_text : Z → str) (ambiguous : Z → bool) (crontabs : list Crontab).
(** The fault of each statement, in the order they are sent. *)
Context (faults : nat → option Fault).

(** The tables, the statements sent so far, the minutes before which everything
    was dealt with, and how it ended. *)
Record Progress := mkProgress {
  state : CronState; sent : nat; reached : Z; outcome : result unit RunError
}.

(** The loop of [register_and_backfill_items]. *)
Fixpoint backfill_loop (fuel : nat) (items : list BackfillItemAndDate) (start_time ts now : Z) (k : nat) (r : Z)
    (s : CronState) : option Progress :=
  if ts <? start_time then
    match fuel with
    | O => None
    | S fuel =>
        let js := to_backfill calendar ts_text items start_time ts in
        if is_empty js then backfill_loop fuel items start_time (ts + ONE_MINUTE) now k (Z.max r (ts + ONE_MINUTE)) s
        else
          match statement (faults k) (schedule_cron_jobs js ts now) s with
          | (s, Ok _) => backfill_loop fuel items start_time (ts + ONE_MINUTE) now (S k) (Z.max r (ts + ONE_MINUTE)) s
          | (s, Err e) => Some (mkProgress s (S k) r (Err e))
          end
    end
  else Some (mkProgress s k r (Ok ())).

Definition register_and_backfill_items (start_time now : Z) (k : nat) (r : Z) (s : CronState) : option Progress :=
  match statement (faults k) Ok s with
  | (s, Err e) => Some (mkProgress s (S k) r (Err e))
  | (s, Ok _) =>
      let '(items, unknown) := get_backfill_and_unknown_items crontabs (known s) in
      let '(s, inserted, k) :=
        if is_empty unknown then (s, Ok (), S k)
        else let '(s, x) := statement (faults (S k)) (λ s, Ok (insert_unknown_crontabs unknown start_time s)) s in
             (s, x, S (S k)) in
      match inserted with
      | Err e => Some (mkProgress s k r (Err e))
      | Ok _ =>
          match largest_backfill items with
          | None => Some (mkProgress s k r (Ok ()))
          | Some largest =>
              match round_date_minute ambiguous (start_time - largest * SECOND_US) true with
              | None => Some (mkProgress s k r (Err Panic))
              | Some ts => backfill_loop (backfill_fuel start_time ts) items start_time ts now k r s
              end
          end
      end
  end.

(** The tick loop over the clock readings after each sleep: until they run out or
    a statement fails or the rounding panics.  The delay is reset after a tick. *)
Fixpoint tick_loop (readings : list Z) (ts : Z) (delay : Z) (k : nat) (s : CronState) : Progress * Z :=
  match readings with
  | [] => (mkProgress s k ts (Ok ()), delay)
  | now :: readings =>
      match round_date_minute ambiguous now false with
      | None => (mkProgress s k ts (Err Panic), delay)
      | Some current_ts =>
          if Z.quot (current_ts - ts) ONE_MINUTE <? 0 then tick_loop readings ts delay k s
          else
            let js := collect_jobs_to_schedule calendar ts_text crontabs ts in
            if is_empty js then tick_loop readings (ts + ONE_MINUTE) MIN_RETRY_DELAY k s
            else
              match statement (faults k) (schedule_cron_jobs js ts now) s with
              | (s, Ok _) => tick_loop readings (ts + ONE_MINUTE) MIN_RETRY_DELAY (S k) s
              | (s, Err e) => (mkProgress s (S k) ts (Err e), delay)
              end
      end
  end.

(** One call of [run_until_error]: the clock at its start, at its backfill
    statements, and after each sleep. *)
Record Attempt := mkAttempt { a_start : Z; a_now : Z; a_readings : list Z }.

Definition run_until_error (a : Attempt) (delay : Z) (k : nat) (r : Z) (s : CronState) : option (Progress * Z) :=
  p ← register_and_backfill_items (a_start a) (a_now a) k r s;
  match outcome p with
  | Err _ => Some (p, delay)
  | Ok _ =>
      match round_date_minute ambiguous (a_start a) true with
      | None => Some (mkProgress (state p) (sent p) (reached p) (Err Panic), delay)
      | Some ts => Some (tick_loop (a_readings a) ts delay (sent p) (state p))
      end
  end.

(** [run_with_retries] over the calls it makes: it goes on after each error, and
    a panic goes through it.  The delays it slept for are listed. *)
Fixpoint run_with_retries (attempts : list Attempt) (delay : Z) (k : nat) (r : Z) (s : CronState) :
    option (Progress * list Z) :=
  match attempts with
  | [] => Some (mkProgress s k r (Ok ()), [])
  | a :: attempts =>
      '(p, delay) ← run_until_error a delay k r s;
      match outcome p with
      | Ok _ | Err Panic => Some (p, [])
      | Err _ =>
          '(p', delays) ← run_with_retries attempts (next_retry_delay delay) (sent p) (reached p) (state p);
          Some (p', delay :: delays)
      end
  end.

(** [CronRunner::run]: the select with the shutdown signal ends it without error. *)
Definition run (attempts : list Attempt) (start : Z) (s : CronState) : option (Progress * list Z) :=
  run_with_retries attempts MIN_RETRY_DELAY 0 start s.

(** ** The delays *)

Lemma next_retry_delay_bounds d : MIN_RETRY_DELAY ≤ d ≤ MAX_RETRY_DELAY → MIN_RETRY_DELAY ≤ next_retry_delay d ≤ MAX_RETRY_DELAY.
Proof.
  unfold next_retry_delay, MIN_RETRY_DELAY, MAX_RETRY_DELAY, SECOND_US. intros H.
  assert (0 ≤ Z.quot d 2) by (apply Z.quot_pos; lia). lia.
Qed.

Lemma tick_loop_delay readings ts delay k s : MIN_RETRY_DELAY ≤ delay ≤ MAX_RETRY_DELAY →
  MIN_RETRY_DELAY ≤ (tick_loop readings ts delay k s).2 ≤ MAX_RETRY_DELAY.
Proof.
  revert ts delay k s. induction readings as [|now readings IH]; intros ts delay k s Hd; cbn [tick_loop]; [done|].
  destruct (round_date_minute _ _ _); [|done].
  destruct (_ <? 0); [by apply IH|]. destruct (is_empty _); [by apply IH|].
  destruct (statement _ _ _) as [s' [|]]; [by apply IH|done].
Qed.

Lemma retries_delays attempts delay k r s p delays : MIN_RETRY_DELAY ≤ delay ≤ MAX_RETRY_DELAY →
  run_with_retries attempts delay k r s = Some (p, delays) →
  Forall (λ d, MIN_RETRY_DELAY ≤ d ≤ MAX_RETRY_DELAY) delays.
Proof.
  revert delay k r s p delays. induction attempts as [|a attempts IH]; intros delay k r s p delays Hd; cbn [run_with_retries].
  { intros [= <- <-]. constructor. }
  destruct (run_until_error a delay k r s) as [[p1 d1]|] eqn:E; cbn; [|done].
  assert (MIN_RETRY_DELAY ≤ d1 ≤ MAX_RETRY_DELAY) as Hd1.
  { unfold run_until_error in E. destruct (register_and_backfill_items _ _ _ _ _) as [p2|]; cbn in E; [|done].
    destruct (outcome p2); [|by simplify_eq]. destruct (round_date_minute _ _ _) as [ts|]; [|by simplify_eq].
    injection E as E. pose proof (tick_loop_delay (a_readings a) ts delay (sent p2) (state p2) Hd) as H.
    by rewrite E in H. }
  destruct (outcome p1) as [|[]]; try (intros [= <- <-]; constructor).
  all: destruct (run_with_retries attempts _ _ _ _) as [[p2 ds]|] eqn:E2; cbn; [|done]; intros [= <- <-].
  all: constructor; [done|]; eapply IH; [|exact E2]; by apply next_retry_delay_bounds.
Qed.

(** ** No tick is missed *)

Section coverage.
Context (c : Crontab) (Hc : c ∈ crontabs).

(** The whole minutes the crontab should run at. *)
Definition due (m : Z) : Prop := crontab_should_run_at c (calendar m) = true ∧ m `mod` ONE_MINUTE = 0.

(** Since it became known, every due minute before [t], and up to its last
    execution, has its job. *)
Definition covered (s : CronState) (t : Z) : Prop :=
  ∀ r m, known s !! identifier c = Some r → due m → known_since r ≤ m →
    m < t ∨ (∃ l, last_execution r = Some l ∧ m ≤ l) → (identifier c, m) ∈ fired s.

Lemma covered_le s t t' : t' ≤ t → covered s t → covered s t'.
Proof. intros Ht H r m Hk Hd Hs Hm. apply (H r m Hk Hd Hs). destruct Hm; [left; lia|by right]. Qed.

Lemma lock_since ts ids acc k' locked i r :
  foldl (lock_one ts) (Ok acc) ids = Ok (k', locked) → acc.1 !! i = Some r →
  ∃ r', k' !! i = Some r' ∧ known_since r' = known_since r.
Proof.
  revert acc r. induction ids as [|j ids IH]; intros [k l] r; cbn [foldl]; [intros [= <- <-] ?; eauto|].
  destruct (lock_one ts (Ok (k, l)) j) as [[k1 l1]|e] eqn:E; [|by rewrite lock_err].
  intros H Hr. cbn [fst] in Hr.
  assert (∃ r1, k1 !! i = Some r1 ∧ known_since r1 = known_since r) as (r1 & Hr1 & Hs).
  { unfold lock_one in E. destruct (bool_decide _); [done|]. destruct (k !! j) as [x|] eqn:Ej.
    - destruct (match last_execution x with Some _ => _ | None => _ end); injection E as <- <-; [|eauto].
      destruct (decide (j = i)) as [->|Hne]; [|rewrite lookup_insert_ne by done; eauto].
      rewrite lookup_insert_eq. simplify_eq. eauto.
    - injection E as <- <-. rewrite lookup_insert_ne by congruence. eauto. }
  destruct (IH (k1, l1) r1 H Hr1) as (r2 & ? & ?). exists r2. split; [done|congruence].
Qed.

Lemma schedule_since js ts now s s' i r : schedule_cron_jobs js ts now s = Ok s' → known s !! i = Some r →
  ∃ r', known s' !! i = Some r' ∧ known_since r' = known_since r.
Proof.
  unfold schedule_cron_jobs. destruct (negb _); [done|]. destruct (foldl _ _ _) as [[k locked]|] eqn:E; [|done].
  destruct (add_cron_jobs _ _ _); [|done]. intros [= <-]. cbn. by eapply (lock_since ts _ (known s, [])).
Qed.

(** What a statement for a tick leaves, applied: everything up to the tick, if
    the tick was in it when it was due. *)
Lemma schedule_covers js ts now s s' r R : schedule_cron_jobs js ts now s = Ok s' →
  known s !! identifier c = Some r → ts `mod` ONE_MINUTE = 0 → ts ≤ R → covered s R →
  (due ts → known_since r ≤ ts → R = ts → identifier c ∈ cj_identifier <$> js ∨ (identifier c, ts) ∈ fired s) →
  covered s' (Z.max R (ts + ONE_MINUTE)).
Proof.
  intros E Hk Hm HR Hcov Hin. destruct (schedule_since _ _ _ _ _ _ _ E Hk) as (r' & Hk' & Hsince).
  apply schedule_spec in E as (new & _ & Hnew & Hf & Hlast & Hsame).
  intros r2 m H2 Hd Hs Hcase. rewrite Hk' in H2. injection H2 as <-. rewrite Hsince in Hs. rewrite Hf, elem_of_app.
  assert ((m < R ∨ ∃ l, last_execution r = Some l ∧ m ≤ l) ∨ ¬ (m < R ∨ ∃ l, last_execution r = Some l ∧ m ≤ l))
    as [Hold|Hold]; [|left; by apply (Hcov r m)|].
  { destruct (decide (m < R)); [tauto|]. destruct (last_execution r) as [l|]; [|right; naive_solver].
    destruct (decide (m ≤ l)); [left; eauto|right; naive_solver]. }
  assert (m = ts) as ->.
  { assert (R ≤ m) by (destruct (decide (m < R)); [tauto|lia]). assert (m < ts + ONE_MINUTE ∨ m ≤ ts) as Hlt.
    { destruct Hcase as [?|(l & Hl & Hle)]; [left; lia|].
      destruct (decide (identifier c ∈ new)) as [Hi|Hi].
      - specialize (Hlast _ Hi). unfold last_of in Hlast. rewrite Hk' in Hlast. cbn in Hlast. simplify_eq. by right.
      - rewrite Hsame, Hk in Hk' by done. injection Hk' as <-. destruct Hold. eauto. }
    destruct Hd as [_ Hd]. change ONE_MINUTE with 60000000 in *. Z.to_euclidean_division_equations. lia. }
  assert (R = ts) as -> by (destruct (decide (ts < R)); [tauto|lia]).
  destruct (Hin Hd Hs eq_refl) as [Hid|?]; [|by left]. right. apply list_elem_of_fmap. exists (identifier c). split; [done|].
  apply Hnew. split; [done|]. apply allowed_iff. unfold last_of. rewrite Hk. cbn. intros l Hl.
  destruct (decide (l < ts)); [done|]. destruct Hold. right. exists l. split; [done|lia].
Qed.

(** A tick without a statement: it was not due, or is there already. *)
Lemma skip_covers s ts r R : known s !! identifier c = Some r → ts `mod` ONE_MINUTE = 0 → ts ≤ R → covered s R →
  (due ts → known_since r ≤ ts → R = ts → (identifier c, ts) ∈ fired s) → covered s (Z.max R (ts + ONE_MINUTE)).
Proof.
  intros Hk Hm HR Hcov Hin r2 m H2 Hd Hs Hcase. rewrite Hk in H2. injection H2 as <-.
  destruct (decide (m < R)) as [?|HmR]; [apply (Hcov r); auto|]. destruct Hcase as [Hlt|Hl]; [|apply (Hcov r); auto].
  assert (m = ts) as ->.
  { destruct Hd as [_ Hd]. change ONE_MINUTE with 60000000 in *. Z.to_euclidean_division_equations. lia. }
  apply Hin; [done..|lia].
Qed.

(** What is kept of a state: the registration, the jobs, and the invariant. *)
Definition extends (s s' : CronState) (r : KnownCrontab) : Prop :=
  (∃ r', known s' !! identifier c = Some r' ∧ known_since r' = known_since r) ∧
  (∀ x, x ∈ fired s → x ∈ fired s') ∧ (cron_inv s → cron_inv s').

Lemma statement_covers f js ts now s s' res r R : statement f (schedule_cron_jobs js ts now) s = (s', res) →
  known s !! identifier c = Some r → ts `mod` ONE_MINUTE = 0 → ts ≤ R → covered s R →
  (due ts → known_since r ≤ ts → R = ts → identifier c ∈ cj_identifier <$> js ∨ (identifier c, ts) ∈ fired s) →
  covered s' R ∧ (res = Ok () → covered s' (Z.max R (ts + ONE_MINUTE))) ∧ extends s s' r.
Proof.
  intros E Hk Hm HR Hcov Hin.
  assert (extends s s r) as Hrefl by (split_and!; eauto).
  assert (∀ s1, schedule_cron_jobs js ts now s = Ok s1 → covered s1 (Z.max R (ts + ONE_MINUTE)) ∧ extends s s1 r) as Happ.
  { intros s1 E1. split; [by eapply schedule_covers|]. split_and!.
    - by eapply schedule_since.
    - apply schedule_spec in E1 as (new & _ & _ & -> & _). intros x Hx. apply elem_of_app. by left.
    - intros Hi. by eapply schedule_inv. }
  unfold statement in E. destruct f as [[]|].
  - by injection E as <- <-.
  - destruct (schedule_cron_jobs js ts now s) as [s1|] eqn:E1; injection E as <- <-; [|done].
    destruct (Happ s1 eq_refl) as [H1 H2]. split_and!; [|done..]. eapply covered_le; [|exact H1]. lia.
  - destruct (schedule_cron_jobs js ts now s) as [s1|] eqn:E1; injection E as <- <-; [|done].
    destruct (Happ s1 eq_refl) as [H1 H2]. split_and!; [|done..]. eapply covered_le; [|exact H1]. lia.
Qed.

Lemma minute_next ts : ts `mod` ONE_MINUTE = 0 → (ts + ONE_MINUTE) `mod` ONE_MINUTE = 0.
Proof. intros H. change ONE_MINUTE with 60000000 in *. Z.to_euclidean_division_equations. lia. Qed.

Lemma backfill_covers fuel items start ts now k r s p row :
  backfill_loop fuel items start ts now k r s = Some p →
  known s !! identifier c = Some row → ts `mod` ONE_MINUTE = 0 → covered s (Z.max r ts) → cron_inv s →
  (∀ t, ts ≤ t < start → due t → known_since row ≤ t → r ≤ t →
     identifier c ∈ cj_identifier <$> to_backfill calendar ts_text items start t ∨ (identifier c, t) ∈ fired s) →
  covered (state p) (reached p) ∧ cron_inv (state p) ∧
  (outcome p = Ok () → covered (state p) start ∧ is_Some (known (state p) !! identifier c)).
Proof.
  revert ts k r s row. induction fuel as [|fuel IH]; intros ts k r s row E Hk Hm Hcov Hinv Hin; cbn [backfill_loop] in E.
  - destruct (Z.ltb_spec ts start); [done|]. injection E as <-. cbn.
    split_and!; [by eapply covered_le; [|exact Hcov]; lia|done|]. intros _.
    split; [by eapply covered_le; [|exact Hcov]; lia|eauto].
  - destruct (Z.ltb_spec ts start) as [Hlt|Hge].
    2: { injection E as <-. cbn. split_and!; [by eapply covered_le; [|exact Hcov]; lia|done|]. intros _.
         split; [by eapply covered_le; [|exact Hcov]; lia|eauto]. }
    assert (Z.max (Z.max r (ts + ONE_MINUTE)) (ts + ONE_MINUTE) = Z.max (Z.max r ts) (ts + ONE_MINUTE)) as Hmax
      by (pose proof ONE_MINUTE_pos; lia).
    assert (due ts → known_since row ≤ ts → Z.max r ts = ts →
      identifier c ∈ cj_identifier <$> to_backfill calendar ts_text items start ts ∨ (identifier c, ts) ∈ fired s) as Hnow
      by (intros; apply Hin; [lia|done|done|lia]).
    destruct (is_empty (to_backfill calendar ts_text items start ts)) eqn:Ee.
    + apply (IH _ _ _ _ row) in E; [done|done|by apply minute_next| |done|].
      * rewrite Hmax. apply (skip_covers s ts row); [done..|lia|done|]. intros Hd Hs HR. destruct (Hnow Hd Hs HR) as [Hi|?]; [|done].
        destruct (to_backfill _ _ _ _ _); [by apply elem_of_nil in Hi|done].
      * intros t Ht Hd Hs Hr. apply Hin; [pose proof ONE_MINUTE_pos; lia|done|done|lia].
    + destruct (statement (faults k) _ s) as [s1 res] eqn:Es.
      apply (statement_covers _ _ _ _ _ _ _ row (Z.max r ts)) in Es as (H1 & H2 & (r' & Hr' & Hs') & Hf & Hi);
        [|done..|lia|done|done].
      destruct res as [[]|e].
      * apply (IH _ _ _ _ r') in E; [done|done|by apply minute_next|rewrite Hmax; by apply H2|by apply Hi|].
        intros t Ht Hd Hs Hr. rewrite Hs' in Hs.
        destruct (Hin t) as [?|?]; [pose proof ONE_MINUTE_pos; lia|done|done|lia|by left|right; by apply Hf].
      * injection E as <-. cbn. split_and!; [|by apply Hi|done]. eapply covered_le; [|exact H1]. lia.
Qed.

Lemma tick_covers readings ts delay k s row : known s !! identifier c = Some row → ts `mod` ONE_MINUTE = 0 →
  covered s ts → cron_inv s →
  covered (state (tick_loop readings ts delay k s).1) (reached (tick_loop readings ts delay k s).1) ∧
  cron_inv (state (tick_loop readings ts delay k s).1).
Proof.
  revert ts delay k s row. induction readings as [|now readings IH]; intros ts delay k s row Hk Hm Hcov Hinv;
    cbn [tick_loop]; [done|]. destruct (round_date_minute _ _ _); [|done].
  destruct (_ <? 0); [by eapply IH|].
  assert (Z.max ts (ts + ONE_MINUTE) = ts + ONE_MINUTE) as Hmax by (pose proof ONE_MINUTE_pos; lia).
  assert (due ts → identifier c ∈ cj_identifier <$> collect_jobs_to_schedule calendar ts_text crontabs ts) as Hin.
  { intros [Hd _]. unfold collect_jobs_to_schedule. apply list_elem_of_fmap. exists (for_cron ts_text c ts false).
    split; [done|]. apply elem_of_filter_map. exists c. by rewrite Hd. }
  destruct (is_empty (collect_jobs_to_schedule calendar ts_text crontabs ts)) eqn:Ee.
  - eapply IH; [done|by apply minute_next| |done]. rewrite <- Hmax. apply (skip_covers s ts row); [done..|lia|done|].
    intros Hi%Hin. destruct (collect_jobs_to_schedule _ _ _ _); [by apply elem_of_nil in Hi|done].
  - destruct (statement (faults k) _ s) as [s1 res] eqn:Es.
    apply (statement_covers _ _ _ _ _ _ _ row ts) in Es as (H1 & H2 & (r' & Hr' & Hs') & Hf & Hi); [|done..|lia|done|auto].
    destruct res as [[]|e]; [|by split; [|apply Hi]].
    eapply IH; [done|by apply minute_next|rewrite <- Hmax; by apply H2|by apply Hi].
Qed.

Lemma insert_unknown_lookup ids t s i :
  known (insert_unknown_crontabs ids t s) !! i =
  match known s !! i with Some r => Some r | None => if decide (i ∈ ids) then Some (mkKnown t None) else None end.
Proof.
  unfold insert_unknown_crontabs. cbn. generalize (known s) as k. induction ids as [|j ids IH]; intros k; cbn [foldl].
  { destruct (k !! i); [done|]. rewrite decide_False; [done|apply not_elem_of_nil]. }
  rewrite IH. destruct (k !! j) as [x|] eqn:Ej.
  - destruct (k !! i) eqn:Ei; [done|]. assert (i ≠ j) by congruence. by repeat case_decide; set_solver.
  - destruct (decide (i = j)) as [->|Hne].
    + rewrite lookup_insert_eq, Ej, decide_True by left. done.
    + rewrite lookup_insert_ne by done. destruct (k !! i); [done|]. by repeat case_decide; set_solver.
Qed.

Lemma largest_backfill_ge items b fill L : largest_backfill items = Some L → b ∈ items → opt_fill (options (item b)) = Some fill →
  to_secs fill ≤ L.
Proof.
  unfold largest_backfill. intros HL Hb Hf.
  assert (to_secs fill ∈ filter_map (λ b, to_secs <$> opt_fill (options (item b))) items) as Hin
    by (apply elem_of_filter_map; exists b; by rewrite Hf).
  destruct (filter_map _ _) as [|x l]; [done|]. injection HL as <-. apply foldl_max_ge.
  apply elem_of_cons in Hin as [->|?]; [right; lia|by left].
Qed.

Lemma to_secs_nonneg f : 0 ≤ to_secs f.
Proof. rewrite to_secs_wrap. apply wrap_u32_range. Qed.

Context (fill : CrontabFill) (Hfill : opt_fill (options c) = Some fill).

(** The first minute after a time. *)
Lemma round_up_first t ts : round_date_minute ambiguous t true = Some ts →
  ts `mod` ONE_MINUTE = 0 ∧ t < ts ∧ ∀ m, m `mod` ONE_MINUTE = 0 → t < m → ts ≤ m.
Proof.
  intros ->%round_date_minute_Some. unfold whole_minute. change ONE_MINUTE with 60000000.
  split_and!; intros; Z.to_euclidean_division_equations; lia.
Qed.

(** An attempt that starts within the fill period of what was dealt with. *)
Lemma registration_covers start now k r s p : register_and_backfill_items start now k r s = Some p →
  covered s r → cron_inv s → r ≤ start < r + to_secs fill * SECOND_US → start `mod` ONE_MINUTE ≠ 0 →
  covered (state p) (reached p) ∧ cron_inv (state p) ∧
  (outcome p = Ok () → covered (state p) start ∧ is_Some (known (state p) !! identifier c)).
Proof using Hc Hfill.
  intros E Hcov Hinv Hstart Hoff. unfold register_and_backfill_items in E.
  assert (∀ f, (statement f Ok s).1 = s) as Hread by by intros [[]|].
  destruct (statement (faults k) Ok s) as [s0 res] eqn:Es. pose proof (Hread (faults k)) as Hs. rewrite Es in Hs. cbn in Hs. subst s0.
  destruct res as [[]|e]; [|by injection E as <-].
  pose proof (elem_of_items crontabs (known s)) as Hitems. pose proof (items_spec crontabs (known s)) as Hspec.
  destruct (get_backfill_and_unknown_items crontabs (known s)) as [items unknown]. cbn [fst] in Hitems.
  set (s1 := insert_unknown_crontabs unknown start s).
  assert (known s !! identifier c = None → identifier c ∈ unknown) as Hunk.
  { intros Hn. injection Hspec as _ ->. apply elem_of_filter_map. exists c. by rewrite Hn. }
  assert (∃ row, known s1 !! identifier c = Some row ∧
    (known s !! identifier c = Some row ∨ known s !! identifier c = None ∧ row = mkKnown start None)) as (row & Hrow & Hold).
  { unfold s1. rewrite insert_unknown_lookup. destruct (known s !! identifier c); [eauto|]. rewrite decide_True by auto. eauto. }
  assert (∀ t, t ≤ start → covered s t → covered s1 t) as Hins.
  { intros t Ht Hc0 r2 m H2 Hd Hs Hcase. rewrite Hrow in H2. injection H2 as <-. change (fired s1) with (fired s).
    destruct Hold as [Ho|[Ho ->]]; [by apply (Hc0 row m)|]. cbn in *. destruct Hcase as [?|(l & ? & _)]; [lia|done]. }
  assert (cron_inv s1) as Hinv1 by (eapply cron_inv_step; [exact Hinv|apply step_register]).
  assert (∃ s2 k2 ins, (if is_empty unknown then (s, Ok (), S k)
     else let '(s, x) := statement (faults (S k)) (λ s, Ok (insert_unknown_crontabs unknown start s)) s in (s, x, S (S k)))
       = (s2, ins, k2) ∧ covered s2 r ∧ cron_inv s2 ∧ (ins = Ok () → s2 = s1)) as (s2 & k2 & ins & Eins & Hc2 & Hi2 & Hs2).
  { destruct (is_empty unknown) eqn:Eu.
    - exists s, (S k), (Ok ()). split_and!; [done..|]. intros _. unfold s1. destruct unknown; [|done]. by destruct s.
    - assert (covered s1 r) by (apply Hins; [lia|done]). unfold statement. fold s1. destruct (faults (S k)) as [[]|].
      + by exists s, (S (S k)), (Err ConnectionError).
      + by exists s1, (S (S k)), (Err ConnectionError).
      + by exists s1, (S (S k)), (Ok ()). }
  rewrite Eins in E. destruct ins as [[]|e]; [|by injection E as <-]. rewrite (Hs2 eq_refl) in *. clear Hs2 Eins.
  destruct (largest_backfill items) as [L|] eqn:EL.
  - destruct (round_date_minute ambiguous (start - L * SECOND_US) true) as [ts|] eqn:Ets.
    2:{ injection E as <-. cbn. split_and!; [|done..]. apply Hc2. }
    destruct (round_up_first _ _ Ets) as (Hm & _ & Hfirst).
    apply (backfill_covers _ _ _ _ _ _ _ _ _ row) in E; [done|done|done| |done|].
    + destruct Hold as [Ho|[Ho ->]].
      * assert (mkBackfill c (default (known_since row) (last_execution row)) ∈ items) as Hb by (apply Hitems; eauto).
        pose proof (largest_backfill_ge _ _ _ _ EL Hb Hfill). intros r2 m H2 Hd Hs Hcase. apply (Hc2 r2 m H2 Hd Hs).
        destruct Hcase as [Hlt|?]; [|by right]. left. destruct (decide (m < r)); [done|].
        assert (ts ≤ m); [|lia]. apply Hfirst; [apply Hd|]. unfold SECOND_US in *. lia.
      * intros r2 m H2 Hd Hs Hcase. rewrite Hrow in H2. injection H2 as <-. cbn in *.
        destruct Hcase as [Hlt|(l & ? & _)]; [|done]. apply (Hc2 _ m Hrow Hd Hs). left.
        destruct (decide (m < r)); [done|].
        assert (ts ≤ m); [|lia]. apply Hfirst; [apply Hd|]. assert (m ≠ start) by (intros ->; by apply Hoff, Hd).
        assert (0 ≤ L); [|unfold SECOND_US; lia].
        unfold largest_backfill in EL. clear -EL. destruct (filter_map _ items) as [|x l] eqn:Ef; [done|].
        injection EL as <-. etrans; [|apply foldl_max_ge; right; reflexivity].
        assert (x ∈ filter_map (λ b, to_secs <$> opt_fill (options (item b))) items) as Hx by (rewrite Ef; left).
        apply elem_of_filter_map in Hx as (b & _ & Hb). destruct (opt_fill _) as [f|]; [|done]. injection Hb as <-.
        apply to_secs_nonneg.
    + intros t Ht Hd Hs Hrt. destruct Hold as [Ho|[Ho ->]]; [|cbn in Hs; lia].
      destruct (decide (default (known_since row) (last_execution row) ≤ t)) as [Hnb|Hnb].
      * left. apply elem_of_to_backfill. exists (mkBackfill c (default (known_since row) (last_execution row))).
        split_and!; [apply Hitems; eauto|done|]. unfold backfill_due. cbn. rewrite Hfill, (proj1 Hd), andb_true_r.
        apply andb_true_iff. rewrite !Z.leb_le. split; [|done].
        apply Z.lt_succ_r, Z.div_lt_upper_bound; unfold SECOND_US in *; lia.
      * right. change (fired s1) with (fired s). apply (Hcov row t Ho Hd Hs). right.
        destruct (last_execution row) as [l|]; cbn in Hnb; [|lia]. exists l. split; [done|lia].
  - injection E as <-. cbn. split_and!; [done..|]. intros _. split; [|eauto].
    destruct Hold as [Ho|[Ho ->]].
    + exfalso. eapply (largest_none items); [done|apply Hitems; eauto|done].
    + intros r2 m H2 Hd Hs Hcase. rewrite Hrow in H2. injection H2 as <-. cbn in *. destruct Hcase as [?|(l & ? & _)]; [lia|done].
Qed.

Lemma attempt_covers a delay k r s p d : run_until_error a delay k r s = Some (p, d) →
  covered s r → cron_inv s → r ≤ a_start a < r + to_secs fill * SECOND_US → a_start a `mod` ONE_MINUTE ≠ 0 →
  covered (state p) (reached p) ∧ cron_inv (state p).
Proof using Hc Hfill.
  intros E Hcov Hinv Hs Hoff. unfold run_until_error in E.
  destruct (register_and_backfill_items _ _ _ _ _) as [p1|] eqn:E1; [|done]. cbn in E.
  apply registration_covers in E1 as (H1 & H2 & H3); [|done..].
  destruct (outcome p1) as [[]|e]; [|by simplify_eq]. destruct (H3 eq_refl) as [H4 [row Hrow]].
  destruct (round_date_minute ambiguous (a_start a) true) as [ts|] eqn:Ets; [|by simplify_eq].
  destruct (round_up_first _ _ Ets) as (Hm & _ & _). apply round_date_minute_Some in Ets.
  assert (covered (state p1) ts) as H5.
  { intros r2 m Hk Hd Hsi Hcase. apply (H4 r2 m Hk Hd Hsi). destruct Hcase as [Hlt|?]; [|by right]. left.
    destruct Hd as [_ Hd]. rewrite Ets in Hlt. unfold whole_minute in Hlt. change ONE_MINUTE with 60000000 in *.
    Z.to_euclidean_division_equations. lia. }
  pose proof (tick_covers (a_readings a) ts delay (sent p1) (state p1) row Hrow Hm H5 H2) as H.
  injection E as E. by rewrite E in H.
Qed.

(** Every attempt starts within the fill period of what was dealt with before
    it, and not on the very start of a minute. *)
Fixpoint prompt (attempts : list Attempt) (delay : Z) (k : nat) (r : Z) (s : CronState) : Prop :=
  match attempts with
  | [] => True
  | a :: attempts =>
      r ≤ a_start a < r + to_secs fill * SECOND_US ∧ a_start a `mod` ONE_MINUTE ≠ 0 ∧
      match run_until_error a delay k r s with
      | Some (p, d) =>
          match outcome p with
          | Ok _ | Err Panic => True
          | Err _ => prompt attempts (next_retry_delay d) (sent p) (reached p) (state p)
          end
      | None => False
      end
  end.

Lemma retries_cover attempts delay k r s p delays : run_with_retries attempts delay k r s = Some (p, delays) →
  covered s r → cron_inv s → prompt attempts delay k r s → covered (state p) (reached p) ∧ cron_inv (state p).
Proof using Hc Hfill.
  revert delay k r s p delays. induction attempts as [|a attempts IH]; intros delay k r s p delays; cbn [run_with_retries prompt].
  { by intros [= <- <-]. }
  intros E Hcov Hinv (Hs & Hoff & Hp). destruct (run_until_error a delay k r s) as [[p1 d1]|] eqn:E1; [|done]. cbn in E.
  apply attempt_covers in E1 as [H1 H2]; [|done..].
  destruct (outcome p1) as [|[]]; try (by simplify_eq).
  all: destruct (run_with_retries attempts _ _ _ _) as [[p2 ds]|] eqn:E2; [|done]; cbn in E; injection E as <- <-; by eapply IH.
Qed.
End coverage.

Lemma backfill_loop_total fuel items start ts now k r s : (start - ts) / ONE_MINUTE + 1 ≤ Z.of_nat fuel →
  is_Some (backfill_loop fuel items start ts now k r s).
Proof.
  pose proof ONE_MINUTE_pos. revert ts k r s. induction fuel as [|fuel IH]; intros ts k r s Hf; cbn [backfill_loop];
    destruct (Z.ltb_spec ts start) as [Hlt|Hge]; try done.
  - assert (0 ≤ (start - ts) / ONE_MINUTE) by (apply Z.div_pos; lia). lia.
  - assert ((start - (ts + ONE_MINUTE)) / ONE_MINUTE + 1 ≤ Z.of_nat fuel).
    { replace (start - (ts + ONE_MINUTE)) with ((start - ts) + (-1) * ONE_MINUTE) by lia. rewrite Z.div_add by lia. lia. }
    destruct (is_empty _); [by apply IH|]. destruct (statement _ _ _) as [s1 []]; [by apply IH|done].
Qed.

Lemma registration_total start now k r s : is_Some (register_and_backfill_items start now k r s).
Proof.
  unfold register_and_backfill_items. destruct (statement _ Ok s) as [s0 []]; [|done].
  destruct (get_backfill_and_unknown_items _ _) as [items unknown].
  destruct (if is_empty unknown then _ else _) as [[s2 ins] k2]. destruct ins; [|done].
  destruct (largest_backfill items); [|done]. destruct (round_date_minute _ _ _); [|done]. apply backfill_loop_total. unfold backfill_fuel. lia.
Qed.

Lemma retries_total attempts delay k r s : is_Some (run_with_retries attempts delay k r s).
Proof.
  revert delay k r s. induction attempts as [|a attempts IH]; intros delay k r s; cbn [run_with_retries]; [done|].
  assert (is_Some (run_until_error a delay k r s)) as [[p d] ->].
  { unfold run_until_error. destruct (registration_total (a_start a) (a_now a) k r s) as [p ->]. cbn.
    destruct (outcome p); [|done]. by destruct (round_date_minute _ _ _). }
  cbn. destruct (IH (next_retry_delay d) (sent p) (reached p) (state p)) as [[p2 ds] ->].
  by destruct (outcome p) as [|[]].
Qed.

(** C16: a crontab with a fill period misses no tick and fires none twice,
    through any failures.  However often statements fail, applied or not, and
    the runner waits and starts over: as long as each attempt starts within the
    fill period of what was dealt with before, and not on the very start of a
    minute, every due minute from the registration up to the minute the runner
    has reached, also when a panic ends it there, has its job, and no job is
    there twice.  The waits are between 200 ms and a minute. *)
Theorem cron_misses_no_tick (c : Crontab) fill attempts start s :
  c ∈ crontabs → opt_fill (options c) = Some fill → known s !! identifier c = None → cron_inv s →
  prompt fill attempts MIN_RETRY_DELAY 0 start s →
  ∃ p delays, run attempts start s = Some (p, delays) ∧ NoDup (fired (state p)) ∧
    (∀ r m, known (state p) !! identifier c = Some r → due c m → known_since r ≤ m < reached p →
       (identifier c, m) ∈ fired (state p)) ∧
    Forall (λ d, MIN_RETRY_DELAY ≤ d ≤ MAX_RETRY_DELAY) delays.
Proof.
  intros Hc Hf Hn Hinv Hp. unfold run. destruct (retries_total attempts MIN_RETRY_DELAY 0 start s) as [[p delays] E].
  exists p, delays. split; [done|].
  destruct (retries_cover c Hc fill Hf _ _ _ _ _ _ _ E) as [H1 [H2 _]]; [|done|done|].
  { intros r m Hk. congruence. }
  split_and!; [done| |].
  - intros r m Hk Hd [Hs Hlt]. by apply (H1 r m Hk Hd Hs); left.
  - eapply retries_delays; [|exact E]. by vm_compute.
Qed.

(** The end of daylight saving time stops the cron runner: a clock reading in
    the repeated hour makes the rounding panic, also with [use_local_time] off,
    and the panic goes through [run_with_retries] instead of being retried. *)
Theorem ambiguous_reading_panics now readings ts delay k s :
  ambiguous (whole_minute now false) = true →
  tick_loop (now :: readings) ts delay k s = (mkProgress s k ts (Err Panic), delay) ∧
  ∀ a attempts r p d, run_until_error a delay k r s = Some (p, d) → outcome p = Err Panic →
    run_with_retries (a :: attempts) delay k r s = Some (p, []).
Proof.
  intros Ha. split.
  - cbn [tick_loop]. by rewrite (proj2 (round_date_minute_None ambiguous now false) (or_intror Ha)).
  - intros a attempts r p d E Ho. cbn [run_with_retries]. rewrite E. cbn. by rewrite Ho.
Qed.
End runner.

(** Without faults the loops are those of [CrontabRunner]. *)
Lemma no_faults_backfill calendar ts_text fuel items start ts now k r s :
  (λ p, match outcome p with Ok _ => Ok (state p) | Err (ScheduleError e) => Err (Some e) | Err _ => Err None end)
    <$> backfill_loop calendar ts_text (λ _, None) fuel items start ts now k r s
  = (λ x, match x with Ok s => Ok s | Err e => Err (Some e) end)
    <$> CrontabRunner.backfill_loop calendar ts_text fuel items start ts now s.
Proof.
  revert ts k r s. induction fuel as [|fuel IH]; intros ts k r s; cbn [backfill_loop CrontabRunner.backfill_loop];
    destruct (ts <? start); try done.
  destruct (is_empty _); [apply IH|]. unfold statement. destruct (schedule_cron_jobs _ _ _ s); [apply IH|done].
Qed.

(** ** Witness *)

Definition filled : Crontab :=
  CrontabTypes.mkCrontab default_timer (lit "task") (mkOptions None (Some (fill_minutes 10)) None None None None None) None.
Definition demo_calendar (t : Z) : NaiveDateTime := mkNaive (t / ONE_MINUTE `mod` 60) 0 1 1 1.
(** The reply to the third tick is lost, and the next two attempts fail before
    anything is applied. *)
Definition demo_faults (k : nat) : option Fault :=
  match k with 4%nat => Some ReplyLost | 5%nat | 6%nat => Some NotApplied | _ => None end.
Definition at_ (minutes seconds : Z) : Z := minutes * ONE_MINUTE + seconds * SECOND_US.
Definition demo_attempts : list Attempt :=
  [mkAttempt (at_ 0 30) 0 [at_ 1 0; at_ 2 1; at_ 3 2]; mkAttempt (at_ 3 3) 0 []; mkAttempt (at_ 3 4) 0 [];
   mkAttempt (at_ 6 5) 0 [at_ 6 59; at_ 7 0]].

Lemma cron_misses_no_tick_witness :
  ∃ p delays, run demo_calendar (λ _, []) (λ _, false) [filled] demo_faults demo_attempts (at_ 0 30) demo_start = Some (p, delays) ∧
    fired (state p) = (λ m, (lit "task", at_ m 0)) <$> [1; 2; 3; 4; 5; 6; 7] ∧ reached p = at_ 8 0 ∧
    delays = [200000; 300000; 450000] ∧ NoDup (fired (state p)).
Proof.
  destruct (cron_misses_no_tick demo_calendar (λ _, []) (λ _, false) [filled] demo_faults filled (fill_minutes 10) demo_attempts (at_ 0 30)
    demo_start) as (p & delays & E & Hn & _).
  - left.
  - reflexivity.
  - reflexivity.
  - split; [apply NoDup_nil_2|]. intros i t Hin. by apply elem_of_nil in Hin.
  - vm_compute. repeat split; discriminate.
  - exists p, delays. split; [exact E|]. pose proof E as E'. vm_compute in E'. injection E' as <- <-.
    split_and!; [by vm_compute..|exact Hn].
Defined.

End CronRun.
