(* ===== verification/Runner.v ===== *)
(** * Running and releasing one job (src/runner: errors.rs, task_execution.rs,
    job_execution, release, recovery_release.rs)

    What a worker slot does with a job it holds: the hooks around the handler,
    the handler raced against the shutdown grace period, and the statement,
    batch request, wakeup and hook its result leads to.  A handler is the
    time it takes and how it ends; statements end with a [Batcher.Outcome].
    Times of a run are nanoseconds of the process clock, timestamps of
    statements microseconds. *)

From S2P Require Import Prelude Job Database FlagFilter JobStore JobRelease Hooks TaskHandler.
From S2P Require Import Batcher Recovery.
Open Scope Z_scope.

Module Runner.
Import Job FlagFilter JobStore JobRelease Hooks TaskHandler Batcher Recovery.

(** ** errors.rs *)

Inductive RunJobError :=
| IdentifierNotFound (task_id : Z)
| FnNotFound (identifier : str)
| TaskPanic (message : str)
| TaskError (message : str)
| TaskErrorWithReplacement (message : str) (replacement_payload : Value)
| TaskAborted.

Definition hex_digit (d : Z) : char := if d <? 10 then 48 + d else 87 + d.

(** Lower-case hexadecimal; a scalar value has at most six digits. *)
Fixpoint hex_fuel (fuel : nat) (n : Z) : str :=
  match fuel with
  | O => []
  | S fuel =>
      if n <? 16 then [hex_digit n] else hex_fuel fuel (n / 16) ++ [hex_digit (n `mod` 16)]
  end.
Definition hex (n : Z) : str := hex_fuel 6 n.

(** [Debug for i32]. *)
Definition debug_i32 (n : Z) : str := if n <? 0 then lit "-" ++ dec (- n) else dec n.

Section text.
(** The characters [Debug for str] writes as [\u{..}]: grapheme extenders and
    unprintable ones, from the Unicode tables. *)
Context (escaped : char → bool).

Definition escape_debug (c : char) : str :=
  if c =? 0 then lit "\0"
  else if c =? 9 then lit "\t"
  else if c =? 13 then lit "\r"
  else if c =? 10 then lit "\n"
  else if (c =? 34) || (c =? 92) then [92; c]
  else if escaped c then lit "\u{" ++ hex c ++ lit "}"
  else [c].

(** [Debug for str]. *)
Definition debug_str (s : str) : str := [34] ++ (s ≫= escape_debug) ++ [34].

(** The derived [Debug], with the payload redacted. *)
Definition debug_error (e : RunJobError) : str :=
  match e with
  | IdentifierNotFound n => lit "IdentifierNotFound(" ++ debug_i32 n ++ lit ")"
  | FnNotFound s => lit "FnNotFound(" ++ debug_str s ++ lit ")"
  | TaskPanic s => lit "TaskPanic(" ++ debug_str s ++ lit ")"
  | TaskError s => lit "TaskError(" ++ debug_str s ++ lit ")"
  | TaskErrorWithReplacement s _ =>
      lit "TaskErrorWithReplacement { message: " ++ debug_str s
      ++ lit ", replacement_payload: [redacted] }"
  | TaskAborted => lit "TaskAborted"
  end.

Definition persisted_error (e : RunJobError) : str :=
  match e with
  | TaskErrorWithReplacement message _ => lit "TaskError(" ++ debug_str message ++ lit ")"
  | _ => debug_error e
  end.
End text.

Definition replacement_payload (e : RunJobError) : option Value :=
  match e with TaskErrorWithReplacement _ v => Some v | _ => None end.

(** The error of the release and how its statement ended. *)
Record ReleaseJobError := mkReleaseError { err_job_id : Z; err_source : Outcome }.

(** ** The worker *)

(** [Box<dyn Any>], as [panic_payload_to_string] downcasts it. *)
Inductive PanicPayload := StaticStr (s : str) | OwnedString (s : str) | OtherPayload.

Definition panic_payload_to_string (p : PanicPayload) : str :=
  match p with
  | StaticStr message => message
  | OwnedString message => message
  | OtherPayload => lit "task panicked"
  end.

Inductive TaskEnd := Returned (o : TaskHandlerOutcome) | Panicked (p : PanicPayload).

(** A handler: how long it runs and how it ends; [None] if it never ends. *)
Abbreviation WorkerFn := (Job → option (Z * TaskEnd)).

Record BeforeJobRunContext := mkBefore {
  before_job : Job; before_worker_id : str; before_payload : Value
}.
Record AfterJobRunContext := mkAfter {
  after_job : Job; after_worker_id : str; after_result : result unit str; after_duration : Z
}.
Record JobRecoveryContext := mkRecovery {
  rec_job : Job; rec_worker_id : str; rec_previous_worker_id : str; rec_reason : FailureReason
}.

(** The interceptors of the three events a run asks, and whether any other
    event has a handler. *)
Record HookRegistry := mkHooks {
  on_before_job_run : option (list (BeforeJobRunContext → HookResult));
  on_after_job_run : option (list (AfterJobRunContext → HookResult));
  on_job_recovery : option (list (JobRecoveryContext → JobRecoveryResult));
  other_handlers : bool
}.

Definition hooks_is_empty (h : HookRegistry) : bool :=
  match on_before_job_run h, on_after_job_run h, on_job_recovery h with
  | None, None, None => negb (other_handlers h)
  | _, _, _ => false
  end.

Definition no_hooks : HookRegistry := mkHooks None None None false.

(** Contexts passed to [emit]. *)
Inductive HookEvent :=
| JobFetchEvent (job : Job)
| JobStartEvent (job : Job)
| JobCompleteEvent (job : Job) (duration : Z)
| JobFailEvent (c : FailureContext)
| JobInterruptedEvent (job : Job) (reason : FailureReason).

(** [emit] runs nothing on an empty registry. *)
Definition emit (h : HookRegistry) (e : HookEvent) : list HookEvent :=
  if hooks_is_empty h then [] else [e].

(** A batcher's channel. *)
Inductive Channel := ChannelOpen | ChannelClosed.

Record WorkerRunner := mkRunner {
  worker_id : str;
  handlers : gmap str WorkerFn;
  task_details : TaskDetails;
  job_flag_filter : JobFlagFilter;
  hooks : HookRegistry;
  completion_batcher : option Channel;
  failure_batcher : option Channel;
  grace_period : Z;
  interrupted_job_retry_delay : Z
}.

(** ** task_execution.rs *)

(** [select_biased!] between the task and the timeout, polled whenever one of
    them is ready: the task wins a tie. *)
Definition select_biased {A} (task : option (Z * A)) (timeout : option Z) : option (Z * option A) :=
  match task, timeout with
  | Some (t, a), Some d => Some (if t <=? d then (t, Some a) else (d, None))
  | Some (t, a), None => Some (t, Some a)
  | None, Some d => Some (d, None)
  | None, None => None
  end.

Definition task_result (e : TaskEnd) : result unit RunJobError :=
  match e with
  | Returned Complete => Ok tt
  | Returned (Failed error (Some v)) => Err (TaskErrorWithReplacement error v)
  | Returned (Failed error None) => Err (TaskError error)
  | Panicked p => Err (TaskPanic (panic_payload_to_string p))
  end.

(** The end of the grace period, counted from the signal. *)
Definition shutdown_timeout (worker : WorkerRunner) (start : Z) (shutdown : option Z) : option Z :=
  (λ s, Z.max start s + grace_period worker) <$> shutdown.

(** The time the run ends and its result; [None] if it never ends. *)
Definition run_job (job : Job) (worker : WorkerRunner) (start : Z) (shutdown : option Z) :
    option (Z * result unit RunJobError) :=
  if is_empty (task_identifier job) then Some (start, Err (IdentifierNotFound (task_id job)))
  else
    match handlers worker !! task_identifier job with
    | None => Some (start, Err (FnNotFound (task_identifier job)))
    | Some task_fn =>
        let job_task := (λ te, (start + te.1, te.2)) <$> task_fn job in
        (λ te, (te.1, match te.2 with Some e => task_result e | None => Err TaskAborted end))
          <$> select_biased job_task (shutdown_timeout worker start shutdown)
    end.

Section run.
Context (escaped : char → bool) (exp_secs : Z → Z).

(** ** job_execution/hooks.rs *)

Definition before_job_run (job : Job) (worker : WorkerRunner) : HookResult :=
  (intercept (on_before_job_run (hooks worker)) (mkBefore job (worker_id worker) (payload job))).1.

Definition after_job_run (job : Job) (worker : WorkerRunner) (r : result unit RunJobError)
    (duration : Z) : HookResult :=
  (intercept (on_after_job_run (hooks worker))
     (mkAfter job (worker_id worker) (map_err (debug_error escaped) r) duration)).1.

(** A run: its result, its duration and the emitted events. *)
Definition Run : Type := result unit RunJobError * Z * list HookEvent.

Definition run_with_after_hook (job : Job) (worker : WorkerRunner) (start : Z) (shutdown : option Z) :
    option Run :=
  '(stop, r) ← run_job job worker start shutdown;
  let duration := stop - start in
  Some (match after_job_run job worker r duration with
        | Continue => r
        | Skip => Ok tt
        | Fail msg => Err (TaskError msg)
        end, duration, emit (hooks worker) (JobStartEvent job)).

Definition run_job_with_hooks (job : Job) (worker : WorkerRunner) (start : Z) (shutdown : option Z) :
    option Run :=
  if hooks_is_empty (hooks worker) then
    '(stop, r) ← run_job job worker start shutdown; Some (r, stop - start, [])
  else
    match before_job_run job worker with
    | Continue => run_with_after_hook job worker start shutdown
    | Skip => Some (Ok tt, 0, [])
    | Fail msg => Some (Err (TaskError msg), 0, [])
    end.

(** ** What a release changes *)

(** The tables, the count given to [queue_wakeup.wake], the emitted events and
    the requests accepted by the batchers. *)
Record World := mkWorld {
  tables_of : Db;
  wakeups : nat;
  events : list HookEvent;
  completions : list CompletionRequest;
  failures : list FailureRequest
}.

Definition with_tables (w : World) (db : Db) : World :=
  mkWorld db (wakeups w) (events w) (completions w) (failures w).
Definition emit_all (w : World) (es : list HookEvent) : World :=
  mkWorld (tables_of w) (wakeups w) (events w ++ es) (completions w) (failures w).
Definition wake (w : World) (n : nat) : World :=
  mkWorld (tables_of w) (wakeups w + n) (events w) (completions w) (failures w).
Definition request_completion (w : World) (r : CompletionRequest) : World :=
  mkWorld (tables_of w) (wakeups w) (events w) (completions w ++ [r]) (failures w).
Definition request_failure (w : World) (r : FailureRequest) : World :=
  mkWorld (tables_of w) (wakeups w) (events w) (completions w) (failures w ++ [r]).

(** A direct call to a batcher whose channel is closed. *)
Definition apply_effect {E} (to_event : E → HookEvent) (w : World) (e : Effect E) : World :=
  emit_all (wake (with_tables w (tables e)) (woken e)) (to_event <$> emitted e).

Definition released (job : Job) (o : Outcome) (ok : bool) : result unit ReleaseJobError :=
  if ok then Ok tt else Err (mkReleaseError (id job) o).

(** [if job.job_queue_id().is_some() { wake(1) }]. *)
Definition wake_queue (job : Job) (w : World) : World :=
  if has_queue job then wake w 1 else w.

(** ** release/completion.rs *)

Definition release_completed_job (o : Outcome) (job : Job) (worker : WorkerRunner) (duration : Z)
    (w : World) : World * result unit ReleaseJobError :=
  match completion_batcher worker with
  | Some channel =>
      let req := mkCompletion (id job) (has_queue job) job duration in
      match channel with
      | ChannelOpen => (request_completion w req, Ok tt)
      | ChannelClosed =>
          let '(e, ok) := complete_closed (negb (hooks_is_empty (hooks worker))) o
                            (worker_id worker) req (tables_of w) in
          (apply_effect (λ r, JobCompleteEvent (req_job r) (JobRelease.duration r)) w e,
           released job o ok)
      end
  | None =>
      let '(db, ok) := execute o (complete_job job (worker_id worker)) (tables_of w) in
      let w1 := with_tables w db in
      if ok then
        (emit_all (wake_queue job w1) (emit (hooks worker) (JobCompleteEvent job duration)), Ok tt)
      else (w1, released job o false)
  end.

(** ** recovery_release.rs, recovery/src/job_recovery.rs *)

(** [apply_job_recovery] on the pool: each statement commits on its own and
    the first failing one ends it. *)
Definition apply_job_recovery_direct (o1 o2 : Outcome) (action : JobRecoveryResult) (job : Job)
    (previous_worker_id : str) (reason : FailureReason) (delay now1 now2 : Z) (db : Db) :
    Db * result JobRecoveryOutcome Outcome :=
  match action with
  | RecoveryDefault =>
      let '(db1, ok) := execute o1 (return_job_for_recovery job previous_worker_id (Some delay)
                                      (Some RECOVERY_LAST_ERROR) now1) db in
      (db1, if ok then Ok Recovered else Err o1)
  | Reschedule run_at_ attempts_ =>
      let '(db1, ok1) := execute o1 (return_job_for_recovery job previous_worker_id None
                                       (Some RECOVERY_LAST_ERROR) now1) db in
      if ok1 then
        let '(db2, ok2) := execute o2 (set_recovered_job_schedule (id job) run_at_ attempts_ now2) db1 in
        (db2, if ok2 then Ok Recovered else Err o2)
      else (db1, Err o1)
  | FailWithBackoff =>
      let '(db1, ok) := execute o1 (fail_job exp_secs now1 job previous_worker_id
                                      (reason_text reason) None) db in
      (db1, if ok then Ok FailedWithBackoff else Err o1)
  | RecoverySkip => (db, Ok Skipped)
  end.

Definition recovery_action (job : Job) (worker : WorkerRunner) : JobRecoveryResult :=
  if hooks_is_empty (hooks worker) then RecoveryDefault
  else (intercept (on_job_recovery (hooks worker))
          (mkRecovery job (worker_id worker) (worker_id worker) ShutdownAborted)).1.

Definition recover_shutdown_aborted_job (o1 o2 : Outcome) (now1 now2 : Z) (job : Job)
    (worker : WorkerRunner) (w : World) : World * result unit ReleaseJobError :=
  let '(db, r) := apply_job_recovery_direct o1 o2 (recovery_action job worker) job (worker_id worker)
                    ShutdownAborted (interrupted_job_retry_delay worker) now1 now2 (tables_of w) in
  let w1 := with_tables w db in
  match r with
  | Err o => (w1, Err (mkReleaseError (id job) o))
  | Ok outcome =>
      (if was_handled outcome
       then emit_all w1 (emit (hooks worker) (JobInterruptedEvent job ShutdownAborted)) else w1, Ok tt)
  end.

(** ** release/failure.rs *)

Definition release_failed_job (o1 o2 : Outcome) (now1 now2 : Z) (error : RunJobError) (job : Job)
    (worker : WorkerRunner) (w : World) : World * result unit ReleaseJobError :=
  match error with
  | TaskAborted => recover_shutdown_aborted_job o1 o2 now1 now2 job worker w
  | _ =>
      let message := persisted_error escaped error in
      let will_retry := attempts job <? max_attempts job in
      let req := mkFailure job message will_retry in
      let persist_direct :=
        let '(db, ok) := execute o1 (fail_job exp_secs now1 job (worker_id worker) message
                                       (replacement_payload error)) (tables_of w) in
        let w1 := with_tables w db in
        if ok then
          (emit_all (wake_queue job w1) (emit (hooks worker) (JobFailEvent (failure_context req))), Ok tt)
        else (w1, released job o1 false) in
      match replacement_payload error, failure_batcher worker with
      | None, Some ChannelOpen => (request_failure w req, Ok tt)
      | None, Some ChannelClosed =>
          let '(e, ok) := fail_closed exp_secs (λ _, o1) (λ _, now1) (worker_id worker)
                            (negb (hooks_is_empty (hooks worker))) req (tables_of w) in
          (apply_effect JobFailEvent w e, released job o1 ok)
      | _, _ => persist_direct
      end
  end.

(** ** release/mod.rs, job_execution/mod.rs *)

Definition release_job (o1 o2 : Outcome) (now1 now2 : Z) (r : result unit RunJobError) (job : Job)
    (worker : WorkerRunner) (duration : Z) (w : World) : World * result unit ReleaseJobError :=
  match r with
  | Ok _ => release_completed_job o1 job worker duration w
  | Err error => release_failed_job o1 o2 now1 now2 error job worker w
  end.

(** The circumstances of one run: when it starts, when shutdown is signalled,
    the outcomes and timestamps of up to two statements, and what other
    sessions make of the tables between the claim and the release. *)
Record Env := mkEnv {
  start : Z; shutdown_at : option Z; outcome1 : Outcome; outcome2 : Outcome; now1 : Z; now2 : Z;
  meanwhile : Db → Db
}.

Definition run_and_release_job (env : Env) (job : Job) (worker : WorkerRunner) (w : World) :
    option (World * result unit ReleaseJobError) :=
  '(r, duration, es) ← run_job_with_hooks job worker (start env) (shutdown_at env);
  Some (release_job (outcome1 env) (outcome2 env) (now1 env) (now2 env) r job worker duration
          (emit_all w es)).

Inductive ProcessJobError := ReleaseError (e : ReleaseJobError) | GetJobError (o : Outcome).

(** [process_one_job]: the claim, whose reply may also be lost, then the run,
    while other sessions go on. *)
Inductive process_one_job (con : Concurrent) (clock : Z) (now : option Z) (env : Env)
    (worker : WorkerRunner) (w : World) : World → result (option Job) ProcessJobError → Prop :=
| process_rolled_back :
    process_one_job con clock now env worker w w (Err (GetJobError RolledBack))
| process_reply_lost db j :
    get_job_with_filter con clock (task_details worker) (worker_id worker) (job_flag_filter worker) now
      (tables_of w) db j →
    process_one_job con clock now env worker w (with_tables w db) (Err (GetJobError ReplyLost))
| process_none db :
    get_job_with_filter con clock (task_details worker) (worker_id worker) (job_flag_filter worker) now
      (tables_of w) db None →
    process_one_job con clock now env worker w (with_tables w db) (Ok None)
| process_some db job w' r :
    get_job_with_filter con clock (task_details worker) (worker_id worker) (job_flag_filter worker) now
      (tables_of w) db (Some job) →
    run_and_release_job env job worker
      (emit_all (with_tables w (meanwhile env db)) (emit (hooks worker) (JobFetchEvent job))) = Some (w', r) →
    process_one_job con clock now env worker w w'
      (match r with Ok _ => Ok (Some job) | Err e => Err (ReleaseError e) end).
End run.

(** ** The end of a run *)

Lemma task_result_not_aborted e : task_result e ≠ Err TaskAborted.
Proof. by destruct e as [[|? []]|]. Qed.

(** Whether the handler of a job ends, and by when. *)
Definition registered (worker : WorkerRunner) (job : Job) (f : WorkerFn) : Prop :=
  task_identifier job ≠ [] ∧ handlers worker !! task_identifier job = Some f.

Lemma run_job_unregistered (job : Job) worker start_ shutdown :
  (¬ ∃ f, registered worker job f) →
  ∃ e, run_job job worker start_ shutdown = Some (start_, Err e) ∧ e ≠ TaskAborted.
Proof.
  intros Hn. unfold run_job. destruct (task_identifier job) as [|c l] eqn:Hid; cbn [is_empty]; [by eexists|].
  destruct (handlers worker !! (c :: l)) as [f|] eqn:Hf; [|by eexists].
  destruct Hn. exists f. unfold registered. by rewrite Hid.
Qed.

Lemma run_job_registered (job : Job) worker f start_ shutdown :
  registered worker job f →
  run_job job worker start_ shutdown
  = (λ te : Z * option TaskEnd, (te.1, match te.2 with Some e => task_result e | None => Err TaskAborted end))
      <$> select_biased ((λ te : Z * TaskEnd, (start_ + te.1, te.2)) <$> f job)
            (shutdown_timeout worker start_ shutdown).
Proof. intros [Hid Hf]. unfold run_job. rewrite Hf. by destruct (task_identifier job). Qed.

Lemma run_job_with_hooks_ends escaped (job : Job) worker start_ shutdown :
  is_Some (run_job job worker start_ shutdown) →
  is_Some (run_job_with_hooks escaped job worker start_ shutdown).
Proof.
  intros [[t r] E]. unfold run_job_with_hooks, run_with_after_hook. rewrite E. cbn.
  destruct (hooks_is_empty _); [by eexists|]. destruct (before_job_run job worker); by eexists.
Qed.

(** C33: Once shutdown is signalled every run ends, hooks included, and the
    handler within the grace period: a handler that ends in time, be it
    together with the grace period, keeps its own result, and any other is
    aborted when the grace period ends.  Without a signal nothing is aborted. *)
Theorem shutdown_bounds_runs escaped (job : Job) worker start_ s :
  0 ≤ grace_period worker →
  let deadline := Z.max start_ s + grace_period worker in
  is_Some (run_job_with_hooks escaped job worker start_ (Some s)) ∧
  (∃ t r, run_job job worker start_ (Some s) = Some (t, r) ∧ t ≤ deadline ∧
     (r = Err TaskAborted → ∃ f, registered worker job f)) ∧
  (∀ f d e, registered worker job f → f job = Some (d, e) → start_ + d ≤ deadline →
     run_job job worker start_ (Some s) = Some (start_ + d, task_result e) ∧
     task_result e ≠ Err TaskAborted) ∧
  (∀ f, registered worker job f → (∀ d e, f job = Some (d, e) → deadline < start_ + d) →
     run_job job worker start_ (Some s) = Some (deadline, Err TaskAborted)) ∧
  (∀ t, run_job job worker start_ None ≠ Some (t, Err TaskAborted)).
Proof.
  intros Hg deadline.
  assert (∃ t r, run_job job worker start_ (Some s) = Some (t, r) ∧ t ≤ deadline ∧
    (r = Err TaskAborted → ∃ f, registered worker job f)) as Hends.
  { destruct (handlers worker !! task_identifier job) as [f|] eqn:Hf;
      [destruct (decide (task_identifier job = [])) as [Hid|Hid]|].
    2:{ assert (registered worker job f) as Hr by done. rewrite (run_job_registered job worker f) by done.
        cbn [shutdown_timeout fmap option_fmap option_map]. fold deadline.
        destruct (f job) as [[d e]|]; cbn [select_biased fmap option_fmap option_map fst snd];
          [destruct (Z.leb_spec (start_ + d) deadline)|]; eexists _, _; split_and!; try done; try lia; by exists f. }
    all: destruct (run_job_unregistered job worker start_ (Some s)) as (e & -> & He);
      [intros (f' & ? & ?); congruence|]; eexists _, _; split_and!; [done|unfold deadline; lia|congruence]. }
  split_and!; [|done| | |].
  - apply run_job_with_hooks_ends. destruct Hends as (t & r & -> & _). by eexists.
  - intros f d e Hr Hd Hle. rewrite (run_job_registered job worker f), Hd by done.
    cbn [shutdown_timeout fmap option_fmap option_map select_biased fst snd]. fold deadline.
    destruct (Z.leb_spec (start_ + d) deadline); [|lia]. split; [done|apply task_result_not_aborted].
  - intros f Hr Hlate. rewrite (run_job_registered job worker f) by done.
    cbn [shutdown_timeout fmap option_fmap option_map]. fold deadline.
    destruct (f job) as [[d e]|]; cbn [select_biased fmap option_fmap option_map fst snd]; [|done].
    specialize (Hlate d e eq_refl). by destruct (Z.leb_spec (start_ + d) deadline); [lia|].
  - intros t Hrun. destruct (handlers worker !! task_identifier job) as [f|] eqn:Hf;
      [destruct (decide (task_identifier job = [])) as [Hid|Hid]|].
    2:{ rewrite (run_job_registered job worker f) in Hrun by done. destruct (f job) as [[d e]|]; cbn in Hrun; [|done].
        injection Hrun as _ He. by destruct (task_result_not_aborted e). }
    all: destruct (run_job_unregistered job worker start_ None) as (e & E & He);
      [intros (f' & ? & ?); congruence|]; congruence.
Qed.

(** ** What a release does *)

Section release.
Context (escaped : char → bool) (exp_secs : Z → Z) (o1 o2 : Outcome) (t1 t2 : Z)
        (job : Job) (worker : WorkerRunner).

(** The statement of a release, on the tables. *)
Definition release_statements (r : result unit RunJobError) (db : Db) : Db * bool :=
  match r with
  | Ok _ => execute o1 (complete_job job (worker_id worker)) db
  | Err TaskAborted =>
      let p := apply_job_recovery_direct exp_secs o1 o2 (recovery_action job worker) job
                 (worker_id worker) ShutdownAborted (interrupted_job_retry_delay worker) t1 t2 db in
      (p.1, is_ok p.2)
  | Err e =>
      execute o1 (fail_job exp_secs t1 job (worker_id worker) (persisted_error escaped e)
                    (replacement_payload e)) db
  end.

(** The batcher that takes the release over, if its channel is open. *)
Definition batched (r : result unit RunJobError) : bool :=
  match r with
  | Ok _ => match completion_batcher worker with Some ChannelOpen => true | _ => false end
  | Err TaskAborted => false
  | Err e =>
      match replacement_payload e, failure_batcher worker with
      | None, Some ChannelOpen => true
      | _, _ => false
      end
  end.

(** The event of an acknowledged release. *)
Definition release_event (r : result unit RunJobError) (duration : Z) : option HookEvent :=
  match r with
  | Ok _ => Some (JobCompleteEvent job duration)
  | Err TaskAborted =>
      match recovery_action job worker with
      | RecoverySkip => None
      | _ => Some (JobInterruptedEvent job ShutdownAborted)
      end
  | Err e =>
      Some (JobFailEvent (failure_context
        (mkFailure job (persisted_error escaped e) (attempts job <? max_attempts job))))
  end.

Definition release_wakes (r : result unit RunJobError) : nat :=
  match r with
  | Err TaskAborted => 0
  | _ => if has_queue job then 1 else 0
  end.

Local Ltac world_eq :=
  unfold apply_effect, wake_queue, emit, released, complete_job, fail_job; cbn;
  destruct (hooks_is_empty (hooks worker)), (has_queue job);
  unfold emit_all, wake, with_tables; cbn; rewrite ?app_nil_r, ?Nat.add_0_r; reflexivity.

(** A release that no open batcher takes over. *)
Lemma release_job_direct r duration w :
  batched r = false →
  let '(db, ok) := release_statements r (tables_of w) in
  release_job escaped exp_secs o1 o2 t1 t2 r job worker duration w
  = (if ok then
       emit_all (wake (with_tables w db) (release_wakes r))
         (default [] (emit (hooks worker) <$> release_event r duration))
     else with_tables w db,
     if ok then Ok tt else Err (mkReleaseError (id job)
       (match r with
        | Err TaskAborted => match recovery_action job worker with
                             | Reschedule _ _ => if decide (o1 = Acknowledged) then o2 else o1
                             | _ => o1 end
        | _ => o1
        end))).
Proof.
  intros Hb. destruct r as [[]|[n|s|s|s|s v|]]; cbn in Hb |- *.
  1: unfold release_completed_job; destruct (completion_batcher worker) as [[]|]; [done| |].
  8: { unfold recover_shutdown_aborted_job, apply_job_recovery_direct.
       destruct (recovery_action job worker); destruct o1; try destruct o2; world_eq. }
  all: try (destruct (failure_batcher worker) as [[]|]; [done| |]).
  all: destruct o1; cbn; rewrite ?negb_involutive; world_eq.
Qed.

End release.

(** ** What a release touches *)

(** Nothing but row [i], its retirement marker and the queues [w] holds differs. *)
Definition only_touches (w : str) (i : Z) (db db' : Db) : Prop :=
  (∀ k, k ≠ i → jobs db' !! k = jobs db !! k) ∧
  (∀ q r, job_queues db !! q = Some r → queue_locked_by r ≠ Some w → job_queues db' !! q = Some r) ∧
  tasks db' = tasks db ∧ workers db' = workers db.

Lemma only_touches_refl w i db : only_touches w i db db.
Proof. by split_and!. Qed.

Lemma only_touches_trans w i db1 db2 db3 :
  only_touches w i db1 db2 → only_touches w i db2 db3 → only_touches w i db1 db3.
Proof.
  intros (J1 & Q1 & T1 & W1) (J2 & Q2 & T2 & W2). split_and!; [|by eauto|congruence..].
  intros k Hk. by rewrite J2, J1.
Qed.

Lemma only_touches_update w i db p f :
  (∀ k x, p k x = true → k = i) → only_touches w i db (with_jobs db (update_where p f (jobs db))).
Proof.
  intros Hp. split_and!; [|done..]. intros k Hk. cbn. rewrite lookup_update_where.
  destruct (jobs db !! k) as [x|]; [|done]. cbn. destruct (p k x) eqn:E; [|done]. by apply Hp in E.
Qed.

Lemma only_touches_queues w i db db' js :
  only_touches w i db db' → job_queues db' = job_queues db →
  only_touches w i db (with_queues db' (release_queues w js (job_queues db))).
Proof.
  intros (J & Q & T & W) Hq. split_and!; [done| |done..]. intros q r Hr Hw. cbn.
  rewrite release_queues_lookup, Hr. cbn. by rewrite (bool_decide_eq_false_2 _ Hw), andb_false_r.
Qed.

Lemma complete_job_touches (job : Job) w db : only_touches w (id job) db (complete_job job w db).
Proof.
  assert (only_touches w (id job) db (delete_jobs (λ i _, bool_decide (i = id job)) db)) as H.
  { split_and!; [|done..]. intros k Hk. cbn. apply option_eq. intros r. rewrite delete_where_Some.
    rewrite (bool_decide_eq_false_2 _ Hk). naive_solver. }
  unfold complete_job, complete_one. destruct (has_queue job); [by apply only_touches_queues|done].
Qed.

Lemma fail_job_touches exp_secs now (job : Job) w e repl db :
  only_touches w (id job) db (fail_job exp_secs now job w e repl db).
Proof.
  unfold fail_job, fail_one. destruct (has_queue job); [apply only_touches_queues; [|done]|];
    apply only_touches_update; by intros k x [?%bool_decide_eq_true _]%andb_true_iff.
Qed.

Lemma private_return_touches w i ms e rec now db :
  only_touches w i db (private_return_jobs w [i] ms e rec now db).
Proof.
  unfold private_return_jobs. apply only_touches_queues; [|done]. apply only_touches_update.
  intros k x [Hk%bool_decide_eq_true _]%andb_true_iff. by apply list_elem_of_singleton in Hk.
Qed.

Lemma set_schedule_touches w i ra at_ now db :
  only_touches w i db (set_recovered_job_schedule i ra at_ now db).
Proof. apply only_touches_update. by intros k x ?%bool_decide_eq_true. Qed.

(** ** Which statements give the row up *)

Lemma complete_job_unowns (job : Job) w db : unowned w (id job) (complete_job job w db).
Proof.
  intros j. unfold complete_job, complete_one. destruct (has_queue job); cbn;
    intros [_ Hn%bool_decide_eq_false]%delete_where_Some; done.
Qed.

Lemma private_return_unowns w i ms e rec now db :
  unowned w i (private_return_jobs w [i] ms e rec now db).
Proof.
  intros j. cbn. rewrite lookup_update_where, fmap_Some. intros (r & _ & ->).
  rewrite bool_decide_eq_true_2 by set_solver. cbn. unfold owned_by. by case_bool_decide.
Qed.

Lemma set_schedule_unowned w i k ra at_ now db :
  unowned w i db → unowned w i (set_recovered_job_schedule k ra at_ now db).
Proof.
  intros Hu j. cbn. rewrite lookup_update_where, fmap_Some. intros (r & Hr & ->).
  specialize (Hu r Hr). by destruct (bool_decide (i = k)).
Qed.

Create HintDb release.
#[local] Hint Resolve only_touches_refl complete_job_touches fail_job_touches
  private_return_touches set_schedule_touches complete_job_unowns fail_job_unowns
  private_return_unowns set_schedule_unowned : release.

Lemma release_statements_spec escaped exp_secs o1 o2 t1 t2 (job : Job) worker r db :
  let '(db', ok) := release_statements escaped exp_secs o1 o2 t1 t2 job worker r db in
  only_touches (worker_id worker) (id job) db db' ∧
  (ok = true → unowned (worker_id worker) (id job) db' ∨
     r = Err TaskAborted ∧ recovery_action job worker = RecoverySkip ∧ db' = db) ∧
  (o1 = RolledBack → db' = db).
Proof.
  unfold release_statements, apply_job_recovery_direct, return_job_for_recovery.
  destruct r as [[]|[]]; [..|destruct (recovery_action job worker)];
    destruct o1; try destruct o2; cbn [execute is_ok fst snd];
    (split_and!; [first [by auto with release|eapply only_touches_trans; [apply private_return_touches|apply set_schedule_touches]]|
                  intros ?; first [done|left; by auto with release|by right]|by intros]).
Qed.

Lemma release_job_batched escaped exp_secs o1 o2 t1 t2 (job : Job) worker r duration w :
  batched worker r = true →
  release_job escaped exp_secs o1 o2 t1 t2 r job worker duration w
  = (match r with
     | Ok _ => request_completion w (mkCompletion (id job) (has_queue job) job duration)
     | Err e => request_failure w (mkFailure job (persisted_error escaped e)
                                     (attempts job <? max_attempts job))
     end, Ok tt).
Proof.
  intros Hb. destruct r as [[]|[]]; cbn in Hb |- *; unfold release_completed_job;
    repeat case_match; by simplify_eq/=.
Qed.

(** Releasing a job tells the truth.  Only the job's row and queues the
    worker holds change.  A result taken over by an open batcher leaves the
    tables alone and is queued exactly once.  Otherwise, when the release
    reports success, the worker no longer holds the row (unless a recovery hook
    asked to skip it), and exactly then the wakeup and the hook of that result
    happen, once; when it reports an error, it names the job and nothing is
    woken, emitted or queued, and after a rollback the tables are as before. *)
Theorem release_truthful escaped exp_secs o1 o2 t1 t2 (job : Job) worker r duration w :
  let '(w', res) := release_job escaped exp_secs o1 o2 t1 t2 r job worker duration w in
  only_touches (worker_id worker) (id job) (tables_of w) (tables_of w') ∧
  (if batched worker r then
     res = Ok tt ∧
     w' = match r with
          | Ok _ => request_completion w (mkCompletion (id job) (has_queue job) job duration)
          | Err e => request_failure w (mkFailure job (persisted_error escaped e)
                                          (attempts job <? max_attempts job))
          end
   else
     completions w' = completions w ∧ failures w' = failures w ∧
     (o1 = RolledBack → tables_of w' = tables_of w) ∧
     match res with
     | Ok _ =>
         (unowned (worker_id worker) (id job) (tables_of w') ∨
          r = Err TaskAborted ∧ recovery_action job worker = RecoverySkip ∧
          tables_of w' = tables_of w) ∧
         wakeups w' = (wakeups w + release_wakes job r)%nat ∧
         events w' = events w ++ default [] (emit (hooks worker) <$> release_event escaped job worker r duration)
     | Err e => err_job_id e = id job ∧ wakeups w' = wakeups w ∧ events w' = events w
     end).
Proof.
  destruct (batched worker r) eqn:Hb.
  - rewrite release_job_batched by done. by destruct r.
  - pose proof (release_job_direct escaped exp_secs o1 o2 t1 t2 job worker r duration w Hb) as Hd.
    pose proof (release_statements_spec escaped exp_secs o1 o2 t1 t2 job worker r (tables_of w)) as Hs.
    destruct (release_statements _ _ _ _ _ _ _ _ _ _) as [db ok]. rewrite Hd. clear Hd.
    destruct Hs as (Ht & Hu & Hr). destruct ok; cbn; naive_solver.
Qed.

(** ** Claim, run, release *)

(** The tables after a job was processed, from the tables before it was
    claimed: [old] is its row then. *)
Definition processed escaped exp_secs (env : Env) (worker : WorkerRunner) (job : Job) (t : Z)
    (old : DbJob) (r : result unit RunJobError) (db : Db) : Db :=
  let set_row j := with_jobs db (<[id job := j]> (jobs db)) in
  let claimed_row := lock_job (worker_id worker) t old in
  match r with
  | Ok _ => delete_jobs (λ i _, bool_decide (i = id job)) db
  | Err TaskAborted =>
      match recovery_action job worker with
      | RecoveryDefault =>
          set_row (mark_returned (retirements db) (now1 env)
                     (Some (duration_as_millis_i64 (interrupted_job_retry_delay worker)))
                     (Some RECOVERY_LAST_ERROR) true claimed_row)
      | Reschedule run_at_ attempts_ =>
          set_row (set_schedule run_at_ attempts_ (now2 env)
                     (mark_returned (retirements db) (now1 env) None (Some RECOVERY_LAST_ERROR) true claimed_row))
      | FailWithBackoff =>
          set_row (mark_failed exp_secs (now1 env) (reason_text ShutdownAborted) None claimed_row)
      | RecoverySkip => apply_claim (worker_id worker) t [(id job, old)] db
      end
  | Err e =>
      set_row (mark_failed exp_secs (now1 env) (persisted_error escaped e) (replacement_payload e) claimed_row)
  end.

(** Acknowledged statements after a claim. *)
Lemma statements_after_claim escaped exp_secs con tids filt t (env : Env) worker (job : Job) old r db :
  keyed db → clean db → claimed con tids filt t db [(id job, old)] →
  job_row job = lock_job (worker_id worker) t old →
  let p := release_statements escaped exp_secs (outcome1 env) (outcome2 env) (now1 env) (now2 env)
             job worker r (apply_claim (worker_id worker) t [(id job, old)] db) in
  p.2 = true → p.1 = processed escaped exp_secs env worker job t old r db.
Proof.
  intros Hk Hc Hcl Hrow. unfold processed, release_statements, apply_job_recovery_direct, return_job_for_recovery.
  destruct r as [[]|e].
  - destruct (outcome1 env); cbn [execute fst snd]; try done. intros _.
    by apply (complete_after_claim (worker_id worker) Hk Hc Hcl).
  - destruct e; [..|destruct (recovery_action job worker); [| | |done]];
      destruct (outcome1 env), (outcome2 env); cbn [execute fst snd is_ok]; try done; intros _;
      try by apply (fail_after_claim (worker_id worker) Hk Hc Hcl).
    all: rewrite (private_return_after_claim (worker_id worker) Hk Hc Hcl); try done.
    + unfold set_recovered_job_schedule. cbn [jobs with_jobs]. f_equal.
      apply map_eq. intros k. rewrite lookup_update_where. destruct (decide (k = id job)) as [->|Hne].
      * rewrite !lookup_insert_eq. cbn. by rewrite bool_decide_eq_true_2.
      * rewrite !lookup_insert_ne by done. destruct (jobs db !! k); [|done]. cbn.
        by rewrite bool_decide_eq_false_2.
Qed.

(** A processed job, on the tables before its claim, when nobody else changes
    them: only its row differs, and every queue lock is as before the claim. *)
Lemma process_tables escaped exp_secs con clock now env worker w w' (job : Job) :
  keyed (tables_of w) → clean (tables_of w) → (∀ d, meanwhile env d = d) →
  process_one_job escaped exp_secs con clock now env worker w w' (Ok (Some job)) →
  ∃ old r duration es,
    jobs (tables_of w) !! id job = Some old ∧ id old = id job ∧ attempts old < max_attempts old ∧
    job_row job = lock_job (worker_id worker) (default clock now) old ∧
    run_job_with_hooks escaped job worker (start env) (shutdown_at env) = Some (r, duration, es) ∧
    tables_of w' =
      (if batched worker r then apply_claim (worker_id worker) (default clock now) [(id job, old)] (tables_of w)
       else processed escaped exp_secs env worker job (default clock now) old r (tables_of w)).
Proof.
  intros Hk Hc Hm Hp. inversion Hp as [| | |db job' w1 res Hget Hrun E1 E2]; subst. rewrite Hm in Hrun.
  destruct res as [[]|]; [|done]. injection E2 as <-.
  destruct (get_claim_some _ _ _ _ _ _ _ _ _ Hk Hget) as (old & Hcl & -> & Hrow).
  destruct (single_claim_row (worker_id worker) Hk Hc Hcl) as (Hold & Hid & _ & Hlt & _).
  unfold run_and_release_job in Hrun.
  destruct (run_job_with_hooks escaped job' worker (start env) (shutdown_at env)) as [[[r duration] es]|] eqn:Er;
    [|done]. cbn in Hrun. injection Hrun as Hrel. exists old, r, duration, es. split_and!; [done..|].
  set (w0 := emit_all _ es) in Hrel.
  assert (tables_of w0 = apply_claim (worker_id worker) (default clock now) [(id job', old)] (tables_of w)) as Hw0 by done.
  destruct (batched worker r) eqn:Hb.
  - rewrite release_job_batched in Hrel by done. injection Hrel as <-. by destruct r.
  - pose proof (release_job_direct escaped exp_secs (outcome1 env) (outcome2 env) (now1 env) (now2 env)
      job' worker r duration w0 Hb) as Hd.
    pose proof (statements_after_claim escaped exp_secs con _ _ _ env worker job' old r _ Hk Hc Hcl Hrow) as Hs.
    rewrite <- Hw0 in Hs. destruct (release_statements _ _ _ _ _ _ _ _ _ _) as [db ok].
    rewrite Hrel in Hd. destruct ok; [|done]. injection Hd as ->. by apply Hs.
Qed.

(** What a release leaves of the row it finds, if anything: the row is the
    worker's to change, unless it completes it, only while it holds it. *)
Definition released_row escaped exp_secs (env : Env) (worker : WorkerRunner) (job : Job)
    (r : result unit RunJobError) (retired : gset Z) (j : DbJob) : option DbJob :=
  let mine f := if owned_by (worker_id worker) j then f j else j in
  match r with
  | Ok _ => None
  | Err TaskAborted =>
      match recovery_action job worker with
      | RecoveryDefault =>
          Some (mine (mark_returned retired (now1 env)
                        (Some (duration_as_millis_i64 (interrupted_job_retry_delay worker)))
                        (Some RECOVERY_LAST_ERROR) true))
      | Reschedule run_at_ attempts_ =>
          Some (set_schedule run_at_ attempts_ (now2 env)
                  (mine (mark_returned retired (now1 env) None (Some RECOVERY_LAST_ERROR) true)))
      | FailWithBackoff =>
          Some (mine (mark_failed exp_secs (now1 env) (reason_text ShutdownAborted) None))
      | RecoverySkip => Some j
      end
  | Err e =>
      Some (mine (mark_failed exp_secs (now1 env) (persisted_error escaped e) (replacement_payload e)))
  end.

(** The release gives the row's queue up too. *)
Definition gives_up (worker : WorkerRunner) (job : Job) (r : result unit RunJobError) (j : DbJob) : Prop :=
  match r with
  | Ok _ => True
  | Err TaskAborted => locked_by j = Some (worker_id worker) ∧ recovery_action job worker ≠ RecoverySkip
  | Err _ => locked_by j = Some (worker_id worker)
  end.

Lemma complete_job_row (job : Job) w db : jobs (complete_job job w db) !! id job = None.
Proof.
  apply eq_None_not_Some. intros [j Hj]. revert Hj. unfold complete_job, complete_one.
  destruct (has_queue job); cbn; intros [_ Hn%bool_decide_eq_false]%delete_where_Some; done.
Qed.

Lemma private_return_row w i ms e rec now db :
  jobs (private_return_jobs w [i] ms e rec now db) !! i
  = (λ j, if owned_by w j then mark_returned (retirements db) now ms e rec j else j) <$> jobs db !! i.
Proof.
  cbn. rewrite lookup_update_where. rewrite bool_decide_eq_true_2 by set_solver. done.
Qed.

Lemma release_statements_row escaped exp_secs (env : Env) (job : Job) worker r db :
  let '(db', ok) := release_statements escaped exp_secs (outcome1 env) (outcome2 env) (now1 env) (now2 env)
                      job worker r db in
  ok = true →
  jobs db' !! id job = (jobs db !! id job ≫= released_row escaped exp_secs env worker job r (retirements db)).
Proof.
  unfold release_statements, apply_job_recovery_direct, return_job_for_recovery, released_row.
  destruct r as [[]|[]]; [..|destruct (recovery_action job worker)];
    destruct (outcome1 env); try destruct (outcome2 env); cbn [execute is_ok fst snd]; try done; intros _.
  all: try (rewrite complete_job_row; by destruct (jobs db !! id job)).
  all: try (rewrite fail_job_lookup, bool_decide_eq_true_2 by done; by destruct (jobs db !! id job)).
  all: try (rewrite private_return_row; by destruct (jobs db !! id job)).
  1: unfold set_recovered_job_schedule; cbn [jobs with_jobs]; rewrite lookup_update_where, bool_decide_eq_true_2 by done;
    rewrite private_return_row; by destruct (jobs db !! id job).
  all: by destruct (jobs db !! id job).
Qed.

(** The queue of a selected row, when the worker holds it. *)
Lemma release_queues_row w i p (j : DbJob) q x js qs :
  js !! i = Some j → p i j = true → job_queue_id j = Some q → qs !! q = Some x → queue_locked_by x = Some w →
  release_queues w (rows_where p js) qs !! q = Some (unlock_queue x).
Proof.
  intros Hj Hp Hq Hx Hw. rewrite release_queues_lookup, Hx. cbn.
  rewrite (bool_decide_eq_true_2 (queue_locked_by x = Some w)) by done.
  rewrite bool_decide_eq_true_2; [done|]. apply elem_of_row_queues. by exists i, j.
Qed.

Lemma release_statements_queue escaped exp_secs (env : Env) (job : Job) worker r db j q x :
  let '(db', ok) := release_statements escaped exp_secs (outcome1 env) (outcome2 env) (now1 env) (now2 env)
                      job worker r db in
  jobs db !! id job = Some j → job_queue_id j = Some q → has_queue job = true → gives_up worker job r j →
  job_queues db !! q = Some x → queue_locked_by x = Some (worker_id worker) →
  ok = true → job_queues db' !! q = Some (unlock_queue x).
Proof.
  assert (∀ k, id job = k → locked_by j = Some (worker_id worker) →
    bool_decide (k = id job) && owned_by (worker_id worker) j = true) as Hown.
  { intros k <- Hl. unfold owned_by. by rewrite !bool_decide_eq_true_2. }
  assert (∀ ms e rec now, jobs db !! id job = Some j → job_queue_id j = Some q →
    locked_by j = Some (worker_id worker) → job_queues db !! q = Some x → queue_locked_by x = Some (worker_id worker) →
    job_queues (private_return_jobs (worker_id worker) [id job] ms e rec now db) !! q = Some (unlock_queue x)) as Hret.
  { intros ms e rec now Hj Hq Hl Hx Hw. cbn. eapply release_queues_row; [exact Hj| |done..].
    unfold owned_by. rewrite !bool_decide_eq_true_2; [done..|set_solver]. }
  assert (∀ t m rp, jobs db !! id job = Some j → job_queue_id j = Some q → has_queue job = true →
    locked_by j = Some (worker_id worker) → job_queues db !! q = Some x → queue_locked_by x = Some (worker_id worker) →
    job_queues (fail_job exp_secs t job (worker_id worker) m rp db) !! q = Some (unlock_queue x)) as Hfail.
  { intros t m rp Hj Hq Hh Hl Hx Hw. unfold fail_job, fail_one. rewrite Hh. cbn.
    eapply release_queues_row; [exact Hj|by apply Hown|done..]. }
  unfold release_statements, apply_job_recovery_direct, return_job_for_recovery, gives_up.
  destruct r as [[]|[]]; [..|destruct (recovery_action job worker)];
    destruct (outcome1 env); try destruct (outcome2 env); cbn [execute is_ok fst snd]; try done;
    intros Hj Hq Hh Hg Hx Hw _; try (destruct Hg as [Hg Hs]); try done;
    first [by apply Hret|by apply Hfail|idtac].
  all: unfold complete_job, complete_one; rewrite Hh; cbn.
  all: eapply release_queues_row; [exact Hj|by apply bool_decide_eq_true_2|done..].
Qed.


(** ** A batch job, from the claim to the tables *)

Section batch_job.
Context {E T DeError : Type} (debug : E → str) (deserialize : Value → result T DeError)
        (debug_de : DeError → str) (run_batch : list T → BatchTaskResult E) (cost : Z).

(** task-handler/src/handler/definition.rs *)
Definition of_batch : WorkerFn := λ job,
  Some (cost, match run_batch_task_from_worker_ctx debug deserialize debug_de run_batch (payload job) with
              | Some outcome => Returned outcome
              | None => Panicked OtherPayload
              end).

(** A batch job retries only what failed, end to end.  When its handler
    reports one result per item, the processed job's row is gone if every item
    succeeded; otherwise it is the claimed row, unlocked, backed off, and
    carrying exactly the payloads of the failed items, whether or not failures
    are batched.  Nobody else changes the tables meanwhile. *)
Theorem batch_job_keeps_failed_items escaped exp_secs con clock now env worker w w' (job : Job)
    payloads items results :
  keyed (tables_of w) → clean (tables_of w) → (∀ d, meanwhile env d = d) →
  hooks_is_empty (hooks worker) = true → shutdown_at env = None →
  completion_batcher worker ≠ Some ChannelOpen →
  registered worker job of_batch →
  payload job = Array payloads → collect_result (deserialize <$> payloads) = Ok items →
  run_batch items = ItemResults results → length results = length payloads →
  process_one_job escaped exp_secs con clock now env worker w w' (Ok (Some job)) →
  ∃ old, jobs (tables_of w) !! id job = Some old ∧
    if decide (Forall (λ r, is_ok r = true) results)
    then tables_of w' = delete_jobs (λ i _, bool_decide (i = id job)) (tables_of w)
    else ∃ m, let j := mark_failed exp_secs (now1 env) m (Some (Array (failed_payloads results payloads)))
                         (lock_job (worker_id worker) (default clock now) old) in
         tables_of w' = with_jobs (tables_of w) (<[id job := j]> (jobs (tables_of w))).
Proof.
  intros Hk Hc Hmw Hh Hs Hb Hreg Hp Hi Hr Hl Hproc.
  destruct (process_tables _ _ _ _ _ _ _ _ _ _ Hk Hc Hmw Hproc)
    as (old & r & duration & es & Hold & _ & _ & _ & Hrun & Ht).
  exists old. split; [done|].
  unfold run_job_with_hooks in Hrun. rewrite Hh, (run_job_registered job worker of_batch), Hs in Hrun by done.
  pose proof (collect_result_length _ _ Hi) as Hlen. rewrite length_fmap in Hlen.
  destruct (item_results_outcome debug deserialize results payloads Hl) as (m & Hm).
  unfold of_batch, run_batch_task_from_worker_ctx in Hrun.
  rewrite Hp in Hrun. cbn [as_array] in Hrun. rewrite Hi, Hr, Hlen, Hm in Hrun. cbn in Hrun.
  case_decide; injection Hrun as <- _ _; rewrite Ht; cbn.
  - by destruct (completion_batcher worker) as [[]|].
  - by eexists.
Qed.
End batch_job.

(** ** Witnesses *)

(** The executable claim, then the run. *)
Lemma process_exec_step escaped exp_secs con clock now env worker w (job : Job) w' :
  let c := get_job_exec con clock (task_details worker) (worker_id worker) (job_flag_filter worker) now
             (tables_of w) in
  c.2 = Some job →
  run_and_release_job escaped exp_secs env job worker
    (emit_all (with_tables w (meanwhile env c.1)) (emit (hooks worker) (JobFetchEvent job))) = Some (w', Ok tt) →
  process_one_job escaped exp_secs con clock now env worker w w' (Ok (Some job)).
Proof.
  intros c Hc Hr. eapply (process_some _ _ _ _ _ _ _ _ c.1 job w' (Ok tt)); [|done].
  pose proof (get_exec_step con clock (task_details worker) (worker_id worker) (job_flag_filter worker) now
    (tables_of w)) as H. fold c in H. by rewrite Hc in H.
Qed.

Definition ascii_only (_ : char) : bool := false.

Definition demo_worker (f : WorkerFn) (failing : option Channel) : WorkerRunner :=
  mkRunner (lit "w") {[lit "task" := f]} demo_tasks no_filter no_hooks None failing 10 5000000.

(** A handler that runs for five units and fails. *)
Definition demo_failing : WorkerFn := λ _, Some (5, Returned (Failed (lit "boom") None)).

Definition demo_env (shutdown : option Z) : Env := mkEnv 100 shutdown Acknowledged Acknowledged 300 301 (λ d, d).
Definition demo_world (db : Db) : World := mkWorld db 0 [] [] [].

Lemma shutdown_bounds_runs_witness :
  ∃ job : Job, registered (demo_worker demo_failing None) job demo_failing ∧
    run_job job (demo_worker demo_failing None) 100 (Some 95)
    = Some (105, Err (TaskError (lit "boom"))).
Proof.
  exists (mkJob (demo_job 1 None 0) (lit "task")). split; [by split|].
  destruct (shutdown_bounds_runs ascii_only (mkJob (demo_job 1 None 0) (lit "task"))
    (demo_worker demo_failing None) 100 95) as (_ & _ & H & _); [cbn; lia|].
  apply (H demo_failing 5 (Returned (Failed (lit "boom") None))); [by split|reflexivity|cbn; lia].
Defined.

Definition demo_single_claim : Db * option Job :=
  get_job_exec demo_con 200 demo_tasks (lit "w") no_filter None demo_db.


Definition batch_db : Db :=
  mkDb {[1 := mkDbJob 1 None (Array [VNumber (lit "1"); VNumber (lit "2")]) 0 0 0 25 None 0 0 None 0 None None None 1]}
    ∅ {[1 := lit "task"]} ∅ ∅ 2 1 2.

(** The second item fails. *)
Definition demo_batch_fn : WorkerFn :=
  of_batch (λ s : str, s) (λ v, Ok v : result Value str) (λ s, s) (λ _, ItemResults [Ok tt; Err (lit "bad")]) 5.

Lemma batch_job_keeps_failed_items_witness :
  ∃ (job : Job) w' j, id job = 1 ∧
    process_one_job ascii_only demo_exp demo_con 200 None (demo_env None)
      (demo_worker demo_batch_fn (Some ChannelOpen)) (demo_world batch_db) w' (Ok (Some job)) ∧
    jobs (tables_of w') !! 1 = Some j ∧ payload j = Array [VNumber (lit "2")].
Proof.
  set (c := get_job_exec demo_con 200 demo_tasks (lit "w") no_filter None batch_db).
  destruct c.2 as [job|] eqn:E2; [|vm_compute in E2; discriminate E2].
  assert (id job = 1) as Hid by (vm_compute in E2; injection E2 as <-; reflexivity).
  destruct (run_and_release_job ascii_only demo_exp (demo_env None) job
    (demo_worker demo_batch_fn (Some ChannelOpen))
    (emit_all (with_tables (demo_world batch_db) c.1) [])) as [[w' [[]|]]|] eqn:R.
  2,3: exfalso; vm_compute in E2; injection E2 as <-; vm_compute in R; discriminate R.
  assert (process_one_job ascii_only demo_exp demo_con 200 None (demo_env None)
    (demo_worker demo_batch_fn (Some ChannelOpen)) (demo_world batch_db) w' (Ok (Some job))) as Hp
    by (apply process_exec_step; [exact E2|exact R]).
  assert (payload job = Array [VNumber (lit "1"); VNumber (lit "2")]) as Hpay
    by (vm_compute in E2; injection E2 as <-; reflexivity).
  assert (task_identifier job = lit "task") as Ht by (vm_compute in E2; injection E2 as <-; reflexivity).
  destruct (batch_job_keeps_failed_items (λ s : str, s) (λ v, Ok v : result Value str) (λ s, s)
    (λ _, ItemResults [Ok tt; Err (lit "bad")]) 5 ascii_only demo_exp demo_con 200 None (demo_env None)
    (demo_worker demo_batch_fn (Some ChannelOpen)) (demo_world batch_db) w' job
    [VNumber (lit "1"); VNumber (lit "2")] [VNumber (lit "1"); VNumber (lit "2")] [Ok tt; Err (lit "bad")])
    as (old & _ & H).
  - apply keyed_check. vm_compute. reflexivity.
  - apply clean_check; vm_compute; reflexivity.
  - reflexivity.
  - reflexivity.
  - reflexivity.
  - discriminate.
  - unfold registered. rewrite Ht. split; [discriminate|reflexivity].
  - exact Hpay.
  - reflexivity.
  - reflexivity.
  - reflexivity.
  - exact Hp.
  - rewrite decide_False in H by (intros Hf; apply Forall_cons in Hf as [_ Hf]; apply Forall_cons in Hf as [Hf _]; discriminate Hf).
    destruct H as [m H]. eexists job, w', _. split; [exact Hid|]. split; [exact Hp|].
    rewrite H, Hid. split; [apply lookup_insert_eq|reflexivity].
Defined.

End Runner.
