(* ===== verification/RunOnce.v ===== *)
(** * Running all available jobs once (src/runner/run_once.rs,
    src/streams/job_fetch.rs)

    [Worker::run_once] as a transition system: a stream of claims and up to
    [concurrency] slots that run what it yields, with the shared flag and error
    that stop both.  Every step between two awaits is one transition; other
    sessions, and the flushes of the batchers, change the tables in between. *)

From S2P Require Import Prelude Job Database FlagFilter JobStore JobRelease Hooks TaskHandler.
From S2P Require Import Batcher Recovery Runner.
Open Scope Z_scope.

Module RunOnce.
Import Job FlagFilter JobStore JobRelease Hooks Batcher Runner.

(** The fetch stream: between items, awaiting a claim, or ended. *)
Inductive StreamState := Idle | InFlight | StreamEnded.

(** A slot: at the top of its loop with a claimed job, running it, past its
    release with a job of a named queue, or awaiting another claim. *)
Inductive Slot := Top (job : Job) | Running (job : Job) | AfterRelease | Fetching.

(** Why a row may stay locked by the worker. *)
Inductive Reason :=
| Unpersisted    (* a statement failed or its reply was lost *)
| SkippedByHook  (* a recovery hook asked to leave the job *)
| CancelledFetch (* shutdown dropped a claim under way *).

(** [abandoned] records the jobs no slot holds any more although their
    statement may have left them locked. *)
Record State := mkState {
  world : World;
  stream : StreamState;
  slots : list Slot;
  fetch_failed : bool;
  run_error : option ProcessJobError;
  abandoned : list (Z * Reason)
}.

Definition set_slots (s : State) (w : World) (l : list Slot) : State :=
  mkState w (stream s) l (fetch_failed s) (run_error s) (abandoned s).

(** [run_error.lock().await.get_or_insert(e)]. *)
Definition get_or_insert (e : ProcessJobError) (o : option ProcessJobError) : option ProcessJobError :=
  match o with Some e' => Some e' | None => Some e end.

(** A failed fetch: the flag, the error, and the stream or slot ends. *)
Definition fail_fetch (o : Outcome) (w : World) (st : StreamState) (l : list Slot)
    (ab : list (Z * Reason)) (s : State) : State :=
  mkState w st l true (get_or_insert (GetJobError o) (run_error s)) (ab ++ abandoned s).

Definition removed_slot (k : nat) (s : State) : list Slot := delete k (slots s).

Section run_once.
Context (escaped : char → bool) (exp_secs : Z → Z) (worker : WorkerRunner) (concurrency : nat).

Definition w_id : str := worker_id worker.

(** A claim of this worker on the current tables. *)
Definition claims (w : World) (db : Db) (job : option Job) : Prop :=
  ∃ con clock now,
    get_job_with_filter con clock (task_details worker) w_id (job_flag_filter worker) now
      (tables_of w) db job.

(** A claim whose statement failed: rolled back, or committed with the reply
    lost; the ids it may have locked. *)
Inductive failed_claim (w : World) : Outcome → World → list (Z * Reason) → Prop :=
| failed_rolled_back : failed_claim w RolledBack w []
| failed_reply_lost db (job : Job) :
    claims w db (Some job) → failed_claim w ReplyLost (with_tables w db) [(id job, Unpersisted)]
| failed_reply_lost_none db :
    claims w db None → failed_claim w ReplyLost (with_tables w db) [].

(** What the slot records of a release. *)
Definition release_error (res : result unit ReleaseJobError) (o : option ProcessJobError) :
    option ProcessJobError :=
  match res with Ok _ => o | Err e => get_or_insert (ReleaseError e) o end.

Definition release_abandons (job : Job) (r : result unit RunJobError) (res : result unit ReleaseJobError) :
    list (Z * Reason) :=
  match res, r with
  | Err _, _ => [(id job, Unpersisted)]
  | Ok _, Err TaskAborted =>
      match recovery_action job worker with RecoverySkip => [(id job, SkippedByHook)] | _ => [] end
  | Ok _, _ => []
  end.

Inductive step : State → State → Prop :=
(** The stream. *)
| stream_stop s :
    stream s = Idle → fetch_failed s = true →
    step s (mkState (world s) StreamEnded (slots s) true (run_error s) (abandoned s))
| stream_fetch s :
    stream s = Idle → fetch_failed s = false → (concurrency = 0 ∨ length (slots s) < concurrency)%nat →
    step s (mkState (world s) InFlight (slots s) false (run_error s) (abandoned s))
| stream_job s db job :
    stream s = InFlight → claims (world s) db (Some job) →
    step s (mkState (with_tables (world s) db) Idle (slots s ++ [Top job]) (fetch_failed s) (run_error s) (abandoned s))
| stream_none s db :
    stream s = InFlight → claims (world s) db None →
    step s (mkState (with_tables (world s) db) StreamEnded (slots s) (fetch_failed s) (run_error s) (abandoned s))
| stream_error s o w ab :
    stream s = InFlight → failed_claim (world s) o w ab →
    step s (fail_fetch o w StreamEnded (slots s) ab s)
| stream_shutdown s :
    stream s = InFlight →
    step s (mkState (world s) StreamEnded (slots s) (fetch_failed s) (run_error s) (abandoned s))
| stream_shutdown_committed s db job :
    stream s = InFlight → claims (world s) db (Some job) →
    step s (mkState (with_tables (world s) db) StreamEnded (slots s) (fetch_failed s) (run_error s)
              ((id job, CancelledFetch) :: abandoned s))
(** The slots. *)
| slot_start s k job :
    slots s !! k = Some (Top job) → fetch_failed s = false →
    step s (set_slots s (world s) (<[k := Running job]> (slots s)))
| slot_return s k job o now :
    slots s !! k = Some (Top job) → fetch_failed s = true →
    let p := execute o (return_jobs [job] w_id now) (tables_of (world s)) in
    step s (mkState (with_tables (world s) p.1) (stream s) (removed_slot k s) true
              (if p.2 then run_error s else get_or_insert (ReleaseError (mkReleaseError (id job) o)) (run_error s))
              (if p.2 then abandoned s else (id job, Unpersisted) :: abandoned s))
| slot_release s k job start shutdown r duration es o1 o2 t1 t2 :
    slots s !! k = Some (Running job) →
    run_job_with_hooks escaped job worker start shutdown = Some (r, duration, es) →
    let p := release_job escaped exp_secs o1 o2 t1 t2 r job worker duration (emit_all (world s) es) in
    step s (mkState p.1 (stream s)
              (if has_queue job then <[k := AfterRelease]> (slots s) else removed_slot k s)
              (fetch_failed s) (release_error p.2 (run_error s))
              (release_abandons job r p.2 ++ abandoned s))
| slot_stop s k :
    slots s !! k = Some AfterRelease → fetch_failed s = true →
    step s (set_slots s (world s) (removed_slot k s))
| slot_fetch s k :
    slots s !! k = Some AfterRelease → fetch_failed s = false →
    step s (set_slots s (world s) (<[k := Fetching]> (slots s)))
| slot_job s k db job :
    slots s !! k = Some Fetching → claims (world s) db (Some job) →
    step s (set_slots s (with_tables (world s) db) (<[k := Top job]> (slots s)))
| slot_none s k db :
    slots s !! k = Some Fetching → claims (world s) db None →
    step s (set_slots s (with_tables (world s) db) (removed_slot k s))
| slot_error s k o w ab :
    slots s !! k = Some Fetching → failed_claim (world s) o w ab →
    step s (fail_fetch o w (stream s) (removed_slot k s) ab s)
(** Other sessions and the batchers: nobody locks a row in this worker's name. *)
| others s db :
    keyed db →
    (∀ i j, jobs db !! i = Some j → locked_by j = Some w_id →
       ∃ j', jobs (tables_of (world s)) !! i = Some j' ∧ locked_by j' = Some w_id) →
    step s (set_slots s (with_tables (world s) db) (slots s)).

Definition initial (w : World) : State := mkState w Idle [] false None [].

Definition reachable (w : World) : State → Prop := rtc step (initial w).

(** [run_once] returns. *)
Definition returned (s : State) (res : result unit ProcessJobError) : Prop :=
  stream s = StreamEnded ∧ slots s = [] ∧
  res = match run_error s with Some e => Err e | None => Ok tt end.

(** ** Statements that only give locks up *)

Definition loosens (db db' : Db) : Prop :=
  ∀ i j', jobs db' !! i = Some j' →
    ∃ j, jobs db !! i = Some j ∧ id j' = id j ∧ (locked_by j' = None ∨ locked_by j' = locked_by j).

Lemma loosens_refl db : loosens db db.
Proof. intros i j Hj. exists j. auto. Qed.

Lemma loosens_trans db1 db2 db3 : loosens db1 db2 → loosens db2 db3 → loosens db1 db3.
Proof.
  intros H1 H2 i j3 Hj3. destruct (H2 i j3 Hj3) as (j2 & Hj2 & Hid2 & Hl2).
  destruct (H1 i j2 Hj2) as (j1 & Hj1 & Hid1 & Hl1). exists j1. split_and!; [done|congruence|].
  destruct Hl2 as [->| ->]; auto.
Qed.

Lemma loosens_update db db' p f :
  jobs db' = update_where p f (jobs db) →
  (∀ j, id (f j) = id j ∧ (locked_by (f j) = None ∨ locked_by (f j) = locked_by j)) → loosens db db'.
Proof.
  intros E Hf i j'. rewrite E. intros (j & Hj & ->)%update_where_Some. exists j. split; [done|].
  destruct (p i j); auto.
Qed.

Lemma complete_job_loosens job w db : loosens db (complete_job job w db).
Proof.
  intros i j. unfold complete_job, complete_one. destruct (has_queue job); cbn;
    intros [Hj _]%delete_where_Some; exists j; auto.
Qed.

Lemma fail_job_loosens now job w e repl db : loosens db (fail_job exp_secs now job w e repl db).
Proof.
  eapply (loosens_update _ _ _ (mark_failed exp_secs now e repl)); [|by auto].
  unfold fail_job, fail_one. by destruct (has_queue job).
Qed.

Lemma private_return_loosens w ids ms e rec now db :
  loosens db (private_return_jobs w ids ms e rec now db).
Proof. eapply loosens_update; [done|]. by auto. Qed.

Lemma set_schedule_loosens i ra at_ now db :
  loosens db (Recovery.set_recovered_job_schedule i ra at_ now db).
Proof. eapply loosens_update; [done|]. by auto. Qed.

Create HintDb once.
#[local] Hint Resolve loosens_refl complete_job_loosens fail_job_loosens private_return_loosens
  set_schedule_loosens : once.

Lemma release_statements_loosens o1 o2 t1 t2 job r db :
  loosens db (release_statements escaped exp_secs o1 o2 t1 t2 job worker r db).1.
Proof.
  unfold release_statements, apply_job_recovery_direct, return_job_for_recovery.
  destruct r as [[]|[]]; [..|destruct (recovery_action job worker)];
    destruct o1; try destruct o2; cbn [execute fst];
    first [by auto with once|eapply loosens_trans; [apply private_return_loosens|apply set_schedule_loosens]].
Qed.

Lemma return_jobs_loosens js w now db : loosens db (return_jobs js w now db).
Proof. unfold return_jobs. destruct (is_empty js); auto with once. Qed.

(** ** What a claim locks *)

Lemma claims_some w db (job : Job) :
  keyed (tables_of w) → claims w db (Some job) →
  keyed db ∧ ∀ i j, jobs db !! i = Some j → locked_by j = Some w_id →
    i = id job ∨ jobs (tables_of w) !! i = Some j.
Proof.
  intros Hk (con & clock & now & Hget).
  destruct (get_claim_some _ _ _ _ _ _ _ _ _ Hk Hget) as (old & _ & -> & _). split.
  - intros i j. cbn. intros (j0 & Hj0 & ->)%update_where_Some. specialize (Hk i j0 Hj0).
    by destruct (bool_decide _).
  - intros i j Hj Hl. destruct (decide (i = id job)) as [->|Hne]; [by left|right].
    by rewrite apply_claim_other in Hj by set_solver.
Qed.

Lemma claims_none w db : claims w db None → jobs db = jobs (tables_of w).
Proof.
  intros (con & clock & now & (sel & _ & -> & Hr & _)%get_claim_inv).
  destruct sel; [|done]. apply map_eq. intros i. apply apply_claim_other. set_solver.
Qed.

(** ** The invariant *)

(** A slot has the job in hand. *)
Definition holds (sl : Slot) (i : Z) : Prop :=
  match sl with Top job | Running job => id job = i | _ => False end.

Definition in_hand (l : list Slot) (i : Z) : Prop := ∃ k sl, l !! k = Some sl ∧ holds sl i.

(** A batcher accepted its release. *)
Definition handed_over (w : World) (i : Z) : Prop :=
  i ∈ job_id <$> completions w ∨ i ∈ (λ r, id (fail_job_of r)) <$> failures w.

Definition accounted (s : State) (i : Z) : Prop :=
  in_hand (slots s) i ∨ i ∈ (abandoned s).*1 ∨ handed_over (world s) i.

Record ok (s : State) : Prop := {
  ok_keyed : keyed (tables_of (world s));
  ok_accounted : ∀ i j, jobs (tables_of (world s)) !! i = Some j → locked_by j = Some w_id → accounted s i;
  ok_error : (fetch_failed s = true ∨ ∃ i, (i, Unpersisted) ∈ abandoned s) → is_Some (run_error s)
}.

Lemma in_hand_insert l k old new i :
  l !! k = Some old → in_hand l i → holds old i ∨ in_hand (<[k := new]> l) i.
Proof.
  intros Hk (k' & sl & Hl & Hh). destruct (decide (k' = k)) as [->|Hne]; [left; by simplify_eq|right].
  exists k', sl. by rewrite list_lookup_insert_ne.
Qed.

Lemma in_hand_new l k old new i :
  l !! k = Some old → holds new i → in_hand (<[k := new]> l) i.
Proof.
  intros Hk Hh. exists k, new. split; [|done]. apply list_lookup_insert_eq. by eapply lookup_lt_Some.
Qed.

Lemma in_hand_delete l k old i :
  l !! k = Some old → in_hand l i → holds old i ∨ in_hand (delete k l) i.
Proof.
  intros Hk (k' & sl & Hl & Hh). destruct (decide (k' = k)) as [->|Hne]; [left; by simplify_eq|right].
  assert (sl ∈ delete k l) as (k2 & Hk2)%list_elem_of_lookup; [|by exists k2, sl].
  rewrite delete_take_drop. apply elem_of_app. apply list_elem_of_lookup_2 in Hl as Hin.
  destruct (decide (k' < k)%nat).
  - left. apply list_elem_of_lookup. exists k'. by rewrite lookup_take_lt.
  - right. apply list_elem_of_lookup. exists (k' - S k)%nat. rewrite lookup_drop. by replace (S k + (k' - S k))%nat with k' by lia.
Qed.

Lemma in_hand_app l l' i : in_hand l i ∨ in_hand l' i → in_hand (l ++ l') i.
Proof.
  intros [(k & sl & Hl & Hh)|(k & sl & Hl & Hh)].
  - exists k, sl. by rewrite lookup_app_l by (by eapply lookup_lt_Some).
  - exists (length l + k)%nat, sl. rewrite lookup_app_r by lia. by replace (length l + k - length l)%nat with k by lia.
Qed.

(** A step keeps account of a row when every row it leaves locked is accounted
    for anew, or was locked before and is still accounted for. *)
Lemma ok_step s s' :
  ok s → keyed (tables_of (world s')) →
  (∀ i j', jobs (tables_of (world s')) !! i = Some j' → locked_by j' = Some w_id →
     accounted s' i ∨
     (∃ j, jobs (tables_of (world s)) !! i = Some j ∧ locked_by j = Some w_id) ∧ (accounted s i → accounted s' i)) →
  ((fetch_failed s' = true ∨ ∃ i, (i, Unpersisted) ∈ abandoned s') → is_Some (run_error s')) → ok s'.
Proof.
  intros [Hk Ha He] Hk' Hacc He'. constructor; [done| |done]. intros i j' Hj Hl.
  destruct (Hacc i j' Hj Hl) as [H|[(j & Hj0 & Hl0) H]]; eauto.
Qed.

Lemma loosens_keyed db db' : loosens db db' → keyed db → keyed db'.
Proof. intros Hl Hk i j' Hj. destruct (Hl i j' Hj) as (j & Hj0 & -> & _). by apply Hk. Qed.

Lemma loosens_locked db db' i j' :
  loosens db db' → jobs db' !! i = Some j' → locked_by j' = Some w_id →
  ∃ j, jobs db !! i = Some j ∧ locked_by j = Some w_id.
Proof.
  intros Hl Hj Hw. destruct (Hl i j' Hj) as (j & Hj0 & _ & [E|E]); [congruence|]. exists j. by rewrite <- E.
Qed.

Lemma get_or_insert_some e o : is_Some (get_or_insert e o).
Proof. destruct o; by eexists. Qed.

Lemma get_or_insert_keeps e o : is_Some o → get_or_insert e o = o.
Proof. by intros [e' ->]. Qed.

(** What a release leaves behind. *)
Lemma release_leaves o1 o2 t1 t2 job r duration w :
  let p := release_job escaped exp_secs o1 o2 t1 t2 r job worker duration w in
  loosens (tables_of w) (tables_of p.1) ∧
  (∀ i, handed_over w i → handed_over p.1 i) ∧
  (∀ j, jobs (tables_of p.1) !! id job = Some j → locked_by j = Some w_id →
     id job ∈ (release_abandons job r p.2).*1 ∨ handed_over p.1 (id job)) ∧
  ((∃ i, (i, Unpersisted) ∈ release_abandons job r p.2) → ∃ e, p.2 = Err e).
Proof.
  assert (∀ res, (∃ i, (i, Unpersisted) ∈ release_abandons job r res) → ∃ e, res = Err e) as Herr.
  { intros [[]|e] [i Hi]; [|by eexists]. exfalso. unfold release_abandons in Hi.
    repeat case_match; set_solver. }
  destruct (batched worker r) eqn:Hb.
  - rewrite release_job_batched by done. split_and!; cbn [fst snd]; [..|by apply Herr].
    + destruct r; apply loosens_refl.
    + intros i [H|H]; destruct r; unfold handed_over; cbn; rewrite ?fmap_app; set_solver.
    + intros j _ _. right. destruct r; unfold handed_over; cbn; rewrite ?fmap_app; set_solver.
  - pose proof (release_job_direct escaped exp_secs o1 o2 t1 t2 job worker r duration w Hb) as Hd.
    pose proof (release_statements_spec escaped exp_secs o1 o2 t1 t2 job worker r (tables_of w)) as Hs.
    pose proof (release_statements_loosens o1 o2 t1 t2 job r (tables_of w)) as Hl.
    destruct (release_statements _ _ _ _ _ _ _ _ _ _) as [db okb]. rewrite Hd. clear Hd.
    destruct Hs as (_ & Hu & _). split_and!; cbn [fst snd]; [by destruct okb|by destruct okb| |by apply Herr].
    intros j Hj Hw. left. destruct okb; cbn in *; [|set_solver].
    destruct Hu as [Hu|(-> & Hskip & _)]; [done|by destruct (Hu j Hj)|]. rewrite Hskip. set_solver.
Qed.

(** Rows a claim of the worker leaves locked. *)
Lemma ok_claim_some s db (job : Job) s' :
  ok s → claims (world s) db (Some job) → world s' = with_tables (world s) db →
  accounted s' (id job) → (∀ i, accounted s i → accounted s' i) →
  ((fetch_failed s' = true ∨ ∃ i, (i, Unpersisted) ∈ abandoned s') → is_Some (run_error s')) → ok s'.
Proof.
  intros Hok Hc Hw Hnew Hold He. destruct (claims_some _ _ _ (ok_keyed _ Hok) Hc) as [Hk Hl].
  apply (ok_step s); rewrite ?Hw; [done..| |done]. intros i j' Hj Hlk.
  destruct (Hl i j' Hj Hlk) as [->|Hj0]; [by left|right]. eauto.
Qed.

Lemma ok_claim_none s db s' :
  ok s → claims (world s) db None → world s' = with_tables (world s) db →
  (∀ i, accounted s i → accounted s' i) →
  ((fetch_failed s' = true ∨ ∃ i, (i, Unpersisted) ∈ abandoned s') → is_Some (run_error s')) → ok s'.
Proof.
  intros Hok Hc%claims_none Hw Hold He. apply (ok_step s); rewrite ?Hw; cbn; [done| | |done].
  - intros i j. rewrite Hc. apply (ok_keyed _ Hok).
  - intros i j' Hj Hlk. rewrite Hc in Hj. right. eauto.
Qed.

Lemma ok_loosens s s' :
  ok s → loosens (tables_of (world s)) (tables_of (world s')) →
  (∀ i j', jobs (tables_of (world s')) !! i = Some j' → locked_by j' = Some w_id →
     accounted s i → accounted s' i) →
  ((fetch_failed s' = true ∨ ∃ i, (i, Unpersisted) ∈ abandoned s') → is_Some (run_error s')) → ok s'.
Proof.
  intros Hok Hl Hacc He. apply (ok_step s); [done|by eapply loosens_keyed, ok_keyed| |done].
  intros i j' Hj Hlk. right. eauto using loosens_locked.
Qed.

Lemma ok_failed_claim s o w ab st l :
  ok s → failed_claim (world s) o w ab →
  (∀ i, in_hand (slots s) i → in_hand l i) → ok (fail_fetch o w st l ab s).
Proof.
  intros Hok Hf Hl. assert (∀ i, accounted s i → accounted (fail_fetch o w st l ab s) i) as Hacc.
  { intros i. unfold accounted, fail_fetch. cbn. rewrite fmap_app, elem_of_app.
    inversion Hf; subst; cbn; intros [Hi|[Hi|Hi]]; auto. }
  pose proof (get_or_insert_some (GetJobError o) (run_error s)) as Hs. inversion Hf; subst.
  - apply (ok_loosens s); [done|apply loosens_refl|by auto|done].
  - eapply (ok_claim_some s); [done..| |by auto|done]. right. left. cbn. set_solver.
  - eapply (ok_claim_none s); [done..|by auto|done].
Qed.

Lemma accounted_mono s s' i :
  (∀ i, in_hand (slots s) i → in_hand (slots s') i) → (∀ x, x ∈ abandoned s → x ∈ abandoned s') →
  (∀ i, handed_over (world s) i → handed_over (world s') i) → accounted s i → accounted s' i.
Proof.
  intros H1 H2 H3 [H|[H|H]]; [left|right; left|right; right]; [by auto| |by auto].
  apply list_elem_of_fmap in H as (x & -> & Hx). apply list_elem_of_fmap. eauto.
Qed.

(** Updating a slot that holds no job. *)
Lemma in_hand_insert_empty l k old new i :
  l !! k = Some old → (∀ i, ¬ holds old i) → in_hand l i → in_hand (<[k := new]> l) i.
Proof. intros Hk Hn Hi. destruct (in_hand_insert l k old new i Hk Hi) as [H|H]; [by destruct (Hn i)|done]. Qed.

Lemma in_hand_delete_empty l k old i :
  l !! k = Some old → (∀ i, ¬ holds old i) → in_hand l i → in_hand (delete k l) i.
Proof. intros Hk Hn Hi. destruct (in_hand_delete l k old i Hk Hi) as [H|H]; [by destruct (Hn i)|done]. Qed.

(** The job of a slot that is removed or replaced leaves the hand. *)
Lemma slot_gone s l k job i :
  slots s !! k = Some (Top job) ∨ slots s !! k = Some (Running job) →
  l = delete k (slots s) ∨ (∃ new, l = <[k := new]> (slots s)) →
  in_hand (slots s) i → i = id job ∨ in_hand l i.
Proof.
  intros Hk Hl Hi. assert (∃ sl, slots s !! k = Some sl ∧ ∀ i', holds sl i' → i' = id job) as (sl & Hsl & Hsame).
  { destruct Hk as [Hk|Hk]; eexists; (split; [exact Hk|]); by intros i' <-. }
  destruct Hl as [->|[new ->]].
  - destruct (in_hand_delete _ _ _ _ Hsl Hi); auto.
  - destruct (in_hand_insert _ _ _ new _ Hsl Hi); auto.
Qed.

Lemma ok_slot_return s k job o now p :
  ok s → slots s !! k = Some (Top job) → fetch_failed s = true →
  p = execute o (return_jobs [job] w_id now) (tables_of (world s)) →
  ok (mkState (with_tables (world s) p.1) (stream s) (removed_slot k s) true
        (if p.2 then run_error s else get_or_insert (ReleaseError (mkReleaseError (id job) o)) (run_error s))
        (if p.2 then abandoned s else (id job, Unpersisted) :: abandoned s)).
Proof.
  intros Hok Hk Hf ->. pose proof (ok_error _ Hok (or_introl Hf)) as He.
  apply (ok_loosens s); cbn [world tables_of with_tables].
  - done.
  - destruct o; cbn [execute fst]; auto using loosens_refl, return_jobs_loosens.
  - intros i j' Hj Hlk [H|[H|H]].
    + destruct (slot_gone s (removed_slot k s) k job i (or_introl Hk) (or_introl eq_refl) H) as [->|H'];
        [|by left]. destruct o; cbn in *; [|right; left; set_solver..].
      exfalso. by apply (private_return_unowns w_id (id job) None None false now (tables_of (world s)) j').
    + right. left. cbn. destruct (execute _ _ _).2; [done|]. set_solver.
    + by right; right.
  - intros _. cbn. destruct (execute _ _ _).2; [done|apply get_or_insert_some].
Qed.

Lemma ok_slot_release s k job r duration es o1 o2 t1 t2 p :
  ok s → slots s !! k = Some (Running job) →
  p = release_job escaped exp_secs o1 o2 t1 t2 r job worker duration (emit_all (world s) es) →
  ok (mkState p.1 (stream s) (if has_queue job then <[k := AfterRelease]> (slots s) else removed_slot k s)
        (fetch_failed s) (release_error p.2 (run_error s)) (release_abandons job r p.2 ++ abandoned s)).
Proof.
  intros Hok Hk ->.
  destruct (release_leaves o1 o2 t1 t2 job r duration (emit_all (world s) es)) as (Hl & Hh & Hj & He).
  set (p := release_job _ _ _ _ _ _ _ _ _ _ _) in *.
  apply (ok_loosens s); cbn [world]; [done..| |].
  - intros i j' Hj' Hlk [H|[H|H]].
    + destruct (slot_gone s (if has_queue job then <[k := AfterRelease]> (slots s) else removed_slot k s)
        k job i (or_intror Hk)) as [->|H']; [destruct (has_queue job); eauto|done| |by left].
      destruct (Hj j' Hj' Hlk) as [Hab|Hab]; [right; left|by right; right]. cbn. rewrite fmap_app. set_solver.
    + right. left. cbn. rewrite fmap_app. set_solver.
    + right. right. by apply Hh.
  - cbn. intros Hx. unfold release_error. destruct p as [w' [[]|e]]; [|apply get_or_insert_some].
    apply (ok_error _ Hok). destruct Hx as [Hx|[i [Hx|Hx]%elem_of_app]]; [by left| |by right; exists i].
    destruct He as [? ?]; [by exists i|done].
Qed.

Lemma step_ok s s' : step s s' → ok s → ok s'.
Proof.
  intros Hs Hok. pose proof (ok_error _ Hok) as He. inversion Hs; subst.
  - apply (ok_loosens s); [done|apply loosens_refl|done|]. cbn. by auto.
  - apply (ok_loosens s); [done|apply loosens_refl|done|]. cbn. intros [?|?]; [done|by auto].
  - eapply (ok_claim_some s); [done..| | |done].
    + left. apply in_hand_app. right. by exists 0%nat, (Top job).
    + intros i. apply accounted_mono; [|done..]. intros. apply in_hand_app. by left.
  - eapply (ok_claim_none s); [done..| |done]. done.
  - by apply ok_failed_claim.
  - apply (ok_loosens s); [done|apply loosens_refl|done|done].
  - eapply (ok_claim_some s); [done..| | |].
    + right. left. cbn. set_solver.
    + intros i. apply accounted_mono; [done| |done]. cbn. set_solver.
    + cbn. intros [?|[i Hi]]; [by auto|]. apply He. right. exists i. set_solver.
  - apply (ok_loosens s); [done|apply loosens_refl| |done]. intros i j' _ _.
    apply accounted_mono; [|done..]. intros i' Hi'. cbn.
    destruct (in_hand_insert _ _ _ (Running job) _ H Hi') as [Hh|Hh]; [|done]. by eapply in_hand_new.
  - by apply (ok_slot_return s k job o now).
  - by eapply ok_slot_release.
  - apply (ok_loosens s); [done|apply loosens_refl| |done]. intros i j' _ _.
    apply accounted_mono; [|done..]. intros i' Hi'. eapply in_hand_delete_empty; [done|by intros ? []|done].
  - apply (ok_loosens s); [done|apply loosens_refl| |done]. intros i j' _ _.
    apply accounted_mono; [|done..]. intros i' Hi'. eapply in_hand_insert_empty; [done|by intros ? []|done].
  - eapply (ok_claim_some s); [done..| | |done].
    + left. by eapply in_hand_new.
    + intros i. apply accounted_mono; [|done..]. intros i' Hi'. eapply in_hand_insert_empty; [done|by intros ? []|done].
  - eapply (ok_claim_none s); [done..| |done]. intros i. apply accounted_mono; [|done..].
    intros i' Hi'. eapply in_hand_delete_empty; [done|by intros ? []|done].
  - apply ok_failed_claim; [done..|]. intros i' Hi'. eapply in_hand_delete_empty; [done|by intros ? []|done].
  - apply (ok_step s); [done..| |done]. intros i j' Hj Hlk. right. split; [by eapply H0|]. done.
Qed.

Lemma initial_ok w :
  keyed (tables_of w) → (∀ i j, jobs (tables_of w) !! i = Some j → locked_by j ≠ Some w_id) → ok (initial w).
Proof.
  intros Hk Hn. constructor; cbn; [done| |]; [|by intros [?|[? ?%not_elem_of_nil]]].
  intros i j Hj Hl. by destruct (Hn i j Hj).
Qed.

Lemma reachable_ok w s :
  keyed (tables_of w) → (∀ i j, jobs (tables_of w) !! i = Some j → locked_by j ≠ Some w_id) →
  reachable w s → ok s.
Proof.
  intros Hk Hn Hr. pose proof (initial_ok w Hk Hn) as Hi. unfold reachable in Hr.
  induction Hr as [|a b c Hab _ IH]; eauto using step_ok.
Qed.

(** C13: [run_once] gives back what it claims.  However its stream, slots, other
    sessions and batchers interleave, when it returns success, every row its
    worker still locks was handed to a batcher, left by a recovery hook that
    asked for it, or claimed by a fetch that shutdown cancelled; a row locked
    for any other reason makes it return an error. *)
Theorem run_once_accounts_for_claims w s res :
  keyed (tables_of w) → (∀ i j, jobs (tables_of w) !! i = Some j → locked_by j ≠ Some w_id) →
  reachable w s → returned s res →
  ∀ i j, jobs (tables_of (world s)) !! i = Some j → locked_by j = Some w_id →
    handed_over (world s) i ∨ (i, SkippedByHook) ∈ abandoned s ∨ (i, CancelledFetch) ∈ abandoned s ∨
    ((i, Unpersisted) ∈ abandoned s ∧ ∃ e, res = Err e).
Proof.
  intros Hk Hn Hr (_ & Hsl & ->) i j Hj Hl. pose proof (reachable_ok w s Hk Hn Hr) as Hok.
  destruct (ok_accounted _ Hok i j Hj Hl) as [(k & sl & Hs & _)|[Ha|Hh]]; [by rewrite Hsl in Hs| |by left].
  apply list_elem_of_fmap in Ha as ([i' []] & -> & Ha); cbn [fst]; [|by auto..].
  right; right; right. split; [done|]. destruct (ok_error _ Hok) as [e ->]; [right; by exists i'|by eexists].
Qed.

(** ** Errors *)

Lemma elem_of_insert_slot (l : list Slot) k new x : x ∈ <[k := new]> l → x = new ∨ x ∈ l.
Proof.
  intros (k' & Hk')%list_elem_of_lookup. apply list_lookup_insert_Some in Hk' as [(_ & <- & _)|(_ & Hk')];
    [by left|right]. by eapply list_elem_of_lookup_2.
Qed.

Lemma elem_of_delete_slot (l : list Slot) k x : x ∈ delete k l → x ∈ l.
Proof. intros Hx. eapply elem_of_sublist; [done|apply sublist_delete]. Qed.

Lemma step_error s s' : step s s' →
  (∀ e, run_error s = Some e → run_error s' = Some e) ∧
  (fetch_failed s = true →
     fetch_failed s' = true ∧ (∀ job, Running job ∈ slots s' → Running job ∈ slots s) ∧
     (stream s' = InFlight → stream s = InFlight)).
Proof.
  intros Hs. inversion Hs; subst; cbn; (split; [intros e' He; rewrite ?He; cbn; try done|]);
    try (intros Hf; split_and!; try congruence; intros job').
  all: unfold release_error, removed_slot in *; repeat case_match; try done.
  all: rewrite ?elem_of_app; intros Hr; first [apply elem_of_insert_slot in Hr as [?|?]|apply elem_of_delete_slot in Hr|idtac];
    try done; try (destruct Hr as [?|Hr]; [done|]; by apply list_elem_of_singleton in Hr).
Qed.

(** The first error wins and stops everything.  Once an error is recorded
    it is the one [run_once] returns; a failed fetch records one, and from then
    on no further job starts and no further claim is begun. *)
Theorem run_once_first_error w s s' :
  keyed (tables_of w) → (∀ i j, jobs (tables_of w) !! i = Some j → locked_by j ≠ Some w_id) →
  reachable w s → rtc step s s' →
  (∀ e, run_error s = Some e → run_error s' = Some e ∧ ∀ res, returned s' res → res = Err e) ∧
  (fetch_failed s = true →
     is_Some (run_error s) ∧ fetch_failed s' = true ∧
     (∀ job, Running job ∈ slots s' → Running job ∈ slots s) ∧
     (stream s' = InFlight → stream s = InFlight)).
Proof.
  intros Hk Hn Hr Hs. pose proof (ok_error _ (reachable_ok w s Hk Hn Hr)) as He. clear Hr.
  assert ((∀ e, run_error s = Some e → run_error s' = Some e) ∧
    (fetch_failed s = true → fetch_failed s' = true ∧ (∀ job, Running job ∈ slots s' → Running job ∈ slots s) ∧
     (stream s' = InFlight → stream s = InFlight))) as [H1 H2].
  { clear He. induction Hs as [|a b c Hab _ IH]; [done|]. destruct (step_error a b Hab) as [E1 E2], IH as [I1 I2].
    split; [by eauto|]. intros Hf. destruct (E2 Hf) as (Hf' & ? & ?), (I2 Hf') as (? & ? & ?). split_and!; eauto. }
  split; [|by auto]. intros e Hee. specialize (H1 e Hee). split; [done|]. intros res (_ & _ & ->). by rewrite H1.
Qed.
End run_once.

(** ** Cancelled claims *)

(** The state after shutdown dropped the stream's first claim, which had
    committed. *)
Definition cancelled (w : World) (db : Db) (job : Job) : State :=
  mkState (with_tables w db) StreamEnded [] false None [(id job, CancelledFetch)].

Lemma cancelled_reachable escaped exp_secs worker concurrency w db job :
  claims worker w db (Some job) →
  reachable escaped exp_secs worker concurrency w (cancelled w db job).
Proof.
  intros Hc. eapply rtc_l.
  - apply stream_fetch; [done..|]. destruct concurrency; [by left|right; cbn; lia].
  - eapply rtc_once, (stream_shutdown_committed _ _ _ _ (mkState w InFlight [] false None [])); done.
Qed.

(** A claim under way when shutdown is signalled can be lost: for every
    job the worker could claim first, there is an execution in which [run_once]
    returns success while that job stays locked by the worker, and no slot ran
    it. *)
Theorem cancelled_fetch_leaks_claim escaped exp_secs worker concurrency w db (job : Job) :
  keyed (tables_of w) → claims worker w db (Some job) →
  ∃ s, reachable escaped exp_secs worker concurrency w s ∧ returned s (Ok tt) ∧
    slots s = [] ∧ events (world s) = events w ∧
    ∃ j, jobs (tables_of (world s)) !! id job = Some j ∧ locked_by j = Some (worker_id worker).
Proof.
  intros Hk Hc. exists (cancelled w db job). split_and!; [by apply cancelled_reachable|done..|].
  destruct Hc as (con & clock & now & Hget). destruct (get_claim_some _ _ _ _ _ _ _ _ _ Hk Hget) as (old & Hcl & -> & _).
  pose proof Hcl as (_ & Hc & _). destruct (Hc (id job) old) as [Hold _]; [set_solver|].
  exists (lock_job (worker_id worker) (default clock now) old). split; [|done].
  apply (apply_claim_job (worker_id worker) (default clock now) [(id job, old)] (tables_of w)); [done|set_solver].
Qed.

(** ** Witnesses *)

Definition idle_worker : WorkerRunner := demo_worker demo_failing None.

Lemma demo_claims :
  ∃ db job, claims idle_worker (demo_world demo_db) db (Some job) ∧ id job = 1.
Proof.
  destruct demo_single_claim.2 as [job|] eqn:E; [|vm_compute in E; discriminate E].
  exists demo_single_claim.1, job. split.
  - exists demo_con, 200, None. pose proof (get_exec_step demo_con 200 demo_tasks (lit "w") no_filter None demo_db) as H.
    fold demo_single_claim in H. rewrite E in H. exact H.
  - vm_compute in E. injection E as <-. reflexivity.
Qed.

Lemma demo_keyed : keyed (tables_of (demo_world demo_db)).
Proof. apply keyed_check. vm_compute. reflexivity. Qed.

Lemma demo_unlocked i j :
  jobs (tables_of (demo_world demo_db)) !! i = Some j → locked_by j ≠ Some (worker_id idle_worker).
Proof.
  assert (bool_decide (map_Forall (λ _ j, locked_by j = None) (jobs demo_db)) = true) as H
    by (vm_compute; reflexivity).
  intros Hj. rewrite (bool_decide_eq_true_1 _ H i j Hj). discriminate.
Qed.

Lemma run_once_accounts_for_claims_witness :
  ∃ s, reachable ascii_only demo_exp idle_worker 2 (demo_world demo_db) s ∧ returned s (Ok tt) ∧
    ∀ i j, jobs (tables_of (world s)) !! i = Some j → locked_by j = Some (lit "w") →
      handed_over (world s) i ∨ (i, SkippedByHook) ∈ abandoned s ∨ (i, CancelledFetch) ∈ abandoned s ∨
      ((i, Unpersisted) ∈ abandoned s ∧ ∃ e, (Ok tt : result unit ProcessJobError) = Err e).
Proof.
  destruct demo_claims as (db & job & Hc & _). exists (cancelled (demo_world demo_db) db job).
  split; [apply cancelled_reachable; exact Hc|]. split; [split; [reflexivity|split; reflexivity]|].
  apply (run_once_accounts_for_claims ascii_only demo_exp idle_worker 2 (demo_world demo_db)
    (cancelled (demo_world demo_db) db job) (Ok tt)).
  - exact demo_keyed.
  - exact demo_unlocked.
  - apply cancelled_reachable. exact Hc.
  - split; [reflexivity|split; reflexivity].
Defined.

Definition failed_first : State :=
  mkState (demo_world demo_db) StreamEnded [] true (Some (GetJobError RolledBack)) [].

Lemma run_once_first_error_witness :
  reachable ascii_only demo_exp idle_worker 2 (demo_world demo_db) failed_first ∧
  ∀ res, returned failed_first res → res = Err (GetJobError RolledBack).
Proof.
  assert (reachable ascii_only demo_exp idle_worker 2 (demo_world demo_db) failed_first) as Hr.
  { eapply rtc_l; [apply stream_fetch; [reflexivity..|right; cbn; lia]|].
    eapply rtc_once, (stream_error _ _ _ _ (mkState (demo_world demo_db) InFlight [] false None []) RolledBack _ []);
      [reflexivity|constructor]. }
  split; [exact Hr|].
  destruct (run_once_first_error ascii_only demo_exp idle_worker 2 (demo_world demo_db) failed_first failed_first)
    as [H _].
  - exact demo_keyed.
  - exact demo_unlocked.
  - exact Hr.
  - constructor.
  - apply (H (GetJobError RolledBack) eq_refl).
Defined.

Lemma cancelled_fetch_leaks_claim_witness :
  ∃ s j, returned s (Ok tt) ∧ jobs (tables_of (world s)) !! 1 = Some j ∧ locked_by j = Some (lit "w").
Proof.
  destruct demo_claims as (db & job & Hc & Hid).
  destruct (cancelled_fetch_leaks_claim ascii_only demo_exp idle_worker 2 (demo_world demo_db) db job demo_keyed Hc)
    as (s & _ & Hr & _ & _ & j & Hj & Hl).
  exists s, j. rewrite Hid in Hj. split; [exact Hr|]. split; [exact Hj|exact Hl].
Defined.

End RunOnce.
