(* ===== verification/Dispatch.v ===== *)
(** * Job signals and their dispatch (src/streams/job_signal,
    src/runner/sources/dispatch.rs)

    The stream of signals that tells a worker to look for jobs, and the
    dispatcher that fans them out to the job slots, watches the slots and
    drains them when the stream ends or a slot fails.  A slot is seen through
    its channel and the way it ends; what it does with a job is in Runner.v. *)

From S2P Require Import Prelude.

Module Dispatch.

(** ** job_signal/mod.rs, state.rs *)

Inductive JobSignalSource := Polling | Notification | RunOnceRequest | LocalQueueActivity.

Inductive NextSignal :=
| Source (s : JobSignalSource)
| LocalQueueClosed
| NotificationListenerClosed
| Shutdown.

(** What the futures of one [select_biased!] have to offer when polled; [None]
    is pending.  A listener offers a notification, an error or its end. *)
Inductive ListenerItem := Notified | ListenerError | ListenerEnd.

Record Ready := mkReady {
  shutdown_ready : bool;
  interval_ready : bool;
  listener_ready : option ListenerItem;
  local_ready : option (result unit unit)
}.

(** The optional sources of the stream that remain. *)
Record JobSignalStreamData := mkData { has_listener : bool; has_local_queue : bool }.

(** ** job_signal/select.rs *)

Definition pg_listener_result_to_signal (i : ListenerItem) : NextSignal :=
  match i with
  | Notified => Source Notification
  | ListenerError | ListenerEnd => NotificationListenerClosed
  end.

Definition local_queue_result (r : result unit unit) : NextSignal :=
  match r with Ok _ => Source LocalQueueActivity | Err _ => LocalQueueClosed end.

(** The first ready branch of a [select_biased!]. *)
Fixpoint first_ready (branches : list (option NextSignal)) : option NextSignal :=
  match branches with
  | [] => None
  | Some s :: _ => Some s
  | None :: rest => first_ready rest
  end.

Definition shutdown_branch (r : Ready) : option NextSignal :=
  if shutdown_ready r then Some Shutdown else None.
Definition interval_branch (r : Ready) : option NextSignal :=
  if interval_ready r then Some (Source Polling) else None.
Definition listener_branch (r : Ready) : option NextSignal :=
  pg_listener_result_to_signal <$> listener_ready r.
Definition local_branch (r : Ready) : option NextSignal := local_queue_result <$> local_ready r.

Definition next_signal_polling_only (r : Ready) : option NextSignal :=
  first_ready [shutdown_branch r; interval_branch r].
Definition next_signal_with_listener (r : Ready) : option NextSignal :=
  first_ready [shutdown_branch r; interval_branch r; listener_branch r].
Definition next_signal_with_local_queue (listener : bool) (r : Ready) : option NextSignal :=
  if listener
  then first_ready [shutdown_branch r; interval_branch r; listener_branch r; local_branch r]
  else first_ready [shutdown_branch r; interval_branch r; local_branch r].

Definition next_signal (data : JobSignalStreamData) (r : Ready) : option NextSignal :=
  if has_local_queue data then next_signal_with_local_queue (has_listener data) r
  else if has_listener data then next_signal_with_listener r
  else next_signal_polling_only r.

(** One poll of the stream: pending, the next item with the new state, or the
    end. *)
Inductive Poll := Pending | Item (s : JobSignalSource) (data : JobSignalStreamData) | EndOfStream.

Definition job_signal_stream (data : JobSignalStreamData) (r : Ready) : Poll :=
  match next_signal data r with
  | None => Pending
  | Some (Source s) => Item s data
  | Some LocalQueueClosed => EndOfStream
  | Some NotificationListenerClosed => Item Polling (mkData false (has_local_queue data))
  | Some Shutdown => EndOfStream
  end.

(** ** sources/dispatch.rs *)

Section dispatch.
(** The errors of a slot's body, of listening and of the cron scheduler. *)
Context {ProcessError GraphileWorkerError ScheduleCronJobError : Type}.

Inductive SlotResult := SlotOk | SlotFailed (e : ProcessError) | SlotPanicked.

(** A slot: in [next_job_signal], working on a signal, ended, and joined by
    the dispatcher. *)
Inductive Slot := Waiting | Busy (s : JobSignalSource) | Ended (r : SlotResult) | Joined.

(** [slot_error], as the error reported for it. *)
Inductive WorkerRuntimeError :=
| ProcessJob (e : ProcessError)
| WorkerTask
| PgListen (e : GraphileWorkerError)
| Crontab (e : ScheduleCronJobError).

Definition slot_error (r : SlotResult) : option WorkerRuntimeError :=
  match r with
  | SlotOk => None
  | SlotFailed e => Some (ProcessJob e)
  | SlotPanicked => Some WorkerTask
  end.

Inductive Phase := Dispatching | Draining | Returned (r : result unit WorkerRuntimeError).

(** The slots, the channel to them, the shutdown signal, the calls of
    [shutdown_notifier.notify_one], and the dispatcher's state; [joined]
    records the results in the order they were joined. *)
Record State := mkState {
  slots : list Slot;
  buffer : list JobSignalSource;
  tx_closed : bool;
  shutdown : bool;
  notified : nat;
  phase : Phase;
  first_error : option WorkerRuntimeError;
  joined : list SlotResult
}.

Context (fanout capacity : nat).

Definition has_ended (s : Slot) : bool := match s with Ended _ | Joined => true | _ => false end.

(** A channel is closed by [close] or once every receiver is dropped. *)
Definition closed (s : State) : bool := tx_closed s || forallb has_ended (slots s).

Inductive FanoutResult := Open | Closed.

(** The loop of [fanout_job_signal] over [try_send]. *)
Fixpoint fanout_job_signal (is_closed : bool) (source : JobSignalSource) (n : nat)
    (buf : list JobSignalSource) : list JobSignalSource * FanoutResult :=
  match n with
  | O => (buf, Open)
  | S n =>
      if is_closed then (buf, Closed)
      else if bool_decide (length buf < capacity) then fanout_job_signal is_closed source n (buf ++ [source])
      else (buf, Open)
  end.

Definition set_slot (k : nat) (x : Slot) (s : State) : State :=
  mkState (<[k := x]> (slots s)) (buffer s) (tx_closed s) (shutdown s) (notified s) (phase s)
    (first_error s) (joined s).
Definition set_buffer (b : list JobSignalSource) (s : State) : State :=
  mkState (slots s) b (tx_closed s) (shutdown s) (notified s) (phase s) (first_error s) (joined s).

(** Leaving the loop: [source_tx.close()]. *)
Definition break (s : State) : State :=
  mkState (slots s) (buffer s) true (shutdown s) (notified s) Draining (first_error s) (joined s).

(** The handle of slot [k] yields its result. *)
Definition join (k : nat) (r : SlotResult) (s : State) : State :=
  mkState (<[k := Joined]> (slots s)) (buffer s) (tx_closed s) (shutdown s) (notified s) (phase s)
    (first_error s) (joined s ++ [r]).

(** [first_error = Some(error)] and [notify_one]. *)
Definition record_error (e : WorkerRuntimeError) (s : State) : State :=
  mkState (slots s) (buffer s) (tx_closed s) (shutdown s) (S (notified s)) (phase s) (Some e) (joined s).

Definition all_joined (s : State) : bool :=
  forallb (λ x, match x with Joined => true | _ => false end) (slots s).

Definition none_ended (s : State) : Prop := ∀ k r, slots s !! k ≠ Some (Ended r).

Definition return_result (s : State) : State :=
  mkState (slots s) (buffer s) (tx_closed s) (shutdown s) (notified s)
    (Returned (match first_error s with Some e => Err e | None => Ok tt end)) (first_error s) (joined s).

Inductive step : State → State → Prop :=
(** [next_job_signal] of a slot, and how its work ends. *)
| slot_shutdown s k :
    slots s !! k = Some Waiting → shutdown s = true →
    step s (set_buffer [] (set_slot k (Ended SlotOk) s))
| slot_signal s k x rest :
    slots s !! k = Some Waiting → shutdown s = false → buffer s = x :: rest →
    step s (set_buffer rest (set_slot k (Busy x) s))
| slot_disconnected s k :
    slots s !! k = Some Waiting → shutdown s = false → buffer s = [] → tx_closed s = true →
    step s (set_slot k (Ended SlotOk) s)
| slot_continues s k x :
    slots s !! k = Some (Busy x) → step s (set_slot k Waiting s)
| slot_fails s k x r :
    slots s !! k = Some (Busy x) → r ≠ SlotOk → step s (set_slot k (Ended r) s)
(** The loop of the dispatcher. *)
| join_ok s k :
    phase s = Dispatching → slots s !! k = Some (Ended SlotOk) →
    let s' := join k SlotOk s in step s (if all_joined s' then break s' else s')
| join_error s k r e :
    phase s = Dispatching → slots s !! k = Some (Ended r) → slot_error r = Some e →
    step s (break (record_error e (join k r s)))
| no_handles s :
    phase s = Dispatching → all_joined s = true → step s (break s)
| signal_item s source buf res :
    phase s = Dispatching → none_ended s →
    fanout_job_signal (closed s) source fanout (buffer s) = (buf, res) →
    step s (match res with Open => set_buffer buf s | Closed => break (set_buffer buf s) end)
| signal_end s :
    phase s = Dispatching → none_ended s → step s (break s)
(** The drain. *)
| drain_join s k r :
    phase s = Draining → slots s !! k = Some (Ended r) →
    step s (match slot_error r, first_error s with
            | Some e, None => record_error e (join k r s)
            | _, _ => join k r s
            end)
| drain_end s :
    phase s = Draining → all_joined s = true → step s (return_result s)
(** The shutdown signal fires. *)
| shutdown_fires s :
    shutdown s = false →
    step s (mkState (slots s) (buffer s) (tx_closed s) true (notified s) (phase s) (first_error s) (joined s)).

Definition initial (concurrency : nat) : State :=
  mkState (replicate concurrency Waiting) [] false false 0 Dispatching None [].

Definition reachable (concurrency : nat) : State → Prop := rtc step (initial concurrency).

#[local] Arguments count_if {A} p l : simpl never.

(** ** Fan-out *)

Lemma fanout_spec b source n buf :
  (fanout_job_signal b source n buf).1
  = buf ++ replicate (if b then 0 else Nat.min n (capacity - length buf)) source ∧
  ((fanout_job_signal b source n buf).2 = Closed ↔ b = true ∧ n ≠ 0).
Proof.
  revert buf. induction n as [|n IH]; intros buf; cbn.
  { destruct b; cbn; rewrite app_nil_r; naive_solver. }
  destruct b; cbn; [by rewrite app_nil_r|]. case_bool_decide as Hl; cbn.
  - destruct (IH (buf ++ [source])) as [-> H]. split; [|naive_solver].
    rewrite length_app, <- app_assoc. cbn [length app].
    by replace (capacity - length buf) with (S (capacity - (length buf + 1))) by lia.
  - replace (capacity - length buf) with 0 by lia. cbn. rewrite app_nil_r. naive_solver.
Qed.

(** ** Invariant *)

Definition is_joined (x : Slot) : bool := match x with Joined => true | _ => false end.

Record inv (concurrency : nat) (s : State) : Prop := {
  inv_slots : length (slots s) = concurrency;
  inv_buffer : length (buffer s) ≤ capacity;
  inv_closed : phase s ≠ Dispatching → tx_closed s = true;
  inv_error : first_error s = head (filter_map slot_error (joined s));
  inv_notified : notified s = length (take 1 (filter_map slot_error (joined s)));
  inv_clean : phase s = Dispatching → first_error s = None;
  inv_joined : length (joined s) = count_if is_joined (slots s);
  inv_returned r : phase s = Returned r →
    all_joined s = true ∧ r = match first_error s with Some e => Err e | None => Ok tt end
}.

Lemma count_if_insert (l : list Slot) k old new :
  l !! k = Some old →
  (count_if is_joined (<[k := new]> l) + (if is_joined old then 1 else 0)
   = count_if is_joined l + (if is_joined new then 1 else 0))%nat.
Proof.
  revert k. induction l as [|x l IH]; intros [|k] Hk; [done..| |]; cbn in Hk.
  - injection Hk as ->. change (<[0 := new]> (old :: l)) with (new :: l). rewrite !count_if_cons. lia.
  - change (<[S k := new]> (x :: l)) with (x :: <[k := new]> l). rewrite !count_if_cons. specialize (IH k Hk). lia.
Qed.

Lemma all_joined_count s : all_joined s = true → count_if is_joined (slots s) = length (slots s).
Proof.
  unfold all_joined. generalize (slots s) as l. induction l as [|x l IH]; [done|]. cbn.
  rewrite andb_true_iff. intros [Hx Hl]. rewrite count_if_cons, IH by done. by destruct x.
Qed.

Lemma dispatch_initial_inv c : inv c (initial c).
Proof.
  constructor; cbn; try done; [apply length_replicate|lia|].
  induction c as [|c IH]; cbn; [done|]. by rewrite count_if_cons.
Qed.

(** A step of a slot. *)
Lemma inv_set_slot c s k old new :
  inv c s → slots s !! k = Some old → is_joined old = false → is_joined new = false →
  (∀ r, phase s ≠ Returned r) → inv c (set_slot k new s).
Proof.
  intros [] Hk Ho Hn Hp. constructor; cbn; try done.
  - by rewrite length_insert.
  - pose proof (count_if_insert _ _ _ new Hk) as H. rewrite Ho, Hn in H. lia.
  - intros r Hr. by destruct (Hp r).
Qed.

Lemma all_joined_lookup s k x : all_joined s = true → slots s !! k = Some x → x = Joined.
Proof.
  unfold all_joined. rewrite forallb_forall. intros H Hx%list_elem_of_lookup_2%list_elem_of_In.
  specialize (H x Hx). by destruct x.
Qed.

Lemma inv_not_returned c s k x :
  inv c s → slots s !! k = Some x → x ≠ Joined → ∀ r, phase s ≠ Returned r.
Proof. intros Hi Hk Hx r Hr. apply Hx. destruct (inv_returned _ _ Hi r Hr). by eapply all_joined_lookup. Qed.

Lemma inv_set_buffer c s b : inv c s → length b ≤ capacity → inv c (set_buffer b s).
Proof. intros [] Hb. by constructor. Qed.

Lemma inv_break c s : inv c s → phase s = Dispatching → inv c (break s).
Proof. intros [] Hp. by constructor. Qed.

Lemma inv_break_any c s : inv c s → (∀ r, phase s ≠ Returned r) → inv c (break s).
Proof. intros [] Hp. by constructor. Qed.

(** Joining a slot that ended, and recording its error when it is the first. *)
Lemma inv_join_ok c s k : inv c s → slots s !! k = Some (Ended SlotOk) → inv c (join k SlotOk s).
Proof.
  intros Hi Hk. pose proof (inv_not_returned c s k _ Hi Hk ltac:(done)) as Hp. destruct Hi. constructor; cbn;
    rewrite ?filter_map_app; cbn; rewrite ?app_nil_r; try done.
  - by rewrite length_insert.
  - pose proof (count_if_insert _ _ _ Joined Hk) as H. cbn in H. rewrite length_app. cbn. lia.
  - intros r Hr. by destruct (Hp r).
Qed.

Lemma inv_join_error c s k r e :
  inv c s → slots s !! k = Some (Ended r) → slot_error r = Some e → first_error s = None →
  inv c (break (record_error e (join k r s))).
Proof.
  intros Hi Hk He Hf. pose proof (inv_not_returned c s k _ Hi Hk ltac:(done)) as Hp. destruct Hi.
  assert (filter_map slot_error (joined s) = []) as Hnil.
  { rewrite Hf in inv_error0. by destruct (filter_map slot_error (joined s)). }
  constructor; cbn; rewrite ?filter_map_app, ?Hnil; cbn; rewrite ?He; try done.
  - by rewrite length_insert.
  - by rewrite inv_notified0, Hnil.
  - pose proof (count_if_insert _ _ _ Joined Hk) as H. cbn in H. rewrite length_app. cbn. lia.
Qed.

Lemma inv_join_later c s k r e0 :
  inv c s → slots s !! k = Some (Ended r) → phase s = Draining → first_error s = Some e0 →
  inv c (join k r s).
Proof.
  intros Hi Hk Hd Hf. destruct Hi.
  assert (∃ l, filter_map slot_error (joined s) = e0 :: l) as [l Hl].
  { rewrite Hf in inv_error0. destruct (filter_map slot_error (joined s)); [done|]. injection inv_error0 as <-. by eexists. }
  constructor; cbn; rewrite ?filter_map_app, ?Hl, ?Hf, ?Hd; cbn; try done.
  - by rewrite length_insert.
  - rewrite <- Hd. by apply inv_closed0.
  - by rewrite inv_notified0, Hl.
  - pose proof (count_if_insert _ _ _ Joined Hk) as H. cbn in H. rewrite length_app. cbn. lia.
Qed.

Lemma slot_error_None r : slot_error r = None → r = SlotOk.
Proof. by destruct r. Qed.

Lemma drain_record c s k r e :
  inv c s → slots s !! k = Some (Ended r) → phase s = Draining → slot_error r = Some e → first_error s = None →
  inv c (record_error e (join k r s)).
Proof.
  intros Hi Hk Hd He Hf. destruct (inv_join_error c s k r e Hi Hk He Hf) as [].
  constructor; cbn in *; rewrite ?Hd; try done. intros _. apply (inv_closed _ _ Hi). by rewrite Hd.
Qed.

Lemma step_inv c s s' : step s s' → inv c s → inv c s'.
Proof.
  intros Hs Hi. inversion Hs as [? k Hk|? k ? ? Hk ? Hb|? k Hk|? k ? Hk|? k ? ? Hk|? k ? Hk|? k r e Hp Hk He
    |? Hp|? source ? ? Hp ? Hf|? Hp|? k r Hp Hk|? Hp|]; subst.
  - apply inv_set_buffer; [|cbn; lia]. eapply inv_set_slot; try done. by eapply inv_not_returned.
  - apply inv_set_buffer.
    + eapply inv_set_slot; try done. by eapply inv_not_returned.
    + pose proof (inv_buffer _ _ Hi) as H1. rewrite Hb in H1. cbn in H1. lia.
  - eapply inv_set_slot; try done. by eapply inv_not_returned.
  - eapply inv_set_slot; try done. by eapply inv_not_returned.
  - eapply inv_set_slot; try done. by eapply inv_not_returned.
  - destruct (all_joined _); [apply inv_break; [|done]|]; by apply inv_join_ok.
  - apply inv_join_error; try done. by apply (inv_clean _ _ Hi).
  - by apply inv_break.
  - pose proof (fanout_spec (closed s) source fanout (buffer s)) as [Hb _]. rewrite Hf in Hb. cbn in Hb. subst.
    assert (inv c (set_buffer (buffer s ++ replicate
      (if closed s then 0 else fanout `min` (capacity - length (buffer s))) source) s)) as Hb.
    { apply inv_set_buffer; [done|]. pose proof (inv_buffer _ _ Hi). rewrite length_app, length_replicate.
      destruct (closed s); lia. }
    destruct res; [done|by apply inv_break].
  - by apply inv_break.
  - destruct (slot_error r) as [e|] eqn:He.
    + destruct (first_error s) as [e0|] eqn:Hf; [by eapply inv_join_later|by apply drain_record].
    + apply slot_error_None in He as ->. by apply inv_join_ok.
  - destruct Hi. constructor; cbn; try done; [intros _; apply inv_closed0; congruence|]. by intros r [= <-].
  - destruct Hi. by constructor.
Qed.

Lemma dispatch_reachable_inv c s : reachable c s → inv c s.
Proof.
  intros Hr. pose proof (dispatch_initial_inv c) as Hi. unfold reachable in Hr. induction Hr; eauto using step_inv.
Qed.

(** C15: The dispatcher returns only after every slot has stopped.  Whatever the
    signals, slots and the shutdown signal do, when it returns all slots have
    ended and been joined and the channel is closed; it reports the first slot
    that failed or panicked, if any, and has then, and only then, requested
    shutdown, once; and the channel to the slots never exceeds its capacity. *)
Theorem dispatch_waits_for_slots c s :
  reachable c s →
  length (buffer s) ≤ capacity ∧
  (first_error s = head (filter_map slot_error (joined s))) ∧
  (notified s = 1 ∨ notified s = 0) ∧ (notified s = 1 ↔ is_Some (first_error s)) ∧
  ∀ r, phase s = Returned r →
    (∀ k x, slots s !! k = Some x → x = Joined) ∧ length (joined s) = c ∧ tx_closed s = true ∧
    r = match head (filter_map slot_error (joined s)) with Some e => Err e | None => Ok tt end.
Proof.
  intros Hi%dispatch_reachable_inv. pose proof Hi as []. rewrite inv_error0, inv_notified0.
  split_and!; [done|done|by destruct (filter_map _ _); cbn; auto| |].
  - destruct (filter_map _ _); cbn; by split; intros H.
  - intros r Hr. destruct (inv_returned0 r Hr) as [Ha ->]. split_and!.
    + intros k x. by apply all_joined_lookup.
    + by rewrite inv_joined0, all_joined_count.
    + apply inv_closed0. by rewrite Hr.
    + by rewrite inv_error0.
Qed.

(** ** Termination of the drain *)

Definition weight (x : Slot) : nat :=
  match x with Joined => 0 | Ended _ => 1 | Waiting => 2 | Busy _ => 3 end.

Definition measure (s : State) : nat :=
  sum_list (weight <$> slots s) + 2 * length (buffer s) + (if shutdown s then 0 else 1)
  + match phase s with Returned _ => 0 | _ => 1 end.

Lemma draining_step_decreases s s' : step s s' → phase s = Draining → measure s' < measure s.
Proof.
  intros Hs Hd. unfold measure.
  inversion Hs as [? k Hk|? k ? ? Hk ? Hb|? k Hk|? k ? Hk|? k ? ? Hk|? k ? Hk|? k r e Hp Hk He
    |? Hp|? source ? ? Hp ? Hf|? Hp|? k r Hp Hk|? Hp|? Hsh]; subst; try congruence; cbn; rewrite ?Hd, ?Hsh.
  1: pose proof (sum_list_insert weight _ _ _ (Ended SlotOk) Hk) as HS; cbn in HS; lia.
  1: pose proof (sum_list_insert weight _ _ _ (Busy x) Hk) as HS; cbn in HS; rewrite Hb; cbn; lia.
  1: pose proof (sum_list_insert weight _ _ _ (Ended SlotOk) Hk) as HS; cbn in HS; lia.
  1: pose proof (sum_list_insert weight _ _ _ Waiting Hk) as HS; cbn in HS; lia.
  1: pose proof (sum_list_insert weight _ _ _ (Ended r) Hk) as HS; cbn in HS; lia.
  1: pose proof (sum_list_insert weight _ _ _ Joined Hk) as HS; cbn in HS; destruct (slot_error r), (first_error s); cbn; rewrite ?Hd; lia.
  all: lia.
Qed.

Lemma not_all_joined s : all_joined s = false → ∃ k x, slots s !! k = Some x ∧ x ≠ Joined.
Proof.
  unfold all_joined. generalize (slots s) as l. induction l as [|x l IH]; [done|]. cbn. intros H.
  destruct (decide (is_joined x = true)) as [Hx|Hx].
  - destruct IH as (k & y & Hk & Hy); [destruct x; try done|by exists (S k), y].
  - exists 0, x. split; [done|]. by intros ->.
Qed.

Lemma draining_step_phase s s' : step s s' → phase s = Draining → phase s' = Draining ∨ ∃ r, phase s' = Returned r.
Proof.
  intros Hs Hd. inversion Hs; subst; try congruence; cbn; auto; try (right; by eexists).
  repeat case_match; by left.
Qed.

Lemma returned_step_phase c s s' r : inv c s → step s s' → phase s = Returned r → phase s' = Returned r.
Proof.
  intros Hi Hs Hr. inversion Hs as [? k Hk|? k ? ? Hk|? k Hk|? k ? Hk|? k ? ? Hk|? k ? Hk|? k ? ? ? Hk
    |? Hp|? ? ? ? Hp|? Hp|? k ? ? Hk|? Hp|]; subst; try congruence; try done.
Qed.

(** C39: The drain terminates.  In every reachable state of the drain some step
    is possible; every step, of a slot that finishes its work, the dispatcher
    or the shutdown signal, in any order, decreases the measure, so after at
    most [measure] steps the dispatcher has returned. *)
Theorem dispatch_drain_terminates c s :
  reachable c s → phase s = Draining →
  (∃ s', step s s') ∧
  (∀ n s', nsteps step n s s' → n + measure s' ≤ measure s ∨ ∃ r, phase s' = Returned r) ∧
  (∀ s', rtc step s s' → (∀ s'', ¬ step s' s'') → ∃ r, phase s' = Returned r).
Proof.
  intros Hr Hd.
  assert (∀ s, inv c s → phase s = Draining → ∃ s', step s s') as Hprog.
  { clear s Hr Hd. intros s Hi Hd. destruct (all_joined s) eqn:Ha; [by eexists; apply drain_end|].
    destruct (not_all_joined s Ha) as (k & x & Hk & Hx). destruct x as [|b|r|]; [|by eexists; eapply slot_continues
      |by eexists; eapply drain_join|done].
    destruct (shutdown s) eqn:Hs; [by eexists; eapply slot_shutdown|].
    destruct (buffer s) as [|b bs] eqn:Hb; [|by eexists; eapply slot_signal].
    eexists. eapply slot_disconnected; try done. apply (inv_closed _ _ Hi). by rewrite Hd. }
  pose proof (dispatch_reachable_inv c s Hr) as Hi. split_and!; [by apply Hprog| |].
  - clear Hr. intros n s' Hn. revert Hi Hd. induction Hn as [|n a b b' Hab Hn IH]; intros Hi Hd; [left; lia|].
    pose proof (draining_step_decreases a b Hab Hd). destruct (draining_step_phase a b Hab Hd) as [Hb|[r Hb]].
    + destruct (IH (step_inv _ _ _ Hab Hi) Hb); [left; lia|by right].
    + right. exists r. apply step_inv with (c := c) in Hab; [|done]. clear IH Hi Hd H.
      induction Hn as [|n x y z Hxy Hn IH]; [done|]. apply IH; [by eapply step_inv|by eapply returned_step_phase].
  - intros s' Hs' Hstuck. assert (inv c s' ∧ (phase s' = Draining ∨ ∃ r, phase s' = Returned r)) as [Hi' [Hp|Hp]]; [| |done].
    + clear Hr Hstuck. assert (phase s = Draining ∨ ∃ r, phase s = Returned r) as Hp by (by left). clear Hd. revert Hi Hp.
      induction Hs' as [|a b b' Hab _ IH]; intros Hi Hp; [done|]. apply IH; [by eapply step_inv|].
      destruct Hp as [Hp|[r Hp]]; [by eapply draining_step_phase|right; exists r; by eapply returned_step_phase].
    + destruct (Hprog s' Hi' Hp) as [s'' H]. by destruct (Hstuck s'').
Qed.
End dispatch.

(** ** The signal stream *)

(** The stream ends exactly on shutdown, which wins over every other source,
    or when the local queue's channel is closed and nothing else is ready; a
    listener that fails is replaced by polling and costs no more than its
    notifications. *)
Theorem signal_stream_ends_only_on_shutdown data r :
  (job_signal_stream data r = EndOfStream ↔
     shutdown_ready r = true ∨
     shutdown_ready r = false ∧ interval_ready r = false ∧ has_local_queue data = true ∧
     (has_listener data = true → listener_ready r = None) ∧ local_ready r = Some (Err tt)) ∧
  (∀ s data', job_signal_stream data r = Item s data' →
     has_local_queue data' = has_local_queue data ∧
     (has_listener data' = has_listener data ∨ s = Polling) ∧
     (s = Notification → has_listener data = true)).
Proof.
  unfold job_signal_stream, next_signal, next_signal_with_local_queue, next_signal_with_listener,
    next_signal_polling_only, shutdown_branch, interval_branch, listener_branch, local_branch.
  destruct data as [li lo], r as [sh iv ls lr]; cbn.
  destruct sh, iv, ls as [[]|], lr as [[[]|[]]|], li, lo; cbn; split;
    try (split; intros H; try done; naive_solver); intros s d H; naive_solver.
Qed.

(** ** Witnesses *)

Lemma demo_draining : reachable (ProcessError := unit) (GraphileWorkerError := unit) (ScheduleCronJobError := unit) 1 4 1 (break (initial 1)).
Proof. apply rtc_once, signal_end; [done|]. intros [|k] r; done. Qed.

Lemma demo_returned :
  reachable (ProcessError := unit) (GraphileWorkerError := unit) (ScheduleCronJobError := unit) 1 4 1 (return_result (join 0 SlotOk (set_slot 0 (Ended SlotOk) (break (initial 1))))).
Proof.
  unfold reachable. etrans; [apply demo_draining|].
  eapply rtc_l; [by apply (slot_disconnected _ _ _ 0)|].
  eapply rtc_l; [by apply (drain_join _ _ _ 0 SlotOk)|].
  apply rtc_once. by apply drain_end.
Qed.

Lemma dispatch_waits_for_slots_witness :
  let s : State (ProcessError := unit) (GraphileWorkerError := unit) (ScheduleCronJobError := unit) :=
    return_result (join 0 SlotOk (set_slot 0 (Ended SlotOk) (break (initial 1)))) in
  phase s = Returned (Ok tt) ∧ length (joined s) = 1.
Proof.
  destruct (dispatch_waits_for_slots (ProcessError := unit) (GraphileWorkerError := unit) (ScheduleCronJobError := unit) 1 4 1 _ demo_returned) as (_ & _ & _ & _ & H).
  split; [reflexivity|]. destruct (H (Ok tt) eq_refl) as (_ & Hl & _). exact Hl.
Defined.

Lemma dispatch_drain_terminates_witness :
  ∃ s : State (ProcessError := unit) (GraphileWorkerError := unit) (ScheduleCronJobError := unit), phase s = Draining ∧ measure s = 4 ∧ ∃ s', step 1 4 s s'.
Proof.
  exists (break (initial 1)). split; [reflexivity|]. split; [reflexivity|].
  destruct (dispatch_drain_terminates (ProcessError := unit) (GraphileWorkerError := unit) (ScheduleCronJobError := unit) 1 4 1 _ demo_draining eq_refl) as (H & _). exact H.
Defined.

End Dispatch.
