(* ===== verification/Slots.v ===== *)
(** * Job slots (src/runner/job_loop, src/runner/sources)

    What a slot of a worker does between the dispatcher's signals: a direct slot
    claims and runs jobs until a claim finds nothing; a slot of a worker with
    local queues visits the queues in turn, starting with its own, until none
    has a job.  The dispatcher is in Dispatch.v, claiming, running and releasing
    a job in Runner.v, the caches in LocalQueue.v.  Between any two steps of a
    slot the tables, the queues and the channel may change in any way, and
    shutdown may be signalled.  The logs are not in the code: they record what a
    slot did, for the theorems. *)

From S2P Require Import Prelude Job Database FlagFilter JobStore JobRelease Hooks TaskHandler.
From S2P Require Import Batcher LocalQueue Recovery Runner Dispatch.

Module Slots.
Import Job JobStore Runner.
Abbreviation Source := Dispatch.JobSignalSource.

(** ** sources/dispatch.rs: receiving a signal *)

Inductive Received := GotSignal (s : Source) (rest : list Source) | NoMore.

(** [None]: nothing to receive yet.  Shutdown comes first and empties the
    channel. *)
Definition next_job_signal (shutdown closed : bool) (buffer : list Source) : option Received :=
  if shutdown then Some NoMore
  else match buffer with
       | s :: rest => Some (GotSignal s rest)
       | [] => if closed then Some NoMore else None
       end.

(** ** sources/queue_wakeup.rs *)

(** One item of the stream of wakeups: shutdown ends it; a hint of [count]
    queue releases is pulsed to every local queue, and then makes direct slots
    poll or local-queue slots look again. *)
Definition wakeup_item (shutdown : bool) (hint : option Z) (queues : nat) : option (option (list (nat * Z) * Source)) :=
  if shutdown then Some None
  else match hint with
       | None => None
       | Some count =>
           Some (Some ((λ k, (k, count)) <$> seq 0 queues,
                       match queues with O => Dispatch.Polling | S _ => Dispatch.LocalQueueActivity end))
       end.

(** ** job_loop/direct.rs *)

Inductive Entry :=
| Signalled (s : Source)
| Ran (j : Job)
| FoundNothing (con : Concurrent) (now : Z) (db : Db)
| Stopped.

Inductive Phase := Idle | Draining (s : Source) | SlotEnded (r : result unit ProcessJobError).

Record Direct := mkDirect {
  d_phase : Phase; d_world : World; d_buffer : list Source; d_closed : bool; d_shutdown : bool; d_log : list Entry
}.
Definition direct_start (w : World) : Direct := mkDirect Idle w [] false false [].

Definition logged (p : Phase) (w : World) (e : list Entry) (s : Direct) : Direct :=
  mkDirect p w (d_buffer s) (d_closed s) (d_shutdown s) (d_log s ++ e).

Section direct.
Context (escaped : char → bool) (exp_secs : Z → Z) (worker : WorkerRunner).

Inductive direct_step (s : Direct) : Direct → Prop :=
| direct_receive src rest :
    d_phase s = Idle → next_job_signal (d_shutdown s) (d_closed s) (d_buffer s) = Some (GotSignal src rest) →
    direct_step s (mkDirect (Draining src) (d_world s) rest (d_closed s) (d_shutdown s) (d_log s ++ [Signalled src]))
| direct_finish :
    d_phase s = Idle → next_job_signal (d_shutdown s) (d_closed s) (d_buffer s) = Some NoMore →
    direct_step s (mkDirect (SlotEnded (Ok ())) (d_world s) [] (d_closed s) (d_shutdown s) (d_log s))
| direct_break src :
    d_phase s = Draining src → d_shutdown s = true → direct_step s (logged Idle (d_world s) [Stopped] s)
| direct_process src con clock now env w r :
    d_phase s = Draining src → d_shutdown s = false →
    process_one_job escaped exp_secs con clock now env worker (d_world s) w r →
    direct_step s (match r with
      | Ok (Some j) => logged (Draining Dispatch.Polling) w [Ran j] s
      | Ok None => logged Idle w [FoundNothing con (default clock now) (tables_of (d_world s))] s
      | Err e => logged (SlotEnded (Err e)) w [] s
      end)
(** Everything else in the process and the database. *)
| direct_others w buffer closed shutdown :
    (d_shutdown s = true → shutdown = true) →
    direct_step s (mkDirect (d_phase s) w buffer closed shutdown (d_log s)).

Definition direct_reachable (s : Direct) : Prop := ∃ w, rtc direct_step (direct_start w) s.

(** A claim that found nothing had nothing to find. *)
Definition nothing_ready (e : Entry) : Prop :=
  match e with
  | FoundNothing con now db => candidates con (task_ids (task_details worker)) (job_flag_filter worker) now db = []
  | _ => False
  end.

(** Signals, each answered by the jobs that were run for it, in order, until a
    claim found nothing or shutdown was seen. *)
Inductive rounds : list Entry → Prop :=
| rounds_nil : rounds []
| rounds_snoc l src js e : rounds l → nothing_ready e ∨ e = Stopped →
    rounds (l ++ Signalled src :: (Ran <$> js) ++ [e]).

(** A round under way. *)
Definition open_round (log : list Entry) : Prop := ∃ l src js, rounds l ∧ log = l ++ Signalled src :: (Ran <$> js).

Record direct_inv (s : Direct) : Prop := {
  inv_log : match d_phase s with
            | Idle | SlotEnded (Ok _) => rounds (d_log s)
            | Draining _ | SlotEnded (Err _) => open_round (d_log s)
            end;
  inv_stopped : Stopped ∈ d_log s → d_shutdown s = true
}.

Lemma open_round_ran log j : open_round log → open_round (log ++ [Ran j]).
Proof.
  intros (l & src & js & Hl & ->). exists l, src, (js ++ [j]). split; [done|].
  by rewrite fmap_app, <- (assoc_L (++)).
Qed.

Lemma open_round_closes log e : open_round log → nothing_ready e ∨ e = Stopped → rounds (log ++ [e]).
Proof.
  intros (l & src & js & Hl & ->) He. rewrite <- (assoc_L (++)). cbn. by apply rounds_snoc.
Qed.

Lemma get_none_nothing con clock now db db' :
  get_job_with_filter con clock (task_details worker) (worker_id worker) (job_flag_filter worker) now db db' None →
  nothing_ready (FoundNothing con (default clock now) db).
Proof.
  inversion 1 as [raw Hs Hd Hr]; subst. cbn. destruct raw as [|[k j] raw]; [by apply selection_nil in Hs|done].
Qed.

Lemma process_none_nothing con clock now env w w' :
  process_one_job escaped exp_secs con clock now env worker w w' (Ok None) →
  nothing_ready (FoundNothing con (default clock now) (tables_of w)).
Proof. inversion 1 as [| |db Hg|db j w1 r Hg Hr]; subst; [by eapply get_none_nothing|by destruct r]. Qed.

Lemma direct_step_inv s s' : direct_step s s' → direct_inv s → direct_inv s'.
Proof.
  intros Hstep [Hlog Hstop].
  destruct Hstep as [src rest Hp Hn|Hp Hn|src Hp Hsh|src con clock now env w r Hp Hsh Hr|w buf cl sh Hmono];
    rewrite ?Hp in Hlog; cbn.
  - split; cbn; [by exists (d_log s), src, []|]. intros [Hin|Hin]%elem_of_app; [by apply Hstop|set_solver].
  - by split.
  - split; cbn; [|done]. apply open_round_closes; [done|by right].
  - destruct r as [[j|]|e]; (split; cbn; [|rewrite Hsh in Hstop; set_solver]).
    + by apply open_round_ran.
    + apply open_round_closes; [done|]. left. by eapply process_none_nothing.
    + by rewrite app_nil_r.
  - split; cbn; [done|]. auto.
Qed.

Lemma direct_reachable_inv s : direct_reachable s → direct_inv s.
Proof.
  intros [w Hr]. eapply (rtc_ind_r (λ s, direct_inv s) (direct_start w)); [|by intros; eapply direct_step_inv|done].
  split; [apply rounds_nil|set_solver].
Qed.

(** A direct slot answers every signal by claiming and running jobs one after
    the other until a claim finds that no job is ready for this worker, whatever
    other sessions do in between; only shutdown cuts a round short, and only an
    error ends the slot within one. *)
Theorem direct_slot_drains s : direct_reachable s →
  (d_phase s = Idle ∨ d_phase s = SlotEnded (Ok ()) → rounds (d_log s)) ∧
  (∀ src, d_phase s = Draining src → open_round (d_log s)) ∧
  (∀ e, d_phase s = SlotEnded (Err e) → open_round (d_log s)) ∧
  (Stopped ∈ d_log s → d_shutdown s = true).
Proof.
  intros [Hlog Hstop]%direct_reachable_inv. split_and!; [|intros ? Hp; by rewrite Hp in Hlog..|done].
  intros [Hp|Hp]; by rewrite Hp in Hlog.
Qed.
End direct.

(** ** job_loop/local_queue.rs, sources/local_queue.rs *)

Inductive LEntry :=
| LSignalled (s : Source)
| Took (k : nat) (j : Job)
| Missed (k : nat) (q : LocalQueue.Queue).

(** [Visiting src offset late]: looking for a job, at the given offset from the
    slot's own queue, before or after the first critical section of [get_job]. *)
Inductive LPhase :=
| LIdle | Visiting (s : Source) (offset : nat) (late : bool) | LRunning (j : Job)
| LEnded (r : result unit ProcessJobError) | LPanicked.

Record Local := mkLocal {
  l_phase : LPhase; l_world : World; l_queues : list LocalQueue.Queue;
  l_buffer : list Source; l_closed : bool; l_shutdown : bool; l_pulses : list nat; l_log : list LEntry
}.
Definition local_start (w : World) (qs : list LocalQueue.Queue) : Local := mkLocal LIdle w qs [] false false [] [].

Section local.
Context (escaped : char → bool) (exp_secs : Z → Z) (worker : WorkerRunner).
(** [start_index]: the number of the slot. *)
Context (index : nat).

Definition goto (p : LPhase) (qs : list LocalQueue.Queue) (es : list LEntry) (s : Local) : Local :=
  mkLocal p (l_world s) qs (l_buffer s) (l_closed s) (l_shutdown s) (l_pulses s) (l_log s ++ es).

(** [local_queues[start_index % local_queues.len()]]: [None] when the modulus is
    zero. *)
Definition queue_at (offset n : nat) : option nat := if n then None else Some ((index + offset) mod n)%nat.

(** A signal: a notification first pulses the slot's own queue. *)
Definition begin_source (src : Source) (rest : list Source) (s : Local) : Local :=
  let n := length (l_queues s) in
  let go := λ ps, mkLocal (Visiting src 0 false) (l_world s) (l_queues s) rest (l_closed s) (l_shutdown s)
                    (l_pulses s ++ ps) (l_log s ++ [LSignalled src]) in
  match src with
  | Dispatch.Notification =>
      match queue_at 0 n with
      | Some k => go [k]
      | None => mkLocal LPanicked (l_world s) (l_queues s) rest (l_closed s) (l_shutdown s) (l_pulses s) (l_log s)
      end
  | _ => go []
  end.

Inductive local_step (s : Local) : Local → Prop :=
| local_receive src rest :
    l_phase s = LIdle → next_job_signal (l_shutdown s) (l_closed s) (l_buffer s) = Some (GotSignal src rest) →
    local_step s (begin_source src rest s)
| local_finish :
    l_phase s = LIdle → next_job_signal (l_shutdown s) (l_closed s) (l_buffer s) = Some NoMore →
    local_step s (mkLocal (LEnded (Ok ())) (l_world s) (l_queues s) [] (l_closed s) (l_shutdown s) (l_pulses s) (l_log s))
(** The first critical section of [get_job]. *)
| local_early src offset k q :
    l_phase s = Visiting src offset false → (offset < length (l_queues s))%nat →
    queue_at offset (length (l_queues s)) = Some k → l_queues s !! k = Some q →
    local_step s (match LocalQueue.mode q with
                  | LocalQueue.Released => goto (Visiting src (S offset) false) (l_queues s) [Missed k q] s
                  | _ => goto (Visiting src offset true) (<[k := LocalQueue.resume q]> (l_queues s)) [] s
                  end)
(** The second: the queue may have changed in between. *)
| local_late src offset k q :
    l_phase s = Visiting src offset true → queue_at offset (length (l_queues s)) = Some k → l_queues s !! k = Some q →
    local_step s (match LocalQueue.pop_cached q with
                  | Some (j, q') => goto (LRunning j) (<[k := q']> (l_queues s)) [Took k j] s
                  | None => goto (Visiting src (S offset) false) (l_queues s) [Missed k q] s
                  end)
| local_exhausted src offset :
    l_phase s = Visiting src offset false → (length (l_queues s) ≤ offset)%nat →
    local_step s (goto LIdle (l_queues s) [] s)
| local_run j env w r :
    l_phase s = LRunning j →
    run_and_release_job escaped exp_secs env j worker
      (emit_all (l_world s) (emit (hooks worker) (JobFetchEvent j))) = Some (w, r) →
    local_step s (mkLocal (match r with
                           | Ok _ => Visiting Dispatch.LocalQueueActivity 0 false
                           | Err e => LEnded (Err (ReleaseError e))
                           end) w (l_queues s) (l_buffer s) (l_closed s) (l_shutdown s) (l_pulses s) (l_log s))
| local_others w qs buffer closed shutdown :
    length qs = length (l_queues s) → (l_shutdown s = true → shutdown = true) →
    local_step s (mkLocal (l_phase s) w qs buffer closed shutdown (l_pulses s) (l_log s)).

Definition local_reachable (n : nat) (s : Local) : Prop :=
  ∃ w qs, length qs = n ∧ rtc local_step (local_start w qs) s.

(** ** Rounds over the local queues *)

(** A queue that had nothing to give. *)
Definition unavailable (q : LocalQueue.Queue) : Prop :=
  LocalQueue.mode q = LocalQueue.Released ∨ LocalQueue.mode q = LocalQueue.TtlExpired ∨ LocalQueue.job_queue q = [].

(** [m] visits in turn that gave nothing. *)
Definition misses (n m : nat) (es : list LEntry) : Prop :=
  ∃ qs, length qs = m ∧ Forall unavailable qs ∧
    es = zip_with (λ o q, Missed ((index + o) mod n)%nat q) (seq 0 m) qs.

(** A search that ended with a job. *)
Definition hit (n : nat) (es : list LEntry) : Prop :=
  ∃ m j ms, (m < n)%nat ∧ misses n m ms ∧ es = ms ++ [Took ((index + m) mod n)%nat j].

Inductive hits (n : nat) : list LEntry → Prop :=
| hits_nil : hits n []
| hits_snoc es h : hits n es → hit n h → hits n (es ++ h).

Inductive local_rounds (n : nat) : list LEntry → Prop :=
| local_rounds_nil : local_rounds n []
| local_rounds_snoc l src hs ms : local_rounds n l → hits n hs → misses n n ms →
    local_rounds n (l ++ LSignalled src :: hs ++ ms).

(** A round under way whose current search has missed [m] times. *)
Definition searching (n m : nat) (log : list LEntry) : Prop :=
  ∃ l src hs ms, local_rounds n l ∧ hits n hs ∧ misses n m ms ∧ log = l ++ LSignalled src :: hs ++ ms.

Record local_inv (n : nat) (s : Local) : Prop := {
  inv_len : length (l_queues s) = n;
  inv_rounds : match l_phase s with
    | LIdle | LEnded (Ok _) => local_rounds n (l_log s)
    | Visiting _ offset _ => (offset ≤ n)%nat ∧ searching n offset (l_log s)
    | LRunning _ | LEnded (Err _) => searching n 0 (l_log s)
    | LPanicked => n = 0%nat
    end;
  inv_late : ∀ src offset, l_phase s = Visiting src offset true → (offset < n)%nat
}.

Lemma misses_0 n : misses n 0 [].
Proof. by exists []. Qed.

Lemma misses_S n m ms q : misses n m ms → unavailable q → misses n (S m) (ms ++ [Missed ((index + m) mod n)%nat q]).
Proof.
  intros (qs & Hl & Hf & ->) Hq. exists (qs ++ [q]). rewrite length_app. split_and!; [cbn; lia|by apply Forall_app; auto|].
  rewrite seq_S, zip_with_app by (by rewrite length_seq). done.
Qed.

Lemma searching_miss n m log q : searching n m log → unavailable q →
  searching n (S m) (log ++ [Missed ((index + m) mod n)%nat q]).
Proof.
  intros (l & src & hs & ms & Hl & Hh & Hm & ->) Hq. exists l, src, hs, (ms ++ [Missed ((index + m) mod n)%nat q]).
  split_and!; [done..|by apply misses_S|]. by rewrite <- !(assoc_L (++)); cbn; rewrite <- !(assoc_L (++)).
Qed.

Lemma searching_hit n m log j : searching n m log → (m < n)%nat →
  searching n 0 (log ++ [Took ((index + m) mod n)%nat j]).
Proof.
  intros (l & src & hs & ms & Hl & Hh & Hm & ->) Hmn.
  exists l, src, (hs ++ ms ++ [Took ((index + m) mod n)%nat j]), [].
  split_and!; [done|apply hits_snoc; [done|by exists m, j, ms]|apply misses_0|].
  rewrite app_nil_r. by rewrite <- !(assoc_L (++)); cbn; rewrite <- !(assoc_L (++)).
Qed.

Lemma searching_done n log : searching n n log → local_rounds n log.
Proof. intros (l & src & hs & ms & Hl & Hh & Hm & ->). by apply local_rounds_snoc. Qed.

Lemma searching_start n l src : local_rounds n l → searching n 0 (l ++ [LSignalled src]).
Proof. intros Hl. exists l, src, [], []. split_and!; [done|apply hits_nil|apply misses_0|done]. Qed.

Lemma queue_at_Some offset n k : queue_at offset n = Some k → k = ((index + offset) mod n)%nat.
Proof. unfold queue_at. destruct n; [done|]. by intros [= <-]. Qed.

Lemma pop_none_unavailable q : LocalQueue.pop_cached q = None → unavailable q.
Proof.
  unfold LocalQueue.pop_cached, unavailable.
  destruct (LocalQueue.mode q), (LocalQueue.job_queue q) as [|j rest]; by auto.
Qed.

Lemma begin_source_inv n src rest s : local_inv n s → l_phase s = LIdle → local_inv n (begin_source src rest s).
Proof.
  intros [Hlen Hr _] Hp. rewrite Hp in Hr. unfold begin_source. rewrite Hlen.
  assert (∀ ps, local_inv n (mkLocal (Visiting src 0 false) (l_world s) (l_queues s) rest (l_closed s) (l_shutdown s)
                    (l_pulses s ++ ps) (l_log s ++ [LSignalled src]))) as Hgo.
  { intros ps. split; cbn; [done| |done]. split; [lia|]. by apply searching_start. }
  destruct src; try apply Hgo. unfold queue_at. destruct n as [|n]; [by split|apply Hgo].
Qed.

Lemma local_step_inv n s s' : local_step s s' → local_inv n s → local_inv n s'.
Proof.
  intros Hstep Hinv. pose proof Hinv as [Hlen Hr Hlate].
  destruct Hstep as [src rest Hp _|Hp _|src o k q Hp Ho Hk Hq|src o k q Hp Hk Hq|src o Hp Ho|j env w r Hp _|w qs b c sh Hl _];
    try rewrite Hp in Hr; [by apply begin_source_inv|by split|..].
  - destruct Hr as [Hon Hs]. rewrite Hlen in *. apply queue_at_Some in Hk as ->.
    destruct (LocalQueue.mode q) eqn:Em; (split; cbn; [by rewrite ?length_insert| |by intros ? ? [= _ <-]]);
      rewrite ?app_nil_r; [(split; [lia|done])..|]. split; [lia|]. apply searching_miss; [done|by left].
  - destruct Hr as [_ Hs]. pose proof (Hlate _ _ Hp) as Ho. rewrite Hlen in *. apply queue_at_Some in Hk as ->.
    destruct (LocalQueue.pop_cached q) as [[j q']|] eqn:Eq; (split; cbn; [by rewrite ?length_insert| |done]).
    + by apply searching_hit.
    + split; [lia|]. apply searching_miss; [done|by apply pop_none_unavailable].
  - destruct Hr as [Hon Hs]. split; cbn; [done| |done]. rewrite app_nil_r. apply searching_done.
    by assert (o = n) as -> by lia.
  - split; cbn; [done| |by destruct r]. destruct r; [split; [lia|done]|done].
  - split; cbn; [congruence|done|done].
Qed.

Lemma local_reachable_inv n s : local_reachable n s → local_inv n s.
Proof.
  intros (w & qs & Hn & Hr).
  eapply (rtc_ind_r (λ s, local_inv n s) (local_start w qs)); [|by intros; eapply local_step_inv|done].
  split; cbn; [done|apply local_rounds_nil|done].
Qed.

(** The turns of a search are the queues, each once. *)
Lemma turns_all_queues n k : (k < n)%nat → ∃ o, (o < n)%nat ∧ ((index + o) mod n)%nat = k ∧
  ∀ o', (o' < n)%nat → ((index + o') mod n)%nat = k → o' = o.
Proof.
  intros Hk. set (r := (index mod n)%nat). assert (r < n)%nat as Hr by (apply Nat.mod_upper_bound; lia).
  assert (∀ o, (o < n)%nat → ((index + o) mod n = if decide (r + o < n) then r + o else r + o - n)%nat) as Hmod.
  { intros o Ho. rewrite <- Nat.Div0.add_mod_idemp_l. fold r. case_decide; [by apply Nat.mod_small|].
    symmetry. apply (Nat.mod_unique _ _ 1); lia. }
  exists (if decide (r ≤ k)%nat then (k - r)%nat else (n + k - r)%nat).
  split_and!; [case_decide; lia| |].
  - rewrite Hmod by (case_decide; lia). repeat case_decide; lia.
  - intros o' Ho'. rewrite Hmod by done. repeat case_decide; lia.
Qed.

(** A slot over local queues answers every signal by running cached jobs
    until one search over all queues, each visited exactly once in turn from
    its own, finds every one of them empty, expired or released at its visit;
    with at least one queue no index is out of range. *)
Theorem local_slot_drains n s : local_reachable n s →
  (l_phase s = LIdle ∨ l_phase s = LEnded (Ok ()) → local_rounds n (l_log s)) ∧
  (∀ src offset late, l_phase s = Visiting src offset late → searching n offset (l_log s)) ∧
  (0 < n → l_phase s ≠ LPanicked)%nat ∧
  (∀ k, (k < n)%nat → ∃ o, (o < n)%nat ∧ queue_at o n = Some k ∧ ∀ o', (o' < n)%nat → queue_at o' n = Some k → o' = o).
Proof.
  intros [_ Hr _]%local_reachable_inv. split_and!.
  - intros [Hp|Hp]; by rewrite Hp in Hr.
  - intros src offset late Hp. rewrite Hp in Hr. apply Hr.
  - intros Hn Hp. rewrite Hp in Hr. lia.
  - intros k Hk. destruct (turns_all_queues n k Hk) as (o & Ho & Hok & Huniq). exists o.
    unfold queue_at. destruct n as [|n]; [lia|]. split_and!; [done|by rewrite Hok|]. intros o' Ho' [= He]. by apply Huniq.
Qed.
End local.

(** ** Witnesses *)

Definition idle_worker : WorkerRunner := demo_worker demo_failing None.
Definition no_locks : Concurrent := mkConcurrent ∅ ∅.
Definition empty_claim : Db * option Job :=
  get_job_exec no_locks 7 (task_details idle_worker) (worker_id idle_worker) (job_flag_filter idle_worker) None empty_db.

(** A polling signal on empty tables. *)
Definition polled : Direct :=
  mkDirect Idle (with_tables (demo_world empty_db) empty_claim.1) [] false false
    [Signalled Dispatch.Polling; FoundNothing no_locks 7 empty_db].

Lemma polled_reachable : direct_reachable ascii_only (λ x, x) idle_worker polled.
Proof.
  exists (demo_world empty_db).
  eapply rtc_l; [apply (direct_others _ _ _ _ (demo_world empty_db) [Dispatch.Polling] false false); done|].
  eapply rtc_l; [by apply (direct_receive _ _ _ _ Dispatch.Polling [])|].
  eapply rtc_l.
  - eapply (direct_process _ _ _ _ Dispatch.Polling no_locks 7 None (demo_env None)
      (with_tables (demo_world empty_db) empty_claim.1) (Ok None)); [done..|]. apply process_none.
    exact (get_exec_step no_locks 7 (task_details idle_worker) (worker_id idle_worker) (job_flag_filter idle_worker) None empty_db).
  - apply rtc_refl.
Qed.

Lemma direct_slot_drains_witness : rounds idle_worker (d_log polled).
Proof.
  apply (direct_slot_drains ascii_only (λ x, x) idle_worker polled polled_reachable). left. reflexivity.
Defined.

(** A local-queue signal to the second slot, with two empty queues. *)
Definition searched : Local :=
  mkLocal LIdle (demo_world empty_db) [LocalQueue.new_queue; LocalQueue.new_queue] [] false false []
    [LSignalled Dispatch.LocalQueueActivity; Missed 1 LocalQueue.new_queue; Missed 0 LocalQueue.new_queue].

Lemma searched_reachable : local_reachable ascii_only (λ x, x) idle_worker 1 2 searched.
Proof.
  exists (demo_world empty_db), [LocalQueue.new_queue; LocalQueue.new_queue]. split; [done|].
  eapply rtc_l; [by apply (local_others _ _ _ _ _ (demo_world empty_db) [LocalQueue.new_queue; LocalQueue.new_queue]
    [Dispatch.LocalQueueActivity] false false)|].
  eapply rtc_l; [by apply (local_receive _ _ _ _ _ Dispatch.LocalQueueActivity [])|].
  eapply rtc_l; [by eapply (local_early _ _ _ _ _ Dispatch.LocalQueueActivity 0 1 LocalQueue.new_queue); cbn; try lia|].
  eapply rtc_l; [by eapply (local_late _ _ _ _ _ Dispatch.LocalQueueActivity 0 1 LocalQueue.new_queue)|].
  eapply rtc_l; [by eapply (local_early _ _ _ _ _ Dispatch.LocalQueueActivity 1 0 LocalQueue.new_queue); cbn; try lia|].
  eapply rtc_l; [by eapply (local_late _ _ _ _ _ Dispatch.LocalQueueActivity 1 0 LocalQueue.new_queue)|].
  eapply rtc_l; [eapply (local_exhausted _ _ _ _ _ Dispatch.LocalQueueActivity 2); [done|cbn; lia]|]. apply rtc_refl.
Qed.

Lemma local_slot_drains_witness : local_rounds 1 2 (l_log searched) ∧ l_phase searched ≠ LPanicked.
Proof.
  destruct (local_slot_drains ascii_only (λ x, x) idle_worker 1 2 searched searched_reachable) as (Hr & _ & Hp & _).
  split; [apply Hr; left; reflexivity|apply Hp; lia].
Defined.
End Slots.
