(* ===== verification/WorkerRun.v ===== *)
(** * A worker's run (src/runner/lifecycle, src/runner/job_loop,
    src/recovery_tasks.rs, src/background_tasks.rs)

    How [Worker::run] registers the worker, starts its hooks and recovery tasks,
    runs the job slots through the dispatcher of Dispatch.v and the cron
    scheduler beside them, and winds everything down in order. *)

From S2P Require Import Prelude Dispatch.

Module WorkerRun.

Section run.
Context {ProcessError GraphileWorkerError ScheduleCronJobError : Type}.

Abbreviation WorkerRuntimeError := (@Dispatch.WorkerRuntimeError ProcessError GraphileWorkerError ScheduleCronJobError).
Abbreviation Dispatcher := (@Dispatch.State ProcessError GraphileWorkerError ScheduleCronJobError).

(** ** lifecycle/run.rs *)

Inductive ShutdownReason := Graceful | ErrorReason.

Definition result_to_shutdown_reason (r : result unit WorkerRuntimeError) : ShutdownReason :=
  match r with Ok _ => Graceful | Err _ => ErrorReason end.

Definition finish_run (r : result unit WorkerRuntimeError) (deregister_result : result unit GraphileWorkerError) :
    result unit WorkerRuntimeError :=
  match r, deregister_result with
  | Ok _, Ok _ => Ok tt
  | Ok _, Err error => Err (Dispatch.PgListen error)
  | Err error, Ok _ => Err error
  | Err error, Err _ => Err error
  end.

(** ** Configuration and state *)

(** The parts of the worker that decide what runs; the number of local queues
    is that of sources/local_queue.rs. *)
Record Config := mkConfig {
  concurrency : nat;
  recovery_enabled : bool;
  has_crontabs : bool;
  queue_count : option nat;
  completion_delay : bool;
  failure_delay : bool
}.
Definition local_queue_count (c : Config) : option nat := (λ q, Nat.min q (concurrency c)) <$> queue_count c.

(** A spawned task. *)
Inductive Task := Absent | Alive | Ended.
Definition spawned (b : bool) : Task := if b then Alive else Absent.
Definition ended (t : Task) : bool := match t with Alive => false | _ => true end.
(** [abort] and the join that follows. *)
Definition stopped (t : Task) : Task := match t with Absent => Absent | _ => Ended end.

(** A local queue: in use, or after a [release()] that returned its claims or
    gave up and left them pending. *)
Inductive LocalQueue := Open | Released | ReleaseFailed.

(** [release()]: nothing once it has succeeded, a new attempt otherwise. *)
Definition release (ok : bool) (q : LocalQueue) : LocalQueue :=
  match q with Released => Released | _ => if ok then Released else ReleaseFailed end.

Inductive Event := WorkerStart | WorkerShutdown (reason : ShutdownReason).

Inductive Phase :=
| Registering
| RunningSources
| AwaitingCompletion (r : result unit WorkerRuntimeError)
| AwaitingFailure (r : result unit WorkerRuntimeError)
| StoppingRecovery (r : result unit WorkerRuntimeError)
| Deregistering (r : result unit WorkerRuntimeError)
| Finished (r : result unit WorkerRuntimeError).

(** The dispatcher with its slots, once the signal stream is listened to; the
    local queues; whether the cron scheduler has ended;
    the result of the job runner; the batchers' and recovery tasks; the
    worker's row; the shutdown signal and whether it was requested. *)
Record State := mkState {
  dispatcher : option Dispatcher;
  queues : list LocalQueue;
  cron_done : bool;
  job_runner : option (result unit WorkerRuntimeError);
  completion : Task;
  failure : Task;
  heartbeat : Task;
  sweeper : Task;
  registered : bool;
  shutdown : bool;
  requested : bool;
  events : list Event;
  phase : Phase
}.

Context (cfg : Config).
(** The dispatcher's channel: [concurrency * 4]. *)
Definition capacity : nat := concurrency cfg * 4.

(** Batchers are spawned when the worker is built. *)
Definition initial : State :=
  mkState None [] false None (spawned (completion_delay cfg)) (spawned (failure_delay cfg)) Absent Absent false false false [] Registering.

(** [register_worker], [emit_start], [spawn_recovery_tasks] and the creation of
    the local queues. *)
Definition start (s : State) : State :=
  mkState None (replicate (default 0 (local_queue_count cfg)) Open) false None (completion s) (failure s)
    (spawned (recovery_enabled cfg)) (spawned (recovery_enabled cfg)) (recovery_enabled cfg) (shutdown s) (requested s)
    (events s ++ [WorkerStart]) RunningSources.

Definition fail_registration (e : GraphileWorkerError) (row : bool) (s : State) : State :=
  mkState (dispatcher s) (queues s) (cron_done s) (job_runner s) (completion s) (failure s) (heartbeat s) (sweeper s)
    row (shutdown s) (requested s) (events s) (Finished (Err (Dispatch.PgListen e))).

Definition with_dispatcher (d : Dispatcher) (s : State) : State :=
  mkState (Some d) (queues s) (cron_done s) (job_runner s) (completion s) (failure s) (heartbeat s) (sweeper s)
    (registered s) (shutdown s) (requested s) (events s) (phase s).

(** [release_local_queues], where an error is logged and the loop goes on: the
    [k]-th release succeeds if [ok k]. *)
Definition release_local_queues (ok : nat → bool) (qs : list LocalQueue) : list LocalQueue :=
  imap (λ k q, release (ok k) q) qs.

(** The queues are released, and the result is returned. *)
Definition runner_returns (r : result unit WorkerRuntimeError) (request : bool) (ok : nat → bool) (s : State) : State :=
  mkState (dispatcher s) (release_local_queues ok (queues s)) (cron_done s) (Some r) (completion s) (failure s) (heartbeat s) (sweeper s)
    (registered s) (shutdown s) (requested s || request) (events s) (phase s).

Definition cron_returns (s : State) : State :=
  mkState (dispatcher s) (queues s) true (job_runner s) (completion s) (failure s) (heartbeat s) (sweeper s)
    (registered s) (shutdown s) (requested s) (events s) (phase s).

Definition goto (p : Phase) (request : bool) (s : State) : State :=
  mkState (dispatcher s) (queues s) (cron_done s) (job_runner s) (completion s) (failure s) (heartbeat s) (sweeper s)
    (registered s) (shutdown s) (requested s || request) (events s) p.

Definition set_tasks (c f h w : Task) (s : State) : State :=
  mkState (dispatcher s) (queues s) (cron_done s) (job_runner s) c f h w
    (registered s) (shutdown s) (requested s) (events s) (phase s).

(** [recovery_tasks.stop()] and [emit_shutdown]. *)
Definition stop_recovery (r : result unit WorkerRuntimeError) (s : State) : State :=
  mkState (dispatcher s) (queues s) (cron_done s) (job_runner s) (completion s) (failure s)
    (stopped (heartbeat s)) (stopped (sweeper s)) (registered s) (shutdown s) (requested s)
    (events s ++ [WorkerShutdown (result_to_shutdown_reason r)]) (Deregistering r).

Definition deregister (r : result unit WorkerRuntimeError) (res : result unit GraphileWorkerError) (row : bool) (s : State) : State :=
  mkState (dispatcher s) (queues s) (cron_done s) (job_runner s) (completion s) (failure s) (heartbeat s) (sweeper s)
    row (shutdown s) (requested s) (events s) (Finished (finish_run r res)).

Definition signalled (s : State) : State :=
  mkState ((λ d, Dispatch.mkState (Dispatch.slots d) (Dispatch.buffer d) (Dispatch.tx_closed d) true (Dispatch.notified d)
                   (Dispatch.phase d) (Dispatch.first_error d) (Dispatch.joined d)) <$> dispatcher s)
    (queues s) (cron_done s) (job_runner s) (completion s) (failure s) (heartbeat s) (sweeper s)
    (registered s) true (requested s) (events s) (phase s).

Definition release_queue (k : nat) (ok : bool) (s : State) : State :=
  mkState (dispatcher s) (alter (release ok) k (queues s)) (cron_done s) (job_runner s) (completion s) (failure s) (heartbeat s) (sweeper s)
    (registered s) (shutdown s) (requested s) (events s) (phase s).

(** The slots start, with the shutdown signal as it is. *)
Definition spawn_slots (sh : bool) : Dispatcher :=
  Dispatch.mkState (replicate (concurrency cfg) Dispatch.Waiting) [] false sh 0 Dispatch.Dispatching None [].

(** A step of the dispatcher or a slot on its own; the signal stream, with the
    queue wakeups merged into it, ends only on shutdown. *)
Definition dispatcher_step (d d' : Dispatcher) : Prop :=
  Dispatch.step (concurrency cfg) capacity d d' ∧ Dispatch.shutdown d' = Dispatch.shutdown d ∧
  (d' = Dispatch.break d → Dispatch.all_joined d = true ∨ Dispatch.shutdown d = true).

(** ** Steps *)

Inductive step : State → State → Prop :=
| register_ok s : phase s = Registering → step s (start s)
| register_error s e row :
    phase s = Registering → recovery_enabled cfg = true → step s (fail_registration e row s)
(** job_loop: listening fails, in which case local queues are released and
    shutdown is requested for them. *)
| listen_error s e ok :
    phase s = RunningSources → dispatcher s = None → job_runner s = None →
    step s (runner_returns (Err (Dispatch.PgListen e)) (bool_decide (is_Some (local_queue_count cfg))) ok s)
| listen_ok s :
    phase s = RunningSources → dispatcher s = None → job_runner s = None →
    step s (with_dispatcher (spawn_slots (shutdown s)) s)
| dispatch s d d' :
    phase s = RunningSources → dispatcher s = Some d → dispatcher_step d d' → step s (with_dispatcher d' s)
| dispatch_returns s d r ok :
    phase s = RunningSources → dispatcher s = Some d → job_runner s = None → Dispatch.phase d = Dispatch.Returned r →
    step s (runner_returns r false ok s)
(** The cron scheduler retries its errors and ends only on shutdown; there is
    none without crontabs. *)
| cron_ends s :
    phase s = RunningSources → cron_done s = false → (has_crontabs cfg = false ∨ shutdown s = true) → step s (cron_returns s)
(** [try_join!]: the first error, or both results. *)
| sources_fail s e :
    phase s = RunningSources → job_runner s = Some (Err e) → step s (goto (AwaitingCompletion (Err e)) true s)
| sources_end s :
    phase s = RunningSources → job_runner s = Some (Ok tt) → cron_done s = true →
    step s (goto (AwaitingCompletion (Ok tt)) false s)
| await_completion s r :
    phase s = AwaitingCompletion r → ended (completion s) = true → step s (goto (AwaitingFailure r) false s)
| await_failure s r :
    phase s = AwaitingFailure r → ended (failure s) = true → step s (goto (StoppingRecovery r) false s)
| stop_recovery_tasks s r : phase s = StoppingRecovery r → step s (stop_recovery r s)
(** [deregister_worker]; a failing statement may have taken effect. *)
| deregister_ok s r : phase s = Deregistering r → step s (deregister r (Ok tt) false s)
| deregister_error s r e row :
    phase s = Deregistering r → recovery_enabled cfg = true → (row = true → registered s = true) →
    step s (deregister r (Err e) row s)
(** The tasks beside it: batchers and sweeper end on shutdown, local queues
    are released by their own listener, which may fail too. *)
| completion_ends s :
    completion s = Alive → shutdown s = true → step s (set_tasks Ended (failure s) (heartbeat s) (sweeper s) s)
| failure_ends s :
    failure s = Alive → shutdown s = true → step s (set_tasks (completion s) Ended (heartbeat s) (sweeper s) s)
| sweeper_ends s :
    sweeper s = Alive → shutdown s = true → step s (set_tasks (completion s) (failure s) (heartbeat s) Ended s)
| queue_released s k ok :
    shutdown s = true → step s (release_queue k ok s)
| shutdown_fires s : shutdown s = false → step s (signalled s).

Definition reachable : State → Prop := rtc step initial.

(** ** The dispatcher stops only for a reason *)

Hypothesis concurrency_pos : concurrency cfg ≠ 0.

(** It leaves its loop on shutdown or with an error; and slots end well, while
    it is in the loop, only on shutdown. *)
Definition justified (d : Dispatcher) : Prop :=
  (Dispatch.phase d ≠ Dispatch.Dispatching → Dispatch.shutdown d = true ∨ is_Some (Dispatch.first_error d)) ∧
  (Dispatch.phase d = Dispatch.Dispatching → Dispatch.shutdown d = false →
     Dispatch.tx_closed d = false ∧
     ∀ k x, Dispatch.slots d !! k = Some x → x ≠ Dispatch.Ended Dispatch.SlotOk ∧ x ≠ Dispatch.Joined).

Definition dispatcher_ok (s : State) (d : Dispatcher) : Prop :=
  Dispatch.reachable (concurrency cfg) capacity (concurrency cfg) d ∧ justified d ∧ Dispatch.shutdown d = shutdown s.

Lemma justified_shutdown (d : Dispatcher) : Dispatch.shutdown d = true → justified d.
Proof. intros Hs. split; [by left|]. intros _. congruence. Qed.

Lemma first_slot (d : Dispatcher) : Dispatch.inv capacity (concurrency cfg) d → ∃ x, Dispatch.slots d !! 0 = Some x.
Proof. intros Hi. apply lookup_lt_is_Some. rewrite (Dispatch.inv_slots _ _ _ Hi). lia. Qed.

Lemma not_all_joined_running (d : Dispatcher) :
  Dispatch.inv capacity (concurrency cfg) d → justified d → Dispatch.phase d = Dispatch.Dispatching → Dispatch.shutdown d = false →
  Dispatch.all_joined d = false.
Proof.
  intros Hi [_ Hj] Hp Hs. destruct (first_slot d Hi) as [x Hx]. apply not_true_iff_false. intros Ha.
  destruct (Hj Hp Hs) as [_ Hsl]. destruct (Hsl 0 x Hx) as [_ Hn]. apply Hn. by eapply Dispatch.all_joined_lookup.
Qed.

Lemma justified_step (d d' : Dispatcher) :
  Dispatch.inv capacity (concurrency cfg) d → justified d → dispatcher_step d d' → justified d'.
Proof.
  intros Hi Hj (Hs & Hsh & Hend). destruct (Dispatch.shutdown d) eqn:Esh; [by apply justified_shutdown|].
  pose proof Hj as [Hj1 Hj2]. destruct (Dispatch.phase d) eqn:Ep.
  - destruct (Hj2 eq_refl Esh) as [Htx Hsl]. pose proof (not_all_joined_running d Hi Hj Ep Esh) as Hnj.
    assert (∀ k x y, Dispatch.slots d !! k = Some y → x ≠ Dispatch.Ended Dispatch.SlotOk ∧ x ≠ Dispatch.Joined →
      ∀ k' x', <[k := x]> (Dispatch.slots d) !! k' = Some x' → x' ≠ Dispatch.Ended Dispatch.SlotOk ∧ x' ≠ Dispatch.Joined) as Hset.
    { intros k x y Hk Hx k' x' Hk'. destruct (decide (k = k')) as [<-|Hne].
      - rewrite list_lookup_insert_eq in Hk' by (by eapply lookup_lt_Some). by injection Hk' as <-.
      - rewrite list_lookup_insert_ne in Hk' by done. by eapply Hsl. }
    inversion Hs as [? k Hk Ht|? k x rest Hk Ht Hb|? k Hk Ht Hb Hc|? k x Hk|? k x r Hk Hr|? k Hp Hk|? k r e Hp Hk He|? Hp Ha
      |? src buf res Hp Hn Hf|? Hp Hn|? k r Hp Hk|? Hp Ha|? Ht]; subst; try congruence; try (by cbn in Hsh; congruence).
    + split; cbn; [congruence|]. intros _ _. split; [done|]. by eapply Hset.
    + split; cbn; [congruence|]. intros _ _. split; [done|]. by eapply Hset.
    + split; cbn; [congruence|]. intros _ _. split; [done|]. eapply Hset; [done|]. split; congruence.
    + by destruct (Hsl k _ Hk) as [[] _].
    + split; cbn; [by right|done].
    + destruct res; [split; cbn; [congruence|]; intros _ _; by split|].
      exfalso. destruct (Dispatch.fanout_spec capacity (Dispatch.closed d) src (concurrency cfg) (Dispatch.buffer d)) as [_ Hcl].
      rewrite Hf in Hcl. destruct (proj1 Hcl eq_refl) as [Hclosed _]. unfold Dispatch.closed in Hclosed. rewrite Htx in Hclosed. cbn in Hclosed.
      destruct (first_slot d Hi) as [x Hx]. destruct (Hsl 0 x Hx) as [Hx1 Hx2].
      rewrite forallb_forall in Hclosed. specialize (Hclosed x (proj1 (list_elem_of_In _ _) (list_elem_of_lookup_2 _ _ _ Hx))).
      destruct x as [| |r|]; try done. by apply (Hn 0 r).
    + destruct (Hend eq_refl); congruence.
  - split; [|].
    + intros _. right. destruct (Hj1 ltac:(done)) as [|[e He]]; [congruence|].
      inversion Hs; subst; cbn in *; try congruence; rewrite ?He; try done. repeat case_match; cbn; rewrite ?He; done.
    + intros Hp. exfalso. inversion Hs; subst; cbn in *; try congruence. repeat case_match; cbn in *; congruence.
  - split; [|].
    + intros _. right. destruct (Hj1 ltac:(done)) as [|[e He]]; [congruence|].
      inversion Hs; subst; cbn in *; try congruence; rewrite ?He; try done.
    + intros Hp. exfalso. inversion Hs; subst; cbn in *; try congruence.
Qed.

(** ** Where the run is *)

(** What its heartbeat protects: the worker is registered and beating. *)
Definition protected (s : State) : Prop :=
  registered s = recovery_enabled cfg ∧ heartbeat s = spawned (recovery_enabled cfg).

(** The sources have ended with [r]. *)
Definition sources_ended (s : State) (r : result unit WorkerRuntimeError) : Prop :=
  job_runner s = Some r ∧ (shutdown s = true ∨ requested s = true).

Definition wound_down (s : State) : Prop :=
  ended (completion s) = true ∧ ended (failure s) = true ∧ ended (heartbeat s) = true ∧ ended (sweeper s) = true.

Record inv (s : State) : Prop := {
  inv_dispatcher d : dispatcher s = Some d → dispatcher_ok s d;
  inv_runner r : job_runner s = Some r →
    Forall (λ q, q ≠ Open) (queues s) ∧
    ((dispatcher s = None ∧ ∃ e, r = Err (Dispatch.PgListen e)) ∨ ∃ d, dispatcher s = Some d ∧ Dispatch.phase d = Dispatch.Returned r);
  inv_phase :
    match phase s with
    | Registering => events s = [] ∧ dispatcher s = None ∧ job_runner s = None ∧ queues s = []
    | RunningSources => events s = [WorkerStart] ∧ protected s
    | AwaitingCompletion r => events s = [WorkerStart] ∧ protected s ∧ sources_ended s r
    | AwaitingFailure r => events s = [WorkerStart] ∧ protected s ∧ sources_ended s r ∧ ended (completion s) = true
    | StoppingRecovery r =>
        events s = [WorkerStart] ∧ protected s ∧ sources_ended s r ∧ ended (completion s) = true ∧ ended (failure s) = true
    | Deregistering r =>
        events s = [WorkerStart; WorkerShutdown (result_to_shutdown_reason r)] ∧ registered s = recovery_enabled cfg ∧
        sources_ended s r ∧ wound_down s
    | Finished res =>
        (events s = [] ∧ dispatcher s = None ∧ job_runner s = None ∧ queues s = [] ∧ ∃ e, res = Err (Dispatch.PgListen e)) ∨
        ∃ r dr, events s = [WorkerStart; WorkerShutdown (result_to_shutdown_reason r)] ∧ sources_ended s r ∧ wound_down s ∧
          res = finish_run r dr ∧ (dr = Ok tt → registered s = false)
    end
}.

(** Returning well, the dispatcher has seen the shutdown signal. *)
Lemma returned_ok_shutdown s d :
  dispatcher_ok s d → Dispatch.phase d = Dispatch.Returned (Ok tt) → shutdown s = true.
Proof.
  intros (Hr & [Hj _] & Hsh) Hp. apply Dispatch.dispatch_reachable_inv in Hr. rewrite <- Hsh.
  destruct (Hj ltac:(by rewrite Hp)) as [|[e He]]; [done|].
  destruct (Dispatch.inv_returned _ _ _ Hr _ Hp) as [_ E]. by rewrite He in E.
Qed.

Lemma dispatcher_ok_step s d d' : dispatcher_ok s d → dispatcher_step d d' → dispatcher_ok s d'.
Proof.
  intros (Hr & Hj & Hsh) Hs. split_and!.
  - unfold Dispatch.reachable in *. eapply rtc_r; [done|]. apply Hs.
  - eapply justified_step; [by apply Dispatch.dispatch_reachable_inv in Hr|done..].
  - destruct Hs as (_ & -> & _). done.
Qed.

Lemma dispatcher_ok_signal s d :
  dispatcher_ok s d → shutdown s = false →
  dispatcher_ok (signalled s) (Dispatch.mkState (Dispatch.slots d) (Dispatch.buffer d) (Dispatch.tx_closed d) true (Dispatch.notified d)
                   (Dispatch.phase d) (Dispatch.first_error d) (Dispatch.joined d)).
Proof.
  intros (Hr & Hj & Hsh) Hs. split_and!; [|by apply justified_shutdown|done].
  unfold Dispatch.reachable in *. eapply rtc_r; [done|]. apply Dispatch.shutdown_fires. congruence.
Qed.

Lemma spawn_ok s : dispatcher_ok s (spawn_slots (shutdown s)).
Proof.
  split_and!; [|..|done].
  - unfold Dispatch.reachable, spawn_slots, Dispatch.initial. destruct (shutdown s); [|apply rtc_refl].
    apply rtc_once. by apply Dispatch.shutdown_fires.
  - destruct (shutdown s) eqn:Es; [by apply justified_shutdown|]. split; cbn; [done|]. intros _ _. split; [done|].
    intros k x [-> _]%lookup_replicate. done.
Qed.

Lemma initial_ok_run : inv initial.
Proof. constructor; done. Qed.

(** Steps that leave the sources and the phase alone. *)
Lemma inv_tasks s c f h w :
  inv s → h = heartbeat s → (ended (completion s) = true → ended c = true) → (ended (failure s) = true → ended f = true) →
  (ended (sweeper s) = true → ended w = true) → inv (set_tasks c f h w s).
Proof.
  intros [Hd Hr Hp] -> Hc Hf Hw. constructor; cbn; [done|done|].
  assert (wound_down s → wound_down (set_tasks c f (heartbeat s) w s)) as Hwd by (unfold wound_down; cbn; naive_solver).
  destruct (phase s); unfold protected, sources_ended in *; cbn; naive_solver.
Qed.

Lemma release_closed ok q : release ok q ≠ Open.
Proof. by destruct q, ok. Qed.

Lemma release_local_queues_closed ok qs : Forall (λ q, q ≠ Open) (release_local_queues ok qs).
Proof.
  unfold release_local_queues. apply Forall_lookup. intros k q Hq. rewrite list_lookup_imap in Hq.
  apply fmap_Some in Hq as (q0 & _ & ->). apply release_closed.
Qed.

Lemma step_ok_run s s' : inv s → step s s' → inv s'.
Proof.
  intros Hi Hs. pose proof Hi as [Hd Hr Hp].
  destruct Hs as [s E|s e row E En|s e ok E Ed Ej|s E Ed Ej|s d d' E Ed Hst|s d r ok E Ed Ej Er|s E Ec Hc|s e E Ej|s E Ej Ec|s r E Hc|s r E Hf
    |s r E|s r E|s r e row E En Hrow|s Ec Hsh|s Ec Hsh|s Ec Hsh|s k ok Hsh|s Hsh]; rewrite ?E in Hp.
  - destruct Hp as (Ev & _). constructor; cbn; [done|done|]. by rewrite Ev.
  - constructor; cbn; [done|done|]. left. naive_solver.
  - constructor; cbn; [done| |by rewrite E]. intros r [= <-]. split; [apply release_local_queues_closed|]. left. eauto.
  - constructor; cbn; [intros d [= <-]; exact (spawn_ok s)|by rewrite Ej|by rewrite E].
  - constructor; cbn; [|intros r Hjr|by rewrite E].
    + intros d0 [= <-]. exact (dispatcher_ok_step s d d' (Hd d Ed) Hst).
    + destruct (Hr r Hjr) as [Hq [[? _]|(d0 & Ed0 & Hph)]]; [congruence|]. split; [done|]. right. exists d'. split; [done|].
      assert (d0 = d) as -> by congruence. destruct (Hd d Ed) as [Hreach _]. apply Dispatch.dispatch_reachable_inv in Hreach.
      by eapply Dispatch.returned_step_phase; [done|apply Hst|].
  - constructor; cbn; [done| |by rewrite E]. intros r0 [= <-]. split; [apply release_local_queues_closed|]. right. eauto.
  - constructor; cbn; [done|done|by rewrite E].
  - destruct Hp as [Ev Hpr]. constructor; cbn; [done|done|]. split; [done|]. split; [done|]. split; [done|]. right. apply orb_true_r.
  - destruct Hp as [Ev Hpr]. constructor; cbn; [done|done|]. split; [done|]. split; [done|]. split; [done|]. left.
    destruct (Hr _ Ej) as [_ [[_ [? [=]]]|(d & Ed & Hph)]]. by apply (returned_ok_shutdown s d (Hd d Ed)).
  - destruct Hp as (Ev & Hpr & Hj & Hreq). constructor; cbn; [done|done|]. split_and!; try done. unfold sources_ended in *. cbn. by rewrite orb_false_r.
  - destruct Hp as (Ev & Hpr & (Hj & Hreq) & Hcm). constructor; cbn; [done|done|]. split_and!; try done.
    unfold sources_ended in *. cbn. by rewrite orb_false_r.
  - destruct Hp as (Ev & [Hrg Hhb] & Hso & Hcm & Hfl). constructor; cbn; [done|done|]. rewrite Ev. split_and!; try done.
    split_and!; try done; cbn; [by destruct (heartbeat s)|by destruct (sweeper s)].
  - destruct Hp as (Ev & Hrg & Hso & Hwd). constructor; cbn; [done|done|]. right. by exists r, (Ok tt).
  - destruct Hp as (Ev & Hrg & Hso & Hwd). constructor; cbn; [done|done|]. right. by exists r, (Err e).
  - by apply inv_tasks.
  - by apply inv_tasks.
  - by apply inv_tasks.
  - constructor; cbn; [done| |].
    + intros r Hjr. destruct (Hr r Hjr) as [Hq Hrest]. split; [|done].
      apply Forall_alter; [done|]. intros q _ _. apply release_closed.
    + destruct (phase s); try done; [destruct Hp as (? & ? & ? & ->)|destruct Hp as [(? & ? & ? & -> & ?)|]; [|by right]]; cbn.
      * by split_and!.
      * left. by split_and!.
  - constructor; cbn.
    + intros d Hd'. apply fmap_Some in Hd' as (d0 & Ed & ->). apply dispatcher_ok_signal; [by apply Hd|done].
    + intros r Hjr. destruct (Hr r Hjr) as [Hq [[Hn He]|(d & Ed & Hph)]]; split; try done; [left; by rewrite Hn|right].
      rewrite Ed. cbn. by eexists.
    + assert (∀ r, sources_ended s r → sources_ended (signalled s) r) as Hso by (intros r [? _]; split; [done|by left]).
      destruct (phase s).
      * destruct Hp as (? & Hn & ? & ?). by rewrite Hn.
      * done.
      * destruct Hp as (? & ? & ?). auto.
      * destruct Hp as (? & ? & ? & ?). auto.
      * destruct Hp as (? & ? & ? & ? & ?). auto 6.
      * destruct Hp as (? & ? & ? & ?). auto.
      * destruct Hp as [(? & Hn & ? & ? & ?)|(r0 & dr & ? & ? & ? & ? & ?)]; [left; by rewrite Hn|right].
        exists r0, dr. auto 6.
Qed.

Lemma reachable_ok_run s : reachable s → inv s.
Proof. intros Hr. pose proof initial_ok_run as Hi. unfold reachable in Hr. induction Hr; eauto using step_ok_run. Qed.

(** What takes or carries claims: a slot that has not ended, a local queue that
    nobody tried to release yet, a batcher. *)
Definition in_use (s : State) : Prop :=
  (∃ d k x, dispatcher s = Some d ∧ Dispatch.slots d !! k = Some x ∧ Dispatch.has_ended x = false) ∨
  (∃ k, queues s !! k = Some Open) ∨ (events s ≠ [] ∧ (completion s = Alive ∨ failure s = Alive)).

(** And what may hold claims: also a queue that failed to return them. *)
Definition may_hold_claims (s : State) : Prop := in_use s ∨ ∃ k, queues s !! k = Some ReleaseFailed.

Lemma sources_ended_idle s r : inv s → sources_ended s r →
  (∀ d k x, dispatcher s = Some d → Dispatch.slots d !! k = Some x → x = Dispatch.Joined) ∧ Forall (λ q, q ≠ Open) (queues s).
Proof.
  intros [Hd Hr _] [Hj _]. destruct (Hr r Hj) as [Hq [[Hn _]|(d & Ed & Hp)]]; (split; [|done]); intros d0 k x Ed0 Hx; [congruence|].
  assert (d0 = d) as -> by congruence. destruct (Hd d Ed) as [Hreach _]. apply Dispatch.dispatch_reachable_inv in Hreach.
  destruct (Dispatch.inv_returned _ _ _ Hreach _ Hp) as [Ha _]. by eapply Dispatch.all_joined_lookup.
Qed.

Lemma wound_down_idle s r : inv s → sources_ended s r → wound_down s → ¬ in_use s.
Proof.
  intros Hi Hs (Hc & Hf & _) Hh. destruct (sources_ended_idle s r Hi Hs) as [Hsl Hq].
  destruct Hh as [(d & k & x & Ed & Hx & Hn)|[(k & Hk)|(_ & [E|E])]].
  - rewrite (Hsl d k x Ed Hx) in Hn. done.
  - eapply Forall_lookup_1 in Hq; [|done]. done.
  - by rewrite E in Hc.
  - by rewrite E in Hf.
Qed.


(** ** Winding down *)

(** From the end of the sources, once the signal has fired, to the end. *)
Lemma wind_down s r :
  phase s = AwaitingCompletion r → shutdown s = true →
  ∃ s', rtc step s s' ∧ phase s' = Finished (finish_run r (Ok tt)).
Proof.
  intros Hp Hs. set (s1 := if ended (completion s) then s else set_tasks Ended (failure s) (heartbeat s) (sweeper s) s).
  assert (rtc step s s1 ∧ phase s1 = AwaitingCompletion r ∧ shutdown s1 = true ∧ ended (completion s1) = true) as (R1 & P1 & S1 & E1).
  { unfold s1. destruct (completion s) eqn:E; cbn; rewrite ?E; split_and!; try done. apply rtc_once. by apply completion_ends. }
  set (s2 := goto (AwaitingFailure r) false s1).
  set (s3 := if ended (failure s2) then s2 else set_tasks (completion s2) Ended (heartbeat s2) (sweeper s2) s2).
  assert (rtc step s2 s3 ∧ phase s3 = AwaitingFailure r ∧ ended (failure s3) = true) as (R3 & P3 & E3).
  { unfold s3. destruct (failure s2) eqn:E; cbn [ended]; rewrite ?E; split_and!; try done. apply rtc_once. by apply failure_ends. }
  eexists. split.
  - etrans; [exact R1|]. eapply rtc_l; [by apply await_completion|]. etrans; [exact R3|].
    eapply rtc_l; [by apply await_failure|]. eapply rtc_l; [by apply stop_recovery_tasks|]. apply rtc_once. by apply deregister_ok.
  - done.
Qed.

(** C40: The run never waits in vain.  When its job sources have ended, with
    success or an error, the shutdown signal that the batchers wait for has
    fired or has been requested, and from there the run can finish with the
    result of the sources. *)
Theorem run_winds_down s r :
  reachable s → phase s = AwaitingCompletion r →
  (shutdown s = true ∨ requested s = true) ∧
  ∃ s', rtc step s s' ∧ phase s' = Finished (finish_run r (Ok tt)).
Proof.
  intros Hi%reachable_ok_run Hp. pose proof (inv_phase s Hi) as H. rewrite Hp in H. destruct H as (_ & _ & _ & Hreq).
  split; [done|]. destruct (shutdown s) eqn:Es; [by apply wind_down|].
  destruct (wind_down (signalled s) r) as (s' & Hs & Hf); [done..|]. exists s'. split; [|done].
  eapply rtc_l; [by apply shutdown_fires|done].
Qed.

End run.

(** ** On a concrete worker *)

Section demo.
Abbreviation Err3 := (@Dispatch.WorkerRuntimeError unit unit unit).

(** One slot, no local queue, recovery enabled, completions batched. *)
Definition demo_cfg : Config := mkConfig 1 true false None true false.
Definition demo_started : @State unit unit unit := start demo_cfg (initial demo_cfg).
Definition demo_listening : @State unit unit unit := with_dispatcher (spawn_slots demo_cfg false) demo_started.
Definition demo_error : result unit Err3 := Err (Dispatch.PgListen tt).
Definition demo_failed : @State unit unit unit :=
  goto (AwaitingCompletion demo_error) true (runner_returns demo_error false (λ _, true) demo_started).

Lemma demo_started_reachable : reachable demo_cfg demo_started.
Proof. unfold reachable. apply rtc_once. by apply register_ok. Qed.


(** Listening fails, and the run winds down to that error. *)
Lemma run_winds_down_witness :
  requested demo_failed = true ∧ ∃ s', rtc (step demo_cfg) demo_failed s' ∧ phase s' = Finished demo_error.
Proof.
  assert (reachable demo_cfg demo_failed) as Hr.
  { unfold demo_failed. eapply rtc_r; [eapply rtc_r; [exact demo_started_reachable|]|by apply sources_fail].
    by apply (listen_error demo_cfg demo_started tt (λ _, true)). }
  split; [done|]. exact (proj2 (run_winds_down demo_cfg ltac:(done) demo_failed demo_error Hr eq_refl)).
Defined.

(** One local queue, whose release fails when the run has to stop. *)
Definition queue_cfg : Config := mkConfig 1 true false (Some 1) false false.
Definition queue_failed : @State unit unit unit :=
  goto (AwaitingCompletion demo_error) true
    (runner_returns demo_error true (λ _, false) (start queue_cfg (initial queue_cfg))).

(** An error of releasing a local queue is only logged.  The run goes on to stop
    its heartbeat and to deregister the worker, and returns, while the queue's
    claims stay locked in its name until a sweep finds them orphaned. *)
Theorem failed_release_is_left_behind :
  ∃ s : @State unit unit unit, reachable queue_cfg s ∧ phase s = Finished demo_error ∧
    registered s = false ∧ heartbeat s = Ended ∧ queues s = [ReleaseFailed] ∧ may_hold_claims s.
Proof.
  eexists (deregister demo_error (Ok tt) false (stop_recovery demo_error
    (goto (StoppingRecovery demo_error) false (goto (AwaitingFailure demo_error) false queue_failed)))).
  split_and!; [|done..|right; by exists 0].
  eapply rtc_l; [by apply register_ok|]. eapply rtc_l; [by apply (listen_error queue_cfg _ tt (λ _, false))|].
  eapply rtc_l; [by apply sources_fail|]. eapply rtc_l; [by apply await_completion|].
  eapply rtc_l; [by apply await_failure|]. eapply rtc_l; [by apply stop_recovery_tasks|].
  apply rtc_once. by apply deregister_ok.
Qed.
End demo.
End WorkerRun.
