(* ===== verification/Builder.v ===== *)
(** * Building a worker (src/builder, src/shutdown.rs, src/context_ext.rs)

    The options with every setter, the shutdown signal they configure, [init]
    with the order of its errors and what it leaves in the tables, and the
    utilities the worker and its tasks hand out.  The extensions among the
    options are in Context.v, typed cron entries in Cron.v. *)

From S2P Require Import Prelude Job Database FlagFilter JobStore JobRelease Hooks TaskHandler CrontabTypes AddJob LocalQueue Recovery WorkerUtils Runner.
Open Scope Z_scope.

Module Builder.
Import Job FlagFilter JobStore JobRelease Hooks AddJob.

(** ** shutdown.rs, builder/shutdown.rs *)

(** A shared future without a value, by the times at which it has completed. *)
Abbreviation Signal := (Z → bool).

Record WorkerShutdownConfig := mkShutdown {
  listen_os_shutdown_signals : bool;
  grace_period : Z;
  interrupted_job_retry_delay : Z;
  shutdown_signal : option Signal
}.

Definition default_shutdown : WorkerShutdownConfig :=
  mkShutdown true (Recovery.seconds 5) (Recovery.seconds 30) None.

(** [select_biased!] of the two futures. *)
Definition combine_shutdown_signals (left right : Signal) : Signal := λ t, left t || right t.

Definition configured_shutdown_signal (manual os : Signal) (c : WorkerShutdownConfig) : Signal :=
  let signal := match shutdown_signal c with
                | Some custom => combine_shutdown_signals manual custom
                | None => manual
                end in
  if listen_os_shutdown_signals c then combine_shutdown_signals signal os else signal.

(** ** builder/mod.rs *)

(** The registry of hooks: those of the runner and the scheduling handlers. *)
Record Registry := mkRegistry {
  run_hooks : Runner.HookRegistry;
  schedule_hooks : option (list ScheduleHook)
}.
Definition registry_is_empty (h : Registry) : bool :=
  Runner.hooks_is_empty (run_hooks h) && match schedule_hooks h with None => true | Some _ => false end.
Definition no_registry : Registry := mkRegistry Runner.no_hooks None.

Abbreviation Crontab := (CrontabTypes.Crontab Value).

Record WorkerOptions := mkOptions {
  o_concurrency : option Z;
  o_poll_interval : option Z;
  o_use_notification_delivery : option bool;
  o_jobs : gmap str Runner.WorkerFn;
  o_database : bool;                     (* a handle was given *)
  o_sql_retry_policy : option Z;
  o_database_url : option str;
  o_max_pg_conn : option Z;
  o_schema : option str;
  o_forbidden_flags : list str;
  o_accepted_flags : list str;
  o_job_flag_allowlist : option (list str);
  o_crontabs : option (list Crontab);
  o_use_local_time : bool;
  o_hooks : Registry;
  o_local_queue_config : option LocalQueue.LocalQueueConfig;
  o_complete_job_batch_delay : option Z;
  o_fail_job_batch_delay : option Z;
  o_worker_recovery_config : option Recovery.WorkerRecoveryConfig;
  o_worker_shutdown_config : option WorkerShutdownConfig
}.

Definition default_options : WorkerOptions :=
  mkOptions None None None ∅ false None None None None [] [] None None false no_registry None None None None None.

Definition with_core (o : WorkerOptions) (c p : option Z) (n : option bool) (s : option str) (l : bool) : WorkerOptions :=
  mkOptions c p n (o_jobs o) (o_database o) (o_sql_retry_policy o) (o_database_url o) (o_max_pg_conn o) s
    (o_forbidden_flags o) (o_accepted_flags o) (o_job_flag_allowlist o) (o_crontabs o) l (o_hooks o)
    (o_local_queue_config o) (o_complete_job_batch_delay o) (o_fail_job_batch_delay o)
    (o_worker_recovery_config o) (o_worker_shutdown_config o).
Definition with_database (o : WorkerOptions) (d : bool) (r : option Z) (u : option str) (m : option Z) : WorkerOptions :=
  mkOptions (o_concurrency o) (o_poll_interval o) (o_use_notification_delivery o) (o_jobs o) d r u m (o_schema o)
    (o_forbidden_flags o) (o_accepted_flags o) (o_job_flag_allowlist o) (o_crontabs o) (o_use_local_time o) (o_hooks o)
    (o_local_queue_config o) (o_complete_job_batch_delay o) (o_fail_job_batch_delay o)
    (o_worker_recovery_config o) (o_worker_shutdown_config o).
Definition with_jobs_flags (o : WorkerOptions) (js : gmap str Runner.WorkerFn) (f a : list str) (l : option (list str))
    (cs : option (list Crontab)) (h : Registry) : WorkerOptions :=
  mkOptions (o_concurrency o) (o_poll_interval o) (o_use_notification_delivery o) js (o_database o)
    (o_sql_retry_policy o) (o_database_url o) (o_max_pg_conn o) (o_schema o) f a l cs (o_use_local_time o) h
    (o_local_queue_config o) (o_complete_job_batch_delay o) (o_fail_job_batch_delay o)
    (o_worker_recovery_config o) (o_worker_shutdown_config o).
Definition with_parts (o : WorkerOptions) (q : option LocalQueue.LocalQueueConfig) (c f : option Z)
    (r : option Recovery.WorkerRecoveryConfig) (s : option WorkerShutdownConfig) : WorkerOptions :=
  mkOptions (o_concurrency o) (o_poll_interval o) (o_use_notification_delivery o) (o_jobs o) (o_database o)
    (o_sql_retry_policy o) (o_database_url o) (o_max_pg_conn o) (o_schema o) (o_forbidden_flags o) (o_accepted_flags o)
    (o_job_flag_allowlist o) (o_crontabs o) (o_use_local_time o) (o_hooks o) q c f r s.

(** *** Partial updates *)

Definition set_parts (o : WorkerOptions) := with_parts o (o_local_queue_config o) (o_complete_job_batch_delay o) (o_fail_job_batch_delay o).

(** A recovery setter also enables recovery. *)
Definition update_recovery (f : Recovery.WorkerRecoveryConfig → Recovery.WorkerRecoveryConfig) (o : WorkerOptions) :
    WorkerOptions :=
  set_parts o (Some (f (default Recovery.default_config (o_worker_recovery_config o)))) (o_worker_shutdown_config o).
Definition set_heartbeat_interval (v : Z) (c : Recovery.WorkerRecoveryConfig) : Recovery.WorkerRecoveryConfig :=
  Recovery.mkRecoveryConfig v (Recovery.sweep_interval c) (Recovery.default_sweep_threshold c)
    (Recovery.default_recovery_delay c) (Recovery.default_multiplier c) (Recovery.default_resilient_flags c) true.
Definition set_sweep_interval (v : Z) (c : Recovery.WorkerRecoveryConfig) : Recovery.WorkerRecoveryConfig :=
  Recovery.mkRecoveryConfig (Recovery.heartbeat_interval c) v (Recovery.default_sweep_threshold c)
    (Recovery.default_recovery_delay c) (Recovery.default_multiplier c) (Recovery.default_resilient_flags c) true.
Definition set_sweep_threshold (v : Z) (c : Recovery.WorkerRecoveryConfig) : Recovery.WorkerRecoveryConfig :=
  Recovery.mkRecoveryConfig (Recovery.heartbeat_interval c) (Recovery.sweep_interval c) v
    (Recovery.default_recovery_delay c) (Recovery.default_multiplier c) (Recovery.default_resilient_flags c) true.
Definition set_recovery_delay (v : Z) (c : Recovery.WorkerRecoveryConfig) : Recovery.WorkerRecoveryConfig :=
  Recovery.mkRecoveryConfig (Recovery.heartbeat_interval c) (Recovery.sweep_interval c)
    (Recovery.default_sweep_threshold c) v (Recovery.default_multiplier c) (Recovery.default_resilient_flags c) true.

Definition update_shutdown_config (f : WorkerShutdownConfig → WorkerShutdownConfig) (o : WorkerOptions) : WorkerOptions :=
  set_parts o (o_worker_recovery_config o) (Some (f (default default_shutdown (o_worker_shutdown_config o)))).

Definition with_flags (o : WorkerOptions) (f a : list str) (l : option (list str)) : WorkerOptions :=
  with_jobs_flags o (o_jobs o) f a l (o_crontabs o) (o_hooks o).

Definition append_crontabs (cs : list Crontab) (o : WorkerOptions) : WorkerOptions :=
  with_jobs_flags o (o_jobs o) (o_forbidden_flags o) (o_accepted_flags o) (o_job_flag_allowlist o)
    (Some (default [] (o_crontabs o) ++ cs)) (o_hooks o).

Definition define_jobs (defs : list (str * Runner.WorkerFn)) (o : WorkerOptions) : WorkerOptions :=
  with_jobs_flags o (foldl (λ m d, <[d.1 := d.2]> m) (o_jobs o) defs) (o_forbidden_flags o) (o_accepted_flags o)
    (o_job_flag_allowlist o) (o_crontabs o) (o_hooks o).

(** *** The setters, by file *)

(** core.rs *)
Inductive CoreSetting :=
| SetSchema (v : str) | SetConcurrency (v : Z) | SetPollInterval (v : Z)
| SetUseNotificationDelivery (v : bool) | SetUseLocalTime (v : bool).

(** [None]: the assertion on the concurrency panics. *)
Definition core_setting (x : CoreSetting) (o : WorkerOptions) : option WorkerOptions :=
  let c := o_concurrency o in let p := o_poll_interval o in let n := o_use_notification_delivery o in
  let s := o_schema o in let l := o_use_local_time o in
  match x with
  | SetSchema v => Some (with_core o c p n (Some v) l)
  | SetConcurrency v => if v <=? 0 then None else Some (with_core o (Some v) p n s l)
  | SetPollInterval v => Some (with_core o c (Some v) n s l)
  | SetUseNotificationDelivery v => Some (with_core o c p (Some v) s l)
  | SetUseLocalTime v => Some (with_core o c p n s v)
  end.

(** database.rs *)
Inductive DatabaseSetting :=
| SetDatabase | SetSqlRetryPolicy (max_attempts : Z) | SetDatabaseUrl (v : str) | SetMaxPgConn (v : Z).

Definition database_setting (x : DatabaseSetting) (o : WorkerOptions) : WorkerOptions :=
  let d := o_database o in let r := o_sql_retry_policy o in let u := o_database_url o in let m := o_max_pg_conn o in
  match x with
  | SetDatabase => with_database o true r u m
  | SetSqlRetryPolicy n => with_database o d (Some n) u m
  | SetDatabaseUrl u => with_database o d r (Some u) m
  | SetMaxPgConn n => with_database o d r u (Some n)
  end.

(** jobs.rs *)
Inductive JobsSetting :=
| SetJobFlagAllowlist (l : list str) | AddAcceptedFlag (f : str) | AddForbiddenFlag (f : str)
| DefineJobs (defs : list (str * Runner.WorkerFn)).

Definition jobs_setting (x : JobsSetting) (o : WorkerOptions) : WorkerOptions :=
  let f := o_forbidden_flags o in let a := o_accepted_flags o in let l := o_job_flag_allowlist o in
  match x with
  | SetJobFlagAllowlist l => with_flags o f a (Some l)
  | AddAcceptedFlag x => with_flags o f (a ++ [x]) l
  | AddForbiddenFlag x => with_flags o (f ++ [x]) a l
  | DefineJobs defs => define_jobs defs o
  end.

(** batching.rs, local_queue.rs *)
Inductive PartSetting :=
| SetLocalQueue (c : LocalQueue.LocalQueueConfig) | SetCompleteJobBatchDelay (d : Z) | SetFailJobBatchDelay (d : Z).

Definition part_setting (x : PartSetting) (o : WorkerOptions) : WorkerOptions :=
  let q := o_local_queue_config o in let c := o_complete_job_batch_delay o in let f := o_fail_job_batch_delay o in
  let keep := λ q c f, with_parts o q c f (o_worker_recovery_config o) (o_worker_shutdown_config o) in
  match x with
  | SetLocalQueue v => keep (Some v) c f
  | SetCompleteJobBatchDelay d => keep q (Some d) f
  | SetFailJobBatchDelay d => keep q c (Some d)
  end.

(** recovery.rs *)
Inductive RecoverySetting :=
| SetWorkerRecovery (c : Recovery.WorkerRecoveryConfig)
| SetHeartbeatInterval (v : Z) | SetSweepInterval (v : Z) | SetSweepThreshold (v : Z) | SetRecoveryDelay (v : Z).

Definition recovery_setting (x : RecoverySetting) (o : WorkerOptions) : WorkerOptions :=
  match x with
  | SetWorkerRecovery c => set_parts o (Some c) (o_worker_shutdown_config o)
  | SetHeartbeatInterval v => update_recovery (set_heartbeat_interval v) o
  | SetSweepInterval v => update_recovery (set_sweep_interval v) o
  | SetSweepThreshold v => update_recovery (set_sweep_threshold v) o
  | SetRecoveryDelay v => update_recovery (set_recovery_delay v) o
  end.

(** shutdown.rs *)
Inductive ShutdownSetting :=
| SetWorkerShutdown (c : WorkerShutdownConfig)
| SetListenOs (v : bool) | SetShutdownSignal (s : Signal) | SetGracePeriod (v : Z) | SetInterruptedDelay (v : Z).

(** The setters of [WorkerShutdownConfig] itself. *)
Definition shutdown_update (x : ShutdownSetting) (c : WorkerShutdownConfig) : WorkerShutdownConfig :=
  let os := listen_os_shutdown_signals c in let g := grace_period c in
  let d := interrupted_job_retry_delay c in let s := shutdown_signal c in
  match x with
  | SetWorkerShutdown c => c
  | SetListenOs v => mkShutdown v g d s
  | SetShutdownSignal v => mkShutdown os g d (Some v)
  | SetGracePeriod v => mkShutdown os v d s
  | SetInterruptedDelay v => mkShutdown os g v s
  end.
Definition shutdown_setting (x : ShutdownSetting) (o : WorkerOptions) : WorkerOptions :=
  update_shutdown_config (shutdown_update x) o.

(** hooks.rs: [on] and [add_plugin] leave another registry. *)
Definition hooks_setting (h : Registry) (o : WorkerOptions) : WorkerOptions :=
  with_jobs_flags o (o_jobs o) (o_forbidden_flags o) (o_accepted_flags o) (o_job_flag_allowlist o) (o_crontabs o) h.

Inductive Setting :=
| Core (x : CoreSetting) | Database (x : DatabaseSetting) | Jobs (x : JobsSetting) | Part (x : PartSetting)
| RecoveryOption (x : RecoverySetting) | Shutdown (x : ShutdownSetting) | SetHooks (h : Registry)
| WithCrons (cs : list Crontab) | WithCronText (text : str).

Inductive SettingError (E : Type) := ConcurrencyPanic | CrontabInvalid (e : E).
Arguments ConcurrencyPanic {E}.
Arguments CrontabInvalid {E} e.

Section builder.
(** [parse_crontab] of the crontab parser. *)
Context {CrontabParseError : Type} (parse_crontab : str → result (list Crontab) CrontabParseError).
Abbreviation SettingError := (SettingError CrontabParseError).

(** cron_input.rs: crontab text is parsed and appended. *)
Definition append_text (text : str) (o : WorkerOptions) : result WorkerOptions SettingError :=
  match parse_crontab text with
  | Ok cs => Ok (append_crontabs cs o)
  | Err e => Err (CrontabInvalid e)
  end.

Definition apply_setting (x : Setting) (o : WorkerOptions) : result WorkerOptions SettingError :=
  match x with
  | Core x => match core_setting x o with Some o => Ok o | None => Err ConcurrencyPanic end
  | Database x => Ok (database_setting x o)
  | Jobs x => Ok (jobs_setting x o)
  | Part x => Ok (part_setting x o)
  | RecoveryOption x => Ok (recovery_setting x o)
  | Shutdown x => Ok (shutdown_setting x o)
  | SetHooks h => Ok (hooks_setting h o)
  | WithCrons cs => Ok (append_crontabs cs o)
  | WithCronText text => append_text text o
  end.

(** [WorkerOptions::default()] and a chain of setters. *)
Fixpoint configure (xs : list Setting) (o : WorkerOptions) : result WorkerOptions SettingError :=
  match xs with
  | [] => Ok o
  | x :: xs => let? o := apply_setting x o in configure xs o
  end.
End builder.

(** ** builder/init.rs *)

Inductive WorkerBuildError :=
| ConnectError
| QueryError (e : SqlError)
| MissingDatabaseUrl
| MigrationError
| LocalQueueConfig (e : LocalQueue.LocalQueueConfigError).

(** What [init] meets: whether the database answers, whether migrating it
    succeeds, the failures of its statements, the random part of the worker's
    id, the number of processors, and the signals. *)
Record Startup := mkStartup {
  connects : bool;
  migrates : bool;
  st_fails : nat → option SqlError;
  random_hex : str;
  num_cpus : Z;
  manual_signal : Signal;
  os_signal : Signal
}.

Record Worker := mkWorker {
  runner : Runner.WorkerRunner;
  w_concurrency : Z;
  w_poll_interval : Z;
  w_use_notification_delivery : bool;
  w_schema : str;
  w_max_pg_conn : option Z;              (* of a database it connected itself *)
  w_sql_retry_policy : option Z;
  w_crontabs : list Crontab;
  w_use_local_time : bool;
  w_signal : Signal;
  w_registry : Registry;
  w_local_queue_config : option LocalQueue.LocalQueueConfig;
  w_completion_delay : option Z;
  w_failure_delay : option Z;
  w_recovery_config : Recovery.WorkerRecoveryConfig;
  w_shutdown_config : WorkerShutdownConfig
}.

Definition millis_ (n : Z) : Z := n * 10 ^ 6.

(** The pool of a database the worker opens; [None] for one it was given. *)
Definition connect (st : Startup) (o : WorkerOptions) : result (option Z) WorkerBuildError :=
  if o_database o then Ok None
  else match o_database_url o with
       | None => Err MissingDatabaseUrl
       | Some _ => if connects st then Ok (Some (default 20 (o_max_pg_conn o))) else Err ConnectError
       end.

Definition flag_filter (o : WorkerOptions) : JobFlagFilter :=
  let f := new_filter (o_forbidden_flags o) (o_accepted_flags o) in
  match o_job_flag_allowlist o with Some allowed => with_allowlist f allowed | None => f end.

(** Registering the handlers: the statements of [get_tasks_details]. *)
Definition register_tasks (st : Startup) (names : list str) (d : Db) : Db * result TaskDetails SqlError :=
  if is_empty names then (d, Ok ∅)
  else match st_fails st 0 with
       | Some e => (d, Err e)
       | None =>
           match WorkerUtils.register_names names d with
           | Err e => (d, Err e)
           | Ok d => (d, match st_fails st 1 with
                         | Some e => Err e
                         | None => Ok (WorkerUtils.select_details names d)
                         end)
           end
       end.

Definition make_worker (st : Startup) (o : WorkerOptions) (pool : option Z) (td : TaskDetails) : Worker :=
  let shutdown := default default_shutdown (o_worker_shutdown_config o) in
  let channel := λ delay : option Z, (λ _, Runner.ChannelOpen) <$> delay in
  mkWorker
    (Runner.mkRunner (lit "graphile_worker_" ++ random_hex st) (o_jobs o) td (flag_filter o) (run_hooks (o_hooks o))
       (channel (o_complete_job_batch_delay o)) (channel (o_fail_job_batch_delay o))
       (grace_period shutdown) (interrupted_job_retry_delay shutdown))
    (default (num_cpus st) (o_concurrency o)) (default (millis_ 1000) (o_poll_interval o))
    (default true (o_use_notification_delivery o)) (default (lit "graphile_worker") (o_schema o)) pool
    (o_sql_retry_policy o) (default [] (o_crontabs o)) (o_use_local_time o)
    (configured_shutdown_signal (manual_signal st) (os_signal st) shutdown) (o_hooks o) (o_local_queue_config o)
    (o_complete_job_batch_delay o) (o_fail_job_batch_delay o)
    (default Recovery.default_config (o_worker_recovery_config o)) shutdown.

Definition check_local_queue (o : WorkerOptions) : result unit WorkerBuildError :=
  match o_local_queue_config o with
  | None => Ok ()
  | Some c => map_err LocalQueueConfig (LocalQueue.validate c (default (millis_ 1000) (o_poll_interval o)))
  end.

(** The tables are those of a migrated schema. *)
Definition init (st : Startup) (o : WorkerOptions) (d : Db) : Db * result Worker WorkerBuildError :=
  match connect st o with
  | Err e => (d, Err e)
  | Ok pool =>
      if negb (migrates st) then (d, Err MigrationError)
      else
        let '(d, r) := register_tasks st (map_to_list (o_jobs o)).*1 d in
        (d, let? td := map_err QueryError r in
            let? _ := check_local_queue o in
            Ok (make_worker st o pool td))
  end.

(** ** runner/lifecycle/mod.rs, context_ext.rs: the utilities *)

Record UtilsConfig := mkUtils {
  u_hooks : option Registry;
  u_task_details : TaskDetails;
  u_use_local_time : bool
}.

Definition create_utils (w : Worker) : UtilsConfig :=
  let hooks := if registry_is_empty (w_registry w) then None else Some (w_registry w) in
  mkUtils hooks (Runner.task_details (runner w)) false.

(** The utilities of a task's context. *)
Definition context_utils (w : Worker) : UtilsConfig :=
  mkUtils None (Runner.task_details (runner w)) (w_use_local_time w).

Definition schedule (u : UtilsConfig) (trace : option Value) (clock now : Z) (name : str) (v : Value) (spec : JobSpec)
    (d : Db) : option (Db * result Job GraphileWorkerError) :=
  WorkerUtils.add_raw_job trace clock now (schedule_hooks <$> u_hooks u) (u_use_local_time u) name v spec d.

(** [get_queue_name] of a task's context. *)
Definition get_queue_name (job : Job) (d : Db) : option str :=
  match job_queue_id job with
  | None => None
  | Some i => default None (head (get_queue_names [i] d))
  end.

(** ** The worker that is built *)

Definition concurrency_ok (o : WorkerOptions) : Prop := ∀ c, o_concurrency o = Some c → 0 < c.

Lemma apply_concurrency {E} (parse : str → result (list Crontab) E) x o o' :
  concurrency_ok o → apply_setting parse x o = Ok o' → concurrency_ok o'.
Proof.
  intros Ho. destruct x as [x|x|x|x|x|x|h|cs|text]; cbn; [| |..|unfold append_text; destruct (parse text); [|done]];
    try (intros [= <-]; first [exact Ho|destruct x; exact Ho]).
  destruct x; cbn; [|destruct (Z.leb_spec v 0); [done|]|..]; intros [= <-]; [exact Ho| |exact Ho..].
  intros c [= <-]. done.
Qed.

Lemma configure_concurrency {E} (parse : str → result (list Crontab) E) xs o o' :
  concurrency_ok o → configure parse xs o = Ok o' → concurrency_ok o'.
Proof.
  revert o. induction xs as [|x xs IH]; intros o Ho; cbn; [by intros [= <-]|].
  destruct (apply_setting parse x o) as [o1|] eqn:Ex; [|done]. apply apply_concurrency in Ex; [|done]. by apply IH.
Qed.

Lemma register_tasks_Ok st names d d' td :
  WorkerUtils.tasks_fresh d → register_tasks st names d = (d', Ok td) →
  (∀ n, n ∈ names → ∃ i, td !! i = Some n) ∧
  (∀ i n, td !! i = Some n → n ∈ names ∧ tasks d' !! i = Some n) ∧ same_jobs d d'.
Proof.
  intros Hf. unfold register_tasks. destruct (is_empty names) eqn:Ee.
  { destruct names; [|done]. intros [= <- <-]. split_and!; [set_solver|by intros i n|done]. }
  destruct (st_fails st 0); [done|]. destruct (WorkerUtils.register_names names d) as [d1|] eqn:E; [|done].
  destruct (st_fails st 1); [done|]. intros [= <- <-]. unfold WorkerUtils.register_names in E.
  pose proof (insert_tasks_same _ _ _ E) as [Hsame _].
  apply WorkerUtils.register_names_grows in E as (_ & _ & Hn); [|done]. split_and!; [| |done].
  - intros n Hin. destruct (Hn n) as [i Hi]; [by apply elem_of_remove_dups|]. exists i.
    by apply WorkerUtils.select_details_lookup.
  - intros i n [Hi Hin]%WorkerUtils.select_details_lookup. done.
Qed.

Lemma claimed_in_details con td filt t db sel i j :
  claimed con (task_ids td) filt t db sel → (i, j) ∈ sel → is_Some (td !! task_id j).
Proof.
  intros (_ & Hc & _) Hin. destruct (Hc i j Hin) as [_ Hcand]. apply candidate_spec in Hcand as (_ & _ & _ & Ht & _).
  unfold task_ids in Ht. apply list_elem_of_fmap in Ht as ([k n] & -> & Hk%elem_of_map_to_list). by exists n.
Qed.

(** A handler is there for every job the worker can claim. *)
Definition handles (r : Runner.WorkerRunner) (j : Job) : Prop := is_Some (Runner.handlers r !! task_identifier j).

Lemma returned_handled (r : Runner.WorkerRunner) con filt t db sel (j : Job) :
  (∀ i n, Runner.task_details r !! i = Some n → is_Some (Runner.handlers r !! n)) →
  claimed con (task_ids (Runner.task_details r)) filt t db sel →
  j ∈ returned_jobs (Runner.task_details r) (Runner.worker_id r) t sel → handles r j.
Proof.
  intros Hh Hc (x & -> & Hin)%list_elem_of_fmap. destruct x as [i row].
  destruct (claimed_in_details _ _ _ _ _ _ _ _ Hc Hin) as [n Hn].
  unfold handles. cbn. unfold get_or_empty. rewrite Hn. by eapply Hh.
Qed.

(** C26: a worker that was built is ready: every registered handler has a task
    row the worker knows, and whatever the tables become later, every job its
    claims return, in a batch or alone, has a handler, so that no claimed job
    fails for want of one; its concurrency is positive, its local queue
    passed the check, and the jobs of the tables are untouched. *)
Theorem built_worker_handles_its_claims {E} (parse : str → result (list Crontab) E) xs o st d d' w :
  configure parse xs default_options = Ok o → 0 < num_cpus st → WorkerUtils.tasks_fresh d →
  init st o d = (d', Ok w) →
  let r := runner w in
  (∀ n fn, Runner.handlers r !! n = Some fn →
     ∃ i, Runner.task_details r !! i = Some n ∧ tasks d' !! i = Some n) ∧
  (∀ con clock n now db db' rows (j : Job),
     batch_get_jobs_with_filter con clock (Runner.task_details r) (Runner.worker_id r) (Runner.job_flag_filter r)
       n now db db' (Ok rows) → j ∈ rows → handles r j) ∧
  (∀ con clock now db db' (j : Job),
     get_job_with_filter con clock (Runner.task_details r) (Runner.worker_id r) (Runner.job_flag_filter r)
       now db db' (Some j) → handles r j) ∧
  0 < w_concurrency w ∧
  (∀ c, w_local_queue_config w = Some c → LocalQueue.validate c (w_poll_interval w) = Ok ()) ∧
  same_jobs d d'.
Proof.
  intros Hconf Hcpu Hf. unfold init. destruct (connect st o) as [pool|]; [|done].
  destruct (negb (migrates st)); [done|].
  destruct (register_tasks st _ d) as [d1 rt] eqn:Er. intros [= <- Hw].
  destruct rt as [td|e]; [|discriminate Hw]. cbn in Hw.
  destruct (check_local_queue o) as [[]|e] eqn:Ec; [|discriminate Hw]. injection Hw as <-. cbn.
  apply register_tasks_Ok in Er as (Hin & Hrow & Hsame); [|done].
  assert (∀ i n, td !! i = Some n → is_Some (o_jobs o !! n)) as Hh.
  { intros i n [Hn _]%Hrow. apply list_elem_of_fmap in Hn as ([k fn] & -> & Hk%elem_of_map_to_list). by exists fn. }
  split_and!; [| | | | |done].
  - intros n fn Hfn. destruct (Hin n) as [i Hi].
    { apply list_elem_of_fmap. exists (n, fn). split; [done|]. by apply elem_of_map_to_list. }
    exists i. split; [done|]. by apply Hrow.
  - intros con clock n now db db' rows j Hb Hj. inversion Hb as [|raw rows' Hn Hs Hp]; subst.
    eapply (returned_handled (runner (make_worker st o pool td))); [exact Hh|by eapply selection_claimed|].
    by rewrite <- Hp.
  - intros con clock now db db' j Hg. apply get_claim_inv in Hg as (sel & Hc & _ & Hj).
    destruct Hj as [Hj _].
    eapply (returned_handled (runner (make_worker st o pool td))); [exact Hh|exact Hc|].
    apply head_Some_elem_of. symmetry. exact Hj.
  - apply configure_concurrency in Hconf; [|done]. destruct (o_concurrency o) as [c|] eqn:Eo; [|done]. by apply Hconf.
  - intros c Hq. unfold check_local_queue in Ec. rewrite Hq in Ec.
    destruct (LocalQueue.validate c _) as [[]|]; [done|discriminate Ec].
Qed.

(** A job with a handler never fails for want of one. *)
Lemma handled_job_runs (r : Runner.WorkerRunner) (j : Job) start sh t :
  handles r j → Runner.run_job j r start sh ≠ Some (t, Err (Runner.FnNotFound (task_identifier j))).
Proof.
  intros [fn Hfn]. unfold Runner.run_job. destruct (is_empty _); [done|]. rewrite Hfn.
  destruct (Runner.select_biased _ _) as [[t' [e|]]|]; cbn; try done.
  destruct e as [[|e [v|]]|p]; done.
Qed.

(** The errors of [init] and what they leave behind.  Nothing happens to
    the tables before the connection and the migration succeed; a failing
    statement or an invalid local queue, which is checked last, may leave the
    task identifiers registered; jobs are never touched. *)
Theorem init_errors st o d d' e :
  WorkerUtils.tasks_fresh d → init st o d = (d', Err e) →
  same_jobs d d' ∧
  match e with
  | MissingDatabaseUrl => o_database o = false ∧ o_database_url o = None ∧ d' = d
  | ConnectError => o_database o = false ∧ connects st = false ∧ d' = d
  | MigrationError => migrates st = false ∧ d' = d
  | QueryError _ => connect st o ≠ Err MissingDatabaseUrl ∧ migrates st = true
  | LocalQueueConfig e =>
      (∃ c, o_local_queue_config o = Some c ∧
            LocalQueue.validate c (default (millis_ 1000) (o_poll_interval o)) = Err e) ∧
      ∀ n, is_Some (o_jobs o !! n) → ∃ i, tasks d' !! i = Some n
  end.
Proof.
  intros Hf. unfold init. destruct (connect st o) as [pool|e'] eqn:Ec.
  2: { intros [= <- <-]. split; [done|]. unfold connect in Ec. repeat case_match; simplify_eq; done. }
  destruct (migrates st) eqn:Em; cbn [negb]; [|intros [= <- <-]; done].
  destruct (register_tasks st _ d) as [d1 [td|e1]] eqn:Er; cbn.
  - intros [= <- He]. apply register_tasks_Ok in Er as (Hin & Hrow & Hsame); [|done]. split; [done|].
    unfold check_local_queue in He. destruct (o_local_queue_config o) as [c|]; [|done].
    destruct (LocalQueue.validate c _) as [[]|e2] eqn:Ev; cbn in He; [done|]. injection He as <-.
    split; [by exists c|]. intros n [fn Hfn]. destruct (Hin n) as [i Hi].
    { apply list_elem_of_fmap. exists (n, fn). split; [done|]. by apply elem_of_map_to_list. }
    exists i. by apply Hrow.
  - intros [= <- <-]. split; [|done]. unfold register_tasks in Er. destruct (is_empty _); [done|].
    destruct (st_fails st 0); [by injection Er as <- _|].
    destruct (WorkerUtils.register_names _ d) as [d2|] eqn:E; [|by injection Er as <- _].
    injection Er as <- _. by apply insert_tasks_same in E as [].
Qed.

(** The shutdown signal of a worker fires exactly when it was requested,
    when the signal of the options fires, or, unless the options say
    otherwise, when the operating system asks for it. *)
Theorem worker_shutdown_signal st o d d' w t :
  init st o d = (d', Ok w) →
  let c := default default_shutdown (o_worker_shutdown_config o) in
  w_signal w t = true ↔
    manual_signal st t = true ∨ (∃ s, shutdown_signal c = Some s ∧ s t = true) ∨
    (listen_os_shutdown_signals c = true ∧ os_signal st t = true).
Proof.
  unfold init. destruct (connect st o) as [pool|]; [|done]. destruct (negb _); [done|].
  destruct (register_tasks st _ d) as [d1 [td|]]; [|done]. cbn. destruct (check_local_queue o); [|done].
  intros [= <- <-]. cbn. unfold configured_shutdown_signal, combine_shutdown_signals.
  set (c := default default_shutdown _).
  destruct (shutdown_signal c) as [s|], (listen_os_shutdown_signals c); rewrite ?orb_true_iff; naive_solver.
Qed.

(** ** The utilities *)

(** Jobs a task schedules through its context bypass the scheduling hooks of
    the worker, which the worker's own utilities run: a hook that refuses every
    job stops those of the utilities only. *)
Theorem context_bypasses_schedule_hooks w trace clock now name v spec d hs m :
  schedule_hooks (w_registry w) = Some ((λ _, ScheduleFail m) :: hs) →
  schedule (create_utils w) trace clock now name v spec d = Some (d, Err (JobScheduleFailed m)) ∧
  schedule (context_utils w) trace clock now name v spec d =
    Some (match add_job trace clock name v spec (w_use_local_time w) now d with
          | Ok (d', job) => (d', Ok job)
          | Err e => (d, Err e)
          end).
Proof.
  intros Hs. split; [|done]. unfold schedule, create_utils, registry_is_empty. rewrite Hs, andb_false_r. cbn.
  rewrite Hs. done.
Qed.

(** ** Witnesses *)

Definition demo_handler : Runner.WorkerFn := λ _, None.
Definition demo_settings : list Setting :=
  [Database (SetDatabaseUrl (lit "postgres://localhost")); Core (SetConcurrency 4);
   Jobs (DefineJobs [(lit "task", demo_handler)]); Jobs (AddForbiddenFlag (lit "slow")); Core (SetUseLocalTime true);
   Shutdown (SetListenOs false); RecoveryOption (SetHeartbeatInterval (Recovery.seconds 10));
   Part (SetLocalQueue (LocalQueue.mkConfig 10 (Recovery.seconds 60) None 2))].
Definition no_parser (_ : str) : result (list Crontab) unit := Err ().
Definition demo_options : WorkerOptions :=
  match configure no_parser demo_settings default_options with Ok o => o | Err _ => default_options end.
Definition demo_startup : Startup :=
  mkStartup true true (λ _, None) (lit "0011") 8 (λ t, 100 <=? t) (λ t, 50 <=? t).
Definition demo_worker : Worker := make_worker demo_startup demo_options (Some 20) {[1 := lit "task"]}.

(** The option for local time reaches the utilities of a task but not those
    of the worker: a job added through the worker runs at the database's
    time. *)
Theorem create_utils_ignores_local_time :
  w_use_local_time demo_worker = true ∧
  (let added u := match schedule u None 70 40 (lit "task") (Object []) (mkSpec None None None None None None None) empty_db with
                  | Some (_, Ok job) => Some (run_at job)
                  | _ => None
                  end in
   added (context_utils demo_worker) = Some 70 ∧ added (create_utils demo_worker) = Some 40).
Proof. vm_compute. auto. Qed.

Lemma built_worker_handles_its_claims_witness :
  ∃ d w, init demo_startup demo_options empty_db = (d, Ok w) ∧ w_concurrency w = 4 ∧
    ∃ i, Runner.task_details (runner w) !! i = Some (lit "task") ∧ tasks d !! i = Some (lit "task").
Proof.
  destruct (init demo_startup demo_options empty_db) as [d [w|e]] eqn:E; [|vm_compute in E; discriminate E].
  exists d, w. split; [done|].
  destruct (built_worker_handles_its_claims no_parser demo_settings demo_options demo_startup empty_db d w)
    as (Hn & _ & _ & Hc & _).
  - vm_compute. reflexivity.
  - vm_compute. reflexivity.
  - intros i x Hi. cbn in Hi. by rewrite lookup_empty in Hi.
  - exact E.
  - split; [vm_compute in E; injection E as <- <-; reflexivity|].
    apply (Hn _ demo_handler). vm_compute in E. injection E as <- <-. vm_compute. reflexivity.
Defined.

Lemma init_errors_witness :
  ∃ d e, init demo_startup (with_parts demo_options (Some (LocalQueue.mkConfig 0 0 None 1)) None None None None) empty_db
         = (d, Err e) ∧ e = LocalQueueConfig LocalQueue.EmptySize ∧ ∃ i, tasks d !! i = Some (lit "task").
Proof.
  destruct (init _ _ _) as [d [w|e]] eqn:E; [vm_compute in E; discriminate E|].
  assert (e = LocalQueueConfig LocalQueue.EmptySize) as -> by (vm_compute in E; by injection E as _ <-).
  exists d, (LocalQueueConfig LocalQueue.EmptySize). split_and!; [done..|].
  destruct (init_errors demo_startup _ empty_db d (LocalQueueConfig LocalQueue.EmptySize)
    (λ i x Hi, match eq_trans (eq_sym (lookup_empty i)) Hi with end) E) as (_ & _ & Hn).
  apply Hn. exists demo_handler. vm_compute. reflexivity.
Defined.

Lemma worker_shutdown_signal_witness :
  ∃ d w, init demo_startup demo_options empty_db = (d, Ok w) ∧ w_signal w 100 = true ∧ w_signal w 60 = false.
Proof.
  destruct (init demo_startup demo_options empty_db) as [d [w|e]] eqn:E; [|vm_compute in E; discriminate E].
  exists d, w. split_and!; [done| |].
  - apply (worker_shutdown_signal _ _ _ _ _ 100 E). left. reflexivity.
  - apply not_true_iff_false. rewrite (worker_shutdown_signal _ _ _ _ _ 60 E). vm_compute.
    intros [H|[(x & H & _)|[H _]]]; discriminate H.
Defined.
End Builder.
