(* ===== verification/Cron.v ===== *)
(** * Typed cron entries (src/cron, src/builder/cron_input.rs, src/builder/cron.rs)

    The builder that makes crontab entries from a task's type instead of text,
    the inputs the worker's options accept, and what becomes of such entries
    in a worker that is built with them. *)

From S2P Require Import Prelude Job CrontabTypes AddJob JobStore CrontabRunner Runner Builder.
Open Scope Z_scope.

Module Cron.
Import CrontabTypes.
Abbreviation Crontab := (CrontabTypes.Crontab Job.Value).

(** A task type: its [IDENTIFIER] and how its payloads are serialized. *)
Record Task := mkTask {
  IDENTIFIER : str;
  Payload : Type;
  SerdeError : Type;
  to_value : Payload → result Job.Value SerdeError
}.

(** [chrono::Weekday]. *)
Inductive Weekday := Mon | Tue | Wed | Thu | Fri | Sat | Sun.
Definition weekday_from_monday (w : Weekday) : Z :=
  match w with Mon => 1 | Tue => 2 | Wed => 3 | Thu => 4 | Fri => 5 | Sat => 6 | Sun => 7 end.

(** ** cron/builder.rs *)

Section builder.
Context (T : Task).

Record CronBuilder := mkCronBuilder { crontab : Crontab }.

Definition cron_new (t : CrontabTimer) : CronBuilder := mkCronBuilder (CrontabTypes.new t (IDENTIFIER T)).

Definition with_options (f : CrontabOptions → CrontabOptions) (b : CronBuilder) : CronBuilder :=
  let c := crontab b in mkCronBuilder (mkCrontab (timer c) (task_identifier c) (f (options c)) (payload c)).
Definition with_payload (v : Job.Value) (b : CronBuilder) : CronBuilder :=
  let c := crontab b in mkCronBuilder (mkCrontab (timer c) (task_identifier c) (options c) (Some v)).

Definition cron_id (v : str) : CronBuilder → CronBuilder :=
  with_options (λ o, mkOptions (Some v) (opt_fill o) (opt_max o) (opt_queue o) (opt_priority o) (opt_job_key o) (opt_job_key_mode o)).
Definition cron_fill (v : CrontabFill) : CronBuilder → CronBuilder :=
  with_options (λ o, mkOptions (opt_id o) (Some v) (opt_max o) (opt_queue o) (opt_priority o) (opt_job_key o) (opt_job_key_mode o)).
Definition cron_max_attempts (v : Z) : CronBuilder → CronBuilder :=
  with_options (λ o, mkOptions (opt_id o) (opt_fill o) (Some v) (opt_queue o) (opt_priority o) (opt_job_key o) (opt_job_key_mode o)).
Definition cron_queue (v : str) : CronBuilder → CronBuilder :=
  with_options (λ o, mkOptions (opt_id o) (opt_fill o) (opt_max o) (Some v) (opt_priority o) (opt_job_key o) (opt_job_key_mode o)).
Definition cron_priority (v : Z) : CronBuilder → CronBuilder :=
  with_options (λ o, mkOptions (opt_id o) (opt_fill o) (opt_max o) (opt_queue o) (Some v) (opt_job_key o) (opt_job_key_mode o)).
Definition cron_job_key (v : str) : CronBuilder → CronBuilder :=
  with_options (λ o, mkOptions (opt_id o) (opt_fill o) (opt_max o) (opt_queue o) (opt_priority o) (Some v) (opt_job_key_mode o)).
Definition cron_job_key_mode (v : JobKeyMode) : CronBuilder → CronBuilder :=
  with_options (λ o, mkOptions (opt_id o) (opt_fill o) (opt_max o) (opt_queue o) (opt_priority o) (opt_job_key o) (Some v)).

Definition cron_payload (p : Payload T) (b : CronBuilder) : result CronBuilder (SerdeError T) :=
  let? v := to_value T p in Ok (with_payload v b).
Definition cron_payload_value (v : Job.Value) : CronBuilder → CronBuilder := with_payload v.

Definition build (b : CronBuilder) : Crontab := crontab b.

(** A chain of setters. *)
Inductive CronSetting :=
| SetId (v : str) | SetFill (v : CrontabFill) | SetMaxAttempts (v : Z) | SetQueue (v : str) | SetPriority (v : Z)
| SetJobKey (v : str) | SetJobKeyMode (v : JobKeyMode) | SetPayload (p : Payload T) | SetPayloadValue (v : Job.Value).

Definition cron_setting (x : CronSetting) (b : CronBuilder) : result CronBuilder (SerdeError T) :=
  match x with
  | SetId v => Ok (cron_id v b)
  | SetFill v => Ok (cron_fill v b)
  | SetMaxAttempts v => Ok (cron_max_attempts v b)
  | SetQueue v => Ok (cron_queue v b)
  | SetPriority v => Ok (cron_priority v b)
  | SetJobKey v => Ok (cron_job_key v b)
  | SetJobKeyMode v => Ok (cron_job_key_mode v b)
  | SetPayload p => cron_payload p b
  | SetPayloadValue v => Ok (cron_payload_value v b)
  end.

Fixpoint customize (xs : list CronSetting) (b : CronBuilder) : result CronBuilder (SerdeError T) :=
  match xs with
  | [] => Ok b
  | x :: xs => let? b := cron_setting x b in customize xs b
  end.

(** ** cron/mod.rs *)

Definition cron_from_timer (t : CrontabTimer) : CronBuilder := cron_new t.
Definition cron_every_minute : CronBuilder := cron_from_timer every_minute.
Definition cron_every_n_minutes (step : Z) : result CronBuilder CrontabTimerError :=
  let? t := every_n_minutes step in Ok (cron_from_timer t).
Definition cron_hourly_at (minute : Z) : result CronBuilder CrontabTimerError :=
  let? t := hourly_at minute in Ok (cron_from_timer t).
Definition cron_daily_at (hour minute : Z) : result CronBuilder CrontabTimerError :=
  let? t := daily_at hour minute in Ok (cron_from_timer t).
Definition cron_weekly_on (w : Weekday) (hour minute : Z) : result CronBuilder CrontabTimerError :=
  let? t := weekly_on (weekday_from_monday w) hour minute in Ok (cron_from_timer t).
Definition cron_monthly_on (day hour minute : Z) : result CronBuilder CrontabTimerError :=
  let? t := monthly_on day hour minute in Ok (cron_from_timer t).
Definition cron_yearly_on (month day hour minute : Z) : result CronBuilder CrontabTimerError :=
  let? t := yearly_on month day hour minute in Ok (cron_from_timer t).

(** The calls of [Cron] and the minutes their names promise. *)
Inductive Schedule :=
| EveryMinute | EveryNMinutes (n : Z) | HourlyAt (m : Z) | DailyAt (h m : Z) | WeeklyOn (w : Weekday) (h m : Z)
| MonthlyOn (d h m : Z) | YearlyOn (mo d h m : Z).

Definition cron (s : Schedule) : result CronBuilder CrontabTimerError :=
  match s with
  | EveryMinute => Ok cron_every_minute
  | EveryNMinutes n => cron_every_n_minutes n
  | HourlyAt m => cron_hourly_at m
  | DailyAt h m => cron_daily_at h m
  | WeeklyOn w h m => cron_weekly_on w h m
  | MonthlyOn d h m => cron_monthly_on d h m
  | YearlyOn mo d h m => cron_yearly_on mo d h m
  end.

Definition promised (s : Schedule) (t : NaiveDateTime) : Prop :=
  match s with
  | EveryMinute => True
  | EveryNMinutes n => minute t `mod` n = 0
  | HourlyAt m => minute t = m
  | DailyAt h m => minute t = m ∧ hour t = h
  | WeeklyOn w h m => minute t = m ∧ hour t = h ∧ number_from_monday t = weekday_from_monday w
  | MonthlyOn d h m => minute t = m ∧ hour t = h ∧ day t = d
  | YearlyOn mo d h m => minute t = m ∧ hour t = h ∧ day t = d ∧ month t = mo
  end.

(** What a chain of setters leaves in the job: the last of each. *)
Definition last_set {A} (get : CronSetting → option A) (xs : list CronSetting) : option A :=
  foldl (λ acc x, match get x with Some v => Some v | None => acc end) None xs.

Lemma cron_setting_keeps x b b' : cron_setting x b = Ok b' →
  timer (crontab b') = timer (crontab b) ∧ task_identifier (crontab b') = task_identifier (crontab b).
Proof. destruct x; cbn; [..|unfold cron_payload; destruct (to_value T p); [|done]|]; by intros [= <-]. Qed.

Lemma customize_keeps xs b b' : customize xs b = Ok b' →
  timer (crontab b') = timer (crontab b) ∧ task_identifier (crontab b') = task_identifier (crontab b).
Proof.
  revert b. induction xs as [|x xs IH]; intros b; cbn; [by intros [= <-]|].
  destruct (cron_setting x b) as [b1|] eqn:E; [|done]. apply cron_setting_keeps in E as [Ht Hi].
  intros [-> ->]%IH. done.
Qed.

(** An option of the builder is what the last setter of it says. *)
Lemma customize_option {A} (field : CrontabOptions → option A) (get : CronSetting → option A) xs b b' :
  (∀ x b b', cron_setting x b = Ok b' →
     field (options (crontab b')) = match get x with Some v => Some v | None => field (options (crontab b)) end) →
  customize xs b = Ok b' →
  field (options (crontab b')) =
    foldl (λ acc x, match get x with Some v => Some v | None => acc end) (field (options (crontab b))) xs.
Proof.
  intros Hx. revert b. induction xs as [|x xs IH]; intros b; cbn; [by intros [= <-]|].
  destruct (cron_setting x b) as [b1|] eqn:E; [|done]. intros ->%IH. by rewrite (Hx _ _ _ E).
Qed.

Lemma cron_timer s b : cron s = Ok b → task_identifier (crontab b) = IDENTIFIER T ∧
  options (crontab b) = default_options ∧
  ∀ t, should_run_at (timer (crontab b)) t = true ↔ promised s t.
Proof.
  assert (∀ (r : result CrontabTimer CrontabTimerError) s,
    (∀ t t0, r = Ok t0 → should_run_at t0 t = true ↔ promised s t) →
    ∀ b, (let? t := r in Ok (cron_from_timer t)) = Ok b →
      task_identifier (crontab b) = IDENTIFIER T ∧ options (crontab b) = default_options ∧
      ∀ t, should_run_at (timer (crontab b)) t = true ↔ promised s t) as Hmake.
  { intros r s' Hr b' Hb. destruct r as [t0|]; [|done]. injection Hb as <-. cbn. split_and!; [done..|]. intros t. by apply Hr. }
  destruct s; cbn [cron]; [|eapply Hmake; intros t t0..].
  - intros [= <-]. split_and!; [done..|]. done.
  - by apply (typed_schedules_run_exactly t0 t n 1 1 1 1 1).
  - by apply (typed_schedules_run_exactly t0 t 1 1 1 1 1 m).
  - by apply (typed_schedules_run_exactly t0 t 1 1 1 1 h m).
  - by apply (typed_schedules_run_exactly t0 t 1 (weekday_from_monday w) 1 1 h m).
  - by apply (typed_schedules_run_exactly t0 t 1 1 1 d h m).
  - by apply (typed_schedules_run_exactly t0 t 1 1 mo d h m).
Qed.

(** The settings a setter makes. *)
Definition id_of (x : CronSetting) : option str := match x with SetId v => Some v | _ => None end.
Definition fill_of (x : CronSetting) : option CrontabFill := match x with SetFill v => Some v | _ => None end.
Definition max_of (x : CronSetting) : option Z := match x with SetMaxAttempts v => Some v | _ => None end.
Definition queue_of (x : CronSetting) : option str := match x with SetQueue v => Some v | _ => None end.
Definition priority_of (x : CronSetting) : option Z := match x with SetPriority v => Some v | _ => None end.
Definition job_key_of (x : CronSetting) : option str := match x with SetJobKey v => Some v | _ => None end.
Definition mode_of (x : CronSetting) : option JobKeyMode := match x with SetJobKeyMode v => Some v | _ => None end.

(** The options of a customized entry: the last setting of each. *)
Definition customized (xs : list CronSetting) : CrontabOptions :=
  mkOptions (last_set id_of xs) (last_set fill_of xs) (last_set max_of xs) (last_set queue_of xs)
    (last_set priority_of xs) (last_set job_key_of xs) (last_set mode_of xs).

Lemma customize_options xs b b' : options (crontab b) = default_options → customize xs b = Ok b' →
  options (crontab b') = customized xs.
Proof.
  intros Hb Hc.
  assert (∀ A (field : CrontabOptions → option A) (get : CronSetting → option A),
    (∀ x b b', cron_setting x b = Ok b' →
       field (options (crontab b')) = match get x with Some v => Some v | None => field (options (crontab b)) end) →
    field default_options = None → field (options (crontab b')) = last_set get xs) as H.
  { intros A field get Hx Hd. rewrite (customize_option field get xs b b' Hx Hc), Hb, Hd. done. }
  trans (let o := options (crontab b') in
    mkOptions (opt_id o) (opt_fill o) (opt_max o) (opt_queue o) (opt_priority o) (opt_job_key o) (opt_job_key_mode o)).
  { by destruct (options (crontab b')). }
  cbv zeta. unfold customized.
  f_equal; [apply (H _ opt_id id_of)|apply (H _ opt_fill fill_of)|apply (H _ opt_max max_of)|apply (H _ opt_queue queue_of)
    |apply (H _ opt_priority priority_of)|apply (H _ opt_job_key job_key_of)|apply (H _ opt_job_key_mode mode_of)];
    try done; intros x c c'; destruct x; cbn; try (by intros [= <-]);
    unfold cron_payload; destruct (to_value T p); by try intros [= <-].
Qed.

(** A typed entry, however it is customized, adds a job at exactly the
    minutes its schedule promises: one job, for the task of its type, with
    the last setting of every option. *)
Theorem typed_cron_fires_exactly s xs b b' calendar ts_text ts : cron s = Ok b → customize xs b = Ok b' →
  let js := CrontabRunner.collect_jobs_to_schedule calendar ts_text [build b'] ts in
  (promised s (calendar ts) → ∃ j, js = [j] ∧
     AddJob.s_identifier (CrontabRunner.cj_spec j) = IDENTIFIER T ∧
     CrontabRunner.cj_identifier j = default (IDENTIFIER T) (last_set id_of xs) ∧
     AddJob.s_run_at (CrontabRunner.cj_spec j) = Some ts ∧
     AddJob.s_queue_name (CrontabRunner.cj_spec j) = last_set queue_of xs ∧
     AddJob.s_max_attempts (CrontabRunner.cj_spec j) = last_set max_of xs ∧
     AddJob.s_job_key (CrontabRunner.cj_spec j) = last_set job_key_of xs ∧
     AddJob.s_priority (CrontabRunner.cj_spec j) = last_set priority_of xs) ∧
  (¬ promised s (calendar ts) → js = []).
Proof.
  intros (Hid & Ho & Ht)%cron_timer Hc js.
  pose proof (customize_options xs b b' Ho Hc) as Ho'. apply customize_keeps in Hc as [Ht' Hi'].
  rewrite <- Ht, <- Ht'. unfold js, CrontabRunner.collect_jobs_to_schedule, filter_map, crontab_should_run_at, build.
  cbn. destruct (should_run_at _ _); (split; [intros Hp|intros Hp]); try done.
  eexists. split; [done|]. unfold CrontabRunner.for_cron. cbn. unfold identifier. rewrite Ho', Hi', Hid. done.
Qed.
End builder.

(** ** builder/cron_input.rs, builder/cron.rs *)

(** The trait [CronInput]: what [with_cron] accepts, and what it returns. *)
Class CronInput (C Output : Type) := append_to : C → Builder.WorkerOptions → Output.

#[export] Instance crontab_input : CronInput Crontab Builder.WorkerOptions :=
  λ c o, Builder.append_crontabs [c] o.
#[export] Instance builder_input : CronInput CronBuilder Builder.WorkerOptions :=
  λ b o, append_to (build b) o.

Section text.
Context {E : Type} (parse_crontab : str → result (list Crontab) E).
#[export] Instance text_input : CronInput str (result Builder.WorkerOptions E) :=
  λ text o, let? cs := parse_crontab text in Ok (Builder.append_crontabs cs o).
End text.

Definition with_cron {C Output} `{!CronInput C Output} (c : C) (o : Builder.WorkerOptions) : Output := append_to c o.
Definition with_crons (cs : list CronBuilder) (o : Builder.WorkerOptions) : Builder.WorkerOptions :=
  Builder.append_crontabs (build <$> cs) o.

(** ** Cron entries of a worker *)

Section worker.
Context {E : Type} (parse : str → result (list Crontab) E).

(** The handlers and entries a setting of the options adds. *)
Definition defines (x : Builder.Setting) (n : str) : Prop :=
  match x with Builder.Jobs (Builder.DefineJobs defs) => n ∈ defs.*1 | _ => False end.
Definition entries (x : Builder.Setting) : list Crontab :=
  match x with
  | Builder.WithCrons cs => cs
  | Builder.WithCronText text => match parse text with Ok cs => cs | Err _ => [] end
  | _ => []
  end.

Lemma define_jobs_lookup (defs : list (str * Runner.WorkerFn)) (m : gmap str Runner.WorkerFn) n :
  is_Some (m !! n) ∨ n ∈ defs.*1 → is_Some (foldl (λ m d, <[d.1 := d.2]> m) m defs !! n).
Proof.
  revert m. induction defs as [|[k f] defs IH]; intros m; cbn; [set_solver|]. intros Hn. apply IH.
  destruct (decide (k = n)) as [->|]; [left; by rewrite lookup_insert_eq; eexists|].
  rewrite lookup_insert_ne by done. set_solver.
Qed.

Lemma apply_setting_spec x o o' : Builder.apply_setting parse x o = Ok o' →
  (∀ n, is_Some (Builder.o_jobs o !! n) ∨ defines x n → is_Some (Builder.o_jobs o' !! n)) ∧
  default [] (Builder.o_crontabs o') = default [] (Builder.o_crontabs o) ++ entries x.
Proof.
  destruct x as [x|x|x|x|x|x|h|cs|text]; cbn -[app];
    [..|unfold Builder.append_text; destruct (parse text); [|done]]; [destruct (Builder.core_setting x o) eqn:Ex; [|done]|..];
    intros [= <-]; [|try destruct x; (split; [intros n [Hn|Hn]; try done|by rewrite ?app_nil_r])..].
  - destruct x; cbn in Ex; [|destruct (v <=? 0); [done|]|..]; injection Ex as <-; cbn;
      (split; [intros n [Hn|[]]; done|by rewrite app_nil_r]).
  - apply define_jobs_lookup. by left.
  - apply define_jobs_lookup. by right.
Qed.

Lemma configure_spec xs o o' : Builder.configure parse xs o = Ok o' →
  (∀ n, is_Some (Builder.o_jobs o !! n) ∨ (∃ x, x ∈ xs ∧ defines x n) → is_Some (Builder.o_jobs o' !! n)) ∧
  default [] (Builder.o_crontabs o') = default [] (Builder.o_crontabs o) ++ (xs ≫= entries).
Proof.
  revert o. induction xs as [|x xs IH]; intros o; cbn -[app].
  { intros [= <-]. split; [intros n [Hn|(x & Hx & _)]; [done|set_solver]|by rewrite app_nil_r]. }
  destruct (Builder.apply_setting parse x o) as [o1|] eqn:Ex; [|done].
  apply apply_setting_spec in Ex as [Hj Hc]. intros [Hj' Hc']%IH. split.
  - intros n Hn. apply Hj'. destruct Hn as [Hn|(y & [->|Hy]%elem_of_cons & Hn)]; [left; apply Hj; by left|left; apply Hj; by right|].
    right. by exists y.
  - rewrite Hc', Hc. by rewrite <- (assoc_L (++)).
Qed.

(** An entry made from a task type. *)
Definition typed_entry (names : str → Prop) (c : Crontab) : Prop :=
  ∃ T s ys b b', cron T s = Ok b ∧ customize T ys b = Ok b' ∧ c = build b' ∧ names (IDENTIFIER T).

Lemma init_worker st o d d' w : Builder.init st o d = (d', Ok w) →
  Runner.handlers (Builder.runner w) = Builder.o_jobs o ∧ Builder.w_crontabs w = default [] (Builder.o_crontabs o).
Proof.
  unfold Builder.init. destruct (Builder.connect st o) as [pool|]; [|done].
  destruct (negb _); [done|]. destruct (Builder.register_tasks st _ d) as [d1 [td|e]]; cbn; [|done].
  destruct (Builder.check_local_queue o); cbn; [|done]. by intros [= _ <-].
Qed.

(** In a worker whose cron entries were made from task types that were also
    defined as jobs, in any order and with any other settings between, every
    job the cron runner adds, at any tick and for any calendar, has a handler
    in that worker, and is added at a minute its schedule promises. *)
Theorem typed_crons_are_handled xs o st d d' w calendar ts_text ts j :
  Builder.configure parse xs Builder.default_options = Ok o →
  (∀ x c, x ∈ xs → c ∈ entries x → typed_entry (λ n, ∃ y, y ∈ xs ∧ defines y n) c) →
  Builder.init st o d = (d', Ok w) →
  j ∈ CrontabRunner.collect_jobs_to_schedule calendar ts_text (Builder.w_crontabs w) ts →
  is_Some (Runner.handlers (Builder.runner w) !! AddJob.s_identifier (CrontabRunner.cj_spec j)) ∧
  ∃ T s b, cron T s = Ok b ∧ AddJob.s_identifier (CrontabRunner.cj_spec j) = IDENTIFIER T ∧ promised s (calendar ts).
Proof.
  intros [Hj Hc]%configure_spec Htyped [-> ->]%init_worker. rewrite Hc. cbn [default Builder.default_options Builder.o_crontabs].
  unfold CrontabRunner.collect_jobs_to_schedule.
  intros (c & Hin & Hrun)%elem_of_filter_map. apply list_elem_of_bind in Hin as (x & Hcx & Hx).
  destruct (Htyped x c Hx Hcx) as (T & s & ys & b & b' & Hb & Hb' & -> & Hdef).
  destruct (crontab_should_run_at _ _) eqn:Er; [|done]. injection Hrun as <-.
  apply customize_keeps in Hb' as [Ht Hi]. destruct (cron_timer T s b Hb) as (Hid & _ & Hp).
  cbn [CrontabRunner.for_cron CrontabRunner.cj_spec AddJob.s_identifier]. unfold build. rewrite Hi, Hid. split.
  - apply Hj. right. destruct Hdef as (y & ? & ?). by exists y.
  - exists T, s, b. split_and!; [done..|]. apply Hp. rewrite <- Ht. exact Er.
Qed.
End worker.

(** ** Witnesses *)

(** A daily report at eight, with an unserializable payload type. *)
Definition report : Task := mkTask (lit "report") unit unit (λ _, Err ()).
Definition eight : NaiveDateTime := mkNaive 0 8 1 1 1.
Definition report_entry : CronBuilder :=
  cron_queue (lit "mail") (cron_id (lit "daily") (cron_from_timer report (mkTimer [Number 0] [Number 8] [Any] [Any] [Any]))).
Definition report_settings : list (CronSetting report) := [SetId report (lit "daily"); SetQueue report (lit "mail")].
Definition report_base : CronBuilder := cron_from_timer report (mkTimer [Number 0] [Number 8] [Any] [Any] [Any]).

Lemma typed_cron_fires_exactly_witness :
  ∃ j, CrontabRunner.collect_jobs_to_schedule (λ _, eight) (λ _, []) [build report_entry] 0 = [j] ∧
    AddJob.s_queue_name (CrontabRunner.cj_spec j) = Some (lit "mail") ∧
    CrontabRunner.cj_identifier j = lit "daily".
Proof.
  destruct (typed_cron_fires_exactly report (DailyAt 8 0) report_settings report_base report_entry
    (λ _, eight) (λ _, []) 0 eq_refl eq_refl) as [Hp _].
  destruct Hp as (j & Hj & _ & Hi & _ & Hq & _); [by vm_compute|]. exists j. split_and!; [exact Hj|exact Hq|exact Hi].
Defined.

Definition report_chain : list Builder.Setting :=
  [Builder.WithCrons [build report_entry]; Builder.Database (Builder.SetDatabaseUrl (lit "postgres://localhost"));
   Builder.Jobs (Builder.DefineJobs [(lit "report", Builder.demo_handler)])].

Lemma typed_crons_are_handled_witness :
  ∃ o d w, Builder.configure Builder.no_parser report_chain Builder.default_options = Ok o ∧
    Builder.init Builder.demo_startup o JobStore.empty_db = (d, Ok w) ∧
    is_Some (Runner.handlers (Builder.runner w) !! lit "report").
Proof.
  destruct (Builder.configure Builder.no_parser report_chain Builder.default_options) as [o|] eqn:Eo;
    [|vm_compute in Eo; discriminate Eo].
  destruct (Builder.init Builder.demo_startup o JobStore.empty_db) as [d [w|e]] eqn:Ew;
    [|injection Eo as <-; vm_compute in Ew; discriminate Ew].
  exists o, d, w. split_and!; [done..|].
  apply (typed_crons_are_handled Builder.no_parser report_chain o Builder.demo_startup JobStore.empty_db d w
    (λ _, eight) (λ _, []) 0 (CrontabRunner.for_cron (λ _, []) (build report_entry) 0 false) Eo).
  - intros x c Hx Hc. apply elem_of_cons in Hx as [->|Hx].
    + apply list_elem_of_singleton in Hc as ->.
      exists report, (DailyAt 8 0), report_settings, report_base, report_entry. split_and!; [done..|].
      exists (Builder.Jobs (Builder.DefineJobs [(lit "report", Builder.demo_handler)])). split; [|constructor].
      unfold report_chain. rewrite !elem_of_cons. auto.
    + repeat (apply elem_of_cons in Hx as [->|Hx]; [by apply elem_of_nil in Hc|]). by apply elem_of_nil in Hx.
  - exact Ew.
  - injection Eo as <-. vm_compute in Ew. injection Ew as _ <-. vm_compute. constructor.
Defined.
End Cron.
